(* ===== verification/_CoqProject ===== *)
-Q . S2P
Prelude.v
Bytes.v
Text.v
CrdtClock.v
CrdtCore.v
CrdtCounters.v
CrdtSets.v
CrdtGc.v
CrdtAworset.v
CrdtCodec.v
CrdtReg.v
Rga.v
CrdtManager.v
ValueLayout.v
Bytecode.v
CoreVm.v
CacheArena.v
CacheIndex.v
Cache.v
CacheRefine.v
CacheWheel.v
RedisSlot.v
Resp.v
RespCache.v
RespRefine.v
CacheRouting.v
CacheCluster.v
CacheDispatch.v
CacheNode.v
Tablet.v
FileSystem.v
TabletWal.v
TabletLog.v
TabletStore.v
TabletDurable.v
TabletRuns.v
Types.v
TypeCanonical.v
Unify.v
UnifyCorrect.v
Schemes.v
FabricStore.v
FabricSegment.v
FabricCluster.v
FabricEpoch.v
FabricSystem.v
FabricProtocol.v
FabricElect.v
FabricAgree.v
FabricInvariant.v
FabricHistory.v
FabricSteps.v
FabricLogic.v
FabricCalls.v
FabricRefine.v
FabricReplicate.v
FabricTransit.v
FabricSafety.v
FabricRuns.v
