(* ===== verification/Prelude.v ===== *)
(** * Nulang: types, values, interpreter, replicated data, cache, storage and streams

    Nulang is a language with actors, effects and replicated data.  This
    development models parts of its compiler and runtime, in the source files
    below [src/src/], and proves what makes them correct.

    ** The parts and how they fit together

    Seven groups of code are modelled; inside a group the files build on each
    other as the code does.

    - Replicated data ([runtime/crdt.rs], [runtime/crdt_reg.rs],
      [runtime/crdt_manager.rs]).  Each replica
      of a counter, set, register or sequence changes its own state; replicas
      exchange full states or deltas as bytes and merge them.  A matrix clock
      tells which removals every node has seen, so that their tombstones can be
      collected.
    - Values and bytecode ([value_layout.rs], [vm.rs], [bytecode.rs],
      [core_vm/mod.rs]).  A value is a 64-bit pattern in the space of the NaNs;
      an instruction is a 32-bit word; the Core VM runs decoded modules on a
      stack of frames.
    - The cache store ([runtime/cache.rs]).  A keyed store with deadlines: bytes
      live in an arena of size classes, keys are found through an open-addressing
      index, deadlines are queued in a wheel.
    - The cache service ([runtime/resp.rs], [runtime/resp_cache.rs],
      [runtime/cache_routing.rs], [runtime/cache_cluster.rs],
      [runtime/cache_dispatch.rs]).  Clients speak RESP; a command is parsed from
      the bytes received, routed by the slot of its keys to the shard that owns
      the slot, and run against the store of that shard, directly or through a
      bounded queue between shards.
    - Tablets ([database/tablet.rs], [database/wal.rs],
      [database/checkpoint.rs], [database/store.rs]).  A tablet holds all versions
      of the keys of a range; a write is appended to a log and made durable
      before it is visible; a checkpoint of the tablet replaces the log.
    - Types ([types.rs], [type_ir.rs], [typechecker.rs]).  The types of
      expressions with their capabilities and effects, the bytes and the normal
      form that identify a type, unification, and the schemes that bindings get.

    - Fabric streams ([runtime/fabric_stream.rs],
      [runtime/fabric_stream_cluster.rs], [runtime/fabric_stream_epoch.rs], and
      the packets of streams in [runtime/distributed.rs]).  A stream is a log in
      segment files.  Its leader appends records, replicas acknowledge them, and
      a majority commits them.  A new epoch with other replicas is proposed by
      its leader, promised by a majority of the old replicas and installed.

    ** Files

    - [Prelude]: results, machine widths and wrap-around, loops over maps, join
      laws shared by the lattices.
    - [Bytes]: big- and little-endian fields, slices, strings and UTF-8, the
      cursor-passing readers of the wire formats and the [reads] predicate that
      composes their round trips.
    - [Text]: decimal and hexadecimal text, UTF-8 characters.
    - [CrdtClock]: [LamportTime], [LamportClock], [MatrixClock]; the cluster of
      clocks with messages in flight.
    - [CrdtCore]: the CRDT trait as a class, its laws as a second class, and
      convergence from the laws.
    - [CrdtCounters]: [GCounter], [PNCounter], [GSet].
    - [CrdtSets], [CrdtGc]: [ORSet], and its clusters with tombstone collection
      as [crdt_manager.rs] drives it.
    - [CrdtAworset]: [AWORSet].  [CrdtCodec]: the wire formats of the sets.
    - [CrdtReg]: [LWWRegister], [MVRegister].  [Rga]: the replicated sequence.
    - [CrdtManager]: the entries of the manager, and how it applies full-state
      and delta operations.
    - [ValueLayout]: tags, constructors, tests and accessors of values.
    - [Bytecode]: opcodes, instruction words, modules.
    - [CoreVm]: every instruction, the call stack, the run loop.
    - [CacheArena], [CacheIndex], [Cache]: arena, index, and the store with its
      wheel.  [CacheRefine]: the store against a map.  [CacheWheel]: deadlines.
    - [RedisSlot]: CRC-16, hash tags, slots.
    - [Resp]: parser and reply writers.  [RespCache]: the commands, against the
      class [CacheApi] of what they call.  [RespRefine]: the laws [CacheLaws]
      that the class asks of a store, their instance for the cache store, and
      the service of a stream of commands.
    - [CacheRouting], [CacheCluster], [CacheDispatch]: slot map, CLUSTER
      commands, queues and dispatch.  [CacheNode]: the shards of a node together.
    - [Tablet]: ranges, descriptors, prepared writes and the in-memory tablet.
    - [FileSystem]: files and directories with what of them is durable, calls
      that may fail, power failures, and the rules to reason about them.
    - [TabletWal]: the write-ahead log.  [TabletStore]: checkpoints and the
      log-backed tablet.  [TabletLog]: the bytes of a log and what opening,
      appending and reclaiming do to them.  [TabletDurable]: the disk of a tablet
      under faults and power failures, and its runs against a list of batches.
      [TabletRuns]: a codec and a digest that meet the assumptions, and runs.
    - [Types]: capabilities, effects, types, their text, free variables and
      normal form.  [TypeCanonical]: the canonical bytes of a type.
    - [Unify]: substitutions, [mgu] and everything it calls, with its errors.
      [UnifyCorrect]: substitution on types, and unification against it.
    - [Schemes]: contexts, generalisation and instantiation.
    - [FabricStore]: the store of a stream.  [FabricSegment]: its segments as
      bytes.  [FabricCluster]: placement and replication.  [FabricEpoch]: epochs
      and the handlers of packets.  [FabricSystem]: a cluster, whose steps are
      events on a node.
    - [FabricProtocol]: what a node may do, as a step relation on the state that
      matters for safety.  [FabricElect], [FabricAgree]: elections and committed
      records in a history.  [FabricInvariant], [FabricHistory], [FabricSteps]:
      the invariant of nodes and packets, and that every step keeps it.
    - [FabricLogic]: a logic in which an operation is shown not to panic and to
      be a sequence of steps.  [FabricCalls], [FabricRefine], [FabricReplicate],
      [FabricTransit]: the operations of the store, of replication and of
      epochs in this logic.  [FabricSafety]: all events.  [FabricRuns]: the
      theorem for clusters, and executed runs.

    Definitions carry the names of the source, a method [m] of a type [T] being
    [T_m].  Unsigned integers are [N] with their wrap-around, checked or
    saturating operations written out; [i64] is [Z].  A [HashMap] is a [gmap];
    where the source walks one, the order of the walk is a parameter and the
    theorems hold for every order.  A [Vec] is a list; an index out of range, an
    [expect] on [None] or an arithmetic overflow that panics is [None] (in
    [CoreVm], the error [E_panic]), so a theorem that a call returns [Some] says
    that it does not panic.  Plain [+] and [-] panic in builds with overflow
    checks and wrap in others: [CoreVm] takes the build as the class [Build].

    ** What is shown

    - Replication: the laws of a state-based CRDT for counters, sets and
      registers, and what deltas give of full states; that managers which have
      been told the same states read the same values; in clusters, that
      increments count exactly once, that the write with the largest counter
      wins, that the watermark of a matrix clock is known to every node, and
      that collecting tombstones cannot be observed when whole states arrive in
      time; the effect of local edits; round trips of all wire formats.
    - Values and bytecode: the kinds of values are disjoint and constructors
      are inverted by accessors; instruction words round-trip.
    - Core VM: no module panics the interpreter, in builds with overflow checks
      if none of its jumps goes to its first instruction; integer arithmetic is modulo
      2^48; interned strings keep their meaning; a call changes only the program
      counter and destination register of its caller; handlers have no effect.
    - Cache: the store answers as a map from keys to values with deadlines; the
      index insertion terminates; when no purge was cut short by its limit, a
      purge leaves no entry whose deadline has passed; slots are CRC-16 remainders and route keys of one tag together.
    - Cache service: the parser is stable under further input and inverts the
      encoding of commands; a stream of commands is answered byte for byte as by
      the map; placements change by epochs, all or nothing, and the ranges
      reported to clients agree with routing; the shards of a node together
      answer as one map, for every interleaving of arrivals and queue service.
    - Tablets: a split shares the keys of its source; a snapshot reads what the
      batches up to it left behind.  A log-backed tablet, once
      created, keeps the batches it acknowledged through errors of any call and
      power failures at any moment, and on a disk without faults opens again and
      commits what it accepts.
    - Types: [join] of capabilities is the least upper bound of the order of
      subtypes; canonical bytes identify a type up to the order of its fields and
      effects; on the types described below [mgu] ends, its result is most
      general, and its errors mean that no unifier exists; generalisation and
      instantiation rename exactly the variables that may be renamed.
    - Streams: the operations of every node refine the steps of a protocol, no
      event panics, and committed records agree on all nodes and for all
      readers, for lost, repeated and reordered packets, failing calls on files,
      restarts and any views of the membership, when majorities of old and new
      replicas meet; a run shows that this condition is needed.  An append torn
      at any byte is recovered to whole records, and reading the bytes of the
      segments gives the records of the log.

    Some theorems record behaviour that differs from what comments or tests of
    the source say; they are named with what they show, for example
    [aworset_gc_resurrects], [orset_gc_late_payload_resurrects],
    [orset_gc_lost_delta_resurrects], [rga_order_diverges],
    [rga_delete_same_stamp], [lww_forwarding_diverges], [purge_limit_strands],
    [core_vm_jump_to_start_panics], [core_vm_handlers_inert],
    [value_float_nan_aliases], [dup_key_unrecoverable], [unsynced_entry_lost],
    [torn_header_unopenable], [mgu_skolems], [mgu_ignores_effects],
    [mgu_breaks_opacity], [mgu_skips_nested_nominal], [mgu_cyclic],
    [generalize_skolem_escapes], [free_vars_scheme_drops],
    [apply_subst_to_ctx_unhides], [fabric_shrink_diverges],
    [failover_term_stuck], [unnamed_append_panics], [torn_header_unrecoverable].

    ** Parameters, bounds and fuel

    - The hash of a cache key comes from a crate: it is the parameter [hash_key],
      used only as a function of the key.
    - The digest of the log and the JSON codec of records and checkpoints come
      from crates: [blake3] has 32 bytes, and reading what the codec wrote gives
      it back.  Nothing is assumed of collisions: of the damage a disk can do,
      [power_failure] has only the loss of what was not made durable.
    - The scan of a log takes as many rounds as the file has bytes, and one more:
      each record has a byte at least.
    - The runs of a tablet begin when its creation has been acknowledged:
      [torn_header_unopenable] shows what an interrupted creation leaves.  It is
      opened again after a power failure, not merely after its process has
      ended: [unsynced_entry_lost] shows why.  Its batches write no key twice,
      for which see [dup_key_unrecoverable].
    - Replicated sets with collection: states that are under way are delivered
      in time ([in_time]), that is, their sender had observed what the receiver
      has collected; deltas are not part of these clusters.  Managers converge
      on all types but the replicated array, whose order may differ.
    - Index probes of the source loop until they stop: the model gives them one
      turn of the table, which is proved enough for insertion whenever a bucket
      is free; lookups are bounded by the table in the source.
    - [run_loop] of the Core VM takes the number of rounds, since programs may
      run for ever: its theorems hold for every number.
    - [apply_subst], [mgu] and [compose_subst] call themselves without a
      decreasing argument and take fuel.  [mgu_correct] gives a bound from which
      on the result does not change.  It is about types without row tails,
      schemes, applied variables and actor references, with ground nominal
      types ([plain]), and without variables under variants unless a unifier
      exists, since the occurs check does not look there; two types agree
      ([agree]) up to field order, ground types whose digests the source
      compares as equal, compatible effects, and [Never] against any type.  The counter of fresh variables is
      passed along; instantiation assumes that it does not wrap.
    - Streams: the model is of one stream, since operations touch only the
      directory of the stream they name.  A call on a file other than a segment
      fails without effect or after the file has been replaced durably.  The
      digest is a parameter, and digests of the proposals made in a run differ.
      The first policies that nodes compute agree.  Records enter by
      [fabric_stream_replicated_append] and the calls below it: the local
      [fabric_stream_append] on a replicated stream, and envelopes that an
      application builds itself, are outside the steps.  The loop of
      [advance_commits] takes one round more than there are tickets, each round
      removing one; the loop of [decode_segment] one more than there are bytes:
      [advance_loop_enough] and [decode_records_enough] show that more rounds
      change nothing.
      A segment has its whole header, for which see [torn_header_unrecoverable].
    - Capacity: the store theorems assume that the bytes of all operations
      together stay below 4 GiB, each key and value at most 1 GiB, and the
      operations below 2^32-2, the limits at which the source panics; the Core
      VM runs for at most 2^46 rounds less its closure environments; wire round trips assume that lengths and
      counters fit their fields.
    - The steps of [CacheNode] are whole calls of dispatch and of queue service.
      A shard owns its store and the queues are linearisable channels of the
      standard library, so threads interleave at such calls.

    ** Not modelled

    Lexer, parser, the inference of expressions, the effect checker and the
    lowering passes are a compiler of tens of thousands of lines whose state is
    interwoven with diagnostics; of the type checker only what is listed above is
    modelled, and nothing here speaks of source programs.  The full VM, the JIT,
    WebAssembly and foreign-function backends generate or run code on raw memory
    through external engines.  The actor runtime, heap and collector work on
    threads, atomics and raw pointers.  Network, TLS, membership of the cluster,
    object stores, the sockets of the cache server and the command-line tools are
    input and output; streams take the membership as a value that may differ at
    every step.  Of files, the calls the database makes are modelled in
    [FileSystem].  The JSON of the other files and of the packets of streams
    comes from a crate: both carry values.
    Floats of values are bit patterns only: the Core VM has no float arithmetic.
    The memory occupied by a [Vec] or a map is not modelled, beyond the limits
    the source checks. *)
From stdpp Require Export prelude gmap fin_maps list sorting.
From Stdlib Require Export Lia.

#[export] Set Warnings "-clear-no-such-hyp".

Declare Scope nula_scope.
Delimit Scope nula_scope with nula.

(** ** Results: Rust's [Result<A, E>] *)

Inductive result (A E : Type) : Type :=
| Ok (a : A)
| Err (e : E).
Arguments Ok {A E} a.
Arguments Err {A E} e.

Definition res_bind {A B E} (r : result A E) (k : A → result B E) : result B E :=
  match r with Ok a => k a | Err e => Err e end.

Definition ok_or {A E} (o : option A) (e : E) : result A E :=
  match o with Some a => Ok a | None => Err e end.

Notation "'let?' x ':=' r 'in' k" := (res_bind r (λ x, k))
  (at level 10, x pattern, r at level 100, k at level 200) : nula_scope.
Open Scope nula_scope.

(** ** Machine widths *)

Local Open Scope N_scope.

Definition U8 : N := 2 ^ 8.
Definition U16 : N := 2 ^ 16.
Definition U32 : N := 2 ^ 32.
Definition U64 : N := 2 ^ 64.

(** [v as u32], [v as u64] and wrapping arithmetic. *)
Definition as_u16 (v : N) : N := v mod U16.
Definition as_u32 (v : N) : N := v mod U32.
Definition as_u64 (v : N) : N := v mod U64.
Definition wrapping_add64 (a b : N) : N := (a + b) mod U64.
Definition checked_add64 (a b : N) : option N :=
  if a + b <? U64 then Some (a + b) else None.
Definition saturating_add64 (a b : N) : N := N.min (a + b) (U64 - 1).
Definition checked_mul64 (a b : N) : option N :=
  if a * b <? U64 then Some (a * b) else None.

(** [v as i64] of a [u64], and the wrap-around of [i64] arithmetic. *)
Definition wrap_i64 (z : Z) : Z := ((z + 2 ^ 63) mod 2 ^ 64 - 2 ^ 63)%Z.
Definition as_i64 (v : N) : Z := wrap_i64 (Z.of_N v).

(** [i64::checked_add] and its like: the exact result, if it fits. *)
Definition checked_i64 (z : Z) : option Z :=
  if ((- 2 ^ 63 <=? z) && (z <? 2 ^ 63))%Z then Some z else None.
Definition checked_add_i64 (a b : Z) : option Z := checked_i64 (a + b).

(** The length of a slice as a [usize]. *)
Definition len {A} (l : list A) : N := N.of_nat (length l).

Lemma len_nil {A} : len (@nil A) = 0.
Proof. reflexivity. Qed.
Lemma len_cons {A} (x : A) l : len (x :: l) = 1 + len l.
Proof. unfold len; simpl; lia. Qed.
Lemma len_app {A} (l1 l2 : list A) : len (l1 ++ l2) = len l1 + len l2.
Proof. unfold len; rewrite length_app; lia. Qed.

Create HintDb nula.
Create Rewrite HintDb nula.
#[export] Hint Rewrite @len_nil @len_cons @len_app : nula.

Lemma as_u32_small v : v < U32 → as_u32 v = v.
Proof. apply N.mod_small. Qed.
Lemma as_u64_small v : v < U64 → as_u64 v = v.
Proof. apply N.mod_small. Qed.
Lemma wrapping_add64_small a b : a + b < U64 → wrapping_add64 a b = a + b.
Proof. apply N.mod_small. Qed.
Lemma wrap_i64_small z : (- 2 ^ 63 ≤ z < 2 ^ 63)%Z → wrap_i64 z = z.
Proof. intros. unfold wrap_i64. rewrite Z.mod_small by lia. lia. Qed.
Lemma wrapping_add64_lt a b : wrapping_add64 a b < U64.
Proof. apply N.mod_lt. discriminate. Qed.

(** Numeric side conditions on machine words. *)
Ltac word_lia := unfold U8, U16, U32, U64 in *; lia.

(** ** Bit fields *)

Lemma testbit_small a k i : a < 2 ^ k → k ≤ i → N.testbit a i = false.
Proof.
  intros Ha Hi. destruct (decide (a = 0)) as [->|]; [apply N.bits_0|].
  apply N.bits_above_log2. apply N.log2_lt_pow2; [lia|].
  eapply N.lt_le_trans; [done|]. by apply N.pow_le_mono_r.
Qed.

(** Placing a field below another: [a << k | b] is [a * 2^k + b]. *)
Lemma lor_shiftl_add a b k : b < 2 ^ k → N.lor (N.shiftl a k) b = a * 2 ^ k + b.
Proof.
  intros Hb. apply N.bits_inj. intros i. rewrite N.lor_spec. destruct (N.ltb_spec i k).
  - rewrite N.shiftl_spec_low by done. simpl.
    rewrite <-(N.mod_pow2_bits_low (a * 2 ^ k + b) k i) by done.
    rewrite N.add_comm, N.Div0.mod_add. by rewrite N.mod_pow2_bits_low.
  - rewrite N.shiftl_spec_high' by done. rewrite (testbit_small b k i) by done.
    rewrite orb_false_r. replace i with ((i - k) + k) at 2 by lia.
    rewrite <-N.div_pow2_bits. f_equal.
    rewrite N.div_add_l by (by apply N.pow_nonzero). rewrite N.div_small by done. lia.
Qed.

(** Masking one bit. *)
Lemma land_pow2 a k : N.land a (2 ^ k) = if N.testbit a k then 2 ^ k else 0.
Proof.
  apply N.bits_inj. intros i. rewrite N.land_spec, N.pow2_bits_eqb.
  destruct (N.eqb_spec k i) as [->|Hne].
  - rewrite andb_true_r. destruct (N.testbit a i) eqn:Hi; [by rewrite N.pow2_bits_true|by rewrite N.bits_0].
  - rewrite andb_false_r. destruct (N.testbit a k); [|by rewrite N.bits_0].
    by rewrite N.pow2_bits_false.
Qed.

Lemma testbit_top a k : a < 2 ^ (k + 1) → N.testbit a k = negb (a <? 2 ^ k).
Proof.
  intros Ha. rewrite N.pow_add_r in Ha. change (2 ^ 1) with 2 in Ha.
  rewrite N.testbit_odd, N.shiftr_div_pow2.
  destruct (N.ltb_spec a (2 ^ k)) as [Hlt|Hge].
  - by rewrite N.div_small.
  - replace (a / 2 ^ k) with 1; [done|].
    apply (N.div_unique _ _ _ (a - 2 ^ k)); lia.
Qed.

(** ** Booleans and decisions *)

(** Turns boolean comparisons in the hypotheses into propositions and
    splits a conditional of the goal on its test. *)
Ltac bool_to_prop :=
  repeat match goal with
  | H : (_ <? _)%N = true |- _ => apply N.ltb_lt in H
  | H : (_ <? _)%N = false |- _ => apply N.ltb_ge in H
  | H : (_ <=? _)%N = true |- _ => apply N.leb_le in H
  | H : (_ <=? _)%N = false |- _ => apply N.leb_gt in H
  | H : (_ =? _)%N = true |- _ => apply N.eqb_eq in H
  | H : (_ =? _)%N = false |- _ => apply N.eqb_neq in H
  | H : bool_decide _ = true |- _ => apply bool_decide_eq_true_1 in H
  | H : bool_decide _ = false |- _ => apply bool_decide_eq_false_1 in H
  | H : _ && _ = true |- _ => apply andb_true_iff in H as [??]
  | H : _ || _ = false |- _ => apply orb_false_iff in H as [??]
  | H : negb _ = true |- _ => apply negb_true_iff in H
  | H : negb _ = false |- _ => apply negb_false_iff in H
  end.

Ltac case_if :=
  match goal with
  | |- context [if ?b then _ else _] => destruct b eqn:?; bool_to_prop
  end.

(** ** Loops over the entries of a hash map

    A [for (k, v) in &map] loop visits every entry once, in an order the
    standard library does not specify.  [for_each] is the loop over one
    such enumeration; [upsert] is the loop body that reads and rewrites the
    slot of [k] only, which is the shape of every merge loop of the CRDTs. *)

Definition for_each {K V W} (step : W → K → V → W) (w : W) (it : list (K * V)) : W :=
  foldl (λ w kv, step w kv.1 kv.2) w it.

Definition upsert {K V W} `{Countable K} (f : K → option V → W → option V)
    (m : gmap K V) (k : K) (v : W) : gmap K V :=
  partial_alter (λ o, f k o v) k m.

(** The pointwise join of two optional entries. *)
Definition opt_join {V} (f : V → V → V) (o1 o2 : option V) : option V :=
  union_with (λ x y, Some (f x y)) o1 o2.

Section loops.
Context {K V W : Type} `{Countable K}.
Implicit Types (m : gmap K V) (f : K → option V → W → option V).

(** A loop body that changes the slot of [k] only is an upsert. *)
Lemma upsert_intro f m m' k v :
  (∀ j, j ≠ k → m' !! j = m !! j) → m' !! k = f k (m !! k) v → m' = upsert f m k v.
Proof.
  intros Hne Heq. apply map_eq. intros j. unfold upsert.
  destruct (decide (j = k)) as [->|Hj].
  - by rewrite lookup_partial_alter_eq.
  - rewrite lookup_partial_alter_ne by done. by apply Hne.
Qed.

Lemma for_each_ext {A} (step1 step2 : A → K → W → A) w it :
  (∀ w k v, step1 w k v = step2 w k v) → for_each step1 w it = for_each step2 w it.
Proof.
  intros Hext. unfold for_each. revert w.
  induction it as [|[k v] it IH]; intros w; simpl; [done|]. by rewrite Hext, IH.
Qed.

Lemma for_each_upsert f m (it : list (K * W)) k :
  NoDup it.*1 →
  for_each (upsert f) m it !! k =
    match (list_to_map it : gmap K W) !! k with
    | Some v => f k (m !! k) v
    | None => m !! k
    end.
Proof.
  revert m. induction it as [|[j v] it IH]; intros m; simpl; [by rewrite lookup_empty|].
  intros [Hj Hnd]%NoDup_cons. unfold for_each in *; simpl. rewrite IH by done.
  unfold upsert. destruct (decide (j = k)) as [->|Hne].
  - rewrite lookup_insert_eq, lookup_partial_alter_eq.
    by rewrite not_elem_of_list_to_map_1.
  - by rewrite lookup_insert_ne, lookup_partial_alter_ne.
Qed.

(** The result of an upsert loop over a map does not depend on the
    iteration order. *)
Lemma for_each_upsert_map step f m (m' : gmap K W) it k :
  it ≡ₚ map_to_list m' → (∀ w k v, step w k v = upsert f w k v) →
  for_each step m it !! k =
    match m' !! k with Some v => f k (m !! k) v | None => m !! k end.
Proof.
  intros Hit Hstep. rewrite (for_each_ext step (upsert f)) by done.
  rewrite for_each_upsert.
  - rewrite <-(list_to_map_to_list m'). f_equal.
    rewrite (list_to_map_proper it (map_to_list m')); try done.
    rewrite Hit. apply NoDup_fst_map_to_list.
  - rewrite Hit. apply NoDup_fst_map_to_list.
Qed.

End loops.

(** Inserting [f k] for every [k] of a list. *)
Lemma lookup_fold_insert {K V} `{Countable K} (f : K → V) (ks : list K) (m : gmap K V) k :
  foldl (λ m k, <[k := f k]> m) m ks !! k = if decide (k ∈ ks) then Some (f k) else m !! k.
Proof.
  revert m. induction ks as [|x ks IH]; intros m; cbn [foldl].
  { rewrite decide_False by apply not_elem_of_nil. done. }
  rewrite IH. destruct (decide (k ∈ ks)) as [?|?].
  - rewrite decide_True by (by right). done.
  - destruct (decide (k = x)) as [->|Hne].
    + rewrite lookup_insert_eq, decide_True by left. done.
    + rewrite lookup_insert_ne, decide_False; [done| |done].
      intros [?|?]%elem_of_cons; done.
Qed.

(** Inserting every element of a list into a set. *)
Lemma foldl_insert_set {A} `{Countable A} (xs : list A) (s : gset A) :
  foldl (λ acc x, {[x]} ∪ acc) s xs = list_to_set xs ∪ s.
Proof. revert s. induction xs as [|x xs IH]; intros s; simpl; [|rewrite IH]; set_solver. Qed.

Lemma elem_of_foldl_insert {A} `{Countable A} (xs : list A) (s : gset A) x :
  x ∈ foldl (λ acc x, {[x]} ∪ acc) s xs ↔ x ∈ s ∨ x ∈ xs.
Proof. rewrite foldl_insert_set, elem_of_union, elem_of_list_to_set. tauto. Qed.

(** Proves that a loop body is an upsert, by cases on its tests. *)
Ltac solve_upsert :=
  intros; apply upsert_intro;
  [intros; repeat case_match; by rewrite ?lookup_insert_ne by done
  |repeat case_match; simplify_eq; rewrite ?lookup_insert_eq; try done].

(** ** Join-semilattices *)

(** [JoinLaws j]: the binary operation [j]
    is associative, commutative and idempotent. *)
Class JoinLaws {A} (j : A → A → A) : Prop := {
  join_assoc : ∀ a b c, j a (j b c) = j (j a b) c;
  join_comm : ∀ a b, j a b = j b a;
  join_idemp : ∀ a, j a a = a;
}.

#[export] Instance N_max_join : JoinLaws N.max.
Proof. split; intros; lia. Qed.

#[export] Instance opt_join_laws {V} (f : V → V → V) `{!JoinLaws f} : JoinLaws (opt_join f).
Proof.
  split.
  - intros [] [] []; simpl; f_equal; apply join_assoc.
  - intros [] []; simpl; f_equal; apply join_comm.
  - intros []; simpl; f_equal; apply join_idemp.
Qed.

Section map_join.
Context {K V : Type} `{Countable K} (f : V → V → V) `{!JoinLaws f}.

Definition map_join (m1 m2 : gmap K V) : gmap K V :=
  union_with (λ x y, Some (f x y)) m1 m2.

Lemma lookup_map_join m1 m2 k : map_join m1 m2 !! k = opt_join f (m1 !! k) (m2 !! k).
Proof. apply lookup_union_with. Qed.

#[export] Instance map_join_laws : JoinLaws map_join.
Proof.
  split; intros; apply map_eq; intros k; rewrite ?lookup_map_join.
  - apply join_assoc.
  - apply join_comm.
  - apply join_idemp.
Qed.
End map_join.

(** ** Clusters: one state per node *)

Definition set_replica {A} (c : N → A) (n : N) (a : A) : N → A :=
  λ m, if decide (m = n) then a else c m.

Lemma set_replica_eq {A} (c : N → A) n a : set_replica c n a n = a.
Proof. unfold set_replica. by rewrite decide_True. Qed.

Lemma set_replica_ne {A} (c : N → A) n a m : m ≠ n → set_replica c n a m = c m.
Proof. intros. unfold set_replica. by rewrite decide_False. Qed.

(** Splits on whether the replicas mentioned are the changed one, [n]; in
    the whole context or in the goal only. *)
Ltac replica n :=
  unfold set_replica in *;
  repeat match goal with
  | |- context [decide (?m = n)] => destruct (decide (m = n)) as [->|?]
  | H : context [decide (?m = n)] |- _ => destruct (decide (m = n)) as [->|?]
  end.

Ltac replica_goal n :=
  unfold set_replica;
  repeat match goal with
  | |- context [decide (?m = n)] => destruct (decide (m = n)) as [->|?]
  end.
