(* ===== verification/Bytes.v ===== *)
(** * Byte buffers: the big-endian codec shared by the replicated types

    [src/runtime/crdt.rs] serialises every CRDT with the helpers
    [push_u64]/[push_u32]/[push_string] and parses it with
    [read_u64]/[read_u32]/[read_string], which walk a [&[u8]] with an explicit
    position.  A byte is an [N] below 256, a buffer a [list N]; a Rust
    [String] is the list of its UTF-8 bytes.  [to_be_bytes], [from_be_bytes]
    and [String::from_utf8] are the standard library's. *)
From S2P Require Import Prelude.

Local Open Scope N_scope.

Abbreviation bytes := (list N).

(** ** Standard library: fixed-width integers as bytes *)

(** [v.to_be_bytes()] of a [k]-byte integer. *)
Fixpoint to_be_bytes (k : nat) (v : N) : bytes :=
  match k with
  | O => []
  | S k => (v / 256 ^ N.of_nat k) mod 256 :: to_be_bytes k v
  end.

Definition from_be_bytes (bs : bytes) : N := foldl (λ acc b, acc * 256 + b) 0 bs.

(** [v.to_le_bytes()] and [from_le_bytes]. *)
Definition to_le_bytes (k : nat) (v : N) : bytes := reverse (to_be_bytes k v).
Definition from_le_bytes (bs : bytes) : N := from_be_bytes (reverse bs).

(** [&bytes[start..end]], for bounds the caller has checked. *)
Definition slice {A} (bs : list A) (start stop : N) : list A :=
  take (N.to_nat (stop - start)) (drop (N.to_nat start) bs).

(** ** Standard library: UTF-8 validity *)

Definition in_range (lo hi b : N) : bool := (lo <=? b) && (b <=? hi).
Definition is_cont : N → bool := in_range 128 191.

(** The well-formed sequences accepted by [core::str::from_utf8]. *)
Fixpoint utf8_valid (bs : bytes) : bool :=
  match bs with
  | [] => true
  | b0 :: r0 =>
      if b0 <? 128 then utf8_valid r0 else
      match r0 with
      | [] => false
      | b1 :: r1 =>
          if in_range 194 223 b0 then is_cont b1 && utf8_valid r1 else
          match r1 with
          | [] => false
          | b2 :: r2 =>
              if b0 =? 224 then in_range 160 191 b1 && is_cont b2 && utf8_valid r2
              else if b0 =? 237 then in_range 128 159 b1 && is_cont b2 && utf8_valid r2
              else if in_range 225 239 b0 then is_cont b1 && is_cont b2 && utf8_valid r2
              else
              match r2 with
              | [] => false
              | b3 :: r3 =>
                  if b0 =? 240 then
                    in_range 144 191 b1 && is_cont b2 && is_cont b3 && utf8_valid r3
                  else if in_range 241 243 b0 then
                    is_cont b1 && is_cont b2 && is_cont b3 && utf8_valid r3
                  else if b0 =? 244 then
                    in_range 128 143 b1 && is_cont b2 && is_cont b3 && utf8_valid r3
                  else false
              end
          end
      end
  end.

(** [String::from_utf8(bs).ok()]. *)
Definition from_utf8 (bs : bytes) : option bytes :=
  if utf8_valid bs then Some bs else None.

(** ** The codec of [crdt.rs] *)

Definition push_u64 (buf : bytes) (v : N) : bytes := buf ++ to_be_bytes 8 v.

Definition push_u32 (buf : bytes) (v : N) : bytes := buf ++ to_be_bytes 4 v.

Definition read_u64 (bs : bytes) (pos : N) : option (N * N) :=
  stop ← checked_add64 pos 8;
  if len bs <? stop then None
  else Some (from_be_bytes (slice bs pos stop), stop).

Definition read_u32 (bs : bytes) (pos : N) : option (N * N) :=
  stop ← checked_add64 pos 4;
  if len bs <? stop then None
  else Some (from_be_bytes (slice bs pos stop), stop).

Definition push_string (buf : bytes) (s : bytes) : bytes :=
  push_u32 buf (as_u32 (len s)) ++ s.

Definition read_string (bs : bytes) (pos : N) : option (bytes * N) :=
  '(n, pos) ← read_u32 bs pos;
  stop ← checked_add64 pos n;
  if len bs <? stop then None
  else s ← from_utf8 (slice bs pos stop); Some (s, stop).

(** [for _ in 0..n { ... }] over a state, leaving early with [?]. *)
Fixpoint try_for {S} (n : nat) (body : S → option S) (s : S) : option S :=
  match n with
  | O => Some s
  | S n => s ← body s; try_for n body s
  end.

(** ** Lemmas *)

Lemma length_to_be_bytes k v : length (to_be_bytes k v) = k.
Proof. induction k; simpl; congruence. Qed.

Lemma len_to_be_bytes k v : len (to_be_bytes k v) = N.of_nat k.
Proof. unfold len. by rewrite length_to_be_bytes. Qed.
#[export] Hint Rewrite len_to_be_bytes : nula.

Lemma foldl_be_shift (bs : bytes) acc :
  foldl (λ acc b, acc * 256 + b) acc bs = acc * 256 ^ len bs + from_be_bytes bs.
Proof.
  unfold from_be_bytes. revert acc.
  induction bs as [|b bs IH]; intros acc; simpl.
  - rewrite len_nil. simpl. lia.
  - rewrite IH, (IH (0 * 256 + b)), len_cons, N.pow_add_r. nia.
Qed.

Lemma from_to_be_bytes_mod k v : from_be_bytes (to_be_bytes k v) = v mod 256 ^ N.of_nat k.
Proof.
  induction k as [|k IH]; simpl.
  - rewrite N.mod_1_r. done.
  - unfold from_be_bytes in *; simpl. rewrite foldl_be_shift, len_to_be_bytes.
    unfold from_be_bytes. rewrite IH.
    change (N.pos (Pos.of_succ_nat k)) with (N.of_nat (S k)).
    rewrite Nat2N.inj_succ, N.pow_succ_r', (N.mul_comm 256), N.Div0.mod_mul_r. lia.
Qed.

Lemma from_to_be_bytes k v : v < 256 ^ N.of_nat k → from_be_bytes (to_be_bytes k v) = v.
Proof. intros. rewrite from_to_be_bytes_mod. by apply N.mod_small. Qed.

#[global] Opaque to_be_bytes.

Lemma slice_app {A} (pre mid suf : list A) stop :
  stop = len pre + len mid → slice (pre ++ mid ++ suf) (len pre) stop = mid.
Proof.
  intros ->. unfold slice, len.
  replace (N.to_nat (N.of_nat (length pre) + N.of_nat (length mid) - N.of_nat (length pre)))
    with (length mid) by lia.
  rewrite Nat2N.id, drop_app_length. apply take_app_length.
Qed.

(** A buffer that exists in memory is addressable. *)
Definition fits (bs : bytes) : Prop := len bs < U64.

Lemma checked_add64_Some a b : a + b < U64 → checked_add64 a b = Some (a + b).
Proof. intros Hlt. unfold checked_add64. by apply N.ltb_lt in Hlt as ->. Qed.

Lemma read_u64_app pre v suf :
  v < U64 → fits (pre ++ to_be_bytes 8 v ++ suf) →
  read_u64 (pre ++ to_be_bytes 8 v ++ suf) (len pre) = Some (v, len pre + 8).
Proof.
  intros Hv Hfit. unfold read_u64, fits in *. autorewrite with nula in *.
  rewrite checked_add64_Some by lia. simpl.
  case_if; [lia|].
  rewrite slice_app by (by rewrite len_to_be_bytes).
  by rewrite from_to_be_bytes.
Qed.

Lemma read_u32_app pre v suf :
  v < U32 → fits (pre ++ to_be_bytes 4 v ++ suf) →
  read_u32 (pre ++ to_be_bytes 4 v ++ suf) (len pre) = Some (v, len pre + 4).
Proof.
  intros Hv Hfit. unfold read_u32, fits in *. autorewrite with nula in *.
  rewrite checked_add64_Some by lia. simpl.
  case_if; [lia|].
  rewrite slice_app by (by rewrite len_to_be_bytes).
  by rewrite from_to_be_bytes.
Qed.

Lemma read_u64_head v suf :
  v < U64 → fits (to_be_bytes 8 v ++ suf) → read_u64 (to_be_bytes 8 v ++ suf) 0 = Some (v, 8).
Proof. apply (read_u64_app []). Qed.

Lemma read_u32_head v suf :
  v < U32 → fits (to_be_bytes 4 v ++ suf) → read_u32 (to_be_bytes 4 v ++ suf) 0 = Some (v, 4).
Proof. apply (read_u32_app []). Qed.

(** The bytes [push_string] appends. *)
Definition string_frame (s : bytes) : bytes := to_be_bytes 4 (as_u32 (len s)) ++ s.

Lemma push_string_frame buf s : push_string buf s = buf ++ string_frame s.
Proof. unfold push_string, push_u32, string_frame. by rewrite (assoc_L (++)). Qed.

(** A value of type [String] whose length fits the 32-bit length field. *)
Definition string_ok (s : bytes) : Prop := utf8_valid s = true ∧ len s < U32.

Lemma len_string_frame s : len (string_frame s) = 4 + len s.
Proof. unfold string_frame. by autorewrite with nula. Qed.
#[export] Hint Rewrite len_string_frame : nula.

Lemma read_string_app pre s suf :
  string_ok s → fits (pre ++ string_frame s ++ suf) →
  read_string (pre ++ string_frame s ++ suf) (len pre) = Some (s, len pre + 4 + len s).
Proof.
  intros [Hutf Hlen] Hfit. unfold read_string, string_frame in *.
  rewrite <-(assoc_L (++)) in *.
  rewrite as_u32_small in * by done.
  rewrite read_u32_app by done. simpl.
  unfold fits in Hfit. autorewrite with nula in Hfit.
  rewrite checked_add64_Some by lia. simpl.
  case_if; [autorewrite with nula in *; lia|].
  rewrite (assoc_L (++) pre).
  replace (len pre + 4) with (len (pre ++ to_be_bytes 4 (len s))) by (by autorewrite with nula).
  rewrite slice_app by done. unfold from_utf8. by rewrite Hutf.
Qed.

(** ** Encoding and decoding sequences

    The encoders append one item at a time; the decoders run a counted loop
    that reads one item and advances the position.  The two lemmas below
    turn a per-item statement into a statement on the whole sequence. *)

Section sequences.
Context {X : Type} (enc : X → bytes).

Definition encode_all (xs : list X) : bytes := flat_map enc xs.

Lemma foldl_push (push : bytes → X → bytes) buf xs :
  (∀ buf x, push buf x = buf ++ enc x) →
  foldl push buf xs = buf ++ encode_all xs.
Proof.
  intros Hpush. unfold encode_all. revert buf.
  induction xs as [|x xs IH]; intros buf; simpl; [by rewrite (right_id_L [] (++))|].
  by rewrite IH, Hpush, (assoc_L (++)).
Qed.

Lemma try_for_items {S} (ok : X → Prop) (ins : S → X → S)
    (body : bytes → S * N → option (S * N)) :
  (∀ pre x suf s, ok x → fits (pre ++ enc x ++ suf) →
     body (pre ++ enc x ++ suf) (s, len pre) = Some (ins s x, len pre + len (enc x))) →
  ∀ xs pre suf s, Forall ok xs → fits (pre ++ encode_all xs ++ suf) →
    try_for (length xs) (body (pre ++ encode_all xs ++ suf)) (s, len pre)
    = Some (foldl ins s xs, len pre + len (encode_all xs)).
Proof.
  intros Hbody xs. unfold encode_all.
  induction xs as [|x xs IH]; intros pre suf s; simpl; [by rewrite len_nil, N.add_0_r|].
  intros [Hx Hxs]%Forall_cons. rewrite <-(assoc_L (++)). intros Hfit.
  rewrite Hbody by done. simpl.
  specialize (IH (pre ++ enc x) suf (ins s x) Hxs).
  rewrite <-(assoc_L (++) pre), !len_app in IH. rewrite IH by done.
  by rewrite len_app, N.add_assoc.
Qed.
End sequences.

(** Inserting the pairs of a duplicate-free list rebuilds the map. *)
Lemma foldl_insert_list_to_map {K V} `{Countable K} (xs : list (K * V)) (m : gmap K V) :
  NoDup xs.*1 → (∀ k, k ∈ xs.*1 → m !! k = None) →
  foldl (λ m kv, <[kv.1 := kv.2]> m) m xs = list_to_map xs ∪ m.
Proof.
  revert m. induction xs as [|[k v] xs IH]; intros m; simpl; [by rewrite (left_id_L ∅ (∪))|].
  intros [Hk Hnd]%NoDup_cons Hm. rewrite IH; [|done|].
  - rewrite <-insert_union_l, <-insert_union_r; [done|by apply not_elem_of_list_to_map_1].
  - intros j Hj. assert (k ≠ j) by (intros ->; done).
    rewrite lookup_insert_ne by done. apply Hm. by right.
Qed.

Lemma foldl_insert_map_to_list {K V} `{Countable K} (xs : list (K * V)) (m : gmap K V) :
  xs ≡ₚ map_to_list m → foldl (λ m kv, <[kv.1 := kv.2]> m) ∅ xs = m.
Proof.
  intros Hxs. assert (NoDup xs.*1) by (rewrite Hxs; apply NoDup_fst_map_to_list).
  rewrite foldl_insert_list_to_map by (done || intros; apply lookup_empty).
  rewrite (right_id_L ∅ (∪)), (list_to_map_proper xs (map_to_list m)) by done.
  apply list_to_map_to_list.
Qed.

(** ** Readers

    [reads rd enc a]: wherever the bytes [enc] stand in a buffer, the reader
    [rd], started at them, returns [a] and stops right behind them.  A decoder
    is then followed field by field with the tactic [read_field]. *)

Definition at_rest (bs : bytes) (pos : N) (rest : bytes) : Prop :=
  ∃ pre, bs = pre ++ rest ∧ pos = len pre ∧ fits bs.

Definition reads {A} (rd : bytes → N → option (A * N)) (enc : bytes) (a : A) : Prop :=
  ∀ bs pos rest, at_rest bs pos (enc ++ rest) →
    ∃ pos', rd bs pos = Some (a, pos') ∧ at_rest bs pos' rest.

Lemma at_rest_start bs : fits bs → at_rest bs 0 bs.
Proof. intros. by exists []. Qed.

Lemma reads_intro {A} (rd : bytes → N → option (A * N)) enc a :
  (∀ pre suf, fits (pre ++ enc ++ suf) →
     rd (pre ++ enc ++ suf) (len pre) = Some (a, len pre + len enc)) →
  reads rd enc a.
Proof.
  intros Hrd bs pos rest (pre & -> & -> & Hfit). eexists. split; [by apply Hrd|].
  exists (pre ++ enc). by rewrite <-(assoc_L (++)), len_app.
Qed.

Lemma reads_u64 v : v < U64 → reads read_u64 (to_be_bytes 8 v) v.
Proof. intros. apply reads_intro. intros. rewrite len_to_be_bytes. by apply read_u64_app. Qed.

Lemma reads_u32 v : v < U32 → reads read_u32 (to_be_bytes 4 v) v.
Proof. intros. apply reads_intro. intros. rewrite len_to_be_bytes. by apply read_u32_app. Qed.

Lemma reads_string s : string_ok s → reads read_string (string_frame s) s.
Proof.
  intros. apply reads_intro. intros. rewrite len_string_frame, N.add_assoc. by apply read_string_app.
Qed.

Lemma reads_for {X S} (enc : X → bytes) (ins : S → X → S)
    (body : bytes → S * N → option (S * N)) (n : nat) xs s :
  n = length xs →
  (∀ x s, x ∈ xs → reads (λ bs pos, body bs (s, pos)) (enc x) (ins s x)) →
  reads (λ bs pos, try_for n (body bs) (s, pos)) (encode_all enc xs) (foldl ins s xs).
Proof.
  intros -> Hbody bs pos rest Hat. unfold encode_all in Hat. revert s pos Hat.
  induction xs as [|x xs IH]; intros s pos Hat; simpl; [by eexists|].
  simpl in Hat. rewrite <-(assoc_L (++)) in Hat.
  destruct (Hbody x s (list_elem_of_here _ _) bs pos _ Hat) as (p & Hp & Hat'). simpl in Hp.
  rewrite Hp. simpl. apply IH; [|done]. intros. apply Hbody. by right.
Qed.

(** The next field: rewrites the read in the goal with [H] and moves on. *)
Ltac read_field H :=
  match goal with
  | Hat : at_rest ?bs ?pos _ |- _ =>
      let p := fresh "p" in let Hp := fresh "Hp" in let Hat' := fresh "Hat" in
      destruct (H bs pos _ Hat) as (p & Hp & Hat'); cbn beta in Hp; rewrite Hp; clear Hp Hat;
      rename Hat' into Hat; cbn [mbind option_bind]
  end.

(** Closes a reader: nothing is left to read. *)
Ltac read_done := eexists; split; [done|assumption].

(** ** Fixed offsets *)

(** [u64::from_be_bytes(bytes[off..off + 8])] and its 32-bit twin; the
    callers have checked the length.  Offsets are at most the length of a
    buffer plus a constant and do not wrap. *)
Definition be64 (bs : bytes) (off : N) : N := from_be_bytes (slice bs off (off + 8)).
Definition be32 (bs : bytes) (off : N) : N := from_be_bytes (slice bs off (off + 4)).

Lemma at_rest_raw bs pos e rest :
  at_rest bs pos (e ++ rest) → slice bs pos (pos + len e) = e ∧ at_rest bs (pos + len e) rest.
Proof.
  intros (pre & -> & -> & Hfit). split; [by apply slice_app|].
  exists (pre ++ e). by rewrite <-(assoc_L (++)), len_app.
Qed.

Lemma at_rest_le bs pos rest : at_rest bs pos rest → pos + len rest ≤ len bs.
Proof. intros (pre & -> & -> & _). rewrite len_app. lia. Qed.

Lemma at_rest_be64 bs pos v rest :
  at_rest bs pos (to_be_bytes 8 v ++ rest) → v < U64 →
  be64 bs pos = v ∧ at_rest bs (pos + 8) rest.
Proof.
  intros [Hs Hat]%at_rest_raw Hv. rewrite len_to_be_bytes in *. split; [|done].
  unfold be64. change 8 with (N.of_nat 8). rewrite Hs. by apply from_to_be_bytes.
Qed.

Lemma at_rest_be32 bs pos v rest :
  at_rest bs pos (to_be_bytes 4 v ++ rest) → v < U32 →
  be32 bs pos = v ∧ at_rest bs (pos + 4) rest.
Proof.
  intros [Hs Hat]%at_rest_raw Hv. rewrite len_to_be_bytes in *. split; [|done].
  unfold be32. change 4 with (N.of_nat 4). rewrite Hs. by apply from_to_be_bytes.
Qed.

(** A length check that the bytes ahead satisfy. *)
Lemma at_rest_check bs pos rest k :
  at_rest bs pos rest → k ≤ len rest → (len bs <? pos + k) = false.
Proof. intros Hat%at_rest_le Hk. apply N.ltb_ge. lia. Qed.

(** ** Little-endian fields *)

Lemma length_to_le_bytes k v : length (to_le_bytes k v) = k.
Proof. unfold to_le_bytes. by rewrite length_reverse, length_to_be_bytes. Qed.

Lemma len_to_le_bytes k v : len (to_le_bytes k v) = N.of_nat k.
Proof. unfold len. by rewrite length_to_le_bytes. Qed.
#[export] Hint Rewrite len_to_le_bytes : nula.

Lemma from_to_le_bytes k v : v < 256 ^ N.of_nat k → from_le_bytes (to_le_bytes k v) = v.
Proof. intros. unfold from_le_bytes, to_le_bytes. rewrite reverse_involutive. by apply from_to_be_bytes. Qed.

(** ** Order *)

(** The order of byte slices. *)
Fixpoint bytes_ltb (a b : bytes) : bool :=
  match a, b with
  | _, [] => false
  | [], _ :: _ => true
  | x :: a, y :: b => (x <? y) || ((x =? y) && bytes_ltb a b)
  end.
Definition bytes_leb (a b : bytes) : bool := negb (bytes_ltb b a).

Lemma bytes_ltb_irrefl a : bytes_ltb a a = false.
Proof. induction a as [|x a IH]; simpl; [done|]. by rewrite N.ltb_irrefl, N.eqb_refl, IH. Qed.

Lemma bytes_ltb_cons x a y b :
  bytes_ltb (x :: a) (y :: b) = true ↔ x < y ∨ (x = y ∧ bytes_ltb a b = true).
Proof. simpl. rewrite orb_true_iff, andb_true_iff, N.ltb_lt, N.eqb_eq. done. Qed.

Lemma bytes_ltb_trans a b c : bytes_ltb a b = true → bytes_ltb b c = true → bytes_ltb a c = true.
Proof.
  revert b c. induction a as [|x a IH]; intros [|y b] [|z c]; try done.
  rewrite !bytes_ltb_cons. intros [?|[-> Hab]] [?|[-> Hbc]]; [left; lia|by left|by left|].
  right. eauto.
Qed.

Lemma bytes_leb_cons x a y b : bytes_leb (x :: a) (y :: b) = true ↔ x < y ∨ (x = y ∧ bytes_leb a b = true).
Proof.
  unfold bytes_leb. rewrite !negb_true_iff, <-!not_true_iff_false, bytes_ltb_cons.
  destruct (N.lt_total x y) as [?|[->|?]]; naive_solver lia.
Qed.

Lemma bytes_leb_ltb_trans a b c : bytes_leb a b = true → bytes_ltb b c = true → bytes_ltb a c = true.
Proof.
  revert b c. induction a as [|x a IH]; intros [|y b] [|z c]; try done.
  rewrite bytes_leb_cons, !bytes_ltb_cons. intros [?|[-> Hab]] [?|[-> Hbc]]; [left; lia|by left|by left|].
  right. eauto.
Qed.

Lemma bytes_ltb_leb a b : bytes_ltb a b = true → bytes_leb a b = true.
Proof.
  intros Hab. unfold bytes_leb. apply negb_true_iff, not_true_iff_false. intros Hba.
  pose proof (bytes_ltb_trans _ _ _ Hab Hba) as H. by rewrite bytes_ltb_irrefl in H.
Qed.

Lemma bytes_ltb_leb_trans a b c : bytes_ltb a b = true → bytes_leb b c = true → bytes_ltb a c = true.
Proof.
  intros Hab Hbc. destruct (bytes_ltb a c) eqn:Hac; [done|].
  assert (bytes_leb c a = true) as Hca by (unfold bytes_leb; by rewrite Hac).
  pose proof (bytes_leb_ltb_trans _ _ _ Hca Hab) as Hcb. unfold bytes_leb in Hbc. by rewrite Hcb in Hbc.
Qed.
