(* ===== verification/Text.v ===== *)
(** * Text: number formatting and characters

    The parts of the standard library's formatting and [char] API that the
    program uses: decimal and hexadecimal [to_string], decimal parsing, and
    the characters of a UTF-8 string. *)
From Stdlib Require Import ZArith Ascii String.
From S2P Require Import Prelude Bytes.

Local Open Scope N_scope.

(** The bytes of an ASCII literal. *)
Definition str (s : string) : bytes := map N_of_ascii (list_ascii_of_string s).

(** ** Decimal *)

Fixpoint dec_digits (fuel : nat) (n : N) (acc : bytes) : bytes :=
  match fuel with
  | O => acc
  | S fuel =>
      let acc := 48 + n mod 10 :: acc in
      if n / 10 =? 0 then acc else dec_digits fuel (n / 10) acc
  end.

(** [n.to_string()]; the binary size bounds the number of decimal digits. *)
Definition dec_of_N (n : N) : bytes := dec_digits (S (N.size_nat n)) n [].

Definition dec_of_Z (z : Z) : bytes :=
  if (z <? 0)%Z then 45 :: dec_of_N (Z.abs_N z) else dec_of_N (Z.to_N z).

Definition is_digit (b : N) : bool := in_range 48 57 b.

(** The value of a digit string. *)
Definition dec_value (bs : bytes) : N := foldl (λ acc b, acc * 10 + (b - 48)) 0 bs.

(** [str::parse::<i64>]: an optional sign, then digits, within the range. *)
Definition parse_digits (bs : bytes) : option N :=
  if bool_decide (bs = []) then None
  else if forallb is_digit bs then Some (dec_value bs) else None.

Definition parse_i64 (bs : bytes) : option Z :=
  match bs with
  | 45 :: ds => n ← parse_digits ds; if n <=? 2 ^ 63 then Some (- Z.of_N n)%Z else None
  | 43 :: ds => n ← parse_digits ds; if n <? 2 ^ 63 then Some (Z.of_N n) else None
  | ds => n ← parse_digits ds; if n <? 2 ^ 63 then Some (Z.of_N n) else None
  end.

(** ** Hexadecimal, as printed by [{:#x}] *)

Definition hex_digit (d : N) : N := if d <? 10 then 48 + d else 87 + d.

Fixpoint hex_digits (fuel : nat) (n : N) (acc : bytes) : bytes :=
  match fuel with
  | O => acc
  | S fuel =>
      let acc := hex_digit (n mod 16) :: acc in
      if n / 16 =? 0 then acc else hex_digits fuel (n / 16) acc
  end.

Definition hex_of_N (n : N) : bytes := [48; 120] ++ hex_digits (S (N.size_nat n)) n [].

(** ** Characters *)

(** [s.chars()] on a valid UTF-8 string. *)
Fixpoint utf8_chars (bs : bytes) : list N :=
  match bs with
  | [] => []
  | b0 :: r0 =>
      if b0 <? 128 then b0 :: utf8_chars r0 else
      match r0 with
      | [] => []
      | b1 :: r1 =>
          if b0 <? 224 then (b0 - 192) * 64 + (b1 - 128) :: utf8_chars r1 else
          match r1 with
          | [] => []
          | b2 :: r2 =>
              if b0 <? 240 then ((b0 - 224) * 64 + (b1 - 128)) * 64 + (b2 - 128) :: utf8_chars r2 else
              match r2 with
              | [] => []
              | b3 :: r3 =>
                  (((b0 - 240) * 64 + (b1 - 128)) * 64 + (b2 - 128)) * 64 + (b3 - 128)
                    :: utf8_chars r3
              end
          end
      end
  end.

(** [char::from_u32]: the scalar values. *)
Definition char_from_u32 (n : N) : option N :=
  if (n <? 0xD800) || ((0xE000 <=? n) && (n <=? 0x10FFFF)) then Some n else None.

(** [c.to_string()]. *)
Definition utf8_encode (c : N) : bytes :=
  if c <? 0x80 then [c] else
  if c <? 0x800 then [192 + c / 64; 128 + c mod 64] else
  if c <? 0x10000 then [224 + c / 64 / 64; 128 + (c / 64) mod 64; 128 + c mod 64] else
  [240 + c / 64 / 64 / 64; 128 + (c / 64 / 64) mod 64; 128 + (c / 64) mod 64; 128 + c mod 64].

(** ** Decimal round trip *)

Lemma dec_value_app a b : dec_value (a ++ b) = dec_value a * 10 ^ len b + dec_value b.
Proof.
  unfold dec_value. rewrite foldl_app. generalize (foldl (λ acc b, acc * 10 + (b - 48)) 0 a) as x.
  induction b as [|c b IH] using rev_ind; intros x; [simpl; rewrite len_nil; lia|].
  rewrite !foldl_app, len_app, len_cons, len_nil. cbn [foldl]. rewrite IH, N.pow_add_r. lia.
Qed.

Lemma size_nat_div10 n : n / 10 ≠ 0 → (N.size_nat (n / 10) < N.size_nat n)%nat.
Proof.
  intros Hn. assert (∀ m, N.size_nat m = N.to_nat (N.size m)) as Hs.
  { intros [|p]; [done|]. simpl. induction p as [p IH|p IH|]; simpl; [..|done];
      rewrite IH; lia. }
  assert (10 * (n / 10) ≤ n) as Hle by apply N.Div0.mul_div_le.
  set (q := n / 10) in *. clearbody q.
  rewrite !Hs, !N.size_log2 by lia.
  assert (N.log2 q < N.log2 n); [|lia].
  apply (N.lt_le_trans _ (N.log2 (2 * q))); [rewrite N.log2_double by lia; lia|].
  apply N.log2_le_mono. lia.
Qed.

Lemma dec_digits_spec fuel n acc :
  (N.size_nat n < fuel)%nat →
  ∃ ds, dec_digits fuel n acc = ds ++ acc ∧ ds ≠ [] ∧ Forall (λ b, is_digit b = true) ds ∧
        dec_value ds = n ∧ (n ≠ 0 → head ds ≠ Some 48) ∧ (n = 0 → ds = [48]).
Proof.
  revert n acc. induction fuel as [|fuel IH]; intros n acc Hf; [lia|]. cbn [dec_digits].
  assert (is_digit (48 + n mod 10) = true) as Hd.
  { pose proof (N.mod_lt n 10 ltac:(done)). pose proof (N.le_0_l (n mod 10)).
    unfold is_digit, in_range.
    apply andb_true_iff. rewrite !N.leb_le. lia. }
  pose proof (N.div_mod n 10 ltac:(done)) as Hdm.
  pose proof (N.le_0_l (n mod 10)) as Hm. pose proof (N.le_0_l (n / 10)) as Hq.
  destruct (N.eqb_spec (n / 10) 0) as [H0|Hne].
  - exists [48 + n mod 10]. rewrite H0 in Hdm. split_and!; [done|done|by constructor|..].
    + unfold dec_value; cbn [foldl]. lia.
    + intros Hn0. simpl. intros [= Heq]. lia.
    + intros ->. done.
  - destruct (IH (n / 10) (48 + n mod 10 :: acc)) as (ds & Hds & Hnn & Hall & Hval & Hhd & _).
    { pose proof (size_nat_div10 n Hne). lia. }
    exists (ds ++ [48 + n mod 10]). split_and!.
    + rewrite Hds. by rewrite <-(assoc_L (++)).
    + by destruct ds.
    + apply Forall_app. split; [done|by constructor].
    + rewrite dec_value_app, len_cons, len_nil, Hval. unfold dec_value; cbn [foldl]. lia.
    + intros _. destruct ds as [|d ds]; [done|]. simpl. by apply Hhd.
    + intros ->. done.
Qed.

Lemma dec_of_N_spec n :
  dec_of_N n ≠ [] ∧ Forall (λ b, is_digit b = true) (dec_of_N n) ∧ dec_value (dec_of_N n) = n ∧
  (n ≠ 0 → head (dec_of_N n) ≠ Some 48) ∧ (n = 0 → dec_of_N n = [48]).
Proof.
  unfold dec_of_N. destruct (dec_digits_spec (S (N.size_nat n)) n []) as (ds & -> & H); [lia|].
  by rewrite app_nil_r.
Qed.

Lemma dec_of_N_inj n m : dec_of_N n = dec_of_N m → n = m.
Proof.
  intros Heq. destruct (dec_of_N_spec n) as (_ & _ & Hn & _), (dec_of_N_spec m) as (_ & _ & Hm & _).
  congruence.
Qed.
