(* ===== verification/CrdtClock.v ===== *)
(** * Logical clocks of the replicated types

    [LamportTime], [LamportClock] and [MatrixClock] of
    [src/runtime/crdt.rs].  The matrix clock records, for each peer, what
    that peer has observed from each source node; its [watermark] decides
    when a tombstone may be collected.  The last section runs the clocks of
    a whole cluster as a transition system with messages in flight. *)
From S2P Require Import Prelude Bytes.

Local Open Scope N_scope.

(** ** LamportTime *)

Record LamportTime := mkLamportTime { lt_counter : N; lt_node_id : N }.

#[export] Instance LamportTime_eq_dec : EqDecision LamportTime.
Proof. solve_decision. Defined.
#[export] Instance LamportTime_countable : Countable LamportTime.
Proof.
  apply (inj_countable' (λ t, (lt_counter t, lt_node_id t)) (λ p, mkLamportTime p.1 p.2)).
  by intros [].
Defined.

(** The derived [Ord]: lexicographic on the fields in declaration order. *)
Definition LamportTime_le (a b : LamportTime) : bool :=
  (lt_counter a <? lt_counter b)
  || ((lt_counter a =? lt_counter b) && (lt_node_id a <=? lt_node_id b)).

Definition LamportTime_gt (a b : LamportTime) : bool := negb (LamportTime_le a b).

Definition LamportTime_is_greater_than (self other : LamportTime) : bool :=
  (lt_counter other <? lt_counter self)
  || ((lt_counter self =? lt_counter other) && (lt_node_id other <? lt_node_id self)).

(** ** LamportClock *)

Record LamportClock := mkLamportClock { lc_node_id : N; lc_counter : N }.

Definition LamportClock_new (node_id : N) : LamportClock := mkLamportClock node_id 0.

Definition LamportClock_tick (self : LamportClock) : LamportTime * LamportClock :=
  let c := wrapping_add64 (lc_counter self) 1 in
  (mkLamportTime c (lc_node_id self), mkLamportClock (lc_node_id self) c).

(** ** MatrixClock *)

Record MatrixClock := mkMatrixClock {
  mc_local_node : N;
  mc_matrix : gmap N (gmap N N);
}.

Definition MatrixClock_new (local_node : N) : MatrixClock := mkMatrixClock local_node ∅.

Definition MatrixClock_tick_local (self : MatrixClock) : N * MatrixClock :=
  let row := default ∅ (mc_matrix self !! mc_local_node self) in
  let e := wrapping_add64 (default 0 (row !! mc_local_node self)) 1 in
  (e, mkMatrixClock (mc_local_node self)
        (<[mc_local_node self := <[mc_local_node self := e]> row]> (mc_matrix self))).

(** The inner loops of [merge]: every entry of [row] is raised into [dst],
    through [entry(src).or_insert(0)]. *)
Definition max_entry (_ : N) (o : option N) (t : N) : option N := Some (N.max (default 0 o) t).
Definition row_absorb (dst row : gmap N N) : gmap N N :=
  for_each (upsert max_entry) dst (map_to_list row).

Definition MatrixClock_merge_row (local : N) (m : gmap N (gmap N N)) (peer : N)
    (row : gmap N N) : gmap N (gmap N N) :=
  let m := <[local := row_absorb (default ∅ (m !! local)) row]> m in
  <[peer := row_absorb (default ∅ (m !! peer)) row]> m.

Definition MatrixClock_merge (self other : MatrixClock) : MatrixClock :=
  mkMatrixClock (mc_local_node self)
    (for_each (MatrixClock_merge_row (mc_local_node self)) (mc_matrix self)
       (map_to_list (mc_matrix other))).

(** [matrix.get(p).and_then(|r| r.get(&src)).copied().unwrap_or(0)] *)
Definition observed (self : MatrixClock) (peer src : N) : N :=
  default 0 (mc_matrix self !! peer ≫= (.!! src)).

(** The [sources] vector: every source of every row, without duplicates. *)
Definition MatrixClock_sources (self : MatrixClock) : list N :=
  foldl (λ acc row, foldl (λ acc s, if bool_decide (s ∈ acc) then acc else acc ++ [s])
                          acc row)
        [] ((λ pr, (map_to_list pr.2).*1) <$> map_to_list (mc_matrix self)).

Definition MatrixClock_watermark (self : MatrixClock) (healthy : list N) : gmap N N :=
  foldl (λ wm src,
           <[src := foldl (λ mn peer, N.min mn (observed self peer src))
                          (observed self (mc_local_node self) src) healthy]> wm)
        ∅ (MatrixClock_sources self).

Definition MatrixClock_reroot (self : MatrixClock) (new_local : N) : MatrixClock :=
  if mc_local_node self =? new_local then self
  else MatrixClock_merge (MatrixClock_new new_local) self.

Definition MatrixClock_prune (self : MatrixClock) (healthy : list N) : MatrixClock :=
  mkMatrixClock (mc_local_node self)
    (filter (λ pr, pr.1 = mc_local_node self ∨ pr.1 ∈ healthy) (mc_matrix self)).

(** [keys().copied().collect()] followed by [sort_unstable()]. *)
Definition sorted_keys {V} (m : gmap N V) : list N := merge_sort N.le (map_to_list m).*1.

Definition MatrixClock_to_bytes (self : MatrixClock) (buf : bytes) : bytes :=
  let buf := push_u64 buf (mc_local_node self) in
  let peers := sorted_keys (mc_matrix self) in
  let buf := push_u32 buf (as_u32 (len peers)) in
  foldl (λ buf peer,
    let row := default ∅ (mc_matrix self !! peer) in
    let buf := push_u64 buf peer in
    let srcs := sorted_keys row in
    let buf := push_u32 buf (as_u32 (len srcs)) in
    foldl (λ buf src, push_u64 (push_u64 buf src) (default 0 (row !! src))) buf srcs)
    buf peers.

Definition read_row_entry (bs : bytes) (st : gmap N N * N) : option (gmap N N * N) :=
  let '(row, pos) := st in
  '(src, pos) ← read_u64 bs pos;
  '(t, pos) ← read_u64 bs pos;
  Some (<[src := t]> row, pos).

Definition read_peer_row (bs : bytes) (st : gmap N (gmap N N) * N)
    : option (gmap N (gmap N N) * N) :=
  let '(matrix, pos) := st in
  '(peer, pos) ← read_u64 bs pos;
  '(num_srcs, pos) ← read_u32 bs pos;
  '(row, pos) ← try_for (N.to_nat num_srcs) (read_row_entry bs) (∅, pos);
  Some (<[peer := row]> matrix, pos).

Definition MatrixClock_from_bytes (bs : bytes) (pos : N) : option (MatrixClock * N) :=
  '(local_node, pos) ← read_u64 bs pos;
  '(num_peers, pos) ← read_u32 bs pos;
  '(matrix, pos) ← try_for (N.to_nat num_peers) (read_peer_row bs) (∅, pos);
  Some (mkMatrixClock local_node matrix, pos).

(** ** LamportTime: a total order *)

Lemma LamportTime_le_spec a b :
  LamportTime_le a b = true ↔
  lt_counter a < lt_counter b ∨ lt_counter a = lt_counter b ∧ lt_node_id a ≤ lt_node_id b.
Proof.
  unfold LamportTime_le.
  rewrite orb_true_iff, andb_true_iff, N.ltb_lt, N.eqb_eq, N.leb_le. done.
Qed.

Lemma LamportTime_gt_is_greater_than a b :
  LamportTime_gt a b = LamportTime_is_greater_than a b.
Proof.
  apply eq_true_iff_eq. unfold LamportTime_gt.
  rewrite negb_true_iff, <-not_true_iff_false, LamportTime_le_spec.
  unfold LamportTime_is_greater_than.
  rewrite orb_true_iff, andb_true_iff, !N.ltb_lt, N.eqb_eq. lia.
Qed.

Lemma LamportTime_gt_spec a b :
  LamportTime_gt a b = true ↔
  lt_counter b < lt_counter a ∨ lt_counter a = lt_counter b ∧ lt_node_id b < lt_node_id a.
Proof.
  rewrite LamportTime_gt_is_greater_than. unfold LamportTime_is_greater_than.
  rewrite orb_true_iff, andb_true_iff, !N.ltb_lt, N.eqb_eq. done.
Qed.

Lemma LamportTime_ext a b :
  lt_counter a = lt_counter b → lt_node_id a = lt_node_id b → a = b.
Proof. destruct a, b; simpl; congruence. Qed.

(** Decides goals on Lamport comparisons after case analysis on the tests. *)
Ltac lamport :=
  repeat match goal with
  | H : LamportTime_le _ _ = true |- _ => apply LamportTime_le_spec in H
  | H : LamportTime_le _ _ = false |- _ =>
      apply not_true_iff_false in H; rewrite LamportTime_le_spec in H
  | H : LamportTime_gt _ _ = true |- _ => apply LamportTime_gt_spec in H
  | H : LamportTime_gt _ _ = false |- _ =>
      apply not_true_iff_false in H; rewrite LamportTime_gt_spec in H
  end; simpl in *; try lia.

(** The stamp kept when two stamps meet: the existing one unless the other
    is strictly newer. *)
Definition LamportTime_max (a b : LamportTime) : LamportTime :=
  if LamportTime_le b a then a else b.

#[export] Instance LamportTime_max_join : JoinLaws LamportTime_max.
Proof.
  split; intros; unfold LamportTime_max;
    repeat match goal with
    | |- context [LamportTime_le ?a ?b] => is_var a; is_var b; destruct (LamportTime_le a b) eqn:?
    end; try done; apply LamportTime_ext; lamport.
Qed.

(** ** Matrix clocks: observations after each operation *)

Definition row_get (row : gmap N N) (src : N) : N := default 0 (row !! src).
Definition matrix_get (m : gmap N (gmap N N)) (peer src : N) : N :=
  row_get (default ∅ (m !! peer)) src.

Lemma observed_get c p s : observed c p s = matrix_get (mc_matrix c) p s.
Proof.
  unfold observed, matrix_get, row_get. by destruct (mc_matrix c !! p); simpl.
Qed.

Lemma row_get_absorb dst row s :
  row_get (row_absorb dst row) s = N.max (row_get dst s) (row_get row s).
Proof.
  unfold row_get, row_absorb. rewrite (for_each_upsert_map _ max_entry _ row) by done.
  unfold max_entry. destruct (row !! s); simpl; [done|]. lia.
Qed.

Lemma matrix_get_merge_row local m peer row p s n :
  matrix_get (MatrixClock_merge_row local m peer row) p s ≤ n ↔
  matrix_get m p s ≤ n ∧ (p = local ∨ p = peer → row_get row s ≤ n).
Proof.
  unfold MatrixClock_merge_row, matrix_get.
  destruct (decide (p = peer)) as [->|Hp]; destruct (decide (peer = local)) as [->|Hl];
    rewrite ?lookup_insert_eq; simpl; rewrite ?lookup_insert_ne by done;
    rewrite ?lookup_insert_eq; simpl; rewrite ?row_get_absorb; [lia|lia| |].
  - intuition lia.
  - destruct (decide (p = local)) as [->|Hp']; rewrite ?lookup_insert_eq;
      rewrite ?lookup_insert_ne by done; simpl; rewrite ?row_get_absorb; intuition lia.
Qed.

Lemma matrix_get_merge_loop local m it p s n :
  matrix_get (for_each (MatrixClock_merge_row local) m it) p s ≤ n ↔
  matrix_get m p s ≤ n ∧
  ∀ q row, (q, row) ∈ it → p = local ∨ p = q → row_get row s ≤ n.
Proof.
  unfold for_each. revert m.
  induction it as [|[q row] it IH]; intros m; simpl.
  { split; [|tauto]. intros. split; [done|]. intros ?? ?%not_elem_of_nil. done. }
  rewrite IH, matrix_get_merge_row. setoid_rewrite elem_of_cons. naive_solver.
Qed.

(** [merge] is the least upper bound of the two observation matrices in
    which the local row also absorbs every row of the other clock. *)
Lemma observed_merge_le a b p s n :
  observed (MatrixClock_merge a b) p s ≤ n ↔
  observed a p s ≤ n ∧ observed b p s ≤ n ∧
  (p = mc_local_node a → ∀ q, observed b q s ≤ n).
Proof.
  rewrite !observed_get. setoid_rewrite observed_get. unfold MatrixClock_merge; simpl.
  rewrite matrix_get_merge_loop. setoid_rewrite elem_of_map_to_list.
  assert (∀ q, matrix_get (mc_matrix b) q s ≤ n ↔
    ∀ row, mc_matrix b !! q = Some row → row_get row s ≤ n) as Hrow.
  { intros q. unfold matrix_get. destruct (mc_matrix b !! q); simpl.
    - naive_solver.
    - unfold row_get. rewrite lookup_empty. simpl. split; [done|lia]. }
  setoid_rewrite Hrow. naive_solver.
Qed.

Lemma observed_merge_l a b p s : observed a p s ≤ observed (MatrixClock_merge a b) p s.
Proof. by apply (observed_merge_le a b p s). Qed.

Lemma observed_merge_other a b p s :
  p ≠ mc_local_node a →
  observed (MatrixClock_merge a b) p s = N.max (observed a p s) (observed b p s).
Proof.
  intros Hp. apply N.le_antisymm.
  - apply observed_merge_le. split_and!; [lia..|done].
  - destruct (proj1 (observed_merge_le a b p s _) (N.le_refl _)) as (?&?&_). lia.
Qed.

Lemma observed_new n p s : observed (MatrixClock_new n) p s = 0.
Proof. rewrite observed_get. unfold matrix_get, row_get; simpl. by rewrite lookup_empty. Qed.

Lemma observed_tick c p s :
  observed (MatrixClock_tick_local c).2 p s =
    if decide (p = mc_local_node c ∧ s = mc_local_node c)
    then wrapping_add64 (observed c p s) 1 else observed c p s.
Proof.
  rewrite !observed_get. unfold MatrixClock_tick_local, matrix_get, row_get; simpl.
  destruct (decide (p = mc_local_node c)) as [->|Hp].
  - rewrite lookup_insert_eq; simpl. rewrite lookup_insert.
    repeat case_decide; subst; naive_solver.
  - rewrite lookup_insert_ne by done. rewrite decide_False by tauto. done.
Qed.

Lemma observed_reroot c l p s n :
  l ≠ mc_local_node c →
  observed (MatrixClock_reroot c l) p s ≤ n ↔
  observed c p s ≤ n ∧ (p = l → ∀ q, observed c q s ≤ n).
Proof.
  intros Hl. unfold MatrixClock_reroot.
  apply not_eq_sym, N.eqb_neq in Hl as ->.
  rewrite observed_merge_le, observed_new. simpl. intuition lia.
Qed.

Lemma observed_prune c healthy p s :
  observed (MatrixClock_prune c healthy) p s =
    if decide (p = mc_local_node c ∨ p ∈ healthy) then observed c p s else 0.
Proof.
  unfold observed, MatrixClock_prune; simpl. rewrite map_lookup_filter.
  destruct (mc_matrix c !! p) as [row|]; simpl; [|by case_decide].
  by case_decide; simplify_option_eq.
Qed.

(** ** The causal-stability watermark *)

Lemma elem_of_dedup_fold (row acc : list N) s :
  s ∈ foldl (λ acc s, if bool_decide (s ∈ acc) then acc else acc ++ [s]) acc row ↔
  s ∈ acc ∨ s ∈ row.
Proof.
  revert acc. induction row as [|x row IH]; intros acc; simpl; [set_solver|].
  rewrite IH. case_bool_decide; set_solver.
Qed.

Lemma elem_of_sources c s :
  s ∈ MatrixClock_sources c ↔ ∃ p row, mc_matrix c !! p = Some row ∧ is_Some (row !! s).
Proof.
  unfold MatrixClock_sources.
  assert (∀ (rows : list (list N)) acc,
    s ∈ foldl (λ acc row, foldl (λ acc s, if bool_decide (s ∈ acc) then acc else acc ++ [s])
                 acc row) acc rows ↔ s ∈ acc ∨ ∃ row, row ∈ rows ∧ s ∈ row) as Hrows.
  { intros rows. induction rows as [|r rows IH]; intros acc; simpl; [set_solver|].
    rewrite IH, elem_of_dedup_fold. set_solver. }
  rewrite Hrows. setoid_rewrite list_elem_of_fmap. split.
  - intros [?%not_elem_of_nil|(row & ([p r] & -> & Hpr) & Hs)]; [done|].
    apply elem_of_map_to_list in Hpr. simpl in Hs.
    apply list_elem_of_fmap in Hs as ([s' t] & -> & Hst).
    apply elem_of_map_to_list in Hst. eauto.
  - intros (p & r & Hp & [t Ht]). right. exists ((map_to_list r).*1). split.
    + exists (p, r). by rewrite elem_of_map_to_list.
    + apply list_elem_of_fmap. exists (s, t). by rewrite elem_of_map_to_list.
Qed.

Lemma fold_min_le (f : N → N) healthy init n :
  n ≤ foldl (λ mn peer, N.min mn (f peer)) init healthy ↔
  n ≤ init ∧ ∀ p, p ∈ healthy → n ≤ f p.
Proof.
  revert init. induction healthy as [|p l IH]; intros init; simpl.
  - split; [|tauto]. intros. split; [done|]. by intros p ?%not_elem_of_nil.
  - rewrite IH. setoid_rewrite elem_of_cons. split.
    + intros [? ?]. split; [lia|]. intros q [->|?]; [lia|auto].
    + intros [? Hall]. split; [|auto].
      assert (n ≤ f p) by (apply Hall; by left). lia.
Qed.

(** The watermark of a source is the greatest time that the local node and
    every healthy peer are known to have observed. *)
Lemma watermark_le c healthy s n :
  n ≤ default 0 (MatrixClock_watermark c healthy !! s) ↔
  ∀ p, p = mc_local_node c ∨ p ∈ healthy → n ≤ observed c p s.
Proof.
  unfold MatrixClock_watermark. rewrite lookup_fold_insert.
  destruct (decide (s ∈ MatrixClock_sources c)) as [Hs|Hs]; simpl.
  - rewrite fold_min_le. naive_solver.
  - rewrite lookup_empty; simpl. split; [intros; lia|].
    intros Hall. specialize (Hall _ (or_introl eq_refl)).
    rewrite observed_get in Hall. unfold matrix_get, row_get in Hall.
    destruct (mc_matrix c !! mc_local_node c) as [row|] eqn:Hrow; simpl in *;
      [|by rewrite lookup_empty in Hall].
    destruct (row !! s) eqn:Hrs; simpl in *; [|done].
    destruct Hs. apply elem_of_sources. eauto.
Qed.

(** ** Serialisation round trip *)

Lemma sorted_keys_perm {V} (m : gmap N V) : sorted_keys m ≡ₚ (map_to_list m).*1.
Proof. apply merge_sort_Permutation. Qed.

Lemma elem_of_sorted_keys {V} (m : gmap N V) k : k ∈ sorted_keys m ↔ is_Some (m !! k).
Proof.
  rewrite sorted_keys_perm, list_elem_of_fmap. split.
  - intros ([k' v] & -> & Hkv). apply elem_of_map_to_list in Hkv. eauto.
  - intros [v Hv]. exists (k, v). by rewrite elem_of_map_to_list.
Qed.

Lemma len_sorted_keys {V} (m : gmap N V) : len (sorted_keys m) = N.of_nat (size m).
Proof.
  unfold len. by rewrite (Permutation_length (sorted_keys_perm m)), length_fmap, length_map_to_list.
Qed.

(** Re-inserting every key with its value rebuilds the map. *)
Lemma foldl_reinsert {V} (d : V) (m : gmap N V) :
  foldl (λ acc k, <[k := default d (m !! k)]> acc) ∅ (sorted_keys m) = m.
Proof.
  transitivity (foldl (λ (acc : gmap N V) kv, <[kv.1 := kv.2]> acc) ∅
    ((λ k, (k, default d (m !! k))) <$> sorted_keys m)).
  { generalize (∅ : gmap N V) as acc, (sorted_keys m) as ks.
    intros acc ks. revert acc. induction ks as [|k ks IH]; intros acc; simpl; [done|apply IH]. }
  apply foldl_insert_map_to_list.
  rewrite sorted_keys_perm, <-list_fmap_compose.
  rewrite <-(list_fmap_id (map_to_list m)) at 2.
  apply Permutation_refl'. apply list_fmap_ext. intros i [k v] Hi. simpl.
  apply list_elem_of_lookup_2, elem_of_map_to_list in Hi. by rewrite Hi.
Qed.

Definition row_ok (row : gmap N N) : Prop :=
  N.of_nat (size row) < U32 ∧ ∀ s t, row !! s = Some t → s < U64 ∧ t < U64.

Definition matrix_ok (c : MatrixClock) : Prop :=
  mc_local_node c < U64 ∧ N.of_nat (size (mc_matrix c)) < U32 ∧
  ∀ p row, mc_matrix c !! p = Some row → p < U64 ∧ row_ok row.

Definition entry_frame (row : gmap N N) (src : N) : bytes :=
  to_be_bytes 8 src ++ to_be_bytes 8 (default 0 (row !! src)).

Definition row_frame (m : gmap N (gmap N N)) (peer : N) : bytes :=
  let row := default ∅ (m !! peer) in
  to_be_bytes 8 peer ++ to_be_bytes 4 (as_u32 (len (sorted_keys row)))
    ++ encode_all (entry_frame row) (sorted_keys row).

Definition matrix_frame (c : MatrixClock) : bytes :=
  to_be_bytes 8 (mc_local_node c)
    ++ to_be_bytes 4 (as_u32 (len (sorted_keys (mc_matrix c))))
    ++ encode_all (row_frame (mc_matrix c)) (sorted_keys (mc_matrix c)).

Lemma MatrixClock_to_bytes_frame c buf : MatrixClock_to_bytes c buf = buf ++ matrix_frame c.
Proof.
  unfold MatrixClock_to_bytes, matrix_frame.
  rewrite (foldl_push (row_frame (mc_matrix c))).
  - unfold push_u64, push_u32. by rewrite <-!(assoc_L (++)).
  - intros b p. rewrite (foldl_push (entry_frame (default ∅ (mc_matrix c !! p)))).
    + unfold push_u64, push_u32, row_frame. by rewrite <-!(assoc_L (++)).
    + intros b' s. unfold push_u64, entry_frame. by rewrite <-!(assoc_L (++)).
Qed.

Lemma read_row_entry_app row pre s suf acc :
  row_ok row → is_Some (row !! s) → fits (pre ++ entry_frame row s ++ suf) →
  read_row_entry (pre ++ entry_frame row s ++ suf) (acc, len pre)
  = Some (<[s := default 0 (row !! s)]> acc, len pre + len (entry_frame row s)).
Proof.
  intros [_ Hrow] [t Ht] Hfit. destruct (Hrow _ _ Ht). unfold entry_frame in *.
  rewrite Ht in *; simpl in *. unfold read_row_entry. rewrite <-(assoc_L (++)) in *.
  rewrite read_u64_app by done. simpl.
  replace (len pre + 8) with (len (pre ++ to_be_bytes 8 s)) by (by autorewrite with nula).
  rewrite (assoc_L (++) pre) in *. rewrite read_u64_app by done. simpl.
  autorewrite with nula. do 2 f_equal. lia.
Qed.

Lemma read_peer_row_app m pre p suf acc :
  (∀ p row, m !! p = Some row → p < U64 ∧ row_ok row) → is_Some (m !! p) →
  fits (pre ++ row_frame m p ++ suf) →
  read_peer_row (pre ++ row_frame m p ++ suf) (acc, len pre)
  = Some (<[p := default ∅ (m !! p)]> acc, len pre + len (row_frame m p)).
Proof.
  intros Hok [row Hp] Hfit. destruct (Hok _ _ Hp) as [Hp64 Hrow]. unfold row_frame in *.
  rewrite Hp in *; simpl in *. destruct Hrow as [Hsz Hrow].
  assert (len (sorted_keys row) < U32) by (by rewrite len_sorted_keys).
  rewrite as_u32_small in * by done.
  unfold read_peer_row. rewrite <-!(assoc_L (++)) in *.
  rewrite read_u64_app by done. simpl.
  replace (len pre + 8) with (len (pre ++ to_be_bytes 8 p)) by (by autorewrite with nula).
  rewrite (assoc_L (++) pre) in *. rewrite read_u32_app by done. simpl.
  set (k := to_be_bytes 4 _) in *.
  replace (len (pre ++ to_be_bytes 8 p) + 4) with (len ((pre ++ to_be_bytes 8 p) ++ k))
    by (subst k; by autorewrite with nula).
  rewrite (assoc_L (++) (pre ++ _)) in *.
  replace (N.to_nat (len (sorted_keys row))) with (length (sorted_keys row)) by (unfold len; lia).
  rewrite (try_for_items (entry_frame row) (λ s, is_Some (row !! s))
    (λ acc s, <[s := default 0 (row !! s)]> acc)).
  - simpl. rewrite foldl_reinsert. subst k. autorewrite with nula. do 2 f_equal. lia.
  - intros. by apply read_row_entry_app.
  - apply Forall_forall. intros s. apply elem_of_sorted_keys.
  - done.
Qed.

Lemma MatrixClock_from_bytes_app c pre suf :
  matrix_ok c → fits (pre ++ matrix_frame c ++ suf) →
  MatrixClock_from_bytes (pre ++ matrix_frame c ++ suf) (len pre)
  = Some (c, len pre + len (matrix_frame c)).
Proof.
  intros (Hl & Hsz & Hrows) Hfit. unfold matrix_frame in *.
  assert (len (sorted_keys (mc_matrix c)) < U32) by (by rewrite len_sorted_keys).
  rewrite as_u32_small in * by done.
  unfold MatrixClock_from_bytes. rewrite <-!(assoc_L (++)) in *.
  rewrite read_u64_app by done. simpl.
  set (l := to_be_bytes 8 _) in *.
  replace (len pre + 8) with (len (pre ++ l)) by (subst l; by autorewrite with nula).
  rewrite (assoc_L (++) pre) in *. rewrite read_u32_app by done. simpl.
  set (k := to_be_bytes 4 _) in *.
  replace (len (pre ++ l) + 4) with (len ((pre ++ l) ++ k)) by (subst k; by autorewrite with nula).
  rewrite (assoc_L (++) (pre ++ _)) in *.
  replace (N.to_nat (len (sorted_keys (mc_matrix c))))
    with (length (sorted_keys (mc_matrix c))) by (unfold len; lia).
  rewrite (try_for_items (row_frame (mc_matrix c)) (λ p, is_Some (mc_matrix c !! p))
    (λ acc p, <[p := default ∅ (mc_matrix c !! p)]> acc)).
  - simpl. rewrite foldl_reinsert. subst k l. autorewrite with nula. destruct c; simpl.
    do 2 f_equal. lia.
  - intros. by apply read_peer_row_app.
  - apply Forall_forall. intros s. apply elem_of_sorted_keys.
  - done.
Qed.

(** ** A cluster of matrix clocks

    Replicas tick, publish their clock, merge any clock ever published (a
    payload may be delivered late, twice or never), prune rows, and join from
    a published payload through [reroot].  A published clock stays in
    [net_sent]: this is the set of payloads that may still arrive. *)

Record Net := mkNet { net_replicas : gmap N MatrixClock; net_sent : list MatrixClock }.

Inductive net_step (s : Net) : Net → Prop :=
| step_tick p c :
    net_replicas s !! p = Some c → observed c p p + 1 < U64 →
    net_step s (mkNet (<[p := (MatrixClock_tick_local c).2]> (net_replicas s)) (net_sent s))
| step_send p c :
    net_replicas s !! p = Some c →
    net_step s (mkNet (net_replicas s) (c :: net_sent s))
| step_deliver p c m :
    net_replicas s !! p = Some c → m ∈ net_sent s →
    net_step s (mkNet (<[p := MatrixClock_merge c m]> (net_replicas s)) (net_sent s))
| step_prune p c healthy :
    net_replicas s !! p = Some c →
    net_step s (mkNet (<[p := MatrixClock_prune c healthy]> (net_replicas s)) (net_sent s))
| step_create p :
    net_replicas s !! p = None →
    net_step s (mkNet (<[p := MatrixClock_new p]> (net_replicas s)) (net_sent s))
| step_join p m :
    net_replicas s !! p = None → m ∈ net_sent s → mc_local_node m ≠ p →
    net_step s (mkNet (<[p := MatrixClock_reroot m p]> (net_replicas s)) (net_sent s)).

Definition net_reachable : Net → Prop := rtc net_step (mkNet ∅ []).

(** What replica [q] has really observed from source [n]. *)
Definition truth (s : Net) (q n : N) : N :=
  match net_replicas s !! q with Some d => observed d q n | None => 0 end.

Definition clock_sound (s : Net) (c : MatrixClock) : Prop :=
  ∀ q n, observed c q n ≤ truth s q n ∧ observed c q n ≤ truth s n n.

Definition net_inv (s : Net) : Prop :=
  (∀ p c, net_replicas s !! p = Some c → mc_local_node c = p ∧ clock_sound s c) ∧
  (∀ m, m ∈ net_sent s → clock_sound s m).

Lemma mc_local_node_reroot m p : mc_local_node (MatrixClock_reroot m p) = p.
Proof.
  unfold MatrixClock_reroot. destruct (N.eqb_spec (mc_local_node m) p); done.
Qed.

Lemma truth_insert s p c q n sent :
  truth (mkNet (<[p := c]> (net_replicas s)) sent) q n =
    if decide (q = p) then observed c p n else truth s q n.
Proof.
  unfold truth; simpl. case_decide as Hq; subst.
  - by rewrite lookup_insert_eq.
  - by rewrite lookup_insert_ne.
Qed.

(** Replacing the clock of [p] by one whose own row does not shrink keeps the
    invariant, provided the new clock claims nothing false. *)
Lemma net_inv_update s p c sent :
  net_inv s → sent = net_sent s → mc_local_node c = p →
  (∀ n, truth s p n ≤ observed c p n) →
  clock_sound (mkNet (<[p := c]> (net_replicas s)) sent) c →
  net_inv (mkNet (<[p := c]> (net_replicas s)) sent).
Proof.
  intros [Hrep Hsent] -> Hloc Hgrow Hc.
  assert (∀ d, clock_sound s d →
    clock_sound (mkNet (<[p := c]> (net_replicas s)) (net_sent s)) d) as Hmono.
  { intros d Hd q n. rewrite !truth_insert. destruct (Hd q n). pose proof (Hgrow n).
    split; case_decide; subst; lia. }
  split; simpl; [|eauto].
  intros q d. destruct (decide (p = q)) as [<-|Hq].
  - rewrite lookup_insert_eq. intros [= <-]. done.
  - rewrite lookup_insert_ne by done. intros [Hd Hs]%Hrep. eauto.
Qed.

Lemma net_step_inv s s' : net_inv s → net_step s s' → net_inv s'.
Proof.
  intros Hinv Hstep.
  assert (∀ p c, net_replicas s !! p = Some c → ∀ n, truth s p n = observed c p n) as Htr.
  { intros p c Hp n. unfold truth. by rewrite Hp. }
  pose proof Hinv as [Hrep Hsent].
  destruct Hstep as [p c Hp Hlt|p c Hp|p c m Hp Hm|p c h Hp|p Hp|p m Hp Hm Hne].
  - destruct (Hrep _ _ Hp) as [Hl Hc]. apply net_inv_update; try done.
    + intros n. rewrite (Htr _ _ Hp), observed_tick, Hl.
      case_decide as Hd; [|done]. destruct Hd as [_ ->]. rewrite wrapping_add64_small by done. lia.
    + intros q n. rewrite !truth_insert, !observed_tick, Hl.
      destruct (Hc q n) as [H1 H2].
      repeat case_decide; subst; try tauto; destruct_and?; subst; try lia;
        rewrite ?(Htr _ _ Hp) in *; rewrite ?wrapping_add64_small by done; lia.
  - split; simpl; [by intros q d Hq; apply Hrep|].
    intros m [->|Hm]%elem_of_cons; [by apply (Hrep p)|by apply Hsent].
  - destruct (Hrep _ _ Hp) as [Hl Hc]. specialize (Hsent m Hm) as Hms.
    apply net_inv_update; try done.
    + intros n. rewrite (Htr _ _ Hp). apply observed_merge_l.
    + intros q n. rewrite !truth_insert. destruct (Hc q n) as [H1 H2].
      assert (∀ q, q ≠ p → observed (MatrixClock_merge c m) q n ≤ truth s q n) as Hother.
      { intros r Hr. rewrite observed_merge_other by congruence.
        destruct (Hc r n), (Hms r n). lia. }
      assert (truth s n n ≤ if decide (n = p) then observed (MatrixClock_merge c m) p n
              else truth s n n) as Hsrc.
      { case_decide; [subst|done]. rewrite (Htr _ _ Hp). apply observed_merge_l. }
      split.
      * destruct (decide (q = p)) as [->|]; [lia|by apply Hother].
      * etrans; [|exact Hsrc]. apply observed_merge_le.
        split_and!; [done|apply Hms|intros _ r; apply Hms].
  - destruct (Hrep _ _ Hp) as [Hl Hc]. apply net_inv_update; try done.
    + intros n. rewrite (Htr _ _ Hp), observed_prune, decide_True by auto. done.
    + intros q n. rewrite !truth_insert, !observed_prune, Hl.
      destruct (Hc q n) as [H1 H2]. rewrite ?(decide_True (P := p = p ∨ _)) by auto.
      split; repeat case_decide; subst; rewrite ?(Htr _ _ Hp) in *; try lia.
  - apply net_inv_update; try done.
    + intros n. unfold truth. rewrite Hp. apply N.le_0_l.
    + intros q n. rewrite observed_new. split; apply N.le_0_l.
  - specialize (Hsent m Hm) as Hms.
    apply net_inv_update; [done|done|apply mc_local_node_reroot| |].
    + intros n. unfold truth. rewrite Hp. apply N.le_0_l.
    + assert (∀ n, truth s p n = 0) as Hz by (intros; unfold truth; by rewrite Hp).
      intros q n. rewrite !truth_insert. split.
      * destruct (decide (q = p)) as [->|]; [lia|]. apply observed_reroot; [done|]. split; [apply Hms|done].
      * etrans; [apply observed_reroot with (n := truth s n n); [done|]|].
        { split; [apply Hms|intros _ r; apply Hms]. }
        case_decide; [subst; rewrite Hz; lia|done].
Qed.

Lemma net_reachable_inv s : net_reachable s → net_inv s.
Proof.
  intros Hr. unfold net_reachable in Hr.
  apply (rtc_ind_r net_inv (mkNet ∅ [])) with (3 := Hr).
  - split; simpl; [intros ??; by rewrite lookup_empty|]. by intros ? ?%not_elem_of_nil.
  - intros y z _ Hyz Hy. by eapply net_step_inv.
Qed.

(** [C11] Causal stability is sound: in every reachable cluster state, if the
    watermark a replica computes for source [n] has reached [t], then the
    replica itself and every peer it counted as healthy exist and have really
    observed time [t] of [n], and [n] has really ticked that far; so a
    tombstone stamped [(t, n)] has been seen by all of them. *)
Theorem watermark_causally_stable s p c healthy n t :
  net_reachable s → net_replicas s !! p = Some c →
  0 < t → t ≤ default 0 (MatrixClock_watermark c healthy !! n) →
  (∀ q, q = p ∨ q ∈ healthy →
     ∃ d, net_replicas s !! q = Some d ∧ t ≤ observed d q n) ∧
  ∃ d, net_replicas s !! n = Some d ∧ t ≤ observed d n n.
Proof.
  intros [Hrep _]%net_reachable_inv Hp Ht Hwm.
  destruct (Hrep _ _ Hp) as [Hl Hc]. rewrite watermark_le, Hl in Hwm.
  assert (∀ q m, t ≤ truth s q m → ∃ d, net_replicas s !! q = Some d ∧ t ≤ observed d q m)
    as Htruth.
  { intros q m. unfold truth. destruct (net_replicas s !! q) as [d|]; [eauto|lia]. }
  split.
  - intros q Hq. apply Htruth. etrans; [by apply Hwm|apply Hc].
  - apply Htruth. etrans; [apply Hwm; by left|apply Hc].
Qed.

(** Node 1 ticks and publishes; node 2 merges and publishes back; node 1
    merges node 2's payload and knows that time 1 is stable. *)
Definition net_example : Net :=
  let c1 := (MatrixClock_tick_local (MatrixClock_new 1)).2 in
  let c2 := MatrixClock_merge (MatrixClock_new 2) c1 in
  mkNet (<[1 := MatrixClock_merge c1 c2]> (<[2 := c2]> (<[1 := c1]>
          (<[2 := MatrixClock_new 2]> (<[1 := MatrixClock_new 1]> ∅))))) [c2; c1].

Lemma watermark_causally_stable_witness :
  ∃ d, net_replicas net_example !! 2 = Some d ∧ 1 ≤ observed d 2 1.
Proof.
  apply (watermark_causally_stable net_example 1
    (default (MatrixClock_new 0) (net_replicas net_example !! 1)) [2] 1 1).
  - unfold net_reachable.
    eapply rtc_l; [apply (step_create _ 1); reflexivity|]; simpl.
    eapply rtc_l; [apply (step_create _ 2); reflexivity|]; simpl.
    eapply rtc_l; [eapply (step_tick _ 1); reflexivity|]; simpl.
    eapply rtc_l; [eapply (step_send _ 1); reflexivity|]; simpl.
    eapply rtc_l; [eapply (step_deliver _ 2); [reflexivity|left]|]; simpl.
    eapply rtc_l; [eapply (step_send _ 2); reflexivity|]; simpl.
    eapply rtc_l; [eapply (step_deliver _ 1); [reflexivity|left]|]; simpl.
    apply rtc_refl.
  - reflexivity.
  - reflexivity.
  - by vm_compute.
  - right. by apply list_elem_of_singleton.
Defined.
