(* ===== verification/CrdtCore.v ===== *)
(** * The [Crdt] interface and strong eventual consistency

    The trait [Crdt] of [src/runtime/crdt.rs] as a class of operations, and
    its documented contract as a class of laws.  The laws are stated up to an
    equivalence [≡] that forgets replica-local metadata (node ids, clocks,
    empty entries) and on well-formed states.  The theorems below are proved
    against the laws only; [CrdtCounters], [CrdtSets], [CrdtAworset] and
    [CrdtReg] discharge them for the types of the runtime, and [CrdtManager]
    for its entries. *)
From S2P Require Import Prelude.

(** The operations of the trait; [crdt_wf] is the representation invariant
    the operations keep. *)
Class Crdt (S V : Type) := {
  crdt_wf : S → Prop;
  crdt_equiv : Equiv S;
  crdt_merge : S → S → S;
  crdt_value : S → V;
  crdt_delta_since : S → S → option S;
}.
#[export] Existing Instance crdt_equiv.

(** Merging what [delta_since] returned; [None] means nothing to send. *)
Definition merge_delta {S V} `{Crdt S V} (r : S) (d : option S) : S :=
  match d with Some d => crdt_merge r d | None => r end.

(** [a ⊑ b]: replica [b] already contains everything in [a]. *)
Definition crdt_le {S V} `{Crdt S V} (a b : S) : Prop := crdt_merge b a ≡ b.

Class CrdtLaws (S V : Type) `{Crdt S V} : Prop := {
  crdt_equivalence : Equivalence (≡@{S});
  crdt_merge_wf : ∀ a b : S, crdt_wf a → crdt_wf b → crdt_wf (crdt_merge a b);
  crdt_merge_proper : ∀ a a' b b' : S,
    crdt_wf a → crdt_wf a' → crdt_wf b → crdt_wf b' →
    a ≡ a' → b ≡ b' → crdt_merge a b ≡ crdt_merge a' b';
  crdt_merge_assoc : ∀ a b c : S, crdt_wf a → crdt_wf b → crdt_wf c →
    crdt_merge a (crdt_merge b c) ≡ crdt_merge (crdt_merge a b) c;
  crdt_merge_comm : ∀ a b : S, crdt_wf a → crdt_wf b → crdt_merge a b ≡ crdt_merge b a;
  crdt_merge_idemp : ∀ a : S, crdt_wf a → crdt_merge a a ≡ a;
  crdt_value_proper : ∀ a b : S, crdt_wf a → crdt_wf b → a ≡ b → crdt_value a = crdt_value b;
  crdt_delta_wf : ∀ a base d : S, crdt_wf a → crdt_delta_since a base = Some d → crdt_wf d;
  crdt_delta_merge : ∀ a base r : S, crdt_wf a → crdt_wf base → crdt_wf r → crdt_le base r →
    merge_delta r (crdt_delta_since a base) ≡ crdt_merge r a;
}.
#[export] Existing Instance crdt_equivalence.

(** A replica absorbing a sequence of received states. *)
Definition crdt_absorb {S V} `{Crdt S V} (s : S) (received : list S) : S :=
  foldl crdt_merge s received.

Section convergence.
Context {S V : Type} `{CrdtLaws S V}.
Implicit Types a b c : S.

Lemma crdt_absorb_wf s l : crdt_wf s → Forall crdt_wf l → crdt_wf (crdt_absorb s l).
Proof.
  intros Hs Hl. revert s Hs. unfold crdt_absorb.
  induction Hl as [|x l Hx Hl IH]; intros s Hs; simpl; [done|].
  by apply IH, crdt_merge_wf.
Qed.

(** [merge] is the least upper bound of [⊑]. *)
Lemma crdt_le_merge_l a b : crdt_wf a → crdt_wf b → crdt_le a (crdt_merge a b).
Proof.
  intros Ha Hb. unfold crdt_le.
  assert (crdt_wf (crdt_merge a b)) by (by apply crdt_merge_wf).
  rewrite crdt_merge_comm, crdt_merge_assoc by done.
  apply crdt_merge_proper; try done; [by apply crdt_merge_wf|by apply crdt_merge_idemp].
Qed.

Lemma crdt_le_merge_r a b : crdt_wf a → crdt_wf b → crdt_le b (crdt_merge a b).
Proof.
  intros Ha Hb. unfold crdt_le.
  rewrite <-crdt_merge_assoc by done.
  apply crdt_merge_proper; try done; [by apply crdt_merge_wf|by apply crdt_merge_idemp].
Qed.

Lemma crdt_merge_lub a b u :
  crdt_wf a → crdt_wf b → crdt_wf u → crdt_le a u → crdt_le b u → crdt_le (crdt_merge a b) u.
Proof.
  unfold crdt_le. intros Ha Hb Hu Hau Hbu.
  rewrite crdt_merge_assoc by done. rewrite <-Hbu at 2.
  apply crdt_merge_proper; try done. by apply crdt_merge_wf.
Qed.

Lemma crdt_le_trans a b c :
  crdt_wf a → crdt_wf b → crdt_wf c → crdt_le a b → crdt_le b c → crdt_le a c.
Proof.
  unfold crdt_le. intros Ha Hb Hc Hab Hbc.
  transitivity (crdt_merge (crdt_merge c b) a).
  { apply crdt_merge_proper; try done. by apply crdt_merge_wf. }
  rewrite <-crdt_merge_assoc by done. rewrite <-Hbc at 2.
  apply crdt_merge_proper; try done. by apply crdt_merge_wf.
Qed.

Lemma crdt_le_antisymm a b : crdt_wf a → crdt_wf b → crdt_le a b → crdt_le b a → a ≡ b.
Proof.
  unfold crdt_le. intros Ha Hb Hab Hba. rewrite <-Hab, <-Hba at 1. by apply crdt_merge_comm.
Qed.

Lemma crdt_le_proper_l a a' b :
  crdt_wf a → crdt_wf a' → crdt_wf b → a ≡ a' → crdt_le a b → crdt_le a' b.
Proof.
  unfold crdt_le. intros Ha Ha' Hb Haa Hab. rewrite <-Hab at 2.
  by apply crdt_merge_proper.
Qed.

Lemma crdt_absorb_ub s l x :
  crdt_wf s → Forall crdt_wf l → x ∈ s :: l → crdt_le x (crdt_absorb s l).
Proof.
  intros Hs Hl. revert s x Hs. unfold crdt_absorb.
  induction Hl as [|y l Hy Hl IH]; intros s x Hs; simpl.
  - intros ->%list_elem_of_singleton. by apply crdt_merge_idemp.
  - assert (crdt_wf (crdt_merge s y)) by (by apply crdt_merge_wf).
    assert (crdt_le (crdt_merge s y) (foldl crdt_merge (crdt_merge s y) l)) as Hhd
      by (apply IH; [done|left]).
    assert (crdt_wf (foldl crdt_merge (crdt_merge s y) l)) by (by apply crdt_absorb_wf).
    intros [->|[->|Hx]%elem_of_cons]%elem_of_cons.
    + apply (crdt_le_trans _ (crdt_merge s y)); try done. by apply crdt_le_merge_l.
    + apply (crdt_le_trans _ (crdt_merge s y)); try done. by apply crdt_le_merge_r.
    + apply IH; [done|by right].
Qed.

Lemma crdt_absorb_lub s l u :
  crdt_wf s → Forall crdt_wf l → crdt_wf u → (∀ x, x ∈ s :: l → crdt_le x u) →
  crdt_le (crdt_absorb s l) u.
Proof.
  intros Hs Hl Hu. revert s Hs. unfold crdt_absorb.
  induction Hl as [|y l Hy Hl IH]; intros s Hs Hall; simpl; [apply Hall; left|].
  apply IH; [by apply crdt_merge_wf|].
  intros x [->|Hx]%elem_of_cons; [|apply Hall; do 2 right; done].
  apply crdt_merge_lub; try done; apply Hall; [left|right; left].
Qed.

(** [s :: l] carries no more information than [s' :: l']. *)
Definition covered (s : S) (l : list S) (s' : S) (l' : list S) : Prop :=
  ∀ x, x ∈ s :: l → ∃ y, y ∈ s' :: l' ∧ x ≡ y.

Lemma crdt_absorb_covered_le s l s' l' :
  crdt_wf s → Forall crdt_wf l → crdt_wf s' → Forall crdt_wf l' → covered s l s' l' →
  crdt_le (crdt_absorb s l) (crdt_absorb s' l').
Proof.
  intros Hs Hl Hs' Hl' Hcov. apply crdt_absorb_lub; try done; [by apply crdt_absorb_wf|].
  assert (∀ z t k, crdt_wf t → Forall crdt_wf k → z ∈ t :: k → crdt_wf z) as Hwf.
  { intros z t k Ht Hk [->|Hz]%elem_of_cons; [done|]. by eapply Forall_forall in Hz. }
  intros x Hx. destruct (Hcov x Hx) as (y & Hy & Hxy).
  apply (crdt_le_proper_l y); try by eauto.
  - by apply crdt_absorb_wf.
  - by apply crdt_absorb_ub.
Qed.

Lemma crdt_absorb_equiv s1 l1 s2 l2 :
  crdt_wf s1 → Forall crdt_wf l1 → crdt_wf s2 → Forall crdt_wf l2 →
  covered s1 l1 s2 l2 → covered s2 l2 s1 l1 → crdt_absorb s1 l1 ≡ crdt_absorb s2 l2.
Proof.
  intros. apply crdt_le_antisymm; try (by apply crdt_absorb_wf); by apply crdt_absorb_covered_le.
Qed.

End convergence.
