(* ===== verification/CrdtCounters.v ===== *)
(** * Grow-only and up/down counters, grow-only sets

    [GCounter], [PNCounter] and [GSet] of [src/runtime/crdt.rs].  A hash map
    is a [gmap], a hash set a [gset]; [to_bytes] takes the enumeration its
    [for] loop happens to see, and the round trips hold for all of them. *)
From S2P Require Import Prelude Bytes CrdtCore.

Local Open Scope N_scope.

(** ** GCounter *)

Record GCounter := mkGCounter { gc_counts : gmap N N; gc_node_id : N }.

Definition GCounter_new (node_id : N) : GCounter := mkGCounter ∅ node_id.

Definition GCounter_increment_by (self : GCounter) (delta : N) : GCounter :=
  mkGCounter
    (<[gc_node_id self :=
         wrapping_add64 (default 0 (gc_counts self !! gc_node_id self)) delta]>
       (gc_counts self))
    (gc_node_id self).

Definition GCounter_increment (self : GCounter) : GCounter := GCounter_increment_by self 1.

Definition GCounter_value (self : GCounter) : N :=
  foldl wrapping_add64 0 (map_to_list (gc_counts self)).*2.

(** The loop of [delta_since]: the entries that grew since [base]. *)
Definition GCounter_delta_counts (self base : GCounter) : gmap N N :=
  for_each
    (λ m node_id count,
       let base_count := default 0 (gc_counts base !! node_id) in
       if base_count <? count then <[node_id := count]> m else m)
    ∅ (map_to_list (gc_counts self)).

Definition GCounter_delta_since (self base : GCounter) : option GCounter :=
  let counts := GCounter_delta_counts self base in
  if decide (counts = ∅) then None else Some (mkGCounter counts (gc_node_id self)).

Definition GCounter_merge (self other : GCounter) : GCounter :=
  mkGCounter
    (for_each (λ m node_id count, <[node_id := N.max (default 0 (m !! node_id)) count]> m)
       (gc_counts self) (map_to_list (gc_counts other)))
    (gc_node_id self).

Definition GCounter_to_bytes (it : list (N * N)) (self : GCounter) : bytes :=
  let buf := push_u64 [] (gc_node_id self) in
  let buf := push_u32 buf (as_u32 (N.of_nat (size (gc_counts self)))) in
  foldl (λ buf e, push_u64 (push_u64 buf e.1) e.2) buf it.

Definition GCounter_read_entry (bs : bytes) (st : gmap N N * N) : option (gmap N N * N) :=
  let '(counts, pos) := st in
  '(nid, p) ← read_u64 bs pos;
  '(cnt, p) ← read_u64 bs p;
  Some (<[nid := cnt]> counts, p).

Definition GCounter_from_bytes (bs : bytes) : option GCounter :=
  '(node_id, pos) ← read_u64 bs 0;
  '(num_entries, pos) ← read_u32 bs pos;
  '(counts, pos) ← try_for (N.to_nat num_entries) (GCounter_read_entry bs) (∅, pos);
  Some (mkGCounter counts node_id).

(** ** PNCounter *)

Record PNCounter := mkPNCounter { pn_increments : GCounter; pn_decrements : GCounter }.

Definition PNCounter_new (node_id : N) : PNCounter :=
  mkPNCounter (GCounter_new node_id) (GCounter_new node_id).

Definition PNCounter_increment_by (self : PNCounter) (delta : N) : PNCounter :=
  mkPNCounter (GCounter_increment_by (pn_increments self) delta) (pn_decrements self).
Definition PNCounter_decrement_by (self : PNCounter) (delta : N) : PNCounter :=
  mkPNCounter (pn_increments self) (GCounter_increment_by (pn_decrements self) delta).
Definition PNCounter_increment (self : PNCounter) : PNCounter :=
  mkPNCounter (GCounter_increment (pn_increments self)) (pn_decrements self).
Definition PNCounter_decrement (self : PNCounter) : PNCounter :=
  mkPNCounter (pn_increments self) (GCounter_increment (pn_decrements self)).

Definition PNCounter_value (self : PNCounter) : Z :=
  wrap_i64 (as_i64 (GCounter_value (pn_increments self))
            - as_i64 (GCounter_value (pn_decrements self))).

Definition PNCounter_delta_since (self base : PNCounter) : option PNCounter :=
  match GCounter_delta_since (pn_increments self) (pn_increments base),
        GCounter_delta_since (pn_decrements self) (pn_decrements base) with
  | None, None => None
  | inc, dec =>
      Some (mkPNCounter (default (GCounter_new (gc_node_id (pn_increments self))) inc)
                        (default (GCounter_new (gc_node_id (pn_decrements self))) dec))
  end.

Definition PNCounter_merge (self other : PNCounter) : PNCounter :=
  mkPNCounter (GCounter_merge (pn_increments self) (pn_increments other))
              (GCounter_merge (pn_decrements self) (pn_decrements other)).

Definition PNCounter_to_bytes (it_inc it_dec : list (N * N)) (self : PNCounter) : bytes :=
  GCounter_to_bytes it_inc (pn_increments self) ++ GCounter_to_bytes it_dec (pn_decrements self).

Definition PNCounter_from_bytes (bs : bytes) : option PNCounter :=
  '(node_id, pos) ← read_u64 bs 0;
  '(num_entries, _) ← read_u32 bs pos;
  increment_len ← (n ← checked_mul64 num_entries 16; checked_add64 n 12);
  if len bs <? increment_len then None else
  let inc_bytes := slice bs 0 increment_len in
  let dec_bytes := slice bs increment_len (len bs) in
  increments ← GCounter_from_bytes inc_bytes;
  decrements ← GCounter_from_bytes dec_bytes;
  if negb (gc_node_id increments =? node_id) || negb (gc_node_id decrements =? node_id)
  then None
  else Some (mkPNCounter increments decrements).

(** ** GSet *)

Record GSet := mkGSet { gs_elements : gset bytes }.

Definition GSet_new : GSet := mkGSet ∅.

(** [HashSet::insert]: whether the element was new. *)
Definition GSet_insert (self : GSet) (element : bytes) : bool * GSet :=
  (bool_decide (element ∉ gs_elements self), mkGSet ({[element]} ∪ gs_elements self)).

Definition GSet_contains (self : GSet) (element : bytes) : bool :=
  bool_decide (element ∈ gs_elements self).

Definition GSet_len (self : GSet) : N := N.of_nat (size (gs_elements self)).
Definition GSet_is_empty (self : GSet) : bool := bool_decide (gs_elements self = ∅).
Definition GSet_value (self : GSet) : gset bytes := gs_elements self.

Definition GSet_delta_since (self base : GSet) : option GSet :=
  let elements := gs_elements self ∖ gs_elements base in
  if decide (elements = ∅) then None else Some (mkGSet elements).

Definition GSet_merge (self other : GSet) : GSet :=
  mkGSet (foldl (λ s e, {[e]} ∪ s) (gs_elements self) (elements (gs_elements other))).

Definition GSet_to_bytes (it : list bytes) (self : GSet) : bytes :=
  let buf := push_u32 [] (as_u32 (N.of_nat (size (gs_elements self)))) in
  foldl push_string buf it.

Definition GSet_read_element (bs : bytes) (st : gset bytes * N) : option (gset bytes * N) :=
  let '(elements, pos) := st in
  '(s, p) ← read_string bs pos;
  Some ({[s]} ∪ elements, p).

Definition GSet_from_bytes (bs : bytes) : option GSet :=
  '(num_elements, pos) ← read_u32 bs 0;
  '(elements, pos) ← try_for (N.to_nat num_elements) (GSet_read_element bs) (∅, pos);
  Some (mkGSet elements).

(** ** Sums of hash-map values *)

Definition nsum (l : list N) : N := foldr N.add 0 l.
Definition msum (m : gmap N N) : N := nsum (map_to_list m).*2.

#[export] Instance nsum_perm : Proper ((≡ₚ) ==> (=)) nsum.
Proof. intros l l' Hl. unfold nsum. induction Hl; simpl; lia. Qed.

Lemma foldl_wrapping_add acc l :
  acc < U64 → foldl wrapping_add64 acc l = (acc + nsum l) mod U64.
Proof.
  revert acc. induction l as [|x l IH]; intros acc Hacc; simpl.
  - rewrite N.add_0_r. symmetry. by apply N.mod_small.
  - rewrite IH by apply wrapping_add64_lt. unfold wrapping_add64.
    rewrite N.Div0.add_mod_idemp_l. f_equal. lia.
Qed.

Lemma GCounter_value_msum c : GCounter_value c = msum (gc_counts c) mod U64.
Proof. unfold GCounter_value. by rewrite foldl_wrapping_add. Qed.

Lemma msum_insert m k v : m !! k = None → msum (<[k := v]> m) = v + msum m.
Proof. intros Hk. unfold msum. by rewrite map_to_list_insert. Qed.

Lemma msum_delete m k : msum m = default 0 (m !! k) + msum (delete k m).
Proof.
  destruct (m !! k) as [v|] eqn:Hk; simpl.
  - rewrite <-(msum_insert _ k) by apply lookup_delete_eq. by rewrite insert_delete_id.
  - by rewrite delete_id.
Qed.

(** The sum only depends on the entries read with [unwrap_or(0)]. *)
Lemma msum_ext m1 m2 : (∀ k, default 0 (m1 !! k) = default 0 (m2 !! k)) → msum m1 = msum m2.
Proof.
  revert m2. induction m1 as [|k v m1 Hk IH] using map_ind; intros m2 Heq.
  - induction m2 as [|k v m2 Hk IH] using map_ind; [done|].
    rewrite msum_insert by done. rewrite <-IH.
    + specialize (Heq k). rewrite lookup_empty, lookup_insert_eq in Heq. simpl in Heq. lia.
    + intros j. specialize (Heq j). destruct (decide (k = j)) as [<-|]; [by rewrite Hk|].
      by rewrite lookup_insert_ne in Heq.
  - rewrite msum_insert, (msum_delete m2 k) by done. f_equal.
    + specialize (Heq k). by rewrite lookup_insert_eq in Heq.
    + apply IH. intros j. specialize (Heq j). destruct (decide (k = j)) as [<-|].
      * by rewrite Hk, lookup_delete_eq.
      * by rewrite lookup_insert_ne in Heq; rewrite ?lookup_delete_ne.
Qed.

(** ** GCounter: laws *)

Definition gc_count (c : GCounter) (k : N) : N := default 0 (gc_counts c !! k).

Lemma gc_count_merge a b k : gc_count (GCounter_merge a b) k = N.max (gc_count a k) (gc_count b k).
Proof.
  unfold gc_count, GCounter_merge; simpl.
  rewrite (for_each_upsert_map _ (λ _ o v, Some (N.max (default 0 o) v)) _ (gc_counts b))
    by (done || solve_upsert).
  destruct (gc_counts b !! k); simpl; [done|lia].
Qed.

Lemma gc_count_increment_by c d k :
  gc_count (GCounter_increment_by c d) k =
    if decide (k = gc_node_id c) then wrapping_add64 (gc_count c k) d else gc_count c k.
Proof.
  unfold gc_count, GCounter_increment_by; simpl. case_decide as Hk.
  - by rewrite Hk, lookup_insert_eq.
  - by rewrite lookup_insert_ne.
Qed.

Lemma GCounter_delta_since_lookup self base k :
  GCounter_delta_counts self base !! k =
  match gc_counts self !! k with
  | Some v => if gc_count base k <? v then Some v else None
  | None => None
  end.
Proof.
  unfold GCounter_delta_counts. rewrite (for_each_upsert_map _
    (λ k o v, if gc_count base k <? v then Some v else o) _ (gc_counts self)).
  - by rewrite lookup_empty.
  - done.
  - unfold gc_count. solve_upsert.
Qed.

(** Entries of the delta, [None] being the empty delta. *)
Lemma gc_count_delta self base k :
  match GCounter_delta_since self base with Some d => gc_count d k | None => 0 end =
  if gc_count base k <? gc_count self k then gc_count self k else 0.
Proof.
  assert (∀ m : gmap N N, (∀ k, m !! k = match gc_counts self !! k with
      | Some v => if gc_count base k <? v then Some v else None | None => None end) →
    default 0 (m !! k) = if gc_count base k <? gc_count self k then gc_count self k else 0)
    as Hm.
  { intros m ->. change (gc_count self k) with (default 0 (gc_counts self !! k)).
    destruct (gc_counts self !! k); simpl; by case_if. }
  unfold GCounter_delta_since. case_decide as Hd.
  - rewrite <-(Hm ∅); [by rewrite lookup_empty|]. intros j. rewrite <-Hd.
    apply GCounter_delta_since_lookup.
  - apply Hm, GCounter_delta_since_lookup.
Qed.

(** Two counters are equivalent when every node's count is. *)
#[export] Instance GCounter_equiv : Equiv GCounter :=
  λ a b, ∀ k, gc_count a k = gc_count b k.

#[export] Instance GCounter_equivalence : Equivalence (≡@{GCounter}).
Proof.
  split; [intros a k; done|intros a b Hab k; by symmetry|].
  intros a b c Hab Hbc k. by rewrite Hab.
Qed.

#[export] Instance GCounter_value_proper : Proper ((≡) ==> (=)) GCounter_value.
Proof. intros a b Hab. rewrite !GCounter_value_msum. f_equal. by apply msum_ext. Qed.

#[export] Instance GCounter_merge_proper : Proper ((≡) ==> (≡) ==> (≡)) GCounter_merge.
Proof. intros a a' Ha b b' Hb k. by rewrite !gc_count_merge, Ha, Hb. Qed.

#[export] Instance GCounter_crdt : Crdt GCounter N := {
  crdt_wf _ := True;
  crdt_equiv := GCounter_equiv;
  crdt_merge := GCounter_merge;
  crdt_value := GCounter_value;
  crdt_delta_since := GCounter_delta_since;
}.

#[export] Instance GCounter_laws : CrdtLaws GCounter N.
Proof.
  split; simpl; unfold crdt_le; simpl; try done.
  - apply _.
  - intros a a' b b' _ _ _ _ Ha Hb. by rewrite Ha, Hb.
  - intros a b c _ _ _ k. rewrite !gc_count_merge. lia.
  - intros a b _ _ k. rewrite !gc_count_merge. lia.
  - intros a _ k. rewrite gc_count_merge. lia.
  - intros a b _ _ Hab. by rewrite Hab.
  - intros a base r _ _ _ Hle k. pose proof (gc_count_delta a base k) as Hd.
    specialize (Hle k). simpl in Hle. rewrite gc_count_merge in *.
    destruct (GCounter_delta_since a base); simpl; rewrite ?gc_count_merge;
      destruct (gc_count base k <? gc_count a k) eqn:?; bool_to_prop; lia.
Qed.

(** ** PNCounter: laws *)

Lemma GCounter_merge_new a n : GCounter_merge a (GCounter_new n) ≡ a.
Proof.
  intros k. rewrite gc_count_merge. unfold gc_count at 2; simpl. rewrite lookup_empty. simpl. lia.
Qed.

(** The half of a delta that did not change is sent as a fresh counter. *)
Lemma GCounter_delta_default (a base r : GCounter) n :
  crdt_le base r →
  GCounter_merge r (default (GCounter_new n) (GCounter_delta_since a base)) ≡ GCounter_merge r a.
Proof.
  intros Hle. pose proof (crdt_delta_merge a base r I I I Hle) as Hd.
  unfold crdt_delta_since in Hd; simpl in Hd.
  destruct (GCounter_delta_since a base); simpl in *; [done|].
  etrans; [apply GCounter_merge_new|exact Hd].
Qed.

#[export] Instance PNCounter_equiv : Equiv PNCounter :=
  λ a b, pn_increments a ≡ pn_increments b ∧ pn_decrements a ≡ pn_decrements b.

#[export] Instance PNCounter_equivalence : Equivalence (≡@{PNCounter}).
Proof.
  split; [intros a; done|intros a b [? ?]; by split|].
  intros a b c [H1 H2] [H3 H4]. split; by etrans.
Qed.

#[export] Instance PNCounter_crdt : Crdt PNCounter Z := {
  crdt_wf _ := True;
  crdt_equiv := PNCounter_equiv;
  crdt_merge := PNCounter_merge;
  crdt_value := PNCounter_value;
  crdt_delta_since := PNCounter_delta_since;
}.

#[export] Instance PNCounter_laws : CrdtLaws PNCounter Z.
Proof.
  split; simpl; try done.
  - apply _.
  - intros a a' b b' _ _ _ _ [? ?] [? ?].
    split; intros k; simpl; rewrite !gc_count_merge; by f_equal.
  - intros a b c _ _ _. split; intros k; simpl; rewrite !gc_count_merge; lia.
  - intros a b _ _. split; intros k; simpl; rewrite !gc_count_merge; lia.
  - intros a _. split; intros k; simpl; rewrite !gc_count_merge; lia.
  - intros a b _ _ [H1 H2]. unfold PNCounter_value.
    by rewrite H1, H2.
  - intros a base r _ _ _ [Hi Hd]. unfold PNCounter_delta_since.
    pose proof (GCounter_delta_default (pn_increments a) _ _
      (gc_node_id (pn_increments a)) Hi) as Hi'.
    pose proof (GCounter_delta_default (pn_decrements a) _ _
      (gc_node_id (pn_decrements a)) Hd) as Hd'.
    destruct (GCounter_delta_since (pn_increments a) (pn_increments base)),
      (GCounter_delta_since (pn_decrements a) (pn_decrements base)); simpl in *;
      try (split; done).
Qed.

(** ** GSet: laws *)

Lemma foldl_union_elements (s : gset bytes) l :
  foldl (λ s e, {[e]} ∪ s) s l = list_to_set l ∪ s.
Proof.
  revert s. induction l as [|x l IH]; intros s; simpl; [set_solver|]. rewrite IH. set_solver.
Qed.

Lemma gs_elements_merge a b : gs_elements (GSet_merge a b) = gs_elements a ∪ gs_elements b.
Proof.
  unfold GSet_merge; simpl. rewrite foldl_union_elements, list_to_set_elements_L. set_solver.
Qed.

#[export] Instance GSet_equiv : Equiv GSet := λ a b, gs_elements a = gs_elements b.

#[export] Instance GSet_equivalence : Equivalence (≡@{GSet}).
Proof.
  unfold equiv, GSet_equiv. split; [by intros a|by intros a b|]. intros a b c Hab Hbc.
  by rewrite Hab.
Qed.

#[export] Instance GSet_crdt : Crdt GSet (gset bytes) := {
  crdt_wf _ := True;
  crdt_equiv := GSet_equiv;
  crdt_merge := GSet_merge;
  crdt_value := GSet_value;
  crdt_delta_since := GSet_delta_since;
}.

#[export] Instance GSet_laws : CrdtLaws GSet (gset bytes).
Proof.
  split; simpl; unfold crdt_le; simpl; unfold equiv, GSet_equiv; try done.
  - apply GSet_equivalence.
  - intros a a' b b' _ _ _ _ Ha Hb. by rewrite !gs_elements_merge, Ha, Hb.
  - intros a b c _ _ _. rewrite !gs_elements_merge. set_solver.
  - intros a b _ _. rewrite !gs_elements_merge. set_solver.
  - intros a _. rewrite gs_elements_merge. set_solver.
  - intros a base r _ _ _ Hle. rewrite gs_elements_merge in *. unfold GSet_delta_since.
    case_decide as Hd; cbn [merge_delta crdt_merge GSet_crdt]; rewrite ?gs_elements_merge;
      cbn [gs_elements]; apply set_eq; intros x;
      destruct (decide (x ∈ gs_elements base)); set_solver.
Qed.

(** ** Serialisation round trips *)

Definition count_frame (e : N * N) : bytes := to_be_bytes 8 e.1 ++ to_be_bytes 8 e.2.

Definition gcounter_frame (it : list (N * N)) (c : GCounter) : bytes :=
  to_be_bytes 8 (gc_node_id c) ++ to_be_bytes 4 (as_u32 (N.of_nat (size (gc_counts c))))
    ++ encode_all count_frame it.

Lemma GCounter_to_bytes_frame it c : GCounter_to_bytes it c = gcounter_frame it c.
Proof.
  unfold GCounter_to_bytes, gcounter_frame. rewrite (foldl_push count_frame).
  - unfold push_u64, push_u32. simpl. by rewrite <-!(assoc_L (++)).
  - intros buf e. unfold push_u64, count_frame. by rewrite (assoc_L (++)).
Qed.

(** All fields of the counter fit their machine width. *)
Definition gcounter_ok (c : GCounter) : Prop :=
  gc_node_id c < U64 ∧ N.of_nat (size (gc_counts c)) < U32 ∧
  ∀ k v, gc_counts c !! k = Some v → k < U64 ∧ v < U64.

Lemma GCounter_read_entry_app pre e suf acc :
  e.1 < U64 ∧ e.2 < U64 → fits (pre ++ count_frame e ++ suf) →
  GCounter_read_entry (pre ++ count_frame e ++ suf) (acc, len pre)
  = Some (<[e.1 := e.2]> acc, len pre + len (count_frame e)).
Proof.
  intros [H1 H2] Hfit. destruct e as [k v]. unfold count_frame, GCounter_read_entry in *; simpl in *.
  rewrite <-(assoc_L (++)) in *. rewrite read_u64_app by done. simpl.
  replace (len pre + 8) with (len (pre ++ to_be_bytes 8 k)) by (by autorewrite with nula).
  rewrite (assoc_L (++) pre) in *. rewrite read_u64_app by done. simpl.
  autorewrite with nula. do 2 f_equal. lia.
Qed.

Lemma GCounter_from_bytes_frame it c suf :
  gcounter_ok c → it ≡ₚ map_to_list (gc_counts c) → fits (gcounter_frame it c ++ suf) →
  GCounter_from_bytes (gcounter_frame it c ++ suf) = Some c.
Proof.
  intros (Hn & Hsz & Hkv) Hit Hfit. unfold gcounter_frame in *.
  rewrite as_u32_small in * by done. unfold GCounter_from_bytes. rewrite <-!(assoc_L (++)) in *.
  rewrite read_u64_head by done. simpl.
  set (n := to_be_bytes 8 _) in *.
  replace 8 with (len n) by (subst n; by autorewrite with nula).
  rewrite read_u32_app by done. simpl. set (k := to_be_bytes 4 _) in *.
  replace (len n + 4) with (len (n ++ k)) by (subst k; by autorewrite with nula).
  rewrite (assoc_L (++) n) in *.
  assert (N.to_nat (N.of_nat (size (gc_counts c))) = length it) as ->.
  { rewrite Hit, length_map_to_list. lia. }
  rewrite (try_for_items count_frame (λ e, e.1 < U64 ∧ e.2 < U64)
    (λ acc e, <[e.1 := e.2]> acc)); simpl.
  - rewrite (foldl_insert_map_to_list it (gc_counts c)) by done. by destruct c.
  - intros. by apply GCounter_read_entry_app.
  - rewrite Hit. apply Forall_forall. intros [x y] Hxy%elem_of_map_to_list. by apply Hkv.
  - done.
Qed.

Lemma len_encode_counts it : len (encode_all count_frame it) = 16 * len it.
Proof.
  induction it as [|e it IH]; simpl; [done|].
  unfold count_frame at 1. autorewrite with nula in *. rewrite IH. lia.
Qed.

Lemma len_gcounter_frame it c : len (gcounter_frame it c) = 12 + 16 * len it.
Proof.
  unfold gcounter_frame. autorewrite with nula. rewrite len_encode_counts. lia.
Qed.

Lemma slice_full {A} (l1 l2 : list A) : slice (l1 ++ l2) 0 (len l1) = l1.
Proof. apply (slice_app [] l1 l2). done. Qed.

Lemma slice_tail {A} (l1 l2 : list A) : slice (l1 ++ l2) (len l1) (len (l1 ++ l2)) = l2.
Proof.
  rewrite <-(app_nil_r l2) at 1. apply slice_app. apply len_app.
Qed.

Lemma GCounter_from_to_frame it c :
  gcounter_ok c → it ≡ₚ map_to_list (gc_counts c) → fits (gcounter_frame it c) →
  GCounter_from_bytes (gcounter_frame it c) = Some c.
Proof.
  intros ???. rewrite <-(app_nil_r (gcounter_frame it c)).
  apply GCounter_from_bytes_frame; [done..|]. by rewrite app_nil_r.
Qed.

(** The two header fields at the front of a counter's frame. *)
Lemma gcounter_frame_header it c suf :
  gcounter_ok c → fits (gcounter_frame it c ++ suf) →
  read_u64 (gcounter_frame it c ++ suf) 0 = Some (gc_node_id c, 8) ∧
  read_u32 (gcounter_frame it c ++ suf) 8 = Some (N.of_nat (size (gc_counts c)), 12).
Proof.
  intros (Hn & Hsz & _) Hfit. unfold gcounter_frame in *.
  rewrite as_u32_small in * by done. rewrite <-!(assoc_L (++)) in *.
  split; [by rewrite read_u64_head|].
  set (n := to_be_bytes 8 (gc_node_id c)) in *.
  replace 8 with (len n) by (subst n; by autorewrite with nula).
  rewrite read_u32_app by done. subst n. by autorewrite with nula.
Qed.

Lemma PNCounter_from_frames it1 it2 inc dec :
  gcounter_ok inc → gcounter_ok dec → gc_node_id inc = gc_node_id dec →
  it1 ≡ₚ map_to_list (gc_counts inc) → it2 ≡ₚ map_to_list (gc_counts dec) →
  fits (gcounter_frame it1 inc ++ gcounter_frame it2 dec) →
  PNCounter_from_bytes (gcounter_frame it1 inc ++ gcounter_frame it2 dec)
  = Some (mkPNCounter inc dec).
Proof.
  intros Hi Hd Hid Hit1 Hit2 Hfit.
  destruct (gcounter_frame_header it1 inc (gcounter_frame it2 dec)) as [Hh1 Hh2]; [done..|].
  assert (len (gcounter_frame it1 inc) = 12 + 16 * N.of_nat (size (gc_counts inc))) as Hlen1.
  { rewrite len_gcounter_frame. unfold len. by rewrite Hit1, length_map_to_list. }
  unfold PNCounter_from_bytes. rewrite Hh1. simpl. rewrite Hh2. simpl.
  unfold fits, checked_mul64 in *. rewrite len_app in Hfit.
  case_if; [|lia]. simpl. rewrite checked_add64_Some by lia. simpl.
  replace (_ * 16 + 12) with (len (gcounter_frame it1 inc)) by lia.
  case_if; [rewrite len_app in *; lia|].
  rewrite slice_full, slice_tail, !GCounter_from_to_frame by (done || unfold fits; lia).
  simpl. by rewrite Hid, N.eqb_refl.
Qed.

(** Counters survive serialisation: whatever order the hash map is
    iterated in, [from_bytes] of [to_bytes] returns exactly the counter that
    was sent, for a counter whose fields fit their wire widths; for the
    two-counter form the split point is recomputed from the entry count, and
    both halves carry the sender's node id. *)
Theorem counters_roundtrip :
  (∀ it (c : GCounter), gcounter_ok c → it ≡ₚ map_to_list (gc_counts c) →
     fits (GCounter_to_bytes it c) →
     GCounter_from_bytes (GCounter_to_bytes it c) = Some c) ∧
  (∀ it1 it2 (c : PNCounter),
     gcounter_ok (pn_increments c) → gcounter_ok (pn_decrements c) →
     gc_node_id (pn_increments c) = gc_node_id (pn_decrements c) →
     it1 ≡ₚ map_to_list (gc_counts (pn_increments c)) →
     it2 ≡ₚ map_to_list (gc_counts (pn_decrements c)) →
     fits (PNCounter_to_bytes it1 it2 c) →
     PNCounter_from_bytes (PNCounter_to_bytes it1 it2 c) = Some c).
Proof.
  split.
  - intros it c ???. rewrite GCounter_to_bytes_frame in *. by apply GCounter_from_to_frame.
  - intros it1 it2 [inc dec] ??????. unfold PNCounter_to_bytes in *; simpl in *.
    rewrite !GCounter_to_bytes_frame in *. by apply PNCounter_from_frames.
Qed.

Lemma counters_roundtrip_witness :
  let c := GCounter_increment_by (GCounter_increment (GCounter_new 7)) 41 in
  GCounter_from_bytes (GCounter_to_bytes [(7, 42)] c) = Some c ∧
  PNCounter_from_bytes (PNCounter_to_bytes [(7, 42)] [] (mkPNCounter c (GCounter_new 7)))
    = Some (mkPNCounter c (GCounter_new 7)).
Proof.
  destruct counters_roundtrip as [Hg Hp].
  assert (∀ k v, ({[7 := 42]} : gmap N N) !! k = Some v → k < U64 ∧ v < U64) as Hb.
  { intros k v [<- <-]%lookup_singleton_Some. done. }
  split; [apply Hg|apply Hp]; try done; try (split_and!; done).
Defined.

(** ** A cluster of grow-only counters counts every increment exactly once *)

Inductive gc_op := GInc (p d : N) | GSync (p q : N).

Definition gc_start (nodes : list N) : gmap N GCounter :=
  list_to_map ((λ p, (p, GCounter_new p)) <$> nodes).

Definition gc_apply (st : gmap N GCounter) (op : gc_op) : gmap N GCounter :=
  match op with
  | GInc p d => alter (λ c, GCounter_increment_by c d) p st
  | GSync p q =>
      match st !! p, st !! q with
      | Some a, Some b => <[p := GCounter_merge a b]> st
      | _, _ => st
      end
  end.

(** What node [q] has been asked to add, and the sum over the nodes. *)
Definition gc_issued (nodes : list N) (ops : list gc_op) : gmap N N :=
  foldl (λ m op, match op with
                 | GInc p d => if bool_decide (p ∈ nodes)
                               then <[p := default 0 (m !! p) + d]> m else m
                 | GSync _ _ => m
                 end) ∅ ops.

Definition op_amount (nodes : list N) (op : gc_op) : N :=
  match op with
  | GInc p d => if bool_decide (p ∈ nodes) then d else 0
  | GSync _ _ => 0
  end.

Definition gc_total (nodes : list N) (ops : list gc_op) : N :=
  nsum (map (op_amount nodes) ops).

Lemma msum_update m k d : msum (<[k := default 0 (m !! k) + d]> m) = msum m + d.
Proof.
  rewrite (msum_delete _ k), lookup_insert_eq, delete_insert_eq, (msum_delete m k). simpl. lia.
Qed.

Lemma msum_issued nodes ops : msum (gc_issued nodes ops) = gc_total nodes ops.
Proof.
  unfold gc_issued, gc_total.
  change (nsum (map _ ops)) with (msum ∅ + nsum (map (op_amount nodes) ops)).
  generalize (∅ : gmap N N) as m. induction ops as [|[p d|p q] ops IH]; intros m; simpl.
  - lia.
  - rewrite IH. case_bool_decide; [rewrite msum_update|]; lia.
  - rewrite IH. lia.
Qed.

Lemma msum_lookup_le m k : default 0 (m !! k) ≤ msum m.
Proof. rewrite (msum_delete m k). lia. Qed.

Lemma gc_issued_snoc nodes ops op :
  gc_issued nodes (ops ++ [op]) =
  match op with
  | GInc p d => if bool_decide (p ∈ nodes)
                then <[p := default 0 (gc_issued nodes ops !! p) + d]> (gc_issued nodes ops)
                else gc_issued nodes ops
  | GSync _ _ => gc_issued nodes ops
  end.
Proof. unfold gc_issued. by rewrite foldl_app. Qed.

Definition issued_by (nodes : list N) (ops : list gc_op) (q : N) : N :=
  default 0 (gc_issued nodes ops !! q).

Lemma issued_by_snoc nodes ops p d q :
  p ∈ nodes →
  issued_by nodes (ops ++ [GInc p d]) q =
    if decide (q = p) then issued_by nodes ops p + d else issued_by nodes ops q.
Proof.
  intros Hp. unfold issued_by. rewrite gc_issued_snoc, bool_decide_true by done.
  case_decide as Hq; [by rewrite Hq, lookup_insert_eq|by rewrite lookup_insert_ne].
Qed.

Lemma issued_by_outside nodes ops k : k ∉ nodes → issued_by nodes ops k = 0.
Proof.
  intros Hk. unfold issued_by. induction ops as [|op ops IH] using rev_ind; [done|].
  rewrite gc_issued_snoc. destruct op as [p d|]; [|done]. case_bool_decide; [|done].
  rewrite lookup_insert_ne; [done|]. by intros ->.
Qed.

(** Every replica knows its own issued count exactly and never overstates
    another node's. *)
Definition gc_inv (nodes : list N) (ops : list gc_op) (st : gmap N GCounter) : Prop :=
  (∀ p, is_Some (st !! p) ↔ p ∈ nodes) ∧
  ∀ p c, st !! p = Some c →
    gc_node_id c = p ∧ gc_count c p = issued_by nodes ops p ∧
    ∀ q, gc_count c q ≤ issued_by nodes ops q.

Lemma gc_start_inv nodes : gc_inv nodes [] (gc_start nodes).
Proof.
  assert (∀ p c, gc_start nodes !! p = Some c → p ∈ nodes ∧ c = GCounter_new p) as Hs.
  { intros p c Hp. apply elem_of_list_to_map_2, list_elem_of_fmap in Hp as (q & [= -> ->] & ?). done. }
  split.
  - intros p. split; [intros [c ?%Hs]; tauto|].
    intros Hp. unfold gc_start. destruct (_ !! p) eqn:E; [eauto|].
    apply not_elem_of_list_to_map_2 in E. destruct E. rewrite <-list_fmap_compose.
    apply list_elem_of_fmap. eauto.
  - intros p c [Hp ->]%Hs. unfold gc_count, issued_by; simpl.
    rewrite lookup_empty. done.
Qed.

Lemma gc_inc_inv nodes ops p d st :
  gc_total nodes (ops ++ [GInc p d]) < U64 → gc_inv nodes ops st →
  gc_inv nodes (ops ++ [GInc p d]) (gc_apply st (GInc p d)).
Proof.
  intros Htot [Hdom Hc]. simpl. split.
  { intros x. rewrite <-Hdom, lookup_alter. case_decide; subst; [|done].
    by rewrite fmap_is_Some. }
  intros x c'. rewrite lookup_alter. case_decide as Hx.
  - subst x. intros (c & Hp & ->)%fmap_Some. destruct (Hc _ _ Hp) as (Hid & Hown & Hle).
    assert (p ∈ nodes) as Hpn by (apply Hdom; eauto).
    pose proof (msum_lookup_le (gc_issued nodes (ops ++ [GInc p d])) p) as Hb.
    rewrite msum_issued in Hb. fold (issued_by nodes (ops ++ [GInc p d]) p) in Hb.
    rewrite issued_by_snoc, decide_True in Hb by done.
    assert (∀ q, gc_count (GCounter_increment_by c d) q =
      if decide (q = p) then issued_by nodes ops p + d else gc_count c q) as Hinc.
    { intros q. rewrite gc_count_increment_by, Hid. case_decide; [subst|done].
      rewrite Hown. apply wrapping_add64_small. lia. }
    split_and!; [done| |]; intros; rewrite Hinc, issued_by_snoc by done; case_decide; try done.
  - intros Hp. destruct (Hc _ _ Hp) as (Hid & Hown & Hle).
    destruct (decide (p ∈ nodes)) as [Hpn|Hpn].
    + rewrite issued_by_snoc, decide_False by done. split_and!; [done..|].
      intros q. rewrite issued_by_snoc by done. case_decide; [subst|done]. etrans; [apply Hle|lia].
    + unfold issued_by. rewrite gc_issued_snoc, bool_decide_false by done. done.
Qed.

Lemma gc_sync_inv nodes ops p q st :
  gc_inv nodes ops st → gc_inv nodes (ops ++ [GSync p q]) (gc_apply st (GSync p q)).
Proof.
  intros [Hdom Hc]. simpl.
  assert (∀ x, issued_by nodes (ops ++ [GSync p q]) x = issued_by nodes ops x) as Hsame.
  { intros x. unfold issued_by. by rewrite gc_issued_snoc. }
  destruct (st !! p) as [a|] eqn:Hp, (st !! q) as [b|] eqn:Hq;
    try (split; [done|]; intros; setoid_rewrite Hsame; by apply Hc).
  destruct (Hc _ _ Hp) as (Hid & Hown & Hle), (Hc _ _ Hq) as (_ & _ & Hleq). split.
  { intros x. rewrite <-Hdom, lookup_insert. case_decide; subst; [|done].
    rewrite Hp. split; eauto. }
  intros x c. setoid_rewrite Hsame. rewrite lookup_insert.
  case_decide as Hx; [destruct Hx|apply Hc].
  intros [= <-]. setoid_rewrite gc_count_merge. split_and!; [done| |].
  - specialize (Hleq p). lia.
  - intros y. specialize (Hle y). specialize (Hleq y). lia.
Qed.

Lemma nsum_app l1 l2 : nsum (l1 ++ l2) = nsum l1 + nsum l2.
Proof. unfold nsum. induction l1; simpl; lia. Qed.

Lemma gc_run_inv nodes ops :
  gc_total nodes ops < U64 → gc_inv nodes ops (foldl gc_apply (gc_start nodes) ops).
Proof.
  induction ops as [|op ops IH] using rev_ind; [intros; apply gc_start_inv|].
  intros Htot. rewrite foldl_app; simpl.
  assert (gc_total nodes ops < U64).
  { unfold gc_total in *. rewrite map_app, nsum_app in Htot. lia. }
  destruct op; [apply gc_inc_inv|apply gc_sync_inv]; auto.
Qed.

Lemma gc_count_absorb c l k n :
  gc_count (crdt_absorb c l) k ≤ n ↔ gc_count c k ≤ n ∧ ∀ d, d ∈ l → gc_count d k ≤ n.
Proof.
  unfold crdt_absorb. revert c. induction l as [|x l IH]; intros c; simpl.
  - split; [|tauto]. intros. split; [done|]. by intros ? ?%not_elem_of_nil.
  - rewrite IH. simpl. rewrite gc_count_merge. setoid_rewrite elem_of_cons. split.
    + intros [? ?]. split; [lia|]. intros d [->|?]; [lia|auto].
    + intros [? Hd]. split; [|auto]. assert (gc_count x k ≤ n) by auto. lia.
Qed.

(** [C15] Exactly-once counting: run any interleaving of increments and
    state exchanges (repeated, missed or re-ordered) over a set of nodes; a
    replica that has then merged the state of every node reports precisely
    the sum of all increments ever issued, as long as that sum fits a [u64]. *)
Theorem gcounter_counts_exactly_once nodes ops p c :
  gc_total nodes ops < U64 →
  foldl gc_apply (gc_start nodes) ops !! p = Some c →
  GCounter_value (crdt_absorb c (map_to_list (foldl gc_apply (gc_start nodes) ops)).*2)
  = gc_total nodes ops.
Proof.
  intros Htot Hp. destruct (gc_run_inv nodes ops Htot) as [Hdom Hc].
  set (st := foldl gc_apply (gc_start nodes) ops) in *.
  rewrite GCounter_value_msum, <-(msum_issued nodes ops).
  rewrite (msum_ext _ (gc_issued nodes ops)); [by rewrite N.mod_small; rewrite ?msum_issued|].
  intros k. fold (gc_count (crdt_absorb c (map_to_list st).*2) k).
  fold (issued_by nodes ops k). apply N.le_antisymm.
  - apply gc_count_absorb. split; [by apply (Hc p)|].
    intros d ([q d'] & -> & Hd)%list_elem_of_fmap. apply elem_of_map_to_list in Hd.
    by apply (Hc q).
  - destruct (decide (k ∈ nodes)) as [[d Hk]%Hdom|Hk].
    + destruct (Hc _ _ Hk) as (_ & <- & _).
      apply (gc_count_absorb c (map_to_list st).*2 k); [done|].
      apply list_elem_of_fmap. exists (k, d). by rewrite elem_of_map_to_list.
    + rewrite issued_by_outside by done. lia.
Qed.

Lemma gcounter_counts_exactly_once_witness :
  GCounter_value (crdt_absorb (GCounter_increment_by (GCounter_new 1) 5)
    (map_to_list (foldl gc_apply (gc_start [1; 2])
       [GInc 1 5; GSync 2 1; GSync 2 1; GInc 2 4])).*2) = 9.
Proof.
  apply (gcounter_counts_exactly_once [1; 2] [GInc 1 5; GSync 2 1; GSync 2 1; GInc 2 4] 1).
  - by vm_compute.
  - by vm_compute.
Defined.

(** Delta synchronisation of the counters and of the grow-only set: for a
    receiver that already holds [base], merging what [delta_since base]
    returned (or nothing, when it returned [None]) leaves it exactly where
    merging the sender's full state would. *)
Theorem counters_delta_sync :
  (∀ a base r : GCounter, crdt_le base r →
     merge_delta r (GCounter_delta_since a base) ≡ GCounter_merge r a) ∧
  (∀ a base r : PNCounter, crdt_le base r →
     merge_delta r (PNCounter_delta_since a base) ≡ PNCounter_merge r a) ∧
  (∀ a base r : GSet, crdt_le base r →
     merge_delta r (GSet_delta_since a base) ≡ GSet_merge r a).
Proof.
  split_and!; intros a base r Hle.
  - exact (crdt_delta_merge a base r I I I Hle).
  - exact (crdt_delta_merge a base r I I I Hle).
  - exact (crdt_delta_merge a base r I I I Hle).
Qed.

Lemma counters_delta_sync_witness :
  let base := GCounter_increment_by (GCounter_new 1) 3 in
  let a := GCounter_increment_by base 4 in
  let r := GCounter_merge (GCounter_increment_by (GCounter_new 2) 9) base in
  merge_delta r (GCounter_delta_since a base) ≡ GCounter_merge r a.
Proof.
  intros base a r. apply counters_delta_sync. intros k. unfold r. simpl.
  rewrite !gc_count_merge. lia.
Defined.
