(* ===== verification/CrdtSets.v ===== *)
(** * Observed-remove sets

    [ORSet] and [AWORSet] of [src/runtime/crdt.rs].  An [ORSet] holds, per
    element, the unique tags of its adds, and a tombstone with a removal
    stamp for every tag that was removed; an [AWORSet] holds the last add and
    the last remove stamp of every element. *)
From S2P Require Import Prelude Bytes CrdtClock CrdtCore.

Local Open Scope N_scope.

(** ** ORSet *)

Record Tag := mkTag { tag_node_id : N; tag_counter : N }.

#[export] Instance Tag_eq_dec : EqDecision Tag.
Proof. solve_decision. Defined.
#[export] Instance Tag_countable : Countable Tag.
Proof.
  apply (inj_countable' (λ t, (tag_node_id t, tag_counter t)) (λ p, mkTag p.1 p.2)).
  by intros [].
Defined.

Record ORSet := mkORSet {
  or_entries : gmap bytes (gset Tag);
  or_removed : gmap Tag LamportTime;
  or_tag_counter : N;
  or_node_id : N;
  or_matrix : MatrixClock;
}.

Definition ORSet_new (node_id : N) : ORSet := mkORSet ∅ ∅ 0 node_id (MatrixClock_new node_id).

Definition ORSet_fresh_tag (self : ORSet) : Tag * ORSet :=
  (mkTag (as_u32 (or_node_id self)) (as_u32 (or_tag_counter self)),
   mkORSet (or_entries self) (or_removed self) (wrapping_add64 (or_tag_counter self) 1)
     (or_node_id self) (or_matrix self)).

Definition ORSet_add (self : ORSet) (element : bytes) : ORSet :=
  let '(tag, self) := ORSet_fresh_tag self in
  mkORSet (<[element := {[tag]} ∪ default ∅ (or_entries self !! element)]> (or_entries self))
    (or_removed self) (or_tag_counter self) (or_node_id self) (or_matrix self).

Definition ORSet_remove (self : ORSet) (element : bytes) : ORSet :=
  match or_entries self !! element with
  | Some tags =>
      let '(rt, matrix) := MatrixClock_tick_local (or_matrix self) in
      mkORSet (delete element (or_entries self))
        (foldl (λ m tag, <[tag := mkLamportTime rt (or_node_id self)]> m)
           (or_removed self) (elements tags))
        (or_tag_counter self) (or_node_id self) matrix
  | None => self
  end.

Definition ORSet_contains (self : ORSet) (element : bytes) : bool :=
  match or_entries self !! element with
  | Some tags => bool_decide (tags ≠ ∅)
  | None => false
  end.

Definition ORSet_value (self : ORSet) : gset bytes :=
  dom (filter (λ e, e.2 ≠ ∅) (or_entries self)).

Definition ORSet_len (self : ORSet) : N := N.of_nat (size (ORSet_value self)).
Definition ORSet_is_empty (self : ORSet) : bool := ORSet_len self =? 0.

(** The entries loop of [delta_since]: per element, the tags unknown to [base]. *)
Definition ORSet_delta_entries (self base : ORSet) : gmap bytes (gset Tag) :=
  for_each
    (λ (m : gmap bytes (gset Tag)) element (tags : gset Tag),
       let new_tags := filter (λ t, t ∉ default ∅ (or_entries base !! element)) tags in
       if decide (new_tags = ∅) then m else <[element := new_tags]> m)
    ∅ (map_to_list (or_entries self)).

Definition ORSet_delta_since (self base : ORSet) : option ORSet :=
  let entries := ORSet_delta_entries self base in
  let removed := filter (λ e, or_removed base !! e.1 = None) (or_removed self) in
  if decide (entries = ∅ ∧ removed = ∅) then None
  else Some (mkORSet entries removed (or_tag_counter self) (or_node_id self) (or_matrix self)).

Definition ORSet_gc_tombstones (self : ORSet) (watermark : gmap N N) : ORSet :=
  mkORSet (or_entries self)
    (filter (λ e, default 0 (watermark !! lt_node_id e.2) < lt_counter e.2) (or_removed self))
    (or_tag_counter self) (or_node_id self) (or_matrix self).

(** [match self.get(k) { Some(existing) if v <= existing => {}, _ => insert }] *)
Definition insert_newer {K} `{Countable K} (m : gmap K LamportTime) (k : K) (ts : LamportTime)
    : gmap K LamportTime :=
  match m !! k with
  | Some existing => if LamportTime_le ts existing then m else <[k := ts]> m
  | None => <[k := ts]> m
  end.

Definition ORSet_merge (self other : ORSet) : ORSet :=
  let entries := (λ tags : gset Tag, filter (λ t, or_removed other !! t = None) tags)
                   <$> or_entries self in
  let removed := for_each insert_newer (or_removed self) (map_to_list (or_removed other)) in
  let entries := for_each
    (λ (m : gmap bytes (gset Tag)) element (tags : gset Tag),
       <[element :=
           foldl (λ entry tag, if decide (removed !! tag = None) then {[tag]} ∪ entry else entry)
             (default ∅ (m !! element)) (elements tags)]> m)
    entries (map_to_list (or_entries other)) in
  mkORSet entries removed (N.max (or_tag_counter self) (or_tag_counter other))
    (or_node_id self) (MatrixClock_merge (or_matrix self) (or_matrix other)).

(** A tag on the wire: [((node_id as u64) << 32) | counter as u64]. *)
Definition tag_to_u64 (t : Tag) : N := N.lor (N.shiftl (tag_node_id t) 32) (tag_counter t).
Definition tag_of_u64 (v : N) : Tag := mkTag (as_u32 (N.shiftr v 32)) (as_u32 v).

Definition ORSet_to_bytes (it_entries : list (bytes * list Tag))
    (it_removed : list (Tag * LamportTime)) (self : ORSet) : bytes :=
  let buf := push_u64 [] (or_node_id self) in
  let buf := push_u64 buf (or_tag_counter self) in
  let buf := push_u32 buf (as_u32 (N.of_nat (size (or_entries self)))) in
  let buf := foldl (λ buf e,
    let buf := push_string buf e.1 in
    let buf := push_u32 buf (as_u32 (len e.2)) in
    foldl (λ buf tag, push_u64 buf (tag_to_u64 tag)) buf e.2) buf it_entries in
  let buf := push_u32 buf (as_u32 (N.of_nat (size (or_removed self)))) in
  let buf := foldl (λ buf e,
    push_u64 (push_u64 (push_u64 buf (tag_to_u64 e.1)) (lt_counter e.2)) (lt_node_id e.2))
    buf it_removed in
  MatrixClock_to_bytes (or_matrix self) buf.

Definition ORSet_read_tag (bs : bytes) (st : gset Tag * N) : option (gset Tag * N) :=
  let '(tags, p) := st in
  '(tag_val, p2) ← read_u64 bs p;
  Some ({[tag_of_u64 tag_val]} ∪ tags, p2).

Definition ORSet_read_entry (bs : bytes) (st : gmap bytes (gset Tag) * N)
    : option (gmap bytes (gset Tag) * N) :=
  let '(entries, pos) := st in
  '(element, p) ← read_string bs pos;
  '(tag_count, p) ← read_u32 bs p;
  '(tags, p) ← try_for (N.to_nat tag_count) (ORSet_read_tag bs) (∅, p);
  Some (<[element := tags]> entries, p).

Definition ORSet_read_removed (bs : bytes) (st : gmap Tag LamportTime * N)
    : option (gmap Tag LamportTime * N) :=
  let '(removed, pos) := st in
  '(tag_val, pos) ← read_u64 bs pos;
  '(cnt, pos) ← read_u64 bs pos;
  '(nid, pos) ← read_u64 bs pos;
  Some (<[tag_of_u64 tag_val := mkLamportTime cnt nid]> removed, pos).

Definition ORSet_from_bytes (bs : bytes) : option ORSet :=
  '(node_id, pos) ← read_u64 bs 0;
  '(tag_counter, pos) ← read_u64 bs pos;
  '(num_elements, pos) ← read_u32 bs pos;
  '(entries, pos) ← try_for (N.to_nat num_elements) (ORSet_read_entry bs) (∅, pos);
  '(num_removed, pos) ← read_u32 bs pos;
  '(removed, pos) ← try_for (N.to_nat num_removed) (ORSet_read_removed bs) (∅, pos);
  '(matrix, _) ← MatrixClock_from_bytes bs pos;
  Some (mkORSet entries removed tag_counter node_id matrix).

(** ** AWORSet *)

Record AWORSet := mkAWORSet {
  aw_entries : gmap bytes LamportTime;
  aw_removed : gmap bytes LamportTime;
  aw_clock : LamportClock;
  aw_matrix : MatrixClock;
}.

Definition AWORSet_new (node_id : N) : AWORSet :=
  mkAWORSet ∅ ∅ (LamportClock_new node_id) (MatrixClock_new node_id).

Definition AWORSet_add (self : AWORSet) (element : bytes) : AWORSet :=
  let '(ts, matrix) := MatrixClock_tick_local (aw_matrix self) in
  let nid := lc_node_id (aw_clock self) in
  mkAWORSet (<[element := mkLamportTime ts nid]> (aw_entries self)) (aw_removed self)
    (mkLamportClock nid (N.max (lc_counter (aw_clock self)) ts)) matrix.

Definition AWORSet_remove (self : AWORSet) (element : bytes) : AWORSet :=
  let '(ts, matrix) := MatrixClock_tick_local (aw_matrix self) in
  let nid := lc_node_id (aw_clock self) in
  mkAWORSet (aw_entries self) (<[element := mkLamportTime ts nid]> (aw_removed self))
    (mkLamportClock nid (N.max (lc_counter (aw_clock self)) ts)) matrix.

Definition AWORSet_contains (self : AWORSet) (element : bytes) : bool :=
  match aw_entries self !! element, aw_removed self !! element with
  | Some add_ts, Some rem_ts => LamportTime_is_greater_than add_ts rem_ts
  | Some _, None => true
  | None, _ => false
  end.

Definition AWORSet_value (self : AWORSet) : gset bytes :=
  filter (λ e, AWORSet_contains self e = true) (dom (aw_entries self)).

Definition AWORSet_len (self : AWORSet) : N := N.of_nat (size (AWORSet_value self)).
Definition AWORSet_is_empty (self : AWORSet) : bool := AWORSet_len self =? 0.

(** The stamps of [m] that [base] lacks or holds with an older stamp. *)
Definition newer_stamps (m base : gmap bytes LamportTime) : gmap bytes LamportTime :=
  for_each
    (λ acc element ts,
       if match base !! element with Some bts => LamportTime_gt ts bts | None => true end
       then <[element := ts]> acc else acc)
    ∅ (map_to_list m).

Definition AWORSet_delta_since (self base : AWORSet) : option AWORSet :=
  let entries := newer_stamps (aw_entries self) (aw_entries base) in
  let removed := newer_stamps (aw_removed self) (aw_removed base) in
  if decide (entries = ∅ ∧ removed = ∅) then None
  else Some (mkAWORSet entries removed (aw_clock self) (aw_matrix self)).

Definition AWORSet_gc_tombstones (self : AWORSet) (watermark : gmap N N) : AWORSet :=
  mkAWORSet (aw_entries self)
    (filter (λ e, default 0 (watermark !! lt_node_id e.2) < lt_counter e.2) (aw_removed self))
    (aw_clock self) (aw_matrix self).

Definition AWORSet_merge (self other : AWORSet) : AWORSet :=
  mkAWORSet
    (for_each insert_newer (aw_entries self) (map_to_list (aw_entries other)))
    (for_each insert_newer (aw_removed self) (map_to_list (aw_removed other)))
    (mkLamportClock (lc_node_id (aw_clock self))
       (N.max (lc_counter (aw_clock self)) (lc_counter (aw_clock other))))
    (MatrixClock_merge (aw_matrix self) (aw_matrix other)).

Definition AWORSet_push_stamps (buf : bytes) (it : list (bytes * LamportTime)) : bytes :=
  foldl (λ buf e, push_u64 (push_u64 (push_string buf e.1) (lt_counter e.2)) (lt_node_id e.2))
    buf it.

Definition AWORSet_to_bytes (it_entries it_removed : list (bytes * LamportTime))
    (self : AWORSet) : bytes :=
  let buf := push_u64 [] (lc_node_id (aw_clock self)) in
  let buf := push_u64 buf (lc_counter (aw_clock self)) in
  let buf := push_u32 buf (as_u32 (N.of_nat (size (aw_entries self)))) in
  let buf := AWORSet_push_stamps buf it_entries in
  let buf := push_u32 buf (as_u32 (N.of_nat (size (aw_removed self)))) in
  let buf := AWORSet_push_stamps buf it_removed in
  MatrixClock_to_bytes (aw_matrix self) buf.

Definition AWORSet_read_stamp (bs : bytes) (st : gmap bytes LamportTime * N)
    : option (gmap bytes LamportTime * N) :=
  let '(m, pos) := st in
  '(element, p) ← read_string bs pos;
  '(cnt, p) ← read_u64 bs p;
  '(nid, p) ← read_u64 bs p;
  Some (<[element := mkLamportTime cnt nid]> m, p).

Definition AWORSet_from_bytes (bs : bytes) : option AWORSet :=
  '(node_id, pos) ← read_u64 bs 0;
  '(counter, pos) ← read_u64 bs pos;
  '(num_entries, pos) ← read_u32 bs pos;
  '(entries, pos) ← try_for (N.to_nat num_entries) (AWORSet_read_stamp bs) (∅, pos);
  '(num_removed, pos) ← read_u32 bs pos;
  '(removed, pos) ← try_for (N.to_nat num_removed) (AWORSet_read_stamp bs) (∅, pos);
  '(matrix, _) ← MatrixClock_from_bytes bs pos;
  Some (mkAWORSet entries removed (mkLamportClock node_id counter) matrix).

(** ** Stamp maps: the newest stamp per key *)

Lemma insert_newer_map {K} `{Countable K} (m1 m2 : gmap K LamportTime) :
  for_each insert_newer m1 (map_to_list m2) = map_join LamportTime_max m1 m2.
Proof.
  apply map_eq. intros k. rewrite lookup_map_join.
  rewrite (for_each_upsert_map _ (λ _ o ts, opt_join LamportTime_max o (Some ts)) _ m2); [|done|].
  - by destruct (m1 !! k), (m2 !! k).
  - unfold insert_newer, opt_join, LamportTime_max. intros w j ts. apply upsert_intro.
    + intros i Hi. repeat case_match; rewrite ?lookup_insert_ne by done; done.
    + destruct (w !! j) as [ex|] eqn:Hj; simpl; [|by rewrite lookup_insert_eq].
      destruct (LamportTime_le ts ex) eqn:?; [done|by rewrite lookup_insert_eq].
Qed.

Lemma opt_join_None {V} (f : V → V → V) o1 o2 :
  opt_join f o1 o2 = None ↔ o1 = None ∧ o2 = None.
Proof. destruct o1, o2; naive_solver. Qed.

(** ** ORSet: tags after each operation *)

Definition tags_of (s : ORSet) (e : bytes) : gset Tag := default ∅ (or_entries s !! e).

(** A tag is dead in a replica once its tombstone is there. *)
Definition dead (s : ORSet) (t : Tag) : Prop := is_Some (or_removed s !! t).

Lemma not_dead s t : ¬ dead s t ↔ or_removed s !! t = None.
Proof. unfold dead. destruct (or_removed s !! t); naive_solver. Qed.

#[export] Instance dead_dec s t : Decision (dead s t).
Proof. unfold dead. apply _. Defined.

Lemma ORSet_contains_tags s e : ORSet_contains s e = true ↔ tags_of s e ≠ ∅.
Proof.
  unfold ORSet_contains, tags_of. destruct (or_entries s !! e); simpl; [|naive_solver].
  by rewrite bool_decide_eq_true.
Qed.

Lemma elem_of_ORSet_value s e : e ∈ ORSet_value s ↔ tags_of s e ≠ ∅.
Proof.
  unfold ORSet_value, tags_of. rewrite elem_of_dom, map_lookup_filter.
  destruct (or_entries s !! e) as [tags|]; simpl; [|split; [intros [? ?]; done|done]].
  destruct (decide (tags ≠ ∅)); simplify_option_eq; split; try done; naive_solver.
Qed.

Lemma or_removed_merge a b :
  or_removed (ORSet_merge a b) = map_join LamportTime_max (or_removed a) (or_removed b).
Proof. unfold ORSet_merge; simpl. apply insert_newer_map. Qed.

Lemma dead_merge a b t : dead (ORSet_merge a b) t ↔ dead a t ∨ dead b t.
Proof.
  unfold dead. rewrite or_removed_merge, lookup_map_join.
  destruct (or_removed a !! t), (or_removed b !! t); simpl; naive_solver.
Qed.

Lemma elem_of_fold_tags (removed : gmap Tag LamportTime) (acc : gset Tag) l t :
  t ∈ foldl (λ entry tag, if decide (removed !! tag = None) then {[tag]} ∪ entry else entry) acc l
  ↔ t ∈ acc ∨ t ∈ l ∧ removed !! t = None.
Proof.
  revert acc. induction l as [|x l IH]; intros acc; simpl; [set_solver|].
  rewrite IH. case_decide; set_solver.
Qed.

Lemma elem_of_tags_merge a b e t :
  t ∈ tags_of (ORSet_merge a b) e ↔
  (t ∈ tags_of a e ∧ ¬ dead b t) ∨ (t ∈ tags_of b e ∧ ¬ dead a t ∧ ¬ dead b t).
Proof.
  unfold tags_of. cbn [ORSet_merge or_entries]. rewrite insert_newer_map.
  set (rm := map_join LamportTime_max (or_removed a) (or_removed b)).
  rewrite (for_each_upsert_map _ (λ _ o tags, Some
    (foldl (λ entry tag, if decide (rm !! tag = None) then {[tag]} ∪ entry else entry)
       (default ∅ o) (elements tags))) _ (or_entries b)) by (done || solve_upsert).
  assert (rm !! t = None ↔ ¬ dead a t ∧ ¬ dead b t) as Hrm.
  { rewrite !not_dead. subst rm. rewrite lookup_map_join. apply opt_join_None. }
  assert (t ∈ default ∅ (((λ tags : gset Tag, filter (λ t, or_removed b !! t = None) tags)
      <$> or_entries a) !! e) ↔ t ∈ default ∅ (or_entries a !! e) ∧ ¬ dead b t) as Ha.
  { rewrite lookup_fmap, not_dead. destruct (or_entries a !! e); simpl; [|set_solver].
    rewrite elem_of_filter. tauto. }
  destruct (or_entries b !! e) as [tags|]; simpl.
  - rewrite elem_of_fold_tags, Ha, Hrm, elem_of_elements. tauto.
  - rewrite Ha. set_solver.
Qed.

(** The representation invariant: no live tag is dead, and every tag ever
    seen is older than the tag counter, so a fresh tag is new. *)
Definition ORSet_wf (s : ORSet) : Prop :=
  (∀ e t, t ∈ tags_of s e → ¬ dead s t) ∧
  (∀ e t, t ∈ tags_of s e → tag_counter t < or_tag_counter s) ∧
  (∀ t, dead s t → tag_counter t < or_tag_counter s).

(** On well-formed states the live tags of a merge are the tags of either
    side that neither side has removed. *)
Lemma elem_of_tags_merge_wf a b e t :
  ORSet_wf a → ORSet_wf b →
  t ∈ tags_of (ORSet_merge a b) e ↔
  (t ∈ tags_of a e ∨ t ∈ tags_of b e) ∧ ¬ dead a t ∧ ¬ dead b t.
Proof.
  intros (Ha & _) (Hb & _). rewrite elem_of_tags_merge.
  specialize (Ha e t). specialize (Hb e t). tauto.
Qed.

Lemma ORSet_new_wf n : ORSet_wf (ORSet_new n).
Proof.
  split_and!; unfold tags_of, dead, ORSet_new; simpl; intros *;
    rewrite lookup_empty; simpl; [set_solver..|]. by intros [? ?].
Qed.

Lemma ORSet_merge_wf a b : ORSet_wf a → ORSet_wf b → ORSet_wf (ORSet_merge a b).
Proof.
  intros Ha Hb. split_and!.
  - intros e t. rewrite elem_of_tags_merge_wf, dead_merge by done. tauto.
  - intros e t. rewrite elem_of_tags_merge_wf by done.
    destruct Ha as (_ & Ha & _), Hb as (_ & Hb & _).
    intros [[?%Ha|?%Hb] _]; simpl; lia.
  - intros t. rewrite dead_merge. destruct Ha as (_ & _ & Ha), Hb as (_ & _ & Hb).
    intros [?%Ha|?%Hb]; simpl; lia.
Qed.

Lemma tags_of_add s e e' :
  tags_of (ORSet_add s e) e' =
    if decide (e' = e) then {[(ORSet_fresh_tag s).1]} ∪ tags_of s e else tags_of s e'.
Proof.
  unfold tags_of, ORSet_add; simpl. case_decide as He.
  - by rewrite He, lookup_insert_eq.
  - by rewrite lookup_insert_ne.
Qed.

Lemma ORSet_add_wf s e : or_tag_counter s < U32 → ORSet_wf s → ORSet_wf (ORSet_add s e).
Proof.
  intros Hlt (H1 & H2 & H3).
  assert (tag_counter (ORSet_fresh_tag s).1 = or_tag_counter s) as Hf by (by apply as_u32_small).
  assert (or_tag_counter (ORSet_add s e) = or_tag_counter s + 1) as Hc.
  { simpl. apply wrapping_add64_small. word_lia. }
  assert (∀ t, dead (ORSet_add s e) t ↔ dead s t) as Hd by done.
  split_and!.
  - intros e' t. rewrite tags_of_add, Hd. case_decide; [|apply H1].
    intros [->%elem_of_singleton|?]%elem_of_union; [|by eapply H1].
    intros ?%H3. lia.
  - intros e' t. rewrite tags_of_add, Hc. case_decide; [|intros ?%H2; lia].
    intros [->%elem_of_singleton|?%H2]%elem_of_union; lia.
  - intros t. rewrite Hd, Hc. intros ?%H3. lia.
Qed.

Lemma tags_of_remove s e e' :
  tags_of (ORSet_remove s e) e' = if decide (e' = e) then ∅ else tags_of s e'.
Proof.
  unfold tags_of, ORSet_remove. destruct (or_entries s !! e) as [tags|] eqn:He; simpl.
  - case_decide; [subst; by rewrite lookup_delete_eq|by rewrite lookup_delete_ne].
  - case_decide; [subst; by rewrite He|done].
Qed.

Lemma or_removed_remove s e t :
  or_removed (ORSet_remove s e) !! t =
    if decide (t ∈ tags_of s e)
    then Some (mkLamportTime (MatrixClock_tick_local (or_matrix s)).1 (or_node_id s))
    else or_removed s !! t.
Proof.
  unfold tags_of, ORSet_remove. destruct (or_entries s !! e) as [tags|] eqn:He; simpl.
  - rewrite (lookup_fold_insert (λ _, _)). do 2 case_decide; try done; set_solver.
  - rewrite decide_False by set_solver. done.
Qed.

Lemma dead_remove s e t : dead (ORSet_remove s e) t ↔ dead s t ∨ t ∈ tags_of s e.
Proof.
  unfold dead. rewrite or_removed_remove. case_decide; naive_solver.
Qed.

Lemma or_tag_counter_remove s e : or_tag_counter (ORSet_remove s e) = or_tag_counter s.
Proof. unfold ORSet_remove. by destruct (or_entries s !! e). Qed.

(** [o] says which element every tag was created for; replicas that agree on
    it never hold one tag under two elements. *)
Definition owned (o : Tag → option bytes) (s : ORSet) : Prop :=
  ∀ e t, t ∈ tags_of s e → o t = Some e.

Lemma owned_merge o a b : owned o a → owned o b → owned o (ORSet_merge a b).
Proof. intros Ha Hb e t. rewrite elem_of_tags_merge. intros [[? _]|[? _]]; auto. Qed.

Lemma ORSet_remove_wf o s e : owned o s → ORSet_wf s → ORSet_wf (ORSet_remove s e).
Proof.
  intros Ho (H1 & H2 & H3). split_and!.
  - intros e' t. rewrite tags_of_remove, dead_remove. case_decide as He; [set_solver|].
    intros Ht [?|Ht']; [by eapply H1|]. destruct He. apply Ho in Ht, Ht'. congruence.
  - intros e' t. rewrite tags_of_remove, or_tag_counter_remove.
    case_decide; [set_solver|apply H2].
  - intros t. rewrite dead_remove, or_tag_counter_remove. intros [?|?]; [by apply H3|by eapply H2].
Qed.

Lemma ORSet_delta_entries_lookup self base e :
  default ∅ (ORSet_delta_entries self base !! e) = tags_of self e ∖ tags_of base e.
Proof.
  unfold ORSet_delta_entries, tags_of.
  rewrite (for_each_upsert_map _ (λ k o tags,
    let new_tags := filter (λ t, t ∉ default ∅ (or_entries base !! k)) tags in
    if decide (new_tags = ∅) then o else Some new_tags) _ (or_entries self)).
  - rewrite lookup_empty. destruct (or_entries self !! e) as [tags|]; simpl; [|set_solver].
    apply set_eq. intros t. case_decide as Hd; simpl; [|set_solver].
    split; [set_solver|]. intros Ht. exfalso. apply (not_elem_of_empty (C := gset Tag) t).
    rewrite <-Hd. set_solver.
  - done.
  - intros w k tags. cbn zeta. apply upsert_intro; intros;
      case_decide; by rewrite ?lookup_insert_eq, ?lookup_insert_ne by done.
Qed.

(** What the receiver of a delta sees. *)
Lemma ORSet_delta_since_Some self base d :
  ORSet_delta_since self base = Some d →
  (∀ e, tags_of d e = tags_of self e ∖ tags_of base e) ∧
  (∀ t, dead d t ↔ dead self t ∧ ¬ dead base t) ∧
  or_tag_counter d = or_tag_counter self.
Proof.
  unfold ORSet_delta_since. case_decide; [done|]. intros [= <-]. split_and!; [|intros t|done].
  - apply ORSet_delta_entries_lookup.
  - rewrite not_dead. unfold dead; simpl. rewrite map_lookup_filter.
    destruct (or_removed self !! t); simpl; [|split; [by intros [? ?]|by intros [[? ?] _]]].
    destruct (or_removed base !! t) eqn:Hb; simplify_option_eq; naive_solver.
Qed.

Lemma ORSet_delta_since_None self base :
  ORSet_delta_since self base = None →
  (∀ e t, t ∈ tags_of self e → t ∈ tags_of base e) ∧ (∀ t, dead self t → dead base t).
Proof.
  unfold ORSet_delta_since. case_decide as Hd; [|done]. destruct Hd as [He Hr]. intros _. split.
  - intros e t Ht. destruct (decide (t ∈ tags_of base e)) as [|Hn]; [done|].
    pose proof (ORSet_delta_entries_lookup self base e) as Hl.
    rewrite He, lookup_empty in Hl. simpl in Hl. set_solver.
  - intros t [ts Ht]. destruct (decide (dead base t)) as [|Hn%not_dead]; [done|].
    assert (filter (λ e, or_removed base !! e.1 = None) (or_removed self) !! t = Some ts) as Hf.
    { apply map_lookup_filter_Some. done. }
    by rewrite Hr, lookup_empty in Hf.
Qed.

(** Replicas are equivalent when they hold the same live tags and the same
    dead tags; stamps, counters and the matrix are replica-local. *)
#[export] Instance ORSet_equiv : Equiv ORSet :=
  λ a b, (∀ e, tags_of a e = tags_of b e) ∧ (∀ t, dead a t ↔ dead b t).

#[export] Instance ORSet_equivalence : Equivalence (≡@{ORSet}).
Proof.
  split.
  - intros a. done.
  - intros a b [? ?]. by split.
  - intros a b c [H1 H2] [H3 H4]. split; intros; [by rewrite H1|by rewrite H2].
Qed.

#[export] Instance ORSet_crdt : Crdt ORSet (gset bytes) := {
  crdt_wf := ORSet_wf;
  crdt_equiv := ORSet_equiv;
  crdt_merge := ORSet_merge;
  crdt_value := ORSet_value;
  crdt_delta_since := ORSet_delta_since;
}.

(** Equivalence of merges by membership of live and dead tags. *)
Ltac orset_equiv :=
  split; [intros e; apply set_eq; intros t; rewrite ?elem_of_tags_merge_wf, ?dead_merge
            by (try apply ORSet_merge_wf; done); try tauto
         |intros t; rewrite ?dead_merge; try tauto].

Lemma ORSet_merge_proper_wf a a' b b' :
  ORSet_wf a → ORSet_wf a' → ORSet_wf b → ORSet_wf b' →
  a ≡ a' → b ≡ b' → ORSet_merge a b ≡ ORSet_merge a' b'.
Proof.
  intros ???? [Ha1 Ha2] [Hb1 Hb2]. orset_equiv.
  - by rewrite Ha1, Hb1, Ha2, Hb2.
  - by rewrite Ha2, Hb2.
Qed.

Lemma ORSet_delta_merge_wf a base r :
  ORSet_wf a → ORSet_wf base → ORSet_wf r → ORSet_merge r base ≡ r →
  merge_delta r (ORSet_delta_since a base) ≡ ORSet_merge r a.
Proof.
  intros Ha Hb Hr [Ht Hd].
  assert (∀ e t, t ∈ tags_of base e → ¬ dead r t → t ∈ tags_of r e) as Htags.
  { intros e t Hin Hnd. rewrite <-Ht, elem_of_tags_merge_wf by done.
    split_and!; [tauto|done|]. by eapply Hb. }
  assert (∀ t, dead base t → dead r t) as Hdead by (intros t ?; apply Hd, dead_merge; tauto).
  destruct (ORSet_delta_since a base) as [d|] eqn:Hdelta; simpl.
  - apply ORSet_delta_since_Some in Hdelta as (Dt & Dd & _).
    split; [intros e; apply set_eq; intros t|intros t].
    + rewrite !elem_of_tags_merge, Dt, Dd, elem_of_difference.
      specialize (Htags e t). specialize (Hdead t).
      destruct (decide (t ∈ tags_of base e)), (decide (dead base t)), (decide (dead r t)),
        (decide (dead a t)); try tauto; intuition.
      all: exfalso; by apply (proj1 Hr e t).
    + rewrite !dead_merge, Dd. specialize (Hdead t). destruct (decide (dead base t)); tauto.
  - apply ORSet_delta_since_None in Hdelta as (Dt & Dd).
    split; [intros e; apply set_eq; intros t|intros t].
    + rewrite elem_of_tags_merge_wf by done. specialize (proj1 Hr e t) as ?.
      split; [|naive_solver]. intros Hin. split_and!; [tauto|tauto|]. intros ?%Dd%Hdead. tauto.
    + rewrite dead_merge. naive_solver.
Qed.

#[export] Instance ORSet_laws : CrdtLaws ORSet (gset bytes).
Proof.
  split; simpl; unfold crdt_le; simpl.
  - apply _.
  - apply ORSet_merge_wf.
  - apply ORSet_merge_proper_wf.
  - intros a b c ???. orset_equiv.
  - intros a b ??. orset_equiv.
  - intros a Ha. orset_equiv. pose proof (proj1 Ha e t). tauto.
  - intros a b _ _ [Ht _]. apply set_eq. intros e. by rewrite !elem_of_ORSet_value, Ht.
  - intros a base d (H1 & H2 & H3) (Dt & Dd & Dc)%ORSet_delta_since_Some.
    split_and!; setoid_rewrite Dd || setoid_rewrite Dt; rewrite ?Dc.
    + intros e t. rewrite Dt. intros Ht [? _]. apply (H1 e t); [set_solver|done].
    + intros e t Ht. apply (H2 e). set_solver.
    + intros t [? _]. auto.
  - apply ORSet_delta_merge_wf.
Qed.

(** The whole replicated state: live tags, removal stamps and the tag counter.
    The node id and the matrix clock belong to the replica. *)
Definition ORSet_same (a b : ORSet) : Prop :=
  (∀ e, tags_of a e = tags_of b e) ∧ or_removed a = or_removed b ∧ or_tag_counter a = or_tag_counter b.

(** Stamps in the order of their counters, ties broken by node id. *)
Definition stamp_le (x y : LamportTime) : Prop :=
  lt_counter x < lt_counter y ∨ lt_counter x = lt_counter y ∧ lt_node_id x ≤ lt_node_id y.

(** The stamp of [t] at either replica. *)
Definition stamp_of (a b : ORSet) (t : Tag) (rt : LamportTime) : Prop :=
  or_removed a !! t = Some rt ∨ or_removed b !! t = Some rt.

Lemma or_removed_merge_newest a b t rt :
  or_removed (ORSet_merge a b) !! t = Some rt ↔
  stamp_of a b t rt ∧ ∀ rt', stamp_of a b t rt' → stamp_le rt' rt.
Proof.
  rewrite or_removed_merge, lookup_map_join. unfold stamp_of, stamp_le.
  destruct (or_removed a !! t) as [x|], (or_removed b !! t) as [y|]; simpl.
  - unfold LamportTime_max. destruct (LamportTime_le y x) eqn:Hle.
    + apply LamportTime_le_spec in Hle. split.
      * intros [= <-]. split; [by left|]. intros rt' [[= <-]|[= <-]]; lamport.
      * intros [[?|[= ->]] Hmax]; [done|]. pose proof (Hmax x (or_introl eq_refl)). f_equal. apply LamportTime_ext; lamport.
    + apply not_true_iff_false in Hle. rewrite LamportTime_le_spec in Hle. split.
      * intros [= <-]. split; [by right|]. intros rt' [[= <-]|[= <-]]; lamport.
      * intros [[[= ->]|?] Hmax]; [|done]. pose proof (Hmax y (or_intror eq_refl)). f_equal. apply LamportTime_ext; lamport.
  - split; [intros [= <-]|naive_solver]. split; [by left|]. intros rt' [[= <-]|?]; [lia|done].
  - split; [intros [= <-]|naive_solver]. split; [by right|]. intros rt' [?|[= <-]]; [done|lia].
  - naive_solver.
Qed.

Lemma ORSet_merge_same_comm a b : ORSet_wf a → ORSet_wf b → ORSet_same (ORSet_merge a b) (ORSet_merge b a).
Proof.
  intros Ha Hb. split_and!; [apply (crdt_merge_comm (H:=ORSet_crdt) a b Ha Hb)| |simpl; lia].
  rewrite !or_removed_merge. apply join_comm.
Qed.

Lemma ORSet_merge_same_idemp a : ORSet_wf a → ORSet_same (ORSet_merge a a) a.
Proof.
  intros Ha. split_and!; [apply (crdt_merge_idemp (H:=ORSet_crdt) a Ha)| |simpl; lia].
  rewrite !or_removed_merge. apply join_idemp.
Qed.

Lemma ORSet_merge_same_assoc a b c :
  ORSet_wf a → ORSet_wf b → ORSet_wf c →
  ORSet_same (ORSet_merge a (ORSet_merge b c)) (ORSet_merge (ORSet_merge a b) c).
Proof.
  intros Ha Hb Hc. split_and!; [apply (crdt_merge_assoc (H:=ORSet_crdt) a b c Ha Hb Hc)| |simpl; lia].
  rewrite !or_removed_merge. apply join_assoc.
Qed.

(** The stamps after a delta. *)
Lemma ORSet_delta_stamps a base r t :
  (∀ t, dead base t → dead r t) →
  or_removed (merge_delta r (ORSet_delta_since a base)) !! t =
    if decide (dead base t) then or_removed r !! t else or_removed (ORSet_merge r a) !! t.
Proof.
  intros Hdead. rewrite or_removed_merge, lookup_map_join.
  destruct (ORSet_delta_since a base) as [d|] eqn:Hd; cbn [merge_delta crdt_merge ORSet_crdt].
  - unfold ORSet_delta_since in Hd. case_decide; [done|]. injection Hd as <-.
    rewrite or_removed_merge, lookup_map_join. simpl. rewrite map_lookup_filter.
    case_decide as Hb; destruct (or_removed a !! t) as [x|]; simpl; try (by destruct (or_removed r !! t)).
    + rewrite option_guard_False by (rewrite <-not_dead; tauto). by destruct (or_removed r !! t).
    + by rewrite option_guard_True by (by apply not_dead).
  - apply ORSet_delta_since_None in Hd as [_ Hd]. case_decide as Hb; [done|].
    destruct (or_removed a !! t) eqn:Ha; [destruct Hb; apply Hd; by exists l|by destruct (or_removed r !! t)].
Qed.

(** [C13] The observed-remove set is a state-based CRDT.  Its operations keep the
    representation invariant (no live tag has a tombstone, all tags are older
    than the counter).  A merge holds the live tags of either side that neither
    has removed, for every removed tag the newest of the two stamps, the larger
    tag counter, and the receiver's node id with the merged matrix clock; on
    tags, stamps and counter it is commutative, idempotent and associative.
    When the receiver has [base], merging what [delta_since] sends gives the
    live tags of a merge of the full state, and its stamps for every tag [base]
    had not removed; a tag [base] had removed keeps the receiver's stamp. *)
Theorem orset_state_crdt :
  (∀ a b : ORSet, ORSet_wf a → ORSet_wf b →
     ORSet_wf (ORSet_merge a b) ∧
     (∀ e t, t ∈ tags_of (ORSet_merge a b) e ↔ (t ∈ tags_of a e ∨ t ∈ tags_of b e) ∧ ¬ dead a t ∧ ¬ dead b t) ∧
     (∀ t rt, or_removed (ORSet_merge a b) !! t = Some rt ↔
        stamp_of a b t rt ∧ ∀ rt', stamp_of a b t rt' → stamp_le rt' rt) ∧
     or_tag_counter (ORSet_merge a b) = N.max (or_tag_counter a) (or_tag_counter b) ∧
     or_node_id (ORSet_merge a b) = or_node_id a ∧
     or_matrix (ORSet_merge a b) = MatrixClock_merge (or_matrix a) (or_matrix b) ∧
     ORSet_same (ORSet_merge a b) (ORSet_merge b a) ∧ ORSet_same (ORSet_merge a a) a) ∧
  (∀ a b c : ORSet, ORSet_wf a → ORSet_wf b → ORSet_wf c →
     ORSet_same (ORSet_merge a (ORSet_merge b c)) (ORSet_merge (ORSet_merge a b) c)) ∧
  (∀ a base r : ORSet, ORSet_wf a → ORSet_wf base → ORSet_wf r → crdt_le base r →
     let synced := merge_delta r (ORSet_delta_since a base) in
     synced ≡ ORSet_merge r a ∧
     ∀ t, or_removed synced !! t =
       if decide (dead base t) then or_removed r !! t else or_removed (ORSet_merge r a) !! t) ∧
  (∀ (s : ORSet) e o, ORSet_wf s → owned o s → or_tag_counter s < U32 →
     ORSet_wf (ORSet_add s e) ∧ ORSet_wf (ORSet_remove s e)).
Proof.
  split_and!.
  - intros a b Ha Hb. split_and!; try done.
    + by apply ORSet_merge_wf.
    + intros e t. by apply elem_of_tags_merge_wf.
    + apply or_removed_merge_newest.
    + by apply ORSet_merge_same_comm.
    + by apply ORSet_merge_same_idemp.
  - apply ORSet_merge_same_assoc.
  - intros a base r Ha Hb Hr Hle. split; [exact (crdt_delta_merge a base r Ha Hb Hr Hle)|].
    intros t. apply ORSet_delta_stamps. intros t' ?. apply (proj2 Hle), dead_merge. by right.
  - intros s e o ???. split; [by apply ORSet_add_wf|by eapply ORSet_remove_wf].
Qed.

Lemma ORSet_example_wf : ORSet_wf (ORSet_add (ORSet_add (ORSet_new 1) [97]) [98]).
Proof. do 2 (apply ORSet_add_wf; [by vm_compute|]). apply ORSet_new_wf. Qed.

Lemma orset_state_crdt_witness :
  let a := ORSet_add (ORSet_add (ORSet_new 1) [97]) [98] in
  let b := ORSet_remove (ORSet_merge (ORSet_new 2) a) [97] in
  ORSet_same (ORSet_merge a b) (ORSet_merge b a) ∧
  (∃ d, ORSet_delta_since b a = Some d) ∧ merge_delta a (ORSet_delta_since b a) ≡ ORSet_merge a b ∧
  elements (ORSet_value (ORSet_merge a b)) = [[98]].
Proof.
  intros a b. destruct orset_state_crdt as (Hm & _ & Hd & Hops).
  assert (ORSet_wf a) as Ha by exact ORSet_example_wf.
  assert (ORSet_wf (ORSet_merge (ORSet_new 2) a)) as Hma by exact (proj1 (Hm _ _ (ORSet_new_wf 2) Ha)).
  assert (ORSet_wf b) as Hb.
  { apply (Hops _ [97] (λ t, if decide (t = mkTag 1 0) then Some [97] else Some [98]) Hma); [|by vm_compute].
    apply owned_merge; intros e t; [unfold tags_of; simpl; rewrite lookup_empty; set_solver|].
    unfold a. rewrite tags_of_add. case_decide as He; [subst e|].
    - rewrite tags_of_add, decide_False by done. unfold tags_of at 1; simpl. rewrite lookup_empty; simpl.
      intros [Ht%elem_of_singleton|?%elem_of_empty]%elem_of_union; [|done]. subst t. by vm_compute.
    - rewrite tags_of_add. case_decide; [subst e|unfold tags_of; simpl; rewrite lookup_empty; set_solver].
      unfold tags_of; simpl; rewrite lookup_empty; simpl.
      intros [Ht%elem_of_singleton|?%elem_of_empty]%elem_of_union; [|done]. subst t. by vm_compute. }
  split_and!; [apply (Hm a b Ha Hb)|eexists; by vm_compute| |by vm_compute].
  apply (Hd b a a Hb Ha Ha). exact (crdt_merge_idemp a Ha).
Defined.

(** [C22] Observed-remove semantics.  Add wins: an add whose fresh tag the other
    replica has not removed is visible after the merge, in both directions.
    Removal sticks: once a replica that has seen everything in [a] removes an
    element, merging the stale state [a] -- in either direction -- does not
    bring it back. *)
Theorem orset_add_wins_remove_sticks :
  (∀ (a b : ORSet) e, ORSet_wf a → ORSet_wf b → or_tag_counter a < U32 →
     (¬ dead b (ORSet_fresh_tag a).1) →
     e ∈ ORSet_value (ORSet_merge (ORSet_add a e) b) ∧
     e ∈ ORSet_value (ORSet_merge b (ORSet_add a e))) ∧
  (∀ (a b : ORSet) e o, ORSet_wf a → ORSet_wf b → owned o b → crdt_le a b →
     (e ∉ ORSet_value (ORSet_merge (ORSet_remove b e) a)) ∧
     (e ∉ ORSet_value (ORSet_merge a (ORSet_remove b e)))).
Proof.
  split.
  - intros a b e Ha Hb Hlt Hfresh.
    assert (ORSet_wf (ORSet_add a e)) as Ha' by (by apply ORSet_add_wf).
    set (t := (ORSet_fresh_tag a).1) in *.
    assert (t ∈ tags_of (ORSet_add a e) e) as Ht.
    { rewrite tags_of_add, decide_True by done. set_solver. }
    assert (¬ dead (ORSet_add a e) t) by (by eapply Ha').
    assert (∀ m, t ∈ tags_of m e → e ∈ ORSet_value m) as Hval.
    { intros m Hm. apply elem_of_ORSet_value. set_solver. }
    split; apply Hval; rewrite elem_of_tags_merge_wf by done; tauto.
  - intros a b e o Ha Hb Ho [Hle Hled].
    assert (ORSet_wf (ORSet_remove b e)) as Hb' by (by eapply ORSet_remove_wf).
    assert (∀ t, t ∈ tags_of a e → dead (ORSet_remove b e) t) as Hall.
    { intros t Ht. rewrite dead_remove. destruct (decide (dead b t)); [tauto|].
      right. rewrite <-Hle, elem_of_tags_merge_wf by done.
      split_and!; [tauto|done|]. by eapply Ha. }
    assert (tags_of (ORSet_remove b e) e = ∅) as Hrm by (by rewrite tags_of_remove, decide_True).
    rewrite !elem_of_ORSet_value. split; intros [t Ht]%set_choose_L;
      rewrite elem_of_tags_merge_wf, Hrm in Ht by done; set_solver.
Qed.

Lemma orset_add_wins_remove_sticks_witness :
  let a := ORSet_add (ORSet_new 1) [97] in
  let b := ORSet_remove (ORSet_merge (ORSet_new 2) a) [97] in
  [97] ∈ ORSet_value (ORSet_merge b (ORSet_add a [97])) ∧ [97] ∉ ORSet_value (ORSet_merge b a).
Proof.
  intros a b. destruct orset_add_wins_remove_sticks as [Hadd Hrem].
  assert (ORSet_wf a) by (apply ORSet_add_wf; [by vm_compute|apply ORSet_new_wf]).
  assert (ORSet_wf (ORSet_merge (ORSet_new 2) a)) by (apply ORSet_merge_wf; [apply ORSet_new_wf|done]).
  assert (owned (λ _, Some [97]) (ORSet_merge (ORSet_new 2) a)) as Ho.
  { apply owned_merge; intros e t.
    - unfold tags_of; simpl. rewrite lookup_empty. set_solver.
    - unfold a. rewrite tags_of_add. case_decide; [by subst|].
      unfold tags_of; simpl. rewrite lookup_empty. set_solver. }
  split.
  - apply Hadd; [done|by eapply ORSet_remove_wf|by vm_compute|].
    apply not_dead. by vm_compute.
  - refine (proj1 (Hrem a _ _ _ _ _ Ho _)); [done|done|].
    exact (crdt_le_merge_r (ORSet_new 2) a (ORSet_new_wf 2) ltac:(done)).
Defined.
