(* ===== verification/CrdtGc.v ===== *)
(** * Tombstone collection in a cluster of observed-remove sets

    [gc_stable_tombstones] of [src/runtime/crdt_manager.rs] drops a tombstone
    once the matrix clock shows that every replica has observed the removal.
    The file runs a whole cluster twice, with and without collection, and
    shows that no replica ever reports a different set, as long as no payload
    is delivered to a node that has collected what its sender had not yet
    observed.  Late payloads and lost deltas beyond that bring elements back. *)
From S2P Require Import Prelude Bytes CrdtClock CrdtCore CrdtSets.

Local Open Scope N_scope.

(** ** Operations *)

(** [gc_stable_tombstones] on an [ORSet] entry; the local node is always
    part of the healthy set. *)
Definition gc_stable_tombstones_ORSet (node_id : N) (healthy : list N) (s : ORSet) : ORSet :=
  let healthy := if bool_decide (node_id ∈ healthy) then healthy else healthy ++ [node_id] in
  let matrix := MatrixClock_prune (or_matrix s) healthy in
  ORSet_gc_tombstones
    (mkORSet (or_entries s) (or_removed s) (or_tag_counter s) (or_node_id s) matrix)
    (MatrixClock_watermark matrix healthy).

(** A cluster: one replica per node, the states that have been sent, and how
    far each node has collected the removals of each source. *)
Record Cluster := mkCluster {
  cl_sets : N → ORSet;
  cl_net : list ORSet;
  cl_collected : N → N → N;
}.

(** [OSync] delivers a state at once; what [OSend] sends is delivered by
    [ODeliver] at any later time, any number of times, in any order, or never. *)
Inductive Op :=
  | OAdd (n : N) (e : bytes)
  | ORemove (n : N) (e : bytes)
  | OSync (n from : N)
  | OSend (n : N)
  | ODeliver (n : N) (k : nat)
  | OGc (n : N).

Definition op_nodes (o : Op) : list N :=
  match o with OAdd n _ | ORemove n _ | OSend n | ODeliver n _ | OGc n => [n] | OSync n m => [n; m] end.

Definition put_set (c : Cluster) (n : N) (s : ORSet) : Cluster :=
  mkCluster (set_replica (cl_sets c) n s) (cl_net c) (cl_collected c).

(** The watermark of a collection. *)
Definition watermark_at (nodes : list N) (s : ORSet) (q : N) : N :=
  default 0 (MatrixClock_watermark (MatrixClock_prune (or_matrix s) nodes) nodes !! q).

Definition exec (gc : bool) (nodes : list N) (c : Cluster) (o : Op) : Cluster :=
  match o with
  | OAdd n e => put_set c n (ORSet_add (cl_sets c n) e)
  | ORemove n e => put_set c n (ORSet_remove (cl_sets c n) e)
  | OSync n m => put_set c n (ORSet_merge (cl_sets c n) (cl_sets c m))
  | OSend n => mkCluster (cl_sets c) (cl_net c ++ [cl_sets c n]) (cl_collected c)
  | ODeliver n k =>
      match cl_net c !! k with
      | Some payload => put_set c n (ORSet_merge (cl_sets c n) payload)
      | None => c
      end
  | OGc n =>
      if gc then
        mkCluster (set_replica (cl_sets c) n (gc_stable_tombstones_ORSet n nodes (cl_sets c n))) (cl_net c)
          (set_replica (cl_collected c) n
             (λ q, N.max (cl_collected c n q) (watermark_at nodes (cl_sets c n) q)))
      else c
  end.

Definition new_cluster : Cluster := mkCluster ORSet_new [] (λ _ _, 0).

Definition run (gc : bool) (nodes : list N) (ops : list Op) : Cluster := foldl (exec gc nodes) new_cluster ops.

Definition obs (s : ORSet) (p q : N) : N := observed (or_matrix s) p q.

(** A delivery is in time when the sender had observed all removals that the
    receiver has collected. *)
Definition in_time (nodes : list N) (c : Cluster) (o : Op) : bool :=
  match o with
  | ODeliver n k =>
      match cl_net c !! k with
      | Some payload => forallb (λ q, cl_collected c n q <=? obs payload (or_node_id payload) q) nodes
      | None => true
      end
  | _ => true
  end.

Fixpoint all_in_time (nodes : list N) (c : Cluster) (ops : list Op) : bool :=
  match ops with
  | [] => true
  | o :: ops => in_time nodes c o && all_in_time nodes (exec true nodes c o) ops
  end.

(** ** Invariants *)

Section cluster.
Context (nodes : list N) (Hnodes : Forall (λ n, n < U32) nodes).
Implicit Types (F G : Cluster) (x y s : ORSet).

Abbreviation own c n := (obs (cl_sets c n) n).

(** The clock of a state of node [m], now or when it was sent: no row runs
    ahead of the row its node has of itself, and the own row dominates. *)
Record view_ok G (m : N) y : Prop := {
  vo_id : or_node_id y = m ∧ mc_local_node (or_matrix y) = m;
  vo_src : ∀ p q, q ∈ nodes → obs y p q ≤ own G q q;
  vo_know : ∀ p q, p ∈ nodes → obs y p q ≤ own G p q;
  vo_row : ∀ p q, obs y p q ≤ obs y m q;
}.

Record clocks_inv (k : N) G : Prop := {
  ci_node : ∀ n, n ∈ nodes → view_ok G n (cl_sets G n);
  ci_net : ∀ y, y ∈ cl_net G → ∃ m, m ∈ nodes ∧ view_ok G m y;
  ci_bound : ∀ n, n ∈ nodes → own G n n ≤ k;
  ci_collected : ∀ n p q, n ∈ nodes → p ∈ nodes → cl_collected G n q ≤ own G p q;
}.

(** The states of the nodes and the payloads. *)
Definition holds F x : Prop := (∃ n, n ∈ nodes ∧ x = cl_sets F n) ∨ x ∈ cl_net F.

(** The tags: live tags have no tombstone, a tag belongs to one element, and
    no state holds a tag that its creator has yet to issue. *)
Record tags_inv (k : N) F : Prop := {
  ti_id : ∀ n, n ∈ nodes → or_node_id (cl_sets F n) = n;
  ti_ctr : ∀ x, holds F x → or_tag_counter x ≤ k;
  ti_live : ∀ x e t, holds F x → t ∈ tags_of x e → ¬ dead x t;
  ti_own : ∀ x y e e' t, holds F x → holds F y → t ∈ tags_of x e → t ∈ tags_of y e' → e = e';
  ti_fresh : ∀ x m e t, holds F x → m ∈ nodes → t ∈ tags_of x e ∨ dead x t →
    tag_node_id t = m → tag_counter t < or_tag_counter (cl_sets F m);
}.

(** A state [x] of the run without collection and the state [y] of the run
    with it, given the removals [stamps] so far: they hold the same live tags;
    a tombstone that [y] has lost is present at every replica of [F]; and if
    [y] has observed a removal, [x] has its tombstone. *)
Record pair_ok F (stamps : Tag → LamportTime → Prop) x y : Prop := {
  po_ctr : or_tag_counter y = or_tag_counter x;
  po_tags : ∀ e, tags_of y e = tags_of x e;
  po_sub : ∀ t, dead y t → dead x t;
  po_lost : ∀ t, dead x t → dead y t ∨ ∀ p, p ∈ nodes → dead (cl_sets F p) t;
  po_stamps : ∀ t rt, or_removed y !! t = Some rt → stamps t rt;
  po_seen : ∀ t rt, stamps t rt → lt_counter rt ≤ obs y (or_node_id y) (lt_node_id rt) → dead x t;
}.

Record gc_sim (stamps : Tag → LamportTime → Prop) F G : Prop := {
  gs_node : ∀ n, n ∈ nodes → pair_ok F stamps (cl_sets F n) (cl_sets G n);
  gs_net : Forall2 (pair_ok F stamps) (cl_net F) (cl_net G);
  gs_collected : ∀ n t, n ∈ nodes → dead (cl_sets F n) t →
    dead (cl_sets G n) t ∨ ∃ rt, stamps t rt ∧ lt_counter rt ≤ cl_collected G n (lt_node_id rt);
  gs_bound : ∀ t rt, stamps t rt → lt_node_id rt ∈ nodes ∧ lt_counter rt ≤ own G (lt_node_id rt) (lt_node_id rt);
}.

(** ** Initial state *)

Lemma tags_of_new n e : tags_of (ORSet_new n) e = ∅.
Proof. unfold tags_of; simpl. by rewrite lookup_empty. Qed.

Lemma dead_new n t : ¬ dead (ORSet_new n) t.
Proof. unfold dead; simpl. rewrite lookup_empty. by intros [? ?]. Qed.

Lemma obs_new n p q : obs (ORSet_new n) p q = 0.
Proof. apply observed_new. Qed.

Lemma clocks_inv_init : clocks_inv 0 new_cluster.
Proof.
  split; simpl; intros; rewrite ?obs_new; try done. by apply not_elem_of_nil in H.
Qed.

Lemma tags_inv_init : tags_inv 0 new_cluster.
Proof.
  assert (∀ x, holds new_cluster x → ∃ n, x = ORSet_new n) as Hx.
  { intros x [(n & _ & ->)|?%not_elem_of_nil]; [by exists n|done]. }
  split; simpl; [done|..].
  - by intros x [n ->]%Hx.
  - intros x e t [n ->]%Hx. rewrite tags_of_new. set_solver.
  - intros x y e e' t [n ->]%Hx _. rewrite tags_of_new. set_solver.
  - intros x m e t [n ->]%Hx _. rewrite tags_of_new. intros [?|?%dead_new]; set_solver.
Qed.

Lemma gc_sim_init : gc_sim (λ _ _, False) new_cluster new_cluster.
Proof.
  split; simpl; [|by constructor|by intros ? ? ? ?%dead_new|done].
  intros n Hn. split; simpl; try done. by intros t ?%dead_new.
Qed.

(** ** Clocks *)

(** Own rows only grow. *)
Lemma view_mono G G' m y :
  (∀ p q, p ∈ nodes → own G p q ≤ own G' p q) → view_ok G m y → view_ok G' m y.
Proof.
  intros Hmono [Hid Hsrc Hknow Hrow]. split; [done| | |done].
  - intros p q Hq. etrans; [by apply Hsrc|by apply Hmono].
  - intros p q Hp. etrans; [by apply Hknow|by apply Hmono].
Qed.

Lemma clocks_inv_put k G n s :
  clocks_inv k G → n ∈ nodes → or_node_id s = n → mc_local_node (or_matrix s) = n →
  (∀ q, own G n q ≤ obs s n q) → obs s n n ≤ k →
  (∀ p q, q ∈ nodes → obs s p q ≤ if decide (q = n) then obs s n n else own G q q) →
  (∀ p q, p ∈ nodes → p ≠ n → obs s p q ≤ own G p q) →
  (∀ p q, obs s p q ≤ obs s n q) →
  clocks_inv k (put_set G n s).
Proof.
  intros [Hnode Hnet Hb Hcol] Hn Hid Hloc Hgrow Hk Hsrc Hknow Hrow.
  assert (∀ p q, p ∈ nodes → own G p q ≤ own (put_set G n s) p q) as Hmono.
  { intros p q Hp. simpl. replica_goal n; [apply Hgrow|done]. }
  split; simpl.
  - intros m Hm. destruct (decide (m = n)) as [->|Hne].
    + rewrite set_replica_eq. split; [done| | |done].
      * intros p q Hq. etrans; [by apply Hsrc|]. simpl. case_decide as Hd; [subst; by rewrite set_replica_eq|by rewrite set_replica_ne].
      * intros p q Hp. simpl. destruct (decide (p = n)) as [->|]; [by rewrite set_replica_eq|rewrite set_replica_ne by done; auto].
    + rewrite set_replica_ne by done. eapply view_mono; [exact Hmono|auto].
  - intros y Hy. destruct (Hnet y Hy) as (m & Hm & Hv). exists m. split; [done|]. by eapply view_mono.
  - intros m Hm. replica_goal n; auto.
  - intros m p q Hm Hp. etrans; [by apply (Hcol m p)|by apply Hmono].
Qed.

Lemma obs_remove s e p q :
  obs (ORSet_remove s e) p q = obs s p q ∨
  (p = mc_local_node (or_matrix s) ∧ q = p ∧
   obs (ORSet_remove s e) p q = wrapping_add64 (obs s p q) 1).
Proof.
  unfold obs, ORSet_remove. destruct (or_entries s !! e); [|by left].
  change (or_matrix _) with (MatrixClock_tick_local (or_matrix s)).2 at 1.
  change (or_matrix (let '(_, _) := _ in _)) with (MatrixClock_tick_local (or_matrix s)).2.
  rewrite observed_tick. case_decide; naive_solver.
Qed.

Lemma ORSet_remove_ids s e :
  or_node_id (ORSet_remove s e) = or_node_id s ∧
  mc_local_node (or_matrix (ORSet_remove s e)) = mc_local_node (or_matrix s).
Proof. unfold ORSet_remove. by destruct (or_entries s !! e). Qed.

(** A removal changes the own entry only, by one at most. *)
Lemma obs_remove_at k G n e p q :
  clocks_inv k G → n ∈ nodes → k + 1 < U64 →
  obs (cl_sets G n) p q ≤ obs (ORSet_remove (cl_sets G n) e) p q ∧
  obs (ORSet_remove (cl_sets G n) e) n n ≤ own G n n + 1 ∧
  (p ≠ n ∨ q ≠ n → obs (ORSet_remove (cl_sets G n) e) p q = obs (cl_sets G n) p q).
Proof.
  intros HG Hn Hk. destruct (vo_id _ _ _ (ci_node _ _ HG n Hn)) as [_ Hloc]. pose proof (ci_bound _ _ HG n Hn) as Hb.
  assert (∀ p q, obs (ORSet_remove (cl_sets G n) e) p q = obs (cl_sets G n) p q ∨
    p = n ∧ q = n ∧ obs (ORSet_remove (cl_sets G n) e) p q = obs (cl_sets G n) p q + 1) as Hcase.
  { intros p' q'. destruct (obs_remove (cl_sets G n) e p' q') as [?|(Hp & -> & ->)]; [by left|right].
    rewrite Hloc in Hp. subst p'. split_and!; [done..|]. apply wrapping_add64_small. lia. }
  split_and!; [destruct (Hcase p q) as [|]; lia|destruct (Hcase n n) as [|]; lia|].
  destruct (Hcase p q) as [|(-> & -> & _)]; [done|]. by intros [|].
Qed.

Lemma clocks_inv_add k G n e :
  clocks_inv k G → n ∈ nodes → clocks_inv k (put_set G n (ORSet_add (cl_sets G n) e)).
Proof.
  intros HG Hn. destruct (ci_node _ _ HG n Hn) as [[Hid Hloc] Hsrc Hknow Hrow].
  apply clocks_inv_put; try done; [by apply (ci_bound _ _ HG)|..].
  - intros p q Hq. case_decide; [subst|]; by apply Hsrc.
  - intros p q Hp _. by apply Hknow.
Qed.

Lemma clocks_inv_mono k k' G : k ≤ k' → clocks_inv k G → clocks_inv k' G.
Proof. intros Hk [? ? Hb ?]. split; try done. intros n Hn. specialize (Hb n Hn). lia. Qed.

Lemma clocks_inv_remove k G n e :
  clocks_inv k G → n ∈ nodes → k + 1 < U64 →
  clocks_inv (k + 1) (put_set G n (ORSet_remove (cl_sets G n) e)).
Proof.
  intros HG Hn Hk. pose proof (λ p q, obs_remove_at k G n e p q HG Hn Hk) as Hobs.
  pose proof (ci_node _ _ HG n Hn) as [[Hid Hloc] Hsrc Hknow Hrow]. pose proof (ci_bound _ _ HG n Hn) as Hb.
  destruct (ORSet_remove_ids (cl_sets G n) e) as [Hid' Hloc']. destruct (Hobs n n) as (Hge & Hle & _).
  apply clocks_inv_put; [by apply (clocks_inv_mono k); [lia|]|done|by rewrite Hid'|by rewrite Hloc'|apply Hobs|lia|..].
  - intros p q Hq. destruct (Hobs p q) as (_ & _ & Heq). case_decide as Hd.
    + subst q. destruct (decide (p = n)) as [->|]; [done|]. rewrite Heq by tauto. etrans; [by apply Hsrc|done].
    + rewrite Heq by tauto. by apply Hsrc.
  - intros p q Hp Hne. rewrite (proj2 (proj2 (Hobs p q))) by tauto. by apply Hknow.
  - intros p q. destruct (Hobs n q) as (Hq & _). destruct (decide (p = n)) as [->|Hne]; [done|].
    rewrite (proj2 (proj2 (Hobs p q))) by tauto. etrans; [apply Hrow|done].
Qed.

Lemma obs_merge_le a b p q v :
  obs (ORSet_merge a b) p q ≤ v ↔
  obs a p q ≤ v ∧ obs b p q ≤ v ∧ (p = mc_local_node (or_matrix a) → ∀ r, obs b r q ≤ v).
Proof. apply observed_merge_le. Qed.

Lemma clocks_inv_merge k G n m y :
  clocks_inv k G → n ∈ nodes → view_ok G m y →
  clocks_inv k (put_set G n (ORSet_merge (cl_sets G n) y)).
Proof.
  intros HG Hn [Hidy Hsrcy Hknowy Hrowy]. pose proof (ci_node _ _ HG n Hn) as [[Hid Hloc] Hsrc Hknow Hrow].
  assert (∀ p q, obs (cl_sets G n) p q ≤ obs (ORSet_merge (cl_sets G n) y) p q) as Hge by (intros; apply observed_merge_l).
  assert (obs (ORSet_merge (cl_sets G n) y) n n = own G n n) as Hnn.
  { apply N.le_antisymm; [|apply Hge]. apply obs_merge_le. auto. }
  apply clocks_inv_put; try done.
  - rewrite Hnn. by apply (ci_bound _ _ HG).
  - intros p q Hq. case_decide as Hd; [subst q; rewrite Hnn|]; apply obs_merge_le; auto.
  - intros p q Hp Hne. apply obs_merge_le. rewrite Hloc. split_and!; [auto|auto|done].
  - intros p q. apply obs_merge_le. rewrite Hloc.
    pose proof (proj1 (obs_merge_le (cl_sets G n) y n q _) (N.le_refl _)) as (Hl & _ & Hr).
    rewrite Hloc in Hr. specialize (Hr eq_refl). split_and!; [etrans; [apply Hrow|done]|auto|auto].
Qed.

Lemma healthy_nodes n :
  n ∈ nodes → (if bool_decide (n ∈ nodes) then nodes else nodes ++ [n]) = nodes.
Proof. intros. by rewrite bool_decide_eq_true_2. Qed.

(** A watermark is below what every node has observed. *)
Lemma watermark_own k G n p q :
  clocks_inv k G → n ∈ nodes → p ∈ nodes → watermark_at nodes (cl_sets G n) q ≤ own G p q.
Proof.
  intros HG Hn Hp. etrans; [|by apply (vo_know _ _ _ (ci_node _ _ HG n Hn))].
  pose proof (proj1 (watermark_le _ _ _ _) (N.le_refl (watermark_at nodes (cl_sets G n) q)) p (or_intror Hp)) as Hle.
  rewrite observed_prune in Hle. unfold obs. case_decide; [done|]. lia.
Qed.

(** A collection keeps the own row. *)
Lemma obs_gc_own k G n q :
  clocks_inv k G → n ∈ nodes → obs (gc_stable_tombstones_ORSet n nodes (cl_sets G n)) n q = own G n q.
Proof.
  intros HG Hn. destruct (vo_id _ _ _ (ci_node _ _ HG n Hn)) as [_ Hloc].
  unfold obs; simpl. rewrite observed_prune, decide_True by auto. done.
Qed.

Lemma clocks_inv_gc k G n : clocks_inv k G → n ∈ nodes → clocks_inv k (exec true nodes G (OGc n)).
Proof.
  intros HG Hn. pose proof (ci_node _ _ HG n Hn) as [[Hid Hloc] Hsrc Hknow Hrow].
  set (s := gc_stable_tombstones_ORSet n nodes (cl_sets G n)).
  assert (∀ p q, obs s p q ≤ obs (cl_sets G n) p q) as Hle.
  { intros p q. unfold obs, s; simpl. rewrite observed_prune. case_decide; lia. }
  assert (∀ q, obs s n q = obs (cl_sets G n) n q) as Hown by (intros q; by eapply obs_gc_own).
  assert (clocks_inv k (put_set G n s)) as [H1 H2 H3 H4].
  { apply clocks_inv_put; try done.
    - intros q. by rewrite Hown.
    - rewrite Hown. by apply (ci_bound _ _ HG).
    - intros p q Hq. etrans; [apply Hle|]. case_decide as Hd; [subst q; rewrite Hown|]; auto.
    - intros p q Hp _. etrans; [apply Hle|auto].
    - intros p q. rewrite Hown. etrans; [apply Hle|auto]. }
  assert (∀ p q, p ∈ nodes → own (put_set G n s) p q = own G p q) as Heq.
  { intros p q Hp. simpl. replica_goal n; [apply Hown|done]. }
  assert (∀ p q, p ∈ nodes → own (put_set G n s) p q ≤ own (exec true nodes G (OGc n)) p q) as Hsame by done.
  split.
  { intros m Hm. eapply view_mono; [exact Hsame|]. by apply H1. }
  { intros y Hy. destruct (H2 y Hy) as (m & Hm & Hv). exists m. split; [done|]. by eapply view_mono. }
  { exact H3. }
  intros m p q Hm Hp.
  assert (cl_collected G m q ≤ own G p q) as Hold by (by apply (ci_collected _ _ HG)).
  etrans; [|by apply Hsame]. rewrite Heq by done. simpl.
  replica_goal n; [|done]. pose proof (watermark_own k G n p q HG Hn Hp). lia.
Qed.

(** ** Tags *)

Lemma holds_put_set F n s x : holds (put_set F n s) x → x = s ∨ holds F x.
Proof.
  intros [(m & Hm & ->)|?]; [|by right; right]. simpl. replica_goal n; [by left|]. right; left. by exists m.
Qed.

Lemma tags_inv_mono k k' F : k ≤ k' → tags_inv k F → tags_inv k' F.
Proof. intros Hk [? Hc ? ? ?]. split; try done. intros x Hx. specialize (Hc x Hx). lia. Qed.

(** What a new state of a node must have. *)
Lemma tags_inv_put k F n s :
  tags_inv k F → n ∈ nodes → or_node_id s = n →
  or_tag_counter (cl_sets F n) ≤ or_tag_counter s ≤ k →
  (∀ e t, t ∈ tags_of s e → ¬ dead s t) →
  (∀ x e e' t, x = s ∨ holds F x → t ∈ tags_of s e → t ∈ tags_of x e' → e = e') →
  (∀ m e t, m ∈ nodes → t ∈ tags_of s e ∨ dead s t → tag_node_id t = m →
     tag_counter t < if decide (m = n) then or_tag_counter s else or_tag_counter (cl_sets F m)) →
  tags_inv k (put_set F n s).
Proof.
  intros [Hid Hctr Hlive Hown Hfr] Hn Hs Hc Hl Ho Hf. split; simpl.
  - intros m Hm. replica_goal n; auto.
  - intros x [->|Hx]%holds_put_set; [lia|auto].
  - intros x e t [->|Hx]%holds_put_set; eauto.
  - intros x y e e' t [->|Hx]%holds_put_set [->|Hy]%holds_put_set Ht Ht'; eauto.
    + symmetry. eauto.
  - intros x m e t [->|Hx]%holds_put_set Hm Ht Htm.
    + specialize (Hf m e t Hm Ht Htm). case_decide; [subst; by rewrite set_replica_eq|by rewrite set_replica_ne].
    + specialize (Hfr x m e t Hx Hm Ht Htm). replica_goal n; lia.
Qed.

Lemma holds_node F n : n ∈ nodes → holds F (cl_sets F n).
Proof. left. by exists n. Qed.

Lemma dead_add s e t : dead (ORSet_add s e) t ↔ dead s t.
Proof. done. Qed.

Lemma fresh_tag_eq k F n :
  tags_inv k F → k < U32 → n ∈ nodes →
  (ORSet_fresh_tag (cl_sets F n)).1 = mkTag n (or_tag_counter (cl_sets F n)).
Proof.
  intros HF Hk Hn. unfold ORSet_fresh_tag; simpl. rewrite (ti_id _ _ HF n Hn).
  pose proof (ti_ctr _ _ HF _ (holds_node F n Hn)). eapply Forall_forall in Hnodes; [|done].
  by rewrite !as_u32_small by lia.
Qed.

Lemma elem_of_tags_add s e e' t :
  t ∈ tags_of (ORSet_add s e) e' ↔ (e' = e ∧ t = (ORSet_fresh_tag s).1) ∨ t ∈ tags_of s e'.
Proof. rewrite tags_of_add. case_decide; set_solver. Qed.

Lemma tags_inv_add k F n e :
  tags_inv k F → k < U32 → n ∈ nodes → tags_inv (k + 1) (put_set F n (ORSet_add (cl_sets F n) e)).
Proof.
  intros HF Hk Hn. pose proof (fresh_tag_eq _ _ _ HF Hk Hn) as Hf. pose proof (holds_node F n Hn) as Hh.
  pose proof (ti_ctr _ _ HF _ Hh) as Hck.
  assert (or_tag_counter (ORSet_add (cl_sets F n) e) = or_tag_counter (cl_sets F n) + 1) as Hc.
  { simpl. apply wrapping_add64_small. word_lia. }
  assert (∀ x e', holds F x → (mkTag n (or_tag_counter (cl_sets F n)) ∈ tags_of x e' ∨
    dead x (mkTag n (or_tag_counter (cl_sets F n)))) → False) as Hnew.
  { intros x e' Hx Ht. pose proof (ti_fresh _ _ HF x n e' _ Hx Hn Ht eq_refl). simpl in *. lia. }
  apply tags_inv_put; [apply (tags_inv_mono k); [lia|done]|done|by apply (ti_id _ _ HF)|lia|..].
  - intros e' t. rewrite elem_of_tags_add, Hf, dead_add. intros [[_ ->]|Ht] Hd; [by eapply (Hnew _ [] Hh); right|].
    by eapply (ti_live _ _ HF).
  - intros x e1 e2 t Hx. rewrite elem_of_tags_add, Hf. intros Ht1 Ht2.
    assert (e2 = e ∧ t = mkTag n (or_tag_counter (cl_sets F n)) ∨ ∃ y, holds F y ∧ t ∈ tags_of y e2) as H2.
    { destruct Hx as [->|Hx]; [|by right; exists x]. rewrite elem_of_tags_add, Hf in Ht2.
      destruct Ht2 as [|]; [by left|right; eauto]. }
    destruct Ht1 as [[-> Het]|Ht1], H2 as [[-> Het']|(y & Hy & Hty)]; [done|..].
    + exfalso. subst t. eapply (Hnew y); eauto.
    + exfalso. subst t. eapply (Hnew _ e1 Hh). by left.
    + by apply (ti_own _ _ HF _ y e1 e2 t Hh).
  - intros m e' t Hm. rewrite elem_of_tags_add, Hf, dead_add, Hc. intros Ht Htm.
    destruct (decide (t = mkTag n (or_tag_counter (cl_sets F n)))) as [->|Hne].
    + simpl in Htm. subst m. rewrite decide_True by done. simpl. lia.
    + assert (tag_counter t < or_tag_counter (cl_sets F m)) by (eapply (ti_fresh _ _ HF _ m e'); [exact Hh|done|tauto|done]).
      case_decide; [subst|]; lia.
Qed.

Lemma elem_of_tags_remove s e e' t :
  t ∈ tags_of (ORSet_remove s e) e' ↔ e' ≠ e ∧ t ∈ tags_of s e'.
Proof. rewrite tags_of_remove. case_decide; set_solver. Qed.

Lemma tags_inv_remove k F n e :
  tags_inv k F → n ∈ nodes → tags_inv k (put_set F n (ORSet_remove (cl_sets F n) e)).
Proof.
  intros HF Hn. pose proof (holds_node F n Hn) as Hh. pose proof (ti_ctr _ _ HF _ Hh) as Hck.
  apply tags_inv_put; [done|done| |by rewrite or_tag_counter_remove|..].
  - rewrite (proj1 (ORSet_remove_ids _ _)). by apply (ti_id _ _ HF).
  - intros e' t. rewrite elem_of_tags_remove, dead_remove. intros [Hne Ht] [Hd|Ht']; [by eapply (ti_live _ _ HF)|].
    destruct Hne. by apply (ti_own _ _ HF _ _ e' e t Hh Hh).
  - intros x e1 e2 t Hx. rewrite elem_of_tags_remove. intros [_ Ht1] Ht2.
    assert (∃ y, holds F y ∧ t ∈ tags_of y e2) as (y & Hy & Hty).
    { destruct Hx as [->|Hx]; [|by exists x]. rewrite elem_of_tags_remove in Ht2. exists (cl_sets F n). tauto. }
    by apply (ti_own _ _ HF _ y e1 e2 t Hh).
  - intros m e' t Hm. rewrite elem_of_tags_remove, dead_remove, or_tag_counter_remove. intros Ht Htm.
    assert (∃ e'', t ∈ tags_of (cl_sets F n) e'' ∨ dead (cl_sets F n) t) as (e'' & Hold).
    { destruct Ht as [[_ ?]|[?|?]]; [exists e'|exists e|exists e]; auto. }
    pose proof (ti_fresh _ _ HF _ m e'' t Hh Hm Hold Htm). case_decide; [by subst|done].
Qed.

Lemma tags_inv_merge k F n x :
  tags_inv k F → n ∈ nodes → holds F x → tags_inv k (put_set F n (ORSet_merge (cl_sets F n) x)).
Proof.
  intros HF Hn Hx. pose proof (holds_node F n Hn) as Hh.
  assert (or_tag_counter (ORSet_merge (cl_sets F n) x) =
    N.max (or_tag_counter (cl_sets F n)) (or_tag_counter x)) as Hc by done.
  pose proof (ti_ctr _ _ HF _ Hh). pose proof (ti_ctr _ _ HF _ Hx).
  apply tags_inv_put; [done|done|by apply (ti_id _ _ HF)|lia|..].
  - intros e t. rewrite elem_of_tags_merge, dead_merge. pose proof (ti_live _ _ HF _ e t Hh). tauto.
  - intros y e1 e2 t Hy Ht1 Ht2.
    assert (∀ e', t ∈ tags_of (ORSet_merge (cl_sets F n) x) e' → ∃ y, holds F y ∧ t ∈ tags_of y e') as Hsrc.
    { intros e'. rewrite elem_of_tags_merge. intros [[? _]|[? _]]; eauto. }
    assert (∃ y, holds F y ∧ t ∈ tags_of y e2) as (y2 & ? & ?) by (destruct Hy as [->|Hy]; [by apply Hsrc|by exists y]).
    destruct (Hsrc _ Ht1) as (y1 & ? & ?). by apply (ti_own _ _ HF y1 y2 e1 e2 t).
  - intros m e t Hm. rewrite elem_of_tags_merge, dead_merge, Hc. intros Ht Htm.
    assert (∃ y, holds F y ∧ (t ∈ tags_of y e ∨ dead y t)) as (y & Hy & Hold).
    { destruct Ht as [[[? _]|[? _]]|[?|?]]; eauto. }
    pose proof (ti_fresh _ _ HF y m e t Hy Hm Hold Htm). case_decide; [subst|]; lia.
Qed.

Lemma tags_inv_send k F n : tags_inv k F → n ∈ nodes → tags_inv k (exec false nodes F (OSend n)).
Proof.
  intros [Hid Hctr Hlive Hown Hfr] Hn.
  assert (∀ x, holds (exec false nodes F (OSend n)) x → holds F x) as Hsub.
  { intros x [?|Hx]; [by left|]. simpl in Hx. apply elem_of_app in Hx as [?|Hx%list_elem_of_singleton]; [by right|subst; by apply holds_node]. }
  split; simpl; eauto.
Qed.

(** ** Collection is invisible *)

Lemma pair_mono F F' (S S' : Tag → LamportTime → Prop) x y :
  (∀ p t, p ∈ nodes → dead (cl_sets F p) t → dead (cl_sets F' p) t) →
  (∀ t rt, S t rt → S' t rt) →
  (∀ t rt, S' t rt → lt_counter rt ≤ obs y (or_node_id y) (lt_node_id rt) → S t rt) →
  pair_ok F S x y → pair_ok F' S' x y.
Proof.
  intros HF HS Hback [Hc Ht Hs Hl Hst Hseen]. split; try done.
  - intros t Hd. destruct (Hl t Hd); [by left|right; auto].
  - eauto.
  - eauto.
Qed.

Lemma gc_sim_put S S' F G n x y :
  gc_sim S F G → n ∈ nodes →
  (∀ t, dead (cl_sets F n) t → dead x t) → (∀ q, own G n q ≤ obs y n q) →
  (∀ t rt, S t rt → S' t rt) →
  (∀ y' t rt, y' ∈ cl_net G ∨ (∃ m, m ∈ nodes ∧ m ≠ n ∧ y' = cl_sets G m) → S' t rt →
     lt_counter rt ≤ obs y' (or_node_id y') (lt_node_id rt) → S t rt) →
  (∀ t rt, S' t rt → S t rt ∨ lt_node_id rt = n ∧ lt_counter rt ≤ obs y n n) →
  pair_ok (put_set F n x) S' x y →
  (∀ t, dead x t → dead y t ∨ ∃ rt, S' t rt ∧ lt_counter rt ≤ cl_collected G n (lt_node_id rt)) →
  gc_sim S' (put_set F n x) (put_set G n y).
Proof.
  intros [Hnode Hnet Hcol Hbound] Hn HF Hgrow HS Hback Hnew Hpair Hlost.
  assert (∀ p t, p ∈ nodes → dead (cl_sets F p) t → dead (cl_sets (put_set F n x) p) t) as Hmono.
  { intros p t Hp. simpl. replica_goal n; auto. }
  split; simpl.
  - intros m Hm. destruct (decide (m = n)) as [->|Hne]; [by rewrite !set_replica_eq|].
    rewrite !set_replica_ne by done. eapply (pair_mono F _ S); [done|done| |auto]. intros t rt. apply Hback. right. by exists m.
  - apply Forall2_same_length_lookup. apply Forall2_same_length_lookup in Hnet as [Hl Hnet]. split; [done|].
    intros i x' y' Hx Hy. eapply (pair_mono F _ S); [done|done| |eauto]. intros t rt. apply Hback. left.
    by eapply list_elem_of_lookup_2.
  - intros m t Hm Hd. destruct (decide (m = n)) as [->|Hne]; [rewrite set_replica_eq in *; auto|].
    rewrite set_replica_ne in * by done. destruct (Hcol m t Hm Hd) as [?|(rt & ? & ?)]; [by left|right; eauto].
  - intros t rt Hrt. destruct (Hnew t rt Hrt) as [Hold|[He Hle]].
    + destruct (Hbound t rt Hold) as [Hin Hb]. split; [done|]. etrans; [exact Hb|].
      replica_goal n; [apply Hgrow|done].
    + split; [by rewrite He|]. rewrite He, set_replica_eq. done.
Qed.


Lemma gc_sim_add k S F G n e :
  clocks_inv k G → tags_inv k F → gc_sim S F G → n ∈ nodes →
  gc_sim S (put_set F n (ORSet_add (cl_sets F n) e)) (put_set G n (ORSet_add (cl_sets G n) e)).
Proof.
  intros HG HF HS Hn. destruct (gs_node _ _ _ HS n Hn) as [Hc Ht Hs Hl Hst Hseen].
  assert ((ORSet_fresh_tag (cl_sets G n)).1 = (ORSet_fresh_tag (cl_sets F n)).1) as Hf.
  { unfold ORSet_fresh_tag; simpl. by rewrite Hc, (ti_id _ _ HF n Hn), (proj1 (vo_id _ _ _ (ci_node _ _ HG n Hn))). }
  apply (gc_sim_put S); try done; [by left| |].
  - split; try done.
    + simpl. by rewrite Hc.
    + intros e'. by rewrite !tags_of_add, Hf, !Ht.
    + intros t Hd. destruct (Hl t Hd) as [?|Hall]; [by left|right]. intros p Hp. simpl. replica_goal n; by apply Hall.
  - intros t. apply (gs_collected _ _ _ HS n t Hn).
Qed.

Lemma remove_stamp s e t :
  t ∈ tags_of s e →
  let l := mc_local_node (or_matrix s) in
  (MatrixClock_tick_local (or_matrix s)).1 = obs (ORSet_remove s e) l l ∧
  obs (ORSet_remove s e) l l = wrapping_add64 (obs s l l) 1.
Proof.
  intros Ht. unfold tags_of in Ht. unfold obs, ORSet_remove.
  destruct (or_entries s !! e); [|simpl in Ht; set_solver].
  change (or_matrix (let '(_, _) := _ in _)) with (MatrixClock_tick_local (or_matrix s)).2.
  rewrite observed_tick, decide_True by done. split; [|done].
  rewrite observed_get. done.
Qed.

(** The stamps after a removal of [e] at node [n]. *)
Definition stamps_remove (S : Tag → LamportTime → Prop) G (n : N) (e : bytes) (t : Tag) (rt : LamportTime) : Prop :=
  S t rt ∨ t ∈ tags_of (cl_sets G n) e ∧ rt = mkLamportTime (own G n n + 1) n.

Lemma remove_stamp_at k G n e t :
  clocks_inv k G → n ∈ nodes → k + 1 < U64 → t ∈ tags_of (cl_sets G n) e →
  mkLamportTime (MatrixClock_tick_local (or_matrix (cl_sets G n))).1 (or_node_id (cl_sets G n)) =
    mkLamportTime (own G n n + 1) n ∧
  obs (ORSet_remove (cl_sets G n) e) n n = own G n n + 1.
Proof.
  intros HG Hn Hk Ht. destruct (vo_id _ _ _ (ci_node _ _ HG n Hn)) as [Hid Hloc].
  pose proof (ci_bound _ _ HG n Hn). destruct (remove_stamp _ _ _ Ht) as [H1 H2].
  rewrite Hloc in H1, H2. rewrite wrapping_add64_small in H2 by lia. by rewrite H1, H2, Hid.
Qed.

(** The node that removes. *)
Lemma pair_remove k S F G n e :
  clocks_inv k G → gc_sim S F G → n ∈ nodes → k + 1 < U64 →
  pair_ok (put_set F n (ORSet_remove (cl_sets F n) e)) (stamps_remove S G n e)
    (ORSet_remove (cl_sets F n) e) (ORSet_remove (cl_sets G n) e).
Proof.
  intros HG HS Hn Hk. destruct (gs_node _ _ _ HS n Hn) as [Hc Ht Hs Hl Hst Hseen].
  destruct (vo_id _ _ _ (ci_node _ _ HG n Hn)) as [Hid _]. split.
  - by rewrite !or_tag_counter_remove.
  - intros e'. by rewrite !tags_of_remove, !Ht.
  - intros t. rewrite !dead_remove, Ht. specialize (Hs t). tauto.
  - intros t. rewrite !dead_remove, Ht. intros [Hd|]; [|tauto].
    destruct (Hl t Hd) as [?|Hall]; [tauto|right]. intros p Hp. simpl.
    replica_goal n; [rewrite dead_remove; tauto|auto].
  - intros t rt. rewrite or_removed_remove. case_decide as Hin; [intros [= <-]|intros ?; left; auto].
    right. split; [done|]. by eapply remove_stamp_at.
  - intros t rt. rewrite dead_remove, (proj1 (ORSet_remove_ids _ _)), Hid. intros [Hold|[Hin ->]] Hle;
      [left|rewrite <-Ht; tauto].
    apply (Hseen t rt Hold). rewrite Hid. destruct (gs_bound _ _ _ HS t rt Hold) as [_ Hb].
    destruct (decide (lt_node_id rt = n)) as [He|Hne]; [by rewrite He in *|].
    rewrite (proj2 (proj2 (obs_remove_at k G n e n (lt_node_id rt) HG Hn Hk))) in Hle by tauto. done.
Qed.

Lemma gc_sim_remove k S F G n e :
  clocks_inv k G → gc_sim S F G → n ∈ nodes → k + 1 < U64 →
  gc_sim (stamps_remove S G n e) (put_set F n (ORSet_remove (cl_sets F n) e))
    (put_set G n (ORSet_remove (cl_sets G n) e)).
Proof.
  intros HG HS Hn Hk. pose proof (po_tags _ _ _ _ (gs_node _ _ _ HS n Hn)) as Ht.
  apply (gc_sim_put S); try done.
  - intros t. rewrite dead_remove. tauto.
  - intros q. by apply (obs_remove_at k).
  - by left.
  - intros y' t rt Hy [?|[_ ->]]; [done|]. simpl. intros Hle. exfalso.
    assert (obs y' (or_node_id y') n ≤ own G n n); [|lia].
    destruct Hy as [Hy|(m & Hm & _ & ->)].
    + destruct (ci_net _ _ HG y' Hy) as (m & Hm & Hv). by apply (vo_src _ _ _ Hv).
    + by apply (vo_src _ _ _ (ci_node _ _ HG m Hm)).
  - intros t rt [?|[Hin ->]]; [by left|right]. simpl. split; [done|].
    by rewrite (proj2 (remove_stamp_at k G n e t HG Hn Hk Hin)).
  - by eapply pair_remove.
  - intros t. rewrite !dead_remove. intros [Hd|Hin]; [|rewrite Ht; tauto].
    destruct (gs_collected _ _ _ HS n t Hn Hd) as [?|(rt & ? & ?)]; [tauto|right; exists rt; by split; [left|]].
Qed.

Lemma or_removed_merge_cases a b t rt :
  or_removed (ORSet_merge a b) !! t = Some rt →
  or_removed a !! t = Some rt ∨ or_removed b !! t = Some rt.
Proof.
  rewrite or_removed_merge, lookup_map_join.
  destruct (or_removed a !! t), (or_removed b !! t); simpl; try tauto.
  unfold LamportTime_max. case_match; tauto.
Qed.

(** Own rows after a merge come from the two own rows. *)
Lemma obs_merge_own G n m y q v :
  view_ok G n (cl_sets G n) → view_ok G m y → v ≤ obs (ORSet_merge (cl_sets G n) y) n q →
  v ≤ own G n q ∨ v ≤ obs y m q.
Proof.
  intros Hn Hm Hv. destruct (decide (v ≤ own G n q)); [by left|]. destruct (decide (v ≤ obs y m q)); [by right|exfalso].
  assert (obs (ORSet_merge (cl_sets G n) y) n q ≤ v - 1); [|lia].
  apply obs_merge_le. split_and!; [lia|pose proof (vo_row _ _ _ Hm n q); lia|].
  intros _ r. pose proof (vo_row _ _ _ Hm r q). lia.
Qed.

Lemma merge_tags k S F G n m x y e :
  clocks_inv k G → tags_inv k F → gc_sim S F G → n ∈ nodes →
  holds F x → view_ok G m y → pair_ok F S x y → (∀ q, q ∈ nodes → cl_collected G n q ≤ obs y m q) →
  tags_of (ORSet_merge (cl_sets G n) y) e = tags_of (ORSet_merge (cl_sets F n) x) e.
Proof.
  intros HG HF HS Hn Hx Hy Hxy Hin. destruct (gs_node _ _ _ HS n Hn) as [_ Ht Hs _ _ _].
  apply set_eq. intros t. rewrite !elem_of_tags_merge, Ht, (po_tags _ _ _ _ Hxy).
  pose proof (ti_live _ _ HF _ e t (holds_node F n Hn)) as Hln. pose proof (ti_live _ _ HF x e t Hx) as Hlx.
  pose proof (Hs t) as Hsn. pose proof (po_sub _ _ _ _ Hxy t) as Hsx.
  assert (dead x t → dead y t ∨ dead (cl_sets F n) t) as H1.
  { intros Hd. destruct (po_lost _ _ _ _ Hxy t Hd); auto. }
  assert (dead (cl_sets F n) t → dead (cl_sets G n) t ∨ dead x t) as H2.
  { intros Hd. destruct (gs_collected _ _ _ HS n t Hn Hd) as [?|(rt & Hrt & Hle)]; [by left|right].
    apply (po_seen _ _ _ _ Hxy t rt Hrt). rewrite (proj1 (vo_id _ _ _ Hy)).
    etrans; [exact Hle|apply Hin]. by apply (gs_bound _ _ _ HS t). }
  destruct (decide (dead (cl_sets G n) t)), (decide (dead y t)); tauto.
Qed.

(** Merging a state that is in time. *)
Lemma gc_sim_merge k S F G n m x y :
  clocks_inv k G → tags_inv k F → gc_sim S F G → n ∈ nodes →
  holds F x → view_ok G m y → pair_ok F S x y → (∀ q, q ∈ nodes → cl_collected G n q ≤ obs y m q) →
  gc_sim S (put_set F n (ORSet_merge (cl_sets F n) x)) (put_set G n (ORSet_merge (cl_sets G n) y)).
Proof.
  intros HG HF HS Hn Hx Hy Hxy Hin. destruct (gs_node _ _ _ HS n Hn) as [Hc Ht Hs Hl Hst Hseen].
  assert (∀ p t, p ∈ nodes → dead (cl_sets F p) t →
    dead (cl_sets (put_set F n (ORSet_merge (cl_sets F n) x)) p) t) as Hmono.
  { intros p t Hp. simpl. replica_goal n; [rewrite dead_merge; tauto|done]. }
  pose proof (ci_node _ _ HG n Hn) as Hvn. destruct (vo_id _ _ _ Hvn) as [Hid _].
  apply (gc_sim_put S); try done; [| |by left| |].
  - intros t. rewrite dead_merge. tauto.
  - intros q. apply observed_merge_l.
  - split.
    + simpl. by rewrite Hc, (po_ctr _ _ _ _ Hxy).
    + intros e. by eapply merge_tags.
    + intros t. rewrite !dead_merge. pose proof (Hs t). pose proof (po_sub _ _ _ _ Hxy t). tauto.
    + intros t. rewrite !dead_merge. intros [Hd|Hd].
      * destruct (Hl t Hd); [tauto|right; auto].
      * destruct (po_lost _ _ _ _ Hxy t Hd); [tauto|right; auto].
    + intros t rt [?|?]%or_removed_merge_cases; [auto|by apply (po_stamps _ _ _ _ Hxy)].
    + intros t rt Hrt. rewrite dead_merge. simpl or_node_id. rewrite Hid. intros Hle.
      destruct (obs_merge_own G n m y _ _ Hvn Hy Hle); [left|right].
      * apply (Hseen t rt Hrt). by rewrite Hid.
      * apply (po_seen _ _ _ _ Hxy t rt Hrt). by rewrite (proj1 (vo_id _ _ _ Hy)).
  - intros t. rewrite !dead_merge. intros [Hd|Hd].
    + destruct (gs_collected _ _ _ HS n t Hn Hd); tauto.
    + destruct (po_lost _ _ _ _ Hxy t Hd) as [?|Hall]; [tauto|].
      destruct (gs_collected _ _ _ HS n t Hn (Hall n Hn)); tauto.
Qed.

(** What a collection drops is below the watermark. *)
Lemma gc_dropped n s t rt :
  n ∈ nodes → or_removed s !! t = Some rt →
  or_removed (gc_stable_tombstones_ORSet n nodes s) !! t = Some rt ∨
  lt_counter rt ≤ watermark_at nodes s (lt_node_id rt).
Proof.
  intros Hn Hrt. destruct (or_removed (gc_stable_tombstones_ORSet n nodes s) !! t) as [rt'|] eqn:Hs.
  - left. simpl in Hs. apply map_lookup_filter_Some in Hs as [Hs _]. congruence.
  - right. simpl in Hs. rewrite healthy_nodes in Hs by done.
    apply map_lookup_filter_None in Hs as [?|Hf]; [congruence|].
    specialize (Hf rt Hrt). simpl in Hf. by apply N.nlt_ge in Hf.
Qed.

Lemma gc_sim_gc k S F G n :
  clocks_inv k G → gc_sim S F G → n ∈ nodes → gc_sim S F (exec true nodes G (OGc n)).
Proof.
  intros HG HS Hn. destruct (gs_node _ _ _ HS n Hn) as [Hc Ht Hs Hl Hst Hseen].
  set (s := gc_stable_tombstones_ORSet n nodes (cl_sets G n)).
  assert (∀ t rt, or_removed s !! t = Some rt → or_removed (cl_sets G n) !! t = Some rt) as Hsub.
  { intros t rt. unfold s; simpl. rewrite map_lookup_filter_Some. tauto. }
  assert (∀ q, obs s n q = own G n q) as Hown by (intros q; by eapply obs_gc_own).
  assert (or_node_id s = or_node_id (cl_sets G n)) as Hids by done.
  destruct (vo_id _ _ _ (ci_node _ _ HG n Hn)) as [Hid _].
  assert (∀ t rt p, or_removed (cl_sets G n) !! t = Some rt → p ∈ nodes →
    lt_counter rt ≤ watermark_at nodes (cl_sets G n) (lt_node_id rt) → dead (cl_sets F p) t) as Hstable.
  { intros t rt p Hrt Hp Hle. apply (po_seen _ _ _ _ (gs_node _ _ _ HS p Hp) t rt (Hst t rt Hrt)).
    rewrite (proj1 (vo_id _ _ _ (ci_node _ _ HG p Hp))). etrans; [exact Hle|by eapply watermark_own]. }
  split; simpl.
  - intros p Hp. destruct (decide (p = n)) as [->|]; [|rewrite set_replica_ne by done; by apply HS].
    rewrite set_replica_eq. fold s. split; try done.
    + intros t [rt Hrt%Hsub]. apply Hs. by exists rt.
    + intros t Hd. destruct (Hl t Hd) as [[rt Hrt]|?]; [|by right].
      destruct (gc_dropped n _ t rt Hn Hrt) as [?|Hle]; [left; by exists rt|right; eauto].
    + eauto.
    + intros t rt Hrt. rewrite Hids, Hid, Hown. intros Hle. apply (Hseen t rt Hrt). by rewrite Hid.
  - apply HS.
  - intros p t Hp Hd. destruct (gs_collected _ _ _ HS p t Hp Hd) as [Hg|(rt & Hrt & Hle)];
      (destruct (decide (p = n)) as [->|]; [rewrite !set_replica_eq|rewrite !set_replica_ne by done]); [| |right|]; eauto.
    + destruct Hg as [rt Hrt]. destruct (gc_dropped n _ t rt Hn Hrt) as [?|Hle]; [left; by exists rt|right].
      exists rt. split; [auto|]. lia.
    + exists rt. split; [done|]. lia.
  - intros t rt Hrt. destruct (gs_bound _ _ _ HS t rt Hrt) as [Hin Hb]. split; [done|].
    etrans; [exact Hb|]. replica_goal n; [fold s; by rewrite Hown|done].
Qed.

Lemma gc_sim_send S F G n :
  gc_sim S F G → n ∈ nodes → gc_sim S (exec false nodes F (OSend n)) (exec true nodes G (OSend n)).
Proof.
  intros [Hnode Hnet Hcol Hb] Hn.
  assert (∀ x y, pair_ok F S x y → pair_ok (exec false nodes F (OSend n)) S x y) as Hsame.
  { intros x y. by apply pair_mono. }
  split; simpl; [auto| |done|done].
  apply Forall2_app; [by eapply Forall2_impl|]. constructor; [auto|constructor].
Qed.

Lemma clocks_inv_send k G n : clocks_inv k G → n ∈ nodes → clocks_inv k (exec true nodes G (OSend n)).
Proof.
  intros [Hnode Hnet Hb Hcol] Hn. split; simpl; [|..|done|done].
  - intros m Hm. apply (view_mono G); [done|auto].
  - intros y [Hy|Hy%list_elem_of_singleton]%elem_of_app.
    + destruct (Hnet y Hy) as (m & Hm & Hv). exists m. split; [done|]. by apply (view_mono G).
    + subst y. exists n. split; [done|]. apply (view_mono G); [done|auto].
Qed.
End cluster.

(** ** Whole runs *)

Lemma exec_sim nodes k S F G o :
  Forall (λ n, n < U32) nodes → Forall (.∈ nodes) (op_nodes o) → k < U32 → in_time nodes G o →
  clocks_inv nodes k G → tags_inv nodes k F → gc_sim nodes S F G →
  clocks_inv nodes (k + 1) (exec true nodes G o) ∧
  tags_inv nodes (k + 1) (exec false nodes F o) ∧
  ∃ S', gc_sim nodes S' (exec false nodes F o) (exec true nodes G o).
Proof.
  intros Hnodes Ho Hk Hin HG HF HS.
  assert (∀ G, clocks_inv nodes k G → clocks_inv nodes (k + 1) G) as HG1.
  { intros G'. apply clocks_inv_mono. lia. }
  assert (∀ F, tags_inv nodes k F → tags_inv nodes (k + 1) F) as HF1.
  { intros F'. apply tags_inv_mono. lia. }
  destruct o as [n e|n e|n m|n|n i|n];
    repeat match goal with H : Forall _ (op_nodes _) |- _ => apply Forall_cons in H as [? ?]
                         | H : Forall _ (_ :: _) |- _ => apply Forall_cons in H as [? ?] end.
  - split_and!; [by apply HG1, clocks_inv_add|by apply tags_inv_add|exists S; by eapply gc_sim_add].
  - split_and!; [apply clocks_inv_remove; [done..|word_lia]|by apply HF1, tags_inv_remove|].
    eexists. eapply gc_sim_remove; [done..|word_lia].
  - pose proof (ci_node _ _ _ HG m ltac:(done)) as Hv.
    split_and!; [by apply HG1; eapply clocks_inv_merge|by apply HF1, tags_inv_merge; [..|by apply holds_node]|].
    exists S. apply (gc_sim_merge nodes k S F G n m); try done; [by apply holds_node|by apply HS|].
    intros q Hq. by apply (ci_collected _ _ _ HG).
  - split_and!; [by apply HG1, clocks_inv_send|by apply HF1, tags_inv_send|exists S; by apply gc_sim_send].
  - pose proof (gs_net _ _ _ _ HS) as Hnet. simpl in Hin |- *.
    destruct (cl_net G !! i) as [y|] eqn:Hy.
    2: { assert (cl_net F !! i = None) as ->; [|split_and!; eauto].
         apply lookup_ge_None. apply lookup_ge_None in Hy. by rewrite (Forall2_length _ _ _ Hnet). }
    destruct (Forall2_lookup_r _ _ _ i y Hnet Hy) as (x & Hx & Hxy). rewrite Hx.
    destruct (ci_net _ _ _ HG y) as (m & Hm & Hv); [by eapply list_elem_of_lookup_2|].
    assert (holds nodes F x) as Hh by (right; by eapply list_elem_of_lookup_2).
    split_and!; [by apply HG1; eapply clocks_inv_merge|by apply HF1, tags_inv_merge|].
    exists S. apply (gc_sim_merge nodes k S F G n m x y); try done. intros q Hq.
    apply Is_true_true, forallb_forall with (x := q) in Hin; [|by apply list_elem_of_In].
    rewrite (proj1 (vo_id _ _ _ _ Hv)) in Hin. by apply N.leb_le.
  - split_and!; [by apply HG1, clocks_inv_gc|by apply HF1|exists S; by eapply gc_sim_gc].
Qed.

Lemma run_sim nodes k S F G ops :
  Forall (λ n, n < U32) nodes → Forall (λ o, Forall (.∈ nodes) (op_nodes o)) ops →
  k + len ops < U32 → all_in_time nodes G ops →
  clocks_inv nodes k G → tags_inv nodes k F → gc_sim nodes S F G →
  ∃ S', gc_sim nodes S' (foldl (exec false nodes) F ops) (foldl (exec true nodes) G ops).
Proof.
  intros Hnodes Hops. revert k S F G. induction Hops as [|o ops Ho _ IH]; intros k S F G Hlen Hin HG HF HS;
    simpl in Hin |- *; [by exists S|]. apply andb_prop_elim in Hin as [Hin Hins]. rewrite len_cons in Hlen.
  destruct (exec_sim nodes k S F G o) as (HG' & HF' & S' & HS'); try done; [lia|].
  apply (IH (k + 1) S'); try done. lia.
Qed.

(** [C10] Tombstone collection is unobservable.  Take any interleaving of adds,
    removes, synchronisations, sends and deliveries of whole states, and
    garbage collections with every node of the cluster in the healthy set, over
    nodes with 32-bit ids and shorter than 2^32 steps.  A state that was sent
    may be lost, delayed, repeated or overtaken, as long as each delivery is in
    time: its sender had observed the removals that the receiver has collected
    by then.  Then every replica reports exactly the set it would report had no
    tombstone ever been collected: nothing is resurrected and nothing lost. *)
Theorem orset_gc_unobservable (nodes : list N) (ops : list Op) (n : N) :
  Forall (λ n, n < U32) nodes → Forall (λ o, Forall (.∈ nodes) (op_nodes o)) ops →
  len ops < U32 → all_in_time nodes new_cluster ops → n ∈ nodes →
  ORSet_value (cl_sets (run true nodes ops) n) = ORSet_value (cl_sets (run false nodes ops) n).
Proof.
  intros Hnodes Hops Hlen Hin Hn.
  destruct (run_sim nodes 0 (λ _ _, False) new_cluster new_cluster ops) as [S HS]; try done;
    [by apply clocks_inv_init|by apply tags_inv_init|by apply gc_sim_init|].
  apply set_eq. intros e. by rewrite !elem_of_ORSet_value, (po_tags _ _ _ _ _ (gs_node _ _ _ _ HS n Hn)).
Qed.

(** Two nodes add and exchange; node 1 removes an element while a state of
    node 2 is under way, the removal becomes stable, node 1 collects its
    tombstone, and a state sent afterwards arrives twice. *)
Definition gc_example : list Op :=
  [OAdd 1 [97]; OAdd 2 [98]; OSync 1 2; OSync 2 1; OSend 2; ORemove 1 [97]; ODeliver 1 0; OSync 2 1; OSync 1 2;
   OSend 2; OGc 1; ODeliver 1 1; ODeliver 1 1; OSync 2 1].

Lemma orset_gc_unobservable_witness :
  map_to_list (or_removed (cl_sets (run true [1; 2] (take 11 gc_example)) 1)) = [] ∧
  size (or_removed (cl_sets (run false [1; 2] (take 11 gc_example)) 1)) = 1%nat ∧
  ORSet_value (cl_sets (run true [1; 2] gc_example) 1) = ORSet_value (cl_sets (run false [1; 2] gc_example) 1) ∧
  elements (ORSet_value (cl_sets (run true [1; 2] gc_example) 1)) = [[98]].
Proof.
  split_and!; [by vm_compute|by vm_compute| |by vm_compute].
  apply orset_gc_unobservable; [|unfold gc_example|by vm_compute|by vm_compute|set_solver].
  - repeat constructor.
  - repeat constructor; set_solver.
Defined.

(** Collection relies on deliveries in time.  A state that node 2 sent before
    it saw a removal, delivered to node 1 after node 1 collected the
    tombstone, brings the removed element back, although node 2 acknowledged
    the removal and both sides agreed that it was gone. *)
Theorem orset_gc_late_payload_resurrects :
  let ops := [OAdd 1 [97]; OSync 2 1; OSend 2; ORemove 1 [97]; OSync 2 1; OSync 1 2; OGc 1] in
  let late := ops ++ [ODeliver 1 0] in
  all_in_time [1; 2] new_cluster late = false ∧
  elements (ORSet_value (cl_sets (run true [1; 2] ops) 1)) = [] ∧
  elements (ORSet_value (cl_sets (run true [1; 2] late) 1)) = [[97]] ∧
  elements (ORSet_value (cl_sets (run false [1; 2] late) 1)) = [].
Proof. by vm_compute. Qed.

(** It also relies on whole states.  A delta carries only the newest removals
    but the full matrix clock: node 2 misses the delta with the removal of "a",
    receives the next one, and from then on claims to have observed both
    removals.  Node 1 hears so and collects both tombstones; the next state of
    node 2, sent after all this, brings "a" back at node 1. *)
Theorem orset_gc_lost_delta_resurrects :
  let synced := run true [1; 2] [OAdd 1 [97]; OAdd 1 [98]; OSync 2 1] in
  let removed := ORSet_remove (cl_sets synced 1) [97] in
  let removed' := ORSet_remove removed [98] in
  ∃ delta, ORSet_delta_since removed' removed = Some delta ∧
    let behind := ORSet_merge (cl_sets synced 2) delta in
    let collected := gc_stable_tombstones_ORSet 1 [1; 2] (ORSet_merge removed' behind) in
    elements (ORSet_value collected) = [] ∧ map_to_list (or_removed collected) = [] ∧
    elements (ORSet_value (ORSet_merge collected behind)) = [[97]].
Proof. eexists. split; [by vm_compute|]. by vm_compute. Qed.
