(* ===== verification/CrdtAworset.v ===== *)
(** * The timestamped add-wins set

    Laws of [AWORSet] ([src/runtime/crdt.rs]), when a local update takes
    effect, and what collecting its tombstones does. *)
From S2P Require Import Prelude Bytes CrdtClock CrdtCore CrdtSets.

Local Open Scope N_scope.

(** ** State-based CRDT *)

Lemma newer_stamps_lookup m base e :
  newer_stamps m base !! e =
    match m !! e with
    | Some ts =>
        if match base !! e with Some bts => LamportTime_gt ts bts | None => true end
        then Some ts else None
    | None => None
    end.
Proof.
  unfold newer_stamps.
  rewrite (for_each_upsert_map _ (λ e o ts,
    if match base !! e with Some bts => LamportTime_gt ts bts | None => true end
    then Some ts else o) _ m); [|done|].
  - by rewrite lookup_empty.
  - intros w k ts. apply upsert_intro.
    + intros j Hj. case_match; [by rewrite lookup_insert_ne|done].
    + case_match; [by rewrite lookup_insert_eq|done].
Qed.

Lemma LamportTime_max_absorb x y : LamportTime_le y x = true → LamportTime_max x y = x.
Proof. unfold LamportTime_max. by intros ->. Qed.

(** Sending only the stamps newer than [base]'s loses nothing for a receiver
    that already holds [base]. *)
Lemma newer_stamps_merge r m base :
  map_join LamportTime_max r base = r →
  map_join LamportTime_max r (newer_stamps m base) = map_join LamportTime_max r m.
Proof.
  intros Hle. apply map_eq. intros e. rewrite !lookup_map_join, newer_stamps_lookup.
  assert (opt_join LamportTime_max (r !! e) (base !! e) = r !! e) as He
    by (by rewrite <-lookup_map_join, Hle).
  destruct (m !! e) as [ts|], (base !! e) as [bts|], (r !! e) as [rts|]; simpl in *;
    try done; unfold LamportTime_gt; destruct (LamportTime_le ts bts) eqn:Hts; simpl; try done.
  f_equal. symmetry. apply LamportTime_max_absorb. revert He. unfold LamportTime_max.
  destruct (LamportTime_le bts rts) eqn:Hb; intros; simplify_eq; apply LamportTime_le_spec; lamport.
Qed.

#[export] Instance AWORSet_equiv : Equiv AWORSet :=
  λ a b, aw_entries a = aw_entries b ∧ aw_removed a = aw_removed b.

#[export] Instance AWORSet_equivalence : Equivalence (≡@{AWORSet}).
Proof.
  split; unfold equiv, AWORSet_equiv.
  - done.
  - intros a b [-> ->]. done.
  - intros a b c [-> ->] [-> ->]. done.
Qed.

Lemma AWORSet_value_ext a b : a ≡ b → AWORSet_value a = AWORSet_value b.
Proof.
  intros [He Hr]. unfold AWORSet_value, AWORSet_contains. rewrite He, Hr. done.
Qed.

#[export] Instance AWORSet_crdt : Crdt AWORSet (gset bytes) := {
  crdt_wf _ := True;
  crdt_equiv := AWORSet_equiv;
  crdt_merge := AWORSet_merge;
  crdt_value := AWORSet_value;
  crdt_delta_since := AWORSet_delta_since;
}.

Lemma AWORSet_delta_merge a base r :
  AWORSet_merge r base ≡ r →
  merge_delta r (AWORSet_delta_since a base) ≡ AWORSet_merge r a.
Proof.
  intros [He Hr]. simpl in He, Hr. rewrite insert_newer_map in He, Hr.
  pose proof (newer_stamps_merge _ (aw_entries a) _ He) as Hde.
  pose proof (newer_stamps_merge _ (aw_removed a) _ Hr) as Hdr.
  unfold AWORSet_delta_since, merge_delta; simpl. case_decide as Hempty.
  - destruct Hempty as [H1 H2]. rewrite H1 in Hde. rewrite H2 in Hdr.
    split; simpl; rewrite insert_newer_map; [rewrite <-Hde|rewrite <-Hdr];
      apply map_eq; intros k; rewrite lookup_map_join, lookup_empty; by destruct (_ !! k).
  - split; simpl; rewrite !insert_newer_map; done.
Qed.

#[export] Instance AWORSet_laws : CrdtLaws AWORSet (gset bytes).
Proof.
  split; simpl; try done.
  - apply _.
  - intros a a' b b' _ _ _ _ [H1 H2] [H3 H4]. split; simpl; congruence.
  - intros a b c _ _ _. split; simpl; rewrite !insert_newer_map; apply join_assoc.
  - intros a b _ _. split; simpl; rewrite !insert_newer_map; apply join_comm.
  - intros a _. split; simpl; rewrite !insert_newer_map; apply join_idemp.
  - intros a b _ _. apply AWORSet_value_ext.
  - intros a base r _ _ _. apply AWORSet_delta_merge.
Qed.



(** ** Local updates *)

(** The stamp of the next local update. *)
Definition AWORSet_next_stamp (s : AWORSet) : LamportTime :=
  mkLamportTime (MatrixClock_tick_local (aw_matrix s)).1 (lc_node_id (aw_clock s)).

(** [C25] When a local update of the timestamped set takes effect.  An [add] is
    visible exactly when its stamp -- the node's own matrix counter, not the
    Lamport clock -- is newer than the removal stamp already recorded for the
    element; a [remove] takes effect exactly when the recorded add stamp is
    not newer than it.  Other elements are not affected. *)
Theorem aworset_update_effect (s : AWORSet) e e' :
  (AWORSet_contains (AWORSet_add s e) e = true ↔
     ∀ rt, aw_removed s !! e = Some rt → LamportTime_gt (AWORSet_next_stamp s) rt = true) ∧
  (AWORSet_contains (AWORSet_remove s e) e = false ↔
     ∀ ts, aw_entries s !! e = Some ts → LamportTime_gt ts (AWORSet_next_stamp s) = false) ∧
  (e' ≠ e → AWORSet_contains (AWORSet_add s e) e' = AWORSet_contains s e' ∧
            AWORSet_contains (AWORSet_remove s e) e' = AWORSet_contains s e').
Proof.
  unfold AWORSet_contains, AWORSet_next_stamp; simpl. split_and!.
  - rewrite lookup_insert_eq. destruct (aw_removed s !! e) as [rt|]; [|naive_solver].
    rewrite <-LamportTime_gt_is_greater_than. naive_solver.
  - rewrite lookup_insert_eq. destruct (aw_entries s !! e) as [ts|]; [|naive_solver].
    rewrite <-LamportTime_gt_is_greater_than. naive_solver.
  - intros Hne. by rewrite !lookup_insert_ne by done.
Qed.

Lemma aworset_update_effect_witness :
  let s := AWORSet_add (AWORSet_new 1) [97] in
  AWORSet_contains (AWORSet_remove s [97]) [98] = AWORSet_contains s [98].
Proof. intros s. by apply (aworset_update_effect s [97] [98]). Defined.

(** Local updates can be lost.  Node 1 updates an element three times;
    node 2 merges that state, which moves its Lamport clock to 3 but leaves
    its own matrix counter at 0.  Node 2's own [add] of a removed element is
    not visible in node 2's set, and its own [remove] of a present element
    leaves the element present. *)
Theorem aworset_local_update_lost :
  let s1 := AWORSet_remove (AWORSet_add (AWORSet_add (AWORSet_new 1) [97]) [97]) [97] in
  let s2 := AWORSet_add (AWORSet_add (AWORSet_add (AWORSet_new 1) [97]) [97]) [97] in
  let r1 := AWORSet_merge (AWORSet_new 2) s1 in
  let r2 := AWORSet_merge (AWORSet_new 2) s2 in
  lc_counter (aw_clock r1) = 3 ∧
  AWORSet_contains (AWORSet_add r1 [97]) [97] = false ∧
  AWORSet_contains (AWORSet_remove r2 [97]) [97] = true.
Proof. by vm_compute. Qed.

(** ** Tombstone collection *)

(** [gc_stable_tombstones] on an [AWORSet] entry. *)
Definition gc_stable_tombstones_AWORSet (node_id : N) (healthy : list N) (s : AWORSet) : AWORSet :=
  let healthy := if bool_decide (node_id ∈ healthy) then healthy else healthy ++ [node_id] in
  let matrix := MatrixClock_prune (aw_matrix s) healthy in
  AWORSet_gc_tombstones (mkAWORSet (aw_entries s) (aw_removed s) (aw_clock s) matrix)
    (MatrixClock_watermark matrix healthy).

(** [C26] Collecting a tombstone of the timestamped set resurrects the
    element.  [gc_tombstones] drops the removal stamp but keeps the add stamp,
    so every element whose tombstone is collected is a member afterwards,
    also when it was not a member before. *)
Theorem aworset_gc_resurrects (s : AWORSet) wm e ts rt :
  aw_entries s !! e = Some ts → aw_removed s !! e = Some rt →
  lt_counter rt ≤ default 0 (wm !! lt_node_id rt) →
  e ∈ AWORSet_value (AWORSet_gc_tombstones s wm).
Proof.
  intros He Hr Hle.
  assert (aw_removed (AWORSet_gc_tombstones s wm) !! e = None) as Hnone.
  { simpl. apply map_lookup_filter_None. right. intros rt' Hrt'. simplify_eq. simpl. lia. }
  unfold AWORSet_value. rewrite elem_of_filter, elem_of_dom.
  unfold AWORSet_contains. rewrite Hnone. simpl. rewrite He. naive_solver.
Qed.

(** A standalone node: add, remove, collect. *)
Lemma aworset_gc_resurrects_witness :
  let s := AWORSet_remove (AWORSet_add (AWORSet_new 1) [97]) [97] in
  AWORSet_contains s [97] = false ∧ [97] ∈ AWORSet_value (gc_stable_tombstones_AWORSet 1 [] s).
Proof.
  intros s. split; [by vm_compute|].
  apply (aworset_gc_resurrects _ _ _ (mkLamportTime 1 1) (mkLamportTime 2 1)); by vm_compute.
Defined.
