(* ===== verification/CrdtCodec.v ===== *)
(** * Wire formats of the replicated sets

    [to_bytes] and [from_bytes] of [GSet], [ORSet] and [AWORSet]
    ([src/runtime/crdt.rs]).  A hash container is written in an arbitrary
    order, which the encoders take as an argument; the decoders rebuild the
    same container from any of them. *)
From S2P Require Import Prelude Bytes CrdtClock CrdtCore CrdtCounters CrdtSets.

Local Open Scope N_scope.

Lemma reads_matrix c : matrix_ok c → reads MatrixClock_from_bytes (matrix_frame c) c.
Proof. intros. apply reads_intro. intros. by apply MatrixClock_from_bytes_app. Qed.

(** ** Tags: two 32-bit halves of a word *)

Definition tag_ok (t : Tag) : Prop := tag_node_id t < U32 ∧ tag_counter t < U32.

Lemma tag_to_u64_add t : tag_ok t → tag_to_u64 t = tag_node_id t * U32 + tag_counter t.
Proof. intros [_ Hc]. by apply (lor_shiftl_add _ _ 32). Qed.

Lemma tag_of_to_u64 t : tag_ok t → tag_of_u64 (tag_to_u64 t) = t.
Proof.
  intros Ht. rewrite tag_to_u64_add by done. destruct Ht as [Hn Hc]. unfold tag_of_u64, as_u32.
  rewrite N.shiftr_div_pow2. change (2 ^ 32) with U32.
  rewrite N.div_add_l, (N.div_small (tag_counter t)), N.add_0_r by done.
  rewrite N.add_comm, N.Div0.mod_add, !N.mod_small by done. by destruct t.
Qed.

Lemma tag_to_u64_lt t : tag_ok t → tag_to_u64 t < U64.
Proof. intros Ht. rewrite tag_to_u64_add by done. destruct Ht. unfold U32, U64 in *. lia. Qed.

Lemma reads_tag t : tag_ok t → reads read_u64 (to_be_bytes 8 (tag_to_u64 t)) (tag_to_u64 t).
Proof. intros. by apply reads_u64, tag_to_u64_lt. Qed.

Definition stamp_ok (rt : LamportTime) : Prop := lt_counter rt < U64 ∧ lt_node_id rt < U64.

(** ** ORSet *)

Definition or_entry_frame (e : bytes * list Tag) : bytes :=
  string_frame e.1 ++ to_be_bytes 4 (as_u32 (len e.2))
    ++ encode_all (λ t, to_be_bytes 8 (tag_to_u64 t)) e.2.

Definition or_removed_frame (e : Tag * LamportTime) : bytes :=
  to_be_bytes 8 (tag_to_u64 e.1) ++ to_be_bytes 8 (lt_counter e.2) ++ to_be_bytes 8 (lt_node_id e.2).

Definition orset_frame (ite : list (bytes * list Tag)) (itr : list (Tag * LamportTime))
    (s : ORSet) : bytes :=
  to_be_bytes 8 (or_node_id s) ++ to_be_bytes 8 (or_tag_counter s)
    ++ to_be_bytes 4 (as_u32 (N.of_nat (size (or_entries s)))) ++ encode_all or_entry_frame ite
    ++ to_be_bytes 4 (as_u32 (N.of_nat (size (or_removed s)))) ++ encode_all or_removed_frame itr
    ++ matrix_frame (or_matrix s).

Lemma ORSet_to_bytes_frame ite itr s : ORSet_to_bytes ite itr s = orset_frame ite itr s.
Proof.
  unfold ORSet_to_bytes, orset_frame. rewrite MatrixClock_to_bytes_frame.
  rewrite (foldl_push or_removed_frame), (foldl_push or_entry_frame).
  - unfold push_u64, push_u32. by rewrite <-!(assoc_L (++)).
  - intros buf [e tags]. rewrite (foldl_push (λ t, to_be_bytes 8 (tag_to_u64 t))) by done.
    unfold push_u32, or_entry_frame. rewrite push_string_frame. by rewrite <-!(assoc_L (++)).
  - intros buf e. unfold push_u64, or_removed_frame. by rewrite <-!(assoc_L (++)).
Qed.

(** A traversal of the entries: the map in some order, each tag set in some
    order. *)
Definition or_traversal (ite : list (bytes * list Tag)) (s : ORSet) : Prop :=
  ((λ e : bytes * list Tag, (e.1, list_to_set e.2 : gset Tag)) <$> ite) ≡ₚ map_to_list (or_entries s).

Definition or_entry_ok (e : bytes * list Tag) : Prop :=
  string_ok e.1 ∧ len e.2 < U32 ∧ Forall tag_ok e.2.

(** Every field fits its wire width. *)
Definition orset_ok (ite : list (bytes * list Tag)) (s : ORSet) : Prop :=
  or_node_id s < U64 ∧ or_tag_counter s < U64 ∧
  N.of_nat (size (or_entries s)) < U32 ∧ N.of_nat (size (or_removed s)) < U32 ∧
  Forall or_entry_ok ite ∧
  (∀ t rt, or_removed s !! t = Some rt → tag_ok t ∧ stamp_ok rt) ∧
  matrix_ok (or_matrix s).

Lemma reads_or_entry e acc :
  or_entry_ok e →
  reads (λ bs pos, ORSet_read_entry bs (acc, pos)) (or_entry_frame e)
    (<[e.1 := list_to_set e.2]> acc).
Proof.
  destruct e as [k tags]. intros (Hk & Hlen & Htags) bs pos rest Hat. simpl in *.
  unfold or_entry_frame, ORSet_read_entry in *. simpl in *. rewrite <-!(assoc_L (++)) in Hat.
  rewrite as_u32_small in Hat by done.
  read_field (reads_string k Hk). read_field (reads_u32 _ Hlen).
  read_field (reads_for (λ t, to_be_bytes 8 (tag_to_u64 t)) (λ acc t, {[t]} ∪ acc) ORSet_read_tag
    (N.to_nat (len tags)) tags ∅ ltac:(unfold len; lia)
    ltac:(intros t s' Ht bs' pos' rest' Hat'; unfold ORSet_read_tag;
          eapply Forall_forall in Htags; [|exact Ht];
          read_field (reads_tag t Htags); rewrite tag_of_to_u64 by done; read_done)).
  rewrite foldl_insert_set, (right_id_L ∅ (∪)). read_done.
Qed.

Lemma reads_or_removed e acc :
  tag_ok e.1 ∧ stamp_ok e.2 →
  reads (λ bs pos, ORSet_read_removed bs (acc, pos)) (or_removed_frame e) (<[e.1 := e.2]> acc).
Proof.
  destruct e as [t [c n]]. intros [Ht [Hc Hn]] bs pos rest Hat. simpl in *.
  unfold or_removed_frame, ORSet_read_removed in *. simpl in *. rewrite <-!(assoc_L (++)) in Hat.
  read_field (reads_tag t Ht). read_field (reads_u64 c Hc). read_field (reads_u64 n Hn).
  rewrite tag_of_to_u64 by done. read_done.
Qed.

Lemma or_traversal_length ite s :
  or_traversal ite s → N.to_nat (N.of_nat (size (or_entries s))) = length ite.
Proof.
  intros Hit%Permutation_length. rewrite length_fmap, length_map_to_list in Hit. lia.
Qed.

Lemma or_traversal_rebuild ite s :
  or_traversal ite s →
  foldl (λ (acc : gmap bytes (gset Tag)) e, <[e.1 := list_to_set e.2]> acc) ∅ ite = or_entries s.
Proof.
  intros Hit. rewrite <-(foldl_insert_map_to_list _ _ Hit), foldl_fmap. done.
Qed.

Lemma ORSet_from_bytes_frame ite itr s :
  or_traversal ite s → itr ≡ₚ map_to_list (or_removed s) → orset_ok ite s →
  fits (orset_frame ite itr s) → ORSet_from_bytes (orset_frame ite itr s) = Some s.
Proof.
  intros Hite Hitr (Hn & Hc & He & Hr & Hok & Hrok & Hm) Hfit%at_rest_start.
  revert Hfit. generalize (orset_frame ite itr s) at 1 3 as bs. intros bs Hat.
  unfold orset_frame, ORSet_from_bytes in *. rewrite !as_u32_small in Hat by done.
  read_field (reads_u64 _ Hn). read_field (reads_u64 _ Hc). read_field (reads_u32 _ He).
  read_field (reads_for or_entry_frame (λ acc e, <[e.1 := list_to_set e.2]> acc) ORSet_read_entry
    _ ite ∅ (or_traversal_length _ _ Hite)
    (λ e acc Hin, reads_or_entry e acc (proj1 (Forall_forall _ _) Hok e Hin))).
  read_field (reads_u32 _ Hr).
  assert (N.to_nat (N.of_nat (size (or_removed s))) = length itr) as Hlen.
  { rewrite Hitr, length_map_to_list. lia. }
  assert (∀ e acc, e ∈ itr → reads (λ bs pos, ORSet_read_removed bs (acc, pos))
    (or_removed_frame e) (<[e.1 := e.2]> acc)) as Hbody.
  { intros [t rt] acc Hin. apply reads_or_removed, Hrok.
    by rewrite Hitr, elem_of_map_to_list in Hin. }
  read_field (reads_for or_removed_frame _ ORSet_read_removed _ itr ∅ Hlen Hbody).
  rewrite <-(app_nil_r (matrix_frame _)) in Hat. read_field (reads_matrix _ Hm).
  rewrite or_traversal_rebuild with (s := s) by done.
  rewrite (foldl_insert_map_to_list itr (or_removed s)) by done. by destruct s.
Qed.

(** ** AWORSet *)

Definition stamp_frame (e : bytes * LamportTime) : bytes :=
  string_frame e.1 ++ to_be_bytes 8 (lt_counter e.2) ++ to_be_bytes 8 (lt_node_id e.2).

Definition aworset_frame (ite itr : list (bytes * LamportTime)) (s : AWORSet) : bytes :=
  to_be_bytes 8 (lc_node_id (aw_clock s)) ++ to_be_bytes 8 (lc_counter (aw_clock s))
    ++ to_be_bytes 4 (as_u32 (N.of_nat (size (aw_entries s)))) ++ encode_all stamp_frame ite
    ++ to_be_bytes 4 (as_u32 (N.of_nat (size (aw_removed s)))) ++ encode_all stamp_frame itr
    ++ matrix_frame (aw_matrix s).

Lemma AWORSet_push_stamps_frame buf it :
  AWORSet_push_stamps buf it = buf ++ encode_all stamp_frame it.
Proof.
  apply foldl_push. intros b e. unfold push_u64, stamp_frame.
  rewrite push_string_frame. by rewrite <-!(assoc_L (++)).
Qed.

Lemma AWORSet_to_bytes_frame ite itr s : AWORSet_to_bytes ite itr s = aworset_frame ite itr s.
Proof.
  unfold AWORSet_to_bytes, aworset_frame. rewrite MatrixClock_to_bytes_frame.
  rewrite !AWORSet_push_stamps_frame. unfold push_u64, push_u32. by rewrite <-!(assoc_L (++)).
Qed.

Definition stamps_ok (m : gmap bytes LamportTime) : Prop :=
  N.of_nat (size m) < U32 ∧ ∀ e ts, m !! e = Some ts → string_ok e ∧ stamp_ok ts.

Definition aworset_ok (s : AWORSet) : Prop :=
  lc_node_id (aw_clock s) < U64 ∧ lc_counter (aw_clock s) < U64 ∧
  stamps_ok (aw_entries s) ∧ stamps_ok (aw_removed s) ∧ matrix_ok (aw_matrix s).

(** A counted sequence of stamps is read back into the map it came from. *)
Lemma reads_stamps it m :
  stamps_ok m → it ≡ₚ map_to_list m →
  reads (λ bs pos, try_for (N.to_nat (N.of_nat (size m))) (AWORSet_read_stamp bs) (∅, pos))
    (encode_all stamp_frame it) m.
Proof.
  intros [_ Hok] Hit.
  pose proof (foldl_insert_map_to_list it m Hit) as Hm. symmetry in Hm.
  eapply eq_rect_r with (P := reads _ _); [|exact Hm]. apply reads_for.
  - rewrite Hit, length_map_to_list. lia.
  - intros [e [c n]] acc Hin bs pos rest Hat. rewrite Hit, elem_of_map_to_list in Hin.
    destruct (Hok _ _ Hin) as [He [Hc Hn]]. unfold stamp_frame, AWORSet_read_stamp in *.
    simpl in *. rewrite <-!(assoc_L (++)) in Hat.
    read_field (reads_string e He). read_field (reads_u64 c Hc). read_field (reads_u64 n Hn).
    read_done.
Qed.

Lemma AWORSet_from_bytes_frame ite itr s :
  ite ≡ₚ map_to_list (aw_entries s) → itr ≡ₚ map_to_list (aw_removed s) → aworset_ok s →
  fits (aworset_frame ite itr s) → AWORSet_from_bytes (aworset_frame ite itr s) = Some s.
Proof.
  intros Hite Hitr (Hn & Hc & He & Hr & Hm) Hfit%at_rest_start.
  revert Hfit. generalize (aworset_frame ite itr s) at 1 3 as bs. intros bs Hat.
  unfold aworset_frame, AWORSet_from_bytes in *.
  rewrite !as_u32_small in Hat by apply He || apply Hr.
  read_field (reads_u64 _ Hn). read_field (reads_u64 _ Hc). read_field (reads_u32 _ (proj1 He)).
  read_field (reads_stamps _ _ He Hite). read_field (reads_u32 _ (proj1 Hr)).
  read_field (reads_stamps _ _ Hr Hitr).
  rewrite <-(app_nil_r (matrix_frame _)) in Hat. read_field (reads_matrix _ Hm).
  by destruct s as [? ? [] ?].
Qed.

(** ** GSet *)

Definition gset_ok (s : GSet) : Prop :=
  N.of_nat (size (gs_elements s)) < U32 ∧ ∀ e, e ∈ gs_elements s → string_ok e.

Lemma GSet_from_to_bytes it s :
  it ≡ₚ elements (gs_elements s) → gset_ok s → fits (GSet_to_bytes it s) →
  GSet_from_bytes (GSet_to_bytes it s) = Some s.
Proof.
  intros Hit [Hsz Hok]. unfold GSet_to_bytes.
  rewrite (foldl_push string_frame) by apply push_string_frame.
  unfold push_u32. rewrite as_u32_small, app_nil_l by done. intros Hfit%at_rest_start. revert Hfit.
  generalize (to_be_bytes 4 (N.of_nat (size (gs_elements s))) ++ encode_all string_frame it)
    at 1 3 as bs. intros bs Hat. unfold GSet_from_bytes. read_field (reads_u32 _ Hsz).
  assert (N.to_nat (N.of_nat (size (gs_elements s))) = length it) as Hlen.
  { rewrite Hit. unfold size, set_size; simpl. lia. }
  assert (∀ e (acc : gset bytes), e ∈ it →
    reads (λ bs pos, GSet_read_element bs (acc, pos)) (string_frame e) ({[e]} ∪ acc)) as Hbody.
  { intros e acc Hin bs' pos' rest Hat'. rewrite Hit, elem_of_elements in Hin.
    unfold GSet_read_element. read_field (reads_string e (Hok e Hin)). read_done. }
  rewrite <-(app_nil_r (encode_all _ _)) in Hat.
  read_field (reads_for string_frame _ GSet_read_element _ it ∅ Hlen Hbody).
  rewrite foldl_insert_set, (right_id_L ∅ (∪)), Hit, list_to_set_elements_L. by destruct s.
Qed.

(** [C23] The replicated sets survive serialisation.  Whatever order the hash
    containers are traversed in, [from_bytes] of [to_bytes] returns exactly
    the set that was sent, tombstones, clocks and matrix included, when every
    field fits its wire width: 32-bit counts, string lengths and tag halves,
    64-bit node ids, counters and stamps. *)
Theorem sets_roundtrip :
  (∀ it s, it ≡ₚ elements (gs_elements s) → gset_ok s → fits (GSet_to_bytes it s) →
     GSet_from_bytes (GSet_to_bytes it s) = Some s) ∧
  (∀ ite itr s, or_traversal ite s → itr ≡ₚ map_to_list (or_removed s) → orset_ok ite s →
     fits (ORSet_to_bytes ite itr s) →
     ORSet_from_bytes (ORSet_to_bytes ite itr s) = Some s) ∧
  (∀ ite itr s, ite ≡ₚ map_to_list (aw_entries s) → itr ≡ₚ map_to_list (aw_removed s) →
     aworset_ok s → fits (AWORSet_to_bytes ite itr s) →
     AWORSet_from_bytes (AWORSet_to_bytes ite itr s) = Some s).
Proof.
  split_and!.
  - apply GSet_from_to_bytes.
  - intros *. rewrite ORSet_to_bytes_frame. apply ORSet_from_bytes_frame.
  - intros *. rewrite AWORSet_to_bytes_frame. apply AWORSet_from_bytes_frame.
Qed.

Lemma sets_roundtrip_witness :
  let s := ORSet_remove (ORSet_add (ORSet_add (ORSet_new 3) [97]) [98]) [97] in
  let bs := ORSet_to_bytes [([98], [mkTag 3 1])] [(mkTag 3 0, mkLamportTime 1 3)] s in
  len bs = 105 ∧ ORSet_from_bytes bs = Some s.
Proof.
  intros s bs. split; [by vm_compute|].
  assert (or_removed s = {[mkTag 3 0 := mkLamportTime 1 3]}) as Hr by (by vm_compute).
  assert (mc_matrix (or_matrix s) = {[3 := {[3 := 1]}]}) as Hm by (by vm_compute).
  assert (map_to_list (or_entries s) = [([98], {[mkTag 3 1]})]) as He by (by vm_compute).
  apply sets_roundtrip.
  - unfold or_traversal. rewrite He. simpl. by rewrite (right_id_L ∅ (∪)).
  - by rewrite Hr, map_to_list_singleton.
  - split_and!; [done|done|done| | | |].
    + by rewrite Hr.
    + repeat constructor.
    + rewrite Hr. intros t rt [<- <-]%lookup_singleton_Some. done.
    + split_and!; [done|by rewrite Hm|]. rewrite Hm. intros p row [<- <-]%lookup_singleton_Some.
      split; [done|]. split; [done|]. intros ? ? [<- <-]%lookup_singleton_Some. done.
  - by vm_compute.
Defined.
