(* ===== verification/CrdtReg.v ===== *)
(** * Registers

    [LWWRegister] and [MVRegister] of [src/runtime/crdt_reg.rs]: the register
    that keeps the write with the greatest stamp, and the one that keeps all
    concurrent writes of the greatest counter. *)
From S2P Require Import Prelude Bytes CrdtClock CrdtCore.

Local Open Scope N_scope.

(** ** LWWRegister *)

Record LWWRegister (T : Type) := mkLWWRegister {
  lww_value : T;
  lww_timestamp : LamportTime;
  lww_clock : LamportClock;
}.
Arguments mkLWWRegister {T}.
Arguments lww_value {T}.
Arguments lww_timestamp {T}.
Arguments lww_clock {T}.

Definition LWWRegister_new {T} (node_id : N) (initial : T) : LWWRegister T :=
  let '(timestamp, clock) := LamportClock_tick (LamportClock_new node_id) in
  mkLWWRegister initial timestamp clock.

Definition LWWRegister_write {T} (self : LWWRegister T) (value : T) : LWWRegister T :=
  let '(timestamp, clock) := LamportClock_tick (lww_clock self) in
  mkLWWRegister value timestamp clock.

Definition LWWRegister_read {T} (self : LWWRegister T) : T := lww_value self.

Definition LWWRegister_merge {T} (self other : LWWRegister T) : LWWRegister T :=
  let '(value, timestamp) :=
    if LamportTime_gt (lww_timestamp other) (lww_timestamp self)
    then (lww_value other, lww_timestamp other)
    else (lww_value self, lww_timestamp self) in
  mkLWWRegister value timestamp
    (mkLamportClock (lc_node_id (lww_clock self))
       (N.max (lc_counter (lww_clock self)) (lc_counter (lww_clock other)))).

Definition LWWRegister_delta_since {T} (self base : LWWRegister T) : option (LWWRegister T) :=
  if LamportTime_gt (lww_timestamp self) (lww_timestamp base) then Some self else None.

Definition LWWRegister_to_bytes (self : LWWRegister bytes) : bytes :=
  to_be_bytes 8 (lc_node_id (lww_clock self)) ++ to_be_bytes 8 (lt_counter (lww_timestamp self))
    ++ to_be_bytes 4 0 ++ to_be_bytes 4 (as_u32 (len (lww_value self))) ++ lww_value self.

Definition LWWRegister_from_bytes (bs : bytes) : option (LWWRegister bytes) :=
  if len bs <? 24 then None else
  let node_id := be64 bs 0 in
  let ts_counter := be64 bs 8 in
  let type_tag := be32 bs 16 in
  if negb (type_tag =? 0) then None else
  let str_len := be32 bs 20 in
  if len bs <? 24 + str_len then None else
  value ← from_utf8 (slice bs 24 (24 + str_len));
  Some (mkLWWRegister value (mkLamportTime ts_counter node_id)
          (mkLamportClock node_id ts_counter)).

(** ** MVRegister *)

Record MVRegister (T : Type) `{Countable T} := mkMVRegister {
  mv_values : gset (T * LamportTime);
  mv_clock : LamportClock;
}.
Arguments mkMVRegister {T _ _}.
Arguments mv_values {T _ _}.
Arguments mv_clock {T _ _}.

Section mv.
Context {T : Type} `{Countable T}.

Definition MVRegister_new (node_id : N) : MVRegister T := mkMVRegister ∅ (LamportClock_new node_id).

Definition MVRegister_write (self : MVRegister T) (value : T) : MVRegister T :=
  let '(ts, clock) := LamportClock_tick (mv_clock self) in
  mkMVRegister
    ({[(value, ts)]} ∪ filter (λ e, lt_counter ts ≤ lt_counter e.2) (mv_values self)) clock.

(** [values.iter().map(|(_, t)| t.counter).max().unwrap_or(0)] *)
Definition max_counter (values : gset (T * LamportTime)) : N :=
  foldr (λ e acc, N.max (lt_counter e.2) acc) 0 (elements values).

Definition MVRegister_read (self : MVRegister T) : gset T :=
  set_map fst (filter (λ e, lt_counter e.2 = max_counter (mv_values self)) (mv_values self)).

Definition MVRegister_is_conflicted (self : MVRegister T) : bool :=
  1 <? N.of_nat (size (MVRegister_read self)).

Definition MVRegister_merge (self other : MVRegister T) : MVRegister T :=
  let clock := mkLamportClock (lc_node_id (mv_clock self))
                 (N.max (lc_counter (mv_clock self)) (lc_counter (mv_clock other))) in
  let values := foldl (λ acc e, {[e]} ∪ acc) (mv_values self) (elements (mv_values other)) in
  mkMVRegister (filter (λ e, lt_counter e.2 = max_counter values) values) clock.

Definition MVRegister_delta_since (self base : MVRegister T) : option (MVRegister T) :=
  let values := mv_values self ∖ mv_values base in
  if decide (values = ∅) then None else Some (mkMVRegister values (mv_clock self)).
End mv.

Definition MVRegister_to_bytes (it : list (bytes * LamportTime)) (self : MVRegister bytes) : bytes :=
  let buf := to_be_bytes 8 (lc_node_id (mv_clock self)) ++ to_be_bytes 8 (lc_counter (mv_clock self))
               ++ to_be_bytes 4 (as_u32 (N.of_nat (size (mv_values self)))) in
  foldl (λ buf e, buf ++ to_be_bytes 8 (lt_counter e.2) ++ to_be_bytes 8 (lt_node_id e.2)
                    ++ to_be_bytes 4 (as_u32 (len e.1)) ++ e.1) buf it.

Definition MVRegister_read_value (bs : bytes) (st : gset (bytes * LamportTime) * N)
    : option (gset (bytes * LamportTime) * N) :=
  let '(values, offset) := st in
  if len bs <? offset + 16 then None else
  let ts_counter := be64 bs offset in
  let ts_node_id := be64 bs (offset + 8) in
  let offset := offset + 16 in
  if len bs <? offset + 4 then None else
  let str_len := be32 bs offset in
  let offset := offset + 4 in
  if len bs <? offset + str_len then None else
  value ← from_utf8 (slice bs offset (offset + str_len));
  Some ({[(value, mkLamportTime ts_counter ts_node_id)]} ∪ values, offset + str_len).

Definition MVRegister_from_bytes (bs : bytes) : option (MVRegister bytes) :=
  if len bs <? 20 then None else
  let node_id := be64 bs 0 in
  let clock_counter := be64 bs 8 in
  let count := be32 bs 16 in
  '(values, _) ← try_for (N.to_nat count) (MVRegister_read_value bs) (∅, 20);
  Some (mkMVRegister values (mkLamportClock node_id clock_counter)).

(** ** LWWRegister: laws *)

(** [w] says which value was written under each stamp; the registers of one
    cluster agree on it. *)
Section lww.
Context {T : Type} (w : LamportTime → T).

Definition lww_agrees (r : LWWRegister T) : Prop := lww_value r = w (lww_timestamp r).

Definition LWWRegister_equiv : Equiv (LWWRegister T) :=
  λ a b, lww_value a = lww_value b ∧ lww_timestamp a = lww_timestamp b.

Definition LWWRegister_crdt : Crdt (LWWRegister T) T := {|
  crdt_wf := lww_agrees;
  crdt_equiv := LWWRegister_equiv;
  crdt_merge := LWWRegister_merge;
  crdt_value := LWWRegister_read;
  crdt_delta_since := LWWRegister_delta_since;
|}.

Lemma lww_timestamp_merge (a b : LWWRegister T) :
  lww_timestamp (LWWRegister_merge a b) = LamportTime_max (lww_timestamp a) (lww_timestamp b).
Proof.
  unfold LWWRegister_merge, LamportTime_gt, LamportTime_max.
  by destruct (LamportTime_le (lww_timestamp b) (lww_timestamp a)).
Qed.

Lemma lww_agrees_merge a b : lww_agrees a → lww_agrees b → lww_agrees (LWWRegister_merge a b).
Proof.
  unfold lww_agrees, LWWRegister_merge. by destruct (LamportTime_gt _ _).
Qed.

(** Registers that agree with the history are determined by their stamp. *)
Lemma lww_equiv_timestamp a b :
  lww_agrees a → lww_agrees b → lww_timestamp a = lww_timestamp b → LWWRegister_equiv a b.
Proof. unfold lww_agrees. intros Ha Hb Hab. split; congruence. Qed.

Lemma LWWRegister_delta_merge a base r :
  lww_agrees a → lww_agrees r → lww_timestamp (LWWRegister_merge r base) = lww_timestamp r →
  LWWRegister_equiv (@merge_delta _ _ LWWRegister_crdt r (LWWRegister_delta_since a base))
    (LWWRegister_merge r a).
Proof.
  intros Ha Hr. rewrite lww_timestamp_merge. intros Hle.
  unfold LWWRegister_delta_since, merge_delta; simpl.
  destruct (LamportTime_gt (lww_timestamp a) (lww_timestamp base)) eqn:Hgt; [done|].
  apply lww_equiv_timestamp; [done|by apply lww_agrees_merge|].
  rewrite lww_timestamp_merge. symmetry. revert Hle. unfold LamportTime_max.
  destruct (LamportTime_le (lww_timestamp base) (lww_timestamp r)) eqn:Hb; intros Heq;
    destruct (LamportTime_le (lww_timestamp a) (lww_timestamp r)) eqn:Hc; try done;
    rewrite ?Heq in *; lamport; apply LamportTime_ext; lia.
Qed.

Lemma LWWRegister_laws : @CrdtLaws _ _ LWWRegister_crdt.
Proof.
  split; simpl; unfold equiv; simpl.
  - split; [done|intros a b [? ?]; by split|intros a b c [? ?] [? ?]; split; congruence].
  - apply lww_agrees_merge.
  - intros a a' b b' ???? [_ H1] [_ H2]. apply lww_equiv_timestamp; [by apply lww_agrees_merge..|].
    by rewrite !lww_timestamp_merge, H1, H2.
  - intros a b c ???. apply lww_equiv_timestamp; [repeat apply lww_agrees_merge; done..|].
    rewrite !lww_timestamp_merge. apply join_assoc.
  - intros a b ??. apply lww_equiv_timestamp; [by apply lww_agrees_merge..|].
    rewrite !lww_timestamp_merge. apply join_comm.
  - intros a ?. apply lww_equiv_timestamp; [by apply lww_agrees_merge|done|].
    rewrite !lww_timestamp_merge. apply join_idemp.
  - intros a b _ _ [? _]. done.
  - intros a base d Ha. unfold LWWRegister_delta_since. case_match; [|done]. by intros [= <-].
  - intros a base r ??? [_ Hle]. by apply LWWRegister_delta_merge.
Qed.
End lww.

(** ** LWWRegister: wire format *)

Definition lww_ok (r : LWWRegister bytes) : Prop :=
  string_ok (lww_value r) ∧ lt_counter (lww_timestamp r) < U64 ∧ lc_node_id (lww_clock r) < U64.

(** What a register becomes on the wire. *)
Definition lww_sent (r : LWWRegister bytes) : LWWRegister bytes :=
  mkLWWRegister (lww_value r)
    (mkLamportTime (lt_counter (lww_timestamp r)) (lc_node_id (lww_clock r)))
    (mkLamportClock (lc_node_id (lww_clock r)) (lt_counter (lww_timestamp r))).

Lemma lww_from_to_bytes r : lww_ok r → LWWRegister_from_bytes (LWWRegister_to_bytes r) = Some (lww_sent r).
Proof.
  intros ([Hutf Hlen] & Hc & Hn).
  assert (fits (LWWRegister_to_bytes r)) as Hfit.
  { unfold fits, LWWRegister_to_bytes. autorewrite with nula. word_lia. }
  apply at_rest_start in Hfit. revert Hfit. generalize (LWWRegister_to_bytes r) at 1 3 as bs.
  intros bs Hat. unfold LWWRegister_to_bytes in Hat. rewrite as_u32_small in Hat by done.
  pose proof (at_rest_le _ _ _ Hat) as Hle.
  autorewrite with nula in Hle.
  destruct (at_rest_be64 _ _ _ _ Hat Hn) as [H1 Hat1].
  destruct (at_rest_be64 _ _ _ _ Hat1 Hc) as [H2 Hat2].
  destruct (at_rest_be32 _ _ _ _ Hat2 ltac:(done)) as [H3 Hat3].
  destruct (at_rest_be32 _ _ _ _ Hat3 Hlen) as [H4 Hat4].
  rewrite <-(app_nil_r (lww_value r)) in Hat4.
  destruct (at_rest_raw _ _ _ _ Hat4) as [H5 _].
  change (be64 bs 8 = lt_counter (lww_timestamp r)) in H2. change (be32 bs 16 = 0) in H3.
  change (be32 bs 20 = len (lww_value r)) in H4.
  change (slice bs 24 (24 + len (lww_value r)) = lww_value r) in H5.
  unfold LWWRegister_from_bytes. case_if; [lia|]. rewrite H1, H2, H3, H4. simpl.
  case_if; [lia|]. rewrite H5. unfold from_utf8. by rewrite Hutf.
Qed.

(** [C28] What a last-write-wins register becomes on the wire: the value and the
    stamp's counter arrive unchanged, but the stamp's node is replaced by the
    sender's node id and the clock's counter by the stamp's.  The round trip
    is the identity exactly when the register holds its own node's latest
    write and its clock has not moved past it. *)
Theorem lww_wire (r : LWWRegister bytes) :
  lww_ok r →
  LWWRegister_from_bytes (LWWRegister_to_bytes r) =
    Some (mkLWWRegister (lww_value r)
      (mkLamportTime (lt_counter (lww_timestamp r)) (lc_node_id (lww_clock r)))
      (mkLamportClock (lc_node_id (lww_clock r)) (lt_counter (lww_timestamp r)))) ∧
  (LWWRegister_from_bytes (LWWRegister_to_bytes r) = Some r ↔
     lt_node_id (lww_timestamp r) = lc_node_id (lww_clock r) ∧
     lc_counter (lww_clock r) = lt_counter (lww_timestamp r)).
Proof.
  intros Hok. rewrite lww_from_to_bytes by done. split; [done|].
  destruct r as [v [c n] [m k]]; unfold lww_sent; simpl. naive_solver.
Qed.

(** The register of node 3 with the write of node 1: its clock is ahead of the
    stamp, and what arrives has neither. *)
Lemma lww_wire_witness :
  let r := mkLWWRegister [98] (mkLamportTime 5 1) (mkLamportClock 3 9) in
  LWWRegister_from_bytes (LWWRegister_to_bytes r) =
    Some (mkLWWRegister [98] (mkLamportTime 5 3) (mkLamportClock 3 5)) ∧
  LWWRegister_from_bytes (LWWRegister_to_bytes r) ≠ Some r.
Proof.
  destruct (lww_wire (mkLWWRegister [98] (mkLamportTime 5 1) (mkLamportClock 3 9))) as [Heq Hid]; [by vm_compute|].
  split; [exact Heq|]. intros [Hn _]%Hid. discriminate Hn.
Defined.

(** ** LWWRegister: the last write wins *)

(** [CrdtManager::apply_op]: a payload is merged into the register, or becomes
    the register of a node that has none; one that does not decode is dropped. *)
Definition LWWRegister_set_local_node_id (self : LWWRegister bytes) (node_id : N) : LWWRegister bytes :=
  mkLWWRegister (lww_value self) (lww_timestamp self) (mkLamportClock node_id (lc_counter (lww_clock self))).

Definition lww_apply_op (node_id : N) (entry : option (LWWRegister bytes)) (payload : bytes) : option (LWWRegister bytes) :=
  match LWWRegister_from_bytes payload, entry with
  | Some other, Some self => Some (LWWRegister_merge self other)
  | Some other, None => Some (LWWRegister_set_local_node_id other node_id)
  | None, _ => entry
  end.

(** A cluster in which registers travel as bytes, and what the nodes and the
    payloads have seen of the writes: the abstract state.  A payload can be
    taken late, many times, in any order, or never. *)
Inductive lww_op := LCreate (n : N) (v : bytes) | LWrite (n : N) (v : bytes) | LSend (n : N) | LReceive (n : N) (k : nat).

Abbreviation writes := (gmap LamportTime bytes).

Record lww_state := mkLww {
  ls_reg : N → option (LWWRegister bytes);
  ls_seen : N → writes;
  ls_net : list (bytes * writes);
}.

Definition lww_start : lww_state := mkLww (λ _, None) (λ _, ∅) [].

Definition lww_put (st : lww_state) (n : N) (r : LWWRegister bytes) (seen : writes) : lww_state :=
  mkLww (set_replica (ls_reg st) n (Some r)) (set_replica (ls_seen st) n seen) (ls_net st).

Definition lww_exec (st : lww_state) (o : lww_op) : lww_state :=
  match o with
  | LCreate n v =>
      match ls_reg st n with
      | None => let r := LWWRegister_new n v in lww_put st n r {[lww_timestamp r := v]}
      | Some _ => st
      end
  | LWrite n v =>
      match ls_reg st n with
      | Some r => let r := LWWRegister_write r v in lww_put st n r (<[lww_timestamp r := v]> (ls_seen st n))
      | None => st
      end
  | LSend n =>
      match ls_reg st n with
      | Some r => mkLww (ls_reg st) (ls_seen st) (ls_net st ++ [(LWWRegister_to_bytes r, ls_seen st n)])
      | None => st
      end
  | LReceive n k =>
      match ls_net st !! k with
      | Some (payload, seen) =>
          match lww_apply_op n (ls_reg st n) payload with
          | Some r => lww_put st n r (ls_seen st n ∪ seen)
          | None => st
          end
      | None => st
      end
  end.

Definition lww_run (ops : list lww_op) : lww_state := foldl lww_exec lww_start ops.

(** Values are strings, and ids are of 64 bits. *)
Definition lww_op_ok (o : lww_op) : Prop :=
  match o with LCreate _ v | LWrite _ v => string_ok v | LSend n => n < U64 | LReceive _ _ => True end.

(** The register holds one of the newest writes among those seen: no other has
    a larger counter. *)
Definition newest_write (r : LWWRegister bytes) (seen : writes) : Prop :=
  (∃ t, seen !! t = Some (lww_value r) ∧ lt_counter t = lt_counter (lww_timestamp r)) ∧
  ∀ t v, seen !! t = Some v → lt_counter t ≤ lt_counter (lww_timestamp r).

(** A register below a bound that may be sent. *)
Record lww_good (k : N) (r : LWWRegister bytes) (seen : writes) : Prop := {
  lg_bound : lt_counter (lww_timestamp r) ≤ lc_counter (lww_clock r) ≤ k;
  lg_newest : newest_write r seen;
  lg_string : string_ok (lww_value r);
}.

(** What is seen by a node or a payload. *)
Definition lww_holds (st : lww_state) (seen : writes) : Prop :=
  (∃ n, seen = ls_seen st n) ∨ ∃ payload, (payload, seen) ∈ ls_net st.

Record lww_inv (k : N) (st : lww_state) : Prop := {
  li_node : ∀ n r, ls_reg st n = Some r → lc_node_id (lww_clock r) = n ∧ lww_good k r (ls_seen st n);
  li_none : ∀ n, ls_reg st n = None → ls_seen st n = ∅;
  li_net : ∀ payload seen, (payload, seen) ∈ ls_net st →
    ∃ r, LWWRegister_from_bytes payload = Some r ∧ lww_good k r seen;
  li_clock : ∀ seen t v, lww_holds st seen → seen !! t = Some v →
    ∃ r, ls_reg st (lt_node_id t) = Some r ∧ lt_counter t ≤ lc_counter (lww_clock r);
  li_agree : ∀ seen seen' t v v', lww_holds st seen → lww_holds st seen' →
    seen !! t = Some v → seen' !! t = Some v' → v = v';
}.

Lemma lww_good_mono k k' r seen : k ≤ k' → lww_good k r seen → lww_good k' r seen.
Proof. intros Hk [? ? ?]. split; [lia|done..]. Qed.

Lemma lww_inv_mono k k' st : k ≤ k' → lww_inv k st → lww_inv k' st.
Proof.
  intros Hk [Hnode Hnone Hnet Hclock Hagree]. split; try done.
  - intros n r Hr. destruct (Hnode n r Hr). split; [done|by eapply lww_good_mono].
  - intros payload seen Hin. destruct (Hnet _ _ Hin) as (r & ? & ?). exists r. split; [done|by eapply lww_good_mono].
Qed.

Lemma holds_put st n r seen' seen : lww_holds (lww_put st n r seen') seen → seen = seen' ∨ lww_holds st seen.
Proof.
  intros [[m ->]|Hp]; [|by right; right]. simpl. replica_goal n; [by left|]. right; left. by exists m.
Qed.

(** Putting a register in place: what it has seen is known, or is one write of
    its own with a new counter. *)
Lemma lww_inv_put k st n r seen : lww_inv k st → lc_node_id (lww_clock r) = n → lww_good k r seen →
  (∀ r0, ls_reg st n = Some r0 → lc_counter (lww_clock r0) ≤ lc_counter (lww_clock r)) →
  (∀ t v, seen !! t = Some v →
     (∃ s, lww_holds st s ∧ s !! t = Some v) ∨
     (t = lww_timestamp r ∧ v = lww_value r ∧ lt_node_id t = n ∧
      ∀ s v', lww_holds st s → s !! t = Some v' → False)) →
  lww_inv k (lww_put st n r seen).
Proof.
  intros [Hnode Hnone Hnet Hclock Hagree] Hid Hgood Hmono Hsrc. split; cbn [lww_put ls_reg ls_seen ls_net].
  - intros m r'. replica_goal n; [by intros [= <-]|apply Hnode].
  - intros m. replica_goal n; [done|apply Hnone].
  - done.
  - intros s t v Hs%holds_put Ht.
    assert (∀ s, lww_holds st s → s !! t = Some v → ∃ r', set_replica (ls_reg st) n (Some r) (lt_node_id t) = Some r' ∧
      lt_counter t ≤ lc_counter (lww_clock r')) as Hold.
    { intros s' Hs' Ht'. destruct (Hclock _ _ _ Hs' Ht') as (r' & Hr' & Hle). destruct (decide (lt_node_id t = n)) as [He|Hne].
      - rewrite He in *. exists r. rewrite set_replica_eq. split; [done|]. specialize (Hmono r' Hr'). lia.
      - exists r'. by rewrite set_replica_ne. }
    destruct Hs as [->|Hs]; [|by eapply Hold]. destruct (Hsrc t v Ht) as [(s' & ? & ?)|(-> & _ & He & _)]; [by eapply Hold|].
    rewrite He. exists r. rewrite set_replica_eq. split; [done|]. apply (lg_bound _ _ _ Hgood).
  - intros s s' t v v' Hs%holds_put Hs'%holds_put Ht Ht'.
    destruct Hs as [->|Hs], Hs' as [->|Hs']; [congruence|..|eauto].
    + destruct (Hsrc t v Ht) as [(s0 & ? & ?)|(_ & _ & _ & Hf)]; [by apply (Hagree s0 s' t)|]. exfalso; eauto.
    + destruct (Hsrc t v' Ht') as [(s0 & ? & ?)|(_ & _ & _ & Hf)]; [by apply (Hagree s s0 t)|]. exfalso; eauto.
Qed.

Lemma lww_inv_create k st n v : lww_inv k st → string_ok v → 1 ≤ k → lww_inv k (lww_exec st (LCreate n v)).
Proof.
  intros Hinv Hv Hk. cbn [lww_exec]. destruct (ls_reg st n) as [|] eqn:Hn; [done|].
  apply lww_inv_put; [done|done| |by rewrite Hn|].
  - split; [|split|done].
    + split; [done|]. by etrans; [|exact Hk].
    + eexists. split; [apply lookup_singleton_eq|done].
    + by intros t v' [<- _]%lookup_singleton_Some.
  - intros t v' [<- <-]%lookup_singleton_Some. right. split_and!; [done..|]. intros s v0 Hs Ht.
    destruct (li_clock _ _ Hinv _ _ _ Hs Ht) as (r & Hr & _). simpl in Hr. congruence.
Qed.

Lemma lww_inv_write k st n v :
  lww_inv k st → string_ok v → k + 1 < U64 → lww_inv (k + 1) (lww_exec st (LWrite n v)).
Proof.
  intros Hinv Hv Hk. cbn [lww_exec]. destruct (ls_reg st n) as [r|] eqn:Hn; [|by apply (lww_inv_mono k); [lia|]].
  destruct (li_node _ _ Hinv n r Hn) as [Hid [Hb [_ Hmax] _]].
  assert (LWWRegister_write r v = mkLWWRegister v (mkLamportTime (lc_counter (lww_clock r) + 1) n)
    (mkLamportClock n (lc_counter (lww_clock r) + 1))) as ->.
  { unfold LWWRegister_write, LamportClock_tick; simpl. by rewrite Hid, wrapping_add64_small by lia. }
  apply lww_inv_put; [apply (lww_inv_mono k); [lia|done]|done| |simpl|].
  - split; [simpl; lia| |done]. split; simpl.
    + eexists. split; [apply lookup_insert_eq|done].
    + intros t v'. rewrite lookup_insert. case_decide as Ht; [subst t; simpl; lia|]. intros ?%Hmax. lia.
  - intros r0. rewrite Hn. intros [= <-]. lia.
  - intros t v'. rewrite lookup_insert. case_decide as Ht; simpl in Ht.
    + intros [= <-]. subst t. right. split_and!; [done..|]. intros s v' Hs Ht.
      destruct (li_clock _ _ Hinv _ _ _ Hs Ht) as (r' & Hr' & Hle). simpl in *. rewrite Hn in Hr'. injection Hr' as <-. lia.
    + intros Hin. left. exists (ls_seen st n). split; [left; by exists n|done].
Qed.

Lemma lww_inv_send k st n : lww_inv k st → n < U64 → k < U64 → lww_inv k (lww_exec st (LSend n)).
Proof.
  intros Hinv Hn Hk. cbn [lww_exec]. destruct (ls_reg st n) as [r|] eqn:Hr; [|done].
  destruct (li_node _ _ Hinv n r Hr) as [Hid [Hb Hnew Hstr]]. destruct Hinv as [Hnode Hnone Hnet Hclock Hagree].
  assert (∀ seen, lww_holds (mkLww (ls_reg st) (ls_seen st) (ls_net st ++ [(LWWRegister_to_bytes r, ls_seen st n)])) seen →
    lww_holds st seen) as Hsub.
  { intros seen [?|[payload Hin]]; [by left|]. simpl in Hin. apply elem_of_app in Hin as [Hin|Hin%list_elem_of_singleton].
    - right. by exists payload.
    - left. exists n. by injection Hin. }
  split; cbn [ls_reg ls_seen ls_net]; [done|done|..].
  - intros payload seen [Hin|Hin%list_elem_of_singleton]%elem_of_app; [by apply Hnet|]. injection Hin as -> ->.
    exists (lww_sent r). split; [|by split; [simpl; lia|apply Hnew|]].
    apply lww_from_to_bytes. split_and!; [done|lia|by rewrite Hid].
  - intros seen t v Hs. by apply Hclock, Hsub.
  - intros s s' t v v' Hs Hs'. apply Hagree; by apply Hsub.
Qed.

Lemma newest_write_merge (a b : LWWRegister bytes) (sa sb : writes) :
  (∀ t v v', sa !! t = Some v → sb !! t = Some v' → v = v') →
  newest_write a sa → newest_write b sb → newest_write (LWWRegister_merge a b) (sa ∪ sb).
Proof.
  intros Hagree [(ta & Ha & Hta) Hma] [(tb & Hb & Htb) Hmb].
  assert (∀ t v, sb !! t = Some v → (sa ∪ sb) !! t = Some v) as Hr.
  { intros t v Ht. destruct (sa !! t) as [v'|] eqn:Hs.
    - rewrite lookup_union_l' by eauto. rewrite Hs. f_equal. eauto.
    - by rewrite lookup_union_r. }
  unfold LWWRegister_merge. destruct (LamportTime_gt (lww_timestamp b) (lww_timestamp a)) eqn:Hgt; split; simpl.
  - exists tb. split; [by apply Hr|done].
  - intros t v [Ht%Hma|[_ Ht%Hmb]]%lookup_union_Some_raw; [|done]. lamport.
  - exists ta. split; [by apply lookup_union_Some_l|done].
  - intros t v [Ht%Hma|[_ Ht%Hmb]]%lookup_union_Some_raw; [done|]. lamport.
Qed.

Lemma lww_good_merge k a b sa sb : (∀ t v v', sa !! t = Some v → sb !! t = Some v' → v = v') →
  lww_good k a sa → lww_good k b sb → lww_good k (LWWRegister_merge a b) (sa ∪ sb).
Proof.
  intros Hagree [Hba Hna Hsa] [Hbb Hnb Hsb]. split; [|by apply newest_write_merge|].
  2: { unfold LWWRegister_merge. by destruct (LamportTime_gt _ _). }
  rewrite lww_timestamp_merge. unfold LWWRegister_merge, LamportTime_max. repeat case_match; simpl; lia.
Qed.

Lemma lww_inv_receive k st n j : lww_inv k st → lww_inv k (lww_exec st (LReceive n j)).
Proof.
  intros Hinv. cbn [lww_exec]. destruct (ls_net st !! j) as [[payload seen]|] eqn:Hj; [|done].
  apply list_elem_of_lookup_2 in Hj. destruct (li_net _ _ Hinv _ _ Hj) as (o & Ho & Hgood). unfold lww_apply_op. rewrite Ho.
  assert (lww_holds st (ls_seen st n)) as Hn by (left; by exists n).
  assert (lww_holds st seen) as Hp by (right; by exists payload).
  assert (∀ t v, (ls_seen st n ∪ seen) !! t = Some v → ∃ s, lww_holds st s ∧ s !! t = Some v) as Hsrc.
  { intros t v [?|[_ ?]]%lookup_union_Some_raw; eauto. }
  destruct (ls_reg st n) as [r|] eqn:Hr.
  - destruct (li_node _ _ Hinv n r Hr) as [Hid Hg]. apply lww_inv_put; [done| | | |intros; left; by apply Hsrc].
    + unfold LWWRegister_merge. by destruct (LamportTime_gt _ _).
    + apply lww_good_merge; [|done..]. intros t v v'. by apply (li_agree _ _ Hinv (ls_seen st n) seen).
    + intros r0. rewrite Hr. intros [= <-]. unfold LWWRegister_merge. destruct (LamportTime_gt _ _); simpl; lia.
  - apply lww_inv_put; [done|done| |by rewrite Hr|intros; left; by apply Hsrc].
    rewrite (li_none _ _ Hinv n Hr), (left_id_L ∅ (∪)). destruct Hgood. by split.
Qed.

Lemma lww_inv_run ops : len ops + 1 < U64 → Forall lww_op_ok ops → lww_inv (len ops + 1) (lww_run ops).
Proof.
  intros Hlen. induction ops as [|o ops IH] using rev_ind; unfold lww_run in *; intros Hops.
  - assert (∀ s, lww_holds lww_start s → s = ∅) as Hs by (intros s [[n ->]|[? ?%not_elem_of_nil]]; done).
    split; simpl; [done|done|by intros ? ? ?%not_elem_of_nil|..].
    + intros s t v ->%Hs. by rewrite lookup_empty.
    + intros s s' t v v' ->%Hs _. by rewrite lookup_empty.
  - rewrite foldl_app, len_app, len_cons, len_nil in *. cbn [foldl]. apply Forall_app in Hops as [Hops [Ho _]%Forall_cons].
    replace (len ops + (1 + 0) + 1) with (len ops + 1 + 1) by lia.
    assert (lww_inv (len ops + 1) (foldl lww_exec lww_start ops)) as Hinv by (apply IH; [lia|done]).
    destruct o as [n v|n v|n|n j]; [|by apply lww_inv_write; [| |lia]|..]; (apply (lww_inv_mono (len ops + 1)); [lia|]).
    + apply lww_inv_create; [done..|lia].
    + apply lww_inv_send; [done..|lia].
    + by apply lww_inv_receive.
Qed.

(** [C27] Last write wins.  In every run of a cluster in which registers are
    created, written, sent as bytes and received late, repeatedly, out of order
    or never (shorter than 2^64 - 1 steps), each register holds, among all the
    writes its node has seen directly or through others, one with the largest
    counter; a new write gets a larger counter than all writes its node has
    seen; so two nodes that have seen the same writes, of which one has the
    largest counter alone, hold the value of that write.  Of concurrent writes
    with one counter, nodes may keep different ones: see
    [lww_forwarding_diverges]. *)
Theorem lww_last_write_wins (ops : list lww_op) :
  len ops + 1 < U64 → Forall lww_op_ok ops →
  let st := lww_run ops in
  (∀ n r, ls_reg st n = Some r → newest_write r (ls_seen st n)) ∧
  (∀ n r v t v', ls_reg st n = Some r → lc_counter (lww_clock r) + 1 < U64 → ls_seen st n !! t = Some v' →
     lt_counter t < lt_counter (lww_timestamp (LWWRegister_write r v))) ∧
  (∀ n m r r' t v, ls_reg st n = Some r → ls_reg st m = Some r' → ls_seen st n = ls_seen st m →
     ls_seen st n !! t = Some v →
     (∀ t' v', ls_seen st n !! t' = Some v' → t' ≠ t → lt_counter t' < lt_counter t) →
     LWWRegister_read r = v ∧ LWWRegister_read r' = v).
Proof.
  intros Hlen Hops st. destruct (lww_inv_run ops Hlen Hops) as [Hnode _ _ _ _]. fold st in Hnode.
  assert (∀ n r, ls_reg st n = Some r → newest_write r (ls_seen st n)) as Hnew by (intros n r [_ []]%Hnode; done).
  assert (∀ (r : LWWRegister bytes) (s : writes) t v, newest_write r s → s !! t = Some v →
     (∀ t' v', s !! t' = Some v' → t' ≠ t → lt_counter t' < lt_counter t) → LWWRegister_read r = v) as Hread.
  { intros r s t v [(t0 & Ht0 & Heq) Hmax] Ht Hlt. pose proof (Hmax t v Ht).
    destruct (decide (t0 = t)) as [->|Hne]; [unfold LWWRegister_read; congruence|]. pose proof (Hlt t0 _ Ht0 Hne). lia. }
  split_and!; [done| |].
  - intros n r v t v' Hr Hc Ht. destruct (Hnode n r Hr) as [_ [Hb [_ Hmax] _]]. apply Hmax in Ht.
    unfold LWWRegister_write, LamportClock_tick; simpl. rewrite wrapping_add64_small by lia. lia.
  - intros n m r r' t v Hr Hr' Hsame Ht Hlt. split; [by eapply (Hread r (ls_seen st n)); eauto|].
    rewrite Hsame in *. by eapply (Hread r' (ls_seen st m)); eauto.
Qed.

Lemma lww_last_write_wins_witness :
  let st := lww_run [LCreate 1 [97]; LSend 1; LReceive 2 0; LWrite 2 [98]; LWrite 1 [99]; LWrite 1 [100]; LSend 2;
    LReceive 3 1; LSend 1; LReceive 3 2; LReceive 3 1] in
  ∃ r, ls_reg st 3 = Some r ∧ newest_write r (ls_seen st 3) ∧ LWWRegister_read r = [100].
Proof.
  destruct (lww_last_write_wins [LCreate 1 [97]; LSend 1; LReceive 2 0; LWrite 2 [98]; LWrite 1 [99]; LWrite 1 [100]; LSend 2;
    LReceive 3 1; LSend 1; LReceive 3 2; LReceive 3 1]) as (Hnew & _); [by vm_compute|by repeat constructor|].
  eexists. split; [vm_compute; reflexivity|]. split; [|by vm_compute]. apply Hnew. by vm_compute.
Defined.

(** Registers that travel through the wire format can diverge for good.  Nodes
    1 and 2 write concurrently with the same counter; node 3 takes node 1's
    write and forwards it to node 2 under its own id.  After that every
    exchange between nodes 2 and 3, in both directions, leaves node 2 with
    node 1's value and node 3 with node 2's. *)
Definition lww_take (r : LWWRegister bytes) (bs : bytes) : LWWRegister bytes :=
  default r (lww_apply_op (lc_node_id (lww_clock r)) (Some r) bs).

Theorem lww_forwarding_diverges :
  let r1 := LWWRegister_write (LWWRegister_new 1 []) [97] in
  let r2 := LWWRegister_write (LWWRegister_new 2 []) [98] in
  let r3 := lww_take (LWWRegister_new 3 []) (LWWRegister_to_bytes r1) in
  let r2' := lww_take r2 (LWWRegister_to_bytes r3) in
  let r3' := lww_take r3 (LWWRegister_to_bytes r2) in
  (LWWRegister_read r2' = [97] ∧ LWWRegister_read r3' = [98]) ∧
  lww_take r2' (LWWRegister_to_bytes r3') = r2' ∧
  lww_take r3' (LWWRegister_to_bytes r2') = r3'.
Proof. by vm_compute. Qed.

(** ** MVRegister: laws *)

Section mv_laws.
Context {T : Type} `{Countable T}.
Implicit Types (s : gset (T * LamportTime)) (a b c r : MVRegister T).
Local Abbreviation ctr e := (lt_counter (snd e)).

Lemma max_counter_ge s e : e ∈ s → ctr e ≤ max_counter s.
Proof.
  unfold max_counter. rewrite <-elem_of_elements. generalize (elements s) as l.
  induction l as [|x l IH]; [set_solver|]. cbn [foldr].
  intros [->|?%IH]%elem_of_cons; lia.
Qed.

Lemma max_counter_attained s : s ≠ ∅ → ∃ e, e ∈ s ∧ ctr e = max_counter s.
Proof.
  intros Hne. unfold max_counter. setoid_rewrite <-elem_of_elements.
  assert (elements s ≠ []) as Hl by (by intros ?%elements_empty_inv%leibniz_equiv).
  revert Hl. generalize (elements s) as l. induction l as [|x l IH]; [done|]. intros _. cbn [foldr].
  destruct (decide (l = [])) as [->|Hl].
  - exists x. split; [left|]. simpl. lia.
  - destruct (IH Hl) as (e & He & Heq). rewrite <-Heq.
    destruct (decide (ctr x ≤ ctr e)); [exists e; split; [by right|lia]|exists x; split; [left|lia]].
Qed.

Lemma elem_of_max_filter s e :
  e ∈ filter (λ e, ctr e = max_counter s) s ↔ e ∈ s ∧ ∀ x, x ∈ s → ctr x ≤ ctr e.
Proof.
  rewrite elem_of_filter. split.
  - intros [-> He]. split; [done|]. intros x. apply max_counter_ge.
  - intros [He Hmax]. split; [|done]. destruct (max_counter_attained s) as (y & Hy & Heq).
    { set_solver. }
    pose proof (Hmax y Hy). pose proof (max_counter_ge s e He). lia.
Qed.

(** A merge keeps the entries of both sides with the greatest counter. *)
Lemma elem_of_mv_merge a b e :
  e ∈ mv_values (MVRegister_merge a b) ↔
  (e ∈ mv_values a ∨ e ∈ mv_values b) ∧
  ∀ x, x ∈ mv_values a ∨ x ∈ mv_values b → ctr x ≤ ctr e.
Proof.
  unfold MVRegister_merge; simpl. rewrite elem_of_max_filter.
  setoid_rewrite elem_of_foldl_insert. setoid_rewrite elem_of_elements. done.
Qed.

Lemma mv_merge_above a b x :
  x ∈ mv_values a ∨ x ∈ mv_values b → ∃ z, z ∈ mv_values (MVRegister_merge a b) ∧ ctr x ≤ ctr z.
Proof.
  intros Hx. set (u := mv_values a ∪ mv_values b).
  destruct (max_counter_attained u) as (z & Hz & Heq); [set_solver|].
  assert (∀ y, y ∈ u → ctr y ≤ ctr z) by (intros; rewrite Heq; by apply max_counter_ge).
  exists z. rewrite elem_of_mv_merge. set_solver.
Qed.

Lemma mv_merge_assoc3 a b c e :
  e ∈ mv_values (MVRegister_merge a (MVRegister_merge b c)) ↔
  (e ∈ mv_values a ∨ e ∈ mv_values b ∨ e ∈ mv_values c) ∧
  ∀ x, x ∈ mv_values a ∨ x ∈ mv_values b ∨ x ∈ mv_values c → ctr x ≤ ctr e.
Proof.
  rewrite elem_of_mv_merge. split.
  - intros [He Hmax]. split; [rewrite elem_of_mv_merge in He; tauto|].
    intros x [Hx|Hx]; [auto|]. destruct (mv_merge_above b c x Hx) as (z & Hz & Hxz).
    etrans; [exact Hxz|auto].
  - intros [He Hmax]. split.
    + destruct He as [He|He]; [by left|right]. rewrite elem_of_mv_merge. auto.
    + intros x [Hx|[Hx _]%elem_of_mv_merge]; auto.
Qed.

Lemma mv_merge_comm a b : mv_values (MVRegister_merge a b) = mv_values (MVRegister_merge b a).
Proof. apply set_eq. intros e. rewrite !elem_of_mv_merge. naive_solver. Qed.

(** All entries carry one counter, not ahead of the clock. *)
Definition mv_wf a : Prop :=
  (∀ x y, x ∈ mv_values a → y ∈ mv_values a → ctr x = ctr y) ∧
  (∀ x, x ∈ mv_values a → ctr x ≤ lc_counter (mv_clock a)).

#[export] Instance MVRegister_equiv : Equiv (MVRegister T) :=
  λ a b, mv_values a = mv_values b.

#[export] Instance MVRegister_crdt : Crdt (MVRegister T) (gset T) := {
  crdt_wf := mv_wf;
  crdt_equiv := MVRegister_equiv;
  crdt_merge := MVRegister_merge;
  crdt_value := MVRegister_read;
  crdt_delta_since := MVRegister_delta_since;
}.

Lemma mv_merge_wf a b : mv_wf a → mv_wf b → mv_wf (MVRegister_merge a b).
Proof.
  intros [_ Ha] [_ Hb]. split.
  - intros x y [Hx Hxm]%elem_of_mv_merge [Hy Hym]%elem_of_mv_merge.
    pose proof (Hxm y Hy). pose proof (Hym x Hx). lia.
  - intros x [[Hx%Ha|Hx%Hb] _]%elem_of_mv_merge; simpl; lia.
Qed.

Lemma mv_merge_idemp a e :
  mv_wf a → e ∈ mv_values (MVRegister_merge a a) ↔ e ∈ mv_values a.
Proof.
  intros [Heq _]. rewrite elem_of_mv_merge. split; [tauto|]. intros He. split; [tauto|].
  intros x Hx. rewrite (Heq x e); [done|tauto|done].
Qed.

Lemma mv_delta_merge a base r e cl :
  mv_values (MVRegister_merge r base) = mv_values r →
  e ∈ mv_values (MVRegister_merge r (mkMVRegister (mv_values a ∖ mv_values base) cl)) ↔
  e ∈ mv_values (MVRegister_merge r a).
Proof.
  intros Hle. rewrite !elem_of_mv_merge. cbn [mv_values].
  assert (∀ y, y ∈ mv_values base → ∃ z, z ∈ mv_values r ∧ ctr y ≤ ctr z) as Hbase.
  { intros y Hy. rewrite <-Hle. apply mv_merge_above. by right. }
  split.
  - intros [He Hmax]. split; [set_solver|]. intros x Hx.
    destruct (decide (x ∈ mv_values base)) as [Hxb|]; [|set_solver].
    destruct (Hbase x Hxb) as (z & Hz & Hxz). etrans; [exact Hxz|]. apply Hmax. by left.
  - intros [He Hmax]. split; [|set_solver].
    destruct (decide (e ∈ mv_values base)) as [Heb|]; [|set_solver]. left.
    rewrite <-Hle, elem_of_mv_merge. split; [by right|].
    intros x [Hx|Hx]; [apply Hmax; by left|].
    destruct (Hbase x Hx) as (z & Hz & Hxz). etrans; [exact Hxz|]. apply Hmax. by left.
Qed.

#[export] Instance MVRegister_laws : CrdtLaws (MVRegister T) (gset T).
Proof.
  split; simpl; unfold equiv; simpl; unfold MVRegister_equiv.
  - split; [done|by intros a b ->|by intros a b c -> ->].
  - apply mv_merge_wf.
  - intros a a' b b' ???? H1 H2. apply set_eq. intros e. by rewrite !elem_of_mv_merge, H1, H2.
  - intros a b c ???. apply set_eq. intros e.
    rewrite (mv_merge_comm (MVRegister_merge a b) c), !mv_merge_assoc3. naive_solver.
  - intros a b ??. apply mv_merge_comm.
  - intros a ?. apply set_eq. intros e. by apply mv_merge_idemp.
  - intros a b _ _ Heq. unfold MVRegister_read. by rewrite Heq.
  - intros a base d [Ha Hc]. unfold MVRegister_delta_since. case_decide; [done|].
    intros [= <-]. split; simpl; set_solver.
  - intros a base r ? ? [Hr _] Hle. apply set_eq. intros e.
    rewrite <-(mv_delta_merge a base r e (mv_clock a)) by exact Hle.
    unfold MVRegister_delta_since, merge_delta. case_decide as Hd; [|done].
    rewrite Hd, elem_of_mv_merge. cbn [mv_values]. split; [|set_solver].
    intros He. split; [by left|]. intros x [Hx|?]; [|set_solver]. by rewrite (Hr x e).
Qed.
End mv_laws.

(** ** MVRegister: reads and wire format *)

Lemma mv_read_wf {T} `{Countable T} (a : MVRegister T) :
  mv_wf a → MVRegister_read a = set_map fst (mv_values a).
Proof.
  intros [Ha _]. unfold MVRegister_read. f_equal. apply set_eq. intros e.
  rewrite elem_of_max_filter. split; [tauto|]. intros He. split; [done|].
  intros x Hx. by rewrite (Ha x e).
Qed.

Lemma mv_write_values {T} `{Countable T} (a : MVRegister T) v :
  mv_wf a → lc_counter (mv_clock a) + 1 < U64 →
  MVRegister_write a v = mkMVRegister
    {[(v, mkLamportTime (lc_counter (mv_clock a) + 1) (lc_node_id (mv_clock a)))]}
    (mkLamportClock (lc_node_id (mv_clock a)) (lc_counter (mv_clock a) + 1)).
Proof.
  intros [_ Ha] Hk. unfold MVRegister_write, LamportClock_tick.
  rewrite wrapping_add64_small by done. f_equal.
  assert (filter (λ e, lc_counter (mv_clock a) + 1 ≤ lt_counter e.2) (mv_values a) = ∅) as Hnone.
  { apply set_eq. intros x. rewrite elem_of_filter. split; [intros [? Hx%Ha]; lia|set_solver]. }
  cbn [lt_counter]. rewrite Hnone. apply (right_id_L ∅ (∪)).
Qed.

Section mv_reads.
Context {T : Type} `{Countable T}.
Implicit Types a b c : MVRegister T.

Lemma mv_wf_counter c x :
  mv_wf c → x ∈ mv_values c → lt_counter x.2 = max_counter (mv_values c).
Proof.
  intros [Hc _] Hx. destruct (max_counter_attained (mv_values c)) as (y & Hy & <-);
    [set_solver|]. by apply Hc.
Qed.

Lemma mv_write_wf a v : mv_wf a → lc_counter (mv_clock a) + 1 < U64 → mv_wf (MVRegister_write a v).
Proof.
  intros. rewrite mv_write_values by done. split; simpl; [set_solver|].
  intros x ->%elem_of_singleton. simpl. lia.
Qed.

Lemma mv_merge_equal a b :
  mv_wf a → mv_wf b → max_counter (mv_values a) = max_counter (mv_values b) →
  mv_values (MVRegister_merge a b) = mv_values a ∪ mv_values b.
Proof.
  intros Ha Hb Heq. apply set_eq. intros e. rewrite elem_of_mv_merge, elem_of_union.
  split; [tauto|]. intros He. split; [done|].
  assert (∀ x, x ∈ mv_values a ∨ x ∈ mv_values b → lt_counter x.2 = max_counter (mv_values a)) as Hx.
  { intros x [?|?]; [by apply mv_wf_counter|]. rewrite Heq. by apply mv_wf_counter. }
  intros x ?. rewrite !Hx by done. done.
Qed.

Lemma mv_merge_greater a b :
  mv_wf a → mv_wf b → max_counter (mv_values a) < max_counter (mv_values b) →
  mv_values (MVRegister_merge a b) = mv_values b.
Proof.
  intros Ha Hb Hlt. apply set_eq. intros e. rewrite elem_of_mv_merge.
  destruct (max_counter_attained (mv_values b)) as (y & Hy & Hymax).
  { intros Hempty. rewrite Hempty in Hlt. unfold max_counter in Hlt at 2.
    rewrite elements_empty in Hlt. simpl in Hlt. lia. }
  split.
  - intros [[He|He] Hmax]; [|done]. specialize (Hmax y (or_intror Hy)).
    rewrite (mv_wf_counter a e Ha He) in Hmax. lia.
  - intros He. split; [by right|]. rewrite (mv_wf_counter b e Hb He).
    intros x [Hx|Hx]; [rewrite (mv_wf_counter a x Ha Hx)|rewrite (mv_wf_counter b x Hb Hx)]; lia.
Qed.

Lemma mv_merge_write b a v :
  mv_wf a → mv_wf b → lc_counter (mv_clock a) + 1 < U64 →
  lc_counter (mv_clock b) ≤ lc_counter (mv_clock a) →
  mv_values (MVRegister_merge b (MVRegister_write a v)) =
    {[(v, mkLamportTime (lc_counter (mv_clock a) + 1) (lc_node_id (mv_clock a)))]}.
Proof.
  intros Ha [_ Hb] Hk Hclk.
  apply set_eq. intros e. rewrite elem_of_mv_merge, mv_write_values by done. cbn [mv_values].
  rewrite elem_of_singleton. split.
  - intros [[He|He] Hmax]; [|done].
    specialize (Hmax _ (or_intror (proj2 (elem_of_singleton _ _) eq_refl))). simpl in Hmax.
    apply Hb in He. lia.
  - intros ->. split; [right; set_solver|]. intros x [Hx%Hb| ->%elem_of_singleton]; simpl; lia.
Qed.
End mv_reads.

(** [C29] What a multi-value register reads.  After a write only the written
    value is left; after a merge of registers on the same counter both sides'
    values are read (a detectable conflict); otherwise the side with the
    greater counter wins; and a write by a replica whose clock is not behind
    replaces whatever the merging side held.  Writes and merges keep the
    invariant that all retained entries carry one counter. *)
Theorem mv_reads {T} `{Countable T} (a b : MVRegister T) (v : T) :
  mv_wf a → mv_wf b → lc_counter (mv_clock a) + 1 < U64 →
  mv_wf (MVRegister_write a v) ∧ mv_wf (MVRegister_merge a b) ∧
  MVRegister_read (MVRegister_write a v) = {[v]} ∧
  (max_counter (mv_values a) = max_counter (mv_values b) →
     MVRegister_read (MVRegister_merge a b) = MVRegister_read a ∪ MVRegister_read b) ∧
  (max_counter (mv_values a) < max_counter (mv_values b) →
     MVRegister_read (MVRegister_merge a b) = MVRegister_read b) ∧
  (lc_counter (mv_clock b) ≤ lc_counter (mv_clock a) →
     MVRegister_read (MVRegister_merge b (MVRegister_write a v)) = {[v]}).
Proof.
  intros Ha Hb Hk.
  assert (mv_wf (MVRegister_write a v)) as Hw by (by apply mv_write_wf).
  assert (mv_wf (MVRegister_merge a b)) as Hm by (by apply mv_merge_wf).
  assert (mv_wf (MVRegister_merge b (MVRegister_write a v))) as Hm' by (by apply mv_merge_wf).
  split_and!; [done|done|intros..]; rewrite !mv_read_wf by done.
  - rewrite mv_write_values by done. cbn [mv_values]. by rewrite set_map_singleton_L.
  - by rewrite mv_merge_equal, set_map_union_L.
  - by rewrite mv_merge_greater.
  - by rewrite mv_merge_write, set_map_singleton_L.
Qed.

Lemma mv_reads_witness :
  let a := MVRegister_write (MVRegister_new 1) [97] in
  let b := MVRegister_write (MVRegister_new 2) [98] in
  MVRegister_read (MVRegister_merge a b) = MVRegister_read a ∪ MVRegister_read b ∧
  MVRegister_is_conflicted (MVRegister_merge a b) = true.
Proof.
  intros a b. split; [|by vm_compute].
  assert (∀ n, mv_wf (MVRegister_new n : MVRegister bytes)) as Hnew by (split; set_solver).
  apply (mv_reads a b []); [by apply mv_write_wf; [apply Hnew|]|by apply mv_write_wf; [apply Hnew|]
    |done|by vm_compute].
Defined.

Definition mv_frame (e : bytes * LamportTime) : bytes :=
  to_be_bytes 8 (lt_counter e.2) ++ to_be_bytes 8 (lt_node_id e.2) ++ string_frame e.1.

Definition mv_ok (r : MVRegister bytes) : Prop :=
  lc_node_id (mv_clock r) < U64 ∧ lc_counter (mv_clock r) < U64 ∧
  N.of_nat (size (mv_values r)) < U32 ∧
  ∀ e, e ∈ mv_values r → string_ok e.1 ∧ lt_counter e.2 < U64 ∧ lt_node_id e.2 < U64.

Lemma reads_mv_value (e : bytes * LamportTime) (acc : gset (bytes * LamportTime)) :
  string_ok e.1 → lt_counter e.2 < U64 → lt_node_id e.2 < U64 →
  reads (λ bs pos, MVRegister_read_value bs (acc, pos)) (mv_frame e) ({[e]} ∪ acc).
Proof.
  destruct e as [v [c n]]. intros [Hutf Hlen] Hc Hn bs pos rest Hat. cbn [fst snd] in *.
  unfold mv_frame, string_frame in Hat. cbn [fst snd lt_counter lt_node_id] in *.
  rewrite <-!(assoc_L (++)), as_u32_small in Hat by done.
  pose proof (at_rest_le _ _ _ Hat) as Hle. autorewrite with nula in Hle.
  destruct (at_rest_be64 _ _ _ _ Hat Hc) as [H1 Hat1].
  destruct (at_rest_be64 _ _ _ _ Hat1 Hn) as [H2 Hat2].
  replace (pos + 8 + 8) with (pos + 16) in Hat2 by lia.
  destruct (at_rest_be32 _ _ _ _ Hat2 Hlen) as [H3 Hat3].
  destruct (at_rest_raw _ _ _ _ Hat3) as [H4 Hat4].
  unfold MVRegister_read_value. cbn zeta. case_if; [lia|]. case_if; [lia|]. rewrite H1, H2, H3.
  case_if; [lia|]. rewrite H4. unfold from_utf8. rewrite Hutf. by eexists.
Qed.

(** A multi-value register survives serialisation exactly -- values, their
    stamps and the clock -- for every traversal order of its hash set, when
    the fields fit their wire widths. *)
Theorem mv_roundtrip (it : list (bytes * LamportTime)) (r : MVRegister bytes) :
  it ≡ₚ elements (mv_values r) → mv_ok r → fits (MVRegister_to_bytes it r) →
  MVRegister_from_bytes (MVRegister_to_bytes it r) = Some r.
Proof.
  intros Hit (Hn & Hc & Hsz & Hok). unfold MVRegister_to_bytes.
  rewrite (foldl_push mv_frame) by done.
  rewrite as_u32_small, <-!(assoc_L (++)) by done. intros Hfit%at_rest_start. revert Hfit.
  generalize (to_be_bytes 8 (lc_node_id (mv_clock r)) ++ to_be_bytes 8 (lc_counter (mv_clock r)) ++
    to_be_bytes 4 (N.of_nat (size (mv_values r))) ++ encode_all mv_frame it) at 1 3 as bs.
  intros bs Hat. pose proof (at_rest_le _ _ _ Hat) as Hle. autorewrite with nula in Hle.
  destruct (at_rest_be64 _ _ _ _ Hat Hn) as [H1 Hat1].
  destruct (at_rest_be64 _ _ _ _ Hat1 Hc) as [H2 Hat2].
  destruct (at_rest_be32 _ _ _ _ Hat2 Hsz) as [H3 Hat3].
  change (be64 bs 8 = lc_counter (mv_clock r)) in H2.
  change (be32 bs 16 = N.of_nat (size (mv_values r))) in H3.
  change (at_rest bs 20 (encode_all mv_frame it)) in Hat3. clear Hat Hat1 Hat2.
  unfold MVRegister_from_bytes. case_if; [lia|]. rewrite H1, H2, H3.
  assert (N.to_nat (N.of_nat (size (mv_values r))) = length it) as Hlen.
  { rewrite Hit. unfold size, set_size; simpl. lia. }
  rewrite <-(app_nil_r (encode_all _ _)) in Hat3.
  read_field (reads_for mv_frame _ MVRegister_read_value _ it ∅ Hlen
    ltac:(intros e acc Hin; rewrite Hit, elem_of_elements in Hin;
          destruct (Hok e Hin) as (? & ? & ?); by apply reads_mv_value)).
  rewrite foldl_insert_set, (right_id_L ∅ (∪)), Hit, list_to_set_elements_L.
  by destruct r as [? []].
Qed.

Lemma mv_roundtrip_witness :
  let r := MVRegister_write (MVRegister_write (MVRegister_new 7) [97]) [98] in
  MVRegister_from_bytes (MVRegister_to_bytes [([98], mkLamportTime 2 7)] r) = Some r.
Proof.
  intros r. assert (mv_values r = {[([98], mkLamportTime 2 7)]}) as Hr by (by vm_compute).
  apply mv_roundtrip; [by rewrite Hr, elements_singleton| |by vm_compute].
  split_and!; [done..|by rewrite Hr|]. rewrite Hr. clear Hr r.
  by intros e ->%elem_of_singleton.
Defined.
