(* ===== verification/Rga.v ===== *)
(** * The replicated growable array

    [RGA] of [src/runtime/crdt_reg.rs]: a list of elements with unique ids,
    each anchored to a parent, deleted elements kept as tombstones. *)
From S2P Require Import Prelude Bytes CrdtClock CrdtCore.

Local Open Scope N_scope.

(** ** Data and operations *)

Record RGAElement (T : Type) := mkRGAElement {
  re_id : LamportTime;
  re_parent : option LamportTime;
  re_value : option T;
  re_timestamp : LamportTime;
}.
Arguments mkRGAElement {T}.
Arguments re_id {T}.
Arguments re_parent {T}.
Arguments re_value {T}.
Arguments re_timestamp {T}.

Record RGA (T : Type) := mkRGA {
  rga_elements : list (RGAElement T);
  rga_clock : LamportClock;
  rga_matrix : MatrixClock;
}.
Arguments mkRGA {T}.
Arguments rga_elements {T}.
Arguments rga_clock {T}.
Arguments rga_matrix {T}.

Section operations.
Context {T : Type}.
Implicit Types (els : list (RGAElement T)) (self other base : RGA T).

Definition RGA_new (node_id : N) : RGA T :=
  mkRGA [] (LamportClock_new node_id) (MatrixClock_new node_id).

(** [iter().position(|e| e.id == id)] *)
Definition position (id : LamportTime) els : option nat :=
  fst <$> list_find (λ e, re_id e = id) els.

(** The scans of [find_insert_position]: [pos] moves behind every element
    that satisfies [cond] and the loop breaks at the first that does not. *)
Fixpoint scan (cond : RGAElement T → bool) (pos i : nat) els : nat :=
  match els with
  | [] => pos
  | e :: els => if cond e then scan cond (S i) (S i) els else pos
  end.

Definition RGA_find_insert_position els (elem : RGAElement T) : nat :=
  match re_parent elem ≫= (λ pid, position pid els) with
  | None =>
      match re_parent elem with
      | None =>
          scan (λ e, bool_decide (re_parent e = None)
                     && LamportTime_le (re_timestamp e) (re_timestamp elem)) 0 0 els
      | Some _ => length els
      end
  | Some pidx =>
      scan (λ e, bool_decide (re_parent e = re_parent elem)
                 && LamportTime_le (re_timestamp e) (re_timestamp elem))
        (S pidx) (S pidx) (drop (S pidx) els)
  end.

(** [Vec::insert] at the position found. *)
Definition RGA_insert_element_sorted els (elem : RGAElement T) : list (RGAElement T) :=
  let pos := RGA_find_insert_position els elem in take pos els ++ elem :: drop pos els.

Definition RGA_insert_after self (parent : option LamportTime) (value : T) : LamportTime * RGA T :=
  let '(_, matrix) := MatrixClock_tick_local (rga_matrix self) in
  let '(id, clock) := LamportClock_tick (rga_clock self) in
  (id, mkRGA (RGA_insert_element_sorted (rga_elements self)
                (mkRGAElement id parent (Some value) id)) clock matrix).

Definition is_live (e : RGAElement T) : Prop := is_Some (re_value e).
#[export] Instance is_live_dec e : Decision (is_live e) := _.

Definition RGA_live self : list (RGAElement T) := filter is_live (rga_elements self).

Definition RGA_insert_at self (index : nat) (value : T) : LamportTime * RGA T :=
  let parent := match index with O => None | S i => re_id <$> RGA_live self !! i end in
  RGA_insert_after self parent value.

Definition RGA_delete self (id : LamportTime) : RGA T :=
  match list_find (λ e, re_id e = id) (rga_elements self) with
  | Some (i, elem) =>
      let '(c, matrix) := MatrixClock_tick_local (rga_matrix self) in
      mkRGA (<[i := mkRGAElement (re_id elem) (re_parent elem) None
                      (mkLamportTime c (lc_node_id (rga_clock self)))]> (rga_elements self))
        (rga_clock self) matrix
  | None => self
  end.

Definition RGA_delete_at self (index : nat) : RGA T :=
  match RGA_live self !! index with Some e => RGA_delete self (re_id e) | None => self end.

Definition RGA_get self (index : nat) : option T := RGA_live self !! index ≫= re_value.
Definition RGA_len self : N := len (RGA_live self).
Definition RGA_is_empty self : bool := RGA_len self =? 0.
Definition RGA_value self : list T := omap re_value (rga_elements self).

(** The loop body of [merge]. *)
Definition RGA_merge_element els (o : RGAElement T) : list (RGAElement T) :=
  match list_find (λ e, re_id e = re_id o) els with
  | Some (i, existing) =>
      if LamportTime_gt (re_timestamp o) (re_timestamp existing) then <[i := o]> els else els
  | None => RGA_insert_element_sorted els o
  end.

Definition RGA_merge self other : RGA T :=
  mkRGA (foldl RGA_merge_element (rga_elements self) (rga_elements other))
    (mkLamportClock (lc_node_id (rga_clock self))
       (N.max (lc_counter (rga_clock self)) (lc_counter (rga_clock other))))
    (MatrixClock_merge (rga_matrix self) (rga_matrix other)).

Definition RGA_delta_since self base : option (RGA T) :=
  let base_timestamps : gmap LamportTime LamportTime :=
    foldl (λ m e, <[re_id e := re_timestamp e]> m) ∅ (rga_elements base) in
  let elements := filter (λ e,
    match base_timestamps !! re_id e with
    | Some base_ts => LamportTime_gt (re_timestamp e) base_ts
    | None => true
    end = true) (rga_elements self) in
  match elements with
  | [] => None
  | _ => Some (mkRGA elements (rga_clock self) (rga_matrix self))
  end.

Definition RGA_gc_tombstones self (watermark : gmap N N) : RGA T :=
  mkRGA (filter (λ e, is_live e ∨
           default 0 (watermark !! lt_node_id (re_timestamp e)) < lt_counter (re_timestamp e))
           (rga_elements self))
    (rga_clock self) (rga_matrix self).
End operations.

(** ** Elements by id *)

Section by_id.
Context {T : Type}.
Implicit Types (els l : list (RGAElement T)) (a b c : RGA T) (e o x y : RGAElement T).

Definition ids els : list LamportTime := map re_id els.

(** The payload of an array: its elements by id, without their order. *)
Definition by_id els : gmap LamportTime (RGAElement T) :=
  list_to_map (map (λ e, (re_id e, e)) els).

Lemma by_id_cons e els : by_id (e :: els) = <[re_id e := e]> (by_id els).
Proof. done. Qed.

Lemma ids_fst els : (map (λ e, (re_id e, e)) els).*1 = ids els.
Proof. unfold ids. induction els; simpl; by f_equal. Qed.

Lemma by_id_Some els k e :
  NoDup (ids els) → by_id els !! k = Some e ↔ e ∈ els ∧ re_id e = k.
Proof.
  intros Hnd. unfold by_id. rewrite <-elem_of_list_to_map by (by rewrite ids_fst).
  rewrite list_elem_of_fmap. split.
  - intros (x & [= -> ->] & ?). done.
  - intros [? <-]. by exists e.
Qed.

Lemma by_id_None els k : by_id els !! k = None ↔ k ∉ ids els.
Proof. unfold by_id. rewrite <-not_elem_of_list_to_map, ids_fst. done. Qed.

Lemma by_id_perm els l : els ≡ₚ l → NoDup (ids els) → by_id els = by_id l.
Proof.
  intros Hp Hnd. unfold by_id. apply list_to_map_proper; [by rewrite ids_fst|].
  by apply Permutation_map.
Qed.

(** Which of two versions of an element survives a merge. *)
Definition newer x y : RGAElement T :=
  if LamportTime_gt (re_timestamp y) (re_timestamp x) then y else x.

Lemma insert_sorted_perm els e : RGA_insert_element_sorted els e ≡ₚ e :: els.
Proof.
  unfold RGA_insert_element_sorted. rewrite <-Permutation_middle.
  by rewrite take_drop.
Qed.

Lemma list_find_id els k i x :
  list_find (λ e, re_id e = k) els = Some (i, x) → els !! i = Some x ∧ re_id x = k.
Proof. intros (? & ? & _)%list_find_Some. done. Qed.

Lemma list_find_id_None els k :
  list_find (λ e, re_id e = k) els = None ↔ k ∉ ids els.
Proof.
  rewrite list_find_None, Forall_forall. unfold ids. rewrite list_elem_of_fmap. naive_solver.
Qed.

Lemma ids_insert els i x o : els !! i = Some x → re_id o = re_id x → ids (<[i := o]> els) = ids els.
Proof.
  intros Hi Hid. unfold ids. change (map re_id ?l) with (re_id <$> l).
  rewrite list_fmap_insert. apply list_insert_id. rewrite list_lookup_fmap, Hi. simpl. by f_equal.
Qed.

Lemma ids_merge_element els o :
  ids (RGA_merge_element els o) ≡ₚ if decide (re_id o ∈ ids els) then ids els else re_id o :: ids els.
Proof.
  unfold RGA_merge_element. destruct (list_find _ _) as [[i x]|] eqn:Hf.
  - apply list_find_id in Hf as [Hi Hid].
    assert (re_id o ∈ ids els).
    { rewrite <-Hid. apply list_elem_of_fmap. exists x. split; [done|]. by eapply list_elem_of_lookup_2. }
    rewrite decide_True by done. case_match; [|done]. by rewrite (ids_insert _ _ x).
  - apply list_find_id_None in Hf. rewrite decide_False by done. unfold ids.
    by rewrite insert_sorted_perm.
Qed.

Lemma NoDup_merge_element els o : NoDup (ids els) → NoDup (ids (RGA_merge_element els o)).
Proof.
  intros Hnd. rewrite ids_merge_element. case_decide; [done|]. by apply NoDup_cons.
Qed.

(** One step of the merge loop touches the slot of one id. *)
Lemma by_id_merge_element els o :
  NoDup (ids els) →
  by_id (RGA_merge_element els o) = upsert (λ _ old o, Some (default o ((λ x, newer x o) <$> old)))
                                      (by_id els) (re_id o) o.
Proof.
  intros Hnd. unfold RGA_merge_element. destruct (list_find _ _) as [[i x]|] eqn:Hf.
  - apply list_find_id in Hf as [Hi Hid].
    assert (by_id els !! re_id o = Some x) as Hx.
    { apply by_id_Some; [done|]. split; [by eapply list_elem_of_lookup_2|done]. }
    apply upsert_intro; rewrite ?Hx; simpl; unfold newer; case_match; try done.
    + intros j Hj. apply option_eq. intros e.
      rewrite !by_id_Some by (done || by rewrite (ids_insert _ _ x)).
      split; intros [He <-]; (split; [|done]).
      * apply list_elem_of_lookup in He as [k Hk].
        apply list_lookup_insert_Some in Hk as [(-> & <- & _)|[_ Hk]]; [done|].
        by eapply list_elem_of_lookup_2.
      * apply list_elem_of_lookup in He as [k Hk]. apply list_elem_of_lookup. exists k.
        rewrite list_lookup_insert_ne; [done|]. intros ->. naive_solver.
    + apply by_id_Some; [by rewrite (ids_insert _ _ x)|]. split; [|done].
      apply list_elem_of_lookup. exists i. apply list_lookup_insert_eq.
      by eapply lookup_lt_Some.
  - apply list_find_id_None in Hf.
    assert (NoDup (ids (o :: els))) as Hnd' by (by apply NoDup_cons).
    rewrite (by_id_perm _ (o :: els)), by_id_cons.
    + apply upsert_intro; [intros; by rewrite lookup_insert_ne|].
      apply by_id_None in Hf. by rewrite Hf, lookup_insert_eq.
    + apply insert_sorted_perm.
    + unfold ids. by rewrite insert_sorted_perm.
Qed.
End by_id.

(** ** Merge *)

Section merge.
Context {T : Type}.
Implicit Types (els l : list (RGAElement T)) (a b c r base : RGA T) (e o x y : RGAElement T).

Lemma merge_loop els l k :
  NoDup (ids els) → NoDup (ids l) →
  NoDup (ids (foldl RGA_merge_element els l)) ∧
  by_id (foldl RGA_merge_element els l) !! k = opt_join newer (by_id els !! k) (by_id l !! k).
Proof.
  revert els. induction l as [|o l IH]; intros els Hels Hl; cbn [foldl].
  { split; [done|]. unfold by_id at 3. simpl. rewrite lookup_empty. by destruct (_ !! k). }
  apply NoDup_cons in Hl as [Ho Hl].
  destruct (IH (RGA_merge_element els o)) as [Hnd Hk]; [by apply NoDup_merge_element|done|].
  split; [done|]. rewrite Hk, by_id_merge_element, by_id_cons by done. unfold upsert.
  destruct (decide (k = re_id o)) as [->|Hne].
  - apply by_id_None in Ho. rewrite lookup_partial_alter_eq, lookup_insert_eq, Ho.
    by destruct (by_id els !! re_id o).
  - by rewrite lookup_partial_alter_ne, lookup_insert_ne by done.
Qed.

Lemma sublist_insert_sorted els e : ids els `sublist_of` ids (RGA_insert_element_sorted els e).
Proof.
  unfold RGA_insert_element_sorted, ids. rewrite map_app. cbn [map].
  rewrite <-(take_drop (RGA_find_insert_position els e) els) at 1. rewrite map_app.
  apply sublist_app; [done|]. by apply sublist_cons.
Qed.

Lemma sublist_merge_element els o : ids els `sublist_of` ids (RGA_merge_element els o).
Proof.
  unfold RGA_merge_element. destruct (list_find _ _) as [[i x]|] eqn:Hf.
  - apply list_find_id in Hf as [Hi Hid]. case_match; [|done]. by rewrite (ids_insert _ _ x).
  - apply sublist_insert_sorted.
Qed.

Lemma sublist_merge_loop els l : ids els `sublist_of` ids (foldl RGA_merge_element els l).
Proof.
  revert els. induction l as [|o l IH]; intros els; cbn [foldl]; [done|].
  etrans; [apply sublist_merge_element|apply IH].
Qed.

Definition rga_wf a : Prop :=
  NoDup (ids (rga_elements a)) ∧
  ∀ e, e ∈ rga_elements a → lt_counter (re_id e) ≤ lc_counter (rga_clock a).

Definition payload a : gmap LamportTime (RGAElement T) := by_id (rga_elements a).

Lemma payload_merge a b k :
  rga_wf a → rga_wf b → payload (RGA_merge a b) !! k = opt_join newer (payload a !! k) (payload b !! k).
Proof. intros [Ha _] [Hb _]. by apply merge_loop. Qed.

Lemma payload_Some a e : rga_wf a → e ∈ rga_elements a → payload a !! re_id e = Some e.
Proof. intros [Ha _] He. by apply by_id_Some. Qed.

Lemma payload_elem a k e : rga_wf a → payload a !! k = Some e → e ∈ rga_elements a ∧ re_id e = k.
Proof. intros [Ha _]. apply (by_id_Some _ _ _ Ha). Qed.

Lemma RGA_merge_wf a b : rga_wf a → rga_wf b → rga_wf (RGA_merge a b).
Proof.
  intros Ha Hb. split; [by apply (merge_loop _ _ (mkLamportTime 0 0)); [apply Ha|apply Hb]|].
  intros e He.
  assert (NoDup (ids (rga_elements (RGA_merge a b)))) as Hnd.
  { by apply (merge_loop _ _ (mkLamportTime 0 0)); [apply Ha|apply Hb]. }
  assert (payload (RGA_merge a b) !! re_id e = Some e) as Hp by (by apply by_id_Some).
  rewrite payload_merge in Hp by done.
  assert (∃ x, (x ∈ rga_elements a ∨ x ∈ rga_elements b) ∧ re_id x = re_id e) as (x & Hx & <-).
  { destruct (payload a !! re_id e) eqn:Hpa; [apply payload_elem in Hpa; naive_solver|].
    destruct (payload b !! re_id e) eqn:Hpb; [apply payload_elem in Hpb; naive_solver|done]. }
  simpl. destruct Hx as [Hx%(proj2 Ha)|Hx%(proj2 Hb)]; lia.
Qed.

(** Two arrays agree: one id and one timestamp never carry two versions. *)
Definition agree a b : Prop :=
  ∀ x y, x ∈ rga_elements a → y ∈ rga_elements b →
    re_id x = re_id y → re_timestamp x = re_timestamp y → x = y.

Lemma newer_comm x y : (re_timestamp x = re_timestamp y → x = y) → newer x y = newer y x.
Proof.
  intros Hxy. unfold newer.
  destruct (LamportTime_gt (re_timestamp y) (re_timestamp x)) eqn:H1,
    (LamportTime_gt (re_timestamp x) (re_timestamp y)) eqn:H2; try done; [lamport|].
  apply Hxy. apply LamportTime_ext; lamport.
Qed.

Lemma newer_assoc x y z : newer x (newer y z) = newer (newer x y) z.
Proof.
  unfold newer. repeat match goal with
  | |- context [LamportTime_gt (re_timestamp ?u) (re_timestamp ?v)] =>
      is_var u; is_var v; destruct (LamportTime_gt (re_timestamp u) (re_timestamp v)) eqn:?
  end; try done; lamport.
Qed.

Lemma newer_idemp x : newer x x = x.
Proof. unfold newer. by case_match. Qed.
End merge.

(** [C30] Merging arrays.  Ids stay unique; the merged array holds the ids of
    both sides, each with the version of the newer timestamp; elements already
    present keep their relative order; and on the payload (elements by id)
    the merge is associative and idempotent.  It is commutative for arrays that
    agree, that is, in which one id and timestamp never stand for two versions;
    a deletion can break that agreement ([rga_delete_same_stamp]). *)
Theorem rga_merge_payload {T} (a b c : RGA T) :
  rga_wf a → rga_wf b → rga_wf c →
  rga_wf (RGA_merge a b) ∧
  ids (rga_elements a) `sublist_of` ids (rga_elements (RGA_merge a b)) ∧
  (∀ k, payload (RGA_merge a b) !! k = opt_join newer (payload a !! k) (payload b !! k)) ∧
  payload (RGA_merge a (RGA_merge b c)) = payload (RGA_merge (RGA_merge a b) c) ∧
  payload (RGA_merge a a) = payload a ∧
  (agree a b → payload (RGA_merge a b) = payload (RGA_merge b a)).
Proof.
  intros Ha Hb Hc.
  assert (rga_wf (RGA_merge a b) ∧ rga_wf (RGA_merge b c)) as [Hab Hbc]
    by (split; by apply RGA_merge_wf).
  split_and!; [done|apply sublist_merge_loop|intros; by apply payload_merge|..].
  - apply map_eq. intros k. rewrite !payload_merge by done.
    destruct (payload a !! k), (payload b !! k), (payload c !! k); simpl; try done.
    by rewrite newer_assoc.
  - apply map_eq. intros k. rewrite payload_merge by done.
    destruct (payload a !! k); simpl; [by rewrite newer_idemp|done].
  - intros Hag. apply map_eq. intros k. rewrite !payload_merge by done.
    destruct (payload a !! k) as [x|] eqn:Hx, (payload b !! k) as [y|] eqn:Hy; simpl; try done.
    apply payload_elem in Hx as [Hx Hkx]; [|done]. apply payload_elem in Hy as [Hy Hky]; [|done].
    f_equal. apply newer_comm. intros. apply Hag; congruence.
Qed.

Lemma rga_example_wf n v : rga_wf (RGA_insert_after (RGA_new n) None v : LamportTime * RGA bytes).2.
Proof.
  split; simpl; [apply NoDup_singleton|]. intros e ->%list_elem_of_singleton. simpl.
  unfold wrapping_add64. by vm_compute.
Qed.

Lemma rga_merge_payload_witness :
  let a := (RGA_insert_after (RGA_new 1) None [97]).2 in
  let b := (RGA_insert_after (RGA_new 2) None [98]).2 in
  payload (RGA_merge a b) = payload (RGA_merge b a) ∧ RGA_value (RGA_merge a b) = [[97]; [98]].
Proof.
  intros a b. split; [|by vm_compute].
  apply (rga_merge_payload a b a); [apply rga_example_wf..|].
  intros x y ->%list_elem_of_singleton ->%list_elem_of_singleton. done.
Defined.

(** ** Deltas *)

Section delta.
Context {T : Type}.
Implicit Types (els l : list (RGAElement T)) (a r base : RGA T) (e o x y : RGAElement T).

(** [els] knows the version [x] of an element or a newer one. *)
Definition knows els x : Prop :=
  ∃ y, by_id els !! re_id x = Some y ∧ LamportTime_le (re_timestamp x) (re_timestamp y) = true.

Lemma knows_merge_element els o x : NoDup (ids els) → knows els x → knows (RGA_merge_element els o) x.
Proof.
  intros Hnd (y & Hy & Hle). unfold knows. rewrite by_id_merge_element by done. unfold upsert.
  destruct (decide (re_id x = re_id o)) as [Heq|Hne].
  - rewrite Heq, lookup_partial_alter_eq, <-Heq, Hy. simpl. eexists. split; [done|].
    unfold newer. case_match; [|done]. apply LamportTime_le_spec. lamport.
  - rewrite lookup_partial_alter_ne by done. eauto.
Qed.

(** Merging a version that is already known changes nothing. *)
Lemma merge_element_known els e : NoDup (ids els) → knows els e → RGA_merge_element els e = els.
Proof.
  intros Hnd (y & Hy & Hle). unfold RGA_merge_element.
  destruct (list_find _ _) as [[i x]|] eqn:Hf.
  - apply list_find_id in Hf as [Hi Hid].
    assert (by_id els !! re_id e = Some x) as Hx
      by (apply by_id_Some; [done|]; split; [by eapply list_elem_of_lookup_2|done]).
    simplify_eq. unfold LamportTime_gt. by rewrite Hle.
  - apply list_find_id_None, by_id_None in Hf. congruence.
Qed.

Lemma merge_loop_filter (P : RGAElement T → Prop) `{!∀ e, Decision (P e)} els l :
  NoDup (ids els) → (∀ e, e ∈ l → ¬ P e → knows els e) →
  foldl RGA_merge_element els (filter P l) = foldl RGA_merge_element els l.
Proof.
  revert els. induction l as [|e l IH]; intros els Hnd Hknown; [done|].
  rewrite filter_cons. case_decide as HP; cbn [foldl].
  - apply IH; [by apply NoDup_merge_element|]. intros x Hx Hn.
    apply knows_merge_element; [done|]. apply Hknown; [by right|done].
  - rewrite (merge_element_known els e) by (done || by apply Hknown; [left|]).
    apply IH; [done|]. intros x Hx. apply Hknown. by right.
Qed.

Lemma base_timestamps_lookup l k :
  NoDup (ids l) →
  foldl (λ (m : gmap LamportTime LamportTime) e, <[re_id e := re_timestamp e]> m) ∅ l !! k
  = re_timestamp <$> by_id l !! k.
Proof.
  intros Hnd.
  assert (∀ m : gmap LamportTime LamportTime, (∀ e, e ∈ l → m !! re_id e = None) →
    foldl (λ m e, <[re_id e := re_timestamp e]> m) m l !! k
    = match by_id l !! k with Some e => Some (re_timestamp e) | None => m !! k end) as Hgen.
  { induction l as [|e l IH]; intros m Hm; [done|]. cbn [foldl].
    apply NoDup_cons in Hnd as [He Hnd]. rewrite IH, by_id_cons; [|done|].
    - apply by_id_None in He. destruct (decide (k = re_id e)) as [->|Hne].
      + by rewrite He, !lookup_insert_eq.
      + by rewrite !lookup_insert_ne by done.
    - intros x Hx. rewrite lookup_insert_ne; [apply Hm; by right|].
      intros Heq. apply He. rewrite Heq. apply list_elem_of_fmap. eauto. }
  rewrite Hgen; [|intros; apply lookup_empty]. rewrite lookup_empty. by destruct (by_id l !! k).
Qed.
End delta.

(** [C31] Delta synchronisation of arrays is exact: a receiver that knows every
    element of [base] (in the same or a newer version) ends up with the very
    same sequence of elements, order included, whether it merges the delta or
    the full state. *)
Theorem rga_delta_exact {T} (a base r : RGA T) :
  rga_wf a → rga_wf base → rga_wf r →
  (∀ x, x ∈ rga_elements base → knows (rga_elements r) x) →
  rga_elements (match RGA_delta_since a base with Some d => RGA_merge r d | None => r end)
  = rga_elements (RGA_merge r a).
Proof.
  intros Ha [Hb _] [Hr _] Hknows.
  set (P := λ e : RGAElement T,
    match (foldl (λ (m : gmap LamportTime LamportTime) e, <[re_id e := re_timestamp e]> m) ∅
             (rga_elements base)) !! re_id e with
    | Some base_ts => LamportTime_gt (re_timestamp e) base_ts
    | None => true
    end = true).
  assert (foldl RGA_merge_element (rga_elements r) (filter P (rga_elements a)) =
          foldl RGA_merge_element (rga_elements r) (rga_elements a)) as Hloop.
  { apply merge_loop_filter; [done|]. intros e He HP. unfold P in HP.
    rewrite base_timestamps_lookup in HP by done.
    destruct (by_id (rga_elements base) !! re_id e) as [x|] eqn:Hx; [|done].
    apply by_id_Some in Hx as [Hx Hid]; [|done]. destruct (Hknows x Hx) as (y & Hy & Hle).
    rewrite Hid in Hy. exists y. split; [done|]. simpl in HP. unfold LamportTime_gt in HP.
    apply LamportTime_le_spec. destruct (LamportTime_le (re_timestamp e) (re_timestamp x)) eqn:?;
      [lamport|done]. }
  unfold RGA_delta_since. fold P. cbn [RGA_merge rga_elements].
  destruct (filter P (rga_elements a)) eqn:Hf; [by rewrite <-Hloop|].
  cbn [RGA_merge rga_elements]. by rewrite <-Hloop.
Qed.

(** ** Local updates *)

Section updates.
Context {T : Type}.
Implicit Types (els l : list (RGAElement T)) (a : RGA T) (e : RGAElement T).

Lemma scan_ge (cond : RGAElement T → bool) els pos i :
  (pos ≤ S i)%nat → (pos ≤ scan cond pos i els)%nat.
Proof.
  revert pos i. induction els as [|e els IH]; intros pos i Hi; simpl; [done|].
  case_match; [|done]. specialize (IH (S i) (S i) ltac:(lia)). lia.
Qed.

(** An element is placed behind its parent. *)
Lemma find_insert_position_parent els e pid i :
  re_parent e = Some pid → position pid els = Some i →
  (i < RGA_find_insert_position els e)%nat.
Proof.
  intros Hp Hi. unfold RGA_find_insert_position. rewrite Hp. simpl. rewrite Hi.
  apply (Nat.lt_le_trans _ (S i)); [lia|]. apply scan_ge. lia.
Qed.

Lemma position_Some els pid : pid ∈ ids els → ∃ i x, position pid els = Some i ∧ els !! i = Some x ∧ re_id x = pid.
Proof.
  intros Hin. unfold position. destruct (list_find (λ e, re_id e = pid) els) as [[i x]|] eqn:Hf.
  - apply list_find_id in Hf as [? ?]. exists i, x. done.
  - by apply list_find_id_None in Hf.
Qed.

Lemma insert_after_eq a parent v :
  lc_counter (rga_clock a) + 1 < U64 →
  let id := mkLamportTime (lc_counter (rga_clock a) + 1) (lc_node_id (rga_clock a)) in
  RGA_insert_after a parent v =
    (id, mkRGA (RGA_insert_element_sorted (rga_elements a) (mkRGAElement id parent (Some v) id))
           (mkLamportClock (lc_node_id (rga_clock a)) (lc_counter (rga_clock a) + 1))
           (MatrixClock_tick_local (rga_matrix a)).2).
Proof.
  intros Hk id. unfold RGA_insert_after, LamportClock_tick. simpl.
  by rewrite wrapping_add64_small by done.
Qed.

Lemma RGA_insert_after_wf a parent v :
  rga_wf a → lc_counter (rga_clock a) + 1 < U64 →
  rga_wf (RGA_insert_after a parent v).2 ∧
  ((RGA_insert_after a parent v).1 ∉ ids (rga_elements a)).
Proof.
  intros [Hnd Hle] Hk. rewrite insert_after_eq by done.
  set (id := mkLamportTime _ _). cbn [fst snd].
  assert (id ∉ ids (rga_elements a)) as Hfresh.
  { intros (e & He & Hin)%list_elem_of_fmap. apply Hle in Hin. rewrite <-He in Hin.
    subst id. simpl in Hin. lia. }
  split; [|done]. split; cbn [rga_elements rga_clock].
  - unfold ids. rewrite insert_sorted_perm. by apply NoDup_cons.
  - intros e. rewrite insert_sorted_perm. intros [->|?%Hle]%elem_of_cons; simpl; lia.
Qed.

Lemma RGA_delete_eq a k :
  rga_wf a → k ∈ ids (rga_elements a) →
  ∃ i e e', rga_elements a !! i = Some e ∧ re_id e = k ∧ re_id e' = k ∧ re_value e' = None ∧
    rga_elements (RGA_delete a k) = <[i := e']> (rga_elements a) ∧
    rga_clock (RGA_delete a k) = rga_clock a.
Proof.
  intros _ Hk. unfold RGA_delete. destruct (list_find _ _) as [[i e]|] eqn:Hf.
  - apply list_find_id in Hf as [Hi <-].
    exists i, e, (mkRGAElement (re_id e) (re_parent e) None (mkLamportTime
      (MatrixClock_tick_local (rga_matrix a)).1 (lc_node_id (rga_clock a)))).
    by destruct (MatrixClock_tick_local (rga_matrix a)).
  - by apply list_find_id_None in Hf.
Qed.

Lemma RGA_delete_wf a k : rga_wf a → rga_wf (RGA_delete a k).
Proof.
  intros Hwf. destruct (decide (k ∈ ids (rga_elements a))) as [Hk|Hk].
  - destruct (RGA_delete_eq a k Hwf Hk) as (i & e & e' & Hi & He & He' & _ & Hels & Hclk).
    destruct Hwf as [Hnd Hle]. split; rewrite Hels.
    + by rewrite (ids_insert _ _ e) by congruence.
    + rewrite Hclk. intros x [j Hj]%list_elem_of_lookup.
      apply list_lookup_insert_Some in Hj as [(_ & <- & _)|[_ Hj]].
      * rewrite He', <-He. apply Hle. by eapply list_elem_of_lookup_2.
      * apply Hle. by eapply list_elem_of_lookup_2.
  - unfold RGA_delete. apply list_find_id_None in Hk. by rewrite Hk.
Qed.

End updates.

(** [C32] Local edits of the array.  An insertion gets a fresh id, keeps the
    invariant, adds exactly the new value to the visible sequence without
    reordering anything, and stands behind its parent when the parent is
    present.  A deletion keeps the invariant and removes exactly the visible
    value of the element it names; deleting an unknown id changes nothing. *)
Theorem rga_local_edits {T} (a : RGA T) (parent : option LamportTime) (v : T) (k : LamportTime) :
  rga_wf a → lc_counter (rga_clock a) + 1 < U64 →
  (let '(id, a') := RGA_insert_after a parent v in
   rga_wf a' ∧ (id ∉ ids (rga_elements a)) ∧
   (∃ l1 l2, RGA_value a = l1 ++ l2 ∧ RGA_value a' = l1 ++ v :: l2) ∧
   (∀ p, parent = Some p → p ∈ ids (rga_elements a) →
      ∃ l1 e l2, rga_elements a' = l1 ++ e :: l2 ∧ re_id e = id ∧ p ∈ ids l1)) ∧
  rga_wf (RGA_delete a k) ∧
  (∀ e w, e ∈ rga_elements a → re_id e = k → re_value e = Some w →
     ∃ l1 l2, RGA_value a = l1 ++ w :: l2 ∧ RGA_value (RGA_delete a k) = l1 ++ l2) ∧
  (k ∉ ids (rga_elements a) → RGA_delete a k = a).
Proof.
  intros Hwf Hk. split_and!.
  - destruct (RGA_insert_after_wf a parent v Hwf Hk) as [Hwf' Hfresh].
    rewrite insert_after_eq in * by done. cbn [fst snd] in *. set (id := mkLamportTime _ _) in *.
    set (e := mkRGAElement id parent (Some v) id) in *.
    set (pos := RGA_find_insert_position (rga_elements a) e).
    split_and!; [done|done| |].
    + exists (omap re_value (take pos (rga_elements a))), (omap re_value (drop pos (rga_elements a))).
      unfold RGA_value. rewrite <-omap_app, take_drop. split; [done|].
      cbn [rga_elements]. unfold RGA_insert_element_sorted. by rewrite omap_app.
    + intros p -> Hp. exists (take pos (rga_elements a)), e, (drop pos (rga_elements a)).
      split_and!; [done|done|].
      destruct (position_Some _ _ Hp) as (i & x & Hpos & Hx & <-).
      apply list_elem_of_fmap. exists x. split; [done|]. apply list_elem_of_lookup. exists i.
      rewrite lookup_take_lt; [done|]. by eapply find_insert_position_parent.
  - by apply RGA_delete_wf.
  - intros e w He <- Hw.
    destruct (RGA_delete_eq a (re_id e) Hwf) as (i & x & x' & Hi & Hid & _ & Hv & Hels & _).
    { apply list_elem_of_fmap. eauto. }
    assert (x = e) as ->.
    { destruct Hwf as [Hnd _].
      pose proof (proj2 (by_id_Some _ (re_id e) x Hnd) (conj (list_elem_of_lookup_2 _ _ _ Hi) Hid)).
      pose proof (proj2 (by_id_Some _ (re_id e) e Hnd) (conj He eq_refl)). congruence. }
    exists (omap re_value (take i (rga_elements a))), (omap re_value (drop (S i) (rga_elements a))).
    unfold RGA_value. split.
    + rewrite <-(take_drop_middle _ _ _ Hi) at 1. rewrite omap_app. simpl. by rewrite Hw.
    + rewrite Hels, insert_take_drop by (by eapply lookup_lt_Some).
      rewrite omap_app. simpl. by rewrite Hv.
  - intros Hno. unfold RGA_delete. apply list_find_id_None in Hno. by rewrite Hno.
Qed.

Lemma rga_local_edits_witness :
  let a := (RGA_insert_after (RGA_new 1) None [97]).2 in
  let a' := (RGA_insert_after a (Some (mkLamportTime 1 1)) [98]).2 in
  rga_wf a' ∧ RGA_value a' = [[97]; [98]] ∧
  RGA_value (RGA_delete a' (mkLamportTime 1 1)) = [[98]].
Proof.
  intros a a'. split_and!; [|by vm_compute|by vm_compute].
  pose proof (rga_local_edits a (Some (mkLamportTime 1 1)) [98] (mkLamportTime 1 1)
    (rga_example_wf 1 [97]) ltac:(by vm_compute)) as [Hins _].
  unfold a'. destruct (RGA_insert_after a _ _) as [id b]. apply Hins.
Defined.

Lemma rga_delta_exact_witness :
  let base := (RGA_insert_after (RGA_new 1) None [97]).2 in
  let r := RGA_merge (RGA_new 2) base in
  let a := (RGA_insert_after base (Some (mkLamportTime 1 1)) [98]).2 in
  rga_elements (match RGA_delta_since a base with Some d => RGA_merge r d | None => r end)
    = rga_elements (RGA_merge r a) ∧
  (length ∘ rga_elements <$> RGA_delta_since a base) = Some 1%nat.
Proof.
  intros base r a. split; [|by vm_compute].
  assert (rga_wf base) by apply rga_example_wf.
  apply rga_delta_exact; [by apply RGA_insert_after_wf|done| |].
  - apply RGA_merge_wf; [|done]. split; [constructor|]. intros e ?%not_elem_of_nil. done.
  - intros x ->%list_elem_of_singleton. eexists. split; [by vm_compute|done].
Defined.

(** ** What replicas may disagree on *)

(** Order.  One replica types two elements, the second behind the first, while
    another types one concurrently.  The two merge orders place them
    differently, and merging again in both directions does not repair it. *)
Theorem rga_order_diverges :
  let '(p, a1) := RGA_insert_after (RGA_new 1) None [97] in
  let a := (RGA_insert_after a1 (Some p) [99]).2 in
  let b := (RGA_insert_after (RGA_new 2) None [98]).2 in
  let ab := RGA_merge a b in
  let ba := RGA_merge b a in
  RGA_value ab = [[97]; [98]; [99]] ∧ RGA_value ba = [[97]; [99]; [98]] ∧
  RGA_value (RGA_merge ab ba) = RGA_value ab ∧ RGA_value (RGA_merge ba ab) = RGA_value ba.
Proof. by vm_compute. Qed.

(** Deletion.  A replica that deletes another node's element stamps the
    tombstone from its own matrix counter; when that stamp is older than the
    element's, the author ignores the deletion and the deleting replica gets
    the element back on its next merge. *)
Theorem rga_remote_delete_lost :
  let a1 := (RGA_insert_after (RGA_new 1) None [97]).2 in
  let '(id, a) := RGA_insert_after a1 None [98] in
  let b := RGA_delete (RGA_merge (RGA_new 2) a) id in
  RGA_value b = [[97]] ∧
  RGA_value (RGA_merge a b) = [[97]; [98]] ∧
  RGA_value (RGA_merge b a) = [[97]; [98]].
Proof. by vm_compute. Qed.

(** Equal stamps.  Node 2 sees one element of node 1, inserts its own, which is
    stamped with its Lamport clock, and deletes it again, which is stamped with
    its matrix counter: both stamps are 2.  The deletion does not replace the
    element at a replica that has it; the two replicas do not agree, their
    merges do not commute, and no further merging changes either. *)
Theorem rga_delete_same_stamp :
  let a := (RGA_insert_after (RGA_new 1) None [97]).2 in
  let '(id, b) := RGA_insert_after (RGA_merge (RGA_new 2) a) None [98] in
  let seen := RGA_merge a b in
  let deleted := RGA_delete b id in
  (¬ agree seen deleted) ∧
  RGA_value (RGA_merge seen deleted) = [[97]; [98]] ∧ RGA_value (RGA_merge deleted seen) = [[97]].
Proof.
  cbn zeta. destruct (RGA_insert_after (RGA_merge (RGA_new 2) (RGA_insert_after (RGA_new 1) None [97]).2) None [98])
    as [id b] eqn:Hb. vm_compute in Hb. injection Hb as <- <-. split; [|by vm_compute].
  intros Hag.
  discriminate (Hag (mkRGAElement (mkLamportTime 2 2) None (Some [98]) (mkLamportTime 2 2))
    (mkRGAElement (mkLamportTime 2 2) None None (mkLamportTime 2 2))
    ltac:(vm_compute; set_solver) ltac:(vm_compute; set_solver) eq_refl eq_refl).
Qed.

(** Indices.  Inserting at index 0 of a non-empty array appends behind the
    existing roots: the inserted value is not the one found at index 0. *)
Theorem rga_insert_at_zero :
  let a := (RGA_insert_at (RGA_new 1) 0 [97]).2 in
  RGA_get (RGA_insert_at a 0 [98]).2 0 = Some [97].
Proof. by vm_compute. Qed.

(** ** Wire format *)

(** [if let Some(p) = elem.parent { push(1); ... } else { push(0) }] *)
Definition parent_bytes (p : option LamportTime) : bytes :=
  match p with
  | Some p => [1] ++ to_be_bytes 8 (lt_node_id p) ++ to_be_bytes 8 (lt_counter p)
  | None => [0]
  end.

Definition value_bytes (v : option bytes) : bytes :=
  match v with
  | Some v => [1] ++ to_be_bytes 4 (as_u32 (len v)) ++ v
  | None => [0]
  end.

Definition RGA_element_bytes (e : RGAElement bytes) : bytes :=
  to_be_bytes 8 (lt_node_id (re_id e)) ++ to_be_bytes 8 (lt_counter (re_id e))
    ++ parent_bytes (re_parent e) ++ value_bytes (re_value e)
    ++ to_be_bytes 8 (lt_counter (re_timestamp e)) ++ to_be_bytes 8 (lt_node_id (re_timestamp e)).

Definition RGA_to_bytes (self : RGA bytes) : bytes :=
  let buf := to_be_bytes 8 (lc_node_id (rga_clock self))
               ++ to_be_bytes 8 (lc_counter (rga_clock self))
               ++ to_be_bytes 4 (as_u32 (len (rga_elements self))) in
  let buf := foldl (λ buf e, buf ++ RGA_element_bytes e) buf (rga_elements self) in
  let mbuf := MatrixClock_to_bytes (rga_matrix self) [] in
  buf ++ to_be_bytes 4 (as_u32 (len mbuf)) ++ mbuf.

Definition byte_at (bs : bytes) (off : N) : N := default 0 (bs !! N.to_nat off).

Definition RGA_read_parent (bs : bytes) (offset : N) : option (option LamportTime * N) :=
  if len bs <? offset + 1 then None else
  let has_parent := negb (byte_at bs offset =? 0) in
  let offset := offset + 1 in
  if has_parent then
    if len bs <? offset + 16 then None else
    Some (Some (mkLamportTime (be64 bs (offset + 8)) (be64 bs offset)), offset + 16)
  else Some (None, offset).

Definition RGA_read_value (bs : bytes) (offset : N) : option (option bytes * N) :=
  if len bs <? offset + 1 then None else
  let has_value := negb (byte_at bs offset =? 0) in
  let offset := offset + 1 in
  if has_value then
    if len bs <? offset + 4 then None else
    let str_len := be32 bs offset in
    let offset := offset + 4 in
    if len bs <? offset + str_len then None else
    s ← from_utf8 (slice bs offset (offset + str_len));
    Some (Some s, offset + str_len)
  else Some (None, offset).

Definition RGA_read_element (bs : bytes) (st : list (RGAElement bytes) * N)
    : option (list (RGAElement bytes) * N) :=
  let '(elements, offset) := st in
  if len bs <? offset + 16 then None else
  let id_node_id := be64 bs offset in
  let id_counter := be64 bs (offset + 8) in
  let offset := offset + 16 in
  '(parent, offset) ← RGA_read_parent bs offset;
  '(value, offset) ← RGA_read_value bs offset;
  if len bs <? offset + 16 then None else
  let ts_counter := be64 bs offset in
  let ts_node_id := be64 bs (offset + 8) in
  Some (elements ++ [mkRGAElement (mkLamportTime id_counter id_node_id) parent value
                       (mkLamportTime ts_counter ts_node_id)], offset + 16).

Definition RGA_read_matrix (bs : bytes) (node_id offset : N) : MatrixClock :=
  if offset + 4 <=? len bs then
    let mlen := be32 bs offset in
    let mstart := offset + 4 in
    if mstart + mlen <=? len bs then
      match MatrixClock_from_bytes bs mstart with
      | Some (m, _) => m
      | None => MatrixClock_new node_id
      end
    else MatrixClock_new node_id
  else MatrixClock_new node_id.

Definition RGA_from_bytes (bs : bytes) : option (RGA bytes) :=
  if len bs <? 20 then None else
  let node_id := be64 bs 0 in
  let clock_counter := be64 bs 8 in
  let count := be32 bs 16 in
  '(elements, offset) ← try_for (N.to_nat count) (RGA_read_element bs) ([], 20);
  Some (mkRGA elements (mkLamportClock node_id clock_counter) (RGA_read_matrix bs node_id offset)).

Definition lamport_ok (t : LamportTime) : Prop := lt_counter t < U64 ∧ lt_node_id t < U64.

Definition rga_element_ok (e : RGAElement bytes) : Prop :=
  lamport_ok (re_id e) ∧ lamport_ok (re_timestamp e) ∧
  (∀ p, re_parent e = Some p → lamport_ok p) ∧ (∀ v, re_value e = Some v → string_ok v).

Definition rga_ok (r : RGA bytes) : Prop :=
  lc_node_id (rga_clock r) < U64 ∧ lc_counter (rga_clock r) < U64 ∧
  len (rga_elements r) < U32 ∧ Forall rga_element_ok (rga_elements r) ∧
  matrix_ok (rga_matrix r) ∧ len (matrix_frame (rga_matrix r)) < U32.

Lemma at_rest_byte bs pos b rest :
  at_rest bs pos ([b] ++ rest) → byte_at bs pos = b ∧ at_rest bs (pos + 1) rest.
Proof.
  intros Hat. pose proof (at_rest_raw _ _ [b] _ Hat) as [_ Hat']. split; [|done].
  destruct Hat as (pre & -> & -> & _). unfold byte_at, len.
  rewrite Nat2N.id. cbn [app]. by rewrite list_lookup_middle.
Qed.

Lemma reads_parent p :
  (∀ q, p = Some q → lamport_ok q) → reads RGA_read_parent (parent_bytes p) p.
Proof.
  intros Hok bs pos rest Hat. unfold RGA_read_parent. destruct p as [[c n]|].
  - destruct (Hok _ eq_refl) as [Hc Hn]. cbn [parent_bytes lt_counter lt_node_id] in *.
    rewrite <-!(assoc_L (++)) in Hat.
    pose proof (at_rest_le _ _ _ Hat) as Hle. autorewrite with nula in Hle.
    destruct (at_rest_byte _ _ _ _ Hat) as [-> Hat1].
    destruct (at_rest_be64 _ _ _ _ Hat1 Hn) as [H2 Hat2].
    destruct (at_rest_be64 _ _ _ _ Hat2 Hc) as [H3 Hat3].
    case_if; [lia|]. simpl. case_if; [lia|]. rewrite H2, H3.
    replace (pos + 1 + 8 + 8) with (pos + 1 + 16) in Hat3 by lia. by eexists.
  - pose proof (at_rest_le _ _ _ Hat) as Hle. cbn [parent_bytes] in *. autorewrite with nula in Hle.
    destruct (at_rest_byte _ _ _ _ Hat) as [-> Hat1]. case_if; [lia|]. by eexists.
Qed.

Lemma reads_value v :
  (∀ s, v = Some s → string_ok s) → reads RGA_read_value (value_bytes v) v.
Proof.
  intros Hok bs pos rest Hat. unfold RGA_read_value. destruct v as [s|].
  - destruct (Hok _ eq_refl) as [Hutf Hlen]. cbn [value_bytes] in *.
    rewrite <-!(assoc_L (++)), as_u32_small in Hat by done.
    pose proof (at_rest_le _ _ _ Hat) as Hle. autorewrite with nula in Hle.
    destruct (at_rest_byte _ _ _ _ Hat) as [-> Hat1].
    destruct (at_rest_be32 _ _ _ _ Hat1 Hlen) as [H2 Hat2].
    destruct (at_rest_raw _ _ _ _ Hat2) as [H3 Hat3].
    case_if; [lia|]. simpl. case_if; [lia|]. rewrite H2. case_if; [lia|].
    rewrite H3. unfold from_utf8. rewrite Hutf. by eexists.
  - pose proof (at_rest_le _ _ _ Hat) as Hle. cbn [value_bytes] in *. autorewrite with nula in Hle.
    destruct (at_rest_byte _ _ _ _ Hat) as [-> Hat1]. case_if; [lia|]. by eexists.
Qed.

Lemma reads_rga_element e acc :
  rga_element_ok e →
  reads (λ bs pos, RGA_read_element bs (acc, pos)) (RGA_element_bytes e) (acc ++ [e]).
Proof.
  destruct e as [[ic inode] p v [tc tn]]. intros ([Hic Hin] & [Htc Htn] & Hp & Hv) bs pos rest Hat.
  cbn [re_id re_parent re_value re_timestamp lt_counter lt_node_id] in *.
  unfold RGA_element_bytes in Hat. cbn [re_id re_parent re_value re_timestamp lt_counter lt_node_id] in Hat.
  rewrite <-!(assoc_L (++)) in Hat.
  pose proof (at_rest_le _ _ _ Hat) as Hle. autorewrite with nula in Hle.
  destruct (at_rest_be64 _ _ _ _ Hat Hin) as [H1 Hat1].
  destruct (at_rest_be64 _ _ _ _ Hat1 Hic) as [H2 Hat2]. clear Hat Hat1.
  replace (pos + 8 + 8) with (pos + 16) in Hat2 by lia.
  unfold RGA_read_element. cbn zeta. case_if; [lia|]. rewrite H1, H2.
  read_field (reads_parent p Hp). read_field (reads_value v Hv). rename p1 into q.
  pose proof (at_rest_le _ _ _ Hat2) as Hle2. autorewrite with nula in Hle2.
  destruct (at_rest_be64 _ _ _ _ Hat2 Htc) as [H3 Hat3].
  destruct (at_rest_be64 _ _ _ _ Hat3 Htn) as [H4 Hat4].
  case_if; [lia|]. rewrite H3, H4.
  replace (q + 8 + 8) with (q + 16) in Hat4 by lia. by eexists.
Qed.

(** Arrays survive serialisation exactly: elements in order, with parents,
    tombstones and stamps, clock and matrix, when the fields fit their wire
    widths. *)
Theorem rga_roundtrip (r : RGA bytes) :
  rga_ok r → fits (RGA_to_bytes r) → RGA_from_bytes (RGA_to_bytes r) = Some r.
Proof.
  intros (Hn & Hc & Hlen & Hels & Hm & Hmlen). unfold RGA_to_bytes.
  rewrite (foldl_push RGA_element_bytes) by done.
  rewrite MatrixClock_to_bytes_frame, app_nil_l, !as_u32_small, <-!(assoc_L (++)) by done.
  intros Hfit%at_rest_start. revert Hfit.
  match goal with |- at_rest ?b 0 _ → _ => generalize b at 1 3 as bs end. intros bs Hat.
  pose proof (at_rest_le _ _ _ Hat) as Hle. autorewrite with nula in Hle.
  destruct (at_rest_be64 _ _ _ _ Hat Hn) as [H1 Hat1].
  destruct (at_rest_be64 _ _ _ _ Hat1 Hc) as [H2 Hat2].
  destruct (at_rest_be32 _ _ _ _ Hat2 Hlen) as [H3 Hat3].
  change (be64 bs 8 = lc_counter (rga_clock r)) in H2.
  change (be32 bs 16 = len (rga_elements r)) in H3. clear Hat Hat1 Hat2.
  change (0 + 8 + 8 + 4) with 20 in Hat3.
  unfold RGA_from_bytes. case_if; [lia|]. rewrite H1, H2, H3.
  read_field (reads_for RGA_element_bytes (λ acc e, acc ++ [e]) RGA_read_element
    (N.to_nat (len (rga_elements r))) (rga_elements r) [] ltac:(unfold len; lia)
    (λ e acc Hin, reads_rga_element e acc (proj1 (Forall_forall _ _) Hels e Hin))).
  assert (foldl (λ acc e, acc ++ [e]) [] (rga_elements r) = rga_elements r) as ->.
  { assert (∀ l acc, foldl (λ acc (e : RGAElement bytes), acc ++ [e]) acc l = acc ++ l) as Hf;
      [|apply Hf].
    induction l as [|e l IH]; intros acc; simpl; [by rewrite app_nil_r|].
    by rewrite IH, <-(assoc_L (++)). }
  pose proof (at_rest_le _ _ _ Hat3) as Hle3. autorewrite with nula in Hle3.
  destruct (at_rest_be32 _ _ _ _ Hat3 Hmlen) as [H4 Hat4].
  rewrite <-(app_nil_r (matrix_frame _)) in Hat4.
  destruct (reads_intro _ _ _ (λ pre suf, MatrixClock_from_bytes_app (rga_matrix r) pre suf Hm)
    _ _ _ Hat4) as (q & Hq & _).
  unfold RGA_read_matrix. rewrite H4, Hq.
  rewrite !(proj2 (N.leb_le _ _)) by lia. by destruct r as [? [] ?].
Qed.

Lemma rga_roundtrip_witness :
  let a := (RGA_insert_after (RGA_new 1) None [97]).2 in
  let r := RGA_delete (RGA_insert_after a (Some (mkLamportTime 1 1)) [98]).2 (mkLamportTime 1 1) in
  RGA_from_bytes (RGA_to_bytes r) = Some r.
Proof.
  intros a r. assert (mc_matrix (rga_matrix r) = {[1 := {[1 := 3]}]}) as Hm by (by vm_compute).
  assert (rga_elements r = [mkRGAElement (mkLamportTime 1 1) None None (mkLamportTime 3 1);
    mkRGAElement (mkLamportTime 2 1) (Some (mkLamportTime 1 1)) (Some [98]) (mkLamportTime 2 1)])
    as He by (by vm_compute).
  apply rga_roundtrip; [|by vm_compute].
  split_and!; [by vm_compute|by vm_compute|by vm_compute| | |by vm_compute].
  - rewrite He. repeat constructor; naive_solver.
  - split_and!; [by vm_compute|by vm_compute|]. rewrite Hm. clear.
    intros p row [<- <-]%lookup_singleton_Some. split; [done|]. split; [done|].
    intros ? ? [<- <-]%lookup_singleton_Some. done.
Defined.
