(* ===== verification/CrdtManager.v ===== *)
(** * The CRDT manager

    [CrdtManager] of [src/runtime/crdt_manager.rs] keeps one replica per id and
    applies the sync operations of its peers.  The file models the entry type,
    the application of full-state and delta operations with their type guards
    and the decoding of payloads, and shows that managers that have seen the
    same states report the same values. *)
From S2P Require Import Prelude Bytes CrdtClock CrdtCore CrdtCounters CrdtSets CrdtAworset CrdtReg Rga.

Local Open Scope N_scope.

(** ** Entries *)

Inductive CrdtType :=
  | TGCounter | TPNCounter | TGSet | TORSet | TAWORSet | TLWWRegister | TMVRegister | TRGA.

#[export] Instance CrdtType_eq_dec : EqDecision CrdtType.
Proof. solve_decision. Defined.

Inductive CrdtEntry :=
  | EGCounter (c : GCounter)
  | EPNCounter (c : PNCounter)
  | EGSet (c : GSet)
  | EORSet (c : ORSet)
  | EAWORSet (c : AWORSet)
  | ELWWRegister (c : LWWRegister bytes)
  | EMVRegister (c : MVRegister bytes)
  | ERGA (c : RGA bytes).

Definition CrdtEntry_crdt_type (self : CrdtEntry) : CrdtType :=
  match self with
  | EGCounter _ => TGCounter
  | EPNCounter _ => TPNCounter
  | EGSet _ => TGSet
  | EORSet _ => TORSet
  | EAWORSet _ => TAWORSet
  | ELWWRegister _ => TLWWRegister
  | EMVRegister _ => TMVRegister
  | ERGA _ => TRGA
  end.

(** [merge_entry]: the state after the call and whether the types matched. *)
Definition CrdtEntry_merge_entry (self other : CrdtEntry) : CrdtEntry * bool :=
  match self, other with
  | EGCounter a, EGCounter b => (EGCounter (GCounter_merge a b), true)
  | EPNCounter a, EPNCounter b => (EPNCounter (PNCounter_merge a b), true)
  | EGSet a, EGSet b => (EGSet (GSet_merge a b), true)
  | EORSet a, EORSet b => (EORSet (ORSet_merge a b), true)
  | EAWORSet a, EAWORSet b => (EAWORSet (AWORSet_merge a b), true)
  | ELWWRegister a, ELWWRegister b => (ELWWRegister (LWWRegister_merge a b), true)
  | EMVRegister a, EMVRegister b => (EMVRegister (MVRegister_merge a b), true)
  | ERGA a, ERGA b => (ERGA (RGA_merge a b), true)
  | _, _ => (self, false)
  end.

Definition CrdtEntry_delta_since (self base : CrdtEntry) : option CrdtEntry :=
  match self, base with
  | EGCounter a, EGCounter b => EGCounter <$> GCounter_delta_since a b
  | EPNCounter a, EPNCounter b => EPNCounter <$> PNCounter_delta_since a b
  | EGSet a, EGSet b => EGSet <$> GSet_delta_since a b
  | EORSet a, EORSet b => EORSet <$> ORSet_delta_since a b
  | EAWORSet a, EAWORSet b => EAWORSet <$> AWORSet_delta_since a b
  | ELWWRegister a, ELWWRegister b => ELWWRegister <$> LWWRegister_delta_since a b
  | EMVRegister a, EMVRegister b => EMVRegister <$> MVRegister_delta_since a b
  | ERGA a, ERGA b => ERGA <$> RGA_delta_since a b
  | _, _ => Some self
  end.

Definition GCounter_set_node_id (c : GCounter) (node_id : N) : GCounter := mkGCounter (gc_counts c) node_id.

Definition CrdtEntry_set_local_node_id (self : CrdtEntry) (node_id : N) : CrdtEntry :=
  match self with
  | EGCounter c => EGCounter (GCounter_set_node_id c node_id)
  | EPNCounter c =>
      EPNCounter (mkPNCounter (GCounter_set_node_id (pn_increments c) node_id)
                    (GCounter_set_node_id (pn_decrements c) node_id))
  | EORSet c =>
      EORSet (mkORSet (or_entries c) (or_removed c) (or_tag_counter c) node_id
                (MatrixClock_reroot (or_matrix c) node_id))
  | EAWORSet c =>
      EAWORSet (mkAWORSet (aw_entries c) (aw_removed c) (mkLamportClock node_id (lc_counter (aw_clock c)))
                  (MatrixClock_reroot (aw_matrix c) node_id))
  | ELWWRegister c => ELWWRegister (LWWRegister_set_local_node_id c node_id)
  | EMVRegister c =>
      EMVRegister (mkMVRegister (mv_values c) (mkLamportClock node_id (lc_counter (mv_clock c))))
  | ERGA c =>
      ERGA (mkRGA (rga_elements c) (mkLamportClock node_id (lc_counter (rga_clock c)))
              (MatrixClock_reroot (rga_matrix c) node_id))
  | EGSet c => EGSet c
  end.

(** The [from_bytes] of each type. *)
Definition decode (ty : CrdtType) (payload : bytes) : option CrdtEntry :=
  match ty with
  | TGCounter => EGCounter <$> GCounter_from_bytes payload
  | TPNCounter => EPNCounter <$> PNCounter_from_bytes payload
  | TGSet => EGSet <$> GSet_from_bytes payload
  | TORSet => EORSet <$> ORSet_from_bytes payload
  | TAWORSet => EAWORSet <$> AWORSet_from_bytes payload
  | TLWWRegister => ELWWRegister <$> LWWRegister_from_bytes payload
  | TMVRegister => EMVRegister <$> MVRegister_from_bytes payload
  | TRGA => ERGA <$> RGA_from_bytes payload
  end.

Definition merge_payload (entry : CrdtEntry) (payload : bytes) : CrdtEntry * bool :=
  match decode (CrdtEntry_crdt_type entry) payload with
  | Some r => ((CrdtEntry_merge_entry entry r).1, true)
  | None => (entry, false)
  end.

(** ** The manager *)

Record CrdtOp := mkCrdtOp { op_crdt_id : N; op_crdt_type : CrdtType; op_payload : bytes }.
Record CrdtDeltaOp := mkCrdtDeltaOp { dop_op : CrdtOp; dop_is_delta : bool }.

Record CrdtManager := mkCrdtManager {
  cm_node_id : N;
  cm_entries : gmap N CrdtEntry;
  cm_ops_synced : N;
}.

Definition CrdtManager_new (node_id : N) : CrdtManager := mkCrdtManager node_id ∅ 0.

(** Stores an entry and counts the operation; [None] is the overflow of the
    counter. *)
Definition cm_store (self : CrdtManager) (id : N) (entry : CrdtEntry) : option CrdtManager :=
  n ← checked_add64 (cm_ops_synced self) 1;
  Some (mkCrdtManager (cm_node_id self) (<[id := entry]> (cm_entries self)) n).

Definition CrdtManager_apply_op (self : CrdtManager) (op : CrdtOp) : option CrdtManager :=
  match cm_entries self !! op_crdt_id op with
  | Some entry =>
      if decide (CrdtEntry_crdt_type entry = op_crdt_type op) then
        let '(entry, ok) := merge_payload entry (op_payload op) in
        if ok then cm_store self (op_crdt_id op) entry else Some self
      else Some self
  | None =>
      match decode (op_crdt_type op) (op_payload op) with
      | Some e => cm_store self (op_crdt_id op) (CrdtEntry_set_local_node_id e (cm_node_id self))
      | None => Some self
      end
  end.

Definition CrdtManager_apply_delta_op (self : CrdtManager) (delta_op : CrdtDeltaOp) : option CrdtManager :=
  if dop_is_delta delta_op then
    let op := dop_op delta_op in
    match cm_entries self !! op_crdt_id op with
    | Some entry =>
        if decide (CrdtEntry_crdt_type entry = op_crdt_type op) then
          let '(entry, ok) := merge_payload entry (op_payload op) in
          if ok then cm_store self (op_crdt_id op) entry else Some self
        else Some self
    | None => Some self
    end
  else CrdtManager_apply_op self (dop_op delta_op).

(** ** Entries as one CRDT *)

(** What a caller reads of an entry. *)
Inductive CrdtReading :=
  | RCount (n : N) | RNet (z : Z) | RSet (s : gset bytes) | RText (v : bytes) | RValues (s : gset bytes)
  | RItems (l : list bytes).

Definition entry_value (e : CrdtEntry) : CrdtReading :=
  match e with
  | EGCounter c => RCount (GCounter_value c)
  | EPNCounter c => RNet (PNCounter_value c)
  | EGSet c => RSet (GSet_value c)
  | EORSet c => RSet (ORSet_value c)
  | EAWORSet c => RSet (AWORSet_value c)
  | ELWWRegister c => RText (LWWRegister_read c)
  | EMVRegister c => RValues (MVRegister_read c)
  | ERGA c => RItems (RGA_value c)
  end.

Section entries.
(** [w] is the value written with each stamp of a register. *)
Context (w : LamportTime → bytes) (ty : CrdtType).

(** Well-formed entries of type [ty].  Arrays are left out: their order is not
    determined by what was merged. *)
Definition entry_wf (e : CrdtEntry) : Prop :=
  CrdtEntry_crdt_type e = ty ∧
  match e with
  | EORSet c => ORSet_wf c
  | ELWWRegister c => lww_agrees w c
  | EMVRegister c => mv_wf c
  | ERGA _ => False
  | _ => True
  end.

Definition entry_equiv : Equiv CrdtEntry := λ a b,
  match a, b with
  | EGCounter a, EGCounter b => a ≡ b
  | EPNCounter a, EPNCounter b => a ≡ b
  | EGSet a, EGSet b => a ≡ b
  | EORSet a, EORSet b => a ≡ b
  | EAWORSet a, EAWORSet b => a ≡ b
  | ELWWRegister a, ELWWRegister b => LWWRegister_equiv a b
  | EMVRegister a, EMVRegister b => a ≡ b
  | ERGA a, ERGA b => a = b
  | _, _ => False
  end.

Definition entry_crdt : Crdt CrdtEntry CrdtReading := {|
  crdt_wf := entry_wf;
  crdt_equiv := entry_equiv;
  crdt_merge := λ a b, (CrdtEntry_merge_entry a b).1;
  crdt_value := entry_value;
  crdt_delta_since := CrdtEntry_delta_since;
|}.

(** Splits entries of one type into the eight types, dropping mixed cases. *)
Ltac split_entries :=
  repeat match goal with
  | H : entry_wf _ |- _ => destruct H as [? ?]
  | H : CrdtEntry_crdt_type ?e = _ |- _ => is_var e; destruct e; simpl in H; try congruence
  end; try done.

(** A law of the type at hand. *)
Ltac by_law law :=
  first
    [ by apply (law _ _ GCounter_crdt GCounter_laws)
    | by apply (law _ _ PNCounter_crdt PNCounter_laws)
    | by apply (law _ _ GSet_crdt GSet_laws)
    | by apply (law _ _ ORSet_crdt ORSet_laws)
    | by apply (law _ _ AWORSet_crdt AWORSet_laws)
    | by apply (law _ _ (LWWRegister_crdt w) (LWWRegister_laws w))
    | by apply (law _ _ MVRegister_crdt MVRegister_laws) ].

(** A law of entries from the same law of each type. *)
Ltac entry_law law := intros; split_entries; simpl in *; by_law law.

Lemma entry_equiv_equivalence : Equivalence entry_equiv.
Proof.
  split.
  - by intros []; simpl.
  - intros [] []; simpl; try done. by intros [? ?].
  - intros [] [] []; simpl; try done; try (by etrans). intros [] []. split; congruence.
Qed.

Lemma entry_delta_wf a base d : entry_wf a → CrdtEntry_delta_since a base = Some d → entry_wf d.
Proof.
  intros [Hty Ha] Hd. destruct a, base; simpl in Hd; simplify_eq; try done;
    apply fmap_Some in Hd as (d' & Hd & ->); (split; [done|]); try done.
  - by apply (crdt_delta_wf (H:=ORSet_crdt) c c0).
  - pose proof (LWWRegister_laws w). by apply (crdt_delta_wf (H:=LWWRegister_crdt w) c c0).
  - by apply (crdt_delta_wf (H:=MVRegister_crdt) c c0).
Qed.

Lemma merge_delta_entry {S V} (C : Crdt S V) (inj : S → CrdtEntry) (r a : S) (d : option S) :
  (∀ x y, (CrdtEntry_merge_entry (inj x) (inj y)).1 = inj (crdt_merge x y)) →
  (∀ x y, x ≡ y → entry_equiv (inj x) (inj y)) →
  merge_delta r d ≡ crdt_merge r a →
  entry_equiv (@merge_delta _ _ entry_crdt (inj r) (inj <$> d)) (CrdtEntry_merge_entry (inj r) (inj a)).1.
Proof.
  intros Hmerge Hequiv. rewrite Hmerge. destruct d as [d|]; simpl; [rewrite Hmerge|]; apply Hequiv.
Qed.

Lemma entry_delta_merge a base r :
  entry_wf a → entry_wf base → entry_wf r →
  entry_equiv (CrdtEntry_merge_entry r base).1 r →
  entry_equiv (@merge_delta _ _ entry_crdt r (CrdtEntry_delta_since a base)) (CrdtEntry_merge_entry r a).1.
Proof.
  intros. split_entries.
  - apply (merge_delta_entry GCounter_crdt EGCounter); try done. by apply (crdt_delta_merge (H:=GCounter_crdt)).
  - apply (merge_delta_entry PNCounter_crdt EPNCounter); try done. by apply (crdt_delta_merge (H:=PNCounter_crdt)).
  - apply (merge_delta_entry GSet_crdt EGSet); try done. by apply (crdt_delta_merge (H:=GSet_crdt)).
  - apply (merge_delta_entry ORSet_crdt EORSet); try done. by apply (crdt_delta_merge (H:=ORSet_crdt)).
  - apply (merge_delta_entry AWORSet_crdt EAWORSet); try done. by apply (crdt_delta_merge (H:=AWORSet_crdt)).
  - apply (merge_delta_entry (LWWRegister_crdt w) ELWWRegister); try done.
    pose proof (LWWRegister_laws w) as HL. by apply (crdt_delta_merge (H:=LWWRegister_crdt w)).
  - apply (merge_delta_entry MVRegister_crdt EMVRegister); try done. by apply (crdt_delta_merge (H:=MVRegister_crdt)).
Qed.

Lemma entry_laws : @CrdtLaws _ _ entry_crdt.
Proof.
  split; simpl; unfold crdt_le; simpl.
  - apply entry_equiv_equivalence.
  - intros a b Ha Hb. split_entries; (split; [done|]); try done.
    + by apply ORSet_merge_wf.
    + by apply lww_agrees_merge.
    + by apply mv_merge_wf.
  - entry_law @crdt_merge_proper.
  - entry_law @crdt_merge_assoc.
  - entry_law @crdt_merge_comm.
  - entry_law @crdt_merge_idemp.
  - intros; split_entries; simpl; f_equal; by_law @crdt_value_proper.
  - apply entry_delta_wf.
  - apply entry_delta_merge.
Qed.

Lemma entry_set_local e n : entry_wf e → entry_wf (CrdtEntry_set_local_node_id e n) ∧
  entry_equiv (CrdtEntry_set_local_node_id e n) e.
Proof. intros He. split_entries. Qed.
End entries.

(** ** Convergence *)

(** The states an id has been told: the replica held at the start and the
    payloads that decode. *)
Definition told (m : CrdtManager) (ops : list CrdtOp) (id : N) : list CrdtEntry :=
  option_list (cm_entries m !! id) ++
  omap (λ op, if decide (op_crdt_id op = id) then decode (op_crdt_type op) (op_payload op) else None) ops.

Fixpoint apply_ops (m : CrdtManager) (ops : list CrdtOp) : option CrdtManager :=
  match ops with
  | [] => Some m
  | op :: ops => m ← CrdtManager_apply_op m op; apply_ops m ops
  end.

(** The entry of an id that has been told [l]. *)
Definition absorbed (w : LamportTime → bytes) (ty : CrdtType) (l : list CrdtEntry) (o : option CrdtEntry) : Prop :=
  match l, o with
  | [], None => True
  | e :: l, Some e' => entry_wf w ty e' ∧ entry_equiv e' (@crdt_absorb _ _ (entry_crdt w ty) e l)
  | _, _ => False
  end.

(** What one operation tells an id. *)
Definition told_op (op : CrdtOp) (id : N) : list CrdtEntry :=
  option_list (if decide (op_crdt_id op = id) then decode (op_crdt_type op) (op_payload op) else None).

Section convergence.
(** [w] is the value written with each stamp of a register, [typed] the type
    of each id. *)
Context (w : LamportTime → bytes) (typed : N → CrdtType).

Abbreviation wf id := (entry_wf w (typed id)).

(** Operations carry the type of their id, and their payloads, when they
    decode, well-formed states. *)
Definition op_ok (op : CrdtOp) : Prop :=
  op_crdt_type op = typed (op_crdt_id op) ∧
  ∀ e, decode (op_crdt_type op) (op_payload op) = Some e → wf (op_crdt_id op) e.

Definition manager_ok (m : CrdtManager) : Prop :=
  ∀ id e, cm_entries m !! id = Some e → wf id e.

(** Told one more state. *)
Lemma absorbed_snoc ty l o x n :
  Forall (entry_wf w ty) l → entry_wf w ty x → absorbed w ty l o →
  absorbed w ty (l ++ [x])
    (Some match o with Some e => (CrdtEntry_merge_entry e x).1 | None => CrdtEntry_set_local_node_id x n end).
Proof.
  pose proof (entry_laws w ty) as HL. intros Hl Hx Ho. destruct l as [|e l], o as [e'|]; try done; simpl.
  - unfold crdt_absorb; simpl. by apply entry_set_local.
  - destruct Ho as [Hwf Heq]. apply Forall_cons in Hl as [He Hl].
    split; [by apply (crdt_merge_wf (H:=entry_crdt w ty))|]. unfold crdt_absorb. rewrite foldl_app. simpl.
    apply (crdt_merge_proper (H:=entry_crdt w ty)); try done.
    by apply (crdt_absorb_wf (H:=entry_crdt w ty)).
Qed.

Lemma decode_type ty payload e : decode ty payload = Some e → CrdtEntry_crdt_type e = ty.
Proof. destruct ty; simpl; intros (c & _ & ->)%fmap_Some; done. Qed.

(** One operation: it does not overflow the counter below 2^64, changes only
    its id, and merges the state it carries. *)
Lemma apply_op_entries m op :
  op_ok op → manager_ok m → cm_ops_synced m + 1 < U64 →
  ∃ m', CrdtManager_apply_op m op = Some m' ∧ cm_ops_synced m' ≤ cm_ops_synced m + 1 ∧
    ∀ id, cm_entries m' !! id =
      match told_op op id with
      | x :: _ => Some match cm_entries m !! id with
                       | Some e => (CrdtEntry_merge_entry e x).1
                       | None => CrdtEntry_set_local_node_id x (cm_node_id m)
                       end
      | [] => cm_entries m !! id
      end.
Proof.
  intros [Hty Hwf] Hm Hlt. unfold CrdtManager_apply_op, told_op, merge_payload, cm_store.
  rewrite checked_add64_Some by done.
  destruct (cm_entries m !! op_crdt_id op) as [e|] eqn:He.
  - destruct (Hm _ _ He) as [Hety _]. rewrite decide_True by congruence.
    replace (CrdtEntry_crdt_type e) with (op_crdt_type op) by congruence.
    destruct (decode (op_crdt_type op) (op_payload op)) as [x|]; simpl.
    + eexists. split_and!; [done|simpl; lia|]. intros id. simpl.
      case_decide as Hid; [subst; by rewrite lookup_insert_eq, He|by rewrite lookup_insert_ne].
    + eexists. split_and!; [done|lia|]. intros id. by case_decide.
  - destruct (decode (op_crdt_type op) (op_payload op)) as [x|]; simpl.
    + eexists. split_and!; [done|simpl; lia|]. intros id. simpl.
      case_decide as Hid; [subst; by rewrite lookup_insert_eq, He|by rewrite lookup_insert_ne].
    + eexists. split_and!; [done|lia|]. intros id. by case_decide.
Qed.

Lemma told_op_wf op id : op_ok op → Forall (wf id) (told_op op id).
Proof.
  intros [_ Hop]. unfold told_op. case_decide; [subst|constructor].
  destruct (decode _ _) as [e|]; simpl; constructor; auto.
Qed.

Lemma apply_op_absorbed m op (l : N → list CrdtEntry) :
  op_ok op → cm_ops_synced m + 1 < U64 → (∀ id, Forall (wf id) (l id)) →
  (∀ id, absorbed w (typed id) (l id) (cm_entries m !! id)) →
  ∃ m', CrdtManager_apply_op m op = Some m' ∧ cm_ops_synced m' ≤ cm_ops_synced m + 1 ∧
    ∀ id, absorbed w (typed id) (l id ++ told_op op id) (cm_entries m' !! id).
Proof.
  intros Hop Hlt Hl Habs.
  assert (manager_ok m) as Hm.
  { intros id e He. specialize (Habs id). rewrite He in Habs. destruct (l id); [done|apply Habs]. }
  destruct (apply_op_entries m op Hop Hm Hlt) as (m' & Hap & Hle & Hent). exists m'. split_and!; [done..|].
  intros id. rewrite Hent. pose proof (told_op_wf op id Hop) as Ht. specialize (Habs id).
  destruct (told_op op id) as [|x l'] eqn:Htold; [by rewrite app_nil_r|].
  assert (l' = []) as ->.
  { revert Htold. unfold told_op. case_decide; [|done]. by destruct (decode _ _); intros [= _ <-]. }
  apply Forall_cons in Ht as [Hx _]. by apply absorbed_snoc.
Qed.

Lemma apply_ops_absorbed ops m l :
  Forall op_ok ops → cm_ops_synced m + len ops < U64 → (∀ id, Forall (wf id) (l id)) →
  (∀ id, absorbed w (typed id) (l id) (cm_entries m !! id)) →
  ∃ m', apply_ops m ops = Some m' ∧
    ∀ id, absorbed w (typed id) (l id ++ concat ((λ op, told_op op id) <$> ops)) (cm_entries m' !! id).
Proof.
  intros Hops. revert m l. induction Hops as [|op ops Hop _ IH]; intros m l Hlt Hl Habs; simpl.
  { exists m. split; [done|]. intros id. rewrite app_nil_r. apply Habs. }
  rewrite len_cons in Hlt.
  destruct (apply_op_absorbed m op l Hop ltac:(lia) Hl Habs) as (m1 & -> & Hle & Habs1).
  destruct (IH m1 (λ id, l id ++ told_op op id)) as (m' & Hm' & Habs'); [lia| |done|].
  { intros id. apply Forall_app. split; [apply Hl|by apply told_op_wf]. }
  exists m'. split; [done|]. intros id. rewrite (assoc_L (++)). apply Habs'.
Qed.

Lemma told_concat m ops id :
  told m ops id = option_list (cm_entries m !! id) ++ concat ((λ op, told_op op id) <$> ops).
Proof.
  unfold told. f_equal. induction ops as [|op ops IH]; [done|].
  rewrite fmap_cons. cbn [concat]. rewrite <-IH. unfold told_op.
  cbn [omap list_omap]. by destruct (if decide _ then _ else _).
Qed.

Lemma told_wf m ops id : manager_ok m → Forall op_ok ops → Forall (wf id) (told m ops id).
Proof.
  intros Hm Hops. rewrite told_concat. apply Forall_app. split.
  - destruct (cm_entries m !! id) eqn:He; simpl; constructor; eauto.
  - induction Hops as [|op ops Hop _ IH]; simpl; [done|]. apply Forall_app. split; [by apply told_op_wf|done].
Qed.

Lemma apply_ops_told m ops :
  manager_ok m → Forall op_ok ops → cm_ops_synced m + len ops < U64 →
  ∃ m', apply_ops m ops = Some m' ∧ ∀ id, absorbed w (typed id) (told m ops id) (cm_entries m' !! id).
Proof.
  intros Hm Hops Hlt.
  destruct (apply_ops_absorbed ops m (λ id, option_list (cm_entries m !! id))) as (m' & Hm' & Habs); try done.
  - intros id. destruct (cm_entries m !! id) eqn:He; simpl; constructor; eauto.
  - intros id. destruct (cm_entries m !! id) eqn:He; simpl; [|done]. split; [eauto|].
    apply entry_equiv_equivalence.
  - exists m'. split; [done|]. intros id. rewrite told_concat. apply Habs.
Qed.

Lemma absorbed_value ty l1 l2 o1 o2 :
  Forall (entry_wf w ty) l1 → Forall (entry_wf w ty) l2 → (∀ e, e ∈ l1 ↔ e ∈ l2) →
  absorbed w ty l1 o1 → absorbed w ty l2 o2 → entry_value <$> o1 = entry_value <$> o2.
Proof.
  pose proof (entry_laws w ty) as HL. intros H1 H2 Hin Ho1 Ho2.
  destruct l1 as [|e1 l1], l2 as [|e2 l2].
  - by destruct o1, o2.
  - exfalso. apply (not_elem_of_nil e2), Hin. left.
  - exfalso. apply (not_elem_of_nil e1), Hin. left.
  - destruct o1 as [x1|], o2 as [x2|]; try done. destruct Ho1 as [Hw1 Hq1], Ho2 as [Hw2 Hq2].
    apply Forall_cons in H1 as [He1 Hl1]. apply Forall_cons in H2 as [He2 Hl2].
    pose proof (entry_equiv_equivalence) as HE.
    assert (entry_equiv (@crdt_absorb _ _ (entry_crdt w ty) e1 l1) (@crdt_absorb _ _ (entry_crdt w ty) e2 l2)) as Heq.
    { apply (crdt_absorb_equiv (H:=entry_crdt w ty)); try done; intros x Hx; exists x; (split; [by apply Hin|]); apply HE. }
    simpl. f_equal. apply (crdt_value_proper (H:=entry_crdt w ty)); try done. simpl.
    etrans; [exact Hq1|]. etrans; [exact Heq|]. by symmetry.
Qed.
End convergence.

(** [C12] Strong eventual consistency of the CRDT manager.  Two managers, on any
    nodes and with any replicas to start with, apply the sync operations they
    receive from the network.  If for every id the states they have been told --
    the replica at the start and the payloads received -- are the same, in any
    order and with any repetition, then both apply them without a failure and
    end up with the same ids, each reading the same value.  Payloads that do not
    decode are ignored.  Every id has one type, which is not the replicated
    array; states of observed-remove sets and of multi-value registers are
    well-formed, and a last-writer-wins stamp is never used for two values. *)
Theorem crdt_managers_converge (w : LamportTime → bytes) (typed : N → CrdtType)
    (m1 m2 : CrdtManager) (ops1 ops2 : list CrdtOp) :
  manager_ok w typed m1 → manager_ok w typed m2 →
  Forall (op_ok w typed) ops1 → Forall (op_ok w typed) ops2 →
  cm_ops_synced m1 + len ops1 < U64 → cm_ops_synced m2 + len ops2 < U64 →
  (∀ id e, e ∈ told m1 ops1 id ↔ e ∈ told m2 ops2 id) →
  ∃ m1' m2', apply_ops m1 ops1 = Some m1' ∧ apply_ops m2 ops2 = Some m2' ∧
    ∀ id, entry_value <$> cm_entries m1' !! id = entry_value <$> cm_entries m2' !! id.
Proof.
  intros Hm1 Hm2 Hops1 Hops2 Hlt1 Hlt2 Htold.
  destruct (apply_ops_told w typed m1 ops1) as (m1' & H1 & Habs1); try done.
  destruct (apply_ops_told w typed m2 ops2) as (m2' & H2 & Habs2); try done.
  exists m1', m2'. split_and!; [done..|]. intros id.
  by apply (absorbed_value w (typed id) (told m1 ops1 id) (told m2 ops2 id)); [apply told_wf..|apply Htold| |].
Qed.

(** A timestamped set and a counter with two contributors, received by node 1
    in one order and by node 2 in another, with a repetition and a payload that
    does not decode. *)
Definition example_ops : list CrdtOp :=
  let s := AWORSet_add (AWORSet_new 3) [97] in
  [mkCrdtOp 7 TAWORSet (AWORSet_to_bytes (map_to_list (aw_entries s)) [] s);
   mkCrdtOp 8 TGCounter (GCounter_to_bytes [(3, 2)] (mkGCounter {[3 := 2]} 3));
   mkCrdtOp 8 TGCounter (GCounter_to_bytes [(4, 5)] (mkGCounter {[4 := 5]} 4));
   mkCrdtOp 8 TGCounter [1; 2]].

Definition example_typed (id : N) : CrdtType := if id =? 7 then TAWORSet else TGCounter.

Definition example_read (node : N) (ops : list CrdtOp) (id : N) : option CrdtReading :=
  m ← apply_ops (CrdtManager_new node) ops; entry_value <$> cm_entries m !! id.

Lemma crdt_managers_converge_witness :
  let ops' := reverse example_ops ++ example_ops in
  (∃ m1' m2', apply_ops (CrdtManager_new 1) example_ops = Some m1' ∧ apply_ops (CrdtManager_new 2) ops' = Some m2' ∧
    ∀ id, entry_value <$> cm_entries m1' !! id = entry_value <$> cm_entries m2' !! id) ∧
  example_read 1 example_ops 7 = Some (RSet {[ [97] ]}) ∧ example_read 2 ops' 8 = Some (RCount 7).
Proof.
  intros ops'. split; [|split; by vm_compute].
  assert (Forall (op_ok (λ _, []) example_typed) example_ops) as Hok.
  { unfold example_ops. repeat (apply Forall_cons; split; [split; [done|]|]); [..|constructor];
      intros e He%decode_type; (split; [exact He|]); by destruct e. }
  apply (crdt_managers_converge (λ _, []) example_typed); try done.
  - apply Forall_app. split; [by apply Forall_reverse|done].
  - intros id e. unfold told, ops'. rewrite omap_app. cbn [CrdtManager_new cm_entries]. rewrite lookup_empty. simpl option_list.
    rewrite !app_nil_l, elem_of_app, !list_elem_of_omap. setoid_rewrite elem_of_reverse. naive_solver.
Defined.
