(* ===== verification/ValueLayout.v ===== *)
(** * Tagged values

    The 64-bit value layout of [src/value_layout.rs] and the [Value] type of
    [src/vm.rs]: the upper 16 bits hold a tag, the lower 48 a payload; every
    bit pattern outside the tagged range is a float.  A raw value is an [N]
    below 2^64, an [i64] a [Z], an [f64] its bit pattern. *)
From Stdlib Require Import ZArith.
From S2P Require Import Prelude.

Local Open Scope N_scope.

(** ** Layout constants *)

Definition TAG_MASK : N := 0xFFFF000000000000.
Definition PAYLOAD_MASK : N := 0x0000FFFFFFFFFFFF.
Definition SIGN_BIT : N := 0x0000800000000000.
Definition TAG_SHIFT : N := 48.
Definition TAG_NIL : N := 0x7FF8000000000000.
Definition TAG_UNIT : N := 0x7FF9000000000000.
Definition TAG_BOOL : N := 0x7FFA000000000000.
Definition TAG_INT : N := 0x7FFB000000000000.
Definition TAG_PTR : N := 0x7FFC000000000000.
Definition TAG_ACTOR : N := 0x7FFD000000000000.
Definition TAG_STRING : N := 0x7FFE000000000000.
Definition TAG_CLOSURE : N := 0x7FF7000000000000.
Definition TAG_OBJECT : N := 0x7FF5000000000000.
Definition INT48_MAX : Z := 0x00007FFFFFFFFFFF.
Definition INT48_MIN : Z := (-0x0000800000000000)%Z.
Definition CANONICAL_NAN_BITS : N := 0xFFF8000000000001.
Definition EXPONENT_MASK : N := 0x7FF0000000000000.
Definition MANTISSA_MASK : N := 0x000FFFFFFFFFFFFF.

(** ** Helpers of [value_layout.rs] *)

Definition int48_in_range (n : Z) : bool := (INT48_MIN <=? n)%Z && (n <=? INT48_MAX)%Z.

(** [n as u64] for an [i64]. *)
Definition i64_as_u64 (n : Z) : N := Z.to_N (n mod 2 ^ 64).
(** [n as i64] for a [u64]. *)
Definition u64_as_i64 (n : N) : Z :=
  if n <? 2 ^ 63 then Z.of_N n else (Z.of_N n - 2 ^ 64)%Z.

Definition tag_of (raw : N) : N := N.shiftr raw TAG_SHIFT.
Definition is_int_raw (raw : N) : bool := N.land raw TAG_MASK =? TAG_INT.
Definition is_ptr_raw (raw : N) : bool := N.land raw TAG_MASK =? TAG_PTR.

Definition sext48 (bits : N) : Z :=
  if negb (N.land bits SIGN_BIT =? 0)
  then u64_as_i64 (N.lor bits 0xFFFF000000000000)
  else u64_as_i64 bits.

Definition as_int_raw (raw : N) : Z := sext48 (N.land raw PAYLOAD_MASK).
Definition as_ptr_raw (raw : N) : N := as_u32 (N.land raw 0xFFFFFFFF).
Definition tag_int (payload : Z) : N := N.lor TAG_INT (N.land (i64_as_u64 payload) PAYLOAD_MASK).
Definition tag_bool (b : bool) : N := N.lor TAG_BOOL (N.b2n b).
Definition tag_ptr (offset : N) : N := N.lor TAG_PTR offset.
Definition tag_object (id : N) : N := N.lor TAG_OBJECT (N.land id PAYLOAD_MASK).
Definition tag_closure (payload : N) : N := N.lor TAG_CLOSURE (N.land payload PAYLOAD_MASK).

(** [!PAYLOAD_MASK] is [TAG_MASK]. *)
Definition ptr_fits_payload (addr : N) : bool := N.land addr (N.lxor PAYLOAD_MASK (N.ones 64)) =? 0.

Definition is_float_raw (raw : N) : bool :=
  negb (N.land raw EXPONENT_MASK =? EXPONENT_MASK)
  || (N.land raw MANTISSA_MASK =? 0)
  || (raw =? CANONICAL_NAN_BITS).

(** The argument is [f.to_bits()]. *)
Definition float_bits (bits : N) : N := if is_float_raw bits then bits else CANONICAL_NAN_BITS.

(** ** The [Value] of the VM *)

Definition Value_nil : N := TAG_NIL.
Definition Value_unit : N := TAG_UNIT.
Definition Value_int (n : Z) : N := N.lor TAG_INT (N.land (i64_as_u64 n) PAYLOAD_MASK).
Definition Value_float (bits : N) : N := bits.
Definition Value_bool (b : bool) : N := N.lor TAG_BOOL (N.b2n b).
Definition Value_actor_ref (id : N) : N := N.lor TAG_ACTOR (N.land id PAYLOAD_MASK).
Definition Value_closure (id : N) : N := N.lor TAG_CLOSURE (N.land id PAYLOAD_MASK).
Definition Value_object (id : N) : N := tag_object id.
(** [None] is the failed assertion. *)
Definition Value_ptr (addr : N) : option N :=
  if ptr_fits_payload addr then Some (N.lor TAG_PTR addr) else None.
Definition Value_string (id : N) : N := N.lor TAG_STRING id.

Definition Value_is_nil (raw : N) : bool := raw =? TAG_NIL.
Definition Value_is_unit (raw : N) : bool := raw =? TAG_UNIT.
Definition Value_is_int (raw : N) : bool := N.land raw TAG_MASK =? TAG_INT.
Definition Value_is_float (raw : N) : bool := is_float_raw raw.
Definition Value_is_bool (raw : N) : bool := N.land raw TAG_MASK =? TAG_BOOL.
Definition Value_is_actor_ref (raw : N) : bool := N.land raw TAG_MASK =? TAG_ACTOR.
Definition Value_is_ptr (raw : N) : bool := N.land raw TAG_MASK =? TAG_PTR.
Definition Value_is_string (raw : N) : bool := N.land raw TAG_MASK =? TAG_STRING.
Definition Value_is_closure (raw : N) : bool := N.land raw TAG_MASK =? TAG_CLOSURE.
Definition Value_is_object (raw : N) : bool := N.land raw TAG_MASK =? TAG_OBJECT.

Definition Value_as_int (raw : N) : option Z :=
  if N.land raw TAG_MASK =? TAG_INT then Some (sext48 (N.land raw PAYLOAD_MASK)) else None.
Definition Value_as_float (raw : N) : option N := if is_float_raw raw then Some raw else None.
Definition Value_as_bool (raw : N) : option bool :=
  if N.land raw TAG_MASK =? TAG_BOOL then Some (negb (N.land raw 1 =? 0)) else None.
Definition Value_as_actor_id (raw : N) : option N :=
  if N.land raw TAG_MASK =? TAG_ACTOR then Some (N.land raw PAYLOAD_MASK) else None.
Definition Value_as_ptr (raw : N) : option N :=
  if N.land raw TAG_MASK =? TAG_PTR then Some (N.land raw PAYLOAD_MASK) else None.
Definition Value_as_object_id (raw : N) : option N :=
  if Value_is_object raw then Some (N.land raw PAYLOAD_MASK) else None.
Definition Value_as_string_id (raw : N) : option N :=
  if Value_is_string raw then Some (as_u32 (N.land raw PAYLOAD_MASK)) else None.

Definition Value_try_from_untrusted_bits (raw : N) : option N :=
  if N.land raw TAG_MASK =? TAG_PTR then None else Some raw.

(** ** Fields of a raw value *)

Lemma land_payload raw : N.land raw PAYLOAD_MASK = raw mod 2 ^ 48.
Proof. apply (N.land_ones raw 48). Qed.

Lemma land_tag raw : raw < 2 ^ 64 → N.land raw TAG_MASK = (raw / 2 ^ 48) * 2 ^ 48.
Proof.
  intros Hraw. transitivity (N.ldiff raw (N.ones 48)).
  - transitivity (N.land raw (N.ldiff (N.ones 64) (N.ones 48))); [done|].
    apply N.bits_inj. intros i. rewrite N.land_spec, !N.ldiff_spec.
    destruct (N.ltb_spec i 64).
    + rewrite (N.ones_spec_low 64) by done. by destruct (N.testbit raw i).
    + by rewrite (testbit_small raw 64).
  - by rewrite N.ldiff_ones_r, N.shiftl_mul_pow2, N.shiftr_div_pow2.
Qed.

(** A tag test compares the upper 16 bits. *)
Lemma tag_test raw t : raw < 2 ^ 64 → (N.land raw TAG_MASK =? t * 2 ^ 48) = (raw / 2 ^ 48 =? t).
Proof.
  intros. rewrite land_tag by done. apply eq_true_iff_eq. rewrite !N.eqb_eq.
  split; [|by intros ->]. intros Heq. apply N.mul_cancel_r in Heq; done.
Qed.

Lemma lor_tag t p : p < 2 ^ 48 → N.lor (t * 2 ^ 48) p = t * 2 ^ 48 + p.
Proof. intros. rewrite <-lor_shiftl_add by done. by rewrite N.shiftl_mul_pow2. Qed.

Lemma tagged_fields t p :
  p < 2 ^ 48 → (t * 2 ^ 48 + p) / 2 ^ 48 = t ∧ (t * 2 ^ 48 + p) mod 2 ^ 48 = p.
Proof.
  intros Hp. split.
  - rewrite N.div_add_l by done. rewrite N.div_small by done. lia.
  - rewrite N.add_comm, N.Div0.mod_add. by apply N.mod_small.
Qed.

Lemma payload_lt n : n mod 2 ^ 48 < 2 ^ 48.
Proof. by apply N.mod_lt. Qed.

(** The tag of each kind. *)
Ltac tag_const t :=
  let k := eval vm_compute in (t / 2 ^ 48) in change t with (k * 2 ^ 48).

Lemma tagged_lt t p : t < 2 ^ 16 → p < 2 ^ 48 → t * 2 ^ 48 + p < 2 ^ 64.
Proof.
  intros Ht Hp. change (2 ^ 64) with (2 ^ 16 * 2 ^ 48).
  assert ((t + 1) * 2 ^ 48 ≤ 2 ^ 16 * 2 ^ 48) by (apply N.mul_le_mono_r; lia). lia.
Qed.

Lemma sext48_spec p :
  p < 2 ^ 48 → sext48 p = if p <? 2 ^ 47 then Z.of_N p else (Z.of_N p - 2 ^ 48)%Z.
Proof.
  intros Hp. unfold sext48. change SIGN_BIT with (2 ^ 47). rewrite land_pow2.
  rewrite (testbit_top p 47) by done. destruct (N.ltb_spec p (2 ^ 47)) as [Hlt|Hge].
  - cbn. unfold u64_as_i64. rewrite (proj2 (N.ltb_lt _ _)); [done|].
    eapply N.lt_trans; [exact Hlt|done].
  - cbn [negb]. replace (2 ^ 47 =? 0) with false by done. cbn [negb].
    rewrite N.lor_comm. change 0xFFFF000000000000 with (65535 * 2 ^ 48).
    rewrite lor_tag by done. unfold u64_as_i64.
    rewrite (proj2 (N.ltb_ge _ _)) by (change (2 ^ 63) with (32768 * 2 ^ 48); lia). lia.
Qed.

(** The two's complement value of the low 48 bits. *)
Definition wrap48 (n : Z) : Z := ((n + 2 ^ 47) mod 2 ^ 48 - 2 ^ 47)%Z.

Lemma i64_as_u64_low n : Z.of_N (i64_as_u64 n mod 2 ^ 48) = (n mod 2 ^ 48)%Z.
Proof.
  unfold i64_as_u64. rewrite N2Z.inj_mod, Z2N.id by (apply Z.mod_pos_bound; done).
  change (Z.of_N (2 ^ 48)) with (2 ^ 48)%Z.
  apply Z.mod_mod_divide. by exists (2 ^ 16)%Z.
Qed.

Lemma sext48_wrap n : sext48 (i64_as_u64 n mod 2 ^ 48) = wrap48 n.
Proof.
  rewrite sext48_spec by apply payload_lt. pose proof (i64_as_u64_low n) as Hlow.
  set (p := i64_as_u64 n mod 2 ^ 48) in *. rewrite Hlow. unfold wrap48.
  pose proof (Z.mod_pos_bound n (2 ^ 48) ltac:(done)) as Hb.
  assert ((p <? 2 ^ 47) = (n mod 2 ^ 48 <? 2 ^ 47)%Z) as ->.
  { rewrite <-Hlow. apply eq_true_iff_eq. rewrite N.ltb_lt, Z.ltb_lt. lia. }
  rewrite Zplus_mod. change (2 ^ 47 mod 2 ^ 48)%Z with (2 ^ 47)%Z.
  destruct (Z.ltb_spec (n mod 2 ^ 48) (2 ^ 47)) as [Hlt|Hge].
  - rewrite (Z.mod_small (n mod 2 ^ 48 + 2 ^ 47)); lia.
  - rewrite <-(Z.mod_unique_pos (n mod 2 ^ 48 + 2 ^ 47) (2 ^ 48) 1 (n mod 2 ^ 48 - 2 ^ 47)); lia.
Qed.

Lemma wrap48_id n : wrap48 n = n ↔ int48_in_range n = true.
Proof.
  unfold wrap48, int48_in_range, INT48_MIN, INT48_MAX.
  rewrite andb_true_iff, !Z.leb_le. split.
  - pose proof (Z.mod_pos_bound (n + 2 ^ 47) (2 ^ 48) ltac:(done)). lia.
  - intros. rewrite Z.mod_small; lia.
Qed.

(** ** Kinds of values *)

Lemma int_fields n : Value_int n = 0x7FFB * 2 ^ 48 + i64_as_u64 n mod 2 ^ 48.
Proof.
  unfold Value_int. rewrite land_payload. change TAG_INT with (0x7FFB * 2 ^ 48).
  apply lor_tag, payload_lt.
Qed.

Lemma tagged_not_float t p :
  p < 2 ^ 48 → N.land (N.shiftl t 48) EXPONENT_MASK = EXPONENT_MASK →
  N.land (N.shiftl t 48) MANTISSA_MASK ≠ 0 → t ≠ 0xFFF8 →
  is_float_raw (t * 2 ^ 48 + p) = false.
Proof.
  intros Hp He Hm Ht. unfold is_float_raw. rewrite <-lor_shiftl_add by done.
  rewrite !N.land_lor_distr_l, He. apply orb_false_iff. split; [apply orb_false_iff; split|].
  - apply negb_false_iff, N.eqb_eq. apply N.bits_inj. intros i. rewrite N.lor_spec, N.land_spec.
    by destruct (N.testbit EXPONENT_MASK i), (N.testbit p i).
  - apply N.eqb_neq. intros [? _]%N.lor_eq_0_iff. done.
  - apply N.eqb_neq. rewrite lor_shiftl_add by done. intros Heq.
    apply (f_equal (λ r, r / 2 ^ 48)) in Heq. rewrite (proj1 (tagged_fields t p Hp)) in Heq.
    apply Ht. rewrite Heq. done.
Qed.

(** The predicates of [Value], in order. *)
Definition kinds (raw : N) : list bool :=
  [Value_is_nil raw; Value_is_unit raw; Value_is_bool raw; Value_is_int raw; Value_is_ptr raw;
   Value_is_actor_ref raw; Value_is_string raw; Value_is_closure raw; Value_is_object raw;
   Value_is_float raw].

(** The tags each of the first nine predicates tests for. *)
Definition kind_tags : list N :=
  [0x7FF8; 0x7FF9; 0x7FFA; 0x7FFB; 0x7FFC; 0x7FFD; 0x7FFE; 0x7FF7; 0x7FF5].

Lemma kind_tag raw i t :
  raw < 2 ^ 64 → kind_tags !! i = Some t → kinds raw !! i = Some true → raw / 2 ^ 48 = t.
Proof.
  intros Hraw Ht Hk.
  destruct i as [|[|[|[|[|[|[|[|[|i]]]]]]]]]; cbn in Ht, Hk; simplify_eq;
    unfold Value_is_nil, Value_is_unit, Value_is_bool, Value_is_int, Value_is_ptr,
      Value_is_actor_ref, Value_is_string, Value_is_closure, Value_is_object in Hk;
    try (apply N.eqb_eq in Hk as ->; by vm_compute).
  all: match type of Hk with (N.land _ TAG_MASK =? ?c) = true =>
    let k := eval vm_compute in (c / 2 ^ 48) in change c with (k * 2 ^ 48) in Hk end.
  all: rewrite tag_test in Hk by done; by apply N.eqb_eq in Hk.
Qed.

Lemma float_untagged raw t :
  t ∈ kind_tags → raw / 2 ^ 48 = t → is_float_raw raw = false.
Proof.
  intros Ht Hraw. rewrite (N.div_mod raw (2 ^ 48)), Hraw, N.mul_comm by done.
  unfold kind_tags in Ht.
  repeat (apply elem_of_cons in Ht as [->|Ht]; [by apply tagged_not_float; [apply payload_lt|..]|]).
  by apply not_elem_of_nil in Ht.
Qed.

(** The kinds of values are disjoint: no raw 64-bit value satisfies two of
    the ten type predicates, and tagged values are never taken for floats. *)
Theorem value_kinds_disjoint (raw : N) (i j : nat) :
  raw < 2 ^ 64 → kinds raw !! i = Some true → kinds raw !! j = Some true → i = j.
Proof.
  intros Hraw Hi Hj.
  assert (∀ k, kinds raw !! k = Some true → k = 9%nat ∨ ∃ t, kind_tags !! k = Some t) as Hcase.
  { intros k Hk. destruct k as [|[|[|[|[|[|[|[|[|[|k]]]]]]]]]]; first [by left|right; by eexists|done]. }
  assert (∀ k t, kinds raw !! k = Some true → kind_tags !! k = Some t →
    kinds raw !! 9%nat = Some true → False) as Hfloat.
  { intros k t Hk Ht Hf. simpl in Hf. unfold Value_is_float in Hf.
    rewrite (float_untagged raw t) in Hf; [done|by eapply list_elem_of_lookup_2|].
    by eapply kind_tag. }
  destruct (Hcase i Hi) as [->|[t Ht]], (Hcase j Hj) as [->|[t' Ht']]; [done|..].
  - exfalso. eauto.
  - exfalso. eauto.
  - rewrite <-(kind_tag raw i t Hraw Ht Hi), (kind_tag raw j t' Hraw Ht' Hj) in Ht.
    apply (NoDup_lookup kind_tags i j t'); [|done|done].
    apply (bool_decide_unpack _). by vm_compute.
Qed.

Lemma value_kinds_disjoint_witness : kinds (Value_int 7) !! 3%nat = Some true ∧ 3%nat = 3%nat.
Proof.
  split; [by vm_compute|]. apply (value_kinds_disjoint (Value_int 7) 3 3); by vm_compute.
Defined.

(** ** Round trips *)

(** A raw value built from a tag and a payload answers its tag test and gives
    the payload back. *)
Lemma tagged_access t p :
  t < 2 ^ 16 → p < 2 ^ 48 →
  N.land (N.lor (t * 2 ^ 48) p) TAG_MASK = t * 2 ^ 48 ∧
  N.land (N.lor (t * 2 ^ 48) p) PAYLOAD_MASK = p.
Proof.
  intros Ht Hp. rewrite lor_tag by done.
  destruct (tagged_fields t p Hp) as [Hd Hm].
  rewrite land_tag, land_payload, Hd by (by apply tagged_lt). done.
Qed.

Lemma id_round_trip tag t id :
  tag = t * 2 ^ 48 → t < 2 ^ 16 → id < 2 ^ 48 →
  N.land (N.lor tag (N.land id PAYLOAD_MASK)) TAG_MASK = tag ∧
  N.land (N.lor tag (N.land id PAYLOAD_MASK)) PAYLOAD_MASK = id.
Proof.
  intros -> Ht Hid. rewrite land_payload, (N.mod_small id) by done. by apply tagged_access.
Qed.

Lemma ptr_fits_spec addr : addr < 2 ^ 64 → ptr_fits_payload addr = true ↔ addr < 2 ^ 48.
Proof.
  intros Ha. unfold ptr_fits_payload. change (N.lxor PAYLOAD_MASK (N.ones 64)) with TAG_MASK.
  rewrite land_tag, N.eqb_eq by done. split.
  - intros Heq. apply N.mul_eq_0_l in Heq; [|done]. by apply N.div_small_iff in Heq.
  - intros. by rewrite N.div_small.
Qed.



(** ** Floats *)

(** The bit patterns of IEEE NaNs. *)
Definition is_nan (bits : N) : bool :=
  (N.land bits EXPONENT_MASK =? EXPONENT_MASK) && negb (N.land bits MANTISSA_MASK =? 0).

Lemma float_bits_lt bits : bits < 2 ^ 64 → float_bits bits < 2 ^ 64.
Proof. unfold float_bits. by destruct (is_float_raw bits). Qed.

Lemma float_bits_float bits : is_float_raw (float_bits bits) = true.
Proof. unfold float_bits. destruct (is_float_raw bits) eqn:Hf; [done|]. by vm_compute. Qed.

(** A float is of no other kind. *)
Lemma float_kinds raw : raw < 2 ^ 64 → is_float_raw raw = true → kinds raw = replicate 9 false ++ [true].
Proof.
  intros Hraw Hf. apply list_eq. intros i.
  destruct (decide (i < 9)%nat) as [Hi|Hi].
  - assert (∃ b, kinds raw !! i = Some b) as [b Hb] by (apply lookup_lt_is_Some; simpl; lia).
    rewrite Hb, lookup_app_l, lookup_replicate_2 by (rewrite ?length_replicate; lia). f_equal.
    destruct b; [|done]. assert (i = 9%nat); [|lia]. apply (value_kinds_disjoint raw); [done..|]. simpl. by f_equal.
  - destruct (decide (i = 9)%nat) as [->|]; [simpl; by f_equal|].
    rewrite !lookup_ge_None_2; [done|simpl; lia..].
Qed.

(** [C34] Floats.  What [float_bits] yields for a float is a float and of none
    of the nine other kinds of values: the pattern itself for everything that
    is no NaN, the canonical NaN, which is a NaN, for every NaN.
    [Value::float], which stores the pattern as it is, gives the float back
    exactly for the patterns that are no NaN and the canonical NaN; every other
    NaN is not a float any more. *)
Theorem float_boxing (bits : N) :
  bits < 2 ^ 64 →
  kinds (float_bits bits) = replicate 9 false ++ [true] ∧
  is_nan (float_bits bits) = is_nan bits ∧
  (is_nan bits = false → float_bits bits = bits) ∧
  (is_nan bits = true → float_bits bits = CANONICAL_NAN_BITS) ∧
  (Value_as_float (Value_float bits) =
     if is_nan bits && negb (bits =? CANONICAL_NAN_BITS) then None else Some bits).
Proof.
  intros Hbits. split; [by apply float_kinds; [apply float_bits_lt|apply float_bits_float]|].
  unfold float_bits, Value_as_float, Value_float, is_nan, is_float_raw.
  destruct (N.land bits EXPONENT_MASK =? EXPONENT_MASK) eqn:He, (N.land bits MANTISSA_MASK =? 0) eqn:Hm,
    (bits =? CANONICAL_NAN_BITS) eqn:Hc; simpl; rewrite ?He, ?Hm, ?Hc;
    try (apply N.eqb_eq in Hc as ->); try done.
Qed.

Lemma float_boxing_witness :
  kinds (float_bits 0x7FF8000000000000) = replicate 9 false ++ [true] ∧
  float_bits 0x3FF0000000000000 = 0x3FF0000000000000.
Proof.
  split.
  - apply (float_boxing 0x7FF8000000000000). by vm_compute.
  - apply (float_boxing 0x3FF0000000000000); by vm_compute.
Defined.

(** The default quiet NaN, stored as it is, is the value [nil]; a NaN with
    another payload is an integer. *)
Theorem value_float_nan_aliases :
  Value_is_nil (Value_float 0x7FF8000000000000) = true ∧
  Value_as_int (Value_float 0x7FFB000000000007) = Some 7%Z.
Proof. by vm_compute. Qed.
