(* ===== verification/Bytecode.v ===== *)
(** * Bytecode: opcodes, instruction words and modules

    [src/bytecode.rs]: the opcode table, the 32-bit instruction encoding and
    the parts of [CodeModule] that the Core VM executes. *)
From Stdlib Require Import ZArith.
From S2P Require Import Prelude Bytes.

Local Open Scope N_scope.

(** ** Opcodes *)

Inductive OpCode :=
  | Op_Nop | Op_Halt | Op_Panic | Op_Const0 | Op_Const1 | Op_Const2 | Op_ConstM1 | Op_ConstU
  | Op_ConstL | Op_Load | Op_Store | Op_Move | Op_Pop | Op_Dup | Op_Swap | Op_IAdd | Op_ISub
  | Op_IMul | Op_IDiv | Op_IMod | Op_INeg | Op_IInc | Op_IDec | Op_IPow | Op_Xor | Op_Shl
  | Op_Shr | Op_BitAnd | Op_BitOr | Op_FAdd | Op_FSub | Op_FMul | Op_FDiv | Op_FNeg | Op_FMod
  | Op_IToF | Op_FToI | Op_FToS | Op_FPow | Op_ICmpEq | Op_ICmpLt | Op_ICmpGt | Op_ICmpLe
  | Op_ICmpGe | Op_FCmpEq | Op_FCmpLt | Op_FCmpGt | Op_SCmpEq | Op_Not | Op_And | Op_Or | Op_Jmp
  | Op_JmpT | Op_JmpF | Op_Switch | Op_Call | Op_TailCall | Op_Ret | Op_RetVal | Op_Closure
  | Op_CapLoad | Op_CapStore | Op_FreeVar | Op_ClosureCall | Op_Alloc | Op_FieldL | Op_FieldS
  | Op_ArrAlloc | Op_ArrLoad | Op_ArrStore | Op_ArrLen | Op_TupleMk | Op_TupleL | Op_RecMk
  | Op_RecL | Op_RecS | Op_IsTag | Op_Unpack | Op_RecCopy | Op_Copy | Op_Drop | Op_Spawn
  | Op_Send | Op_Ask | Op_SelfOp | Op_Receive | Op_Monitor | Op_Demon | Op_Link | Op_Unlink
  | Op_Exit | Op_Yield | Op_StateGet | Op_StateSet | Op_Emit | Op_SignalWait | Op_ReceiveMatch
  | Op_Perform | Op_Handle | Op_Resume | Op_Unwind | Op_PerformDirect | Op_PyImport
  | Op_PyGetAttr | Op_PyCall | Op_PyCallKw | Op_PySetAttr | Op_PyToNu | Op_PyFromNu
  | Op_PyRelease | Op_ReceiveWait | Op_ReceiveCommit | Op_FFICall | Op_PerformAsync | Op_NodeId
  | Op_Migrate | Op_RSend | Op_RAsk | Op_RSpawn | Op_Gossip | Op_SConcat | Op_SPrint | Op_SRead
  | Op_FOpen | Op_FRead | Op_FWrite | Op_FClose | Op_Print | Op_DbgBreak | Op_DbgPrint
  | Op_DbgStack | Op_MetaType | Op_MetaCap | Op_SpillLoad | Op_SpillStore.

#[export] Instance OpCode_eq_dec : EqDecision OpCode.
Proof. solve_decision. Defined.

(** The discriminants. *)
Definition OpCode_as_u8 (o : OpCode) : N :=
  match o with
  | Op_Nop => 0x00 | Op_Halt => 0x01 | Op_Panic => 0x02 | Op_Const0 => 0x03 | Op_Const1 => 0x04
  | Op_Const2 => 0x05 | Op_ConstM1 => 0x06 | Op_ConstU => 0x07 | Op_ConstL => 0x08
  | Op_Load => 0x10 | Op_Store => 0x11 | Op_Move => 0x12 | Op_Pop => 0x13 | Op_Dup => 0x14
  | Op_Swap => 0x15 | Op_IAdd => 0x20 | Op_ISub => 0x21 | Op_IMul => 0x22 | Op_IDiv => 0x23
  | Op_IMod => 0x24 | Op_INeg => 0x25 | Op_IInc => 0x26 | Op_IDec => 0x27 | Op_IPow => 0x28
  | Op_Xor => 0x29 | Op_Shl => 0x2A | Op_Shr => 0x2B | Op_BitAnd => 0x2C | Op_BitOr => 0x2D
  | Op_FAdd => 0x30 | Op_FSub => 0x31 | Op_FMul => 0x32 | Op_FDiv => 0x33 | Op_FNeg => 0x34
  | Op_FMod => 0x35 | Op_IToF => 0x36 | Op_FToI => 0x37 | Op_FToS => 0x38 | Op_FPow => 0x39
  | Op_ICmpEq => 0x40 | Op_ICmpLt => 0x41 | Op_ICmpGt => 0x42 | Op_ICmpLe => 0x43
  | Op_ICmpGe => 0x44 | Op_FCmpEq => 0x45 | Op_FCmpLt => 0x46 | Op_FCmpGt => 0x47
  | Op_SCmpEq => 0x48 | Op_Not => 0x49 | Op_And => 0x4A | Op_Or => 0x4B | Op_Jmp => 0x50
  | Op_JmpT => 0x51 | Op_JmpF => 0x52 | Op_Switch => 0x53 | Op_Call => 0x54 | Op_TailCall => 0x55
  | Op_Ret => 0x56 | Op_RetVal => 0x57 | Op_Closure => 0x60 | Op_CapLoad => 0x61
  | Op_CapStore => 0x62 | Op_FreeVar => 0x63 | Op_ClosureCall => 0x64 | Op_Alloc => 0x70
  | Op_FieldL => 0x71 | Op_FieldS => 0x72 | Op_ArrAlloc => 0x73 | Op_ArrLoad => 0x74
  | Op_ArrStore => 0x75 | Op_ArrLen => 0x76 | Op_TupleMk => 0x77 | Op_TupleL => 0x78
  | Op_RecMk => 0x79 | Op_RecL => 0x7A | Op_RecS => 0x7B | Op_IsTag => 0x7C | Op_Unpack => 0x7D
  | Op_RecCopy => 0x9D | Op_Copy => 0x7E | Op_Drop => 0x7F | Op_Spawn => 0x80 | Op_Send => 0x81
  | Op_Ask => 0x82 | Op_SelfOp => 0x83 | Op_Receive => 0x84 | Op_Monitor => 0x85
  | Op_Demon => 0x86 | Op_Link => 0x87 | Op_Unlink => 0x88 | Op_Exit => 0x89 | Op_Yield => 0x8A
  | Op_StateGet => 0x8B | Op_StateSet => 0x8C | Op_Emit => 0x8D | Op_SignalWait => 0x8E
  | Op_ReceiveMatch => 0x8F | Op_Perform => 0x90 | Op_Handle => 0x91 | Op_Resume => 0x92
  | Op_Unwind => 0x93 | Op_PerformDirect => 0x9C | Op_PyImport => 0x94 | Op_PyGetAttr => 0x95
  | Op_PyCall => 0x96 | Op_PyCallKw => 0x97 | Op_PySetAttr => 0x98 | Op_PyToNu => 0x99
  | Op_PyFromNu => 0x9A | Op_PyRelease => 0x9B | Op_ReceiveWait => 0xA0
  | Op_ReceiveCommit => 0xA1 | Op_FFICall => 0xB0 | Op_PerformAsync => 0xC6 | Op_NodeId => 0xD0
  | Op_Migrate => 0xD1 | Op_RSend => 0xD2 | Op_RAsk => 0xD3 | Op_RSpawn => 0xD4
  | Op_Gossip => 0xD5 | Op_SConcat => 0xE0 | Op_SPrint => 0xE1 | Op_SRead => 0xE2
  | Op_FOpen => 0xE3 | Op_FRead => 0xE4 | Op_FWrite => 0xE5 | Op_FClose => 0xE6
  | Op_Print => 0xE7 | Op_DbgBreak => 0xF0 | Op_DbgPrint => 0xF1 | Op_DbgStack => 0xF2
  | Op_MetaType => 0xF3 | Op_MetaCap => 0xF4 | Op_SpillLoad => 0xF5 | Op_SpillStore => 0xF6
  end.

Definition OpCode_from_u8 (v : N) : option OpCode :=
  match v with
  | 0x00 => Some Op_Nop | 0x01 => Some Op_Halt | 0x02 => Some Op_Panic | 0x03 => Some Op_Const0
  | 0x04 => Some Op_Const1 | 0x05 => Some Op_Const2 | 0x06 => Some Op_ConstM1
  | 0x07 => Some Op_ConstU | 0x08 => Some Op_ConstL | 0x10 => Some Op_Load
  | 0x11 => Some Op_Store | 0x12 => Some Op_Move | 0x13 => Some Op_Pop | 0x14 => Some Op_Dup
  | 0x15 => Some Op_Swap | 0x20 => Some Op_IAdd | 0x21 => Some Op_ISub | 0x22 => Some Op_IMul
  | 0x23 => Some Op_IDiv | 0x24 => Some Op_IMod | 0x25 => Some Op_INeg | 0x26 => Some Op_IInc
  | 0x27 => Some Op_IDec | 0x28 => Some Op_IPow | 0x29 => Some Op_Xor | 0x2A => Some Op_Shl
  | 0x2B => Some Op_Shr | 0x2C => Some Op_BitAnd | 0x2D => Some Op_BitOr | 0x30 => Some Op_FAdd
  | 0x31 => Some Op_FSub | 0x32 => Some Op_FMul | 0x33 => Some Op_FDiv | 0x34 => Some Op_FNeg
  | 0x35 => Some Op_FMod | 0x36 => Some Op_IToF | 0x37 => Some Op_FToI | 0x38 => Some Op_FToS
  | 0x40 => Some Op_ICmpEq | 0x39 => Some Op_FPow | 0x41 => Some Op_ICmpLt
  | 0x42 => Some Op_ICmpGt | 0x43 => Some Op_ICmpLe | 0x44 => Some Op_ICmpGe
  | 0x45 => Some Op_FCmpEq | 0x46 => Some Op_FCmpLt | 0x47 => Some Op_FCmpGt
  | 0x48 => Some Op_SCmpEq | 0x49 => Some Op_Not | 0x4A => Some Op_And | 0x4B => Some Op_Or
  | 0x50 => Some Op_Jmp | 0x51 => Some Op_JmpT | 0x52 => Some Op_JmpF | 0x53 => Some Op_Switch
  | 0x54 => Some Op_Call | 0x55 => Some Op_TailCall | 0x56 => Some Op_Ret
  | 0x57 => Some Op_RetVal | 0x60 => Some Op_Closure | 0x61 => Some Op_CapLoad
  | 0x62 => Some Op_CapStore | 0x63 => Some Op_FreeVar | 0x64 => Some Op_ClosureCall
  | 0x70 => Some Op_Alloc | 0x71 => Some Op_FieldL | 0x72 => Some Op_FieldS
  | 0x73 => Some Op_ArrAlloc | 0x74 => Some Op_ArrLoad | 0x75 => Some Op_ArrStore
  | 0x76 => Some Op_ArrLen | 0x77 => Some Op_TupleMk | 0x78 => Some Op_TupleL
  | 0x79 => Some Op_RecMk | 0x7A => Some Op_RecL | 0x7B => Some Op_RecS | 0x7C => Some Op_IsTag
  | 0x7D => Some Op_Unpack | 0x7E => Some Op_Copy | 0x7F => Some Op_Drop | 0x80 => Some Op_Spawn
  | 0x81 => Some Op_Send | 0x82 => Some Op_Ask | 0x83 => Some Op_SelfOp | 0x84 => Some Op_Receive
  | 0x85 => Some Op_Monitor | 0x86 => Some Op_Demon | 0x87 => Some Op_Link
  | 0x88 => Some Op_Unlink | 0x89 => Some Op_Exit | 0x8A => Some Op_Yield
  | 0x8B => Some Op_StateGet | 0x8C => Some Op_StateSet | 0x8D => Some Op_Emit
  | 0x8E => Some Op_SignalWait | 0x8F => Some Op_ReceiveMatch | 0x90 => Some Op_Perform
  | 0x91 => Some Op_Handle | 0x92 => Some Op_Resume | 0x93 => Some Op_Unwind
  | 0x94 => Some Op_PyImport | 0x95 => Some Op_PyGetAttr | 0x96 => Some Op_PyCall
  | 0x97 => Some Op_PyCallKw | 0x98 => Some Op_PySetAttr | 0x99 => Some Op_PyToNu
  | 0x9A => Some Op_PyFromNu | 0x9B => Some Op_PyRelease | 0x9D => Some Op_RecCopy
  | 0x9C => Some Op_PerformDirect | 0xA0 => Some Op_ReceiveWait | 0xA1 => Some Op_ReceiveCommit
  | 0xB0 => Some Op_FFICall | 0xC6 => Some Op_PerformAsync | 0xD0 => Some Op_NodeId
  | 0xD1 => Some Op_Migrate | 0xD2 => Some Op_RSend | 0xD3 => Some Op_RAsk
  | 0xD4 => Some Op_RSpawn | 0xD5 => Some Op_Gossip | 0xE0 => Some Op_SConcat
  | 0xE1 => Some Op_SPrint | 0xE2 => Some Op_SRead | 0xE3 => Some Op_FOpen
  | 0xE4 => Some Op_FRead | 0xE5 => Some Op_FWrite | 0xE6 => Some Op_FClose
  | 0xE7 => Some Op_Print | 0xF0 => Some Op_DbgBreak | 0xF1 => Some Op_DbgPrint
  | 0xF2 => Some Op_DbgStack | 0xF3 => Some Op_MetaType | 0xF4 => Some Op_MetaCap
  | 0xF5 => Some Op_SpillLoad | 0xF6 => Some Op_SpillStore
  | _ => None
  end.

(** ** Instruction words *)

Record Instruction := mkInstruction { i_opcode : OpCode; i_op1 : N; i_op2 : N; i_op3 : N }.

Definition Instruction_new0 (o : OpCode) : Instruction := mkInstruction o 0 0 0.
Definition Instruction_new1 (o : OpCode) (a : N) : Instruction := mkInstruction o a 0 0.
Definition Instruction_new2 (o : OpCode) (a b : N) : Instruction := mkInstruction o a b 0.
Definition Instruction_new3 (o : OpCode) (a b c : N) : Instruction := mkInstruction o a b c.

Definition Instruction_encode (self : Instruction) : N :=
  N.lor (N.lor (N.lor (N.shiftl (OpCode_as_u8 (i_opcode self)) 24) (N.shiftl (i_op1 self) 16))
           (N.shiftl (i_op2 self) 8)) (i_op3 self).

Definition as_u8 (n : N) : N := n mod 256.

Definition Instruction_decode (encoded : N) : option Instruction :=
  opcode ← OpCode_from_u8 (as_u8 (N.shiftr encoded 24));
  Some (mkInstruction opcode (as_u8 (N.land (N.shiftr encoded 16) 0xFF))
          (as_u8 (N.land (N.shiftr encoded 8) 0xFF)) (as_u8 (N.land encoded 0xFF))).

Definition Instruction_imm16 (self : Instruction) : N := N.lor (N.shiftl (i_op1 self) 8) (i_op2 self).

(** [n as i16] for a [u16]. *)
Definition u16_as_i16 (n : N) : Z := if n <? 2 ^ 15 then Z.of_N n else (Z.of_N n - 2 ^ 16)%Z.

Definition Instruction_simm16 (self : Instruction) : Z := u16_as_i16 (Instruction_imm16 self).
Definition Instruction_offset16 (self : Instruction) : Z :=
  u16_as_i16 (N.lor (N.shiftl (i_op2 self) 8) (i_op3 self)).

(** ** Modules *)

Inductive Constant :=
  | CInt (n : Z) | CFloat (bits : N) | CString (s : bytes) | CBool (b : bool) | CNil | CUnit
  | CTypeDescriptor (s : bytes) | CFunctionRef (i : N) | CBehaviorRef (i : N).

Record HandlerBinding := mkHandlerBinding {
  hb_effect_name : bytes;
  hb_handler_offset : N;
  hb_arg_count : N;
  hb_result_reg : N;
  hb_single_shot : bool;
}.

Record HandlerTable := mkHandlerTable {
  ht_bindings : list HandlerBinding;
  ht_fallback_offset : option N;
}.

(** The executable part of [CodeModule]; behaviours, exports, metadata and
    debug tables are not consulted by the Core VM. *)
Record CodeModule := mkCodeModule {
  cm_constants : list Constant;
  cm_instructions : list Instruction;
  cm_function_table : list N;
  cm_entry_point : option N;
  cm_handler_tables : list HandlerTable;
  cm_line_table : list (N * N);
}.

Definition CodeModule_new : CodeModule := mkCodeModule [] [] [] None [] [].

Definition CodeModule_emit (self : CodeModule) (instr : Instruction) : N * CodeModule :=
  (len (cm_instructions self),
   mkCodeModule (cm_constants self) (cm_instructions self ++ [instr]) (cm_function_table self)
     (cm_entry_point self) (cm_handler_tables self) (cm_line_table self)).

Definition CodeModule_add_constant (self : CodeModule) (c : Constant) : N * CodeModule :=
  (len (cm_constants self),
   mkCodeModule (cm_constants self ++ [c]) (cm_instructions self) (cm_function_table self)
     (cm_entry_point self) (cm_handler_tables self) (cm_line_table self)).

Definition CodeModule_add_handler_table (self : CodeModule) (ht : HandlerTable) : N * CodeModule :=
  (len (cm_handler_tables self),
   mkCodeModule (cm_constants self) (cm_instructions self) (cm_function_table self)
     (cm_entry_point self) (cm_handler_tables self ++ [ht]) (cm_line_table self)).

Definition CodeModule_current_offset (self : CodeModule) : N := len (cm_instructions self).

(** [resolve_line]: the first statement on or after the requested line. *)
Definition CodeModule_resolve_line (self : CodeModule) (line : N) : option (N * N) :=
  snd <$> list_find (λ e, line ≤ e.2) (cm_line_table self).

(** ** Encoding round trip *)

Lemma OpCode_from_as o : OpCode_from_u8 (OpCode_as_u8 o) = Some o.
Proof. by destruct o. Qed.

Lemma OpCode_as_u8_lt o : OpCode_as_u8 o < 256.
Proof. by destruct o. Qed.

(** Every byte below 256, for case analysis by computation. *)
Definition all_bytes : list N := N.of_nat <$> seq 0 256.

Lemma OpCode_as_from v o : v < 256 → OpCode_from_u8 v = Some o → OpCode_as_u8 o = v.
Proof.
  intros Hv Ho.
  assert (forallb (λ v, match OpCode_from_u8 v with
    | Some o => OpCode_as_u8 o =? v | None => true end) all_bytes = true) as Hall by (by vm_compute).
  rewrite forallb_forall in Hall. specialize (Hall v). rewrite Ho in Hall.
  apply N.eqb_eq, Hall, list_elem_of_In.
  apply list_elem_of_fmap. exists (N.to_nat v). split; [lia|]. apply elem_of_seq. lia.
Qed.

Definition instr_ok (i : Instruction) : Prop := i_op1 i < 256 ∧ i_op2 i < 256 ∧ i_op3 i < 256.

(** The word is the positional value of its four bytes. *)
Lemma encode_value i :
  instr_ok i →
  Instruction_encode i = ((OpCode_as_u8 (i_opcode i) * 256 + i_op1 i) * 256 + i_op2 i) * 256 + i_op3 i.
Proof.
  intros (H1 & H2 & H3). unfold Instruction_encode.
  change 24 with (8 + 16). change 16 with (8 + 8) at 2. rewrite <-(N.shiftl_shiftl _ 8 16).
  change 16 with (8 + 8). rewrite <-!(N.shiftl_shiftl _ 8 8).
  rewrite <-!N.shiftl_lor, (lor_shiftl_add _ (i_op1 i) 8), (lor_shiftl_add _ (i_op2 i) 8),
    (lor_shiftl_add _ (i_op3 i) 8) by done. done.
Qed.

Lemma decode_value o b1 b2 b3 :
  o < 256 → b1 < 256 → b2 < 256 → b3 < 256 →
  Instruction_decode (((o * 256 + b1) * 256 + b2) * 256 + b3)
  = (λ op, mkInstruction op b1 b2 b3) <$> OpCode_from_u8 o.
Proof.
  intros Ho H1 H2 H3. unfold Instruction_decode, as_u8.
  change 0xFF with (N.ones 8). rewrite !N.land_ones, !N.shiftr_div_pow2. change (2 ^ 8) with 256.
  change (2 ^ 24) with (256 * 256 * 256). change (2 ^ 16) with (256 * 256).
  rewrite <-!N.Div0.div_div, !N.div_add_l, !(N.div_small b3), !N.add_0_r by done.
  rewrite !N.div_add_l, !(N.div_small b2), !N.add_0_r by done.
  rewrite !N.div_add_l, !(N.div_small b1), !N.add_0_r by done.
  assert (∀ a b, b < 256 → (a * 256 + b) mod 256 = b) as Hmod.
  { intros a b Hb. rewrite N.add_comm, N.Div0.mod_add. by apply N.mod_small. }
  rewrite !Hmod, (N.mod_small o), !N.mod_small by done. by destruct (OpCode_from_u8 o).
Qed.

(** [C21] Instruction words.  Decoding an encoded instruction returns it, and a
    word that decodes is the encoding of what it decodes to: the 135 opcodes
    have distinct bytes, unknown bytes are rejected, and no operand bit is
    lost or shared. *)
Theorem instruction_roundtrip :
  (∀ i, instr_ok i → Instruction_encode i < U32 ∧ Instruction_decode (Instruction_encode i) = Some i) ∧
  (∀ w i, w < U32 → Instruction_decode w = Some i → instr_ok i ∧ Instruction_encode i = w) ∧
  (∀ o, OpCode_from_u8 (OpCode_as_u8 o) = Some o).
Proof.
  split_and!; [| |apply OpCode_from_as].
  - intros i Hi. pose proof (OpCode_as_u8_lt (i_opcode i)). rewrite encode_value by done.
    destruct Hi as (H1 & H2 & H3). split; [unfold U32; lia|].
    rewrite decode_value, OpCode_from_as by done. by destruct i.
  - intros w i Hw Hi.
    assert (∃ o b1 b2 b3, w = ((o * 256 + b1) * 256 + b2) * 256 + b3 ∧
      o < 256 ∧ b1 < 256 ∧ b2 < 256 ∧ b3 < 256) as (o & b1 & b2 & b3 & -> & Ho & H1 & H2 & H3).
    { exists (w / 256 / 256 / 256), (w / 256 / 256 mod 256), (w / 256 mod 256), (w mod 256).
      assert (∀ a, a = a / 256 * 256 + a mod 256 ∧ a mod 256 < 256) as Hdm.
      { intros a. pose proof (N.div_mod a 256 ltac:(done)). pose proof (N.mod_lt a 256 ltac:(done)). lia. }
      pose proof (Hdm w). pose proof (Hdm (w / 256)). pose proof (Hdm (w / 256 / 256)).
      set (a := w / 256) in *. set (b := a / 256) in *. set (c := b / 256) in *.
      clearbody a b c. set (x := w mod 256) in *. set (y := a mod 256) in *.
      set (z := b mod 256) in *. clearbody x y z. split_and!; word_lia. }
    rewrite decode_value in Hi by done. apply fmap_Some in Hi as (op & Hop & ->).
    split; [done|]. rewrite encode_value by done. simpl. by rewrite (OpCode_as_from o).
Qed.

Lemma instruction_roundtrip_witness :
  Instruction_encode (mkInstruction Op_IAdd 1 2 3) = 0x20010203 ∧
  Instruction_decode 0x20010203 = Some (mkInstruction Op_IAdd 1 2 3).
Proof.
  split; [by vm_compute|].
  change 0x20010203 with (Instruction_encode (mkInstruction Op_IAdd 1 2 3)).
  by apply instruction_roundtrip.
Defined.
