(* ===== verification/CoreVm.v ===== *)
(** * The Core VM

    The bytecode interpreter of [src/core_vm/mod.rs].  Register files have 256
    slots of raw tagged values ([ValueLayout]); the interpreter runs the
    topmost frame.  A Rust panic (an index out of range, or an overflow in a
    build with overflow checks) is the error [E_panic]; the other errors are the
    interpreter's own.  Standard input is a list of lines and of reads that fail,
    standard output a list of printed lines. *)
From Stdlib Require Import ZArith String.
From S2P Require Import Prelude Bytes Text ValueLayout Bytecode.

Local Open Scope N_scope.

(** ** State *)

Definition CLOSURE_ENV_FLAG : N := 0x0000400000000000.
Definition CLOSURE_ENV_IDX_MASK : N := CLOSURE_ENV_FLAG - 1.

Record ClosureEnv := mkClosureEnv { ce_func_idx : N; ce_captures : list N }.

Record Frame := mkFrame {
  f_regs : list N;
  f_pc : N;
  f_module_idx : N;
  f_return_dst : N;
  f_caller_idx : option N;
  f_closure_env : option N;
}.

Definition Frame_new (caller_idx : option N) (module_idx : N) : Frame :=
  mkFrame (replicate 256 TAG_UNIT) 0 module_idx 0 caller_idx None.

Record HandlerFrame := mkHandlerFrame {
  hf_handler_table_idx : N;
  hf_module_idx : N;
  hf_resume_pc : N;
  hf_resume_dst : N;
  hf_saved_regs : option (list N);
  hf_saved_pc : option N;
}.

Record CoreVM := mkCoreVM {
  vm_modules : list CodeModule;
  vm_frames : list Frame;
  vm_handler_stack : list HandlerFrame;
  vm_closure_envs : list ClosureEnv;
  vm_strings : list bytes;
  vm_halted : bool;
  vm_exit_code : Z;
  vm_input : list (option bytes);
  vm_output : list bytes;
}.

Definition CoreVM_new (input : list (option bytes)) : CoreVM := mkCoreVM [] [] [] [] [] false 0 input [].

Inductive VmError :=
  | E_panic
  | E_overflow (a : Z)
  | E_capstore_target
  | E_capload_outside
  | E_capload_no_captures
  | E_capload_missing (slot : N)
  | E_not_a_function (v : N)
  | E_dangling_env (idx : N)
  | E_function_not_found (idx : N)
  | E_no_continuation
  | E_table_not_found (idx : N)
  | E_binding_not_found (idx : N)
  | E_effect_name_missing
  | E_string_missing
  | E_io_read
  | E_unhandled_effect (name : bytes).

(** Field updates. *)
Definition with_frames (vm : CoreVM) (fs : list Frame) : CoreVM :=
  mkCoreVM (vm_modules vm) fs (vm_handler_stack vm) (vm_closure_envs vm) (vm_strings vm)
    (vm_halted vm) (vm_exit_code vm) (vm_input vm) (vm_output vm).
Definition with_handlers (vm : CoreVM) (hs : list HandlerFrame) : CoreVM :=
  mkCoreVM (vm_modules vm) (vm_frames vm) hs (vm_closure_envs vm) (vm_strings vm)
    (vm_halted vm) (vm_exit_code vm) (vm_input vm) (vm_output vm).
Definition with_envs (vm : CoreVM) (es : list ClosureEnv) : CoreVM :=
  mkCoreVM (vm_modules vm) (vm_frames vm) (vm_handler_stack vm) es (vm_strings vm)
    (vm_halted vm) (vm_exit_code vm) (vm_input vm) (vm_output vm).
Definition with_strings (vm : CoreVM) (ss : list bytes) : CoreVM :=
  mkCoreVM (vm_modules vm) (vm_frames vm) (vm_handler_stack vm) (vm_closure_envs vm) ss
    (vm_halted vm) (vm_exit_code vm) (vm_input vm) (vm_output vm).
Definition with_halted (vm : CoreVM) (b : bool) : CoreVM :=
  mkCoreVM (vm_modules vm) (vm_frames vm) (vm_handler_stack vm) (vm_closure_envs vm)
    (vm_strings vm) b (vm_exit_code vm) (vm_input vm) (vm_output vm).
Definition with_exit_code (vm : CoreVM) (c : Z) : CoreVM :=
  mkCoreVM (vm_modules vm) (vm_frames vm) (vm_handler_stack vm) (vm_closure_envs vm)
    (vm_strings vm) (vm_halted vm) c (vm_input vm) (vm_output vm).
Definition with_input (vm : CoreVM) (i : list (option bytes)) : CoreVM :=
  mkCoreVM (vm_modules vm) (vm_frames vm) (vm_handler_stack vm) (vm_closure_envs vm)
    (vm_strings vm) (vm_halted vm) (vm_exit_code vm) i (vm_output vm).

Definition emit_print (vm : CoreVM) (line : bytes) : CoreVM :=
  mkCoreVM (vm_modules vm) (vm_frames vm) (vm_handler_stack vm) (vm_closure_envs vm)
    (vm_strings vm) (vm_halted vm) (vm_exit_code vm) (vm_input vm) (vm_output vm ++ [line]).

Definition load_module_from_code (vm : CoreVM) (m : CodeModule) : N * CoreVM :=
  (len (vm_modules vm),
   mkCoreVM (vm_modules vm ++ [m]) (vm_frames vm) (vm_handler_stack vm) (vm_closure_envs vm)
     (vm_strings vm) (vm_halted vm) (vm_exit_code vm) (vm_input vm) (vm_output vm)).

(** ** Indexing, with the panic of an index out of range *)

Definition index {A} (l : list A) (i : N) : result A VmError := ok_or (l !! N.to_nat i) E_panic.

Definition get_reg (vm : CoreVM) (fi r : N) : result N VmError :=
  let? f := index (vm_frames vm) fi in index (f_regs f) r.

Definition set_regs (f : Frame) (regs : list N) : Frame :=
  mkFrame regs (f_pc f) (f_module_idx f) (f_return_dst f) (f_caller_idx f) (f_closure_env f).
Definition set_pc (f : Frame) (pc : N) : Frame :=
  mkFrame (f_regs f) pc (f_module_idx f) (f_return_dst f) (f_caller_idx f) (f_closure_env f).

Definition put_frame (vm : CoreVM) (fi : N) (f : Frame) : CoreVM :=
  with_frames vm (<[N.to_nat fi := f]> (vm_frames vm)).

Definition set_reg (vm : CoreVM) (fi r v : N) : result CoreVM VmError :=
  let? f := index (vm_frames vm) fi in
  let? _ := index (f_regs f) r in
  Ok (put_frame vm fi (set_regs f (<[N.to_nat r := v]> (f_regs f)))).

(** ** Strings *)

(** [strings.iter().position(|existing| existing == s)] or a push. *)
Definition intern_string (vm : CoreVM) (s : bytes) : N * CoreVM :=
  let '(idx, vm) :=
    match list_find (λ e, e = s) (vm_strings vm) with
    | Some (i, _) => (N.of_nat i, vm)
    | None => (len (vm_strings vm), with_strings vm (vm_strings vm ++ [s]))
    end in
  (N.lor TAG_STRING (N.land idx PAYLOAD_MASK), vm).

Definition resolve_string (vm : CoreVM) (value : N) : option bytes :=
  if negb (N.land value TAG_MASK =? TAG_STRING) then None
  else vm_strings vm !! N.to_nat (N.land value PAYLOAD_MASK).

(** ** Calls *)

Definition resolve_function (vm : CoreVM) (func_val : N) : result (N * option N) VmError :=
  if is_int_raw func_val then Ok (i64_as_u64 (as_int_raw func_val), None)
  else if N.land func_val TAG_MASK =? TAG_CLOSURE then
    let payload := N.land func_val PAYLOAD_MASK in
    if negb (N.land payload CLOSURE_ENV_FLAG =? 0) then
      let env_idx := N.land payload CLOSURE_ENV_IDX_MASK in
      let? env := ok_or (vm_closure_envs vm !! N.to_nat env_idx) (E_dangling_env env_idx) in
      Ok (ce_func_idx env, Some func_val)
    else Ok (payload, Some func_val)
  else Err (E_not_a_function func_val).

(** The code offset of a function of the frame's module. *)
Definition function_offset (vm : CoreVM) (module_idx func_idx : N) : result N VmError :=
  let? m := index (vm_modules vm) module_idx in
  ok_or (cm_function_table m !! N.to_nat func_idx) (E_function_not_found func_idx).

Definition push_frame (vm : CoreVM) (f : Frame) : CoreVM := with_frames vm (vm_frames vm ++ [f]).

Definition step_call (vm : CoreVM) (fi : N) (instr : Instruction) : result CoreVM VmError :=
  let? func_val := get_reg vm fi (i_op1 instr) in
  let? fc := resolve_function vm func_val in
  let? f := index (vm_frames vm) fi in
  let? code_offset := function_offset vm (f_module_idx f) fc.1 in
  let argc := N.min (i_op2 instr) 256 in
  let regs := take (N.to_nat argc) (f_regs f) ++ drop (N.to_nat argc) (replicate 256 TAG_UNIT) in
  Ok (push_frame vm (mkFrame regs code_offset (f_module_idx f) (i_op3 instr) (Some fi) fc.2)).

Definition step_closure_call (vm : CoreVM) (fi : N) (instr : Instruction) : result CoreVM VmError :=
  let? closure_val := get_reg vm fi (i_op1 instr) in
  let? fc := resolve_function vm closure_val in
  let? f := index (vm_frames vm) fi in
  let? code_offset := function_offset vm (f_module_idx f) fc.1 in
  Ok (push_frame vm (mkFrame (f_regs f) code_offset (f_module_idx f) (i_op3 instr) (Some fi) fc.2)).

Definition step_return (vm : CoreVM) (fi : N) (ret_val : N) : result (bool * CoreVM) VmError :=
  let? f := index (vm_frames vm) fi in
  match f_caller_idx f with
  | Some caller_idx =>
      let? vm := set_reg vm caller_idx (f_return_dst f) ret_val in
      Ok (true, with_frames vm (take (length (vm_frames vm) - 1) (vm_frames vm)))
  | None => let? vm := set_reg vm fi 0 ret_val in Ok (false, vm)
  end.

(** ** Closures *)

(** The environment of a closure value, allocated on the first capture. *)
Definition capstore_env (vm : CoreVM) (fi r payload : N) : result (N * CoreVM) VmError :=
  if negb (N.land payload CLOSURE_ENV_FLAG =? 0) then Ok (N.land payload CLOSURE_ENV_IDX_MASK, vm)
  else
    let idx := len (vm_closure_envs vm) in
    let vm := with_envs vm (vm_closure_envs vm ++ [mkClosureEnv payload []]) in
    let? vm := set_reg vm fi r
      (tag_closure (N.lor CLOSURE_ENV_FLAG (N.land idx CLOSURE_ENV_IDX_MASK))) in
    Ok (idx, vm).

(** [if captures.len() <= slot { captures.resize(slot + 1, TAG_NIL) }; captures[slot] = src] *)
Definition store_capture (captures : list N) (slot src : N) : list N :=
  let captures :=
    if len captures <=? slot
    then captures ++ replicate (S (N.to_nat slot) - length captures) TAG_NIL
    else captures in
  <[N.to_nat slot := src]> captures.

Definition step_capstore (vm : CoreVM) (fi : N) (instr : Instruction) : result CoreVM VmError :=
  let? closure_val := get_reg vm fi (i_op1 instr) in
  let slot := i_op2 instr in
  let? src := get_reg vm fi (i_op3 instr) in
  if negb (N.land closure_val TAG_MASK =? TAG_CLOSURE) then Err E_capstore_target else
  let payload := N.land closure_val PAYLOAD_MASK in
  let? env_vm := capstore_env vm fi (i_op1 instr) payload in
  let '(env_idx, vm) := env_vm in
  let? env := index (vm_closure_envs vm) env_idx in
  Ok (with_envs vm (<[N.to_nat env_idx :=
        mkClosureEnv (ce_func_idx env) (store_capture (ce_captures env) slot src)]>
        (vm_closure_envs vm))).

Definition step_capload (vm : CoreVM) (fi : N) (instr : Instruction) : result CoreVM VmError :=
  let slot := i_op1 instr in
  let? f := index (vm_frames vm) fi in
  let? env_val := ok_or (f_closure_env f) E_capload_outside in
  let payload := N.land env_val PAYLOAD_MASK in
  if N.land payload CLOSURE_ENV_FLAG =? 0 then Err E_capload_no_captures else
  let env_idx := N.land payload CLOSURE_ENV_IDX_MASK in
  let? value := ok_or (vm_closure_envs vm !! N.to_nat env_idx ≫= λ env,
                         ce_captures env !! N.to_nat slot) (E_capload_missing slot) in
  set_reg vm fi (i_op2 instr) value.

(** ** Effects *)

Inductive BuiltinEffect := IOPrint | IORead.

Definition BuiltinEffect_from_name (name : bytes) : option BuiltinEffect :=
  if bool_decide (name = str "IO.print") then Some IOPrint
  else if bool_decide (name = str "IO.read") then Some IORead
  else None.

Definition effect_name (vm : CoreVM) (fi : N) (instr : Instruction) : result bytes VmError :=
  let? f := index (vm_frames vm) fi in
  let? m := index (vm_modules vm) (f_module_idx f) in
  if bool_decide (i_opcode instr = Op_PerformDirect) then
    let? table := ok_or (cm_handler_tables m !! N.to_nat (i_op1 instr))
                    (E_table_not_found (i_op1 instr)) in
    let? binding := ok_or (ht_bindings table !! N.to_nat (i_op2 instr))
                      (E_binding_not_found (i_op2 instr)) in
    Ok (hb_effect_name binding)
  else
    match cm_constants m !! N.to_nat (Instruction_imm16 instr) with
    | Some (CString s) => Ok s
    | _ => Err E_effect_name_missing
    end.

(** What [IO.print] prints for a value. *)
Definition print_line (vm : CoreVM) (val : N) : bytes :=
  if is_int_raw val then dec_of_Z (as_int_raw val)
  else if val =? TAG_NIL then str "nil"
  else if N.land val TAG_MASK =? TAG_BOOL
       then (if negb (N.land val 1 =? 0) then str "true" else str "false")
  else match resolve_string vm val with
       | Some s => s
       | None => (str "<value:" ++ hex_of_N val ++ str ">")%list
       end.

(** [if line.ends_with(c) { line.pop(); }] *)
Definition strip_last (c : N) (line : bytes) : bytes :=
  if bool_decide (last line = Some c) then take (length line - 1) line else line.

(** [read_line]: the next line with its terminator; empty at end of input; an
    error when the read fails or the line is no UTF-8. *)
Definition read_line (vm : CoreVM) : result (bytes * CoreVM) VmError :=
  match vm_input vm with
  | [] => Ok ([], vm)
  | Some line :: rest => Ok (strip_last 13 (strip_last 10 line), with_input vm rest)
  | None :: _ => Err E_io_read
  end.

Definition step_string_effect (vm : CoreVM) (fi : N) (instr : Instruction) (name : bytes)
    : result CoreVM VmError :=
  let dst := i_op3 instr in
  if bool_decide (name = str "String.charAt") then
    let? s_val := get_reg vm fi 0 in
    let? idx_val := get_reg vm fi 1 in
    let char_idx := i64_as_u64 (as_int_raw idx_val) in
    let? s := ok_or (resolve_string vm s_val) E_string_missing in
    let ch := if char_idx <? len (utf8_chars s) then default 0 (utf8_chars s !! N.to_nat char_idx) else 0 in
    set_reg vm fi dst (tag_int (Z.of_N ch))
  else if bool_decide (name = str "String.length") then
    let? s_val := get_reg vm fi 0 in
    let? s := ok_or (resolve_string vm s_val) E_string_missing in
    set_reg vm fi dst (tag_int (Z.of_N (len s)))
  else if bool_decide (name = str "Int.to_string") then
    let? v := get_reg vm fi 0 in
    let '(sv, vm) := intern_string vm (dec_of_Z (as_int_raw v)) in
    set_reg vm fi dst sv
  else if bool_decide (name = str "String.from_char") then
    let? v := get_reg vm fi 0 in
    let ch := as_u32 (i64_as_u64 (as_int_raw v)) in
    let s := match char_from_u32 ch with Some c => utf8_encode c | None => [] end in
    let '(sv, vm) := intern_string vm s in
    set_reg vm fi dst sv
  else Err (E_unhandled_effect name).

Definition step_perform (vm : CoreVM) (fi : N) (instr : Instruction) : result CoreVM VmError :=
  let? eff_name := effect_name vm fi instr in
  match BuiltinEffect_from_name eff_name with
  | Some IOPrint =>
      let? val := get_reg vm fi 0 in
      set_reg (emit_print vm (print_line vm val)) fi (i_op3 instr) TAG_UNIT
  | Some IORead =>
      let? lv := read_line vm in
      let '(sv, vm) := intern_string lv.2 lv.1 in
      set_reg vm fi (i_op3 instr) sv
  | None => step_string_effect vm fi instr eff_name
  end.

(** ** Instructions *)

Definition int_binop (vm : CoreVM) (fi : N) (instr : Instruction) (f : Z → Z → N)
    : result CoreVM VmError :=
  let? a := get_reg vm fi (i_op1 instr) in
  let? b := get_reg vm fi (i_op2 instr) in
  set_reg vm fi (i_op3 instr) (f (as_int_raw a) (as_int_raw b)).

Definition truthy (v : N) : bool := negb (N.land v PAYLOAD_MASK =? 0).

Definition bool_binop (vm : CoreVM) (fi : N) (instr : Instruction) (f : bool → bool → bool)
    : result CoreVM VmError :=
  let? a := get_reg vm fi (i_op1 instr) in
  let? b := get_reg vm fi (i_op2 instr) in
  set_reg vm fi (i_op3 instr) (tag_bool (f (truthy a) (truthy b))).

(** [(b as u32).min(63)] *)
Definition shift_amount (b : Z) : Z := Z.min (b mod 2 ^ 32) 63.

(** The result of the integer instructions with two operands. *)
Definition iadd (a b : Z) : N := tag_int (wrap_i64 (a + b)).
Definition isub (a b : Z) : N := tag_int (wrap_i64 (a - b)).
Definition imul (a b : Z) : N := tag_int (wrap_i64 (a * b)).
Definition idiv (a b : Z) : N := if (b =? 0)%Z then TAG_NIL else tag_int (Z.quot a b).
Definition imod (a b : Z) : N := if (b =? 0)%Z then TAG_NIL else tag_int (Z.rem a b).
Definition ishl (a b : Z) : N := tag_int (wrap_i64 (Z.shiftl a (shift_amount b))).
Definition ishr (a b : Z) : N := tag_int (Z.shiftr a (shift_amount b)).

(** Whether the build checks [+] and [-] for overflow: development builds do,
    release builds wrap around. *)
Class Build := overflow_checks : bool.

(** [(pc as i64 + offset - 1) as usize] *)
Definition jump_pc {build : Build} (pc : N) (offset : Z) : result N VmError :=
  let sum := (u64_as_i64 pc + offset)%Z in
  match checked_i64 sum, checked_i64 (sum - 1) with
  | Some _, Some target => Ok (i64_as_u64 target)
  | _, _ => if overflow_checks then Err E_panic else Ok (i64_as_u64 (sum - 1))
  end.

Definition jump {build : Build} (vm : CoreVM) (fi : N) (offset : Z) : result CoreVM VmError :=
  let? f := index (vm_frames vm) fi in
  let? pc := jump_pc (f_pc f) offset in
  Ok (put_frame vm fi (set_pc f pc)).

Definition step_const (vm : CoreVM) (fi : N) (instr : Instruction) : result CoreVM VmError :=
  let? f := index (vm_frames vm) fi in
  let? m := index (vm_modules vm) (f_module_idx f) in
  let '(val, vm) :=
    match cm_constants m !! N.to_nat (Instruction_imm16 instr) with
    | Some (CString s) => intern_string vm s
    | Some (CInt n) => (tag_int n, vm)
    | Some (CBool b) => (tag_bool b, vm)
    | Some CNil => (TAG_NIL, vm)
    | Some CUnit => (TAG_UNIT, vm)
    | _ => (TAG_NIL, vm)
    end in
  set_reg vm fi (i_op3 instr) val.

Definition step_handle (vm : CoreVM) (fi : N) (instr : Instruction) : result CoreVM VmError :=
  let? f := index (vm_frames vm) fi in
  Ok (with_handlers vm (vm_handler_stack vm ++
    [mkHandlerFrame (i_op1 instr) (f_module_idx f) (f_pc f) (i_op2 instr) None None])).

(** [iter_mut().rev().find(|h| h.saved_regs.is_some())]: the innermost
    handler frame that holds a continuation. *)
Fixpoint last_saved (i : nat) (hs : list HandlerFrame) (acc : option (nat * HandlerFrame))
    : option (nat * HandlerFrame) :=
  match hs with
  | [] => acc
  | h :: hs => last_saved (S i) hs (match hf_saved_regs h with Some _ => Some (i, h) | None => acc end)
  end.

Definition step_resume (vm : CoreVM) (fi : N) (instr : Instruction) : result CoreVM VmError :=
  let? val := get_reg vm fi (i_op1 instr) in
  match last_saved 0 (vm_handler_stack vm) None with
  | Some (i, h) =>
      match hf_saved_regs h with
      | Some regs =>
          let? f := index (vm_frames vm) fi in
          let vm := with_handlers vm (<[i := mkHandlerFrame (hf_handler_table_idx h)
            (hf_module_idx h) (hf_resume_pc h) (hf_resume_dst h) None (hf_saved_pc h)]>
            (vm_handler_stack vm)) in
          let? vm := set_reg (put_frame vm fi (set_regs f regs)) fi (hf_resume_dst h) val in
          let? f := index (vm_frames vm) fi in
          Ok (put_frame vm fi (set_pc f (default 0 (hf_saved_pc h))))
      | None => Err E_no_continuation
      end
  | None => Err E_no_continuation
  end.

Definition step_sconcat (vm : CoreVM) (fi : N) (instr : Instruction) : result CoreVM VmError :=
  let? a := get_reg vm fi (i_op1 instr) in
  let? b := get_reg vm fi (i_op2 instr) in
  let sa := default [] (resolve_string vm a) in
  let sb := default [] (resolve_string vm b) in
  let '(sv, vm) := intern_string vm (sa ++ sb)%list in
  set_reg vm fi (i_op3 instr) sv.

(** Everything but [Halt] and the returns: the interpreter goes on. *)
Definition step_instr {build : Build} (vm : CoreVM) (fi : N) (instr : Instruction) : result CoreVM VmError :=
  let op1 := i_op1 instr in
  let op2 := i_op2 instr in
  match i_opcode instr with
  | Op_Const0 => set_reg vm fi op1 (tag_int 0)
  | Op_Const1 => set_reg vm fi op1 (tag_int 1)
  | Op_Const2 => set_reg vm fi op1 (tag_int 2)
  | Op_ConstM1 => set_reg vm fi op1 (tag_int (-1))
  | Op_ConstU => step_const vm fi instr
  | Op_Move | Op_Load | Op_Store | Op_Dup =>
      let? src := get_reg vm fi op1 in set_reg vm fi op2 src
  | Op_Swap =>
      let? tmp := get_reg vm fi op1 in
      let? b := get_reg vm fi op2 in
      let? vm := set_reg vm fi op1 b in
      set_reg vm fi op2 tmp
  | Op_IAdd => int_binop vm fi instr iadd
  | Op_ISub => int_binop vm fi instr isub
  | Op_IMul => int_binop vm fi instr imul
  | Op_IDiv => int_binop vm fi instr idiv
  | Op_IMod => int_binop vm fi instr imod
  | Op_INeg =>
      let? v := get_reg vm fi op1 in
      let a := as_int_raw v in
      if (a =? INT48_MIN)%Z then Err (E_overflow a) else set_reg vm fi op2 (tag_int (- a))
  | Op_IInc => let? v := get_reg vm fi op1 in set_reg vm fi op1 (tag_int (as_int_raw v + 1))
  | Op_IDec => let? v := get_reg vm fi op1 in set_reg vm fi op1 (tag_int (as_int_raw v - 1))
  | Op_Shl => int_binop vm fi instr ishl
  | Op_Shr => int_binop vm fi instr ishr
  | Op_ICmpEq => int_binop vm fi instr (λ a b, tag_bool (a =? b)%Z)
  | Op_ICmpLt => int_binop vm fi instr (λ a b, tag_bool (a <? b)%Z)
  | Op_ICmpGt => int_binop vm fi instr (λ a b, tag_bool (b <? a)%Z)
  | Op_ICmpLe => int_binop vm fi instr (λ a b, tag_bool (a <=? b)%Z)
  | Op_ICmpGe => int_binop vm fi instr (λ a b, tag_bool (b <=? a)%Z)
  | Op_Not => let? v := get_reg vm fi op1 in set_reg vm fi op2 (tag_bool (negb (truthy v)))
  | Op_And => bool_binop vm fi instr andb
  | Op_Or => bool_binop vm fi instr orb
  | Op_Jmp => jump vm fi (Instruction_simm16 instr)
  | Op_JmpT =>
      let? v := get_reg vm fi op1 in
      if truthy v then jump vm fi (Instruction_offset16 instr) else Ok vm
  | Op_JmpF =>
      let? v := get_reg vm fi op1 in
      if truthy v then Ok vm else jump vm fi (Instruction_offset16 instr)
  | Op_Call => step_call vm fi instr
  | Op_Closure => set_reg vm fi (i_op3 instr) (tag_closure (Instruction_imm16 instr))
  | Op_CapStore => step_capstore vm fi instr
  | Op_CapLoad => step_capload vm fi instr
  | Op_ClosureCall => step_closure_call vm fi instr
  | Op_Handle => step_handle vm fi instr
  | Op_Perform | Op_PerformDirect => step_perform vm fi instr
  | Op_Resume => step_resume vm fi instr
  | Op_SConcat => step_sconcat vm fi instr
  | _ => Ok vm
  end.

Definition CoreVM_step {build : Build} (vm : CoreVM) (fi : N) (instr : Instruction) : result (bool * CoreVM) VmError :=
  match i_opcode instr with
  | Op_Halt => Ok (false, vm)
  | Op_RetVal => let? v := get_reg vm fi (i_op1 instr) in step_return vm fi v
  | Op_Ret => let? v := get_reg vm fi 0 in step_return vm fi v
  | _ => let? vm := step_instr vm fi instr in Ok (true, vm)
  end.

(** ** The run loop *)

Definition fetch (vm : CoreVM) (f : Frame) : result Instruction VmError :=
  let? m := index (vm_modules vm) (f_module_idx f) in
  Ok (default (Instruction_new0 Op_Halt) (cm_instructions m !! N.to_nat (f_pc f))).

(** [if top < self.frames.len() { self.frames[top].pc += 1; }] *)
Definition advance {build : Build} (vm : CoreVM) (top : N) : result CoreVM VmError :=
  match vm_frames vm !! N.to_nat top with
  | Some f =>
      if overflow_checks && (f_pc f =? U64 - 1) then Err E_panic else
      Ok (put_frame vm top (set_pc f (wrapping_add64 (f_pc f) 1)))
  | None => Ok vm
  end.

(** One round of the loop, and whether there is another one. *)
Definition run_once {build : Build} (vm : CoreVM) : result (bool * CoreVM) VmError :=
  if vm_halted vm || bool_decide (vm_frames vm = []) then Ok (false, vm) else
  let top := len (vm_frames vm) - 1 in
  let? f := index (vm_frames vm) top in
  let? instr := fetch vm f in
  let? kv := CoreVM_step vm top instr in
  if kv.1 then let? vm := advance kv.2 top in Ok (true, vm)
  else Ok (false, with_halted kv.2 true).

Fixpoint run_loop {build : Build} (fuel : nat) (vm : CoreVM) : option (result CoreVM VmError) :=
  match fuel with
  | O => None
  | S fuel =>
      match run_once vm with
      | Err e => Some (Err e)
      | Ok (false, vm) => Some (Ok vm)
      | Ok (true, vm) => run_loop fuel vm
      end
  end.

(** [run]: the entry frame, the loop, the result in register 0 of the last
    frame.  [None] when the fuel is used up. *)
Definition run_start (vm : CoreVM) (module_idx entry_pc : N) : CoreVM :=
  with_halted (push_frame vm (set_pc (Frame_new None module_idx) entry_pc)) false.

Definition run_result (vm : CoreVM) : N * CoreVM :=
  let r := match last (vm_frames vm) with Some f => default TAG_UNIT (f_regs f !! 0%nat) | None => TAG_UNIT end in
  (r, if is_int_raw r then with_exit_code vm (as_int_raw r) else vm).

Definition CoreVM_run {build : Build} (fuel : nat) (vm : CoreVM) (module_idx entry_pc : N)
    : option (result (N * CoreVM) VmError) :=
  r ← run_loop fuel (run_start vm module_idx entry_pc);
  Some (let? vm := r in Ok (run_result vm)).

(** ** Well-formed states *)

(** A closure value that carries an environment points at one of the first
    [n] environments. *)
Definition closure_ok (n : N) (v : N) : Prop :=
  v < 2 ^ 64 ∧
  (N.land v TAG_MASK = TAG_CLOSURE → N.land (N.land v PAYLOAD_MASK) CLOSURE_ENV_FLAG ≠ 0 →
   N.land (N.land v PAYLOAD_MASK) CLOSURE_ENV_IDX_MASK < n).

Definition frame_ok (n mods : N) (i : nat) (f : Frame) : Prop :=
  length (f_regs f) = 256%nat ∧ Forall (closure_ok n) (f_regs f) ∧
  f_module_idx f < mods ∧ f_return_dst f < 256 ∧
  (∀ c, f_caller_idx f = Some c → (N.to_nat c < i)%nat) ∧
  (∀ v, f_closure_env f = Some v → closure_ok n v).

Record vm_ok (vm : CoreVM) : Prop := {
  ok_modules : Forall (λ m, Forall instr_ok (cm_instructions m)) (vm_modules vm);
  ok_frames : ∀ i f, vm_frames vm !! i = Some f →
    frame_ok (len (vm_closure_envs vm)) (len (vm_modules vm)) i f;
  ok_envs : Forall (λ e, Forall (closure_ok (len (vm_closure_envs vm))) (ce_captures e))
              (vm_closure_envs vm);
  ok_handlers : Forall (λ h, hf_saved_regs h = None) (vm_handler_stack vm);
}.

Lemma closure_ok_mono n m v : n ≤ m → closure_ok n v → closure_ok m v.
Proof. intros Hle [? Hc]. split; [done|]. intros. eapply N.lt_le_trans; [by apply Hc|done]. Qed.

Lemma not_closure_ok n t p :
  t < 2 ^ 16 → p < 2 ^ 48 → t ≠ 0x7FF7 → closure_ok n (N.lor (t * 2 ^ 48) p).
Proof.
  intros Ht Hp Hne. split.
  - rewrite lor_tag by done. by apply tagged_lt.
  - destruct (tagged_access t p Ht Hp) as [-> _]. change TAG_CLOSURE with (0x7FF7 * 2 ^ 48).
    intros Heq. apply N.mul_cancel_r in Heq; done.
Qed.

Lemma tag_int_ok n z : closure_ok n (tag_int z).
Proof.
  unfold tag_int. rewrite land_payload. change TAG_INT with (0x7FFB * 2 ^ 48).
  apply not_closure_ok; [done|apply payload_lt|done].
Qed.

Lemma tag_bool_ok n b : closure_ok n (tag_bool b).
Proof. unfold tag_bool. change TAG_BOOL with (0x7FFA * 2 ^ 48). by apply not_closure_ok; destruct b. Qed.

Lemma tag_string_ok n i : closure_ok n (N.lor TAG_STRING (N.land i PAYLOAD_MASK)).
Proof.
  rewrite land_payload. change TAG_STRING with (0x7FFE * 2 ^ 48).
  apply not_closure_ok; [done|apply payload_lt|done].
Qed.

Lemma tag_nil_ok n : closure_ok n TAG_NIL.
Proof. split; [done|]. by intros ?%(f_equal (λ x, x =? TAG_CLOSURE)). Qed.
Lemma tag_unit_ok n : closure_ok n TAG_UNIT.
Proof. split; [done|]. by intros ?%(f_equal (λ x, x =? TAG_CLOSURE)). Qed.

Lemma tag_closure_fields p :
  tag_closure p < 2 ^ 64 ∧ N.land (tag_closure p) PAYLOAD_MASK = p mod 2 ^ 48.
Proof.
  unfold tag_closure. rewrite land_payload. change TAG_CLOSURE with (0x7FF7 * 2 ^ 48). split.
  - rewrite lor_tag by apply payload_lt. apply tagged_lt; [done|apply payload_lt].
  - apply tagged_access; [done|apply payload_lt].
Qed.

(** A plain function reference carries no environment. *)
Lemma tag_closure_plain_ok n p : p < 2 ^ 46 → closure_ok n (tag_closure p).
Proof.
  intros Hp. destruct (tag_closure_fields p) as [Hlt Hpay]. split; [done|]. intros _.
  rewrite Hpay, N.mod_small by (eapply N.lt_trans; [exact Hp|done]).
  change CLOSURE_ENV_FLAG with (2 ^ 46). rewrite land_pow2, (testbit_small p 46) by done. done.
Qed.

Lemma tag_closure_env_ok n idx :
  idx < n → idx < 2 ^ 46 →
  closure_ok n (tag_closure (N.lor CLOSURE_ENV_FLAG (N.land idx CLOSURE_ENV_IDX_MASK))).
Proof.
  intros Hn Hidx. change CLOSURE_ENV_IDX_MASK with (N.ones 46).
  rewrite N.land_ones, N.mod_small by done.
  change CLOSURE_ENV_FLAG with (N.shiftl 1 46). rewrite lor_shiftl_add by done.
  destruct (tag_closure_fields (1 * 2 ^ 46 + idx)) as [Hlt Hpay]. split; [done|]. intros _ _.
  rewrite Hpay, (N.mod_small (1 * 2 ^ 46 + idx)) by (change (2 ^ 48) with (4 * 2 ^ 46); lia).
  change CLOSURE_ENV_IDX_MASK with (N.ones 46). rewrite N.land_ones.
  rewrite N.add_comm, N.Div0.mod_add. by rewrite N.mod_small.
Qed.

#[export] Hint Resolve tag_int_ok tag_bool_ok tag_string_ok tag_nil_ok tag_unit_ok : nula.

(** ** No instruction panics *)

(** The offset of a jump. *)
Definition jump_offsets (instr : Instruction) : list Z :=
  match i_opcode instr with
  | Op_Jmp => [Instruction_simm16 instr]
  | Op_JmpT | Op_JmpF => [Instruction_offset16 instr]
  | _ => []
  end.

(** A jump to an instruction other than the first one.  A jump to the first one
    sets the program counter to the largest number, and the increment after the
    instruction overflows. *)
Definition jump_fits (pc : N) (o : Z) : Prop := (Z.of_N pc < 2 ^ 62 ∧ 0 < Z.of_N pc + o < 2 ^ 63)%Z.

Definition jumps_fit (pc : N) (instr : Instruction) : Prop := Forall (jump_fits pc) (jump_offsets instr).

(** Code that fits in memory and has such jumps only. *)
Definition jumps_ok (m : CodeModule) : Prop :=
  len (cm_instructions m) < 2 ^ 62 ∧
  ∀ k instr, cm_instructions m !! k = Some instr → Forall (λ o, 0 < Z.of_nat k + o)%Z (jump_offsets instr).

(** [fits] says that jumps fit; only the absence of overflows needs it. *)
Section no_panic.
Context {build : Build} (fits : Prop).

Definition valid (vm : CoreVM) (fi : N) : Prop := (N.to_nat fi < length (vm_frames vm))%nat.

(** A result that is no panic when jumps fit and, when a state, is well-formed,
    has at least [l] frames and at most [n] environments. *)
Definition safe (l : nat) (n : N) (r : result CoreVM VmError) : Prop :=
  match r with
  | Ok vm => vm_ok vm ∧ (l ≤ length (vm_frames vm))%nat ∧ len (vm_closure_envs vm) ≤ n
  | Err e => fits → e ≠ E_panic
  end.

Lemma index_Ok {A} (l : list A) i x : index l i = Ok x ↔ l !! N.to_nat i = Some x.
Proof. unfold index. destruct (l !! N.to_nat i); simpl; naive_solver. Qed.

Lemma valid_frame vm fi :
  vm_ok vm → valid vm fi →
  ∃ f, index (vm_frames vm) fi = Ok f ∧ vm_frames vm !! N.to_nat fi = Some f ∧
       frame_ok (len (vm_closure_envs vm)) (len (vm_modules vm)) (N.to_nat fi) f.
Proof.
  intros Hok Hv. apply lookup_lt_is_Some in Hv as [f Hf]. exists f.
  split_and!; [by apply index_Ok|done|by apply (ok_frames _ Hok)].
Qed.

Lemma valid_module vm fi f :
  vm_ok vm → vm_frames vm !! N.to_nat fi = Some f →
  ∃ m, index (vm_modules vm) (f_module_idx f) = Ok m ∧ m ∈ vm_modules vm.
Proof.
  intros Hok Hf. destruct (ok_frames _ Hok _ _ Hf) as (_ & _ & Hm & _).
  assert (N.to_nat (f_module_idx f) < length (vm_modules vm))%nat as Hlt by (unfold len in Hm; lia).
  apply lookup_lt_is_Some in Hlt as [m Hm']. exists m.
  split; [by apply index_Ok|by eapply list_elem_of_lookup_2].
Qed.

Lemma valid_reg vm fi r :
  vm_ok vm → valid vm fi → r < 256 →
  ∃ v, get_reg vm fi r = Ok v ∧ closure_ok (len (vm_closure_envs vm)) v.
Proof.
  intros Hok Hv Hr. destruct (valid_frame vm fi Hok Hv) as (f & Hf & _ & Hlen & Hregs & _).
  unfold get_reg. rewrite Hf. simpl.
  assert (N.to_nat r < length (f_regs f))%nat as Hlt by lia.
  apply lookup_lt_is_Some in Hlt as [v Hlk]. exists v. split; [by apply index_Ok|].
  by eapply Forall_lookup_1.
Qed.

Lemma safe_get l n vm fi r (k : N → result CoreVM VmError) :
  vm_ok vm → valid vm fi → r < 256 →
  (∀ v, closure_ok (len (vm_closure_envs vm)) v → safe l n (k v)) →
  safe l n (let? v := get_reg vm fi r in k v).
Proof.
  intros Hok Hv Hr Hk. destruct (valid_reg vm fi r Hok Hv Hr) as (v & -> & Hc). simpl. auto.
Qed.

(** Replacing a frame by one that is well-formed at the same position. *)
Lemma put_frame_ok vm fi f :
  vm_ok vm → frame_ok (len (vm_closure_envs vm)) (len (vm_modules vm)) (N.to_nat fi) f →
  vm_ok (put_frame vm fi f).
Proof.
  intros [Hm Hf He Hh] Hnew. split; try done. intros i g Hi. simpl in Hi.
  apply list_lookup_insert_Some in Hi as [(<- & <- & _)|[_ Hi]]; [done|]. by apply Hf.
Qed.

Lemma set_reg_ok vm fi r v :
  vm_ok vm → valid vm fi → r < 256 → closure_ok (len (vm_closure_envs vm)) v →
  ∃ vm', set_reg vm fi r v = Ok vm' ∧ vm_ok vm' ∧ length (vm_frames vm') = length (vm_frames vm) ∧
         vm_closure_envs vm' = vm_closure_envs vm.
Proof.
  intros Hok Hv Hr Hc. destruct (valid_frame vm fi Hok Hv) as (f & Hi & Hf & Hfok).
  unfold set_reg. rewrite Hi. simpl.
  assert (∃ old, index (f_regs f) r = Ok old) as [old ->].
  { destruct Hfok as [Hlen _]. destruct (lookup_lt_is_Some_2 (f_regs f) (N.to_nat r)) as [o Ho];
      [lia|]. exists o. by apply index_Ok. }
  simpl. eexists. split_and!; [done| |apply length_insert|done].
  apply put_frame_ok; [done|]. destruct Hfok as (Hlen & Hregs & ? & ? & ? & ?).
  split_and!; simpl; try done; [by rewrite length_insert|by apply Forall_insert].
Qed.

Lemma safe_set l n vm fi r v :
  vm_ok vm → valid vm fi → r < 256 → closure_ok (len (vm_closure_envs vm)) v →
  (l ≤ length (vm_frames vm))%nat → len (vm_closure_envs vm) ≤ n → safe l n (set_reg vm fi r v).
Proof.
  intros. destruct (set_reg_ok vm fi r v) as (vm' & -> & Hok & Hlen & Henv); [done..|].
  simpl. rewrite Hlen, Henv. done.
Qed.

(** Interning changes the string pool only. *)
Lemma intern_string_shape vm s :
  vm_ok vm →
  vm_ok (intern_string vm s).2 ∧ vm_frames (intern_string vm s).2 = vm_frames vm ∧
  vm_closure_envs (intern_string vm s).2 = vm_closure_envs vm ∧
  closure_ok (len (vm_closure_envs vm)) (intern_string vm s).1.
Proof.
  intros Hok. unfold intern_string. destruct (list_find _ _) as [[i x]|]; simpl;
    (split_and!; [|done|done|apply tag_string_ok]); [done|].
  destruct Hok. by split.
Qed.

Lemma safe_intern l n vm fi r s :
  vm_ok vm → valid vm fi → r < 256 →
  (l ≤ length (vm_frames vm))%nat → len (vm_closure_envs vm) ≤ n →
  safe l n (let '(sv, vm) := intern_string vm s in set_reg vm fi r sv).
Proof.
  intros Hok Hv Hr Hl Hn. destruct (intern_string_shape vm s Hok) as (Hok' & Hf & He & Hc).
  destruct (intern_string vm s) as [sv vm']. simpl in *.
  apply safe_set; unfold valid; rewrite ?Hf, ?He; done.
Qed.

Lemma safe_binop l n vm fi instr f :
  vm_ok vm → valid vm fi → instr_ok instr → (∀ a b m, closure_ok m (f a b)) →
  (l ≤ length (vm_frames vm))%nat → len (vm_closure_envs vm) ≤ n →
  safe l n (int_binop vm fi instr f).
Proof.
  intros Hok Hv (H1 & H2 & H3) Hf Hl Hn. unfold int_binop.
  apply safe_get; [done..|]. intros a _. apply safe_get; [done..|]. intros b _. by apply safe_set.
Qed.

Lemma resolve_function_ok vm v :
  closure_ok (len (vm_closure_envs vm)) v →
  match resolve_function vm v with
  | Ok (_, env) => ∀ w, env = Some w → closure_ok (len (vm_closure_envs vm)) w
  | Err e => e ≠ E_panic
  end.
Proof.
  intros Hc. unfold resolve_function. case_if; [done|]. case_if; [|done]. case_if; simpl.
  - destruct (_ !! N.to_nat _); simpl; [|done]. by intros w [= <-].
  - by intros w [= <-].
Qed.

Lemma push_frame_ok vm f :
  vm_ok vm →
  frame_ok (len (vm_closure_envs vm)) (len (vm_modules vm)) (length (vm_frames vm)) f →
  vm_ok (push_frame vm f).
Proof.
  intros [Hm Hf He Hh] Hnew. split; try done. intros i g Hi. simpl in Hi.
  apply lookup_app_Some in Hi as [Hi|[Hge Hi]]; [by apply Hf|].
  apply list_lookup_singleton_Some in Hi as [Hi <-].
  replace i with (length (vm_frames vm)) by lia. done.
Qed.

(** The common part of both calls: resolve, look the function up, push. *)
Lemma safe_call vm fi r (mk : Frame → N → option N → Frame) :
  vm_ok vm → valid vm fi → r < 256 →
  (∀ f off env, vm_frames vm !! N.to_nat fi = Some f →
     frame_ok (len (vm_closure_envs vm)) (len (vm_modules vm)) (N.to_nat fi) f →
     (∀ w, env = Some w → closure_ok (len (vm_closure_envs vm)) w) →
     frame_ok (len (vm_closure_envs vm)) (len (vm_modules vm)) (length (vm_frames vm)) (mk f off env)) →
  safe (length (vm_frames vm)) (len (vm_closure_envs vm) + 1)
    (let? v := get_reg vm fi r in
     let? fc := resolve_function vm v in
     let? f := index (vm_frames vm) fi in
     let? off := function_offset vm (f_module_idx f) fc.1 in
     Ok (push_frame vm (mk f off fc.2))).
Proof.
  intros Hok Hv Hr Hmk. apply safe_get; [done..|]. intros v Hc.
  pose proof (resolve_function_ok vm v Hc) as Hres.
  destruct (resolve_function vm v) as [[func env]|e]; [|by intros _]. simpl.
  destruct (valid_frame vm fi Hok Hv) as (f & -> & Hf & Hfok). simpl.
  destruct (valid_module vm fi f Hok Hf) as (m & Hm & _). unfold function_offset. rewrite Hm. simpl.
  destruct (cm_function_table m !! N.to_nat func); simpl; [|done].
  split_and!; [apply push_frame_ok; auto|rewrite length_app; lia|lia].
Qed.

Lemma safe_step_call vm fi instr :
  vm_ok vm → valid vm fi → instr_ok instr →
  safe (length (vm_frames vm)) (len (vm_closure_envs vm) + 1) (step_call vm fi instr).
Proof.
  intros Hok Hv (H1 & H2 & H3).
  apply (safe_call vm fi (i_op1 instr) (λ f off env, mkFrame
    (take (N.to_nat (N.min (i_op2 instr) 256)) (f_regs f) ++
     drop (N.to_nat (N.min (i_op2 instr) 256)) (replicate 256 TAG_UNIT))
    off (f_module_idx f) (i_op3 instr) (Some fi) env)); [done..|].
  intros f off env Hf (Hlen & Hregs & Hm & _) Henv. unfold frame_ok. cbn [f_regs f_module_idx
    f_return_dst f_caller_idx f_closure_env]. split_and!; try done.
  - rewrite length_app, length_take, length_drop, length_replicate, Hlen. lia.
  - apply Forall_app. split; [by apply Forall_take|].
    apply Forall_drop, Forall_replicate. apply tag_unit_ok.
  - intros c [= <-]. exact Hv.
Qed.

Lemma safe_step_closure_call vm fi instr :
  vm_ok vm → valid vm fi → instr_ok instr →
  safe (length (vm_frames vm)) (len (vm_closure_envs vm) + 1) (step_closure_call vm fi instr).
Proof.
  intros Hok Hv (H1 & H2 & H3).
  apply (safe_call vm fi (i_op1 instr) (λ f off env,
    mkFrame (f_regs f) off (f_module_idx f) (i_op3 instr) (Some fi) env)); [done..|].
  intros f off env Hf (Hlen & Hregs & Hm & _) Henv. unfold frame_ok; simpl. split_and!; try done.
  intros c [= <-]. exact Hv.
Qed.

(** A new environment at the end of the pool. *)
Lemma with_envs_push_ok vm p :
  vm_ok vm → vm_ok (with_envs vm (vm_closure_envs vm ++ [mkClosureEnv p []])).
Proof.
  intros [Hm Hf He Hh].
  assert (len (vm_closure_envs vm) ≤ len (vm_closure_envs vm ++ [mkClosureEnv p []])) as Hle
    by (autorewrite with nula; lia).
  split; simpl; [done| | |done].
  - intros i f Hi. destruct (Hf i f Hi) as (? & Hr & ? & ? & ? & Henv). split_and!; try done.
    + eapply Forall_impl; [exact Hr|]. intros v. by apply closure_ok_mono.
    + intros v Hv. by eapply closure_ok_mono, Henv.
  - apply Forall_app. split; [|by repeat constructor].
    eapply Forall_impl; [exact He|]. intros e Hc. eapply Forall_impl; [exact Hc|].
    intros v. by apply closure_ok_mono.
Qed.

Lemma store_capture_ok n captures slot src :
  Forall (closure_ok n) captures → closure_ok n src → Forall (closure_ok n) (store_capture captures slot src).
Proof.
  intros Hc Hs. unfold store_capture. apply Forall_insert; [|done]. case_match; [|done].
  apply Forall_app. split; [done|]. apply Forall_replicate. apply tag_nil_ok.
Qed.

Lemma safe_store_env l n vm env_idx slot src :
  vm_ok vm → env_idx < len (vm_closure_envs vm) → closure_ok (len (vm_closure_envs vm)) src →
  (l ≤ length (vm_frames vm))%nat → len (vm_closure_envs vm) ≤ n →
  safe l n (let? env := index (vm_closure_envs vm) env_idx in
    Ok (with_envs vm (<[N.to_nat env_idx := mkClosureEnv (ce_func_idx env)
          (store_capture (ce_captures env) slot src)]> (vm_closure_envs vm)))).
Proof.
  intros Hok Hlt Hsrc Hl Hn.
  assert (N.to_nat env_idx < length (vm_closure_envs vm))%nat as Hlt' by (unfold len in Hlt; lia).
  apply lookup_lt_is_Some in Hlt' as [env Henv]. rewrite (proj2 (index_Ok _ _ _) Henv). simpl.
  assert (len (<[N.to_nat env_idx := mkClosureEnv (ce_func_idx env)
    (store_capture (ce_captures env) slot src)]> (vm_closure_envs vm))
    = len (vm_closure_envs vm)) as Hlen by (unfold len; by rewrite length_insert).
  split_and!; [|done|by rewrite Hlen].
  destruct Hok as [Hm Hf He Hh]. split; simpl; rewrite ?Hlen; try done.
  apply Forall_insert; [done|]. simpl. apply store_capture_ok; [|done].
  exact (Forall_lookup_1 _ _ _ _ He Henv).
Qed.

Lemma safe_step_capstore vm fi instr :
  vm_ok vm → valid vm fi → instr_ok instr → len (vm_closure_envs vm) < 2 ^ 46 →
  safe (length (vm_frames vm)) (len (vm_closure_envs vm) + 1) (step_capstore vm fi instr).
Proof.
  intros Hok Hv (H1 & H2 & H3) Hsmall. unfold step_capstore.
  apply safe_get; [done..|]. intros v [Hv64 Hc]. apply safe_get; [done..|]. intros src Hsrc.
  case_if; [done|]. unfold capstore_env. case_if; simpl.
  - apply safe_store_env; [done|by apply Hc|done|done|lia].
  - set (vm1 := with_envs vm _). assert (vm_ok vm1) as Hok1 by (by apply with_envs_push_ok).
    assert (len (vm_closure_envs vm1) = len (vm_closure_envs vm) + 1) as Hlen1
      by (unfold vm1; simpl; by autorewrite with nula).
    destruct (set_reg_ok vm1 fi (i_op1 instr) (tag_closure (N.lor CLOSURE_ENV_FLAG
      (N.land (len (vm_closure_envs vm)) CLOSURE_ENV_IDX_MASK)))) as (vm2 & Hset & Hok2 & Hf2 & He2).
    { done. } { done. } { done. } { rewrite Hlen1. apply tag_closure_env_ok; [lia|done]. }
    rewrite Hset. simpl. apply safe_store_env; rewrite ?He2, ?Hlen1; try lia; [done| |].
    + eapply closure_ok_mono; [|exact Hsrc]. lia.
    + rewrite Hf2. unfold vm1. simpl. lia.
Qed.

Lemma safe_step_capload vm fi instr :
  vm_ok vm → valid vm fi → instr_ok instr →
  safe (length (vm_frames vm)) (len (vm_closure_envs vm) + 1) (step_capload vm fi instr).
Proof.
  intros Hok Hv (H1 & H2 & H3). unfold step_capload.
  destruct (valid_frame vm fi Hok Hv) as (f & -> & _). simpl.
  destruct (f_closure_env f) as [env_val|]; simpl; [|done]. case_if; [done|].
  destruct (vm_closure_envs vm !! _) as [env|] eqn:Henv; simpl; [|done].
  destruct (ce_captures env !! _) as [v|] eqn:Hcap; simpl; [|done].
  apply safe_set; try done; [|lia].
  exact (Forall_lookup_1 _ _ _ _ (Forall_lookup_1 _ _ _ _ (ok_envs _ Hok) Henv) Hcap).
Qed.

Lemma safe_step_const vm fi instr :
  vm_ok vm → valid vm fi → instr_ok instr →
  safe (length (vm_frames vm)) (len (vm_closure_envs vm) + 1) (step_const vm fi instr).
Proof.
  intros Hok Hv (H1 & H2 & H3). unfold step_const.
  destruct (valid_frame vm fi Hok Hv) as (f & -> & Hf & _). simpl.
  destruct (valid_module vm fi f Hok Hf) as (m & -> & _). simpl.
  assert (∀ v, closure_ok (len (vm_closure_envs vm)) v →
    safe (length (vm_frames vm)) (len (vm_closure_envs vm) + 1) (set_reg vm fi (i_op3 instr) v)) as Hset.
  { intros v Hc. apply safe_set; try done. lia. }
  destruct (cm_constants m !! _) as [[]|]; try (apply Hset; auto with nula).
  apply safe_intern; try done. lia.
Qed.

(** No handler frame ever holds a continuation, so [Resume] always fails. *)
Lemma last_saved_none i hs acc :
  Forall (λ h, hf_saved_regs h = None) hs → last_saved i hs acc = acc.
Proof.
  intros Hall. revert i acc. induction Hall as [|h hs Hh _ IH]; intros i acc; simpl; [done|].
  rewrite Hh. apply IH.
Qed.

Lemma step_resume_fails vm fi instr :
  vm_ok vm → valid vm fi → i_op1 instr < 256 → step_resume vm fi instr = Err E_no_continuation.
Proof.
  intros Hok Hv Hr. unfold step_resume. destruct (valid_reg vm fi _ Hok Hv Hr) as (v & -> & _). simpl.
  by rewrite last_saved_none by apply Hok.
Qed.

Lemma effect_name_ok vm fi instr :
  vm_ok vm → valid vm fi →
  match effect_name vm fi instr with Ok _ => True | Err e => e ≠ E_panic end.
Proof.
  intros Hok Hv. unfold effect_name. destruct (valid_frame vm fi Hok Hv) as (f & -> & Hf & _). simpl.
  destruct (valid_module vm fi f Hok Hf) as (m & -> & _). simpl. case_if.
  - destruct (cm_handler_tables m !! _); simpl; [|done]. by destruct (ht_bindings _ !! _).
  - by destruct (cm_constants m !! _) as [[]|].
Qed.

Lemma safe_step_string_effect vm fi instr name :
  vm_ok vm → valid vm fi → instr_ok instr →
  safe (length (vm_frames vm)) (len (vm_closure_envs vm) + 1) (step_string_effect vm fi instr name).
Proof.
  intros Hok Hv (H1 & H2 & H3). unfold step_string_effect. cbn zeta.
  destruct (bool_decide (name = str "String.charAt")); [|
  destruct (bool_decide (name = str "String.length")); [|
  destruct (bool_decide (name = str "Int.to_string")); [|
  destruct (bool_decide (name = str "String.from_char")); [|done]]]].
  - do 2 (apply safe_get; [done..|]; intros ? _). destruct (resolve_string vm _); simpl; [|done].
    apply safe_set; auto with nula. lia.
  - apply safe_get; [done..|]; intros ? _. destruct (resolve_string vm _); simpl; [|done].
    apply safe_set; auto with nula. lia.
  - apply safe_get; [done..|]; intros v _. apply safe_intern; try done. lia.
  - apply safe_get; [done..|]; intros v _. apply safe_intern; try done. lia.
Qed.

Lemma safe_step_perform vm fi instr :
  vm_ok vm → valid vm fi → instr_ok instr →
  safe (length (vm_frames vm)) (len (vm_closure_envs vm) + 1) (step_perform vm fi instr).
Proof.
  intros Hok Hv Hi. pose proof Hi as (H1 & H2 & H3). unfold step_perform.
  pose proof (effect_name_ok vm fi instr Hok Hv) as Hname.
  destruct (effect_name vm fi instr) as [name|e]; [|by intros _]. simpl.
  destruct (BuiltinEffect_from_name name) as [[]|]; [| |by apply safe_step_string_effect].
  - apply safe_get; [done..|]. intros v _.
    apply safe_set; simpl; auto with nula; [destruct Hok; by split|lia].
  - unfold read_line. destruct (vm_input vm) as [|[line|] rest]; [| |done].
    + apply safe_intern; try done. simpl. lia.
    + apply (safe_intern _ _ (with_input vm rest)); simpl; try done; [destruct Hok; by split|lia].
Qed.

Lemma jump_pc_ok pc o : (overflow_checks = true → jump_fits pc o) →
  jump_pc pc o = Ok (i64_as_u64 (u64_as_i64 pc + o - 1)).
Proof.
  unfold jump_pc, checked_i64. intros Hfits. destruct overflow_checks.
  - destruct (Hfits eq_refl) as [Hpc [? ?]]. assert (u64_as_i64 pc = Z.of_N pc) as ->.
    { unfold u64_as_i64. rewrite (proj2 (N.ltb_lt _ _)); [done|]. lia. }
    rewrite !(proj2 (andb_true_iff _ _)); [done|split..]; [apply Z.leb_le|apply Z.ltb_lt|apply Z.leb_le|apply Z.ltb_lt]; lia.
  - cbn zeta. destruct ((- 2 ^ 63 <=? u64_as_i64 pc + o) && _)%Z; [|done]. by destruct ((- 2 ^ 63 <=? u64_as_i64 pc + o - 1) && _)%Z.
Qed.

Lemma safe_jump vm fi o :
  vm_ok vm → valid vm fi →
  (fits → overflow_checks = true → ∀ f, vm_frames vm !! N.to_nat fi = Some f → jump_fits (f_pc f) o) →
  safe (length (vm_frames vm)) (len (vm_closure_envs vm) + 1) (jump vm fi o).
Proof.
  intros Hok Hv Hfits. unfold jump. destruct (valid_frame vm fi Hok Hv) as (f & -> & Hf & Hfok). simpl.
  destruct (jump_pc (f_pc f) o) as [pc|e] eqn:Hpc; simpl; [|intros HQ; by rewrite jump_pc_ok in Hpc by auto].
  split_and!; [by apply put_frame_ok|by rewrite length_insert|lia].
Qed.

Lemma imm16_lt instr : instr_ok instr → Instruction_imm16 instr < 2 ^ 46.
Proof.
  intros (H1 & H2 & _). unfold Instruction_imm16. rewrite lor_shiftl_add by done.
  change (2 ^ 8) with 256. change (2 ^ 46) with (2 ^ 30 * 65536). lia.
Qed.

Lemma safe_step_handle vm fi instr :
  vm_ok vm → valid vm fi →
  safe (length (vm_frames vm)) (len (vm_closure_envs vm) + 1) (step_handle vm fi instr).
Proof.
  intros Hok Hv. unfold step_handle.
  destruct (valid_frame vm fi Hok Hv) as (f & -> & _). simpl.
  split_and!; [|done|lia]. destruct Hok. split; try done. simpl.
  apply Forall_app. split; [done|]. by apply Forall_singleton.
Qed.

Lemma safe_step_sconcat vm fi instr :
  vm_ok vm → valid vm fi → instr_ok instr →
  safe (length (vm_frames vm)) (len (vm_closure_envs vm) + 1) (step_sconcat vm fi instr).
Proof.
  intros Hok Hv (H1 & H2 & H3). unfold step_sconcat.
  do 2 (apply safe_get; [done..|]; intros ? _). apply safe_intern; try done. lia.
Qed.

Lemma safe_swap vm fi r1 r2 :
  vm_ok vm → valid vm fi → r1 < 256 → r2 < 256 →
  safe (length (vm_frames vm)) (len (vm_closure_envs vm) + 1)
    (let? tmp := get_reg vm fi r1 in let? b := get_reg vm fi r2 in
     let? vm := set_reg vm fi r1 b in set_reg vm fi r2 tmp).
Proof.
  intros Hok Hv H1 H2. apply safe_get; [done..|]. intros a Ha. apply safe_get; [done..|]. intros b Hb.
  destruct (set_reg_ok vm fi r1 b) as (vm' & -> & Hok' & Hlen & Henv); [done..|]. simpl.
  apply safe_set; unfold valid; rewrite ?Hlen, ?Henv; try done. lia.
Qed.

Lemma safe_step_instr vm fi instr :
  vm_ok vm → valid vm fi → instr_ok instr → len (vm_closure_envs vm) < 2 ^ 46 →
  (fits → overflow_checks = true → ∀ f, vm_frames vm !! N.to_nat fi = Some f → jumps_fit (f_pc f) instr) →
  safe (length (vm_frames vm)) (len (vm_closure_envs vm) + 1) (step_instr vm fi instr).
Proof.
  intros Hok Hv Hi Hsmall Hfit. pose proof Hi as (H1 & H2 & H3).
  assert (∀ o, o ∈ jump_offsets instr → safe (length (vm_frames vm)) (len (vm_closure_envs vm) + 1) (jump vm fi o)) as Hjump.
  { intros o Ho. apply safe_jump; [done..|]. intros HQ Hc f Hf. specialize (Hfit HQ Hc f Hf). unfold jumps_fit in Hfit.
    rewrite Forall_forall in Hfit. by apply Hfit. }
  assert (∀ r v, r < 256 → closure_ok (len (vm_closure_envs vm)) v →
    safe (length (vm_frames vm)) (len (vm_closure_envs vm) + 1) (set_reg vm fi r v)) as Hset.
  { intros r v Hr Hc. apply safe_set; try done. lia. }
  assert (∀ f, (∀ a b m, closure_ok m (f a b)) →
    safe (length (vm_frames vm)) (len (vm_closure_envs vm) + 1) (int_binop vm fi instr f)) as Hbin.
  { intros f Hf. apply safe_binop; try done. lia. }
  assert (∀ f, safe (length (vm_frames vm)) (len (vm_closure_envs vm) + 1)
    (bool_binop vm fi instr f)) as Hbool.
  { intros f. unfold bool_binop. do 2 (apply safe_get; [done..|]; intros ? _). auto with nula. }
  assert (safe (length (vm_frames vm)) (len (vm_closure_envs vm) + 1) (Ok vm)) as Hid.
  { split_and!; [done|done|lia]. }
  unfold step_instr. unfold jump_offsets in Hjump. destruct (i_opcode instr);
    try (exact Hid); try (by apply Hset; auto with nula);
    try (apply Hbin; intros; unfold iadd, isub, imul, ishl, ishr; auto with nula; fail);
    try (apply Hbin; intros; unfold idiv, imod; case_match; auto with nula; fail);
    try (apply Hbool);
    try (by apply safe_step_const); try (by apply safe_step_call);
    try (by apply safe_step_closure_call); try (by apply safe_step_capstore);
    try (by apply safe_step_capload); try (by apply safe_step_perform);
    try (by apply Hjump, list_elem_of_singleton); try (by rewrite step_resume_fails).
  all: try (apply safe_get; [done..|]; intros v Hc; first
    [by apply Hset; auto with nula | case_match; [done|by apply Hset; auto with nula]
    | case_match; first [exact Hid | by apply Hjump, list_elem_of_singleton]]).
  - by apply safe_swap.
  - apply Hset; [done|]. by apply tag_closure_plain_ok, imm16_lt.
  - by apply safe_step_handle.
  - by apply safe_step_sconcat.
Qed.

(** ** What an instruction does to the frames *)

(** What a frame keeps while it is live: its caller and where to return. *)
Definition frame_link (f : Frame) : option N * N := (f_caller_idx f, f_return_dst f).

(** The program counter stays, or has jumped by one of the offsets. *)
Definition jumped (js : list Z) (f f' : Frame) : Prop :=
  f_pc f' = f_pc f ∨ ∃ o, o ∈ js ∧ f_pc f' = i64_as_u64 (u64_as_i64 (f_pc f) + o - 1).

(** An instruction other than a return changes the running frame only, or
    pushes a frame above it whose caller it is. *)
Definition local_step (fi dst : N) (js : list Z) (fs fs' : list Frame) : Prop :=
  (∃ f f', fs !! N.to_nat fi = Some f ∧ frame_link f' = frame_link f ∧ jumped js f f' ∧
           fs' = <[N.to_nat fi := f']> fs) ∨
  (∃ g, fs' = fs ++ [g] ∧ frame_link g = (Some fi, dst)).

Definition local_result (fi dst : N) (js : list Z) (vm : CoreVM) (r : result CoreVM VmError) : Prop :=
  match r with
  | Ok vm' => local_step fi dst js (vm_frames vm) (vm_frames vm') ∧ vm_modules vm' = vm_modules vm
  | Err _ => True
  end.

Lemma local_put fi dst js fs f f' :
  fs !! N.to_nat fi = Some f → frame_link f' = frame_link f → jumped js f f' →
  local_step fi dst js fs (<[N.to_nat fi := f']> fs).
Proof. left. by exists f, f'. Qed.

Lemma jumped_same js f f' : f_pc f' = f_pc f → jumped js f f'.
Proof. by left. Qed.

Lemma local_refl fi dst js vm vm' :
  valid vm fi → vm_frames vm' = vm_frames vm → vm_modules vm' = vm_modules vm → local_result fi dst js vm (Ok vm').
Proof.
  intros Hv Heq Hm. apply lookup_lt_is_Some in Hv as [f Hf]. split; [|done]. left. exists f, f.
  split_and!; [done|done|by left|]. by rewrite list_insert_id.
Qed.

Lemma local_set fi dst js vm vm0 r v :
  vm_frames vm0 = vm_frames vm → vm_modules vm0 = vm_modules vm → local_result fi dst js vm (set_reg vm0 fi r v).
Proof.
  intros Heq Hm. unfold set_reg. rewrite Heq. unfold index.
  destruct (vm_frames vm !! N.to_nat fi) as [f|] eqn:Hf; [|done]. simpl.
  destruct (f_regs f !! N.to_nat r); [|done]. simpl. rewrite Heq. split; [|done].
  by eapply local_put; [| |apply jumped_same].
Qed.

Lemma local_bind {A} fi dst js vm (r : result A VmError) (k : A → result CoreVM VmError) :
  (∀ x, r = Ok x → local_result fi dst js vm (k x)) → local_result fi dst js vm (let? x := r in k x).
Proof. destruct r; simpl; auto. Qed.

Lemma local_intern fi dst js vm vm0 r s :
  vm_frames vm0 = vm_frames vm → vm_modules vm0 = vm_modules vm →
  local_result fi dst js vm (let '(sv, vm) := intern_string vm0 s in set_reg vm fi r sv).
Proof.
  intros Heq Hm. unfold intern_string. destruct (list_find _ _) as [[]|]; by apply local_set.
Qed.

Lemma jump_pc_target pc o pc' : jump_pc pc o = Ok pc' → pc' = i64_as_u64 (u64_as_i64 pc + o - 1).
Proof. unfold jump_pc, checked_i64. intros H0. repeat case_match; by simplify_eq. Qed.

Lemma local_jump fi dst js vm o : o ∈ js → local_result fi dst js vm (jump vm fi o).
Proof.
  intros Ho. unfold jump. apply local_bind. intros f Hf%index_Ok. apply local_bind. intros pc ->%jump_pc_target.
  split; [|done]. eapply local_put; [done|done|]. right. by exists o.
Qed.

Lemma local_capstore fi dst js vm instr : valid vm fi → local_result fi dst js vm (step_capstore vm fi instr).
Proof.
  intros Hv. unfold step_capstore. do 2 (apply local_bind; intros ? _). case_if; [done|].
  unfold capstore_env. case_if; simpl.
  - apply local_bind. intros env _. by apply local_refl.
  - pose proof (local_set fi dst js vm (with_envs vm (vm_closure_envs vm ++
      [mkClosureEnv (N.land x PAYLOAD_MASK) []])) (i_op1 instr)
      (tag_closure (N.lor CLOSURE_ENV_FLAG (N.land (len (vm_closure_envs vm)) CLOSURE_ENV_IDX_MASK)))
      eq_refl eq_refl) as Hs.
    destruct (set_reg _ _ _ _) as [vm'|]; [|done]. simpl. by destruct (index _ _).
Qed.

Lemma local_perform fi dst js vm instr : local_result fi dst js vm (step_perform vm fi instr).
Proof.
  unfold step_perform. apply local_bind. intros name _.
  destruct (BuiltinEffect_from_name name) as [[]|].
  - apply local_bind. intros v _. by apply local_set.
  - unfold read_line. destruct (vm_input vm) as [|[]]; [| |done]; by apply local_intern.
  - unfold step_string_effect. cbn zeta. repeat case_if; try done.
    all: repeat first [by apply local_set | by apply local_intern | apply local_bind; intros ? _].
Qed.

Lemma local_swap fi dst js vm r1 r2 a b :
  local_result fi dst js vm (let? vm := set_reg vm fi r1 b in set_reg vm fi r2 a).
Proof.
  unfold set_reg at 1, index. destruct (vm_frames vm !! N.to_nat fi) as [f|] eqn:Hf; [|done]. simpl.
  destruct (f_regs f !! N.to_nat r1); [|done]. simpl. unfold set_reg, index. simpl.
  rewrite list_lookup_insert_eq by (by eapply lookup_lt_Some). simpl.
  destruct (_ !! N.to_nat r2); [|done]. simpl. split; [|done].
  rewrite list_insert_insert_eq. by eapply local_put; [| |apply jumped_same].
Qed.

Lemma local_push fi dst js vm g :
  frame_link g = (Some fi, dst) → local_result fi dst js vm (Ok (push_frame vm g)).
Proof. intros Hg. split; [|done]. right. by exists g. Qed.

Lemma local_instr vm fi instr :
  vm_ok vm → valid vm fi → instr_ok instr →
  local_result fi (i_op3 instr) (jump_offsets instr) vm (step_instr vm fi instr).
Proof.
  intros Hok Hv (H1 & _).
  pose proof (local_refl fi (i_op3 instr) (jump_offsets instr) vm vm Hv eq_refl eq_refl) as Hid.
  unfold step_instr, jump_offsets in *. destruct (i_opcode instr);
    try (exact Hid); try (by apply local_set); try (by apply local_jump, list_elem_of_singleton);
    try (by apply local_perform); try (by apply local_capstore); try (by rewrite step_resume_fails).
  all: try (unfold int_binop, bool_binop, step_sconcat; repeat first
    [ by apply local_set | by apply local_intern | by apply local_jump, list_elem_of_singleton | exact Hid
    | apply local_swap | case_match; [done|by apply local_set] | case_match
    | apply local_bind; intros ? _ ]; fail).
  - unfold step_const. do 2 (apply local_bind; intros ? _).
    destruct (_ !! N.to_nat _) as [[]|]; first [by apply local_set | by apply local_intern].
  - unfold step_call. do 4 (apply local_bind; intros ? _). by apply local_push.
  - unfold step_capload. do 2 (apply local_bind; intros ? _). case_if; [done|].
    apply local_bind; intros ? _. by apply local_set.
  - unfold step_closure_call. do 4 (apply local_bind; intros ? _). by apply local_push.
Qed.

(** ** No run panics *)

(** [safe] for the results of the steps that say whether to go on. *)
Definition safe_run (n : N) (r : result (bool * CoreVM) VmError) : Prop :=
  match r with
  | Ok (_, vm) => vm_ok vm ∧ len (vm_closure_envs vm) ≤ n
  | Err e => fits → e ≠ E_panic
  end.

Lemma pop_frame_ok vm k : vm_ok vm → vm_ok (with_frames vm (take k (vm_frames vm))).
Proof.
  intros [Hm Hf He Hh]. split; try done. simpl. intros i f Hi.
  apply lookup_take_Some in Hi as [Hi _]. by apply Hf.
Qed.

Lemma safe_step_return vm fi v :
  vm_ok vm → valid vm fi → closure_ok (len (vm_closure_envs vm)) v →
  safe_run (len (vm_closure_envs vm) + 1) (step_return vm fi v).
Proof.
  intros Hok Hv Hc. unfold step_return.
  destruct (valid_frame vm fi Hok Hv) as (f & -> & _ & _ & _ & _ & Hdst & Hcaller & _). simpl.
  destruct (f_caller_idx f) as [c|].
  - assert (valid vm c) as Hvc by (unfold valid in *; specialize (Hcaller c eq_refl); lia).
    destruct (set_reg_ok vm c (f_return_dst f) v) as (vm' & -> & Hok' & _ & Henv); [done..|].
    split; [by apply pop_frame_ok|]. simpl. rewrite Henv. lia.
  - destruct (set_reg_ok vm fi 0 v) as (vm' & -> & Hok' & _ & Henv); [done..|].
    split; [done|]. rewrite Henv. lia.
Qed.

Lemma safe_step vm fi instr :
  vm_ok vm → valid vm fi → instr_ok instr → len (vm_closure_envs vm) < 2 ^ 46 →
  (fits → overflow_checks = true → ∀ f, vm_frames vm !! N.to_nat fi = Some f → jumps_fit (f_pc f) instr) →
  safe_run (len (vm_closure_envs vm) + 1) (CoreVM_step vm fi instr).
Proof.
  intros Hok Hv Hi Hsmall Hfit. pose proof (safe_step_instr vm fi instr Hok Hv Hi Hsmall Hfit) as Hstep.
  assert (safe_run (len (vm_closure_envs vm) + 1)
    (let? vm := step_instr vm fi instr in Ok (true, vm))) as Hrest.
  { destruct (step_instr vm fi instr) as [vm'|e]; [|done]. by destruct Hstep as (? & _ & ?). }
  unfold CoreVM_step. destruct Hi as (H1 & _). destruct (i_opcode instr); try exact Hrest.
  - simpl. split; [done|lia].
  - destruct (valid_reg vm fi 0 Hok Hv) as (v & -> & Hc); [done|]. by apply safe_step_return.
  - destruct (valid_reg vm fi (i_op1 instr) Hok Hv H1) as (v & -> & Hc). by apply safe_step_return.
Qed.

Lemma fetch_ok vm fi f :
  vm_ok vm → vm_frames vm !! N.to_nat fi = Some f →
  ∃ instr, fetch vm f = Ok instr ∧ instr_ok instr.
Proof.
  intros Hok Hf. destruct (valid_module vm fi f Hok Hf) as (m & Hm & Hin). unfold fetch. rewrite Hm.
  simpl. eexists. split; [done|]. destruct (cm_instructions m !! _) as [i|] eqn:Hi; [|done].
  pose proof (proj1 (Forall_forall _ _) (ok_modules _ Hok) m Hin) as Hall.
  exact (Forall_lookup_1 _ _ _ _ Hall Hi).
Qed.

Lemma jump_offsets_lt instr o : instr_ok instr → o ∈ jump_offsets instr → (o < 2 ^ 46)%Z.
Proof.
  intros (H1 & H2 & H3). assert (∀ a b, a < 256 → b < 256 → (u16_as_i16 (N.lor (N.shiftl a 8) b) < 2 ^ 46)%Z) as Hlt.
  { intros a b Ha Hb. unfold u16_as_i16. rewrite lor_shiftl_add by done. change (2 ^ 8) with 256. case_match; lia. }
  unfold jump_offsets. destruct (i_opcode instr); try by intros ?%not_elem_of_nil.
  all: intros ->%list_elem_of_singleton; by apply Hlt.
Qed.

(** An instruction that goes on is one of the module, and its jumps fit. *)
Lemma fetch_fits vm fi f instr :
  vm_ok vm → vm_frames vm !! N.to_nat fi = Some f → Forall jumps_ok (vm_modules vm) → fetch vm f = Ok instr →
  instr = Instruction_new0 Op_Halt ∨ f_pc f < 2 ^ 62 ∧ jumps_fit (f_pc f) instr.
Proof.
  intros Hok Hf Hall. destruct (valid_module vm fi f Hok Hf) as (m & Hm & Hin). unfold fetch. rewrite Hm. simpl. intros [= <-].
  rewrite Forall_forall in Hall. destruct (Hall m Hin) as [Hlen Hjumps].
  destruct (cm_instructions m !! N.to_nat (f_pc f)) as [i|] eqn:Hi; [right|by left]. simpl.
  assert (f_pc f < 2 ^ 62) as Hpc by (apply lookup_lt_Some in Hi; unfold len in Hlen; lia). split; [done|].
  pose proof (proj1 (Forall_forall _ _) (ok_modules _ Hok) m Hin) as Hbytes. apply (Forall_lookup_1 _ _ _ _ Hbytes) in Hi as Hb.
  apply Forall_forall. intros o Ho. apply (jump_offsets_lt _ _ Hb) in Ho as Hlt. specialize (Hjumps _ _ Hi).
  rewrite Forall_forall in Hjumps. specialize (Hjumps o Ho). unfold jump_fits. lia.
Qed.

Lemma jumped_small js f f' :
  f_pc f < 2 ^ 62 → Forall (jump_fits (f_pc f)) js → jumped js f f' → f_pc f' < 2 ^ 63.
Proof.
  intros Hpc Hjs [->|(o & Ho & ->)]; [lia|]. rewrite Forall_forall in Hjs. destruct (Hjs o Ho) as [_ Hb].
  unfold u64_as_i64. rewrite (proj2 (N.ltb_lt _ _)) by lia. unfold i64_as_u64. rewrite Z.mod_small by lia. lia.
Qed.

Lemma local_small fi dst js fs fs' f f' :
  local_step fi dst js fs fs' → fs !! N.to_nat fi = Some f → fs' !! N.to_nat fi = Some f' →
  f_pc f < 2 ^ 62 → Forall (jump_fits (f_pc f)) js → f_pc f' < 2 ^ 63.
Proof.
  intros [(f0 & f1 & Hf & _ & Hj & ->)|(g & -> & _)] Hf0 Hf' Hpc Hjs.
  - assert (f0 = f) as -> by congruence. rewrite list_lookup_insert_eq in Hf' by (by eapply lookup_lt_Some).
    injection Hf' as <-. by eapply jumped_small.
  - rewrite lookup_app_l in Hf' by (by eapply lookup_lt_Some). assert (f' = f) as -> by congruence. lia.
Qed.

Lemma advance_safe n vm top :
  vm_ok vm → len (vm_closure_envs vm) ≤ n →
  (fits → overflow_checks = true → ∀ f, vm_frames vm !! N.to_nat top = Some f → f_pc f < 2 ^ 63) →
  safe_run n (let? vm := advance vm top in Ok (true, vm)).
Proof.
  intros Hok Hn Hpc. unfold advance. destruct (vm_frames vm !! N.to_nat top) as [f|] eqn:Hf; [|by split].
  destruct (overflow_checks && _) eqn:Ho; simpl.
  - apply andb_true_iff in Ho as [Hc He%N.eqb_eq]. intros HQ. specialize (Hpc HQ Hc f eq_refl). unfold U64 in He. lia.
  - split; [|done]. apply put_frame_ok; [done|]. exact (ok_frames _ Hok _ _ Hf).
Qed.

(** The running frame after an instruction that goes on. *)
Lemma step_small vm fi f instr vm' f' :
  vm_ok vm → valid vm fi → instr_ok instr → S (N.to_nat fi) = length (vm_frames vm) →
  CoreVM_step vm fi instr = Ok (true, vm') → vm_frames vm !! N.to_nat fi = Some f → vm_frames vm' !! N.to_nat fi = Some f' →
  f_pc f < 2 ^ 62 → jumps_fit (f_pc f) instr → f_pc f' < 2 ^ 63.
Proof.
  intros Hok Hv Hi Htop Hstep Hf Hf' Hpc Hfit. pose proof (local_instr vm fi instr Hok Hv Hi) as Hloc.
  assert ((let? vm := step_instr vm fi instr in Ok (true, vm)) = Ok (true, vm') → f_pc f' < 2 ^ 63) as Hrest.
  { destruct (step_instr vm fi instr) as [vm1|]; [|done]. intros [= ->]. destruct Hloc as [Hloc _].
    by eapply (local_small _ _ _ _ _ f f' Hloc). }
  assert (∀ v, step_return vm fi v = Ok (true, vm') → f_pc f' < 2 ^ 63) as Hret.
  { intros v. unfold step_return. rewrite (proj2 (index_Ok _ _ _) Hf). simpl. destruct (f_caller_idx f) as [c|].
    - destruct (set_reg vm c (f_return_dst f) v) as [vm1|] eqn:Hset; [|done]. simpl. intros [= <-]. simpl in Hf'.
      assert (length (vm_frames vm1) = length (vm_frames vm)) as Hl.
      { unfold set_reg in Hset. destruct (index (vm_frames vm) c) as [h|]; [|done]. simpl in Hset.
        destruct (index (f_regs h) _); [|done]. simpl in Hset. injection Hset as <-. simpl. apply length_insert. }
      apply lookup_lt_Some in Hf'. rewrite length_take in Hf'. lia.
    - by destruct (set_reg vm fi 0 v). }
  revert Hstep. unfold CoreVM_step. destruct (i_opcode instr); try exact Hrest; [done|..].
  - destruct (get_reg vm fi 0) as [v|]; [|done]. by apply Hret.
  - destruct (get_reg vm fi (i_op1 instr)) as [v|]; [|done]. by apply Hret.
Qed.

Lemma safe_run_once vm :
  vm_ok vm → len (vm_closure_envs vm) < 2 ^ 46 →
  (fits → overflow_checks = true → Forall jumps_ok (vm_modules vm)) →
  safe_run (len (vm_closure_envs vm) + 1) (run_once vm).
Proof.
  intros Hok Hsmall Hjumps. unfold run_once.
  destruct (_ || _) eqn:Hstop; [split; [done|lia]|].
  apply orb_false_iff in Hstop as [_ Hne%bool_decide_eq_false]. cbn zeta.
  assert (S (N.to_nat (len (vm_frames vm) - 1)) = length (vm_frames vm)) as Htop.
  { unfold len. destruct (vm_frames vm); [done|]. simpl length. lia. }
  assert (valid vm (len (vm_frames vm) - 1)) as Hv by (unfold valid; lia).
  destruct (valid_frame _ _ Hok Hv) as (f & -> & Hf & _). simpl.
  destruct (fetch_ok _ _ _ Hok Hf) as (instr & Hfetch & Hi). rewrite Hfetch. simpl.
  assert (fits → overflow_checks = true → instr = Instruction_new0 Op_Halt ∨ f_pc f < 2 ^ 62 ∧ jumps_fit (f_pc f) instr) as Hfit.
  { intros HQ Hc. by eapply fetch_fits; auto. }
  assert (safe_run (len (vm_closure_envs vm) + 1) (CoreVM_step vm (len (vm_frames vm) - 1) instr)) as Hstep.
  { apply safe_step; [done..|]. intros HQ Hc f0 Hf0. assert (f0 = f) as -> by congruence.
    destruct (Hfit HQ Hc) as [->|[_ ?]]; [by constructor|done]. }
  destruct (CoreVM_step _ _ _) as [[go vm']|e] eqn:Hst; [|exact Hstep]. destruct Hstep as [Hok' Hlen]. simpl.
  destruct go; simpl; [|by split; [destruct Hok'; by split|]].
  apply advance_safe; [done..|]. intros HQ Hc f' Hf'. destruct (Hfit HQ Hc) as [->|[? ?]]; [done|].
  by eapply (step_small vm _ f instr vm' f').
Qed.

Lemma advance_modules vm top vm' : advance vm top = Ok vm' → vm_modules vm' = vm_modules vm.
Proof. unfold advance. intros Ha. repeat case_match; by simplify_eq. Qed.

Lemma step_modules vm fi instr go vm' :
  vm_ok vm → valid vm fi → instr_ok instr → CoreVM_step vm fi instr = Ok (go, vm') → vm_modules vm' = vm_modules vm.
Proof.
  intros Hok Hv Hi. pose proof (local_instr vm fi instr Hok Hv Hi) as Hloc.
  assert (∀ fi r v vm', set_reg vm fi r v = Ok vm' → vm_modules vm' = vm_modules vm) as Hset.
  { intros fj r v vm1. unfold set_reg. destruct (index (vm_frames vm) fj) as [h|]; [|done]. simpl.
    destruct (index (f_regs h) r); [|done]. simpl. by intros [= <-]. }
  assert (∀ v, step_return vm fi v = Ok (go, vm') → vm_modules vm' = vm_modules vm) as Hret.
  { intros v. unfold step_return. destruct (index (vm_frames vm) fi) as [f|]; [|done]. simpl. destruct (f_caller_idx f) as [c|].
    - destruct (set_reg vm c _ v) as [vm1|] eqn:Hs; [|done]. simpl. intros [= _ <-]. by apply Hset in Hs.
    - destruct (set_reg vm fi 0 v) as [vm1|] eqn:Hs; [|done]. simpl. intros [= _ <-]. by apply Hset in Hs. }
  unfold CoreVM_step. destruct (i_opcode instr);
    try (destruct (step_instr vm fi instr) as [vm1|]; [|done]; simpl; intros [= <- <-]; by destruct Hloc); [by intros [= _ <-]|..].
  - destruct (get_reg vm fi 0) as [v|]; [|done]. apply Hret.
  - destruct (get_reg vm fi (i_op1 instr)) as [v|]; [|done]. apply Hret.
Qed.

Lemma run_once_modules vm go vm' : vm_ok vm → run_once vm = Ok (go, vm') → vm_modules vm' = vm_modules vm.
Proof.
  intros Hok. unfold run_once. destruct (_ || _) eqn:Hstop; [by intros [= _ <-]|].
  apply orb_false_iff in Hstop as [_ Hne%bool_decide_eq_false]. cbn zeta.
  assert (valid vm (len (vm_frames vm) - 1)) as Hv.
  { unfold valid, len. destruct (vm_frames vm); [done|]. simpl length. lia. }
  destruct (valid_frame _ _ Hok Hv) as (f & -> & Hf & _). simpl.
  destruct (fetch_ok _ _ _ Hok Hf) as (instr & -> & Hi). simpl.
  destruct (CoreVM_step _ _ _) as [[b vm1]|e] eqn:Hst; [|done]. apply step_modules in Hst; [|done..]. simpl.
  destruct b; [|by intros [= _ <-]]. destruct (advance vm1 _) as [vm2|] eqn:Ha; [|done]. simpl. intros [= _ <-].
  apply advance_modules in Ha. congruence.
Qed.

Lemma run_loop_safe fuel vm r :
  vm_ok vm → len (vm_closure_envs vm) + N.of_nat fuel ≤ 2 ^ 46 →
  (fits → overflow_checks = true → Forall jumps_ok (vm_modules vm)) → run_loop fuel vm = Some r →
  match r with Ok vm' => vm_ok vm' | Err e => fits → e ≠ E_panic end.
Proof.
  revert vm. induction fuel as [|fuel IH]; intros vm Hok Hsmall Hj Hrun; simpl in Hrun; [done|].
  pose proof (safe_run_once vm Hok ltac:(lia) Hj) as Hsafe.
  destruct (run_once vm) as [[[] vm']|e] eqn:Hr; simpl in Hsafe.
  - apply run_once_modules in Hr; [|done]. apply (IH vm'); [tauto|lia|by rewrite Hr|done].
  - injection Hrun as <-. tauto.
  - by injection Hrun as <-.
Qed.
End no_panic.

Lemma run_start_ok vm module_idx entry_pc :
  vm_ok vm → module_idx < len (vm_modules vm) → vm_ok (run_start vm module_idx entry_pc).
Proof.
  intros Hok Hm. assert (vm_ok (push_frame vm (set_pc (Frame_new None module_idx) entry_pc))) as [].
  { apply push_frame_ok; [done|]. unfold frame_ok, set_pc, Frame_new.
    cbn [f_regs f_module_idx f_return_dst f_caller_idx f_closure_env].
    split_and!; try done. apply Forall_replicate, tag_unit_ok. }
  by split.
Qed.

(** [C7] No run of the interpreter panics.  Start [run] on any well-formed
    state (registers, captures and frames that respect the interpreter's own
    invariant, instructions with byte operands), at any entry point of any
    loaded module, for at most 2^46 rounds less the closure environments there
    are: whatever the program does, no register, frame, module or environment
    index is out of range, and in a build with overflow checks no arithmetic on
    the program counter overflows, if no jump goes to the first instruction of
    its module or before it (see [core_vm_jump_to_start_panics]).  The run ends
    in a well-formed state or in one of the interpreter's own errors. *)
Theorem core_vm_no_panic {build : Build} fuel vm module_idx entry_pc r :
  vm_ok vm → module_idx < len (vm_modules vm) →
  len (vm_closure_envs vm) + N.of_nat fuel ≤ 2 ^ 46 →
  (overflow_checks = true → Forall jumps_ok (vm_modules vm)) →
  CoreVM_run fuel vm module_idx entry_pc = Some r →
  match r with Ok (_, vm') => vm_ok vm' | Err e => e ≠ E_panic end.
Proof.
  intros Hok Hm Hsmall Hjumps Hrun. unfold CoreVM_run in Hrun.
  destruct (run_loop fuel _) as [res|] eqn:Hloop; [|done]. simpl in Hrun. injection Hrun as <-.
  pose proof (run_start_ok vm module_idx entry_pc Hok Hm) as Hstart.
  pose proof (run_loop_safe True fuel _ res Hstart Hsmall (λ _, Hjumps) Hloop) as Hres.
  destruct res as [vm'|e]; [|by apply Hres]. simpl. unfold run_result. destruct (is_int_raw _); [|done].
  destruct Hres. by split.
Qed.

(** A program that captures a number in a closure and calls it to square it. *)
Definition sample_code : list Instruction :=
  [ Instruction_new1 Op_Const2 0; Instruction_new1 Op_IInc 0;
    Instruction_new3 Op_Closure 0 1 5; Instruction_new3 Op_CapStore 5 0 0;
    Instruction_new3 Op_ClosureCall 5 0 6; Instruction_new1 Op_RetVal 6;
    Instruction_new2 Op_CapLoad 0 1; Instruction_new3 Op_IMul 1 1 2; Instruction_new1 Op_RetVal 2 ].

Definition sample_vm : CoreVM :=
  (load_module_from_code (CoreVM_new []) (mkCodeModule [] sample_code [0; 6] None [] [])).2.

Lemma sample_vm_ok : vm_ok sample_vm.
Proof. split; [|done|apply Forall_nil_2..]. simpl. repeat (constructor; try done). Qed.

(** A build with overflow checks, and the same program in it. *)
Definition dev_build : Build := true.

Lemma core_vm_no_panic_witness :
  match CoreVM_run (build := dev_build) 20 sample_vm 0 0 with
  | Some (Ok (v, vm')) => v = tag_int 9 ∧ vm_ok vm'
  | _ => False
  end.
Proof.
  assert (match CoreVM_run (build := dev_build) 20 sample_vm 0 0 with
          | Some (Ok (v, _)) => v =? tag_int 9 | _ => false end = true) as Hv by (by vm_compute).
  assert (Forall jumps_ok (vm_modules sample_vm)) as Hj.
  { apply Forall_singleton. split; [done|]. intros k instr. do 9 (destruct k as [|k]; [by intros [= <-]; constructor|]). done. }
  pose proof (λ r, core_vm_no_panic (build := dev_build) 20 sample_vm 0 0 r sample_vm_ok eq_refl ltac:(done) (λ _, Hj)) as Hsafe.
  revert Hv Hsafe. generalize (CoreVM_run (build := dev_build) 20 sample_vm 0 0).
  intros [[[v vm']|e]|] Hv Hsafe; [|discriminate Hv..].
  split; [by apply N.eqb_eq|]. exact (Hsafe _ eq_refl).
Defined.

(** A loop at the start of a module: its jump back sets the program counter to
    the largest number, and a build with overflow checks panics.  Without the
    checks the counter wraps to the start. *)
Definition loop_vm : CoreVM :=
  (load_module_from_code (CoreVM_new [])
     (mkCodeModule [] [Instruction_new0 Op_Nop; mkInstruction Op_Jmp 255 255 0] [] None [] [])).2.

Lemma core_vm_jump_to_start_panics :
  CoreVM_run (build := dev_build) 20 loop_vm 0 0 = Some (Err E_panic) ∧
  CoreVM_run (build := false) 20 loop_vm 0 0 = None.
Proof. by vm_compute. Qed.

(** ** Integer instructions *)

Lemma set_reg_get vm fi r v vm' :
  set_reg vm fi r v = Ok vm' →
  get_reg vm' fi r = Ok v ∧ (∀ r', r' ≠ r → get_reg vm' fi r' = get_reg vm fi r').
Proof.
  unfold set_reg, get_reg, index. intros Hs.
  destruct (vm_frames vm !! N.to_nat fi) as [f|] eqn:Hf; [|done]. simpl in Hs.
  destruct (f_regs f !! N.to_nat r) as [old|] eqn:Hr; [|done]. simpl in Hs. injection Hs as <-.
  simpl. rewrite list_lookup_insert_eq by (by eapply lookup_lt_Some). simpl. split.
  - by rewrite list_lookup_insert_eq by (by eapply lookup_lt_Some).
  - intros r' Hne. rewrite list_lookup_insert_ne; [done|]. lia.
Qed.

(** The mathematical result of an integer instruction, or none. *)
Definition arith_spec (o : OpCode) : option (Z → Z → option Z) :=
  match o with
  | Op_IAdd => Some (λ a b, Some (a + b)%Z)
  | Op_ISub => Some (λ a b, Some (a - b)%Z)
  | Op_IMul => Some (λ a b, Some (a * b)%Z)
  | Op_IDiv => Some (λ a b, if (b =? 0)%Z then None else Some (Z.quot a b))
  | Op_IMod => Some (λ a b, if (b =? 0)%Z then None else Some (Z.rem a b))
  | Op_Shl => Some (λ a b, Some (a * 2 ^ Z.min (b mod 2 ^ 32) 63)%Z)
  | Op_Shr => Some (λ a b, Some (a / 2 ^ Z.min (b mod 2 ^ 32) 63)%Z)
  | _ => None
  end.

Lemma tag_int_value n : is_int_raw (tag_int n) = true ∧ as_int_raw (tag_int n) = wrap48 n.
Proof.
  unfold is_int_raw, as_int_raw, tag_int. rewrite land_payload.
  change TAG_INT with (0x7FFB * 2 ^ 48).
  destruct (tagged_access 0x7FFB (i64_as_u64 n mod 2 ^ 48)) as [-> ->];
    [done|apply payload_lt|]. split; [by apply N.eqb_refl|apply sext48_wrap].
Qed.

(** Wrapping to 64 bits first does not change the low 48. *)
Lemma wrap48_wrap_i64 n : wrap48 (wrap_i64 n) = wrap48 n.
Proof.
  unfold wrap48, wrap_i64.
  replace ((n + 2 ^ 63) mod 2 ^ 64 - 2 ^ 63 + 2 ^ 47)%Z
    with (n + 2 ^ 47 + (- (2 ^ 16 * ((n + 2 ^ 63) / 2 ^ 64))) * 2 ^ 48)%Z.
  - by rewrite Z_mod_plus_full.
  - pose proof (Z.div_mod (n + 2 ^ 63) (2 ^ 64) ltac:(done)). lia.
Qed.

Definition arith_value (r : option Z) (v : N) : Prop :=
  match r with
  | Some z => is_int_raw v = true ∧ as_int_raw v = wrap48 z
  | None => v = TAG_NIL
  end.

Lemma int_binop_effect vm fi instr f x y :
  vm_ok vm → valid vm fi → instr_ok instr → (∀ a b m, closure_ok m (f a b)) →
  get_reg vm fi (i_op1 instr) = Ok x → get_reg vm fi (i_op2 instr) = Ok y →
  ∃ vm', int_binop vm fi instr f = Ok vm' ∧
    get_reg vm' fi (i_op3 instr) = Ok (f (as_int_raw x) (as_int_raw y)) ∧
    (∀ r, r ≠ i_op3 instr → get_reg vm' fi r = get_reg vm fi r).
Proof.
  intros Hok Hv Hi Hf Hx Hy. unfold int_binop. rewrite Hx, Hy. simpl.
  destruct (set_reg_ok vm fi (i_op3 instr) (f (as_int_raw x) (as_int_raw y)))
    as (vm' & Hs & _); [done..|apply Hi|apply Hf|].
  exists vm'. split; [done|]. by apply set_reg_get.
Qed.

Lemma tag_int_arith n z : wrap48 n = wrap48 z → arith_value (Some z) (tag_int n).
Proof. intros Heq. simpl. rewrite <- Heq. apply tag_int_value. Qed.

Lemma arith_instr {build : Build} vm fi instr spec :
  arith_spec (i_opcode instr) = Some spec →
  ∃ f, step_instr vm fi instr = int_binop vm fi instr f ∧ (∀ a b m, closure_ok m (f a b)) ∧
       ∀ a b, arith_value (spec a b) (f a b).
Proof.
  intros Hspec. unfold step_instr.
  destruct (i_opcode instr); try discriminate Hspec; injection Hspec as <-;
    (eexists; split; [done|]); unfold iadd, isub, imul, idiv, imod, ishl, ishr, shift_amount;
    (split; [intros; repeat case_match; auto with nula|intros a b]).
  all: try (case_match; [done|]); apply tag_int_arith; rewrite ?wrap48_wrap_i64; try done.
  all: pose proof (Z.mod_pos_bound b (2 ^ 32) ltac:(done)).
  - by rewrite Z.shiftl_mul_pow2 by lia.
  - by rewrite Z.shiftr_div_pow2 by lia.
Qed.

(** [C35] The integer instructions compute modulo 2^48.  On operands [x] and
    [y], [IAdd], [ISub], [IMul], [IDiv], [IMod], [Shl] and [Shr] write to the
    destination register the two's complement 48-bit value of the exact
    result; division and remainder by zero write nil instead; every other
    register of the frame keeps its value. *)
Theorem core_vm_int_ops {build : Build} vm fi instr spec x y :
  vm_ok vm → valid vm fi → instr_ok instr →
  arith_spec (i_opcode instr) = Some spec →
  get_reg vm fi (i_op1 instr) = Ok x → get_reg vm fi (i_op2 instr) = Ok y →
  ∃ vm' v, step_instr vm fi instr = Ok vm' ∧ get_reg vm' fi (i_op3 instr) = Ok v ∧
    arith_value (spec (as_int_raw x) (as_int_raw y)) v ∧
    (∀ r, r ≠ i_op3 instr → get_reg vm' fi r = get_reg vm fi r).
Proof.
  intros Hok Hv Hi Hspec Hx Hy. destruct (arith_instr vm fi instr spec Hspec) as (f & -> & Hc & Hval).
  destruct (int_binop_effect vm fi instr f x y Hok Hv Hi Hc Hx Hy) as (vm' & -> & Hget & Hother).
  exists vm', (f (as_int_raw x) (as_int_raw y)). split_and!; auto.
Qed.

(** A state about to subtract, with operands 2^47 - 1 and -2 in registers 0
    and 1. *)
Definition arith_vm : CoreVM :=
  push_frame
    (load_module_from_code (CoreVM_new [])
      (mkCodeModule [] [Instruction_new3 Op_ISub 0 1 2] [0] None [] [])).2
    (mkFrame ([tag_int INT48_MAX; tag_int (-2)] ++ replicate 254 TAG_UNIT) 0 0 0 None None).

Lemma arith_vm_ok : vm_ok arith_vm.
Proof.
  apply push_frame_ok; [split; [by repeat constructor|done|constructor..]|].
  unfold frame_ok. cbn [f_regs f_module_idx f_return_dst f_caller_idx f_closure_env].
  split_and!; try done. apply Forall_app. split; [|apply Forall_replicate, tag_unit_ok].
  repeat constructor; apply tag_int_ok.
Qed.

Lemma core_vm_int_ops_witness :
  ∃ vm' v, step_instr (build := dev_build) arith_vm 0 (Instruction_new3 Op_ISub 0 1 2) = Ok vm' ∧
    get_reg vm' 0 2 = Ok v ∧ as_int_raw v = (INT48_MIN + 1)%Z.
Proof.
  destruct (core_vm_int_ops (build := dev_build) arith_vm 0 (Instruction_new3 Op_ISub 0 1 2) (λ a b, Some (a - b)%Z)
    (tag_int INT48_MAX) (tag_int (-2)) arith_vm_ok) as (vm' & v & Hs & Hg & [_ Hv] & _);
    [unfold valid; simpl; lia|done|done|done|done|].
  exists vm', v. split_and!; [exact Hs|exact Hg|]. rewrite Hv. by vm_compute.
Defined.

(** ** Strings are interned *)

Lemma string_handle vm i :
  i < 2 ^ 48 → resolve_string vm (N.lor TAG_STRING (N.land i PAYLOAD_MASK)) = vm_strings vm !! N.to_nat i.
Proof.
  intros Hi. unfold resolve_string. rewrite land_payload. change TAG_STRING with (0x7FFE * 2 ^ 48).
  destruct (tagged_access 0x7FFE (i mod 2 ^ 48)) as [-> ->]; [done|apply payload_lt|].
  rewrite N.eqb_refl. simpl. by rewrite N.mod_small.
Qed.

(** The handle of a string is determined by its index in the pool. *)
Lemma handle_of_index vm w u :
  w < 2 ^ 64 → resolve_string vm w = Some u →
  ∃ i, vm_strings vm !! N.to_nat i = Some u ∧ i < 2 ^ 48 ∧ w = N.lor TAG_STRING (N.land i PAYLOAD_MASK).
Proof.
  intros Hw. unfold resolve_string. destruct (N.land w TAG_MASK =? TAG_STRING) eqn:Ht; [|done]. simpl.
  intros Hl. exists (N.land w PAYLOAD_MASK). rewrite land_payload in *.
  split_and!; [done|apply payload_lt|]. rewrite land_payload, N.Div0.mod_mod.
  change TAG_STRING with (0x7FFE * 2 ^ 48) in *. rewrite tag_test in Ht by done.
  apply N.eqb_eq in Ht. rewrite lor_tag by apply payload_lt. rewrite <- Ht.
  rewrite N.mul_comm. apply N.div_mod. done.
Qed.

Lemma intern_string_spec vm s :
  ∃ i, vm_strings (intern_string vm s).2 !! N.to_nat i = Some s ∧
    (intern_string vm s).1 = N.lor TAG_STRING (N.land i PAYLOAD_MASK) ∧
    (vm_strings (intern_string vm s).2 = vm_strings vm ∨
     (s ∉ vm_strings vm) ∧ vm_strings (intern_string vm s).2 = vm_strings vm ++ [s]).
Proof.
  unfold intern_string. destruct (list_find _ _) as [[i x]|] eqn:Hfind; simpl.
  - apply list_find_Some in Hfind as (Hi & -> & _). exists (N.of_nat i). rewrite Nat2N.id. auto.
  - apply list_find_None in Hfind. exists (len (vm_strings vm)). unfold len. rewrite Nat2N.id.
    split_and!; [by apply list_lookup_middle|done|right; split; [|done]].
    intros Hin. by apply (proj1 (Forall_forall _ _) Hfind s Hin).
Qed.

(** [C36] String values are interned.  On a pool without duplicates and short
    of 2^48 entries, interning [s] yields a value that resolves to [s], keeps
    the pool free of duplicates, and leaves the meaning of every earlier
    string value alone; afterwards a string value denotes [s] exactly when it
    is that value, so comparing raw values compares strings. *)
Theorem core_vm_strings vm s v vm' :
  NoDup (vm_strings vm) → len (vm_strings vm) < 2 ^ 48 → intern_string vm s = (v, vm') →
  resolve_string vm' v = Some s ∧ NoDup (vm_strings vm') ∧
  (∀ w u, resolve_string vm w = Some u → resolve_string vm' w = Some u) ∧
  (∀ w u, w < 2 ^ 64 → resolve_string vm' w = Some u → u = s ↔ w = v).
Proof.
  intros Hnd Hlen Hint. destruct (intern_string_spec vm s) as (i & Hi & Hv & Hpool).
  rewrite Hint in *. simpl in *.
  assert (NoDup (vm_strings vm')) as Hnd'.
  { destruct Hpool as [->|[Hnin ->]]; [done|]. apply NoDup_app. split_and!; [done| |apply NoDup_singleton].
    intros x Hx ->%list_elem_of_singleton. done. }
  assert (len (vm_strings vm') ≤ 2 ^ 48) as Hlen'.
  { destruct Hpool as [->|[_ ->]]; autorewrite with nula; lia. }
  assert (i < 2 ^ 48) as Hi48.
  { pose proof (lookup_lt_Some _ _ _ Hi). unfold len in Hlen'. lia. }
  split_and!; [by rewrite Hv, string_handle|done| |].
  - unfold resolve_string. intros w u. destruct (negb _); [done|]. intros Hw.
    destruct Hpool as [->|[_ ->]]; [done|]. by apply lookup_app_l_Some.
  - intros w u Hw Hu. destruct (handle_of_index vm' w u Hw Hu) as (j & Hj & Hj48 & ->). split.
    + intros ->. rewrite Hv. f_equal. f_equal. apply N2Nat.inj. by eapply NoDup_lookup.
    + intros Heq. rewrite Heq, Hv, string_handle in Hu by done. congruence.
Qed.

Lemma core_vm_strings_witness :
  let vm := with_strings (CoreVM_new []) [str "ok"; str "no"] in
  resolve_string (intern_string vm (str "yes")).2 (intern_string vm (str "yes")).1 = Some (str "yes").
Proof.
  intros vm. destruct (intern_string vm (str "yes")) as [v vm'] eqn:Hi.
  refine (proj1 (core_vm_strings vm (str "yes") v vm' _ _ Hi)); [|done].
  unfold vm. simpl. apply NoDup_cons. split; [by rewrite list_elem_of_singleton|apply NoDup_singleton].
Defined.

(** ** Handlers *)

(** A result does not depend on the handler stack. *)
Definition inert (vm : CoreVM) (hs : list HandlerFrame) (f : CoreVM → result CoreVM VmError) : Prop :=
  f (with_handlers vm hs) = (let? vm' := f vm in Ok (with_handlers vm' hs)).

Lemma inert_set vm hs fi r v : inert vm hs (λ vm, set_reg vm fi r v).
Proof.
  unfold inert, set_reg. simpl. destruct (index (vm_frames vm) fi); [|done]. simpl.
  by destruct (index (f_regs _) r).
Qed.

Lemma inert_get vm hs fi r (k : N → CoreVM → result CoreVM VmError) :
  (∀ v, inert vm hs (k v)) → inert vm hs (λ vm, let? v := get_reg vm fi r in k v vm).
Proof.
  intros Hk. unfold inert, get_reg in *. simpl. destruct (index (vm_frames vm) fi); [|done]. simpl.
  destruct (index (f_regs _) r); [|done]. apply Hk.
Qed.

Lemma inert_intern vm hs fi r s :
  inert vm hs (λ vm, let '(sv, vm) := intern_string vm s in set_reg vm fi r sv).
Proof.
  unfold inert, intern_string. simpl.
  destruct (list_find _ (vm_strings vm)) as [[i x]|]; simpl.
  - apply (inert_set vm hs).
  - apply (inert_set (with_strings vm _) hs).
Qed.

Lemma inert_string_effect vm hs fi instr name :
  inert vm hs (λ vm, step_string_effect vm fi instr name).
Proof.
  unfold step_string_effect. cbn zeta.
  destruct (bool_decide (name = str "String.charAt")); [|
  destruct (bool_decide (name = str "String.length")); [|
  destruct (bool_decide (name = str "Int.to_string")); [|
  destruct (bool_decide (name = str "String.from_char")); [|done]]]].
  - apply inert_get. intros a. apply inert_get. intros b. unfold inert, resolve_string. simpl.
    destruct (ok_or _ _); [|done]. apply (inert_set vm hs).
  - apply inert_get. intros a. unfold inert, resolve_string. simpl.
    destruct (ok_or _ _); [|done]. apply (inert_set vm hs).
  - apply inert_get. intros a. apply inert_intern.
  - apply inert_get. intros a. apply inert_intern.
Qed.

Lemma inert_perform vm hs fi instr : inert vm hs (λ vm, step_perform vm fi instr).
Proof.
  unfold inert, step_perform. change (effect_name (with_handlers vm hs) fi instr)
    with (effect_name vm fi instr). destruct (effect_name vm fi instr) as [name|e]; [|done]. simpl.
  destruct (BuiltinEffect_from_name name) as [[]|].
  - apply (inert_get vm hs fi _ (λ v vm,
      set_reg (emit_print vm (print_line vm v)) fi (i_op3 instr) TAG_UNIT)).
    intros v. apply (inert_set (emit_print vm (print_line vm v)) hs).
  - unfold read_line. simpl. destruct (vm_input vm) as [|[line|] rest]; [| |done].
    + apply (inert_intern vm hs).
    + apply (inert_intern (with_input vm rest) hs).
  - apply inert_string_effect.
Qed.

(** [C37] Installed handlers never run.  [Perform] and [PerformDirect] do the
    same whatever [Handle] has pushed on the handler stack, so an effect that
    is not built in is an error even under a handler for it; and in every
    well-formed state [Resume] fails, because no handler frame holds a
    continuation. *)
Theorem core_vm_handlers_inert {build : Build} vm hs fi instr :
  vm_ok vm → valid vm fi → instr_ok instr →
  (i_opcode instr = Op_Perform ∨ i_opcode instr = Op_PerformDirect →
   step_instr (with_handlers vm hs) fi instr =
     (let? vm' := step_instr vm fi instr in Ok (with_handlers vm' hs))) ∧
  (i_opcode instr = Op_Resume → step_instr vm fi instr = Err E_no_continuation).
Proof.
  intros Hok Hv (H1 & _). split.
  - unfold step_instr. intros [-> | ->]; apply (inert_perform vm hs).
  - unfold step_instr. intros ->. by apply step_resume_fails.
Qed.

Lemma core_vm_handlers_inert_witness :
  step_instr (build := dev_build) arith_vm 0 (Instruction_new1 Op_Resume 0) = Err E_no_continuation.
Proof.
  apply (core_vm_handlers_inert (build := dev_build) arith_vm [] 0 (Instruction_new1 Op_Resume 0) arith_vm_ok);
    [unfold valid; simpl; lia|done..].
Defined.

(** ** Calls and returns *)

(** The frame stack as an abstract machine: the top frame changes, or calls,
    or returns a value to the frame below. *)
Inductive stack_step (dst : N) : list Frame → list Frame → Prop :=
  | stack_local pre f f' :
      frame_link f' = frame_link f → stack_step dst (pre ++ [f]) (pre ++ [f'])
  | stack_call pre f g :
      frame_link g = (Some (len pre), dst) →
      stack_step dst (pre ++ [f]) (pre ++ [set_pc f (wrapping_add64 (f_pc f) 1); g])
  | stack_return pre f g v :
      f_caller_idx g = Some (len pre) → v ∈ f_regs g →
      stack_step dst (pre ++ [f; g])
        (pre ++ [set_regs f (<[N.to_nat (f_return_dst g) := v]> (f_regs f))]).

(** Callers are directly below their callees. *)
Definition linked (fs : list Frame) : Prop :=
  ∀ i f c, fs !! i = Some f → f_caller_idx f = Some c → S (N.to_nat c) = i.

Lemma linked_app fs gs :
  linked (fs ++ gs) ↔
  linked fs ∧ ∀ i f c, gs !! i = Some f → f_caller_idx f = Some c → S (N.to_nat c) = (length fs + i)%nat.
Proof.
  split.
  - intros Hl. split.
    + intros i f c Hi. apply Hl. by apply lookup_app_l_Some.
    + intros i f c Hi. apply Hl. rewrite lookup_app_r by lia. by replace (_ + i - _)%nat with i by lia.
  - intros [H1 H2] i f c Hi Hc. apply lookup_app_Some in Hi as [Hi|[Hge Hi]]; [by eapply H1|].
    rewrite (H2 _ _ _ Hi Hc). lia.
Qed.

Lemma stack_step_linked dst fs fs' : stack_step dst fs fs' → linked fs → linked fs'.
Proof.
  intros Hs. destruct Hs as [pre f f' Hl|pre f g Hl|pre f g v Hc Hv]; rewrite !linked_app;
    intros [Hp Hf]; (split; [done|]); intros [|[|i]] h c Hi Hhc; try done; injection Hi as <-.
  - apply (Hf 0%nat f); [done|]. injection Hl as <- _. done.
  - by apply (Hf 0%nat f).
  - injection Hl as Hg _. rewrite Hg in Hhc. injection Hhc as <-. unfold len. lia.
  - by apply (Hf 0%nat f).
Qed.

(** While more than [d] frames are live the lowest [d] frames do not change,
    and the frame above them keeps its caller and destination. *)
Lemma stack_step_below dst d fs fs' :
  stack_step dst fs fs' → (d < length fs)%nat → (d < length fs')%nat →
  take d fs' = take d fs ∧ frame_link <$> fs' !! d = frame_link <$> fs !! d.
Proof.
  intros Hs. destruct Hs as [pre f f' Hl|pre f g Hl|pre f g v Hc Hv];
    rewrite !length_app; simpl; intros H1 H2;
    (assert (d ≤ length pre)%nat as Hd by lia; rewrite !take_app_le by done; split; [done|];
     destruct (decide (d = length pre)) as [->|Hne];
     [by rewrite !list_lookup_middle; simpl; rewrite ?Hl | by rewrite !lookup_app_l by lia]).
Qed.

Lemma advance_frames {build : Build} vm top vm' f :
  advance vm top = Ok vm' → vm_frames vm !! N.to_nat top = Some f →
  vm_frames vm' = <[N.to_nat top := set_pc f (wrapping_add64 (f_pc f) 1)]> (vm_frames vm).
Proof. unfold advance. intros Ha Hf. rewrite Hf in Ha. case_match; by simplify_eq. Qed.

Lemma advance_none {build : Build} vm top vm' :
  advance vm top = Ok vm' → vm_frames vm !! N.to_nat top = None → vm' = vm.
Proof. unfold advance. intros Ha Hf. rewrite Hf in Ha. by injection Ha. Qed.

(** The instruction the running frame is about to execute. *)
Definition next_instr (vm : CoreVM) : option Instruction :=
  match last (vm_frames vm) with
  | Some f => match fetch vm f with Ok i => Some i | Err _ => None end
  | None => None
  end.

Lemma insert_top {A} (pre : list A) x y : <[length pre := y]> (pre ++ [x]) = pre ++ [y].
Proof. by rewrite insert_app_r_alt, Nat.sub_diag by lia. Qed.

(** A local step followed by the program counter's increment. *)
Lemma local_stack {build : Build} dst js vm vm' vm'' pre f :
  vm_frames vm = pre ++ [f] → local_step (len pre) dst js (vm_frames vm) (vm_frames vm') → advance vm' (len pre) = Ok vm'' →
  stack_step dst (vm_frames vm) (vm_frames vm'').
Proof.
  intros Hfs [(f0 & f' & Hf & Hl & _ & Heq)|(g & Heq & Hg)] Ha; rewrite Hfs in *; unfold len in *;
    rewrite ?Nat2N.id in *.
  - rewrite list_lookup_middle in Hf by done. injection Hf as <-. rewrite insert_top in Heq.
    rewrite (advance_frames _ _ _ f' Ha) by (by rewrite Heq, Nat2N.id, list_lookup_middle).
    rewrite Heq, Nat2N.id, insert_top. by constructor.
  - rewrite <- app_assoc in Heq. simpl in Heq.
    rewrite (advance_frames _ _ _ f Ha) by (by rewrite Heq, Nat2N.id, list_lookup_middle).
    rewrite Heq, Nat2N.id, insert_app_r_alt, Nat.sub_diag by lia. by constructor.
Qed.

Lemma return_stack {build : Build} dst vm pre f r v vm' vm'' :
  linked (vm_frames vm) → vm_frames vm = pre ++ [f] →
  get_reg vm (len pre) r = Ok v → step_return vm (len pre) v = Ok (true, vm') → advance vm' (len pre) = Ok vm'' →
  stack_step dst (vm_frames vm) (vm_frames vm'').
Proof.
  intros Hlink Hfs Hr. unfold step_return, get_reg, index in *. rewrite Hfs in *. unfold len in *.
  rewrite !Nat2N.id in *. rewrite !list_lookup_middle in * by done. simpl in *.
  destruct (f_regs f !! N.to_nat r) as [v'|] eqn:Hv; [|done]. injection Hr as ->.
  destruct (f_caller_idx f) as [c|] eqn:Hc; [|by destruct (set_reg _ _ _ _)].
  pose proof (Hlink (length pre) f c (list_lookup_middle _ _ _ _ eq_refl) Hc) as HS.
  destruct pre as [|h pre' _] using rev_ind; [done|].
  rewrite length_app in HS. simpl in HS. assert (N.to_nat c = length pre') as Hc' by lia.
  unfold set_reg, index. rewrite Hfs, Hc', <- app_assoc. simpl. rewrite list_lookup_middle by done. simpl.
  destruct (f_regs h !! _); [|done]. simpl. intros [= <-] Ha.
  apply advance_none in Ha; simpl in *; rewrite Hfs, Hc', <- app_assoc, insert_app_r_alt, Nat.sub_diag in * by lia;
    simpl in *; rewrite length_app in *; simpl in *.
  2: { rewrite lookup_ge_None, length_take, !length_app. simpl. lia. }
  subst vm''. simpl.
  replace (length pre' + 2 - 1)%nat with (length pre' + 1)%nat by lia.
  rewrite take_app_add' by done. simpl.
  constructor; [rewrite Hc; f_equal; unfold len; lia|by eapply list_elem_of_lookup_2].
Qed.

Lemma run_once_stack {build : Build} vm vm' :
  vm_ok vm → linked (vm_frames vm) → run_once vm = Ok (true, vm') →
  ∃ instr, next_instr vm = Some instr ∧ stack_step (i_op3 instr) (vm_frames vm) (vm_frames vm').
Proof.
  intros Hok Hlink. unfold run_once. destruct (_ || _) eqn:Hstop; [done|].
  apply orb_false_iff in Hstop as [_ Hne%bool_decide_eq_false]. cbn zeta. unfold next_instr.
  apply exists_last in Hne as (pre & f & Hfs).
  replace (len (vm_frames vm) - 1) with (len pre) by (rewrite Hfs; autorewrite with nula; lia).
  assert (vm_frames vm !! N.to_nat (len pre) = Some f) as Hf.
  { rewrite Hfs. unfold len. by rewrite Nat2N.id, list_lookup_middle. }
  assert (valid vm (len pre)) as Hv by (apply lookup_lt_is_Some; by eexists).
  rewrite (proj2 (index_Ok _ _ _) Hf). simpl.
  destruct (fetch_ok _ _ _ Hok Hf) as (instr & Hfetch & Hi). rewrite Hfetch. simpl.
  replace (last (vm_frames vm)) with (Some f) by (by rewrite Hfs, last_snoc). rewrite Hfetch.
  intros Hstep. exists instr. split; [done|].
  pose proof (local_instr vm (len pre) instr Hok Hv Hi) as Hloc.
  assert ((let? vm := step_instr vm (len pre) instr in Ok (true, vm)) = CoreVM_step vm (len pre) instr →
          stack_step (i_op3 instr) (vm_frames vm) (vm_frames vm')) as Hrest.
  { intros Heq. rewrite <-Heq in Hstep. destruct (step_instr vm (len pre) instr) as [vm1|]; [|done]. simpl in Hstep.
    destruct (advance vm1 (len pre)) as [vm2|] eqn:Ha; [|done]. simpl in Hstep. injection Hstep as <-.
    destruct Hloc as [Hloc _]. by eapply local_stack. }
  assert (∀ r v, get_reg vm (len pre) r = Ok v → CoreVM_step vm (len pre) instr = step_return vm (len pre) v →
          stack_step (i_op3 instr) (vm_frames vm) (vm_frames vm')) as Hret.
  { intros r v Hg Heq. rewrite Heq in Hstep. destruct (step_return vm (len pre) v) as [[[] vm1]|] eqn:Hret; [|done..].
    simpl in Hstep. destruct (advance vm1 (len pre)) as [vm2|] eqn:Ha; [|done]. simpl in Hstep. injection Hstep as <-.
    by eapply return_stack. }
  revert Hrest Hret Hstep. unfold CoreVM_step. destruct (i_opcode instr); intros Hrest Hret Hstep; try (by apply Hrest).
  - destruct (get_reg vm (len pre) 0) as [v|] eqn:Hg; [|done]. by apply (Hret 0 v).
  - destruct (get_reg vm (len pre) (i_op1 instr)) as [v|] eqn:Hg; [|done]. by apply (Hret (i_op1 instr) v).
Qed.

(** [n] rounds of the loop during which more than [d] frames stay live. *)
Inductive runs_above {build : Build} (d : nat) : nat → CoreVM → CoreVM → Prop :=
  | runs_here vm : (d < length (vm_frames vm))%nat → runs_above d 0 vm vm
  | runs_step n vm vm1 vm2 :
      (d < length (vm_frames vm))%nat → run_once vm = Ok (true, vm1) → runs_above d n vm1 vm2 →
      runs_above d (S n) vm vm2.

Lemma run_once_inv {build : Build} vm vm' :
  vm_ok vm → linked (vm_frames vm) → len (vm_closure_envs vm) < 2 ^ 46 → run_once vm = Ok (true, vm') →
  vm_ok vm' ∧ linked (vm_frames vm') ∧ len (vm_closure_envs vm') ≤ len (vm_closure_envs vm) + 1.
Proof.
  intros Hok Hl Hs Hrun. pose proof (safe_run_once False vm Hok Hs ltac:(done)) as Hsafe. rewrite Hrun in Hsafe.
  destruct (run_once_stack vm vm' Hok Hl Hrun) as (instr & _ & Hstack). simpl in Hsafe.
  split_and!; [tauto|by eapply stack_step_linked|tauto].
Qed.

Lemma runs_above_live {build : Build} d n vm vm' : runs_above d n vm vm' → (d < length (vm_frames vm'))%nat.
Proof. by induction 1. Qed.

Lemma runs_above_below {build : Build} d n vm vm' :
  runs_above d n vm vm' → vm_ok vm → linked (vm_frames vm) →
  len (vm_closure_envs vm) + N.of_nat n ≤ 2 ^ 46 →
  vm_ok vm' ∧ linked (vm_frames vm') ∧
  take d (vm_frames vm') = take d (vm_frames vm) ∧
  frame_link <$> vm_frames vm' !! d = frame_link <$> vm_frames vm !! d.
Proof.
  induction 1 as [vm Hd|n vm vm1 vm2 Hd Hrun Hruns IH]; intros Hok Hl Hs; [done|].
  destruct (run_once_inv vm vm1 Hok Hl ltac:(lia) Hrun) as (Hok1 & Hl1 & Hs1).
  destruct (run_once_stack vm vm1 Hok Hl Hrun) as (instr & _ & Hstack).
  destruct (IH Hok1 Hl1 ltac:(lia)) as (Hok2 & Hl2 & Htake & Hlink).
  assert (d < length (vm_frames vm1))%nat as Hd1 by (by inversion Hruns).
  destruct (stack_step_below _ d _ _ Hstack Hd Hd1) as [Ht1 Hk1].
  split_and!; [done|done|by rewrite Htake|by rewrite Hlink].
Qed.

Lemma stack_grows dst pre f fs' :
  stack_step dst (pre ++ [f]) fs' → (length pre + 1 < length fs')%nat →
  ∃ g, frame_link g = (Some (len pre), dst) ∧
       fs' = pre ++ [set_pc f (wrapping_add64 (f_pc f) 1); g].
Proof.
  intros Hs Hlen. remember (pre ++ [f]) as fs eqn:Hfs.
  destruct Hs as [p f0 f' _|p f0 g Hg|p f0 g v _ _].
  - apply (f_equal length) in Hfs. rewrite !length_app in *. simpl in *. lia.
  - apply app_inj_tail in Hfs as [-> ->]. by exists g.
  - apply (f_equal length) in Hfs. rewrite !length_app in *. simpl in *. lia.
Qed.

Lemma stack_shrinks dst fs fs' :
  stack_step dst fs fs' → (length fs' < length fs)%nat →
  ∃ pre f g v, fs = pre ++ [f; g] ∧
    fs' = pre ++ [set_regs f (<[N.to_nat (f_return_dst g) := v]> (f_regs f))].
Proof.
  intros Hs. destruct Hs as [p f0 f' _|p f0 g Hg|p f0 g v _ _]; rewrite !length_app; simpl; [lia..|].
  intros _. by exists p, f0, g, v.
Qed.

(** [C16] A call touches its caller only through the destination register.
    The running frame [f] executes an instruction that pushes a frame; then
    any number of rounds run in that callee and in what it calls; then the
    callee returns.  The frame stack is back to what it was before the call,
    with [f] advanced by one instruction and the register the call names set
    to a value of the callee. *)
Theorem core_vm_call_isolated {build : Build} vm0 vm1 vm2 vm3 n instr pre f :
  vm_ok vm0 → linked (vm_frames vm0) → len (vm_closure_envs vm0) + N.of_nat n + 1 ≤ 2 ^ 46 →
  vm_frames vm0 = pre ++ [f] → next_instr vm0 = Some instr →
  run_once vm0 = Ok (true, vm1) → length (vm_frames vm1) = S (length (vm_frames vm0)) →
  runs_above (length (vm_frames vm0)) n vm1 vm2 →
  run_once vm2 = Ok (true, vm3) → length (vm_frames vm3) = length (vm_frames vm0) →
  ∃ v, vm_frames vm3 = pre ++ [set_regs (set_pc f (wrapping_add64 (f_pc f) 1))
                                 (<[N.to_nat (i_op3 instr) := v]> (f_regs f))].
Proof.
  intros Hok Hl Hs Hfs Hnext Hrun Hgrow Hruns Hret Hback.
  destruct (run_once_inv vm0 vm1 Hok Hl ltac:(lia) Hrun) as (Hok1 & Hl1 & Hs1).
  destruct (run_once_stack vm0 vm1 Hok Hl Hrun) as (i0 & Hi0 & Hcall).
  assert (i0 = instr) as -> by congruence. clear Hi0 Hnext.
  destruct (runs_above_below _ _ _ _ Hruns Hok1 Hl1 ltac:(lia)) as (Hok2 & Hl2 & Htake & Hlink).
  destruct (run_once_stack vm2 vm3 Hok2 Hl2 Hret) as (i2 & _ & Hstep).
  apply runs_above_live in Hruns. rewrite Hfs in *.
  assert (length (pre ++ [f]) = length pre + 1)%nat as Hlen by (by rewrite length_app).
  destruct (stack_grows _ _ _ _ Hcall ltac:(lia)) as (g & Hg & Heq1).
  destruct (stack_shrinks _ _ _ Hstep ltac:(lia)) as (q & f2 & g2 & v & Heq2 & Heq3). exists v.
  rewrite Heq1, Heq2 in *. rewrite Heq3 in *. rewrite !length_app in *. simpl in *.
  assert (length q = length pre) as Hq by lia.
  rewrite <- Hq in Htake at 1. rewrite <- Hq in Hlink at 1. rewrite !take_app_add' in Htake by done.
  rewrite !lookup_app_r in Hlink by lia. rewrite !Nat.add_sub_swap, !Nat.sub_diag in Hlink by lia.
  simpl in Htake, Hlink. apply app_inj_tail in Htake as [-> ->].
  injection Hlink as _ Hdst. injection Hg as _ Hg. by rewrite Hdst, Hg.
Qed.

(** The sample program: the closure call at round 4, its return at round 8. *)
Fixpoint rounds {build : Build} (n : nat) (vm : CoreVM) : option CoreVM :=
  match n with
  | O => Some vm
  | S n => match run_once vm with Ok (true, vm) => rounds n vm | _ => None end
  end.

Definition sample_at (n : nat) : CoreVM := default sample_vm (rounds (build := dev_build) n (run_start sample_vm 0 0)).

Lemma rounds_inv {build : Build} n vm vm' :
  rounds n vm = Some vm' → vm_ok vm → linked (vm_frames vm) →
  len (vm_closure_envs vm) + N.of_nat n ≤ 2 ^ 46 → vm_ok vm' ∧ linked (vm_frames vm').
Proof.
  revert vm. induction n as [|n IH]; simpl; intros vm Hr Hok Hl Hs; [by injection Hr as <-|].
  destruct (run_once vm) as [[[] vm1]|] eqn:Hrun; [|done..].
  destruct (run_once_inv vm vm1 Hok Hl ltac:(lia) Hrun) as (? & ? & ?). apply (IH vm1); try done. lia.
Qed.

Lemma sample_start_inv :
  vm_ok (run_start sample_vm 0 0) ∧ linked (vm_frames (run_start sample_vm 0 0)).
Proof.
  split; [exact (run_start_ok sample_vm 0 0 sample_vm_ok eq_refl)|].
  apply (linked_app []). split; [by intros i f c Hi|]. intros [|i] f c Hi; [|done].
  assert (f = set_pc (Frame_new None 0) 0) as -> by (symmetry; by apply (inj Some)). done.
Qed.

Lemma core_vm_call_isolated_witness :
  ∃ f v, vm_frames (sample_at 4) = [f] ∧
    vm_frames (sample_at 8) = [set_regs (set_pc f 5) (<[6%nat := v]> (f_regs f))].
Proof.
  destruct (rounds_inv (build := dev_build) 4 (run_start sample_vm 0 0) (sample_at 4)) as [Hok Hl];
    [by vm_compute|apply sample_start_inv..|done|].
  assert (∃ f, vm_frames (sample_at 4) = [f]) as [f Hf] by (vm_compute; by eexists).
  assert (length (vm_frames (sample_at 4)) = 1%nat) as Hlen by (by vm_compute).
  destruct (core_vm_call_isolated (build := dev_build) (sample_at 4) (sample_at 5) (sample_at 7) (sample_at 8) 2
    (Instruction_new3 Op_ClosureCall 5 0 6) [] f Hok Hl) as [v Hv]; [by vm_compute|exact Hf|..].
  1-6: rewrite ?Hlen; try by vm_compute.
  - eapply runs_step with (vm1 := sample_at 6); [apply Nat.ltb_lt; by vm_compute|by vm_compute|].
    eapply runs_step with (vm1 := sample_at 7); [apply Nat.ltb_lt; by vm_compute|by vm_compute|].
    apply runs_here. apply Nat.ltb_lt; by vm_compute.
  - exists f, v. split; [exact Hf|]. rewrite Hv.
    assert (f_pc f = 4) as ->; [|done].
    assert (f_pc <$> head (vm_frames (sample_at 4)) = Some 4) as Hpc by (by vm_compute).
    rewrite Hf in Hpc. by injection Hpc.
Defined.
