(* ===== verification/CacheArena.v ===== *)
(** * The cache's byte arena

    [ByteArena] and [PackedBytes] of [src/runtime/cache.rs]: size-class blocks
    carved out of one growing vector, a free list per class, and byte strings
    stored inline up to 22 bytes.  A panic (a failed assertion, an index or a
    range out of bounds) is [None].  The lemmas show that blocks in use never
    overlap, so writing one string leaves the others alone. *)
From S2P Require Import Prelude Bytes.

Local Open Scope N_scope.

(** ** Standard library *)

(** [usize::next_power_of_two] and [usize::trailing_zeros]. *)
Definition next_power_of_two (n : N) : N := 2 ^ N.log2_up n.

Fixpoint pos_trailing_zeros (p : positive) : N :=
  match p with xO p => N.succ (pos_trailing_zeros p) | _ => 0 end.
Definition trailing_zeros (n : N) : N :=
  match n with 0 => 64 | Npos p => pos_trailing_zeros p end.

(** [Vec::pop] *)
Definition vec_pop {A} (l : list A) : option (A * list A) :=
  x ← last l; Some (x, take (length l - 1) l).

(** [&bs[start..stop]] and [bs[start..start + src.len()].copy_from_slice(src)] *)
Definition range (bs : bytes) (start stop : N) : option bytes :=
  if (start <=? stop) && (stop <=? len bs) then Some (slice bs start stop) else None.

Definition copy_from_slice (bs : bytes) (start : N) (src : bytes) : option bytes :=
  if start + len src <=? len bs
  then Some (take (N.to_nat start) bs ++ src ++ drop (N.to_nat (start + len src)) bs)
  else None.

(** ** The arena *)

Definition INLINE_BYTES : N := 22.
Definition MIN_ARENA_EXP : N := 5.
Definition MAX_ARENA_EXP : N := 30.
Definition FREE_LIST_COUNT : N := MAX_ARENA_EXP - MIN_ARENA_EXP + 1.

Record ArenaSlice := mkArenaSlice { as_offset : N; as_len : N; as_class : N }.
Record ByteArena := mkByteArena { ba_bytes : bytes; ba_free : list (list N) }.

Definition ByteArena_new : ByteArena := mkByteArena [] (replicate (N.to_nat FREE_LIST_COUNT) []).

Definition ByteArena_class_for (l : N) : option (N * N) :=
  let capacity := next_power_of_two (N.max l (2 ^ MIN_ARENA_EXP)) in
  if capacity <=? 2 ^ MAX_ARENA_EXP
  then Some (trailing_zeros capacity - MIN_ARENA_EXP, capacity) else None.

(** Where the block of a class comes from: its free list, or the end of the
    vector. *)
Definition ByteArena_take_block (self : ByteArena) (class capacity : N) : option (N * ByteArena) :=
  stack ← ba_free self !! N.to_nat class;
  match vec_pop stack with
  | Some (offset, stack) =>
      Some (offset, mkByteArena (ba_bytes self) (<[N.to_nat class := stack]> (ba_free self)))
  | None =>
      let offset := len (ba_bytes self) in
      stop ← checked_add64 offset capacity;
      if stop <=? U32 - 1
      then Some (as_u32 offset,
                 mkByteArena (ba_bytes self ++ replicate (N.to_nat capacity) 0) (ba_free self))
      else None
  end.

Definition ByteArena_alloc (self : ByteArena) (src : bytes) : option (ArenaSlice * ByteArena) :=
  '(class, capacity) ← ByteArena_class_for (len src);
  '(offset, self) ← ByteArena_take_block self class capacity;
  bs ← copy_from_slice (ba_bytes self) offset src;
  Some (mkArenaSlice offset (as_u32 (len src)) (class mod U8), mkByteArena bs (ba_free self)).

Definition ByteArena_release (self : ByteArena) (s : ArenaSlice) : option ByteArena :=
  stack ← ba_free self !! N.to_nat (as_class s);
  Some (mkByteArena (ba_bytes self)
          (<[N.to_nat (as_class s) := stack ++ [as_offset s]]> (ba_free self))).

Definition ByteArena_get (self : ByteArena) (s : ArenaSlice) : option bytes :=
  range (ba_bytes self) (as_offset s) (as_offset s + as_len s).

Definition ByteArena_reserved_bytes (self : ByteArena) : N := len (ba_bytes self).

(** ** Packed bytes *)

Inductive PackedBytes :=
  | Inline (n : N) (data : bytes)
  | Arena (s : ArenaSlice).

Definition PackedBytes_pack (src : bytes) (arena : ByteArena) : option (PackedBytes * ByteArena) :=
  if len src <=? INLINE_BYTES then
    data ← copy_from_slice (replicate (N.to_nat INLINE_BYTES) 0) 0 src;
    Some (Inline (len src mod U8) data, arena)
  else
    '(s, arena) ← ByteArena_alloc arena src;
    Some (Arena s, arena).

Definition PackedBytes_as_slice (self : PackedBytes) (arena : ByteArena) : option bytes :=
  match self with
  | Inline n data => range data 0 n
  | Arena s => ByteArena_get arena s
  end.

Definition PackedBytes_release (self : PackedBytes) (arena : ByteArena) : option ByteArena :=
  match self with
  | Inline _ _ => Some arena
  | Arena s => ByteArena_release arena s
  end.

(** ** Blocks *)

(** A block is an offset and a size class. *)
Definition block_size (c : N) : N := 2 ^ (c + MIN_ARENA_EXP).
Definition block_of (s : ArenaSlice) : N * N := (as_offset s, as_class s).
Definition slice_ok (s : ArenaSlice) : Prop := as_len s ≤ block_size (as_class s).

(** What a string costs in the arena. *)
Definition arena_cost (l : N) : N := next_power_of_two (N.max l (2 ^ MIN_ARENA_EXP)).

Definition disjoint_blocks (b1 b2 : N * N) : Prop :=
  b1.1 + block_size b1.2 ≤ b2.1 ∨ b2.1 + block_size b2.2 ≤ b1.1.

Record blocks_ok (size : N) (bs : list (N * N)) : Prop := {
  blocks_nodup : NoDup bs;
  blocks_inside : ∀ b, b ∈ bs → b.1 + block_size b.2 ≤ size;
  blocks_disjoint : ∀ b1 b2, b1 ∈ bs → b2 ∈ bs → b1 ≠ b2 → disjoint_blocks b1 b2;
}.

Definition free_blocks (free : list (list N)) : list (N * N) :=
  mjoin (imap (λ c offs, (λ o, (o, N.of_nat c)) <$> offs) free).

(** The arena when [held] are the blocks in use. *)
Record arena_ok (ar : ByteArena) (held : list (N * N)) : Prop := {
  arena_classes : length (ba_free ar) = N.to_nat FREE_LIST_COUNT;
  arena_small : len (ba_bytes ar) < U32;
  arena_blocks : blocks_ok (len (ba_bytes ar)) (free_blocks (ba_free ar) ++ held);
}.

Lemma vec_pop_Some {A} (l : list A) x l' : vec_pop l = Some (x, l') ↔ l = l' ++ [x].
Proof.
  unfold vec_pop. split.
  - destruct (last l) as [y|] eqn:Hl; [|done]. intros [= -> <-].
    apply last_Some in Hl as [l2 ->]. rewrite length_app. simpl.
    by rewrite Nat.add_sub, take_app_length.
  - intros ->. rewrite last_snoc, length_app. simpl. by rewrite Nat.add_sub, take_app_length.
Qed.

Lemma vec_pop_None {A} (l : list A) : vec_pop l = None ↔ l = [].
Proof.
  unfold vec_pop. rewrite <- last_None. destruct (last l); simpl; naive_solver.
Qed.

Lemma pos_trailing_zeros_pow2 n : trailing_zeros (2 ^ n) = n.
Proof.
  induction n as [|n IH] using N.peano_ind; [done|].
  rewrite N.pow_succ_r'. destruct (2 ^ n) as [|p] eqn:Hp; [by apply N.pow_nonzero in Hp|].
  change (N.succ (trailing_zeros (N.pos p)) = N.succ n). by rewrite IH.
Qed.

#[global] Instance blocks_ok_perm size : Proper ((≡ₚ) ==> iff) (blocks_ok size).
Proof.
  assert (∀ l l', l ≡ₚ l' → blocks_ok size l → blocks_ok size l') as H.
  { intros l l' Hp [Hn Hi Hd]. split.
    - by rewrite <- Hp.
    - intros b. rewrite <- Hp. apply Hi.
    - intros b1 b2. rewrite <- Hp. apply Hd. }
  intros l l' Hp. split; by apply H.
Qed.

#[global] Instance arena_ok_perm ar : Proper ((≡ₚ) ==> iff) (arena_ok ar).
Proof.
  intros l l' Hp. split; intros [H1 H2 H3]; split; try done; [by rewrite <- Hp|by rewrite Hp].
Qed.

(** The free blocks, apart from those of one class. *)
Lemma free_blocks_split free c stack :
  free !! c = Some stack →
  ∃ rest, free_blocks free ≡ₚ ((λ o, (o, N.of_nat c)) <$> stack) ++ rest ∧
    ∀ stack', free_blocks (<[c := stack']> free) ≡ₚ ((λ o, (o, N.of_nat c)) <$> stack') ++ rest.
Proof.
  intros Hc. pose proof (lookup_lt_Some _ _ _ Hc) as Hlt.
  exists (mjoin (imap (λ c offs, (λ o, (o, N.of_nat c)) <$> offs) (take c free)) ++
          mjoin (imap ((λ c offs, (λ o, (o, N.of_nat c)) <$> offs) ∘ (Nat.add (S c))) (drop (S c) free))).
  assert (∀ st l, l = take c free ++ st :: drop (S c) free →
    free_blocks l ≡ₚ ((λ o, (o, N.of_nat c)) <$> st) ++
      mjoin (imap (λ c offs, (λ o, (o, N.of_nat c)) <$> offs) (take c free)) ++
      mjoin (imap ((λ c offs, (λ o, (o, N.of_nat c)) <$> offs) ∘ (Nat.add (S c))) (drop (S c) free)))
    as H.
  { intros st l ->. unfold free_blocks. rewrite imap_app, join_app, imap_cons. simpl.
    rewrite length_take_le by lia. rewrite Nat.add_0_r.
    rewrite (assoc_L (++)), (Permutation_app_comm (mjoin _)), <- (assoc_L (++)).
    apply Permutation_app_head, Permutation_app_head. f_equiv. apply reflexive_eq.
    apply imap_ext. intros i x _. simpl. by rewrite Nat.add_succ_r. }
  split; [apply H; by rewrite take_drop_middle|].
  intros st. apply H. by apply insert_take_drop.
Qed.

(** ** Reading and writing ranges *)

Lemma copy_Some bs start src bs' :
  copy_from_slice bs start src = Some bs' ↔
  start + len src ≤ len bs ∧
  bs' = take (N.to_nat start) bs ++ src ++ drop (N.to_nat (start + len src)) bs.
Proof. unfold copy_from_slice. case_if; split; [by intros [= <-]|by intros [_ ->]|done|lia]. Qed.

Lemma copy_total bs start src :
  start + len src ≤ len bs → ∃ bs', copy_from_slice bs start src = Some bs'.
Proof. intros Hle. eexists. apply copy_Some. eauto. Qed.

Lemma range_Some bs a b v :
  range bs a b = Some v ↔ a ≤ b ∧ b ≤ len bs ∧ v = slice bs a b.
Proof.
  unfold range. destruct (N.leb_spec a b), (N.leb_spec b (len bs)); simpl;
    (split; [try done|]); try lia; [by intros [= <-]|by intros (_ & _ & ->)].
Qed.

Lemma length_copy bs start src bs' :
  copy_from_slice bs start src = Some bs' → len bs' = len bs.
Proof.
  intros [Hle ->]%copy_Some. unfold len in *. rewrite !length_app, length_take, length_drop. lia.
Qed.

Lemma range_copy_same bs start src bs' :
  copy_from_slice bs start src = Some bs' → range bs' start (start + len src) = Some src.
Proof.
  intros Hc. rewrite range_Some, (length_copy _ _ _ _ Hc). apply copy_Some in Hc as [Hle ->].
  split_and!; [lia|done|]. unfold slice. replace (start + len src - start) with (len src) by lia.
  rewrite drop_app_length'. 2: { rewrite length_take. unfold len in *. lia. }
  rewrite take_app_length'; [done|]. unfold len. lia.
Qed.

(** Ranges outside the written one keep their bytes. *)
Lemma slice_copy_other bs start src bs' a b :
  copy_from_slice bs start src = Some bs' →
  b ≤ start ∨ start + len src ≤ a → slice bs' a b = slice bs a b.
Proof.
  intros [Hle ->]%copy_Some Hor. unfold slice, len in *. apply list_eq. intros i.
  destruct (decide (i < N.to_nat (b - a))%nat) as [Hi|Hi].
  2: by rewrite !lookup_take_ge by lia.
  rewrite !lookup_take_lt, !lookup_drop by lia. destruct Hor as [Hb|Ha].
  - rewrite lookup_app_l by (rewrite length_take; lia). by rewrite lookup_take_lt by lia.
  - rewrite lookup_app_r by (rewrite length_take; lia).
    rewrite lookup_app_r by (rewrite length_take; lia). rewrite lookup_drop. f_equal.
    rewrite length_take. lia.
Qed.

Lemma range_copy_other bs start src bs' a b :
  copy_from_slice bs start src = Some bs' →
  b ≤ start ∨ start + len src ≤ a → range bs' a b = range bs a b.
Proof.
  intros Hc Hor. unfold range. rewrite (length_copy _ _ _ _ Hc).
  by rewrite (slice_copy_other _ _ _ _ _ _ Hc Hor).
Qed.

Lemma range_app bs more a b v : range bs a b = Some v → range (bs ++ more) a b = Some v.
Proof.
  intros (H1 & H2 & ->)%range_Some. apply range_Some. rewrite len_app. split_and!; [done|lia|].
  unfold slice. rewrite drop_app_le by (unfold len in *; lia). rewrite take_app_le; [done|].
  rewrite length_drop. unfold len in *. lia.
Qed.

(** ** Allocation *)

Lemma arena_cost_ge l : l ≤ arena_cost l ∧ 32 ≤ arena_cost l.
Proof.
  unfold arena_cost, next_power_of_two, MIN_ARENA_EXP. change (2 ^ 5) with 32.
  pose proof (N.log2_log2_up_spec (N.max l 32) ltac:(lia)). lia.
Qed.

Lemma arena_cost_le_max l : l ≤ 2 ^ MAX_ARENA_EXP → arena_cost l ≤ 2 ^ MAX_ARENA_EXP.
Proof.
  intros Hl. unfold arena_cost, next_power_of_two. apply N.pow_le_mono_r; [done|].
  apply N.log2_up_le_pow2; [change (2 ^ MIN_ARENA_EXP) with 32; lia|].
  change (2 ^ MIN_ARENA_EXP) with 32. change (2 ^ MAX_ARENA_EXP) with 1073741824 in *. lia.
Qed.

(** The class of a length: its block has room, and costs [arena_cost]. *)
Lemma class_for_ok l :
  l ≤ 2 ^ MAX_ARENA_EXP →
  ∃ c, ByteArena_class_for l = Some (c, arena_cost l) ∧ c < FREE_LIST_COUNT ∧
       block_size c = arena_cost l ∧ l ≤ block_size c.
Proof.
  intros Hl. pose proof (arena_cost_le_max l Hl) as Hmax. pose proof (arena_cost_ge l) as [Hge H32].
  unfold ByteArena_class_for. fold (arena_cost l). rewrite (proj2 (N.leb_le _ _) Hmax).
  exists (trailing_zeros (arena_cost l) - MIN_ARENA_EXP). split; [done|].
  unfold arena_cost, next_power_of_two in *. set (k := N.log2_up _) in *.
  rewrite pos_trailing_zeros_pow2. unfold block_size.
  assert (5 ≤ k) as Hk by (apply (N.pow_le_mono_r_iff 2); [done|exact H32]).
  assert (k ≤ 30) as Hk' by (apply (N.pow_le_mono_r_iff 2); [done|exact Hmax]).
  change FREE_LIST_COUNT with 26. unfold MIN_ARENA_EXP. replace (k - 5 + 5) with k by lia.
  split_and!; try done. lia.
Qed.

Lemma blocks_ok_weaken size size' bs : size ≤ size' → blocks_ok size bs → blocks_ok size' bs.
Proof.
  intros Hle [Hn Hi Hd]. split; [done| |done]. intros b Hb. etransitivity; [by apply Hi|done].
Qed.

(** A block past the end of the used part is disjoint from all of it. *)
Lemma blocks_ok_push size bs c :
  blocks_ok size bs → blocks_ok (size + block_size c) ((size, c) :: bs).
Proof.
  intros [Hn Hi Hd].
  assert (∀ b, b ∈ bs → b.1 + block_size b.2 ≤ size ∧ b ≠ (size, c)) as Hb.
  { intros b Hin. split; [by apply Hi|]. intros ->. specialize (Hi _ Hin). simpl in Hi.
    unfold block_size in Hi. pose proof (N.pow_nonzero 2 (c + MIN_ARENA_EXP) ltac:(done)). lia. }
  split.
  - apply NoDup_cons. split; [|done]. intros Hin. by destruct (Hb _ Hin).
  - intros b [-> | Hin]%elem_of_cons; [done|]. destruct (Hb b Hin). lia.
  - intros b1 b2 [-> | H1]%elem_of_cons [-> | H2]%elem_of_cons Hne; [done| | |by apply Hd].
    + right. by apply Hb.
    + left. by apply Hb.
Qed.

Lemma take_block_ok ar held c cap :
  arena_ok ar held → c < FREE_LIST_COUNT → cap = block_size c →
  len (ba_bytes ar) + cap < U32 →
  ∃ off ar', ByteArena_take_block ar c cap = Some (off, ar') ∧ arena_ok ar' ((off, c) :: held) ∧
    off + cap ≤ len (ba_bytes ar') ∧ len (ba_bytes ar') ≤ len (ba_bytes ar) + cap ∧
    (∀ a b v, range (ba_bytes ar) a b = Some v → range (ba_bytes ar') a b = Some v).
Proof.
  intros [Hcl Hsm Hbl] Hc -> Hroom. unfold ByteArena_take_block.
  destruct (lookup_lt_is_Some_2 (ba_free ar) (N.to_nat c)) as [stack Hst]; [lia|].
  rewrite Hst. simpl. destruct (free_blocks_split _ _ _ Hst) as (rest & Hold & Hnew).
  rewrite N2Nat.id in *.
  destruct (vec_pop stack) as [[off st']|] eqn:Hpop.
  - apply vec_pop_Some in Hpop as ->. eexists _, _. split; [done|]. simpl.
    rewrite fmap_app in Hold. simpl in Hold.
    assert (free_blocks (<[N.to_nat c := st']> (ba_free ar)) ++ (off, c) :: held ≡ₚ
            free_blocks (ba_free ar) ++ held) as Hp.
    { rewrite Hold, Hnew, <- !(assoc_L (++)). simpl. apply Permutation_app_head.
      by rewrite <- Permutation_middle. }
    split_and!; [split; simpl; [by rewrite length_insert|done|by rewrite Hp]| |lia|done].
    apply (blocks_inside _ _ Hbl (off, c)). rewrite <- Hp. rewrite elem_of_app. right. by left.
  - apply vec_pop_None in Hpop as ->. unfold checked_add64.
    rewrite (proj2 (N.ltb_lt _ _)) by word_lia. simpl.
    rewrite (proj2 (N.leb_le _ _)) by word_lia. eexists _, _. split; [done|]. simpl.
    rewrite as_u32_small by done.
    assert (len (ba_bytes ar ++ replicate (N.to_nat (block_size c)) 0) =
            len (ba_bytes ar) + block_size c) as Hlen.
    { rewrite len_app. unfold len at 2. rewrite length_replicate. lia. }
    split_and!; [split; simpl; [done|by rewrite Hlen|]|by rewrite Hlen|by rewrite Hlen|].
    + rewrite Hlen, <- Permutation_middle. by apply blocks_ok_push.
    + intros a b v. apply range_app.
Qed.

(** ** Packed strings *)

Definition packed_blocks (pk : PackedBytes) : list (N * N) :=
  match pk with Inline _ _ => [] | Arena s => [block_of s] end.

Definition packed_ok (pk : PackedBytes) : Prop :=
  match pk with Inline _ _ => True | Arena s => slice_ok s ∧ as_class s < FREE_LIST_COUNT end.

(** The strings in the blocks [held] read the same in both arenas. *)
Definition preserves (held : list (N * N)) (ar ar' : ByteArena) : Prop :=
  ∀ pk v, packed_ok pk → packed_blocks pk ⊆ held →
    PackedBytes_as_slice pk ar = Some v → PackedBytes_as_slice pk ar' = Some v.

Lemma preserves_refl held ar ar' : ba_bytes ar' = ba_bytes ar → preserves held ar ar'.
Proof.
  intros Heq pk v _ _. destruct pk as [|s]; simpl; [done|]. unfold ByteArena_get. by rewrite Heq.
Qed.

Lemma preserves_trans held ar1 ar2 ar3 :
  preserves held ar1 ar2 → preserves held ar2 ar3 → preserves held ar1 ar3.
Proof. intros H1 H2 pk v Hok Hin Hv. apply H2; [done..|]. by apply H1. Qed.

Lemma preserves_mono held held' ar ar' : held' ⊆ held → preserves held ar ar' → preserves held' ar ar'.
Proof. intros Hsub H pk v Hok Hin. apply H; [done|]. by etransitivity. Qed.

Lemma ByteArena_alloc_ok ar held src :
  arena_ok ar held → len src ≤ 2 ^ MAX_ARENA_EXP → len (ba_bytes ar) + arena_cost (len src) < U32 →
  ∃ s ar', ByteArena_alloc ar src = Some (s, ar') ∧ arena_ok ar' (block_of s :: held) ∧
    packed_ok (Arena s) ∧ ByteArena_get ar' s = Some src ∧ preserves held ar ar' ∧
    len (ba_bytes ar') ≤ len (ba_bytes ar) + arena_cost (len src).
Proof.
  intros Hok Hlen Hroom. destruct (class_for_ok _ Hlen) as (c & Hclass & Hc & Hsize & Hfit).
  unfold ByteArena_alloc. rewrite Hclass. simpl.
  destruct (take_block_ok ar held c _ Hok Hc (eq_sym Hsize) Hroom)
    as (off & ar1 & -> & Hok1 & Hin & Hgrow & Hkeep). simpl.
  rewrite Hsize in Hfit.
  destruct (copy_total (ba_bytes ar1) off src) as [bs Hcopy]; [lia|]. rewrite Hcopy.
  pose proof (length_copy _ _ _ _ Hcopy) as Hlen'. simpl. eexists _, _. split; [done|].
  rewrite as_u32_small by (eapply N.le_lt_trans; [exact Hlen|done]).
  rewrite N.mod_small by (eapply N.lt_trans; [exact Hc|done]).
  destruct Hok1 as [Hcl Hsm Hbl]. split_and!.
  - split; simpl; [done|by rewrite Hlen'|by rewrite Hlen'].
  - unfold slice_ok. simpl. by rewrite Hsize.
  - done.
  - unfold ByteArena_get. simpl. by eapply range_copy_same.
  - intros [|s] v Hpk Hsub; simpl; [done|]. unfold ByteArena_get. intros Hv. simpl.
    rewrite (range_copy_other _ _ _ _ _ _ Hcopy); [by apply Hkeep|].
    destruct Hpk as [Hs _]. unfold slice_ok in Hs.
    assert (block_of s ∈ held) as Hheld by (apply Hsub; by left).
    destruct (blocks_disjoint _ _ Hbl (off, c) (block_of s)) as [Hd|Hd]; simpl in *.
    + rewrite elem_of_app. right. by left.
    + rewrite elem_of_app. right. by right.
    + intros Heq. pose proof (blocks_nodup _ _ Hbl) as Hn. apply NoDup_app in Hn as (_ & _ & Hnd).
      apply NoDup_cons in Hnd as [Hnd _]. apply Hnd. by rewrite Heq.
    + right. lia.
    + left. lia.
  - simpl. by rewrite Hlen'.
Qed.

Lemma pack_ok src ar held :
  arena_ok ar held → len src ≤ 2 ^ MAX_ARENA_EXP → len (ba_bytes ar) + arena_cost (len src) < U32 →
  ∃ pk ar', PackedBytes_pack src ar = Some (pk, ar') ∧ arena_ok ar' (packed_blocks pk ++ held) ∧
    packed_ok pk ∧ PackedBytes_as_slice pk ar' = Some src ∧ preserves held ar ar' ∧
    len (ba_bytes ar') ≤ len (ba_bytes ar) + arena_cost (len src).
Proof.
  intros Hok Hlen Hroom. unfold PackedBytes_pack. case_if.
  - destruct (copy_total (replicate (N.to_nat INLINE_BYTES) 0) 0 src) as [data Hcopy].
    { change (len (replicate (N.to_nat INLINE_BYTES) 0)) with INLINE_BYTES. lia. }
    rewrite Hcopy. simpl. eexists _, _. split; [done|]. split_and!; [done|done| |by apply preserves_refl|lia].
    simpl. rewrite N.mod_small by (unfold INLINE_BYTES in *; word_lia).
    exact (range_copy_same _ _ _ _ Hcopy).
  - destruct (ByteArena_alloc_ok ar held src Hok Hlen Hroom) as (s & ar' & -> & ? & ? & ? & ? & ?).
    simpl. by exists (Arena s), ar'.
Qed.

Lemma PackedBytes_release_ok pk ar held :
  arena_ok ar (packed_blocks pk ++ held) → packed_ok pk →
  ∃ ar', PackedBytes_release pk ar = Some ar' ∧ arena_ok ar' held ∧ ba_bytes ar' = ba_bytes ar.
Proof.
  destruct pk as [n data|s]; simpl; [by exists ar|]. intros [Hcl Hsm Hbl] [_ Hc].
  unfold ByteArena_release.
  destruct (lookup_lt_is_Some_2 (ba_free ar) (N.to_nat (as_class s))) as [stack Hst]; [lia|].
  rewrite Hst. simpl. eexists. split; [done|]. split; [|done].
  destruct (free_blocks_split _ _ _ Hst) as (rest & Hold & Hnew). rewrite N2Nat.id in *.
  split; simpl; [by rewrite length_insert|done|].
  eapply blocks_ok_perm; [|exact Hbl]. rewrite Hnew, Hold, fmap_app, <- !(assoc_L (++)).
  apply Permutation_app_head. simpl. by rewrite Permutation_middle.
Qed.
