(* ===== verification/CacheIndex.v ===== *)
(** * The cache's open-addressed index

    The bucket array of [CacheStore] in [src/runtime/cache.rs] and the three
    probing loops over it: lookup, insertion, removal.  Buckets are empty,
    tombstones, or name a slot with the hash of its key.  [None] is a panic or,
    for the insertion loop, a probe that never meets an empty bucket. *)
From stdpp Require Import functions.
From S2P Require Import Prelude Bytes CacheArena.

Local Open Scope N_scope.

Definition EMPTY_SLOT : N := U32 - 1.
Definition TOMBSTONE_SLOT : N := U32 - 2.
Definition DEFAULT_INDEX_CAPACITY : N := 64.

Record Bucket := mkBucket { b_hash : N; b_slot : N }.

Definition Bucket_EMPTY : Bucket := mkBucket 0 EMPTY_SLOT.
Definition Bucket_TOMBSTONE : Bucket := mkBucket 0 TOMBSTONE_SLOT.

Definition Bucket_is_live (self : Bucket) : bool :=
  negb (b_slot self =? EMPTY_SLOT) && negb (b_slot self =? TOMBSTONE_SLOT).

#[global] Instance Bucket_eq_dec : EqDecision Bucket.
Proof. solve_decision. Defined.

(** [hash as usize & mask] and [(idx + 1) & mask] *)
Definition home (index : list Bucket) (hash : N) : N := N.land hash (len index - 1).
Definition next (index : list Bucket) (idx : N) : N := N.land (idx + 1) (len index - 1).

(** The loop of [find_slot]; [is_key] compares the key stored in a slot. *)
Fixpoint probe_find (fuel : nat) (index : list Bucket) (idx hash : N) (is_key : N → option bool)
    : option (option N) :=
  match fuel with
  | O => Some None
  | S fuel =>
      bucket ← index !! N.to_nat idx;
      if b_slot bucket =? EMPTY_SLOT then Some None else
      hit ← (if Bucket_is_live bucket && (b_hash bucket =? hash)
             then is_key (b_slot bucket) else Some false);
      if (hit : bool) then Some (Some (b_slot bucket))
      else probe_find fuel index (next index idx) hash is_key
  end.

(** The loop of [insert_bucket_raw]: where the bucket goes. *)
Fixpoint probe_insert (fuel : nat) (index : list Bucket) (idx : N) (first_tombstone : option N)
    : option N :=
  match fuel with
  | O => None
  | S fuel =>
      bucket ← index !! N.to_nat idx;
      if (b_slot bucket =? TOMBSTONE_SLOT) && bool_decide (first_tombstone = None)
      then probe_insert fuel index (next index idx) (Some idx)
      else if b_slot bucket =? EMPTY_SLOT then Some (default idx first_tombstone)
      else probe_insert fuel index (next index idx) first_tombstone
  end.

(** The loop of [remove_bucket]: which bucket to bury. *)
Fixpoint probe_remove (fuel : nat) (index : list Bucket) (idx hash slot : N) : option (option N) :=
  match fuel with
  | O => Some None
  | S fuel =>
      bucket ← index !! N.to_nat idx;
      if b_slot bucket =? EMPTY_SLOT then Some None else
      if (b_slot bucket =? slot) && (b_hash bucket =? hash) then Some (Some idx)
      else probe_remove fuel index (next index idx) hash slot
  end.

(** [x -= 1] on a counter, with the underflow as a panic. *)
Definition checked_pred (n : N) : option N := if n =? 0 then None else Some (n - 1).

(** [insert_bucket_raw] and [rehash] on the array and its tombstone count. *)
Definition insert_bucket (index : list Bucket) (tombstones hash slot : N) : option (list Bucket * N) :=
  target ← probe_insert (length index) index (home index hash) None;
  old ← index !! N.to_nat target;
  tombstones ← (if b_slot old =? TOMBSTONE_SLOT then checked_pred tombstones else Some tombstones);
  Some (<[N.to_nat target := mkBucket hash slot]> index, tombstones).

Definition rehash_buckets (index : list Bucket) (new_capacity : N) : option (list Bucket * N) :=
  let capacity := next_power_of_two (N.max new_capacity DEFAULT_INDEX_CAPACITY) in
  foldl (λ acc bucket, '(ix, tombs) ← acc; insert_bucket ix tombs (b_hash bucket) (b_slot bucket))
    (Some (replicate (N.to_nat capacity) Bucket_EMPTY, 0))
    (filter (λ b, Bucket_is_live b = true) index).

(** ** Probe sequences *)

Definition pos (n h k : N) : nat := N.to_nat ((h + k) mod n).

(** The index has a power of two of buckets, at least 64. *)
Definition size_ok (index : list Bucket) : Prop := ∃ e, 6 ≤ e ∧ len index = 2 ^ e.

Lemma size_ok_ge index : size_ok index → 64 ≤ len index.
Proof. intros (e & He & ->). change 64 with (2 ^ 6). by apply N.pow_le_mono_r. Qed.

Lemma land_mask index x : size_ok index → N.land x (len index - 1) = x mod len index.
Proof.
  intros (e & _ & ->). rewrite <- N.land_ones. f_equal. rewrite N.ones_equiv. lia.
Qed.

Lemma home_pos index h : size_ok index → N.to_nat (home index h) = pos (len index) h 0.
Proof. intros Hs. unfold home, pos. by rewrite land_mask, N.add_0_r. Qed.

Lemma next_pos index h k idx :
  size_ok index → N.to_nat idx = pos (len index) h k →
  N.to_nat (next index idx) = pos (len index) h (k + 1).
Proof.
  intros Hs Hidx. pose proof (size_ok_ge _ Hs). unfold next, pos in *. rewrite land_mask by done.
  apply N2Nat.inj in Hidx as ->. rewrite N.add_assoc, N.Div0.add_mod_idemp_l. done.
Qed.

Lemma pos_lookup index h k : size_ok index → ∃ b, index !! pos (len index) h k = Some b.
Proof.
  intros Hs. pose proof (size_ok_ge _ Hs) as Hge. apply lookup_lt_is_Some_2. unfold pos.
  pose proof (N.mod_lt (h + k) (len index) ltac:(lia)) as Hlt. unfold len in *. lia.
Qed.

(** Every position is met once within one turn. *)
Lemma pos_surj n h i : (i < N.to_nat n)%nat → ∃ k, k < n ∧ pos n h k = i.
Proof.
  intros Hi. exists ((N.of_nat i + (n - h mod n)) mod n). split; [apply N.mod_lt; lia|].
  unfold pos. rewrite N.Div0.add_mod_idemp_r.
  pose proof (N.mod_lt h n ltac:(lia)) as Hlt.
  rewrite <- N.Div0.add_mod_idemp_l.
  replace (h mod n + (N.of_nat i + (n - h mod n))) with (N.of_nat i + 1 * n) by lia.
  rewrite N.Div0.mod_add, N.mod_small by lia. lia.
Qed.

(** No empty bucket among the first [k] of the probe sequence. *)
Definition clear_path (index : list Bucket) (h k : N) : Prop :=
  ∀ j b, j < k → index !! pos (len index) h j = Some b → b_slot b ≠ EMPTY_SLOT.

Definition reaches (index : list Bucket) (h s : N) : Prop :=
  ∃ k, k < len index ∧ index !! pos (len index) h k = Some (mkBucket h s) ∧ clear_path index h k.

(** Between a bucket array and the slots in use, each with its hash. *)
Record index_ok (index : list Bucket) (live : N → option N) : Prop := {
  ix_size : size_ok index;
  ix_slots : ∀ s h, live s = Some h → s < TOMBSTONE_SLOT;
  ix_sound : ∀ i b, index !! i = Some b → Bucket_is_live b = true → live (b_slot b) = Some (b_hash b);
  ix_reach : ∀ s h, live s = Some h → reaches index h s;
  ix_unique : ∀ i j b b', index !! i = Some b → index !! j = Some b' →
    Bucket_is_live b = true → b_slot b = b_slot b' → i = j;
}.

Lemma is_live_slot b : b_slot b < TOMBSTONE_SLOT → Bucket_is_live b = true.
Proof.
  unfold Bucket_is_live, TOMBSTONE_SLOT, EMPTY_SLOT. intros Hlt.
  rewrite !(proj2 (N.eqb_neq _ _)) by lia. done.
Qed.

Lemma is_live_true b :
  Bucket_is_live b = true ↔ b_slot b ≠ EMPTY_SLOT ∧ b_slot b ≠ TOMBSTONE_SLOT.
Proof. unfold Bucket_is_live. by rewrite andb_true_iff, !negb_true_iff, !N.eqb_neq. Qed.

(** ** Lookup *)

(** What the comparison of keys must provide: a decision on every slot in
    use, and at most one slot that answers yes. *)
Definition decides (live : N → option N) (hash : N) (is_key : N → option bool) (target : option N)
    : Prop :=
  ∀ s, live s = Some hash → is_key s = Some (bool_decide (target = Some s)).

Lemma probe_find_spec index live hash is_key target fuel k idx :
  index_ok index live → decides live hash is_key target →
  (∀ s, target = Some s → live s = Some hash) →
  N.to_nat idx = pos (len index) hash k → k + N.of_nat fuel = len index →
  (∀ s, target = Some s → ∀ j, j < k → index !! pos (len index) hash j ≠ Some (mkBucket hash s)) →
  probe_find fuel index idx hash is_key = Some target.
Proof.
  intros Hix Hdec Htgt. revert k idx.
  induction fuel as [|fuel IH]; intros k idx Hidx Hk Hseen; simpl.
  - destruct target as [s|]; [exfalso|done].
    destruct (ix_reach _ _ Hix s hash (Htgt s eq_refl)) as (j & Hj & Hb & _).
    apply (Hseen s eq_refl j); [lia|done].
  - destruct (pos_lookup index hash k (ix_size _ _ Hix)) as [b Hb].
    rewrite Hidx, Hb. simpl. case_if.
    + destruct target as [s|]; [exfalso|done].
      destruct (ix_reach _ _ Hix s hash (Htgt s eq_refl)) as (j & Hj & Hbj & Hpath).
      destruct (N.lt_total j k) as [Hlt|[->|Hgt]].
      * by apply (Hseen s eq_refl j).
      * rewrite Hb in Hbj. injection Hbj as Hbj. rewrite Hbj in Heqb0. simpl in Heqb0.
        pose proof (ix_slots _ _ Hix _ _ (Htgt _ eq_refl)) as Hlt. rewrite Heqb0 in Hlt. done.
      * by apply (Hpath k b).
    + assert (k + 1 + N.of_nat fuel = len index) as Hk' by lia.
      pose proof (next_pos index hash k idx (ix_size _ _ Hix) Hidx) as Hnext.
      destruct (Bucket_is_live b && (b_hash b =? hash)) eqn:Hm.
      * bool_to_prop. subst hash.
        rewrite (Hdec (b_slot b) (ix_sound _ _ Hix _ _ Hb H)). simpl. case_bool_decide as Ht; [by rewrite Ht|].
        apply (IH (k + 1)); try done. intros s Hs j Hj.
        destruct (decide (j = k)) as [->|Hne]; [|apply Hseen; [done|lia]].
        rewrite Hb. intros [= Heq]. apply Ht. by rewrite Heq.
      * simpl. apply (IH (k + 1)); try done. intros s Hs j Hj.
        destruct (decide (j = k)) as [->|Hne]; [|apply Hseen; [done|lia]].
        rewrite Hb. intros [= Heq]. rewrite Heq in Hm. simpl in Hm. rewrite N.eqb_refl, andb_true_r in Hm.
        rewrite is_live_slot in Hm; [done|]. eapply (ix_slots _ _ Hix), Htgt, Hs.
Qed.

(** ** Insertion *)

(** What the loop knows after [k] buckets. *)
Definition insert_seen (index : list Bucket) (h k : N) (first : option N) : Prop :=
  clear_path index h k ∧
  ∀ t, first = Some t → ∃ k0 b, k0 < k ∧ N.to_nat t = pos (len index) h k0 ∧
    index !! N.to_nat t = Some b ∧ b_slot b = TOMBSTONE_SLOT.

Lemma clear_path_S index h k b :
  clear_path index h k → index !! pos (len index) h k = Some b → b_slot b ≠ EMPTY_SLOT →
  clear_path index h (k + 1).
Proof.
  intros Hp Hb Hne j b' Hj Hb'. destruct (decide (j = k)) as [->|]; [by simplify_eq|].
  apply (Hp j b'); [lia|done].
Qed.

Lemma probe_insert_spec index h fuel k idx first e be :
  size_ok index → N.to_nat idx = pos (len index) h k → insert_seen index h k first →
  k ≤ e → e < k + N.of_nat fuel → k + N.of_nat fuel ≤ len index →
  index !! pos (len index) h e = Some be → b_slot be = EMPTY_SLOT →
  ∃ t kt b, probe_insert fuel index idx first = Some t ∧ kt < len index ∧
    N.to_nat t = pos (len index) h kt ∧ clear_path index h kt ∧
    index !! N.to_nat t = Some b ∧ Bucket_is_live b = false.
Proof.
  intros Hs. revert k idx first.
  induction fuel as [|fuel IH]; intros k idx first Hidx [Hpath Hfirst] Hke Hek Hk He Hbe; [lia|].
  simpl. destruct (pos_lookup index h k Hs) as [b Hb]. rewrite Hidx, Hb. simpl.
  pose proof (next_pos index h k idx Hs Hidx) as Hnext.
  assert (b_slot b ≠ EMPTY_SLOT → k + 1 ≤ e) as Hmore.
  { intros Hne. destruct (decide (k = e)) as [->|]; [by simplify_eq|lia]. }
  case_if; [|case_if].
  - assert (b_slot b ≠ EMPTY_SLOT) as Hne by (rewrite H; done).
    apply (IH (k + 1)); try done; [|by apply Hmore|lia|lia]. split; [by eapply clear_path_S|].
    intros t [= <-]. exists k, b. rewrite Hidx. split_and!; [lia|done..].
  - destruct first as [t|]; simpl.
    + destruct (Hfirst t eq_refl) as (k0 & b0 & Hk0 & Ht & Hb0 & Htomb).
      exists t, k0, b0. split_and!; [done|lia|done| |done|].
      * intros j b' Hj. apply Hpath. lia.
      * unfold Bucket_is_live. by rewrite Htomb.
    + exists idx, k, b. split_and!; [done|lia|done|done|by rewrite Hidx|].
      unfold Bucket_is_live. by rewrite Heqb1.
  - apply (IH (k + 1)); try done; [|by apply Hmore|lia|lia]. split; [by eapply clear_path_S|].
    intros t Ht. destruct (Hfirst t Ht) as (k0 & b0 & ? & ?). exists k0, b0. split; [lia|done].
Qed.

(** Putting a bucket where there was none in use keeps the others reachable. *)
Lemma reaches_insert index h s i b b' :
  index !! i = Some b → Bucket_is_live b = false → b_slot b' ≠ EMPTY_SLOT → s < TOMBSTONE_SLOT →
  reaches index h s → reaches (<[i := b']> index) h s.
Proof.
  intros Hi Hdead Hne Hs (k & Hk & Hb & Hpath). unfold reaches, clear_path.
  assert (len (<[i := b']> index) = len index) as -> by (unfold len; by rewrite length_insert).
  exists k. split_and!; [done| |].
  - rewrite list_lookup_insert_ne; [done|]. intros Heq. rewrite Heq, Hb in Hi.
    injection Hi as <-. by rewrite is_live_slot in Hdead.
  - intros j c Hj Hc. apply list_lookup_insert_Some in Hc as [(_ & <- & _)|[_ Hc]]; [done|].
    by apply (Hpath j c).
Qed.

Lemma reaches_here index h s kt t :
  kt < len index → t = pos (len index) h kt → clear_path index h kt → (t < length index)%nat →
  s < TOMBSTONE_SLOT → reaches (<[t := mkBucket h s]> index) h s.
Proof.
  intros Hkt Ht Hpath Hlt Hs. unfold reaches, clear_path.
  assert (len (<[t := mkBucket h s]> index) = len index) as -> by (unfold len; by rewrite length_insert).
  exists kt. split_and!; [done|rewrite <- Ht; by apply list_lookup_insert_eq|].
  intros j c Hj Hc. apply list_lookup_insert_Some in Hc as [(_ & <- & _)|[_ Hc]].
  - by apply is_live_true, is_live_slot.
  - by apply (Hpath j c).
Qed.

Lemma size_ok_insert index i b : size_ok index → size_ok (<[i := b]> index).
Proof. intros (e & ? & Heq). exists e. unfold len in *. by rewrite length_insert. Qed.

Lemma index_ok_insert index live h s t kt b :
  index_ok index live → live s = None → s < TOMBSTONE_SLOT →
  kt < len index → t = pos (len index) h kt → clear_path index h kt →
  index !! t = Some b → Bucket_is_live b = false →
  index_ok (<[t := mkBucket h s]> index) (<[s := Some h]> live).
Proof.
  intros [Hsz Hsl Hso Hre Hun] Hnone Hs Hkt Ht Hpath Hb Hdead.
  pose proof (lookup_lt_Some _ _ _ Hb) as Hlt. split.
  - by apply size_ok_insert.
  - intros s' h' Hs'. destruct (decide (s' = s)) as [->|Hne]; [done|].
    rewrite fn_lookup_insert_ne in Hs' by done. by eapply Hsl.
  - intros i c Hc Hlive. apply list_lookup_insert_Some in Hc as [(_ & <- & _)|[_ Hc]]; simpl.
    + by rewrite fn_lookup_insert.
    + rewrite fn_lookup_insert_ne; [by eapply Hso|]. intros Heq.
      specialize (Hso _ _ Hc Hlive). congruence.
  - intros s' h' Hs'. destruct (decide (s' = s)) as [->|Hne].
    + rewrite fn_lookup_insert in Hs'. injection Hs' as <-. by eapply reaches_here.
    + rewrite fn_lookup_insert_ne in Hs' by done. eapply reaches_insert; eauto.
      by apply is_live_true, is_live_slot.
  - intros i j c c' Hc Hc' Hlive Heq.
    apply list_lookup_insert_Some in Hc as [(<- & <- & _)|[Hi Hc]];
      apply list_lookup_insert_Some in Hc' as [(<- & <- & _)|[Hj Hc']]; simpl in *.
    + done.
    + exfalso. assert (Bucket_is_live c' = true) as Hl' by (apply is_live_slot; congruence).
      specialize (Hso _ _ Hc' Hl'). congruence.
    + exfalso. specialize (Hso _ _ Hc Hlive). congruence.
    + by eapply Hun.
Qed.

(** ** Removal *)

Lemma probe_remove_spec index live h s fuel k idx :
  index_ok index live → live s = Some h →
  N.to_nat idx = pos (len index) h k → k + N.of_nat fuel = len index →
  (∀ j, j < k → index !! pos (len index) h j ≠ Some (mkBucket h s)) →
  ∃ t, probe_remove fuel index idx h s = Some (Some t) ∧ index !! N.to_nat t = Some (mkBucket h s).
Proof.
  intros Hix Hlive. destruct (ix_reach _ _ Hix s h Hlive) as (k0 & Hk0 & Hb0 & Hpath). revert k idx.
  induction fuel as [|fuel IH]; intros k idx Hidx Hk Hseen; simpl.
  - exfalso. apply (Hseen k0); [lia|done].
  - destruct (pos_lookup index h k (ix_size _ _ Hix)) as [b Hb]. rewrite Hidx, Hb. simpl.
    assert (k ≤ k0) as Hle. { destruct (N.le_gt_cases k k0); [done|]. exfalso. by apply (Hseen k0). }
    pose proof (ix_slots _ _ Hix _ _ Hlive) as Hslot.
    case_if; [exfalso|].
    + destruct (decide (k = k0)) as [->|Hne].
      * rewrite Hb in Hb0. injection Hb0 as Heq. rewrite Heq in Heqb0. simpl in Heqb0.
        rewrite Heqb0 in Hslot. done.
      * by apply (Hpath k b); [lia|..].
    + case_if.
      * exists idx. split; [done|]. rewrite Hidx, Hb. destruct b. simpl in *. congruence.
      * apply (IH (k + 1)); [by apply next_pos, Hidx; apply Hix|lia|].
        intros j Hj. destruct (decide (j = k)) as [->|]; [|apply Hseen; lia].
        rewrite Hb. intros [= ->]. simpl in *. by rewrite !N.eqb_refl in Heqb1.
Qed.

Lemma index_ok_remove index live h s t :
  index_ok index live → live s = Some h → index !! t = Some (mkBucket h s) →
  index_ok (<[t := Bucket_TOMBSTONE]> index) (<[s := None]> live).
Proof.
  intros [Hsz Hsl Hso Hre Hun] Hlive Ht.
  assert (len (<[t := Bucket_TOMBSTONE]> index) = len index) as Hlen
    by (unfold len; by rewrite length_insert).
  split.
  - by apply size_ok_insert.
  - intros s' h' Hs'. destruct (decide (s' = s)) as [->|Hne].
    + by rewrite fn_lookup_insert in Hs'.
    + rewrite fn_lookup_insert_ne in Hs' by done. by eapply Hsl.
  - intros i c Hc Hl. apply list_lookup_insert_Some in Hc as [(_ & <- & _)|[Hi Hc]]; [done|].
    rewrite fn_lookup_insert_ne; [by eapply Hso|]. intros Heq. apply Hi.
    apply (Hun t i (mkBucket h s) c); [done|done|by apply is_live_slot, (Hsl s h)|done].
  - intros s' h' Hs'. destruct (decide (s' = s)) as [->|Hne]; [by rewrite fn_lookup_insert in Hs'|].
    rewrite fn_lookup_insert_ne in Hs' by done.
    destruct (Hre s' h' Hs') as (k & Hk & Hb & Hpath). unfold reaches, clear_path. rewrite Hlen.
    exists k. split_and!; [done| |].
    + rewrite list_lookup_insert_ne; [done|]. intros Heq. rewrite Heq, Hb in Ht. congruence.
    + intros j c Hj Hc. apply list_lookup_insert_Some in Hc as [(_ & <- & _)|[_ Hc]]; [done|].
      by apply (Hpath j c).
  - intros i j c c' Hc Hc' Hl Heq.
    apply list_lookup_insert_Some in Hc as [(_ & <- & _)|[Hi Hc]]; [done|].
    apply list_lookup_insert_Some in Hc' as [(_ & <- & _)|[Hj Hc']]; [|by eapply Hun].
    apply is_live_true in Hl. simpl in Heq. by destruct Hl.
Qed.

(** ** Counting buckets *)

Definition count {A} (P : A → bool) (l : list A) : N := len (filter (λ x, P x = true) l).
Definition is_tombstone (b : Bucket) : bool := b_slot b =? TOMBSTONE_SLOT.

Lemma count_cons {A} (P : A → bool) x l : count P (x :: l) = N.b2n (P x) + count P l.
Proof. unfold count. rewrite filter_cons. destruct (P x); simpl; [by rewrite len_cons|done]. Qed.

Lemma count_insert {A} (P : A → bool) l i x y :
  l !! i = Some y → count P (<[i := x]> l) + N.b2n (P y) = count P l + N.b2n (P x).
Proof.
  revert i. induction l as [|z l IH]; intros [|i] Hi; simpl in *; [done|done| |].
  - injection Hi as ->. rewrite !count_cons. lia.
  - rewrite !count_cons. specialize (IH i Hi). lia.
Qed.

Lemma count_replicate {A} (P : A → bool) n x : P x = false → count P (replicate n x) = 0.
Proof. intros Hx. induction n as [|n IH]; [done|]. simpl. by rewrite count_cons, Hx, IH. Qed.

(** A bucket array that is not full has an empty bucket on every probe path. *)
Lemma has_empty index h :
  size_ok index → count Bucket_is_live index + count is_tombstone index < len index →
  ∃ e b, e < len index ∧ index !! pos (len index) h e = Some b ∧ b_slot b = EMPTY_SLOT.
Proof.
  intros Hs Hlt.
  assert (∃ i b, index !! i = Some b ∧ b_slot b = EMPTY_SLOT) as (i & b & Hi & Hb).
  { clear Hs. induction index as [|c index IH]; [done|].
    rewrite !count_cons, len_cons in Hlt. destruct (decide (b_slot c = EMPTY_SLOT)) as [He|He].
    - by exists 0%nat, c.
    - assert (N.b2n (Bucket_is_live c) + N.b2n (is_tombstone c) = 1) as Hone.
      { unfold Bucket_is_live, is_tombstone. rewrite (proj2 (N.eqb_neq _ _) He). simpl.
        by destruct (b_slot c =? TOMBSTONE_SLOT). }
      destruct IH as (i & b & Hi & Hb); [lia|]. by exists (S i), b. }
  destruct (pos_surj (len index) h i) as (e & He & Hpos).
  { apply lookup_lt_Some in Hi. unfold len. lia. }
  exists e, b. split_and!; [done|by rewrite Hpos|done].
Qed.

(** [insert_bucket] finds room, and updates the counts. *)
Lemma insert_bucket_ok index live tombs h s :
  index_ok index live → live s = None → s < TOMBSTONE_SLOT →
  tombs = count is_tombstone index → count Bucket_is_live index + tombs < len index →
  ∃ index' tombs', insert_bucket index tombs h s = Some (index', tombs') ∧
    index_ok index' (<[s := Some h]> live) ∧ len index' = len index ∧
    tombs' = count is_tombstone index' ∧
    count Bucket_is_live index' = count Bucket_is_live index + 1 ∧ tombs' ≤ tombs.
Proof.
  intros Hix Hnone Hs -> Hroom. pose proof (ix_size _ _ Hix) as Hsz.
  destruct (has_empty index h Hsz Hroom) as (e & be & He & Hbe & Hempty).
  destruct (probe_insert_spec index h (length index) 0 (home index h) None e be)
    as (t & kt & b & Hprobe & Hkt & Ht & Hpath & Hb & Hdead); try done.
  { by apply home_pos. } { split; [|done]. intros j b Hj. lia. } { lia. }
  unfold insert_bucket. rewrite Hprobe. simpl. rewrite Hb. simpl.
  pose proof (count_insert is_tombstone _ _ (mkBucket h s) _ Hb) as Hct.
  pose proof (count_insert Bucket_is_live _ _ (mkBucket h s) _ Hb) as Hcl.
  rewrite (is_live_slot (mkBucket h s)), Hdead in Hcl by done.
  assert (is_tombstone (mkBucket h s) = false) as Hnt.
  { unfold is_tombstone. simpl. apply N.eqb_neq. lia. }
  rewrite Hnt in Hct. unfold is_tombstone at 2 in Hct. simpl in Hct, Hcl.
  assert (len (<[N.to_nat t := mkBucket h s]> index) = len index) as Hlen
    by (unfold len; by rewrite length_insert).
  destruct (b_slot b =? TOMBSTONE_SLOT); simpl in Hct.
  - unfold checked_pred. rewrite (proj2 (N.eqb_neq _ _)) by lia. simpl. eexists _, _. split; [done|].
    split_and!; [by eapply index_ok_insert|done|lia|lia|lia].
  - simpl. eexists _, _. split; [done|]. split_and!; [by eapply index_ok_insert|done|lia|lia|lia].
Qed.

(** ** Rehashing *)

Lemma index_ok_ext index live live' :
  (∀ s, live s = live' s) → index_ok index live → index_ok index live'.
Proof.
  intros Heq [Hsz Hsl Hso Hre Hun]. split; [done|..|done].
  - intros s h. rewrite <- Heq. apply Hsl.
  - intros i b. rewrite <- Heq. apply Hso.
  - intros s h. rewrite <- Heq. apply Hre.
Qed.

Definition add_buckets (live : N → option N) (l : list Bucket) : N → option N :=
  foldl (λ f b, <[b_slot b := Some (b_hash b)]> f) live l.

Lemma add_buckets_None live l s : s ∉ b_slot <$> l → add_buckets live l s = live s.
Proof.
  revert live. induction l as [|b l IH]; intros live Hs; simpl in *; [done|].
  apply not_elem_of_cons in Hs as [Hne Hs]. unfold add_buckets in *. simpl. rewrite IH by done.
  by rewrite fn_lookup_insert_ne.
Qed.

Lemma add_buckets_Some live l b :
  NoDup (b_slot <$> l) → b ∈ l → add_buckets live l (b_slot b) = Some (b_hash b).
Proof.
  revert live. induction l as [|c l IH]; intros live Hnd Hb; [by apply elem_of_nil in Hb|].
  simpl in Hnd. apply NoDup_cons in Hnd as [Hc Hnd].
  apply elem_of_cons in Hb as [->|Hb]; [|by apply IH].
  change (add_buckets live (c :: l)) with (add_buckets (<[b_slot c := Some (b_hash c)]> live) l).
  rewrite add_buckets_None by done. by rewrite fn_lookup_insert.
Qed.

Lemma NoDup_filter_unique {A B} (P : A → Prop) `{!∀ x, Decision (P x)} (f : A → B) l :
  (∀ i j x y, l !! i = Some x → l !! j = Some y → P x → f x = f y → i = j) →
  NoDup (f <$> filter P l).
Proof.
  induction l as [|x l IH]; intros Hun; [constructor|]. rewrite filter_cons.
  assert (NoDup (f <$> filter P l)) as Hnd.
  { apply IH. intros i j y z Hi Hj HP Heq. assert (S i = S j) by (by eapply (Hun (S i) (S j))). lia. }
  case_decide as HP; [|done]. simpl. apply NoDup_cons. split; [|done].
  intros (y & Heq & Hy)%list_elem_of_fmap. apply list_elem_of_filter in Hy as [_ Hy].
  apply list_elem_of_lookup in Hy as [j Hj]. by specialize (Hun 0%nat (S j) x y eq_refl Hj HP Heq).
Qed.

Lemma insert_all_ok l index live :
  index_ok index live → NoDup (b_slot <$> l) →
  (∀ b, b ∈ l → live (b_slot b) = None ∧ b_slot b < TOMBSTONE_SLOT) →
  count is_tombstone index = 0 → count Bucket_is_live index + len l < len index →
  ∃ index', foldl (λ acc b, '(ix, tombs) ← acc; insert_bucket ix tombs (b_hash b) (b_slot b))
              (Some (index, 0)) l = Some (index', 0) ∧
    index_ok index' (add_buckets live l) ∧ len index' = len index ∧
    count is_tombstone index' = 0 ∧ count Bucket_is_live index' = count Bucket_is_live index + len l.
Proof.
  revert index live. induction l as [|b l IH]; intros index live Hix Hnd Hl Ht Hroom.
  { exists index. rewrite (len_nil (A:=Bucket)). split_and!; try done. lia. }
  simpl in Hnd. apply NoDup_cons in Hnd as [Hb Hnd]. rewrite len_cons in *.
  destruct (Hl b) as [Hnone Hslot]; [by left|].
  destruct (insert_bucket_ok index live 0 (b_hash b) (b_slot b))
    as (ix1 & t1 & Hins & Hix1 & Hlen1 & Ht1 & Hc1 & Hle1); [done..|lia|].
  assert (t1 = 0) as -> by lia. cbn [foldl]. simpl. rewrite Hins.
  destruct (IH ix1 (<[b_slot b := Some (b_hash b)]> live)) as (ix' & Hfold & Hix' & Hlen' & Ht' & Hc');
    [done|done| |lia|lia|].
  - intros c Hc. destruct (Hl c) as [Hn Hs]; [by right|]. split; [|done].
    rewrite fn_lookup_insert_ne; [done|]. intros Heq. apply Hb. rewrite Heq. by apply list_elem_of_fmap_2.
  - exists ix'. split_and!; [done|done|lia|done|lia].
Qed.

(** The capacity of a rehashed index. *)
Definition rehash_capacity (new_capacity : N) : N :=
  next_power_of_two (N.max new_capacity DEFAULT_INDEX_CAPACITY).

Lemma rehash_capacity_ok nc :
  ∃ e, 6 ≤ e ∧ rehash_capacity nc = 2 ^ e ∧ nc ≤ rehash_capacity nc ∧
       (∀ k, 6 ≤ k → nc = 2 ^ k → rehash_capacity nc = nc).
Proof.
  unfold rehash_capacity, next_power_of_two, DEFAULT_INDEX_CAPACITY. exists (N.log2_up (N.max nc 64)).
  pose proof (N.log2_log2_up_spec (N.max nc 64) ltac:(lia)) as [_ Hle]. split_and!; [|done|lia|].
  - apply (N.pow_le_mono_r_iff 2); [done|]. change (2 ^ 6) with 64. lia.
  - intros k Hk ->. assert (64 ≤ 2 ^ k) by (change 64 with (2 ^ 6); by apply N.pow_le_mono_r).
    rewrite N.max_l by done. rewrite N.log2_up_pow2; [done|lia].
Qed.

Lemma empty_index_ok e : 6 ≤ e → index_ok (replicate (N.to_nat (2 ^ e)) Bucket_EMPTY) (λ _, None).
Proof.
  intros He. split; [|done|..|done|].
  - exists e. split; [done|]. unfold len. rewrite length_replicate. lia.
  - intros i b [-> _]%lookup_replicate_1. done.
  - intros i j b b' [-> _]%lookup_replicate_1. done.
Qed.

Lemma rehash_ok index live nc :
  index_ok index live → count Bucket_is_live index < rehash_capacity nc →
  ∃ index', rehash_buckets index nc = Some (index', 0) ∧ index_ok index' live ∧
    len index' = rehash_capacity nc ∧ count is_tombstone index' = 0 ∧
    count Bucket_is_live index' = count Bucket_is_live index.
Proof.
  intros Hix Hroom. destruct (rehash_capacity_ok nc) as (e & He & Hcap & _).
  set (l := filter (λ b, Bucket_is_live b = true) index).
  assert (∀ b, b ∈ l → Bucket_is_live b = true ∧ ∃ i, index !! i = Some b) as Hl.
  { intros b [Hlv Hin]%list_elem_of_filter. split; [done|]. by apply list_elem_of_lookup. }
  assert (NoDup (b_slot <$> l)) as Hnd by (apply NoDup_filter_unique; apply Hix).
  assert (len (replicate (N.to_nat (2 ^ e)) Bucket_EMPTY) = 2 ^ e) as Hlen
    by (unfold len; rewrite length_replicate; lia).
  destruct (insert_all_ok l (replicate (N.to_nat (2 ^ e)) Bucket_EMPTY) (λ _, None))
    as (ix' & Hfold & Hix' & Hlen' & Ht' & Hc').
  - by apply empty_index_ok.
  - done.
  - intros b Hb. destruct (Hl b Hb) as [Hlv [i Hi]]. split; [done|].
    eapply (ix_slots _ _ Hix), (ix_sound _ _ Hix _ _ Hi Hlv).
  - by apply count_replicate.
  - rewrite count_replicate by done. rewrite Hlen, <- Hcap. done.
  - rewrite count_replicate in Hc' by done.
    exists ix'. unfold rehash_buckets. fold (rehash_capacity nc). rewrite Hcap.
    split_and!; [done| |by rewrite Hlen', Hlen|done|by rewrite Hc'].
    eapply index_ok_ext; [|exact Hix']. intros s.
    destruct (live s) as [h|] eqn:Hs.
    + destruct (ix_reach _ _ Hix s h Hs) as (k & _ & Hb & _).
      apply (add_buckets_Some _ l (mkBucket h s) Hnd). apply list_elem_of_filter.
      split; [by apply is_live_slot, (ix_slots _ _ Hix s h)|]. by eapply list_elem_of_lookup_2.
    + rewrite add_buckets_None; [done|]. intros (b & -> & Hb)%list_elem_of_fmap.
      destruct (Hl b Hb) as [Hlv [i Hi]]. by rewrite (ix_sound _ _ Hix _ _ Hi Hlv) in Hs.
Qed.

(** ** Termination of the probes *)

Lemma probe_insert_more fuel fuel' index idx first t :
  (fuel ≤ fuel')%nat → probe_insert fuel index idx first = Some t →
  probe_insert fuel' index idx first = Some t.
Proof.
  revert fuel' idx first. induction fuel as [|fuel IH]; intros [|fuel'] idx first Hle H; simpl in *; try done; [lia|].
  destruct (index !! N.to_nat idx) as [b|]; simpl in *; [|done]. repeat case_if; first [done|apply IH; [lia|done]].
Qed.

(** [C17] The insertion loop, which has no bound of its own, stops within one
    turn of the table whenever the table is not full, in a bucket that was not in
    use, and the counters of [insert_bucket_raw] do not underflow; afterwards the
    lookup of the inserted key finds its slot and the removal of the slot finds
    its bucket. *)
Theorem index_insert_terminates index live tombs h s is_key :
  index_ok index live → live s = None → s < TOMBSTONE_SLOT →
  tombs = count is_tombstone index → count Bucket_is_live index + tombs < len index →
  decides (<[s := Some h]> live) h is_key (Some s) →
  ∃ t index' tombs',
    (∀ fuel, (length index ≤ fuel)%nat → probe_insert fuel index (home index h) None = Some t) ∧
    (Bucket_is_live <$> index !! N.to_nat t) = Some false ∧
    insert_bucket index tombs h s = Some (index', tombs') ∧ index' = <[N.to_nat t := mkBucket h s]> index ∧
    tombs' = count is_tombstone index' ∧
    probe_find (length index') index' (home index' h) h is_key = Some (Some s) ∧
    ∃ r, probe_remove (length index') index' (home index' h) h s = Some (Some r) ∧
         index' !! N.to_nat r = Some (mkBucket h s).
Proof.
  intros Hix Hnone Hs Htombs Hroom Hdec.
  destruct (insert_bucket_ok _ _ _ h s Hix Hnone Hs Htombs Hroom)
    as (index' & tombs' & Hins & Hix' & Hlen & Hcount & _ & _).
  pose proof (ix_size _ _ Hix) as Hsz. pose proof (ix_size _ _ Hix') as Hsz'.
  destruct (has_empty index h Hsz) as (e & be & He & Hbe & Hempty); [by rewrite <- Htombs|].
  destruct (probe_insert_spec index h (length index) 0 (home index h) None e be)
    as (t & kt & b & Ht & _ & _ & _ & Hb & Hdead); try done; [by apply home_pos| |lia..|].
  { split; [|done]. intros j c Hj. lia. }
  exists t, index', tombs'. rewrite Hb. split_and!.
  - intros fuel Hfuel. by eapply probe_insert_more.
  - simpl. by rewrite Hdead.
  - done.
  - unfold insert_bucket in Hins. rewrite Ht in Hins. simpl in Hins. rewrite Hb in Hins. simpl in Hins.
    destruct (if b_slot b =? TOMBSTONE_SLOT then _ else _); simpl in Hins; congruence.
  - done.
  - apply (probe_find_spec _ _ _ _ _ _ 0 _ Hix' Hdec); [|by apply home_pos|done|].
    + intros s' [= <-]. by rewrite fn_lookup_insert.
    + intros s' _ j Hj. lia.
  - apply (probe_remove_spec _ _ _ _ _ 0 _ Hix'); [by rewrite fn_lookup_insert|by apply home_pos|done|].
    intros j Hj. lia.
Qed.

Lemma index_insert_terminates_witness :
  let index := replicate 64 Bucket_EMPTY in
  ∃ t index' tombs',
    (∀ fuel, (length index ≤ fuel)%nat → probe_insert fuel index (home index 70) None = Some t) ∧
    (Bucket_is_live <$> index !! N.to_nat t) = Some false ∧
    insert_bucket index 0 70 3 = Some (index', tombs') ∧ index' = <[N.to_nat t := mkBucket 70 3]> index ∧
    tombs' = count is_tombstone index' ∧
    probe_find (length index') index' (home index' 70) 70 (λ _, Some true) = Some (Some 3) ∧
    ∃ r, probe_remove (length index') index' (home index' 70) 70 3 = Some (Some r) ∧
         index' !! N.to_nat r = Some (mkBucket 70 3).
Proof.
  apply (index_insert_terminates _ (λ _, None)).
  - by apply (empty_index_ok 6).
  - done.
  - done.
  - by vm_compute.
  - by vm_compute.
  - intros s Hs. destruct (decide (s = 3)) as [->|Hne]; [done|]. by rewrite fn_lookup_insert_ne in Hs.
Defined.
