(* ===== verification/Cache.v ===== *)
(** * The shard-local cache

    [CacheStore] of [src/runtime/cache.rs]: the entries in a slot table, the
    open-addressed index over them ([CacheIndex]), the byte arena that holds
    keys and values ([CacheArena]) and the timing wheel of expirations.  Every
    operation is a function of the store that returns [None] on a panic. *)
From S2P Require Import Prelude Bytes Text CacheArena CacheIndex.

Local Open Scope N_scope.

(** ** Data *)

Definition DEFAULT_WHEEL_BUCKETS : N := 4096.
Definition DEFAULT_WHEEL_TICK_MS : N := 10.

Inductive CacheValueView := ViewInteger (z : Z) | ViewBytes (bs : bytes).
Inductive CacheTtl := TtlMissing | TtlPersistent | TtlRemainingMs (ms : N).
Inductive CacheIncrementError := NotInteger | IncOverflow.
Inductive CacheValue := CInteger (z : Z) | CBytes (b : PackedBytes).

Definition CacheValue_view (self : CacheValue) (arena : ByteArena) : option CacheValueView :=
  match self with
  | CInteger z => Some (ViewInteger z)
  | CBytes b => bs ← PackedBytes_as_slice b arena; Some (ViewBytes bs)
  end.

Definition CacheValue_release (self : CacheValue) (arena : ByteArena) : option ByteArena :=
  match self with CInteger _ => Some arena | CBytes b => PackedBytes_release b arena end.

Record Entry := mkEntry {
  en_hash : N;
  en_key : PackedBytes;
  en_value : CacheValue;
  en_expires_at_ms : option N;
}.

Record EntrySlot := mkEntrySlot { sl_generation : N; sl_entry : option Entry }.

Record ExpirationRef := mkExpirationRef {
  xr_slot : N;
  xr_generation : N;
  xr_expires_at_ms : N;
}.

Record ExpirationWheel := mkExpirationWheel {
  wh_tick_ms : N;
  wh_buckets : list (list ExpirationRef);
  wh_last_tick : option N;
}.

Record CacheStats := mkCacheStats {
  st_hits : N;
  st_misses : N;
  st_sets : N;
  st_deletes : N;
  st_expirations : N;
}.

Record CacheMemoryStats := mkCacheMemoryStats {
  ms_entries : N;
  ms_index_capacity : N;
  ms_arena_reserved_bytes : N;
  ms_reusable_slots : N;
}.

Record CacheStore := mkCacheStore {
  cs_arena : ByteArena;
  cs_slots : list EntrySlot;
  cs_free_slots : list N;
  cs_index : list Bucket;
  cs_index_len : N;
  cs_tombstones : N;
  cs_expiry : ExpirationWheel;
  cs_expiry_scratch : list ExpirationRef;
  cs_stats : CacheStats;
}.

(** ** The expiration wheel *)

Definition ExpirationWheel_new (bucket_count tick_ms : N) : option ExpirationWheel :=
  if (0 <? bucket_count) && (0 <? tick_ms)
  then Some (mkExpirationWheel tick_ms (replicate (N.to_nat bucket_count) []) None) else None.

Definition ExpirationWheel_schedule (self : ExpirationWheel) (item : ExpirationRef) (now_ms : N)
    : option ExpirationWheel :=
  let last_tick := default (now_ms / wh_tick_ms self) (wh_last_tick self) in
  let bucket := N.to_nat ((xr_expires_at_ms item / wh_tick_ms self) mod len (wh_buckets self)) in
  items ← wh_buckets self !! bucket;
  Some (mkExpirationWheel (wh_tick_ms self) (<[bucket := items ++ [item]]> (wh_buckets self))
          (Some last_tick)).

(** [out.append(&mut self.buckets[idx])] for one tick. *)
Definition drain_tick (count : N) (acc : option (list (list ExpirationRef) * list ExpirationRef))
    (tick : N) : option (list (list ExpirationRef) * list ExpirationRef) :=
  '(buckets, out) ← acc;
  let idx := N.to_nat (tick mod count) in
  items ← buckets !! idx;
  Some (<[idx := []]> buckets, out ++ items).

(** [last..=current] *)
Definition tick_range (last current : N) : list N :=
  (λ i, last + N.of_nat i) <$> seq 0 (N.to_nat (current + 1 - last)).

Definition ExpirationWheel_drain_candidates (self : ExpirationWheel) (now_ms : N)
    (out : list ExpirationRef) : option (ExpirationWheel * list ExpirationRef) :=
  let current := now_ms / wh_tick_ms self in
  let done buckets := mkExpirationWheel (wh_tick_ms self) buckets (Some current) in
  match wh_last_tick self with
  | None => Some (done (wh_buckets self), out)
  | Some last =>
      let bucket_count := len (wh_buckets self) in
      let elapsed := current - last in
      if bucket_count <=? elapsed then
        Some (done (replicate (length (wh_buckets self)) []), out ++ mjoin (wh_buckets self))
      else
        '(buckets, out) ← foldl (drain_tick bucket_count) (Some (wh_buckets self, out))
                            (tick_range last current);
        Some (done buckets, out)
  end.

(** ** Field updates *)

Definition set_arena (st : CacheStore) (a : ByteArena) : CacheStore :=
  mkCacheStore a (cs_slots st) (cs_free_slots st) (cs_index st) (cs_index_len st)
    (cs_tombstones st) (cs_expiry st) (cs_expiry_scratch st) (cs_stats st).
Definition set_slots (st : CacheStore) (slots : list EntrySlot) (free : list N) : CacheStore :=
  mkCacheStore (cs_arena st) slots free (cs_index st) (cs_index_len st)
    (cs_tombstones st) (cs_expiry st) (cs_expiry_scratch st) (cs_stats st).
Definition set_index (st : CacheStore) (index : list Bucket) (n tombs : N) : CacheStore :=
  mkCacheStore (cs_arena st) (cs_slots st) (cs_free_slots st) index n tombs
    (cs_expiry st) (cs_expiry_scratch st) (cs_stats st).
Definition set_expiry (st : CacheStore) (w : ExpirationWheel) : CacheStore :=
  mkCacheStore (cs_arena st) (cs_slots st) (cs_free_slots st) (cs_index st) (cs_index_len st)
    (cs_tombstones st) w (cs_expiry_scratch st) (cs_stats st).
Definition set_scratch (st : CacheStore) (l : list ExpirationRef) : CacheStore :=
  mkCacheStore (cs_arena st) (cs_slots st) (cs_free_slots st) (cs_index st) (cs_index_len st)
    (cs_tombstones st) (cs_expiry st) l (cs_stats st).
Definition set_stats (st : CacheStore) (s : CacheStats) : CacheStore :=
  mkCacheStore (cs_arena st) (cs_slots st) (cs_free_slots st) (cs_index st) (cs_index_len st)
    (cs_tombstones st) (cs_expiry st) (cs_expiry_scratch st) s.

Definition count_hit (st : CacheStore) : CacheStore :=
  let s := cs_stats st in
  set_stats st (mkCacheStats (wrapping_add64 (st_hits s) 1) (st_misses s) (st_sets s) (st_deletes s)
                  (st_expirations s)).
Definition count_miss (st : CacheStore) : CacheStore :=
  let s := cs_stats st in
  set_stats st (mkCacheStats (st_hits s) (wrapping_add64 (st_misses s) 1) (st_sets s) (st_deletes s)
                  (st_expirations s)).
Definition count_set (st : CacheStore) : CacheStore :=
  let s := cs_stats st in
  set_stats st (mkCacheStats (st_hits s) (st_misses s) (wrapping_add64 (st_sets s) 1) (st_deletes s)
                  (st_expirations s)).
Definition count_delete (st : CacheStore) : CacheStore :=
  let s := cs_stats st in
  set_stats st (mkCacheStats (st_hits s) (st_misses s) (st_sets s) (wrapping_add64 (st_deletes s) 1)
                  (st_expirations s)).
Definition count_expiration (st : CacheStore) : CacheStore :=
  let s := cs_stats st in
  set_stats st (mkCacheStats (st_hits s) (st_misses s) (st_sets s) (st_deletes s)
                  (wrapping_add64 (st_expirations s) 1)).

(** ** The store *)

Definition CacheStore_new : CacheStore :=
  mkCacheStore ByteArena_new [] [] (replicate (N.to_nat DEFAULT_INDEX_CAPACITY) Bucket_EMPTY) 0 0
    (mkExpirationWheel DEFAULT_WHEEL_TICK_MS (replicate (N.to_nat DEFAULT_WHEEL_BUCKETS) []) None)
    [] (mkCacheStats 0 0 0 0 0).

(** [generation.wrapping_add(1).max(1)] on [u32] *)
Definition next_generation (g : N) : N := N.max ((g + 1) mod U32) 1.

(** [entry.key.as_slice(&self.arena) == key] for the entry of a slot, if any. *)
Definition slot_has_key (self : CacheStore) (key : bytes) (slot : N) : option bool :=
  sl ← cs_slots self !! N.to_nat slot;
  match sl_entry sl with
  | Some e => k ← PackedBytes_as_slice (en_key e) (cs_arena self); Some (bool_decide (k = key))
  | None => Some false
  end.

Definition CacheStore_find_slot (self : CacheStore) (key : bytes) (h : N) : option (option N) :=
  probe_find (length (cs_index self)) (cs_index self) (home (cs_index self) h) h (slot_has_key self key).

Definition CacheStore_rehash (self : CacheStore) (new_capacity : N) : option CacheStore :=
  '(index, tombs) ← rehash_buckets (cs_index self) new_capacity;
  Some (set_index self index (cs_index_len self) tombs).

Definition CacheStore_ensure_index_capacity (self : CacheStore) : option CacheStore :=
  self ← (if (cs_index_len self <? cs_tombstones self) && (32 <? cs_tombstones self)
          then CacheStore_rehash self (len (cs_index self)) else Some self);
  let used := cs_index_len self + cs_tombstones self + 1 in
  if len (cs_index self) * 7 <=? used * 10
  then CacheStore_rehash self (len (cs_index self) * 2) else Some self.

Definition CacheStore_insert_bucket_raw (self : CacheStore) (h slot : N) : option CacheStore :=
  '(index, tombs) ← insert_bucket (cs_index self) (cs_tombstones self) h slot;
  Some (set_index self index (cs_index_len self) tombs).

Definition CacheStore_remove_bucket (self : CacheStore) (h slot : N) : option CacheStore :=
  found ← probe_remove (length (cs_index self)) (cs_index self) (home (cs_index self) h) h slot;
  match found with
  | Some idx =>
      n ← checked_pred (cs_index_len self);
      Some (set_index self (<[N.to_nat idx := Bucket_TOMBSTONE]> (cs_index self)) n
              (cs_tombstones self + 1))
  | None => Some self
  end.

Definition CacheStore_allocate_slot (self : CacheStore) (entry : Entry)
    : option (N * N * CacheStore) :=
  match vec_pop (cs_free_slots self) with
  | Some (slot_id, free) =>
      sl ← cs_slots self !! N.to_nat slot_id;
      let g := next_generation (sl_generation sl) in
      Some (slot_id, g,
            set_slots self (<[N.to_nat slot_id := mkEntrySlot g (Some entry)]> (cs_slots self)) free)
  | None =>
      Some (as_u32 (len (cs_slots self)), 1,
            set_slots self (cs_slots self ++ [mkEntrySlot 1 (Some entry)]) (cs_free_slots self))
  end.

Definition CacheStore_remove_slot (self : CacheStore) (slot_id : N) : option (bool * CacheStore) :=
  match cs_slots self !! N.to_nat slot_id with
  | None => Some (false, self)
  | Some sl =>
      match sl_entry sl with
      | None => Some (false, self)
      | Some entry =>
          let self := set_slots self
            (<[N.to_nat slot_id := mkEntrySlot (sl_generation sl) None]> (cs_slots self))
            (cs_free_slots self) in
          self ← CacheStore_remove_bucket self (en_hash entry) slot_id;
          arena ← PackedBytes_release (en_key entry) (cs_arena self);
          arena ← CacheValue_release (en_value entry) arena;
          Some (true, set_slots (set_arena self arena) (cs_slots self) (cs_free_slots self ++ [slot_id]))
      end
  end.

(** [self.expiry.schedule(...)] when there is a deadline. *)
Definition schedule_expiry (self : CacheStore) (slot_id generation : N) (expires_at_ms : option N)
    (now_ms : N) : option CacheStore :=
  match expires_at_ms with
  | Some e =>
      w ← ExpirationWheel_schedule (cs_expiry self) (mkExpirationRef slot_id generation e) now_ms;
      Some (set_expiry self w)
  | None => Some self
  end.

Section with_hash.
(** [FxHasher] is not part of the repository: any function of the key. *)
Context (hash : bytes → N).

Definition CacheStore_live_slot_id (self : CacheStore) (key : bytes) (now_ms : N)
    : option (option N * CacheStore) :=
  found ← CacheStore_find_slot self key (hash key);
  match found with
  | None => Some (None, self)
  | Some slot_id =>
      sl ← cs_slots self !! N.to_nat slot_id;
      let expired := match sl_entry sl ≫= en_expires_at_ms with
                     | Some deadline => deadline <=? now_ms
                     | None => false
                     end in
      if expired then
        '(_, self) ← CacheStore_remove_slot self slot_id;
        Some (None, count_expiration self)
      else Some (Some slot_id, self)
  end.

Definition CacheStore_set_value (self : CacheStore) (key : bytes) (value : CacheValue)
    (ttl_ms : option N) (now_ms : N) : option CacheStore :=
  let h := hash key in
  let expires_at_ms := saturating_add64 now_ms <$> ttl_ms in
  found ← CacheStore_find_slot self key h;
  match found with
  | Some slot_id =>
      sl ← cs_slots self !! N.to_nat slot_id;
      entry ← sl_entry sl;
      arena ← CacheValue_release (en_value entry) (cs_arena self);
      let g := next_generation (sl_generation sl) in
      let entry := mkEntry (en_hash entry) (en_key entry) value expires_at_ms in
      let self := set_slots (set_arena self arena)
        (<[N.to_nat slot_id := mkEntrySlot g (Some entry)]> (cs_slots self)) (cs_free_slots self) in
      self ← schedule_expiry self slot_id g expires_at_ms now_ms;
      Some (count_set self)
  | None =>
      self ← CacheStore_ensure_index_capacity self;
      '(packed_key, arena) ← PackedBytes_pack key (cs_arena self);
      '(slot_id, g, self) ← CacheStore_allocate_slot (set_arena self arena)
                              (mkEntry h packed_key value expires_at_ms);
      self ← CacheStore_insert_bucket_raw self h slot_id;
      let self := set_index self (cs_index self) (cs_index_len self + 1) (cs_tombstones self) in
      self ← schedule_expiry self slot_id g expires_at_ms now_ms;
      Some (count_set self)
  end.

Definition CacheStore_set_bytes (self : CacheStore) (key value : bytes) (ttl_ms : option N)
    (now_ms : N) : option CacheStore :=
  '(packed, arena) ← PackedBytes_pack value (cs_arena self);
  CacheStore_set_value (set_arena self arena) key (CBytes packed) ttl_ms now_ms.

Definition CacheStore_set_integer (self : CacheStore) (key : bytes) (value : Z) (ttl_ms : option N)
    (now_ms : N) : option CacheStore :=
  CacheStore_set_value self key (CInteger value) ttl_ms now_ms.

(** [self.slots[slot_id as usize].entry.as_ref().expect("live slot vanished")] *)
Definition live_entry (self : CacheStore) (slot_id : N) : option (EntrySlot * Entry) :=
  sl ← cs_slots self !! N.to_nat slot_id;
  entry ← sl_entry sl;
  Some (sl, entry).

Definition CacheStore_get (self : CacheStore) (key : bytes) (now_ms : N)
    : option (option CacheValueView * CacheStore) :=
  '(found, self) ← CacheStore_live_slot_id self key now_ms;
  match found with
  | None => Some (None, count_miss self)
  | Some slot_id =>
      let self := count_hit self in
      '(_, entry) ← live_entry self slot_id;
      v ← CacheValue_view (en_value entry) (cs_arena self);
      Some (Some v, self)
  end.

Definition CacheStore_exists (self : CacheStore) (key : bytes) (now_ms : N)
    : option (bool * CacheStore) :=
  '(found, self) ← CacheStore_live_slot_id self key now_ms;
  Some (bool_decide (is_Some found), self).

(** The end of both deletions. *)
Definition remove_counted (self : CacheStore) (slot_id : N) : option (bool * CacheStore) :=
  '(removed, self) ← CacheStore_remove_slot self slot_id;
  Some (removed, if (removed : bool) then count_delete self else self).

Definition CacheStore_delete_at (self : CacheStore) (key : bytes) (now_ms : N)
    : option (bool * CacheStore) :=
  '(found, self) ← CacheStore_live_slot_id self key now_ms;
  match found with
  | None => Some (false, self)
  | Some slot_id => remove_counted self slot_id
  end.

Definition CacheStore_delete (self : CacheStore) (key : bytes) : option (bool * CacheStore) :=
  found ← CacheStore_find_slot self key (hash key);
  match found with
  | None => Some (false, self)
  | Some slot_id => remove_counted self slot_id
  end.

Definition CacheStore_expire_ms (self : CacheStore) (key : bytes) (ttl_ms now_ms : N)
    : option (bool * CacheStore) :=
  '(found, self) ← CacheStore_live_slot_id self key now_ms;
  match found with
  | None => Some (false, self)
  | Some slot_id =>
      if ttl_ms =? 0 then
        '(removed, self) ← CacheStore_remove_slot self slot_id;
        Some (if (removed : bool) then (true, count_expiration self) else (false, self))
      else
        let expires_at_ms := saturating_add64 now_ms ttl_ms in
        '(sl, entry) ← live_entry self slot_id;
        let g := next_generation (sl_generation sl) in
        let entry := mkEntry (en_hash entry) (en_key entry) (en_value entry) (Some expires_at_ms) in
        let self := set_slots self
          (<[N.to_nat slot_id := mkEntrySlot g (Some entry)]> (cs_slots self)) (cs_free_slots self) in
        self ← schedule_expiry self slot_id g (Some expires_at_ms) now_ms;
        Some (true, self)
  end.

Definition CacheStore_ttl (self : CacheStore) (key : bytes) (now_ms : N)
    : option (CacheTtl * CacheStore) :=
  '(found, self) ← CacheStore_live_slot_id self key now_ms;
  match found with
  | None => Some (TtlMissing, self)
  | Some slot_id =>
      '(_, entry) ← live_entry self slot_id;
      Some (match en_expires_at_ms entry with
            | Some deadline => TtlRemainingMs (deadline - now_ms)
            | None => TtlPersistent
            end, self)
  end.

(** The integer an entry's value stands for: outer [None] is a panic. *)
Definition integer_of (self : CacheStore) (v : CacheValue) : option (result Z CacheIncrementError) :=
  match v with
  | CInteger z => Some (Ok z)
  | CBytes b =>
      raw ← PackedBytes_as_slice b (cs_arena self);
      Some (ok_or (from_utf8 raw ≫= parse_i64) NotInteger)
  end.

Definition CacheStore_increment (self : CacheStore) (key : bytes) (delta : Z) (now_ms : N)
    : option (result Z CacheIncrementError * CacheStore) :=
  '(found, self) ← CacheStore_live_slot_id self key now_ms;
  match found with
  | None => self ← CacheStore_set_integer self key delta None now_ms; Some (Ok delta, self)
  | Some slot_id =>
      '(sl, entry) ← live_entry self slot_id;
      base ← integer_of self (en_value entry);
      match (let? base := base in ok_or (checked_add_i64 base delta) IncOverflow) with
      | Err e => Some (Err e, self)
      | Ok next =>
          arena ← CacheValue_release (en_value entry) (cs_arena self);
          let entry := mkEntry (en_hash entry) (en_key entry) (CInteger next) (en_expires_at_ms entry) in
          Some (Ok next, set_slots (set_arena self arena)
            (<[N.to_nat slot_id := mkEntrySlot (sl_generation sl) (Some entry)]> (cs_slots self))
            (cs_free_slots self))
      end
  end.

(** One candidate of [purge_expired]. *)
Definition purge_one (now_ms max_items : N) (acc : option (N * CacheStore)) (item : ExpirationRef)
    : option (N * CacheStore) :=
  '(expired, self) ← acc;
  let requeue := w ← ExpirationWheel_schedule (cs_expiry self) item now_ms;
                 Some (expired, set_expiry self w) in
  if max_items <=? expired then requeue else
  match cs_slots self !! N.to_nat (xr_slot item) with
  | None => Some (expired, self)
  | Some sl =>
      if negb (sl_generation sl =? xr_generation item) then Some (expired, self) else
      match sl_entry sl with
      | None => Some (expired, self)
      | Some entry =>
          if negb (bool_decide (en_expires_at_ms entry = Some (xr_expires_at_ms item)))
          then Some (expired, self)
          else if now_ms <? xr_expires_at_ms item then requeue
          else
            '(removed, self) ← CacheStore_remove_slot self (xr_slot item);
            Some (if (removed : bool) then (expired + 1, count_expiration self) else (expired, self))
      end
  end.

Definition CacheStore_purge_expired (self : CacheStore) (now_ms max_items : N)
    : option (N * CacheStore) :=
  '(w, candidates) ← ExpirationWheel_drain_candidates (cs_expiry self) now_ms [];
  '(expired, self) ← foldl (purge_one now_ms max_items)
                       (Some (0, set_scratch (set_expiry self w) [])) candidates;
  Some (expired, set_scratch self []).

Definition CacheStore_len (self : CacheStore) : N := cs_index_len self.
Definition CacheStore_is_empty (self : CacheStore) : bool := cs_index_len self =? 0.

Definition CacheStore_stats (self : CacheStore) : CacheStats := cs_stats self.

Definition CacheStore_memory_stats (self : CacheStore) : CacheMemoryStats :=
  mkCacheMemoryStats (cs_index_len self) (len (cs_index self))
    (ByteArena_reserved_bytes (cs_arena self)) (len (cs_free_slots self)).

End with_hash.
