(* ===== verification/CacheRefine.v ===== *)
(** * The cache refines a map with deadlines

    Every operation of [CacheStore] ([Cache]) against a finite map from keys to
    values and deadlines: the representation invariant of the slot table, the
    index and the arena, its preservation, and the absence of panics. *)
From stdpp Require Import functions.
From S2P Require Import Prelude Bytes Text CacheArena CacheIndex Cache.

Local Open Scope N_scope.

Section with_hash.
Context (hash : bytes → N).

(** ** The store as a map *)

(** What a key is bound to: a value and a deadline. *)
Record binding := mkBinding { bd_value : CacheValueView; bd_deadline : option N }.

Definition slot_entry (slots : list EntrySlot) (s : N) : option Entry :=
  slots !! N.to_nat s ≫= sl_entry.
Definition live_hash (slots : list EntrySlot) (s : N) : option N := en_hash <$> slot_entry slots s.

Definition value_blocks (v : CacheValue) : list (N * N) :=
  match v with CInteger _ => [] | CBytes b => packed_blocks b end.
Definition value_ok (v : CacheValue) : Prop :=
  match v with CInteger _ => True | CBytes b => packed_ok b end.
Definition entry_blocks (e : Entry) : list (N * N) := packed_blocks (en_key e) ++ value_blocks (en_value e).
Definition slot_blocks (sl : EntrySlot) : list (N * N) := from_option entry_blocks [] (sl_entry sl).

(** The entry [e] stores the key [k] and the value [v]. *)
Record entry_repr (ar : ByteArena) (e : Entry) (k : bytes) (v : CacheValueView) : Prop := {
  er_key_ok : packed_ok (en_key e);
  er_key : PackedBytes_as_slice (en_key e) ar = Some k;
  er_hash : en_hash e = hash k;
  er_value_ok : value_ok (en_value e);
  er_value : CacheValue_view (en_value e) ar = Some v;
}.

(** The store represents the map [M] from keys to slots and bindings; [extra]
    are the arena blocks of a value that is packed but not yet stored. *)
Record store_ok (st : CacheStore) (extra : list (N * N)) (M : gmap bytes (N * binding)) : Prop := {
  so_arena : arena_ok (cs_arena st) ((cs_slots st ≫= slot_blocks) ++ extra);
  so_index : index_ok (cs_index st) (live_hash (cs_slots st));
  so_live_count : cs_index_len st = count Bucket_is_live (cs_index st);
  so_tomb_count : cs_tombstones st = count is_tombstone (cs_index st);
  so_load : (cs_index_len st + cs_tombstones st) * 10 < len (cs_index st) * 7;
  so_size : cs_index_len st = N.of_nat (size M);
  so_slots : len (cs_slots st) ≤ TOMBSTONE_SLOT;
  so_free_nodup : NoDup (cs_free_slots st);
  so_free : ∀ s, s ∈ cs_free_slots st → ∃ g, cs_slots st !! N.to_nat s = Some (mkEntrySlot g None);
  so_keys : ∀ k s b, M !! k = Some (s, b) →
    ∃ e, slot_entry (cs_slots st) s = Some e ∧ entry_repr (cs_arena st) e k (bd_value b) ∧ en_expires_at_ms e = bd_deadline b;
  so_entries : ∀ s e, slot_entry (cs_slots st) s = Some e → ∃ k b, M !! k = Some (s, b);
  so_wheel : wh_buckets (cs_expiry st) ≠ [];
}.

Lemma slot_entry_Some slots s e :
  slot_entry slots s = Some e ↔ ∃ g, slots !! N.to_nat s = Some (mkEntrySlot g (Some e)).
Proof.
  unfold slot_entry. rewrite bind_Some. split.
  - intros ([g e'] & Hs & He). simpl in He. subst. by exists g.
  - intros [g Hs]. by exists (mkEntrySlot g (Some e)).
Qed.

Lemma live_hash_Some slots s h :
  live_hash slots s = Some h ↔ ∃ e, slot_entry slots s = Some e ∧ en_hash e = h.
Proof. unfold live_hash. rewrite fmap_Some. naive_solver. Qed.

Lemma so_inj st ex M k1 k2 s b1 b2 :
  store_ok st ex M → M !! k1 = Some (s, b1) → M !! k2 = Some (s, b2) → k1 = k2.
Proof.
  intros Hok H1 H2. destruct (so_keys _ _ _ Hok _ _ _ H1) as (e1 & Hs1 & Hr1 & _).
  destruct (so_keys _ _ _ Hok _ _ _ H2) as (e2 & Hs2 & Hr2 & _).
  pose proof (er_key _ _ _ _ Hr1). pose proof (er_key _ _ _ _ Hr2). congruence.
Qed.

Lemma so_entry_key st ex M s e :
  store_ok st ex M → slot_entry (cs_slots st) s = Some e →
  ∃ k b, M !! k = Some (s, b) ∧ entry_repr (cs_arena st) e k (bd_value b) ∧ en_expires_at_ms e = bd_deadline b.
Proof.
  intros Hok Hs. destruct (so_entries _ _ _ Hok _ _ Hs) as (k & b & Hk).
  destruct (so_keys _ _ _ Hok _ _ _ Hk) as (e' & Hs' & Hr & Hd). exists k, b.
  assert (e' = e) as -> by congruence. done.
Qed.

Lemma find_slot_ok st ex M key :
  store_ok st ex M → CacheStore_find_slot st key (hash key) = Some (fst <$> M !! key).
Proof.
  intros Hok. unfold CacheStore_find_slot.
  eapply (probe_find_spec _ (live_hash (cs_slots st)) _ _ _ _ 0); [apply Hok| | | |unfold len; lia|lia].
  - intros s (e & Hs & Hh)%live_hash_Some.
    destruct (so_entry_key _ _ _ _ _ Hok Hs) as (k & b & Hk & Hr & _).
    apply slot_entry_Some in Hs as [g Hsl]. unfold slot_has_key. rewrite Hsl. simpl.
    rewrite (er_key _ _ _ _ Hr). simpl. f_equal. apply bool_decide_ext. split.
    + intros ->. by rewrite Hk.
    + intros ([s' b'] & Hk' & Heq)%fmap_Some. simpl in Heq. subst s'. by eapply so_inj.
  - intros s ([s' b] & Hk & Heq)%fmap_Some. simpl in Heq. subst s'.
    destruct (so_keys _ _ _ Hok _ _ _ Hk) as (e & Hs & Hr & _). apply live_hash_Some.
    exists e. split; [done|]. apply Hr.
  - apply home_pos, (ix_size _ _ (so_index _ _ _ Hok)).
Qed.

(** ** Blocks of a slot table *)

Lemma bind_insert_perm {A B} (f : A → list B) l i x :
  l !! i = Some x →
  ∃ rest, l ≫= f ≡ₚ f x ++ rest ∧ ∀ y, <[i := y]> l ≫= f ≡ₚ f y ++ rest.
Proof.
  intros Hi. pose proof (lookup_lt_Some _ _ _ Hi) as Hlt.
  exists ((take i l ≫= f) ++ (drop (S i) l ≫= f)).
  assert (∀ z, (take i l ++ z :: drop (S i) l) ≫= f ≡ₚ f z ++ (take i l ≫= f) ++ (drop (S i) l ≫= f)) as H.
  { intros z. rewrite bind_app, bind_cons, (assoc_L (++)), (Permutation_app_comm (take i l ≫= f)).
    by rewrite <- (assoc_L (++)). }
  split; [|intros y; rewrite insert_take_drop by done; apply H].
  rewrite <- (take_drop_middle l i x Hi) at 1. apply H.
Qed.

Lemma entry_repr_preserves ar ar' held e k v :
  entry_repr ar e k v → preserves held ar ar' → entry_blocks e ⊆ held → entry_repr ar' e k v.
Proof.
  intros [Hko Hk Hh Hvo Hv] Hp Hsub. unfold entry_blocks in Hsub. split; try done.
  - apply Hp; [done| |done]. intros b Hb. apply Hsub, elem_of_app. by left.
  - destruct (en_value e) as [z|b]; simpl in *; [done|].
    destruct (PackedBytes_as_slice b ar) as [bs|] eqn:Hb; [|done]. simpl in Hv.
    rewrite (Hp b bs); [done|done| |done]. intros c Hc. apply Hsub, elem_of_app. by right.
Qed.

Lemma entry_blocks_in slots s e :
  slot_entry slots s = Some e → entry_blocks e ⊆ slots ≫= slot_blocks.
Proof.
  intros [g Hs]%slot_entry_Some b Hb. apply list_elem_of_bind. exists (mkEntrySlot g (Some e)).
  split; [done|]. by eapply list_elem_of_lookup_2.
Qed.

(** A slot that is rewritten, seen from the other slots. *)
Lemma slot_entry_insert slots s sl sl' s' :
  slots !! N.to_nat s = Some sl →
  slot_entry (<[N.to_nat s := sl']> slots) s' = if decide (s' = s) then sl_entry sl' else slot_entry slots s'.
Proof.
  intros Hs. unfold slot_entry. case_decide as Heq.
  - subst s'. rewrite list_lookup_insert_eq; [done|]. by eapply lookup_lt_Some.
  - rewrite list_lookup_insert_ne; [done|]. lia.
Qed.

(** ** Removing an entry *)

(** What an operation may do to the arena and the slot table. *)
Record grows (st st' : CacheStore) (cost slots : N) : Prop := {
  gr_arena : len (ba_bytes (cs_arena st')) ≤ len (ba_bytes (cs_arena st)) + cost;
  gr_slots : len (cs_slots st') ≤ len (cs_slots st) + slots;
}.

Lemma len_insert {A} (l : list A) i x : len (<[i := x]> l) = len l.
Proof. unfold len. by rewrite length_insert. Qed.

Lemma remove_bucket_ok st ex M s e :
  store_ok st ex M → slot_entry (cs_slots st) s = Some e →
  ∃ idx, index_ok (<[N.to_nat idx := Bucket_TOMBSTONE]> (cs_index st)) (<[s := None]> (live_hash (cs_slots st))) ∧
    cs_index_len st ≠ 0 ∧
    count Bucket_is_live (<[N.to_nat idx := Bucket_TOMBSTONE]> (cs_index st)) = cs_index_len st - 1 ∧
    count is_tombstone (<[N.to_nat idx := Bucket_TOMBSTONE]> (cs_index st)) = cs_tombstones st + 1 ∧
    ∀ st1, cs_index st1 = cs_index st → cs_index_len st1 = cs_index_len st →
      cs_tombstones st1 = cs_tombstones st →
      CacheStore_remove_bucket st1 (en_hash e) s =
        Some (set_index st1 (<[N.to_nat idx := Bucket_TOMBSTONE]> (cs_index st))
                (cs_index_len st - 1) (cs_tombstones st + 1)).
Proof.
  intros Hok Hs. pose proof (so_index _ _ _ Hok) as Hix.
  assert (live_hash (cs_slots st) s = Some (en_hash e)) as Hlive by (apply live_hash_Some; by exists e).
  destruct (probe_remove_spec _ _ (en_hash e) s (length (cs_index st)) 0
    (home (cs_index st) (en_hash e)) Hix Hlive) as (idx & Hprobe & Hidx).
  { apply home_pos, Hix. } { unfold len. lia. } { lia. }
  assert (s < TOMBSTONE_SLOT) as Hlt by (by eapply (ix_slots _ _ Hix)).
  pose proof (count_insert Bucket_is_live _ _ Bucket_TOMBSTONE _ Hidx) as Hcl.
  pose proof (count_insert is_tombstone _ _ Bucket_TOMBSTONE _ Hidx) as Hct.
  rewrite is_live_slot in Hcl by done.
  assert (is_tombstone (mkBucket (en_hash e) s) = false) as Hnt.
  { apply N.eqb_neq. simpl. lia. }
  rewrite Hnt in Hct. change (N.b2n (is_tombstone Bucket_TOMBSTONE)) with 1 in Hct.
  change (N.b2n (Bucket_is_live Bucket_TOMBSTONE)) with 0 in Hcl. simpl in Hcl, Hct.
  rewrite <- (so_live_count _ _ _ Hok) in Hcl. rewrite <- (so_tomb_count _ _ _ Hok) in Hct.
  exists idx. split_and!; [by eapply index_ok_remove|lia|lia|lia|].
  intros st1 H1 H2 H3. unfold CacheStore_remove_bucket. rewrite H1, Hprobe. simpl.
  unfold checked_pred. rewrite H2, (proj2 (N.eqb_neq _ _)) by lia. simpl. by rewrite H3.
Qed.

Lemma CacheValue_release_ok v ar held :
  arena_ok ar (value_blocks v ++ held) → value_ok v →
  ∃ ar', CacheValue_release v ar = Some ar' ∧ arena_ok ar' held ∧ ba_bytes ar' = ba_bytes ar.
Proof.
  destruct v as [z|b]; simpl; [by exists ar|]. apply PackedBytes_release_ok.
Qed.

Lemma remove_slot_ok st ex M k s b :
  store_ok st ex M → M !! k = Some (s, b) →
  ∃ st', CacheStore_remove_slot st s = Some (true, st') ∧ store_ok st' ex (delete k M) ∧ grows st st' 0 0.
Proof.
  intros Hok Hk. destruct (so_keys _ _ _ Hok _ _ _ Hk) as (e & Hs & Hr & Hd).
  destruct (remove_bucket_ok _ _ _ _ _ Hok Hs) as (idx & Hix & Hne & Hcl & Hct & Hrem).
  pose proof Hs as [g Hsl]%slot_entry_Some. unfold CacheStore_remove_slot. rewrite Hsl. simpl.
  rewrite Hrem by done. simpl.
  destruct (bind_insert_perm slot_blocks _ _ _ Hsl) as (rest & Hold & Hnew).
  pose proof (so_arena _ _ _ Hok) as Har. rewrite Hold in Har.
  change (slot_blocks (mkEntrySlot g (Some e))) with (packed_blocks (en_key e) ++ value_blocks (en_value e)) in Har.
  rewrite <- !(assoc_L (++)) in Har.
  destruct (PackedBytes_release_ok _ _ _ Har) as (ar1 & -> & Har1 & Hb1); [apply Hr|]. simpl.
  destruct (CacheValue_release_ok _ _ _ Har1) as (ar2 & -> & Har2 & Hb2); [apply Hr|]. simpl.
  eexists. split; [done|]. rewrite Hb1 in Hb2. split.
  2: { split; simpl; [rewrite Hb2; lia|rewrite len_insert; lia]. }
  pose proof (λ s', slot_entry_insert _ _ _ (mkEntrySlot g None) s' Hsl) as Hentry. simpl in Hentry.
  assert (∀ b', b' ∈ cs_free_slots st → b' ≠ s) as Hfree.
  { intros b' Hb' ->. destruct (so_free _ _ _ Hok _ Hb') as [g' Hg']. congruence. }
  destruct Hok as [_ _ _ _ Hload Hsize Hslots Hfn Hfs Hkeys Hents Hwh].
  split; simpl; try done.
  - by rewrite Hnew.
  - eapply index_ok_ext; [|exact Hix]. intros s'. unfold live_hash at 2.
    rewrite Hentry. case_decide as Heq; [subst; by rewrite fn_lookup_insert|].
    by rewrite fn_lookup_insert_ne.
  - rewrite len_insert. lia.
  - rewrite map_size_delete, Hk. lia.
  - by rewrite len_insert.
  - apply NoDup_app. split_and!; [done| |apply NoDup_singleton].
    intros b' Hb' ->%list_elem_of_singleton. by apply (Hfree s).
  - intros s' [Hs'| ->%list_elem_of_singleton]%elem_of_app.
    + destruct (Hfs s' Hs') as [g' Hg']. exists g'. rewrite list_lookup_insert_ne; [done|].
      specialize (Hfree s' Hs'). lia.
    + exists g. apply list_lookup_insert_eq. by eapply lookup_lt_Some.
  - intros k' s' b' [Hne' Hk']%lookup_delete_Some. destruct (Hkeys _ _ _ Hk') as (e' & Hs' & Hr' & Hd').
    exists e'. split_and!; [|by eapply entry_repr_preserves, reflexivity; [|by apply preserves_refl]|done].
    rewrite Hentry. case_decide as Heq; [|done]. subst s'. exfalso.
    pose proof (er_key _ _ _ _ Hr). pose proof (er_key _ _ _ _ Hr'). congruence.
  - intros s' e' Hs'.
    rewrite Hentry in Hs'. case_decide as Heq; [done|]. destruct (Hents s' e' Hs') as (k' & b' & Hk').
    exists k', b'. rewrite lookup_delete_ne; [done|]. intros ->. congruence.
Qed.

(** ** Rewriting an entry *)

(** The entry of a bound key is replaced by one with the same key. *)
Lemma update_entry_ok st ex ex' M k s b b' g sl e' ar' :
  store_ok st ex M → M !! k = Some (s, b) → cs_slots st !! N.to_nat s = Some sl →
  arena_ok ar' ((<[N.to_nat s := mkEntrySlot g (Some e')]> (cs_slots st) ≫= slot_blocks) ++ ex') →
  ba_bytes ar' = ba_bytes (cs_arena st) →
  entry_repr ar' e' k (bd_value b') → en_expires_at_ms e' = bd_deadline b' →
  store_ok (set_slots (set_arena st ar')
    (<[N.to_nat s := mkEntrySlot g (Some e')]> (cs_slots st)) (cs_free_slots st)) ex' (<[k := (s, b')]> M).
Proof.
  intros Hok Hk Hsl Har Hbytes Hr' Hd'.
  destruct (so_keys _ _ _ Hok _ _ _ Hk) as (e & Hs & Hr & Hd).
  pose proof (λ s', slot_entry_insert _ _ _ (mkEntrySlot g (Some e')) s' Hsl) as Hentry. simpl in Hentry.
  assert (∀ f, f ∈ cs_free_slots st → f ≠ s) as Hfree.
  { intros f Hf ->. destruct (so_free _ _ _ Hok _ Hf) as [g' Hg'].
    unfold slot_entry in Hs. by rewrite Hg' in Hs. }
  pose proof (λ k1 b1, so_inj _ _ _ k1 k s b1 b Hok) as Hinj.
  destruct Hok as [_ Hix Hlc Htc Hload Hsize Hslots Hfn Hfs Hkeys Hents Hwh].
  split; simpl; try done.
  - eapply index_ok_ext; [|exact Hix]. intros s'. unfold live_hash. rewrite Hentry.
    case_decide as Heq; [|done]. subst s'. rewrite Hs. simpl. f_equal.
    rewrite (er_hash _ _ _ _ Hr), (er_hash _ _ _ _ Hr'). done.
  - rewrite Hsize, map_size_insert_Some by done. done.
  - by rewrite len_insert.
  - intros f Hf. destruct (Hfs f Hf) as [g' Hg']. exists g'.
    rewrite list_lookup_insert_ne; [done|]. specialize (Hfree f Hf). lia.
  - intros k1 s1 b1 Hk1. apply lookup_insert_Some in Hk1 as [[<- [= <- <-]]|[Hne Hk1]].
    + exists e'. rewrite Hentry. by rewrite decide_True.
    + destruct (Hkeys _ _ _ Hk1) as (e1 & Hs1 & Hr1 & Hd1). exists e1. rewrite Hentry.
      rewrite decide_False by (intros ->; apply Hne; symmetry; by eapply Hinj).
      split_and!; [done| |done]. eapply entry_repr_preserves; [done|by apply preserves_refl|done].
  - intros s1 e1 Hs1. rewrite Hentry in Hs1. case_decide as Heq.
    + subst s1. exists k, b'. by rewrite lookup_insert_eq.
    + destruct (Hents s1 e1 Hs1) as (k1 & b1 & Hk1). exists k1, b1. rewrite lookup_insert_ne; [done|].
      intros ->. congruence.
Qed.

(** ** Adding an entry *)

Lemma rehash_store_ok st ex M nc :
  store_ok st ex M → cs_index_len st * 10 < nc * 7 →
  ∃ index, CacheStore_rehash st nc = Some (set_index st index (cs_index_len st) 0) ∧
    store_ok (set_index st index (cs_index_len st) 0) ex M ∧ len index = rehash_capacity nc.
Proof.
  intros Hok Hnc. destruct (rehash_capacity_ok nc) as (e & _ & _ & Hle & _).
  pose proof (so_live_count _ _ _ Hok) as Hlc.
  destruct (rehash_ok _ _ nc (so_index _ _ _ Hok)) as (index & Hre & Hix & Hlen & Ht & Hl); [lia|].
  exists index. unfold CacheStore_rehash. rewrite Hre. simpl. split_and!; [done| |done].
  destruct Hok. split; simpl; try done; [by rewrite Hl|lia].
Qed.

(** After [ensure_index_capacity] there is room for one more bucket. *)
Lemma ensure_index_capacity_ok st ex M :
  store_ok st ex M →
  ∃ st', CacheStore_ensure_index_capacity st = Some st' ∧ store_ok st' ex M ∧
    (cs_index_len st' + cs_tombstones st' + 1) * 10 < len (cs_index st') * 7 ∧
    st' = set_index st (cs_index st') (cs_index_len st) (cs_tombstones st').
Proof.
  intros Hok. unfold CacheStore_ensure_index_capacity.
  assert (∃ st1, (if (cs_index_len st <? cs_tombstones st) && (32 <? cs_tombstones st)
                  then CacheStore_rehash st (len (cs_index st)) else Some st) = Some st1 ∧
                 store_ok st1 ex M ∧
                 st1 = set_index st (cs_index st1) (cs_index_len st) (cs_tombstones st1))
    as (st1 & -> & Hok1 & Hst1).
  { case_if.
    - pose proof (so_load _ _ _ Hok).
      destruct (rehash_store_ok st ex M (len (cs_index st)) Hok) as (ix & Hre & Hok1 & _); [lia|].
      by eexists.
    - exists st. split_and!; [done|done|]. by destruct st. }
  simpl. pose proof (so_load _ _ _ Hok1) as Hload.
  assert (cs_index_len st1 = cs_index_len st) as Hil by (by rewrite Hst1).
  case_if.
  - pose proof (size_ok_ge _ (ix_size _ _ (so_index _ _ _ Hok1))).
    destruct (rehash_store_ok st1 ex M (len (cs_index st1) * 2) Hok1) as (ix & Hre & Hok2 & Hlen); [lia|].
    destruct (rehash_capacity_ok (len (cs_index st1) * 2)) as (e & _ & _ & Hle & _).
    eexists. split_and!; [exact Hre|exact Hok2|simpl; lia|simpl]. rewrite Hst1. done.
  - exists st1. split_and!; [done|done|lia|done].
Qed.

(** A free slot, or a new one at the end of the table. *)
Lemma allocate_slot_ok st ex M e ar :
  store_ok st ex M → len (cs_slots st) < TOMBSTONE_SLOT →
  ∃ s g slots free,
    CacheStore_allocate_slot (set_arena st ar) e = Some (s, g, set_slots (set_arena st ar) slots free) ∧
    slots !! N.to_nat s = Some (mkEntrySlot g (Some e)) ∧
    slot_entry (cs_slots st) s = None ∧ s < TOMBSTONE_SLOT ∧
    (∀ s', slot_entry slots s' = if decide (s' = s) then Some e else slot_entry (cs_slots st) s') ∧
    slots ≫= slot_blocks ≡ₚ entry_blocks e ++ (cs_slots st ≫= slot_blocks) ∧
    NoDup free ∧ (∀ f, f ∈ free → ∃ g, slots !! N.to_nat f = Some (mkEntrySlot g None)) ∧
    len slots ≤ len (cs_slots st) + 1 ∧ len slots ≤ TOMBSTONE_SLOT.
Proof.
  intros Hok Hroom. unfold CacheStore_allocate_slot. simpl.
  pose proof (so_free _ _ _ Hok) as Hfs. pose proof (so_free_nodup _ _ _ Hok) as Hfn.
  destruct (vec_pop (cs_free_slots st)) as [[s free]|] eqn:Hpop.
  - apply vec_pop_Some in Hpop. rewrite Hpop in Hfs, Hfn.
    destruct (Hfs s) as [g0 Hs]; [apply elem_of_app; right; by left|]. rewrite Hs. simpl.
    eexists s, _, _, _. split; [done|].
    destruct (bind_insert_perm slot_blocks _ _ _ Hs) as (rest & Hold & Hnew).
    apply NoDup_app in Hfn as (Hnd & Hdisj & _). pose proof (lookup_lt_Some _ _ _ Hs) as Hlt.
    split_and!.
    + by apply list_lookup_insert_eq.
    + unfold slot_entry. by rewrite Hs.
    + unfold len in *. lia.
    + intros s'. by rewrite (slot_entry_insert _ _ _ _ _ Hs).
    + rewrite Hnew, Hold. done.
    + done.
    + intros f Hf. destruct (Hfs f) as [g Hg]; [apply elem_of_app; by left|]. exists g.
      rewrite list_lookup_insert_ne; [done|]. intros Heq. apply N2Nat.inj in Heq as <-.
      apply (Hdisj s Hf). by left.
    + rewrite len_insert. lia.
    + rewrite len_insert. apply Hok.
  - apply vec_pop_None in Hpop. rewrite Hpop.
    rewrite as_u32_small by (eapply N.lt_trans; [exact Hroom|done]).
    assert (cs_slots st !! N.to_nat (len (cs_slots st)) = None) as Hnone.
    { apply lookup_ge_None. unfold len. lia. }
    eexists _, _, _, _. split; [done|]. split_and!.
    + unfold len. rewrite Nat2N.id. by apply list_lookup_middle.
    + unfold slot_entry. by rewrite Hnone.
    + done.
    + intros s'. unfold slot_entry. case_decide as Heq.
      * subst s'. unfold len. rewrite Nat2N.id. by rewrite list_lookup_middle.
      * destruct (decide (N.to_nat s' < length (cs_slots st))%nat).
        -- by rewrite lookup_app_l.
        -- rewrite (lookup_ge_None_2 (cs_slots st)) by lia. rewrite lookup_ge_None_2; [done|].
           rewrite length_app. simpl. unfold len in Heq. lia.
    + rewrite bind_app. simpl. rewrite app_nil_r. apply Permutation_app_comm.
    + constructor.
    + intros f Hf. by apply elem_of_nil in Hf.
    + rewrite len_app, len_cons, len_nil. lia.
    + rewrite len_app, len_cons, len_nil. lia.
Qed.

(** The new entry of an unbound key, once there is room in the index. *)
Lemma add_entry_ok st ex ex' M key e ar b :
  store_ok st ex M → M !! key = None → len (cs_slots st) < TOMBSTONE_SLOT →
  (cs_index_len st + cs_tombstones st + 1) * 10 < len (cs_index st) * 7 →
  arena_ok ar (entry_blocks e ++ (cs_slots st ≫= slot_blocks) ++ ex') →
  preserves (cs_slots st ≫= slot_blocks) (cs_arena st) ar →
  entry_repr ar e key (bd_value b) → en_expires_at_ms e = bd_deadline b →
  ∃ s g st1 st2, CacheStore_allocate_slot (set_arena st ar) e = Some (s, g, st1) ∧
    CacheStore_insert_bucket_raw st1 (en_hash e) s = Some st2 ∧
    cs_slots st2 !! N.to_nat s = Some (mkEntrySlot g (Some e)) ∧
    store_ok (set_index st2 (cs_index st2) (cs_index_len st2 + 1) (cs_tombstones st2)) ex'
      (<[key := (s, b)]> M) ∧
    cs_arena st2 = ar ∧ cs_expiry st2 = cs_expiry st ∧ len (cs_slots st2) ≤ len (cs_slots st) + 1.
Proof.
  intros Hok Hk Hroom Hload Har Hpres Hr Hd.
  destruct (allocate_slot_ok st ex M e ar Hok Hroom)
    as (s & g & slots & free & Halloc & Hs & Hnone & Hlt & Hentry & Hblocks & Hnd & Hfree & Hgrow & Hmax).
  pose proof (so_live_count _ _ _ Hok) as Hlc.
  destruct (insert_bucket_ok (cs_index st) (live_hash (cs_slots st)) (cs_tombstones st) (en_hash e) s)
    as (index & tombs & Hins & Hix & Hlen & Htombs & Hlive & Hle).
  { apply Hok. } { unfold live_hash. by rewrite Hnone. } { done. } { apply Hok. } { lia. }
  eexists s, g, _, _. split; [done|]. unfold CacheStore_insert_bucket_raw. simpl. rewrite Hins. simpl.
  split; [done|]. split; [done|]. split; [|done].
  destruct Hok as [_ _ _ _ _ Hsize _ _ _ Hkeys Hents Hwh]. split; simpl; try done.
  - by rewrite Hblocks, <- (assoc_L (++)).
  - eapply index_ok_ext; [|exact Hix]. intros s'. unfold live_hash. rewrite Hentry.
    case_decide as Heq; [subst; by rewrite fn_lookup_insert|by rewrite fn_lookup_insert_ne].
  - lia.
  - lia.
  - rewrite map_size_insert_None by done. lia.
  - intros k1 s1 b1 Hk1. apply lookup_insert_Some in Hk1 as [[<- [= <- <-]]|[Hne Hk1]].
    + exists e. rewrite Hentry. by rewrite decide_True.
    + destruct (Hkeys _ _ _ Hk1) as (e1 & Hs1 & Hr1 & Hd1). exists e1. rewrite Hentry.
      rewrite decide_False by (intros ->; congruence).
      split_and!; [done| |done]. eapply entry_repr_preserves; [done|exact Hpres|].
      by eapply entry_blocks_in.
  - intros s1 e1 Hs1. rewrite Hentry in Hs1. case_decide as Heq.
    + subst s1. exists key, b. by rewrite lookup_insert_eq.
    + destruct (Hents s1 e1 Hs1) as (k1 & b1 & Hk1). exists k1, b1. rewrite lookup_insert_ne; [done|].
      intros ->. congruence.
Qed.

(** ** Storing a value *)

Lemma schedule_expiry_ok st ex M s g d now :
  store_ok st ex M →
  ∃ st', schedule_expiry st s g d now = Some st' ∧ store_ok st' ex M ∧
    st' = set_expiry st (cs_expiry st').
Proof.
  intros Hok. unfold schedule_expiry. destruct d as [d|].
  2: { exists st. split_and!; [done|done|]. by destruct st. }
  unfold ExpirationWheel_schedule. simpl.
  pose proof (so_wheel _ _ _ Hok) as Hwh.
  destruct (lookup_lt_is_Some_2 (wh_buckets (cs_expiry st))
    (N.to_nat ((d / wh_tick_ms (cs_expiry st)) mod len (wh_buckets (cs_expiry st))))) as [items Hi].
  { assert (len (wh_buckets (cs_expiry st)) ≠ 0) as Hne.
    { unfold len. by destruct (wh_buckets (cs_expiry st)). }
    pose proof (N.mod_lt (d / wh_tick_ms (cs_expiry st)) _ Hne). unfold len in *. lia. }
  rewrite Hi. simpl. eexists. split; [done|]. split; [|done].
  destruct Hok. split; simpl; try done. intros Hnil. apply Hwh.
  apply (f_equal length) in Hnil. rewrite length_insert in Hnil. by apply nil_length_inv.
Qed.

Lemma store_ok_stats st ex M s : store_ok st ex M → store_ok (set_stats st s) ex M.
Proof. intros []. by split. Qed.

Lemma store_ok_extra st ex ex' M : ex ≡ₚ ex' → store_ok st ex M → store_ok st ex' M.
Proof. intros Hp []. split; try done. by rewrite <- Hp. Qed.

(** The old value of an entry is released, a packed one takes its place. *)
Lemma replace_value_ok st ex M key s b e g g' value v d :
  store_ok st (value_blocks value ++ ex) M → M !! key = Some (s, b) →
  cs_slots st !! N.to_nat s = Some (mkEntrySlot g (Some e)) → value_ok value →
  CacheValue_view value (cs_arena st) = Some v →
  ∃ ar, CacheValue_release (en_value e) (cs_arena st) = Some ar ∧
    ba_bytes ar = ba_bytes (cs_arena st) ∧
    store_ok (set_slots (set_arena st ar)
      (<[N.to_nat s := mkEntrySlot g' (Some (mkEntry (en_hash e) (en_key e) value d))]> (cs_slots st))
      (cs_free_slots st)) ex (<[key := (s, mkBinding v d)]> M).
Proof.
  intros Hok Hk Hsl Hvo Hv. destruct (so_keys _ _ _ Hok _ _ _ Hk) as (e0 & Hs & Hr & Hd).
  assert (e0 = e) as -> by (unfold slot_entry in Hs; rewrite Hsl in Hs; by injection Hs).
  destruct (bind_insert_perm slot_blocks _ _ _ Hsl) as (rest & Hold & Hnew).
  pose proof (so_arena _ _ _ Hok) as Har. rewrite Hold in Har.
  assert (slot_blocks (mkEntrySlot g (Some e)) = packed_blocks (en_key e) ++ value_blocks (en_value e))
    as Heq by done.
  assert (slot_blocks (mkEntrySlot g (Some e)) ++ rest ++ value_blocks value ++ ex ≡ₚ
    value_blocks (en_value e) ++ (packed_blocks (en_key e) ++ value_blocks value) ++ rest ++ ex) as Hp
    by (rewrite Heq; clear; solve_Permutation).
  rewrite <- (assoc_L (++)), Hp in Har.
  destruct (CacheValue_release_ok _ _ _ Har) as (ar & Hrel & Har' & Hbytes); [apply Hr|].
  exists ar. split_and!; [done|done|]. eapply update_entry_ok; [done..| |done| |done].
  - rewrite Hnew, <- (assoc_L (++)). exact Har'.
  - destruct Hr as [Hko Hkey Hh _ _]. assert (preserves [] (cs_arena st) ar) as Hpres
      by (by apply preserves_refl). split; simpl; try done.
    + destruct (en_key e); simpl in *; [done|]. unfold ByteArena_get. by rewrite Hbytes.
    + destruct value as [z|pk]; simpl in *; [done|]. destruct pk; simpl in *; [done|].
      unfold ByteArena_get. by rewrite Hbytes.
Qed.

(** [set_value] binds the key, whatever was bound to it before; [value] is a
    value packed in the store's arena. *)
Lemma set_value_ok st ex M key value v ttl now :
  store_ok st (value_blocks value ++ ex) M → value_ok value →
  CacheValue_view value (cs_arena st) = Some v →
  len key ≤ 2 ^ MAX_ARENA_EXP → len (ba_bytes (cs_arena st)) + arena_cost (len key) < U32 →
  len (cs_slots st) < TOMBSTONE_SLOT →
  ∃ st' s, CacheStore_set_value hash st key value ttl now = Some st' ∧
    store_ok st' ex (<[key := (s, mkBinding v (saturating_add64 now <$> ttl))]> M) ∧
    grows st st' (arena_cost (len key)) 1.
Proof.
  intros Hok Hvo Hv Hlen Hbytes Hslots. unfold CacheStore_set_value. cbn zeta.
  rewrite (find_slot_ok _ _ _ key Hok). simpl.
  set (d := saturating_add64 now <$> ttl). destruct (M !! key) as [[s b0]|] eqn:Hk; simpl.
  - destruct (so_keys _ _ _ Hok _ _ _ Hk) as (e & Hs & _). pose proof Hs as [g Hsl]%slot_entry_Some.
    rewrite Hsl. simpl.
    destruct (replace_value_ok _ _ _ _ _ _ _ _ (next_generation g) value v d Hok Hk Hsl Hvo Hv)
      as (ar & Hrel & Hb & Hok1). rewrite Hrel. simpl.
    edestruct (schedule_expiry_ok _ _ _ s (next_generation g) d now Hok1) as (st2 & Hsch & Hok2 & Heq).
    rewrite Hsch. simpl. eexists _, s. split; [done|]. split; [by apply store_ok_stats|].
    rewrite Heq. split; simpl; [rewrite Hb; lia|rewrite len_insert; lia].
  - destruct (ensure_index_capacity_ok _ _ _ Hok) as (st1 & Hens & Hok1 & Hroom & Heq1).
    rewrite Hens. simpl.
    assert (cs_arena st1 = cs_arena st ∧ cs_slots st1 = cs_slots st) as [Ha1 Hs1] by (by rewrite Heq1).
    destruct (pack_ok key (cs_arena st1) _ (so_arena _ _ _ Hok1))
      as (pk & ar & Hpack & Har & Hpk & Hread & Hpres & Hcost); [done|by rewrite Ha1|].
    rewrite Hpack. simpl. set (e := mkEntry (hash key) pk value d).
    destruct (add_entry_ok st1 _ ex M key e ar (mkBinding v d) Hok1 Hk)
      as (s & g & st2 & st3 & Halloc & Hins & Hsl & Hok3 & Har3 & Hex3 & Hgrow); [by rewrite Hs1|done|..].
    { unfold entry_blocks. simpl. eapply arena_ok_perm; [|exact Har]. clear. solve_Permutation. }
    { eapply preserves_mono; [|exact Hpres]. intros x Hx. apply elem_of_app. by left. }
    { split; simpl; try done. destruct value as [z|vk]; simpl in *; [done|].
      destruct (PackedBytes_as_slice vk (cs_arena st)) as [bs|] eqn:Hbs; [|done]. simpl in Hv.
      rewrite (Hpres vk bs); [done|done| |by rewrite Ha1].
      intros x Hx. apply elem_of_app. right. apply elem_of_app. by left. }
    { done. }
    rewrite Halloc. simpl. change (hash key) with (en_hash e). rewrite Hins. simpl.
    edestruct (schedule_expiry_ok _ _ _ s g d now Hok3) as (st4 & Hsch & Hok4 & Heq4).
    rewrite Hsch. simpl. eexists _, s. split; [done|]. split; [by apply store_ok_stats|].
    rewrite Heq4. split; simpl; [rewrite Har3, <- Ha1; lia|rewrite <- Hs1; lia].
Qed.

(** ** The abstract cache *)

(** The bindings of a represented map. *)
Definition bd_of (M : gmap bytes (N * binding)) : gmap bytes binding := snd <$> M.

Definition expired (now : N) (b : binding) : bool :=
  match bd_deadline b with Some d => d <=? now | None => false end.

(** Reading a key drops it when its deadline has passed. *)
Definition reap (key : bytes) (now : N) (m : gmap bytes binding) : gmap bytes binding :=
  match m !! key with
  | Some b => if expired now b then delete key m else m
  | None => m
  end.

Definition view_integer (v : CacheValueView) : result Z CacheIncrementError :=
  match v with
  | ViewInteger z => Ok z
  | ViewBytes raw => ok_or (from_utf8 raw ≫= parse_i64) NotInteger
  end.

Lemma live_slot_id_ok st M key now :
  store_ok st [] M →
  ∃ st' M', CacheStore_live_slot_id hash st key now = Some (fst <$> M' !! key, st') ∧
    store_ok st' [] M' ∧ grows st st' 0 0 ∧ bd_of M' = reap key now (bd_of M) ∧
    (∀ s b, M' !! key = Some (s, b) → expired now b = false).
Proof.
  intros Hok. unfold CacheStore_live_slot_id. rewrite (find_slot_ok _ _ _ key Hok). simpl.
  unfold reap, bd_of. rewrite lookup_fmap. destruct (M !! key) as [[s b]|] eqn:Hk; simpl.
  - destruct (so_keys _ _ _ Hok _ _ _ Hk) as (e & Hs & Hr & Hd). pose proof Hs as [g Hsl]%slot_entry_Some.
    rewrite Hsl. simpl. rewrite Hd. fold (expired now b). destruct (expired now b) eqn:Hexp.
    + destruct (remove_slot_ok _ _ _ _ _ _ Hok Hk) as (st' & -> & Hok' & Hgr). simpl.
      exists (count_expiration st'), (delete key M). rewrite lookup_delete_eq.
      split_and!; [done|by apply store_ok_stats|by destruct Hgr; split|by rewrite fmap_delete|done].
    + exists st, M. rewrite Hk. split_and!; [done|done|split; lia|done|]. by intros ?? [= <- <-].
  - exists st, M. rewrite Hk. split_and!; [done|done|split; lia|done|done].
Qed.

(** ** Operations and their specification *)

Inductive cache_op :=
  | OSetBytes (key value : bytes) (ttl : option N)
  | OSetInteger (key : bytes) (value : Z) (ttl : option N)
  | OGet (key : bytes)
  | OExists (key : bytes)
  | ODelete (key : bytes)
  | ODeleteAt (key : bytes)
  | OExpire (key : bytes) (ttl : N)
  | OTtl (key : bytes)
  | OIncrement (key : bytes) (delta : Z)
  | OPurge (max_items : N)
  | OLen.

Inductive cache_out :=
  | RUnit
  | RView (v : option CacheValueView)
  | RBool (b : bool)
  | RTtl (t : CacheTtl)
  | RInteger (r : result Z CacheIncrementError)
  | RCount (n : N).

(** The store's answer to an operation at time [now]. *)
Definition exec (now : N) (op : cache_op) (st : CacheStore) : option (cache_out * CacheStore) :=
  match op with
  | OSetBytes k v ttl => st ← CacheStore_set_bytes hash st k v ttl now; Some (RUnit, st)
  | OSetInteger k z ttl => st ← CacheStore_set_integer hash st k z ttl now; Some (RUnit, st)
  | OGet k => '(r, st) ← CacheStore_get hash st k now; Some (RView r, st)
  | OExists k => '(r, st) ← CacheStore_exists hash st k now; Some (RBool r, st)
  | ODelete k => '(r, st) ← CacheStore_delete hash st k; Some (RBool r, st)
  | ODeleteAt k => '(r, st) ← CacheStore_delete_at hash st k now; Some (RBool r, st)
  | OExpire k ttl => '(r, st) ← CacheStore_expire_ms hash st k ttl now; Some (RBool r, st)
  | OTtl k => '(r, st) ← CacheStore_ttl hash st k now; Some (RTtl r, st)
  | OIncrement k d => '(r, st) ← CacheStore_increment hash st k d now; Some (RInteger r, st)
  | OPurge n => '(r, st) ← CacheStore_purge_expired st now n; Some (RCount r, st)
  | OLen => Some (RCount (CacheStore_len st), st)
  end.

Definition spec_increment (now : N) (key : bytes) (d : Z) (m : gmap bytes binding)
    : cache_out * gmap bytes binding :=
  match m !! key with
  | None => (RInteger (Ok d), <[key := mkBinding (ViewInteger d) None]> m)
  | Some b =>
      match (let? z := view_integer (bd_value b) in ok_or (checked_add_i64 z d) IncOverflow) with
      | Ok z => (RInteger (Ok z), <[key := mkBinding (ViewInteger z) (bd_deadline b)]> m)
      | Err e => (RInteger (Err e), m)
      end
  end.

Definition spec_expire (now ttl : N) (key : bytes) (m : gmap bytes binding)
    : cache_out * gmap bytes binding :=
  match m !! key with
  | None => (RBool false, m)
  | Some b =>
      if ttl =? 0 then (RBool true, delete key m)
      else (RBool true, <[key := mkBinding (bd_value b) (Some (saturating_add64 now ttl))]> m)
  end.

Definition spec_ttl (now : N) (b : option binding) : CacheTtl :=
  match b with
  | None => TtlMissing
  | Some b => match bd_deadline b with Some d => TtlRemainingMs (d - now) | None => TtlPersistent end
  end.

(** What a map with deadlines answers.  [OPurge] may drop any expired keys, up
    to its limit, and answers how many it dropped. *)
Definition spec_step (now : N) (op : cache_op) (m : gmap bytes binding) (out : cache_out)
    (m' : gmap bytes binding) : Prop :=
  match op with
  | OSetBytes k v ttl =>
      (out, m') = (RUnit, <[k := mkBinding (ViewBytes v) (saturating_add64 now <$> ttl)]> m)
  | OSetInteger k z ttl =>
      (out, m') = (RUnit, <[k := mkBinding (ViewInteger z) (saturating_add64 now <$> ttl)]> m)
  | OGet k => (out, m') = (RView (bd_value <$> reap k now m !! k), reap k now m)
  | OExists k => (out, m') = (RBool (bool_decide (is_Some (reap k now m !! k))), reap k now m)
  | ODelete k => (out, m') = (RBool (bool_decide (is_Some (m !! k))), delete k m)
  | ODeleteAt k => (out, m') = (RBool (bool_decide (is_Some (reap k now m !! k))), delete k m)
  | OExpire k ttl => (out, m') = spec_expire now ttl k (reap k now m)
  | OTtl k => (out, m') = (RTtl (spec_ttl now (reap k now m !! k)), reap k now m)
  | OIncrement k d => (out, m') = spec_increment now k d (reap k now m)
  | OPurge limit => ∃ n, out = RCount n ∧ n ≤ limit ∧ m' ⊆ m ∧
      N.of_nat (size m) = N.of_nat (size m') + n ∧
      ∀ k b, m !! k = Some b → m' !! k = None → expired now b = true
  | OLen => (out, m') = (RCount (N.of_nat (size m)), m)
  end.

(** What an operation may take from the arena and the slot table. *)
Definition op_cost (op : cache_op) : N :=
  match op with
  | OSetBytes k v _ => arena_cost (len k) + arena_cost (len v)
  | OSetInteger k _ _ | OIncrement k _ => arena_cost (len k)
  | _ => 0
  end.

Definition op_fits (op : cache_op) : Prop :=
  match op with
  | OSetBytes k v _ => len k ≤ 2 ^ MAX_ARENA_EXP ∧ len v ≤ 2 ^ MAX_ARENA_EXP
  | OSetInteger k _ _ | OIncrement k _ => len k ≤ 2 ^ MAX_ARENA_EXP
  | _ => True
  end.

Definition refines_op (now : N) (op : cache_op) : Prop :=
  ∀ st M, store_ok st [] M → op_fits op →
    len (ba_bytes (cs_arena st)) + op_cost op < U32 → len (cs_slots st) < TOMBSTONE_SLOT →
    ∃ out st' M', exec now op st = Some (out, st') ∧ store_ok st' [] M' ∧
      spec_step now op (bd_of M) out (bd_of M') ∧ grows st st' (op_cost op) 1.

Lemma grows_refl st c n : grows st st c n.
Proof. split; lia. Qed.

Lemma grows_weaken st st' c n c' n' : grows st st' c n → c ≤ c' → n ≤ n' → grows st st' c' n'.
Proof. intros [H1 H2] Hc Hn. split; lia. Qed.

Lemma grows_trans st1 st2 st3 c1 c2 n1 n2 :
  grows st1 st2 c1 n1 → grows st2 st3 c2 n2 → grows st1 st3 (c1 + c2) (n1 + n2).
Proof. intros [H1 H2] [H3 H4]. split; lia. Qed.

Lemma bd_of_insert k s b M : bd_of (<[k := (s, b)]> M) = <[k := b]> (bd_of M).
Proof. unfold bd_of. by rewrite fmap_insert. Qed.

Lemma bd_of_delete k M : bd_of (delete k M) = delete k (bd_of M).
Proof. unfold bd_of. by rewrite fmap_delete. Qed.

Lemma bd_of_lookup k M : bd_of M !! k = snd <$> M !! k.
Proof. unfold bd_of. by rewrite lookup_fmap. Qed.

Lemma delete_reap k now m : delete k (reap k now m) = delete k m.
Proof. unfold reap. destruct (m !! k) as [b|]; [|done]. destruct (expired now b); [|done]. by rewrite delete_delete_eq. Qed.

(** ** Each operation *)

Lemma set_integer_refines now k z ttl : refines_op now (OSetInteger k z ttl).
Proof.
  intros st M Hok Hfit Hroom Hslots. simpl in *. unfold CacheStore_set_integer.
  destruct (set_value_ok st [] M k (CInteger z) (ViewInteger z) ttl now) as (st' & s & -> & Hok' & Hg);
    try done.
  simpl. eexists _, st', _. split_and!; [done|done|by rewrite bd_of_insert|done].
Qed.

Lemma set_bytes_refines now k v ttl : refines_op now (OSetBytes k v ttl).
Proof.
  intros st M Hok [Hk Hv] Hroom Hslots. simpl in *. unfold CacheStore_set_bytes.
  pose proof (so_arena _ _ _ Hok) as Har.
  destruct (pack_ok v (cs_arena st) _ Har) as (pk & ar & Hpack & Har' & Hpk & Hread & Hpres & Hcost);
    [done|lia|].
  rewrite Hpack. simpl. rewrite app_nil_r in Hpres, Har'.
  assert (store_ok (set_arena st ar) (value_blocks (CBytes pk) ++ []) M) as Hok1.
  { destruct Hok as [_ ? ? ? ? ? ? ? ? Hkeys ? ?]. split; try done; simpl.
    - rewrite app_nil_r, Permutation_app_comm. exact Har'.
    - intros k1 s b Hk1. destruct (Hkeys _ _ _ Hk1) as (e & Hs & Hr & Hd). exists e.
      split_and!; [done| |done]. eapply entry_repr_preserves; [done|done|]. by eapply entry_blocks_in. }
  destruct (set_value_ok (set_arena st ar) [] M k (CBytes pk) (ViewBytes v) ttl now Hok1)
    as (st' & s & -> & Hok' & [Hg1 Hg2]); [done|simpl; by rewrite Hread|done|simpl in *; lia|done|].
  simpl. eexists _, st', _. split_and!; [done|done|by rewrite bd_of_insert|].
  simpl in *. split; lia.
Qed.

(** An operation that starts by looking up the live slot of its key. *)
Lemma live_case st M k now :
  store_ok st [] M →
  ∃ st1 M1, store_ok st1 [] M1 ∧ grows st st1 0 0 ∧ bd_of M1 = reap k now (bd_of M) ∧
    CacheStore_live_slot_id hash st k now = Some (fst <$> M1 !! k, st1) ∧
    match M1 !! k with
    | None => True
    | Some (s, b) => ∃ g e, cs_slots st1 !! N.to_nat s = Some (mkEntrySlot g (Some e)) ∧
        entry_repr (cs_arena st1) e k (bd_value b) ∧ en_expires_at_ms e = bd_deadline b
    end.
Proof.
  intros Hok. destruct (live_slot_id_ok st M k now Hok) as (st1 & M1 & Hl & Hok1 & Hg & Hbd & _).
  exists st1, M1. split_and!; try done. destruct (M1 !! k) as [[s b]|] eqn:Hk; [|done].
  destruct (so_keys _ _ _ Hok1 _ _ _ Hk) as (e & [g Hsl]%slot_entry_Some & Hr & Hd). by exists g, e.
Qed.

Lemma get_refines now k : refines_op now (OGet k).
Proof.
  intros st M Hok _ _ _. simpl.
  destruct (live_case st M k now Hok) as (st1 & M1 & Hok1 & Hg & Hbd & Hl & Hcase).
  unfold CacheStore_get. rewrite Hl. simpl. rewrite <- Hbd, bd_of_lookup.
  destruct (M1 !! k) as [[s b]|] eqn:Hk; simpl.
  - destruct Hcase as (g & e & Hsl & Hr & _). unfold live_entry. simpl. rewrite Hsl. simpl.
    rewrite (er_value _ _ _ _ Hr). simpl. eexists _, _, M1.
    split_and!; [done|by apply store_ok_stats|done|]. destruct Hg. split; simpl; lia.
  - eexists _, _, M1. split_and!; [done|by apply store_ok_stats|done|]. destruct Hg. split; simpl; lia.
Qed.

Lemma exists_refines now k : refines_op now (OExists k).
Proof.
  intros st M Hok _ _ _. simpl.
  destruct (live_case st M k now Hok) as (st1 & M1 & Hok1 & Hg & Hbd & Hl & _).
  unfold CacheStore_exists. rewrite Hl. simpl. rewrite <- Hbd, bd_of_lookup.
  eexists _, _, M1. split_and!; [done|done| |eapply grows_weaken; [done|lia..]].
  do 3 f_equal. apply bool_decide_ext. by rewrite !fmap_is_Some.
Qed.

Lemma ttl_refines now k : refines_op now (OTtl k).
Proof.
  intros st M Hok _ _ _. simpl.
  destruct (live_case st M k now Hok) as (st1 & M1 & Hok1 & Hg & Hbd & Hl & Hcase).
  unfold CacheStore_ttl. rewrite Hl. simpl. rewrite <- Hbd, bd_of_lookup.
  destruct (M1 !! k) as [[s b]|] eqn:Hk; simpl.
  - destruct Hcase as (g & e & Hsl & Hr & Hd). unfold live_entry. rewrite Hsl. simpl. rewrite Hd.
    eexists _, _, M1. split_and!; [done|done|done|]. eapply grows_weaken; [done|lia..].
  - eexists _, _, M1. split_and!; [done|done|done|]. eapply grows_weaken; [done|lia..].
Qed.

Lemma remove_counted_ok st M k s b :
  store_ok st [] M → M !! k = Some (s, b) →
  ∃ st', remove_counted st s = Some (true, st') ∧ store_ok st' [] (delete k M) ∧ grows st st' 0 0.
Proof.
  intros Hok Hk. unfold remove_counted.
  destruct (remove_slot_ok _ _ _ _ _ _ Hok Hk) as (st' & -> & Hok' & Hg). simpl. eexists. split; [done|].
  split; [by apply store_ok_stats|]. destruct Hg. by split.
Qed.

Lemma delete_refines now k : refines_op now (ODelete k).
Proof.
  intros st M Hok _ _ _. simpl. unfold CacheStore_delete. rewrite (find_slot_ok _ _ _ k Hok). simpl.
  rewrite bd_of_lookup. destruct (M !! k) as [[s b]|] eqn:Hk; simpl.
  - destruct (remove_counted_ok _ _ _ _ _ Hok Hk) as (st' & -> & Hok' & Hg). simpl.
    eexists _, _, _. split_and!; [done|done|by rewrite bd_of_delete|]. eapply grows_weaken; [done|lia..].
  - eexists _, _, M. split_and!; [done|done| |apply grows_refl].
    rewrite delete_id; [done|]. by rewrite bd_of_lookup, Hk.
Qed.

Lemma delete_at_refines now k : refines_op now (ODeleteAt k).
Proof.
  intros st M Hok _ _ _. simpl.
  destruct (live_case st M k now Hok) as (st1 & M1 & Hok1 & Hg & Hbd & Hl & _).
  unfold CacheStore_delete_at. rewrite Hl. simpl. rewrite <- (delete_reap k now), <- Hbd, bd_of_lookup.
  destruct (M1 !! k) as [[s b]|] eqn:Hk; simpl.
  - destruct (remove_counted_ok _ _ _ _ _ Hok1 Hk) as (st' & -> & Hok' & Hg'). simpl.
    eexists _, _, _. split_and!; [done|done|by rewrite bd_of_delete|].
    eapply grows_weaken; [by eapply grows_trans|simpl; lia..].
  - eexists _, _, M1. split_and!; [done|done| |eapply grows_weaken; [done|lia..]].
    rewrite delete_id; [done|]. by rewrite bd_of_lookup, Hk.
Qed.

Lemma expire_refines now k ttl : refines_op now (OExpire k ttl).
Proof.
  intros st M Hok _ _ _. simpl.
  destruct (live_case st M k now Hok) as (st1 & M1 & Hok1 & Hg & Hbd & Hl & Hcase).
  unfold CacheStore_expire_ms, spec_expire. rewrite Hl. simpl. rewrite <- Hbd, bd_of_lookup.
  destruct (M1 !! k) as [[s b]|] eqn:Hk; simpl.
  2: { eexists _, _, M1. split_and!; [done|done|done|eapply grows_weaken; [done|lia..]]. }
  case_if.
  - destruct (remove_slot_ok _ _ _ _ _ _ Hok1 Hk) as (st' & -> & Hok' & Hg'). simpl.
    eexists _, _, _. split_and!; [done|by apply store_ok_stats|by rewrite bd_of_delete|].
    eapply grows_weaken; [eapply grows_trans; [done|destruct Hg'; by split]|simpl; lia..].
  - destruct Hcase as (g & e & Hsl & Hr & Hd). unfold live_entry. rewrite Hsl. simpl.
    set (d := Some (saturating_add64 now ttl)).
    assert (store_ok (set_slots st1 (<[N.to_nat s := mkEntrySlot (next_generation g)
      (Some (mkEntry (en_hash e) (en_key e) (en_value e) d))]> (cs_slots st1)) (cs_free_slots st1)) []
      (<[k := (s, mkBinding (bd_value b) d)]> M1)) as Hok2.
    { change (set_slots st1 ?a ?b) with (set_slots (set_arena st1 (cs_arena st1)) a b).
      eapply update_entry_ok; [done|done|done| |done| |done].
      - destruct (bind_insert_perm slot_blocks _ _ _ Hsl) as (rest & Hold & Hnew).
        rewrite Hnew. pose proof (so_arena _ _ _ Hok1) as Har. by rewrite Hold in Har.
      - destruct Hr. by split. }
    edestruct (schedule_expiry_ok _ _ _ s (next_generation g) d now Hok2) as (st3 & Hsch & Hok3 & Heq).
    unfold d in Hsch at 2. simpl in Hsch. rewrite Hsch. simpl.
    eexists _, _, _. split_and!; [done|done|by rewrite bd_of_insert|].
    rewrite Heq. destruct Hg. split; simpl; [lia|rewrite len_insert; lia].
Qed.

Lemma increment_refines now k d : refines_op now (OIncrement k d).
Proof.
  intros st M Hok Hfit Hroom Hslots. simpl in *.
  destruct (live_case st M k now Hok) as (st1 & M1 & Hok1 & Hg & Hbd & Hl & Hcase).
  unfold CacheStore_increment, spec_increment. rewrite Hl. simpl. rewrite <- Hbd, bd_of_lookup.
  destruct (M1 !! k) as [[s b]|] eqn:Hk; simpl.
  - destruct Hcase as (g & e & Hsl & Hr & Hd). unfold live_entry. rewrite Hsl. simpl.
    assert (integer_of st1 (en_value e) = Some (view_integer (bd_value b))) as ->.
    { pose proof (er_value _ _ _ _ Hr) as Hv. unfold integer_of. destruct (en_value e) as [z|pk]; simpl in *.
      - injection Hv as <-. done.
      - destruct (PackedBytes_as_slice pk (cs_arena st1)); [|done]. simpl in *. by injection Hv as <-. }
    simpl. destruct (let? z := view_integer (bd_value b) in _) as [z|err]; simpl.
    + destruct (replace_value_ok st1 [] M1 k s b e g g (CInteger z) (ViewInteger z)
        (en_expires_at_ms e) Hok1 Hk Hsl) as (ar & -> & Hb & Hok2); [done..|]. simpl.
      eexists _, _, _. split_and!; [done|done|by rewrite bd_of_insert, Hd|].
      destruct Hg. split; simpl; [rewrite Hb; lia|rewrite len_insert; lia].
    + eexists _, _, M1. split_and!; [done|done|done|eapply grows_weaken; [done|lia..]].
  - unfold CacheStore_set_integer. destruct Hg as [Hg1 Hg2].
    destruct (set_value_ok st1 [] M1 k (CInteger d) (ViewInteger d) None now)
      as (st' & s & -> & Hok' & Hg'); [done..|lia|lia|].
    simpl. eexists _, st', _. split_and!; [done|done|by rewrite bd_of_insert|].
    destruct Hg'. split; lia.
Qed.

(** ** Purging *)

Lemma drain_ticks_ok ticks buckets out :
  buckets ≠ [] →
  ∃ buckets' out', foldl (drain_tick (len buckets)) (Some (buckets, out)) ticks = Some (buckets', out') ∧
    length buckets' = length buckets.
Proof.
  intros Hne. assert (∀ bs, length bs = length buckets → ∀ out, ∃ buckets' out',
    foldl (drain_tick (len buckets)) (Some (bs, out)) ticks = Some (buckets', out') ∧
    length buckets' = length buckets) as H; [|by apply H].
  induction ticks as [|t ticks IH]; intros bs Hlen o; simpl; [by exists bs, o|].
  destruct (lookup_lt_is_Some_2 bs (N.to_nat (t mod len buckets))) as [items Hi].
  { assert (len buckets ≠ 0) as Hne' by (unfold len; by destruct buckets).
    pose proof (N.mod_lt t _ Hne'). unfold len in *. lia. }
  rewrite Hi. simpl. apply IH. by rewrite length_insert.
Qed.

Lemma drain_candidates_ok w now :
  wh_buckets w ≠ [] →
  ∃ w' items, ExpirationWheel_drain_candidates w now [] = Some (w', items) ∧ wh_buckets w' ≠ [].
Proof.
  intros Hne. unfold ExpirationWheel_drain_candidates. destruct (wh_last_tick w) as [last|].
  2: by eexists _, _.
  case_if.
  - eexists _, _. split; [done|]. simpl. by destruct (wh_buckets w).
  - destruct (drain_ticks_ok (tick_range last (now / wh_tick_ms w)) _ [] Hne) as (bs & o & -> & Hlen).
    simpl. eexists _, _. split; [done|]. simpl. intros ->. by destruct (wh_buckets w).
Qed.

(** What purging has done so far, to the map it started from. *)
Definition purged (now limit n : N) (m m' : gmap bytes binding) : Prop :=
  n ≤ limit ∧ m' ⊆ m ∧ N.of_nat (size m) = N.of_nat (size m') + n ∧
  ∀ k b, m !! k = Some b → m' !! k = None → expired now b = true.

Lemma purged_delete now limit n m m' k b :
  purged now limit n m m' → n < limit → m' !! k = Some b → expired now b = true →
  purged now limit (n + 1) m (delete k m').
Proof.
  intros (Hn & Hsub & Hsize & Hexp) Hlt Hk Hb. split_and!; [lia| | |].
  - etransitivity; [apply delete_subseteq|done].
  - rewrite map_size_delete_Some by eauto.
    assert (size m' ≠ 0%nat) by (intros H0; apply map_size_empty_iff in H0 as ->; done). lia.
  - intros k1 b1 Hk1 Hd. destruct (decide (k1 = k)) as [->|Hne].
    + assert (b1 = b) as -> by (pose proof (lookup_weaken _ _ _ _ Hk Hsub); congruence). done.
    + rewrite lookup_delete_ne in Hd by done. by eapply Hexp.
Qed.

Lemma requeue_ok st M item now :
  store_ok st [] M →
  ∃ w, ExpirationWheel_schedule (cs_expiry st) item now = Some w ∧ store_ok (set_expiry st w) [] M.
Proof.
  intros Hok. destruct (schedule_expiry_ok st [] M (xr_slot item) (xr_generation item)
    (Some (xr_expires_at_ms item)) now Hok) as (st' & Hs & Hok' & Heq).
  unfold schedule_expiry in Hs. replace (mkExpirationRef _ _ _) with item in Hs by (by destruct item).
  destruct (ExpirationWheel_schedule _ item now) as [w|]; [|done]. injection Hs as <-. by exists w.
Qed.

Lemma purge_one_ok now limit m n st M item :
  store_ok st [] M → purged now limit n m (bd_of M) →
  ∃ n' st' M', purge_one now limit (Some (n, st)) item = Some (n', st') ∧ store_ok st' [] M' ∧
    purged now limit n' m (bd_of M') ∧ grows st st' 0 0.
Proof.
  intros Hok Hp. unfold purge_one. simpl.
  destruct (requeue_ok st M item now Hok) as (w & Hw & Hokw). rewrite Hw. simpl.
  assert (∃ n' st' M', Some (n, st) = Some (n', st') ∧ store_ok st' [] M' ∧
    purged now limit n' m (bd_of M') ∧ grows st st' 0 0) as Hskip.
  { exists n, st, M. split_and!; [done|done|apply Hp..|apply grows_refl]. }
  assert (∃ n' st' M', Some (n, set_expiry st w) = Some (n', st') ∧ store_ok st' [] M' ∧
    purged now limit n' m (bd_of M') ∧ grows st st' 0 0) as Hrequeue.
  { eexists n, _, M. split_and!; [done|done|apply Hp..|split; simpl; lia]. }
  case_if; [exact Hrequeue|].
  destruct (cs_slots st !! N.to_nat (xr_slot item)) as [[g [e|]]|] eqn:Hsl; simpl;
    [|case_if; exact Hskip|exact Hskip].
  case_if; [exact Hskip|]. case_if; [exact Hskip|]. case_if; [exact Hrequeue|].
  destruct (so_entry_key st [] M (xr_slot item) e Hok) as (k & b & Hk & Hr & Hd).
  { apply slot_entry_Some. by exists g. }
  destruct (remove_slot_ok _ _ _ _ _ _ Hok Hk) as (st' & -> & Hok' & Hg). simpl.
  eexists _, _, _. split; [done|]. split; [by apply store_ok_stats|]. split; [|destruct Hg; by split].
  rewrite bd_of_delete. apply (purged_delete _ _ _ _ _ _ b); [done|done|by rewrite bd_of_lookup, Hk|].
  unfold expired. rewrite <- Hd, Heqb1. by apply N.leb_le.
Qed.

Lemma purge_all_ok now limit m items n st M :
  store_ok st [] M → purged now limit n m (bd_of M) →
  ∃ n' st' M', foldl (purge_one now limit) (Some (n, st)) items = Some (n', st') ∧ store_ok st' [] M' ∧
    purged now limit n' m (bd_of M') ∧ grows st st' 0 0.
Proof.
  revert n st M. induction items as [|item items IH]; intros n st M Hok Hp; cbn [foldl].
  - exists n, st, M. split_and!; [done|done|apply Hp..|apply grows_refl].
  - destruct (purge_one_ok now limit m n st M item Hok Hp) as (n1 & st1 & M1 & -> & Hok1 & Hp1 & Hg1).
    destruct (IH n1 st1 M1 Hok1 Hp1) as (n2 & st2 & M2 & Hfold & Hok2 & Hp2 & Hg2).
    exists n2, st2, M2. split_and!; [done|done|apply Hp2..|]. exact (grows_trans _ _ _ _ _ _ _ Hg1 Hg2).
Qed.

Lemma purge_refines now limit : refines_op now (OPurge limit).
Proof.
  intros st M Hok _ _ _. simpl. unfold CacheStore_purge_expired.
  destruct (drain_candidates_ok (cs_expiry st) now) as (w & items & -> & Hne); [apply Hok|]. simpl.
  destruct (purge_all_ok now limit (bd_of M) items 0 (set_scratch (set_expiry st w) []) M)
    as (n & st' & M' & -> & Hok' & (Hn & Hsub & Hsize & Hexp) & [Hg1 Hg2]).
  - destruct Hok. by split.
  - split_and!; [lia|done|lia|]. intros k b Hk Hk'. congruence.
  - simpl. eexists _, _, M'. split; [done|]. split; [destruct Hok'; by split|].
    split; [by exists n|]. simpl in *. split; simpl; lia.
Qed.

Lemma len_refines now : refines_op now OLen.
Proof.
  intros st M Hok _ _ _. simpl. eexists _, st, M. split_and!; [done|done| |apply grows_refl].
  unfold CacheStore_len, bd_of. by rewrite map_size_fmap, (so_size _ _ _ Hok).
Qed.

Lemma op_refines now op : refines_op now op.
Proof.
  destruct op; [apply set_bytes_refines|apply set_integer_refines|apply get_refines|apply exists_refines
    |apply delete_refines|apply delete_at_refines|apply expire_refines|apply ttl_refines
    |apply increment_refines|apply purge_refines|apply len_refines].
Qed.

Lemma new_store_ok : store_ok CacheStore_new [] ∅.
Proof.
  split; try done.
  - split; [by vm_compute|done|].
    assert (free_blocks (ba_free (cs_arena CacheStore_new)) ++
      (cs_slots CacheStore_new ≫= slot_blocks) ++ [] = []) as -> by (by vm_compute).
    split; [constructor| |].
    + intros b Hb. by apply elem_of_nil in Hb.
    + intros b1 b2 Hb. by apply elem_of_nil in Hb.
  - eapply index_ok_ext; [|exact (empty_index_ok 6 ltac:(done))]. done.
  - constructor.
  - intros s Hs. by apply elem_of_nil in Hs.
Qed.

(** ** Runs *)

(** A run: operations with the times at which they are issued. *)
Fixpoint run_ops (ops : list (N * cache_op)) (st : CacheStore) : option (list cache_out * CacheStore) :=
  match ops with
  | [] => Some ([], st)
  | (now, op) :: ops =>
      '(out, st) ← exec now op st;
      '(outs, st) ← run_ops ops st;
      Some (out :: outs, st)
  end.

Inductive spec_run : list (N * cache_op) → gmap bytes binding → list cache_out → gmap bytes binding → Prop :=
  | spec_done m : spec_run [] m [] m
  | spec_more now op ops m out m1 outs m2 :
      spec_step now op m out m1 → spec_run ops m1 outs m2 → spec_run ((now, op) :: ops) m (out :: outs) m2.

Definition run_cost (ops : list (N * cache_op)) : N := foldr (λ o c, op_cost o.2 + c) 0 ops.

Lemma run_refines ops st M :
  store_ok st [] M → Forall (λ o, op_fits o.2) ops →
  len (ba_bytes (cs_arena st)) + run_cost ops < U32 → len (cs_slots st) + len ops ≤ TOMBSTONE_SLOT →
  ∃ outs st' M', run_ops ops st = Some (outs, st') ∧ store_ok st' [] M' ∧
    spec_run ops (bd_of M) outs (bd_of M').
Proof.
  revert st M. induction ops as [|[now op] ops IH]; intros st M Hok Hfit Hcost Hslots; simpl.
  { exists [], st, M. split_and!; [done|done|constructor]. }
  apply Forall_cons in Hfit as [Hop Hfit]. simpl in *. rewrite len_cons in Hslots.
  destruct (op_refines now op st M Hok Hop) as (out & st1 & M1 & -> & Hok1 & Hstep & [Hg1 Hg2]); [lia|lia|].
  destruct (IH st1 M1 Hok1 Hfit) as (outs & st2 & M2 & Hrun & Hok2 & Hspec); [lia|lia|].
  simpl. rewrite Hrun. simpl. exists (out :: outs), st2, M2. split_and!; [done|done|by econstructor].
Qed.

(** [C5] The cache is a map with deadlines.  From the empty store, every
    sequence of sets, reads, deletions, expirations, increments and purges
    runs without a panic and answers exactly what a finite map from keys to
    values and deadlines answers, for any hash function and any clock: the
    open-addressed index with its tombstones and rehashes, the shared byte
    arena with its recycled blocks, the recycled slots and the stale
    references of the expiration wheel are not observable.  The bounds are
    the code's own: keys and values of at most 1 GiB, less than 4 GiB of arena
    blocks, fewer than 2^32 - 2 slots. *)
Theorem cache_refines_map ops :
  Forall (λ o, op_fits o.2) ops → run_cost ops < U32 → len ops ≤ TOMBSTONE_SLOT →
  ∃ outs st m, run_ops ops CacheStore_new = Some (outs, st) ∧ spec_run ops ∅ outs m ∧
    CacheStore_len st = N.of_nat (size m).
Proof.
  intros Hfit Hcost Hlen.
  destruct (run_refines ops CacheStore_new ∅ new_store_ok Hfit) as (outs & st & M & Hrun & Hok & Hspec);
    [done..|].
  exists outs, st, (bd_of M). split_and!; [done|by unfold bd_of in Hspec at 1; rewrite fmap_empty in Hspec|].
  unfold CacheStore_len, bd_of. by rewrite map_size_fmap, (so_size _ _ _ Hok).
Qed.

End with_hash.

(** A hash under which many keys collide, and a run with an overwrite, a long
    value, a deletion and an expiration. *)
Definition sample_hash (key : bytes) : N := len key mod 2.

Definition sample_ops : list (N * cache_op) :=
  [ (0, OSetBytes [97] (replicate 40 7) None); (0, OSetInteger [98] 5 (Some 10));
    (1, OSetBytes [97] (replicate 50 8) (Some 100)); (2, OIncrement [98] 3); (3, ODelete [97]);
    (4, OSetBytes [99] (replicate 60 9) None); (10, OGet [98]); (10, OGet [99]); (11, OLen) ].

Lemma cache_refines_map_witness :
  ∃ outs st m, run_ops sample_hash sample_ops CacheStore_new = Some (outs, st) ∧
    spec_run sample_ops ∅ outs m ∧ CacheStore_len st = N.of_nat (size m) ∧
    outs = [RUnit; RUnit; RUnit; RInteger (Ok 8%Z); RBool true; RUnit; RView None;
            RView (Some (ViewBytes (replicate 60 9))); RCount 1].
Proof.
  destruct (cache_refines_map sample_hash sample_ops) as (outs & st & m & Hrun & Hspec & Hlen);
    [repeat (apply Forall_cons; split; [done|]); apply Forall_nil_2|done|done|].
  exists outs, st, m. split_and!; [done|done|done|].
  apply (f_equal (λ r, match r with Some (outs, _) => outs | None => [] end)) in Hrun.
  rewrite <- Hrun. by vm_compute.
Defined.
