(* ===== verification/CacheWheel.v ===== *)
(** * Expired keys are reaped

    The expiration wheel of [CacheStore] against its entries: every entry with
    a deadline has a reference in the bucket of its deadline, not behind the
    wheel's last tick, so a purge that is not cut short by its limit leaves no
    expired key in the store. *)
From stdpp Require Import functions.
From S2P Require Import Prelude Bytes Text CacheArena CacheIndex Cache CacheRefine.

Local Open Scope N_scope.

(** ** References in the wheel *)

Definition bucket_of (w : ExpirationWheel) (d : N) : nat :=
  N.to_nat ((d / wh_tick_ms w) mod len (wh_buckets w)).

Definition in_wheel (w : ExpirationWheel) (r : ExpirationRef) : Prop :=
  ∃ items, wh_buckets w !! bucket_of w (xr_expires_at_ms r) = Some items ∧ r ∈ items.

(** The deadlines of the entries. *)
Definition due (slots : list EntrySlot) (s g d : N) : Prop :=
  ∃ e, slots !! N.to_nat s = Some (mkEntrySlot g (Some e)) ∧ en_expires_at_ms e = Some d.

Definition wheel_ready (w : ExpirationWheel) (now : N) : Prop :=
  wh_tick_ms w ≠ 0 ∧ wh_buckets w ≠ [] ∧ ∀ t, wh_last_tick w = Some t → t ≤ now / wh_tick_ms w.

(** A deadline the wheel will come to. *)
Definition scheduled (w : ExpirationWheel) (s g d : N) : Prop :=
  in_wheel w (mkExpirationRef s g d) ∧ ∃ t, wh_last_tick w = Some t ∧ t ≤ d / wh_tick_ms w.

Record timely (st : CacheStore) (now : N) : Prop := {
  ti_ready : wheel_ready (cs_expiry st) now;
  ti_sched : ∀ s g d, due (cs_slots st) s g d → scheduled (cs_expiry st) s g d;
}.

Lemma timely_later st now now' : timely st now → now ≤ now' → timely st now'.
Proof.
  intros [(Htick & Hne & Hlast) Hs] Hle. split; [|done]. split_and!; [done|done|].
  intros t Ht. etransitivity; [by apply Hlast|]. by apply N.Div0.div_le_mono.
Qed.

Lemma timely_same st st' now :
  timely st now → cs_slots st' = cs_slots st → cs_expiry st' = cs_expiry st → timely st' now.
Proof. intros [Hr Hs] H1 H2. split; [by rewrite H2|]. by rewrite H1, H2. Qed.

Lemma bucket_total w d : wh_buckets w ≠ [] → ∃ items, wh_buckets w !! bucket_of w d = Some items.
Proof.
  intros Hne. apply lookup_lt_is_Some_2. unfold bucket_of.
  assert (len (wh_buckets w) ≠ 0) as Hz by (unfold len; by destruct (wh_buckets w)).
  pose proof (N.mod_lt (d / wh_tick_ms w) _ Hz). unfold len in *. lia.
Qed.

(** Scheduling adds a reference and keeps the others. *)
Lemma schedule_spec w item now w' :
  ExpirationWheel_schedule w item now = Some w' → wheel_ready w now →
  wheel_ready w' now ∧ in_wheel w' item ∧ (∀ r, in_wheel w r → in_wheel w' r) ∧
  wh_tick_ms w' = wh_tick_ms w ∧ (∀ t, wh_last_tick w = Some t → wh_last_tick w' = Some t) ∧
  (∃ t, wh_last_tick w' = Some t ∧ t ≤ now / wh_tick_ms w).
Proof.
  unfold ExpirationWheel_schedule. fold (bucket_of w (xr_expires_at_ms item)).
  destruct (wh_buckets w !! bucket_of w (xr_expires_at_ms item)) as [items|] eqn:Hi; [|done].
  simpl. intros [= <-] (Htick & Hne & Hlast).
  assert (∀ d, bucket_of (mkExpirationWheel (wh_tick_ms w)
    (<[bucket_of w (xr_expires_at_ms item) := items ++ [item]]> (wh_buckets w))
    (Some (default (now / wh_tick_ms w) (wh_last_tick w)))) d = bucket_of w d) as Hbucket.
  { intros d. unfold bucket_of. simpl. by rewrite len_insert. }
  assert (default (now / wh_tick_ms w) (wh_last_tick w) ≤ now / wh_tick_ms w) as Hdef.
  { destruct (wh_last_tick w) as [t|]; simpl; [by apply Hlast|done]. }
  split; [unfold wheel_ready; simpl; split_and!; [done| |by intros t [= <-]]|split_and!; simpl].
  - intros Heq. apply (f_equal length) in Heq. rewrite length_insert in Heq.
    by apply nil_length_inv in Heq.
  - unfold in_wheel. rewrite Hbucket. simpl. exists (items ++ [item]). split.
    + apply list_lookup_insert_eq. by eapply lookup_lt_Some.
    + apply elem_of_app. right. by left.
  - intros r (items' & Hr & Hin). unfold in_wheel. rewrite Hbucket. simpl.
    destruct (decide (bucket_of w (xr_expires_at_ms r) = bucket_of w (xr_expires_at_ms item))) as [Heq|Hneq].
    + exists (items ++ [item]). rewrite Heq in *. split.
      * apply list_lookup_insert_eq. by eapply lookup_lt_Some.
      * apply elem_of_app. left. congruence.
    + exists items'. by rewrite list_lookup_insert_ne.
  - done.
  - intros t ->. done.
  - by eexists.
Qed.

Lemma scheduled_mono w item now w' s g d :
  ExpirationWheel_schedule w item now = Some w' → wheel_ready w now →
  scheduled w s g d → scheduled w' s g d.
Proof.
  intros Hs Hr [Hin (t & Ht & Hle)]. destruct (schedule_spec _ _ _ _ Hs Hr) as (_ & _ & Hk & Htick & Hl & _).
  split; [by apply Hk|]. exists t. rewrite Htick. split; [by apply Hl|done].
Qed.

Lemma scheduled_new w s g d now w' :
  ExpirationWheel_schedule w (mkExpirationRef s g d) now = Some w' → wheel_ready w now → now ≤ d →
  scheduled w' s g d.
Proof.
  intros Hs Hr Hle. destruct (schedule_spec _ _ _ _ Hs Hr) as (_ & Hin & _ & Htick & _ & t & Ht & Hlt).
  split; [done|]. exists t. rewrite Htick. split; [done|]. etransitivity; [done|].
  by apply N.Div0.div_le_mono.
Qed.

(** ** Changes to the slot table *)

(** A slot that is rewritten and, when it has a deadline, scheduled. *)
Lemma timely_schedule st now slots s g e w :
  timely st now → slots !! N.to_nat s = Some (mkEntrySlot g (Some e)) →
  (∀ s' g' d, s' ≠ s → due slots s' g' d → due (cs_slots st) s' g' d) →
  match en_expires_at_ms e with
  | Some d => ExpirationWheel_schedule (cs_expiry st) (mkExpirationRef s g d) now = Some w ∧ now ≤ d
  | None => w = cs_expiry st
  end →
  ∀ st', cs_slots st' = slots → cs_expiry st' = w → timely st' now.
Proof.
  intros [Hr Hs] Hsl Hother Hw st' H1 H2.
  destruct (en_expires_at_ms e) as [d|] eqn:Hd; [destruct Hw as [Hw Hle]|subst w].
  - split; rewrite ?H1, ?H2; [by eapply schedule_spec|].
    intros s' g' d' Hdue. destruct (decide (s' = s)) as [->|Hne].
    + destruct Hdue as (e' & Hsl' & Hd'). rewrite Hsl in Hsl'. injection Hsl' as <- <-.
      rewrite Hd in Hd'. injection Hd' as <-. by eapply scheduled_new.
    + eapply scheduled_mono; [done|done|]. apply Hs. by apply Hother.
  - split; rewrite ?H1, ?H2; [done|]. intros s' g' d' Hdue.
    destruct (decide (s' = s)) as [->|Hne]; [|apply Hs; by apply Hother].
    destruct Hdue as (e' & Hsl' & Hd'). rewrite Hsl in Hsl'. injection Hsl' as <- <-. congruence.
Qed.

Lemma due_insert_other slots s sl s' g' d :
  s' ≠ s → due (<[N.to_nat s := sl]> slots) s' g' d → due slots s' g' d.
Proof. intros Hne (e & Hs & Hd). exists e. rewrite list_lookup_insert_ne in Hs by lia. done. Qed.

(** Dropping an entry, or keeping its generation and deadline. *)
Lemma timely_shrink st st' now :
  timely st now → cs_expiry st' = cs_expiry st →
  (∀ s g d, due (cs_slots st') s g d → due (cs_slots st) s g d) → timely st' now.
Proof. intros [Hr Hs] Hw Hd. split; rewrite ?Hw; [done|]. intros s g d Hdue. apply Hs. by apply Hd. Qed.

(** ** Operations *)

Lemma remove_bucket_frame st h s st' :
  CacheStore_remove_bucket st h s = Some st' →
  cs_slots st' = cs_slots st ∧ cs_expiry st' = cs_expiry st.
Proof.
  unfold CacheStore_remove_bucket. destruct (probe_remove _ _ _ _ _) as [[idx|]|]; simpl; [|by intros [= <-]|done].
  destruct (checked_pred _); simpl; [|done]. by intros [= <-].
Qed.

Lemma ensure_frame st st' :
  CacheStore_ensure_index_capacity st = Some st' →
  cs_slots st' = cs_slots st ∧ cs_expiry st' = cs_expiry st.
Proof.
  assert (∀ st nc st', CacheStore_rehash st nc = Some st' →
    cs_slots st' = cs_slots st ∧ cs_expiry st' = cs_expiry st) as Hre.
  { intros s nc s'. unfold CacheStore_rehash. destruct (rehash_buckets _ _) as [[]|]; [|done].
    by intros [= <-]. }
  unfold CacheStore_ensure_index_capacity. intros H. apply bind_Some in H as (st1 & H1 & H2).
  assert (cs_slots st1 = cs_slots st ∧ cs_expiry st1 = cs_expiry st) as [Hs Hw].
  { destruct (_ && _); [by eapply Hre|by injection H1 as <-]. }
  rewrite <- Hs, <- Hw. destruct (_ <=? _); [by eapply Hre|by injection H2 as <-].
Qed.

Lemma insert_raw_frame st h s st' :
  CacheStore_insert_bucket_raw st h s = Some st' →
  cs_slots st' = cs_slots st ∧ cs_expiry st' = cs_expiry st.
Proof.
  unfold CacheStore_insert_bucket_raw. destruct (insert_bucket _ _ _ _) as [[]|]; [|done]. by intros [= <-].
Qed.

Lemma remove_slot_inv st s r st' :
  CacheStore_remove_slot st s = Some (r, st') →
  (r = false ∧ st' = st ∧ ∀ g e, cs_slots st !! N.to_nat s ≠ Some (mkEntrySlot g (Some e))) ∨
  r = true ∧ cs_expiry st' = cs_expiry st ∧ ∃ g e,
    cs_slots st !! N.to_nat s = Some (mkEntrySlot g (Some e)) ∧
    cs_slots st' = <[N.to_nat s := mkEntrySlot g None]> (cs_slots st).
Proof.
  unfold CacheStore_remove_slot. intros H.
  destruct (cs_slots st !! N.to_nat s) as [[g [e|]]|] eqn:Hs; simpl in H;
    [|injection H as <- <-; left; split_and!; [done|done|by intros g0 e0]..].
  apply bind_Some in H as (st1 & Hb & H). apply bind_Some in H as (ar1 & _ & H).
  apply bind_Some in H as (ar2 & _ & H). injection H as <- <-. right.
  apply remove_bucket_frame in Hb as [Hsl Hw]. simpl in *. split_and!; [done|done|]. by exists g, e.
Qed.

Lemma due_removed slots s g e s' g' d :
  slots !! N.to_nat s = Some (mkEntrySlot g (Some e)) →
  due (<[N.to_nat s := mkEntrySlot g None]> slots) s' g' d → s' ≠ s ∧ due slots s' g' d.
Proof.
  intros Hs Hdue. destruct (decide (s' = s)) as [->|Hne].
  - destruct Hdue as (e' & Hs' & _). by rewrite list_lookup_insert_eq in Hs' by (by eapply lookup_lt_Some).
  - split; [done|]. by eapply due_insert_other.
Qed.

Lemma remove_slot_timely st s r st' now :
  CacheStore_remove_slot st s = Some (r, st') → timely st now → timely st' now.
Proof.
  intros [(_ & -> & _)|(_ & Hw & g & e & Hs & Hsl)]%remove_slot_inv Ht; [done|].
  eapply timely_shrink; [exact Ht|exact Hw|]. rewrite Hsl. intros s' g' d Hdue. by eapply due_removed.
Qed.

Lemma remove_slot_len st s r st' :
  CacheStore_remove_slot st s = Some (r, st') → len (cs_slots st') = len (cs_slots st).
Proof. intros [(_ & -> & _)|(_ & _ & g & e & _ & ->)]%remove_slot_inv; [done|apply len_insert]. Qed.

Lemma schedule_expiry_inv st s g d now st' :
  schedule_expiry st s g d now = Some st' →
  cs_slots st' = cs_slots st ∧
  match d with
  | Some d => ExpirationWheel_schedule (cs_expiry st) (mkExpirationRef s g d) now = Some (cs_expiry st')
  | None => cs_expiry st' = cs_expiry st
  end.
Proof.
  unfold schedule_expiry. destruct d as [d|]; [|by intros [= <-]].
  destruct (ExpirationWheel_schedule _ _ _) as [w|]; [|done]. by intros [= <-].
Qed.

Section with_hash.
Context (hash : bytes → N).

Lemma live_slot_id_timely st k now r st' :
  CacheStore_live_slot_id hash st k now = Some (r, st') → timely st now → timely st' now.
Proof.
  unfold CacheStore_live_slot_id. intros H Ht. apply bind_Some in H as ([s|] & _ & H); [|by injection H as _ <-].
  apply bind_Some in H as (sl & _ & H). cbn zeta in H.
  destruct (match sl_entry sl ≫= en_expires_at_ms with Some d => d <=? now | None => false end);
    [|by injection H as _ <-].
  apply bind_Some in H as ([b st1] & Hr & H). injection H as _ <-.
  eapply timely_same; [by eapply remove_slot_timely|done|done].
Qed.

Lemma saturating_ge now ttl : now < U64 → now ≤ saturating_add64 now ttl.
Proof. unfold saturating_add64. word_lia. Qed.

(** The new entry of a rewritten or allocated slot, then its reference. *)
Lemma timely_put st now slots s g e st1 st2 :
  timely st now → slots !! N.to_nat s = Some (mkEntrySlot g (Some e)) →
  (∀ s' g' d, s' ≠ s → due slots s' g' d → due (cs_slots st) s' g' d) →
  (∀ d, en_expires_at_ms e = Some d → now ≤ d) →
  cs_slots st1 = slots → cs_expiry st1 = cs_expiry st →
  schedule_expiry st1 s g (en_expires_at_ms e) now = Some st2 → timely st2 now.
Proof.
  intros Ht Hs Hother Hd H1 H2 Hsch. apply schedule_expiry_inv in Hsch as [Hsl Hw].
  eapply (timely_schedule st now slots s g e (cs_expiry st2)); [done|done|done| |congruence|done].
  rewrite H2 in Hw. destruct (en_expires_at_ms e) as [d|]; [|done]. split; [done|by apply Hd].
Qed.

Lemma allocate_slot_due st ar e s g st' :
  CacheStore_allocate_slot (set_arena st ar) e = Some (s, g, st') → len (cs_slots st) < TOMBSTONE_SLOT →
  cs_slots st' !! N.to_nat s = Some (mkEntrySlot g (Some e)) ∧ cs_expiry st' = cs_expiry st ∧
  ∀ s' g' d, s' ≠ s → due (cs_slots st') s' g' d → due (cs_slots st) s' g' d.
Proof.
  unfold CacheStore_allocate_slot. simpl. intros H Hlt.
  destruct (vec_pop (cs_free_slots st)) as [[s0 free]|].
  - apply bind_Some in H as ([g0 oe0] & Hs0 & H). injection H as <- <- <-. simpl.
    split_and!; [|done|intros s' g' d Hne; by apply due_insert_other].
    apply list_lookup_insert_eq. by eapply lookup_lt_Some.
  - injection H as <- <- <-. simpl. rewrite as_u32_small by (eapply N.lt_trans; [exact Hlt|done]).
    split_and!; [unfold len; rewrite Nat2N.id; by apply list_lookup_middle|done|].
    intros s' g' d Hne (e' & Hs' & Hd). exists e'. split; [|done].
    apply lookup_app_Some in Hs' as [Hs'|[Hge Hs']]; [done|].
    apply list_lookup_singleton_Some in Hs' as [Hz _]. unfold len in Hne. lia.
Qed.

Lemma set_value_timely st k v ttl now st' :
  CacheStore_set_value hash st k v ttl now = Some st' → now < U64 →
  len (cs_slots st) < TOMBSTONE_SLOT → timely st now → timely st' now.
Proof.
  unfold CacheStore_set_value. cbn zeta. intros H Hnow Hlt Ht.
  assert (∀ d, saturating_add64 now <$> ttl = Some d → now ≤ d) as Hd.
  { intros d (t & _ & ->)%fmap_Some. by apply saturating_ge. }
  apply bind_Some in H as ([s|] & _ & H).
  - apply bind_Some in H as ([g oe] & Hs & H). apply bind_Some in H as (e & He & H). simpl in He. subst oe.
    apply bind_Some in H as (ar & _ & H). apply bind_Some in H as (st1 & Hsch & H). injection H as <-.
    apply (timely_same st1); [|done|done].
    eapply (timely_put st now _ s _ (mkEntry (en_hash e) (en_key e) v (saturating_add64 now <$> ttl)));
      [done| | |exact Hd| | |exact Hsch]; [| |done|done].
    + apply list_lookup_insert_eq. by eapply lookup_lt_Some.
    + intros s' g' d Hne. by apply due_insert_other.
  - apply bind_Some in H as (st1 & Hens & H). apply ensure_frame in Hens as [Hs1 Hw1].
    apply bind_Some in H as ([pk ar] & _ & H). apply bind_Some in H as ([[s g] st2] & Hal & H).
    apply bind_Some in H as (st3 & Hins & H). apply insert_raw_frame in Hins as [Hs3 Hw3].
    apply bind_Some in H as (st4 & Hsch & H). injection H as <-.
    apply (timely_same st4); [|done|done].
    apply allocate_slot_due in Hal as (Hs2 & Hw2 & Hother); [|by rewrite Hs1].
    rewrite Hs1 in Hother.
    eapply (timely_put st now (cs_slots st2) s g _); [done|exact Hs2|exact Hother|exact Hd| | |exact Hsch].
    + by simpl.
    + simpl. congruence.
Qed.

Lemma set_slots_timely st now slots free :
  timely st now → (∀ s g d, due slots s g d → due (cs_slots st) s g d) → timely (set_slots st slots free) now.
Proof. intros Ht Hd. by eapply timely_shrink. Qed.

Lemma live_slot_id_len st k now r st' :
  CacheStore_live_slot_id hash st k now = Some (r, st') → len (cs_slots st') = len (cs_slots st).
Proof.
  unfold CacheStore_live_slot_id. intros H. apply bind_Some in H as ([s|] & _ & H); [|by injection H as _ <-].
  apply bind_Some in H as (sl & _ & H). cbn zeta in H.
  destruct (match sl_entry sl ≫= en_expires_at_ms with Some d => d <=? now | None => false end);
    [|by injection H as _ <-].
  apply bind_Some in H as ([b st1] & Hr & H). injection H as _ <-. simpl. by eapply remove_slot_len.
Qed.

Lemma live_entry_Some st s sl e :
  live_entry st s = Some (sl, e) → cs_slots st !! N.to_nat s = Some sl ∧ sl_entry sl = Some e.
Proof.
  unfold live_entry. intros H. apply bind_Some in H as (sl' & Hs & H).
  apply bind_Some in H as (e' & He & H). by injection H as <- <-.
Qed.

Lemma remove_counted_timely st s r st' now :
  remove_counted st s = Some (r, st') → timely st now → timely st' now.
Proof.
  unfold remove_counted. intros H Ht. apply bind_Some in H as ([b st1] & Hr & H). injection H as <- <-.
  apply remove_slot_timely with (now := now) in Hr; [|done]. destruct b; [by apply (timely_same st1)|done].
Qed.

Lemma expire_timely st k ttl now r st' :
  CacheStore_expire_ms hash st k ttl now = Some (r, st') → now < U64 → timely st now → timely st' now.
Proof.
  unfold CacheStore_expire_ms. intros H Hnow Ht. apply bind_Some in H as ([found st1] & Hl & H).
  apply (live_slot_id_timely _ _ _ _ _ Hl) in Ht as Ht1. destruct found as [s|]; [|by injection H as _ <-].
  destruct (ttl =? 0).
  - apply bind_Some in H as ([b st2] & Hr & H).
    apply remove_slot_timely with (now := now) in Hr; [|done].
    destruct b; injection H as _ <-; [by apply (timely_same st2)|done].
  - apply bind_Some in H as ([[g oe] e] & He & H). apply live_entry_Some in He as [Hs He]. simpl in He. subst oe.
    apply bind_Some in H as (st2 & Hsch & H). injection H as _ <-.
    eapply (timely_put st1 now _ s _ (mkEntry (en_hash e) (en_key e) (en_value e)
      (Some (saturating_add64 now ttl)))); [done| | | | | |exact Hsch]; [| | |done|done].
    + apply list_lookup_insert_eq. by eapply lookup_lt_Some.
    + intros s' g' d Hne. by apply due_insert_other.
    + intros d [= <-]. by apply saturating_ge.
Qed.

Lemma increment_timely st k z now r st' :
  CacheStore_increment hash st k z now = Some (r, st') → now < U64 →
  len (cs_slots st) < TOMBSTONE_SLOT → timely st now → timely st' now.
Proof.
  unfold CacheStore_increment. intros H Hnow Hlt Ht. apply bind_Some in H as ([found st1] & Hl & H).
  apply (live_slot_id_timely _ _ _ _ _ Hl) in Ht as Ht1. apply live_slot_id_len in Hl.
  destruct found as [s|].
  - apply bind_Some in H as ([[g oe] e] & He & H). apply live_entry_Some in He as [Hs He]. simpl in He. subst oe.
    apply bind_Some in H as (base & _ & H). destruct (res_bind _ _) as [n|err]; [|by injection H as _ <-].
    apply bind_Some in H as (ar & _ & H). injection H as _ <-.
    eapply (timely_shrink st1); [done|done|]. simpl. intros s' g' d Hdue.
    destruct (decide (s' = s)) as [->|Hne]; [|by eapply due_insert_other].
    destruct Hdue as (e' & Hs' & Hd). rewrite list_lookup_insert_eq in Hs' by (by eapply lookup_lt_Some).
    injection Hs' as <- <-. by exists e.
  - apply bind_Some in H as (st2 & Hset & H). injection H as _ <-.
    eapply set_value_timely; [exact Hset|done|by rewrite Hl|done].
Qed.

(** Every operation but a purge keeps the deadlines scheduled. *)
Lemma exec_timely now op st out st' :
  exec hash now op st = Some (out, st') → (∀ limit, op ≠ OPurge limit) → now < U64 →
  len (cs_slots st) < TOMBSTONE_SLOT → timely st now → timely st' now.
Proof.
  intros H Hop Hnow Hlt Ht. destruct op as [k v ttl|k z ttl|k|k|k|k|k ttl|k|k d|limit|]; simpl in H;
    [..|by destruct (Hop limit)|by injection H as _ <-].
  all: apply bind_Some in H as (res & H & Hout).
  - injection Hout as _ <-. unfold CacheStore_set_bytes in H. apply bind_Some in H as ([pk ar] & _ & H).
    eapply set_value_timely; [exact H|done|done|]. by apply (timely_same st).
  - injection Hout as _ <-. by eapply set_value_timely.
  - destruct res as [r st1]. injection Hout as _ <-. unfold CacheStore_get in H.
    apply bind_Some in H as ([[s|] st2] & Hl & H); apply live_slot_id_timely in Hl; try done.
    + apply bind_Some in H as ([sl e] & _ & H). apply bind_Some in H as (v & _ & H).
      injection H as _ <-. by apply (timely_same st2).
    + injection H as _ <-. by apply (timely_same st2).
  - destruct res as [r st1]. injection Hout as _ <-. unfold CacheStore_exists in H.
    apply bind_Some in H as ([f st2] & Hl & H). injection H as _ <-. by eapply live_slot_id_timely.
  - destruct res as [r st1]. injection Hout as _ <-. unfold CacheStore_delete in H.
    apply bind_Some in H as ([s|] & _ & H); [by eapply remove_counted_timely|by injection H as _ <-].
  - destruct res as [r st1]. injection Hout as _ <-. unfold CacheStore_delete_at in H.
    apply bind_Some in H as ([[s|] st2] & Hl & H); apply live_slot_id_timely in Hl; try done.
    + by eapply remove_counted_timely.
    + by injection H as _ <-.
  - destruct res as [r st1]. injection Hout as _ <-. by eapply expire_timely.
  - destruct res as [r st1]. injection Hout as _ <-. unfold CacheStore_ttl in H.
    apply bind_Some in H as ([[s|] st2] & Hl & H); apply live_slot_id_timely in Hl; try done.
    + apply bind_Some in H as ([sl e] & _ & H). by injection H as _ <-.
    + by injection H as _ <-.
  - destruct res as [r st1]. injection Hout as _ <-. by eapply increment_timely.
Qed.
End with_hash.

(** ** Draining the wheel *)

Lemma foldl_None {A B} (f : option B → A → option B) l :
  (∀ x, f None x = None) → foldl f None l = None.
Proof. intros Hf. induction l as [|x l IH]; simpl; [done|]. by rewrite Hf. Qed.

Lemma drain_ticks_spec count ticks bs out bs' out' :
  foldl (drain_tick count) (Some (bs, out)) ticks = Some (bs', out') →
  out ⊆ out' ∧ length bs' = length bs ∧
  ∀ i items r, bs !! i = Some items → r ∈ items →
    (r ∈ out' ∨ ∃ items', bs' !! i = Some items' ∧ r ∈ items') ∧
    (∀ t, t ∈ ticks → N.to_nat (t mod count) = i → r ∈ out').
Proof.
  revert bs out. induction ticks as [|t ticks IH]; intros bs out H.
  { simpl in H. injection H as <- <-. split_and!; [done|done|]. intros i items r Hi Hr.
    split; [right; by exists items|]. intros t Ht. by apply elem_of_nil in Ht. }
  cbn [foldl] in H. unfold drain_tick in H at 2. simpl in H.
  destruct (bs !! N.to_nat (t mod count)) as [items0|] eqn:Hi0; simpl in H.
  2: { by rewrite foldl_None in H. }
  destruct (IH _ _ H) as (Hsub & Hlen & Hkeep). rewrite length_insert in Hlen.
  split_and!; [intros r Hr; apply Hsub, elem_of_app; by left|done|]. intros i items r Hi Hr.
  destruct (decide (N.to_nat (t mod count) = i)) as [Heq|Hne].
  - assert (r ∈ out') as Hin.
    { apply Hsub, elem_of_app. right. congruence. }
    split; [by left|done].
  - destruct (Hkeep i items r) as [H1 H2]; [by rewrite list_lookup_insert_ne|done|]. split; [done|].
    intros t' [->|Ht']%elem_of_cons Heq; [done|by apply (H2 t')].
Qed.

Lemma elem_of_tick_range t a b : t ∈ tick_range a b ↔ a ≤ t ∧ t ≤ b.
Proof.
  unfold tick_range. rewrite list_elem_of_fmap. split.
  - intros (i & -> & Hi). apply elem_of_seq in Hi. lia.
  - intros [Ha Hb]. exists (N.to_nat (t - a)). split; [lia|]. apply elem_of_seq. lia.
Qed.

(** A drain hands out every reference of the ticks gone by. *)
Lemma drain_spec w now t w' items :
  ExpirationWheel_drain_candidates w now [] = Some (w', items) → wh_last_tick w = Some t →
  wh_buckets w ≠ [] → t ≤ now / wh_tick_ms w →
  wh_tick_ms w' = wh_tick_ms w ∧ wh_last_tick w' = Some (now / wh_tick_ms w) ∧
  length (wh_buckets w') = length (wh_buckets w) ∧
  ∀ r, in_wheel w r →
    (r ∈ items ∨ in_wheel w' r) ∧
    (t ≤ xr_expires_at_ms r / wh_tick_ms w ≤ now / wh_tick_ms w → r ∈ items).
Proof.
  unfold ExpirationWheel_drain_candidates. intros H Ht Hne Hle. rewrite Ht in H. cbn zeta in H.
  destruct (len (wh_buckets w) <=? now / wh_tick_ms w - t).
  - injection H as <- <-. simpl. rewrite length_replicate. split_and!; [done..|].
    intros r (its & Hb & Hr). assert (r ∈ mjoin (wh_buckets w)) as Hin.
    { apply list_elem_of_join. exists its. split; [done|]. by eapply list_elem_of_lookup_2. }
    auto.
  - apply bind_Some in H as ([bs out] & Hd & H). injection H as <- <-. simpl.
    destruct (drain_ticks_spec _ _ _ _ _ _ Hd) as (_ & Hlen & Hkeep). split_and!; [done|done|done|].
    intros r (its & Hb & Hr). destruct (Hkeep _ _ _ Hb Hr) as [H1 H2]. split.
    + destruct H1 as [H1|(its' & Hb' & Hr')]; [by left|right]. exists its'. split; [|done].
      unfold bucket_of in *. simpl. unfold len in *. by rewrite Hlen.
    + intros Hrange. apply (H2 (xr_expires_at_ms r / wh_tick_ms w)); [by apply elem_of_tick_range|done].
Qed.

(** ** Purging *)

(** In the middle of a purge: the references still to be looked at. *)
Record purging (now : N) (st : CacheStore) (items : list ExpirationRef) : Prop := {
  pu_ready : wheel_ready (cs_expiry st) now;
  pu_last : wh_last_tick (cs_expiry st) = Some (now / wh_tick_ms (cs_expiry st));
  pu_due : ∀ s g d, due (cs_slots st) s g d →
    mkExpirationRef s g d ∈ items ∨ scheduled (cs_expiry st) s g d ∧ now < d;
}.

Lemma purge_one_mono now limit n st item n' st' :
  purge_one now limit (Some (n, st)) item = Some (n', st') → n ≤ n'.
Proof.
  unfold purge_one. simpl. intros H. case_match; [apply bind_Some in H as (w & _ & H); by injection H as <- _|].
  destruct (cs_slots st !! _) as [[g [e|]]|]; simpl in H; [| |by injection H as <- _].
  2: { destruct (negb _); by injection H as <- _. }
  destruct (negb _); [by injection H as <- _|]. destruct (negb _); [by injection H as <- _|].
  destruct (now <? _); [apply bind_Some in H as (w & _ & H); by injection H as <- _|].
  apply bind_Some in H as ([[] st1] & _ & H); injection H as <- _; lia.
Qed.

Lemma purging_drop now st item items :
  purging now st (item :: items) →
  (∀ s g d, item = mkExpirationRef s g d → ¬ due (cs_slots st) s g d) → purging now st items.
Proof.
  intros [Hr Hl Hd] Hitem. split; [done|done|]. intros s g d Hdue.
  destruct (Hd s g d Hdue) as [[Heq|Hin]%elem_of_cons|Hs]; [|by left|by right].
  exfalso. by apply (Hitem s g d).
Qed.

Lemma purge_one_purging now limit n st item items n' st' :
  purge_one now limit (Some (n, st)) item = Some (n', st') → n < limit →
  purging now st (item :: items) → purging now st' items.
Proof.
  unfold purge_one. simpl. intros H Hlt Hp. rewrite (proj2 (N.leb_gt _ _) Hlt) in H.
  assert ((∀ s g d, item = mkExpirationRef s g d → ¬ due (cs_slots st) s g d) → st = st' →
    purging now st' items) as Hskip by (intros; subst; by eapply purging_drop).
  destruct (cs_slots st !! N.to_nat (xr_slot item)) as [[g oe]|] eqn:Hsl.
  2: { injection H as _ <-. apply Hskip; [|done]. intros s g d -> (e & Hs & _). simpl in Hsl. congruence. }
  destruct (g =? xr_generation item) eqn:Hg; simpl in H; rewrite Hg in H; simpl in H.
  2: { injection H as _ <-. apply Hskip; [|done]. intros s g' d -> (e & Hs & _). simpl in *.
       apply N.eqb_neq in Hg. congruence. }
  apply N.eqb_eq in Hg. subst g. destruct oe as [e|].
  2: { injection H as _ <-. apply Hskip; [|done]. intros s g' d -> (e & Hs & _). simpl in *. congruence. }
  destruct (bool_decide (en_expires_at_ms e = Some (xr_expires_at_ms item))) eqn:Hexp; simpl in H.
  2: { injection H as _ <-. apply Hskip; [|done]. intros s g' d -> (e' & Hs & Hd). simpl in *.
       apply bool_decide_eq_false in Hexp. congruence. }
  apply bool_decide_eq_true in Hexp. destruct Hp as [Hr Hl Hd].
  destruct (now <? xr_expires_at_ms item) eqn:Hlater.
  - apply N.ltb_lt in Hlater. apply bind_Some in H as (w & Hw & H). injection H as _ <-.
    destruct (schedule_spec _ _ _ _ Hw Hr) as (Hr' & Hin & _ & Htick & Hlast & _).
    split; simpl; [done|rewrite Htick; by apply Hlast|].
    intros s g d Hdue. destruct (Hd s g d Hdue) as [[Heq|Hi]%elem_of_cons|[Hs Hn]]; [|by left|].
    + right. subst item. simpl in *. split; [|done]. eapply scheduled_new; [done|done|lia].
    + right. split; [by eapply scheduled_mono|done].
  - apply bind_Some in H as ([b st1] & Hrem & H).
    apply remove_slot_inv in Hrem as [(_ & _ & Hnone)|(-> & Hw & g & e0 & Hs0 & Hsl1)];
      [by apply Hnone in Hsl|]. injection H as _ <-.
    rewrite Hsl in Hs0. injection Hs0 as <- <-.
    split; simpl; rewrite ?Hw; [done|done|]. rewrite Hsl1. intros s g d Hdue.
    apply (due_removed _ _ _ _ _ _ _ Hsl) in Hdue as [Hne Hdue].
    destruct (Hd s g d Hdue) as [[Heq|Hi]%elem_of_cons|Hs]; [|by left|by right].
    subst item. done.
Qed.

Lemma purge_all_purging now limit items n st n' st' :
  foldl (purge_one now limit) (Some (n, st)) items = Some (n', st') → n' < limit →
  purging now st items → purging now st' [].
Proof.
  assert (∀ items n st n' st', foldl (purge_one now limit) (Some (n, st)) items = Some (n', st') → n ≤ n')
    as Hmono.
  { clear. induction items as [|item items IH]; intros n st n' st' H; [by injection H as <- _|].
    cbn [foldl] in H. destruct (purge_one now limit (Some (n, st)) item) as [[n1 st1]|] eqn:H1.
    - etransitivity; [by eapply purge_one_mono|by eapply IH].
    - by rewrite foldl_None in H. }
  revert n st. induction items as [|item items IH]; intros n st H Hlt Hp; [by injection H as _ <-|].
  pose proof (Hmono _ _ _ _ _ H) as Hle. cbn [foldl] in H.
  destruct (purge_one now limit (Some (n, st)) item) as [[n1 st1]|] eqn:H1.
  - eapply (IH n1); [done|done|]. eapply purge_one_purging; [done|lia|done].
  - by rewrite foldl_None in H.
Qed.

(** A purge that is not cut short reaps every entry whose deadline has passed. *)
Lemma purge_reaps st now limit n st' :
  CacheStore_purge_expired st now limit = Some (n, st') → n < limit → timely st now →
  timely st' now ∧ ∀ s g d, due (cs_slots st') s g d → now < d.
Proof.
  unfold CacheStore_purge_expired. intros H Hlt [(Htick & Hne & Hlast) Hs].
  apply bind_Some in H as ([w items] & Hdrain & H). apply bind_Some in H as ([n1 st1] & Hfold & H).
  injection H as <- <-.
  assert (purging now (set_scratch (set_expiry st w) []) items) as Hp.
  { destruct (wh_last_tick (cs_expiry st)) as [t|] eqn:Ht.
    - destruct (drain_spec _ _ _ _ _ Hdrain Ht Hne (Hlast t eq_refl)) as (Htick' & Hl' & Hlen & Hdr).
      split; simpl.
      + split_and!; [by rewrite Htick'| |intros t' Ht'; rewrite Htick'; rewrite Hl' in Ht'; by injection Ht' as <-].
        intros Hnil. rewrite Hnil in Hlen. by destruct (wh_buckets (cs_expiry st)).
      + by rewrite Htick'.
      + intros s g d Hdue. destruct (Hs s g d Hdue) as [Hin (t' & Ht' & Hle)].
        assert (t' = t) as -> by congruence. destruct (Hdr _ Hin) as [[Hi|Hw] Hrange]; [by left|].
        destruct (N.le_gt_cases (d / wh_tick_ms (cs_expiry st)) (now / wh_tick_ms (cs_expiry st))) as [Hle'|Hgt].
        * left. by apply Hrange.
        * right. split; [split; [done|]|].
          -- exists (now / wh_tick_ms (cs_expiry st)). rewrite Htick'. split; [done|lia].
          -- apply N.lt_nge. intros Hd. apply (N.Div0.div_le_mono _ _ (wh_tick_ms (cs_expiry st))) in Hd. lia.
    - unfold ExpirationWheel_drain_candidates in Hdrain. rewrite Ht in Hdrain. injection Hdrain as <- <-.
      split; simpl; [split_and!; [done|done|by intros t [= <-]]|done|].
      intros s g d Hdue. destruct (Hs s g d Hdue) as [_ (t & Ht' & _)]. congruence. }
  destruct (purge_all_purging _ _ _ _ _ _ _ Hfold Hlt Hp) as [Hr Hl Hd].
  split; [split; simpl; [done|]|]; intros s g d Hdue;
    (destruct (Hd s g d Hdue) as [Hnil|[Hsch Hn]]; [by apply elem_of_nil in Hnil|done]).
Qed.

(** ** Runs *)

(** The clock does not run backwards, from [t] on. *)
Fixpoint clock_ok (t : N) (ops : list (N * cache_op)) : Prop :=
  match ops with
  | [] => True
  | (now, _) :: ops => t ≤ now ∧ now < U64 ∧ clock_ok now ops
  end.

Fixpoint final_time (t : N) (ops : list (N * cache_op)) : N :=
  match ops with [] => t | (now, _) :: ops => final_time now ops end.

(** No purge was cut short: each answered less than its limit. *)
Definition unhurried (o : N * cache_op) (out : cache_out) : Prop :=
  match o.2, out with OPurge limit, RCount n => n < limit | _, _ => True end.

Section runs.
Context (hash : bytes → N).

Lemma exec_unhurried now op st out st' :
  exec hash now op st = Some (out, st') → unhurried (now, op) out → now < U64 →
  len (cs_slots st) < TOMBSTONE_SLOT → timely st now → timely st' now.
Proof.
  intros H Hu Hnow Hlt Ht.
  assert ((∃ limit, op = OPurge limit) ∨ ∀ limit, op ≠ OPurge limit) as [[limit ->]|Hno]
    by (destruct op; eauto).
  - simpl in H. apply bind_Some in H as ([n st1] & H & Hout). injection Hout as <- <-.
    by apply (purge_reaps st now limit n st1 H Hu Ht).
  - by eapply exec_timely.
Qed.

Lemma run_timely ops st M t outs st' :
  store_ok hash st [] M → timely st t → Forall (λ o, op_fits o.2) ops →
  len (ba_bytes (cs_arena st)) + run_cost ops < U32 → len (cs_slots st) + len ops ≤ TOMBSTONE_SLOT →
  clock_ok t ops → run_ops hash ops st = Some (outs, st') → Forall2 unhurried ops outs →
  ∃ M', store_ok hash st' [] M' ∧ timely st' (final_time t ops) ∧ spec_run ops (bd_of M) outs (bd_of M') ∧
    len (ba_bytes (cs_arena st')) ≤ len (ba_bytes (cs_arena st)) + run_cost ops ∧
    len (cs_slots st') ≤ len (cs_slots st) + len ops.
Proof.
  revert st M t outs. induction ops as [|[now op] ops IH];
    intros st M t outs Hok Ht Hfit Hcost Hslots Hclock Hrun Hu; simpl in *.
  { injection Hrun as <- <-. exists M. split_and!; [done|done|constructor|lia|lia]. }
  destruct Hclock as (Hle & Hnow & Hclock). apply Forall_cons in Hfit as [Hop Hfit]. simpl in Hop.
  rewrite len_cons in *.
  destruct (op_refines hash now op st M Hok Hop) as (out & st1 & M1 & Hex & Hok1 & Hstep & [Hg1 Hg2]);
    [lia|lia|].
  rewrite Hex in Hrun. simpl in Hrun. apply bind_Some in Hrun as ([outs1 st2] & Hrun & Heq).
  injection Heq as <- <-. apply Forall2_cons in Hu as [Hu1 Hu].
  assert (timely st1 now) as Ht1.
  { eapply exec_unhurried; [done|done|done|lia|by eapply timely_later]. }
  destruct (IH st1 M1 now outs1 Hok1 Ht1 Hfit) as (M2 & ? & ? & ? & ? & ?); [lia|lia|done..|].
  exists M2. split_and!; [done|done|by econstructor|lia|lia].
Qed.

Lemma run_ops_app ops1 ops2 st :
  run_ops hash (ops1 ++ ops2) st =
    ('(outs1, st1) ← run_ops hash ops1 st;
     '(outs2, st2) ← run_ops hash ops2 st1;
     Some (outs1 ++ outs2, st2)).
Proof.
  revert st. induction ops1 as [|[now op] ops1 IH]; intros st; simpl.
  - by destruct (run_ops hash ops2 st) as [[]|].
  - destruct (exec hash now op st) as [[out st1]|]; simpl; [|done]. rewrite IH.
    destruct (run_ops hash ops1 st1) as [[o1 s1]|]; simpl; [|done].
    by destruct (run_ops hash ops2 s1) as [[]|].
Qed.

Lemma spec_run_app ops1 ops2 m1 outs1 m2 outs2 m3 :
  spec_run ops1 m1 outs1 m2 → spec_run ops2 m2 outs2 m3 → spec_run (ops1 ++ ops2) m1 (outs1 ++ outs2) m3.
Proof. induction 1; simpl; [done|]. intros. econstructor; eauto. Qed.

Lemma new_timely t : timely CacheStore_new t.
Proof.
  split; [by split_and!|]. intros s g d (e & Hs & _). done.
Qed.

(** [C14] Purging reaps everything that is due.  Take a run over a clock that does
    not run backwards, in which every purge, the earlier ones and the last,
    answered less than its limit, within the capacity limits of the store.  In
    the store after the last purge no slot holds an entry whose deadline has
    passed; the keys it counts are those of the map that answers the same
    operations, and none of these is expired.  (A purge that hits its limit puts
    the remaining candidates back into buckets the wheel has already passed: see
    [purge_limit_strands].) *)
Theorem purge_leaves_none_expired ops now limit outs st :
  Forall (λ o, op_fits o.2) ops → run_cost ops < U32 → len ops < TOMBSTONE_SLOT →
  clock_ok 0 (ops ++ [(now, OPurge limit)]) →
  run_ops hash (ops ++ [(now, OPurge limit)]) CacheStore_new = Some (outs, st) →
  Forall2 unhurried (ops ++ [(now, OPurge limit)]) outs →
  (∀ slot g e d, cs_slots st !! slot = Some (mkEntrySlot g (Some e)) → en_expires_at_ms e = Some d → now < d) ∧
  ∃ m, spec_run (ops ++ [(now, OPurge limit)]) ∅ outs m ∧ CacheStore_len st = N.of_nat (size m) ∧
    ∀ k b, m !! k = Some b → expired now b = false.
Proof.
  intros Hfit Hcost Hlen Hclock Hrun Hu. rewrite run_ops_app in Hrun.
  apply bind_Some in Hrun as ([outs1 st1] & Hrun1 & Hrun). simpl in Hrun.
  apply bind_Some in Hrun as ([outs2 st2] & Hrun2 & Hrun). injection Hrun as <- <-.
  apply bind_Some in Hrun2 as ([out st3] & Hex & Hrun2). injection Hrun2 as <- <-.
  assert (clock_ok 0 ops ∧ final_time 0 ops ≤ now ∧ now < U64) as (Hc1 & Hle & Hnow).
  { clear -Hclock. revert Hclock. generalize 0 as t. induction ops as [|[t1 op] ops IH]; intros t; simpl.
    - tauto.
    - intros (? & ? & Hc). destruct (IH t1 Hc) as (? & ? & ?). done. }
  assert (length outs1 = length ops) as Hlen1.
  { apply Forall2_length in Hu. rewrite !length_app in Hu. simpl in Hu. lia. }
  apply Forall2_app_inv in Hu as [Hu1 Hu2]; [|done].
  destruct (run_timely ops CacheStore_new ∅ 0 outs1 st1 (new_store_ok hash) (new_timely 0) Hfit)
    as (M1 & Hok1 & Ht1 & Hspec1 & Hb1 & Hs1); [done|by apply N.lt_le_incl|done..|].
  destruct (op_refines hash now (OPurge limit) st1 M1 Hok1 I) as (out' & st' & M' & Hex' & Hok' & Hstep & _).
  { simpl in *. rewrite len_nil in Hb1. lia. }
  { change (len (cs_slots CacheStore_new)) with 0 in Hs1. lia. }
  simpl in Hex'. rewrite Hex in Hex'. injection Hex' as <- <-.
  apply Forall2_cons in Hu2 as [Hu2 _]. simpl in Hex.
  apply bind_Some in Hex as ([n st4] & Hp & Hout). injection Hout as <- <-.
  destruct (purge_reaps _ _ _ _ _ Hp Hu2 (timely_later _ _ _ Ht1 Hle)) as [_ Hdue]. split.
  { intros slot g e d Hs Hd. apply (Hdue (N.of_nat slot) g d). exists e. by rewrite Nat2N.id. }
  exists (bd_of M'). split_and!.
  - eapply spec_run_app; [|econstructor; [exact Hstep|constructor]].
    unfold bd_of in Hspec1 at 1. by rewrite fmap_empty in Hspec1.
  - unfold CacheStore_len, bd_of. by rewrite map_size_fmap, (so_size _ _ _ _ Hok').
  - intros k b Hk. rewrite bd_of_lookup in Hk. apply fmap_Some in Hk as ([s b'] & Hk & ->). simpl.
    destruct (so_keys _ _ _ _ Hok' _ _ _ Hk) as (e & [g Hs]%slot_entry_Some & _ & Hd).
    unfold expired. destruct (bd_deadline b') as [d|] eqn:Hbd; [|done].
    apply N.leb_gt. apply (Hdue s g d). by exists e.
Qed.
End runs.

(** A run in which two keys expire and a purge finds both. *)
Definition wheel_ops : list (N * cache_op) :=
  [ (100, OSetInteger [97] 1 (Some 5)); (100, OSetInteger [98] 2 (Some 900)); (101, OSetInteger [99] 3 None);
    (103, OExpire [99] 20) ].

Definition wheel_outs : list cache_out := [RUnit; RUnit; RUnit; RBool true; RCount 2].

Lemma purge_leaves_none_expired_witness :
  ∃ st, run_ops sample_hash (wheel_ops ++ [(130, OPurge 10)]) CacheStore_new = Some (wheel_outs, st) ∧
    CacheStore_len st = 1 ∧
    (∀ slot g e d, cs_slots st !! slot = Some (mkEntrySlot g (Some e)) → en_expires_at_ms e = Some d → 130 < d) ∧
    ∃ m, spec_run (wheel_ops ++ [(130, OPurge 10)]) ∅ wheel_outs m ∧ CacheStore_len st = N.of_nat (size m) ∧
      ∀ k b, m !! k = Some b → expired 130 b = false.
Proof.
  assert (clock_ok 0 (wheel_ops ++ [(130, OPurge 10)])) as Hclock by done.
  assert (Forall (λ o, op_fits o.2) wheel_ops) as Hfit
    by (repeat (apply Forall_cons; split; [done|]); apply Forall_nil_2).
  assert (Forall2 unhurried (wheel_ops ++ [(130, OPurge 10)]) wheel_outs)
    as Hu by (repeat (apply Forall2_cons; split; [done|]); apply Forall2_nil_2).
  assert (∃ st, run_ops sample_hash (wheel_ops ++ [(130, OPurge 10)]) CacheStore_new = Some (wheel_outs, st) ∧
    CacheStore_len st = 1) as (st & Hrun & Hlen).
  { eexists. split; by vm_compute. }
  exists st. split; [done|]. split; [done|].
  exact (purge_leaves_none_expired sample_hash wheel_ops 130 10 _ st Hfit eq_refl eq_refl Hclock Hrun Hu).
Defined.

(** A purge with a limit strands what it leaves: the second of two keys that
    expired together is in the store after two more unlimited purges, ten
    seconds later. *)
Lemma purge_limit_strands :
  ∃ st, run_ops sample_hash
    [ (100, OSetInteger [97] 1 (Some 5)); (100, OSetInteger [98] 2 (Some 5)); (200, OPurge 1);
      (300, OPurge 100); (10200, OPurge 100); (10200, OLen) ] CacheStore_new =
    Some ([RUnit; RUnit; RCount 1; RCount 0; RCount 0; RCount 1], st).
Proof. eexists. by vm_compute. Qed.
