(* ===== verification/RedisSlot.v ===== *)
(** * Redis Cluster slots

    [redis_slot], its hash tags and its CRC from [src/runtime/cache.rs].  The
    checksum is shown to be the remainder of a polynomial division over GF(2),
    which is the definition of CRC-16/XMODEM. *)
From S2P Require Import Prelude Bytes.

Local Open Scope N_scope.

Definition REDIS_CLUSTER_SLOTS : N := 16384.

(** One bit, then one byte, of [crc16_xmodem]. *)
Definition crc_bit (crc : N) : N :=
  if negb (N.land crc 0x8000 =? 0) then N.lxor (as_u16 (N.shiftl crc 1)) 0x1021
  else as_u16 (N.shiftl crc 1).

Definition crc_byte (crc byte : N) : N := Nat.iter 8 crc_bit (N.lxor crc (as_u16 (N.shiftl byte 8))).

Definition crc16_xmodem (bs : bytes) : N := foldl crc_byte 0 bs.

Definition redis_hash_tag (key : bytes) : option bytes :=
  open ← fst <$> list_find (λ b, b = 123) key;
  let rest := drop (open + 1) key in
  close ← fst <$> list_find (λ b, b = 125) rest;
  match close with O => None | _ => Some (take close rest) end.

Definition redis_slot (key : bytes) : N :=
  N.land (crc16_xmodem (default key (redis_hash_tag key))) (REDIS_CLUSTER_SLOTS - 1).

(** [None] is the panic on zero shards. *)
Definition default_physical_shard (slot shard_count : N) : option N :=
  if shard_count =? 0 then None else Some (slot mod shard_count).

(** ** Polynomials over GF(2)

    A number stands for the polynomial whose coefficients are its bits. *)

(** The generator x^16 + x^12 + x^5 + 1. *)
Definition CRC_POLY : N := 0x11021.

(** The product of the generator and the polynomial with coefficients [q],
    lowest first. *)
Fixpoint poly_mul (q : list bool) : N :=
  match q with
  | [] => 0
  | b :: q => N.lxor (if b then CRC_POLY else 0) (2 * poly_mul q)
  end.

(** Equal up to a multiple of the generator. *)
Definition poly_cong (a b : N) : Prop := ∃ q, N.lxor a b = poly_mul q.

Fixpoint poly_add (p q : list bool) : list bool :=
  match p, q with
  | [], q => q
  | p, [] => p
  | a :: p, b :: q => xorb a b :: poly_add p q
  end.

Lemma double_lxor a b : 2 * N.lxor a b = N.lxor (2 * a) (2 * b).
Proof. by destruct a, b. Qed.

Lemma lxor_swap a b c d : N.lxor (N.lxor a b) (N.lxor c d) = N.lxor (N.lxor a c) (N.lxor b d).
Proof. rewrite !N.lxor_assoc. f_equal. rewrite <- !N.lxor_assoc. f_equal. apply N.lxor_comm. Qed.

Lemma poly_mul_add p q : poly_mul (poly_add p q) = N.lxor (poly_mul p) (poly_mul q).
Proof.
  revert q. induction p as [|a p IH]; intros [|b q]; simpl poly_add; try (by rewrite ?N.lxor_0_r).
  cbn [poly_mul]. rewrite IH, double_lxor.
  replace (if xorb a b then CRC_POLY else 0)
    with (N.lxor (if a then CRC_POLY else 0) (if b then CRC_POLY else 0)) by (by destruct a, b).
  apply lxor_swap.
Qed.

#[global] Instance poly_cong_equiv : Equivalence poly_cong.
Proof.
  split.
  - intros a. exists []. apply N.lxor_nilpotent.
  - intros a b [q Hq]. exists q. by rewrite N.lxor_comm.
  - intros a b c [p Hp] [q Hq]. exists (poly_add p q). rewrite poly_mul_add, <- Hp, <- Hq.
    rewrite N.lxor_assoc, <- (N.lxor_assoc b), N.lxor_nilpotent, N.lxor_0_l. done.
Qed.

#[global] Instance lxor_cong : Proper (poly_cong ==> poly_cong ==> poly_cong) N.lxor.
Proof.
  intros a b [p Hp] c d [q Hq]. exists (poly_add p q). rewrite poly_mul_add, <- Hp, <- Hq.
  apply lxor_swap.
Qed.

#[global] Instance double_cong : Proper (poly_cong ==> poly_cong) (N.mul 2).
Proof.
  intros a b [q Hq]. exists (false :: q). cbn [poly_mul]. by rewrite N.lxor_0_l, <- Hq, double_lxor.
Qed.

(** Multiples of the generator have degree at least 16. *)
Lemma lxor_small_high a b n : a < 2 ^ n → 2 ^ n ≤ b → 2 ^ n ≤ N.lxor a b.
Proof.
  intros Ha Hb. apply N.nlt_ge. intros Hlt.
  assert (b = N.lxor a (N.lxor a b)) as Heq by (by rewrite <- N.lxor_assoc, N.lxor_nilpotent, N.lxor_0_l).
  assert (N.lxor a (N.lxor a b) < 2 ^ n) as Hb'.
  { destruct (N.eq_dec (N.lxor a (N.lxor a b)) 0) as [->|Hne]; [lia|].
    apply N.log2_lt_pow2; [lia|]. eapply N.le_lt_trans; [apply N.log2_lxor|].
    apply N.max_lub_lt.
    - destruct (N.eq_dec a 0) as [->|]; [|by apply N.log2_lt_pow2; [lia|]].
      rewrite N.log2_nonpos by done. destruct (N.eq_dec n 0) as [->|]; [|lia].
      rewrite N.lxor_0_l in *. simpl in *. lia.
    - destruct (N.eq_dec (N.lxor a b) 0) as [Hz|]; [|by apply N.log2_lt_pow2; [lia|]].
      rewrite Hz, N.lxor_0_r in Hne. rewrite Hz. rewrite N.log2_nonpos by done.
      destruct (N.eq_dec n 0) as [->|]; [|lia]. simpl in Ha. lia. }
  lia.
Qed.

Lemma poly_mul_high q : poly_mul q = 0 ∨ 2 ^ 16 ≤ poly_mul q.
Proof.
  induction q as [|b q [IH|IH]]; [by left|..]; cbn [poly_mul].
  - rewrite IH. destruct b; [right; by vm_compute|by left].
  - right. transitivity (2 ^ 17); [by vm_compute|]. apply lxor_small_high; [by destruct b|].
    change (2 ^ 17) with (2 * 2 ^ 16). lia.
Qed.

Lemma lxor_lt a b n : a < 2 ^ n → b < 2 ^ n → N.lxor a b < 2 ^ n.
Proof.
  intros Ha Hb. apply N.nle_gt. intros Hle. pose proof (lxor_small_high a (N.lxor a b) n Ha Hle) as H.
  rewrite <- N.lxor_assoc, N.lxor_nilpotent, N.lxor_0_l in H. lia.
Qed.

(** Below degree 16 a remainder is unique. *)
Lemma poly_cong_unique a b : a < 2 ^ 16 → b < 2 ^ 16 → poly_cong a b → a = b.
Proof.
  intros Ha Hb [q Hq]. apply N.lxor_eq. destruct (poly_mul_high q) as [Hz|Hh]; [congruence|].
  pose proof (lxor_lt a b 16 Ha Hb). lia.
Qed.

(** ** The checksum *)

Lemma high_bit n m : m < 2 ^ n → 2 ^ n + m = N.lxor (2 ^ n) m.
Proof.
  intros Hm. apply N.add_nocarry_lxor. apply N.bits_inj. intros i.
  rewrite N.land_spec, N.bits_0, N.pow2_bits_eqb. destruct (N.eqb_spec n i) as [<-|]; [|done].
  rewrite N.testbit_eqb, N.div_small by done. done.
Qed.

Lemma crc_bit_cong crc : crc < 2 ^ 16 → crc_bit crc < 2 ^ 16 ∧ poly_cong (crc_bit crc) (2 * crc).
Proof.
  intros Hlt. unfold crc_bit, as_u16, U16. rewrite N.shiftl_mul_pow2. change (2 ^ 1) with 2.
  rewrite (N.mul_comm crc 2).
  destruct (N.lt_ge_cases crc (2 ^ 15)) as [Hl|Hh].
  - replace (N.land crc 32768) with 0; cycle 1.
    { symmetry. apply N.bits_inj. intros i. rewrite N.land_spec, N.bits_0.
      change 32768 with (2 ^ 15). rewrite N.pow2_bits_eqb. destruct (N.eqb_spec 15 i) as [<-|]; [|by rewrite andb_false_r].
      rewrite N.testbit_eqb, N.div_small by done. done. }
    simpl negb. cbn iota. rewrite N.mod_small by (change (2 ^ 16) with (2 * 2 ^ 15); lia).
    change (2 ^ 16) with (2 * 2 ^ 15). split; [lia|reflexivity].
  - destruct (N.eqb_spec (N.land crc 32768) 0) as [Hz|_].
    { exfalso. assert (N.testbit (N.land crc 32768) 15 = false) as Hb by (by rewrite Hz).
      rewrite N.land_spec, andb_true_r, N.testbit_eqb in Hb.
      replace (crc / 2 ^ 15) with 1 in Hb; [done|].
      apply (N.div_unique crc (2 ^ 15) 1 (crc - 2 ^ 15)); change (2 ^ 16) with (2 * 2 ^ 15) in Hlt; lia. }
    simpl negb. cbn iota. set (m := 2 * crc - 2 ^ 16).
    assert (m < 2 ^ 16 ∧ 2 * crc = 2 ^ 16 + m) as [Hm Heq].
    { unfold m. change (2 ^ 16) with (2 * 2 ^ 15) in *. lia. }
    replace ((2 * crc) mod 2 ^ 16) with m; cycle 1.
    { by apply (N.mod_unique _ _ 1). }
    split; [apply (lxor_lt m _ 16); [exact Hm|by vm_compute]|]. rewrite Heq, high_bit by done. exists [true]. cbn [poly_mul].
    rewrite N.lxor_0_r, (N.lxor_comm (2 ^ 16) m), lxor_swap, N.lxor_nilpotent. reflexivity.
Qed.

Lemma crc_bits_cong k crc :
  crc < 2 ^ 16 → Nat.iter k crc_bit crc < 2 ^ 16 ∧ poly_cong (Nat.iter k crc_bit crc) (2 ^ N.of_nat k * crc).
Proof.
  intros Hlt. induction k as [|k [IHl IHc]]; [split; [done|]; by rewrite N.mul_1_l|].
  cbn [Nat.iter nat_rect]. destruct (crc_bit_cong _ IHl) as [Hl Hc]. split; [done|].
  etransitivity; [exact Hc|]. rewrite Nat2N.inj_succ, N.pow_succ_r', <- N.mul_assoc.
  by apply double_cong.
Qed.

Lemma mul_pow2_lxor k a b : 2 ^ k * N.lxor a b = N.lxor (2 ^ k * a) (2 ^ k * b).
Proof. rewrite !(N.mul_comm (2 ^ k)), <- !N.shiftl_mul_pow2. apply N.shiftl_lxor. Qed.

Lemma append_byte m b : b < 2 ^ 8 → m * 2 ^ 8 + b = N.lxor (m * 2 ^ 8) b.
Proof.
  intros Hb. apply N.add_nocarry_lxor. apply N.bits_inj. intros i. rewrite N.land_spec, N.bits_0.
  destruct (N.lt_ge_cases i 8) as [Hi|Hi]; [by rewrite N.mul_pow2_bits_low|].
  replace (N.testbit b i) with false; [apply andb_false_r|].
  rewrite N.testbit_eqb, N.div_small; [done|].
  eapply N.lt_le_trans; [exact Hb|]. by apply N.pow_le_mono_r.
Qed.

Lemma crc_byte_cong crc m b :
  crc < 2 ^ 16 → b < 256 → poly_cong crc (m * 2 ^ 16) →
  crc_byte crc b < 2 ^ 16 ∧ poly_cong (crc_byte crc b) ((m * 256 + b) * 2 ^ 16).
Proof.
  intros Hlt Hb Hc. unfold crc_byte, as_u16, U16. rewrite N.shiftl_mul_pow2.
  assert (b * 2 ^ 8 < 2 ^ 16) as Hb16 by (change (2 ^ 16) with (256 * 2 ^ 8); lia).
  rewrite N.mod_small by done.
  destruct (crc_bits_cong 8 (N.lxor crc (b * 2 ^ 8))) as [Hl Hk]; [by apply lxor_lt|].
  split; [done|]. etransitivity; [exact Hk|]. change (N.of_nat 8) with 8.
  change 256 with (2 ^ 8). rewrite append_byte by done.
  rewrite (N.mul_comm _ (2 ^ 16)), (mul_pow2_lxor 16).
  replace (2 ^ 16 * (m * 2 ^ 8)) with (2 ^ 8 * (m * 2 ^ 16)) by lia.
  replace (2 ^ 16 * b) with (2 ^ 8 * (b * 2 ^ 8)) by (change (2 ^ 16) with (2 ^ 8 * 2 ^ 8); lia).
  rewrite <- mul_pow2_lxor. set (x := N.lxor crc _). set (y := N.lxor (m * _) _).
  assert (poly_cong x y) as Hxy by (unfold x, y; by rewrite Hc).
  change (2 ^ 8) with (2 * (2 * (2 * (2 * (2 * (2 * (2 * 2))))))). rewrite <- !N.mul_assoc.
  by do 8 apply double_cong.
Qed.

Lemma crc16_cong bs :
  Forall (λ b, b < 256) bs →
  crc16_xmodem bs < 2 ^ 16 ∧ poly_cong (crc16_xmodem bs) (from_be_bytes bs * 2 ^ 16).
Proof.
  intros Hbs. unfold crc16_xmodem, from_be_bytes.
  assert (poly_cong 0 (0 * 2 ^ 16)) as H0 by reflexivity.
  assert (0 < 2 ^ 16) as Hl0 by done. revert H0 Hl0. generalize 0 at 1 3 4 5 as crc. generalize 0 as m.
  induction Hbs as [|b bs Hb _ IH]; intros m crc Hc Hl; [done|]. cbn [foldl].
  destruct (crc_byte_cong crc m b Hl Hb Hc) as [Hl' Hc']. by apply IH.
Qed.

(** [C18] [crc16_xmodem] is the CRC of its name: for every message it is the one
    16-bit number that differs from the message shifted up by sixteen bits by a
    multiple, over GF(2), of x^16 + x^12 + x^5 + 1. *)
Theorem crc16_is_remainder (bs : bytes) (r : N) :
  Forall (λ b, b < 256) bs →
  crc16_xmodem bs = r ↔
  r < 2 ^ 16 ∧ ∃ q, N.lxor (from_be_bytes bs * 2 ^ 16) r = poly_mul q.
Proof.
  intros Hbs. destruct (crc16_cong bs Hbs) as [Hl Hc]. split.
  - intros <-. split; [done|]. by symmetry in Hc.
  - intros [Hr Hq]. apply poly_cong_unique; [done..|]. etransitivity; [exact Hc|exact Hq].
Qed.

(** The standard check value, of the digits 1 to 9. *)
Lemma crc16_is_remainder_witness :
  crc16_xmodem [49; 50; 51; 52; 53; 54; 55; 56; 57] = 0x31C3 ↔
  0x31C3 < 2 ^ 16 ∧
  ∃ q, N.lxor (from_be_bytes [49; 50; 51; 52; 53; 54; 55; 56; 57] * 2 ^ 16) 0x31C3 = poly_mul q.
Proof. apply crc16_is_remainder. by repeat constructor. Defined.

(** ** Slots *)

Lemma list_find_app_cons {A} (P : A → Prop) `{∀ x, Decision (P x)} l x k :
  Forall (λ y, ¬ P y) l → P x → list_find P (l ++ x :: k) = Some (length l, x).
Proof.
  intros Hl Hx. apply list_find_Some. split_and!.
  - by rewrite lookup_app_r, Nat.sub_diag by lia.
  - done.
  - intros j y Hj Hlt. rewrite lookup_app_l in Hj by done. eapply Forall_lookup_1 in Hl; [|exact Hj]. done.
Qed.

Lemma redis_hash_tag_spec pre tag post :
  Forall (λ b, b ≠ 123) pre → Forall (λ b, b ≠ 125) tag →
  redis_hash_tag (pre ++ 123 :: tag ++ 125 :: post) = match tag with [] => None | _ => Some tag end.
Proof.
  intros Hpre Htag. unfold redis_hash_tag.
  rewrite (list_find_app_cons (λ b, b = 123)) by done. cbn [fmap option_fmap option_map mbind option_bind fst].
  replace (drop (length pre + 1) (pre ++ 123 :: tag ++ 125 :: post)) with (tag ++ 125 :: post); cycle 1.
  { by rewrite <- drop_drop, drop_app_length. }
  rewrite (list_find_app_cons (λ b, b = 125)) by done. cbn [fmap option_fmap option_map mbind option_bind fst].
  rewrite take_app_length. by destruct tag.
Qed.

(** A key's slot is one of the 16384, keys that carry the same non-empty
    tag between the first opening brace and the next closing one share the slot
    of the tag, whatever surrounds it, an empty tag is no tag, and any slot has
    an owner among the physical shards, with a panic only when there are none. *)
Theorem redis_slot_routing (pre tag post : bytes) (shards : N) :
  Forall (λ b, b ≠ 123) pre → Forall (λ b, b ≠ 125) tag →
  let key := pre ++ 123 :: tag ++ 125 :: post in
  redis_slot key < REDIS_CLUSTER_SLOTS ∧
  redis_slot key = N.land (crc16_xmodem (if decide (tag = []) then key else tag)) (REDIS_CLUSTER_SLOTS - 1) ∧
  match default_physical_shard (redis_slot key) shards with
  | Some s => s < shards ∧ s < REDIS_CLUSTER_SLOTS
  | None => shards = 0
  end.
Proof.
  intros Hpre Htag key.
  assert (redis_slot key < REDIS_CLUSTER_SLOTS) as Hlt.
  { unfold redis_slot. change (REDIS_CLUSTER_SLOTS - 1) with (N.ones 14). rewrite N.land_ones.
    by apply N.mod_lt. }
  split_and!; [done|..].
  - unfold redis_slot at 1. unfold key at 2. rewrite redis_hash_tag_spec by done. by destruct tag.
  - unfold default_physical_shard. destruct (N.eqb_spec shards 0) as [|Hs]; [done|].
    split; [by apply N.mod_lt|]. eapply N.le_lt_trans; [by apply N.Div0.mod_le|done].
Qed.

Lemma redis_slot_routing_witness :
  let key := [97] ++ 123 :: [117; 49] ++ 125 :: [98] in
  redis_slot key < REDIS_CLUSTER_SLOTS ∧
  redis_slot key = N.land (crc16_xmodem (if decide ([117; 49] = []) then key else [117; 49])) (REDIS_CLUSTER_SLOTS - 1) ∧
  match default_physical_shard (redis_slot key) 3 with
  | Some s => s < 3 ∧ s < REDIS_CLUSTER_SLOTS
  | None => 3 = 0
  end.
Proof. apply (redis_slot_routing [97] [117; 49] [98] 3); by repeat constructor. Defined.
