(* ===== verification/Resp.v ===== *)
(** * RESP: the Redis wire protocol

    The command parser and the reply writers of [src/runtime/resp.rs].  The
    parser works on what has arrived of a connection so far; [Ok None] asks for
    more bytes. *)
From Stdlib Require Import ZArith String.
From S2P Require Import Prelude Bytes Text.

Local Open Scope list_scope.
Local Open Scope N_scope.

Inductive RespParseError :=
| ExpectedArray | ExpectedBulkString | InvalidInteger | InvalidLength | InvalidTerminator | EmptyCommand.

Record RespCommand := mkRespCommand { rc_name : bytes; rc_args_bytes : bytes; rc_argc : N }.
Record RespArgs := mkRespArgs { ra_bytes : bytes; ra_cursor : N; ra_remaining : N }.

Definition RespCommand_args (self : RespCommand) : RespArgs :=
  mkRespArgs (rc_args_bytes self) 0 (rc_argc self).

(** ** Parsing *)

(** [windows(2).position(|window| window == b"\r\n")] *)
Fixpoint find_crlf (bs : bytes) : option nat :=
  match bs with
  | [] => None
  | a :: tl =>
      if (a =? 13) && bool_decide (head tl = Some 10) then Some 0%nat else S <$> find_crlf tl
  end.

(** The digit loop of [parse_number_line]. *)
Fixpoint number_digits (value : Z) (digits : bytes) : result Z RespParseError :=
  match digits with
  | [] => Ok value
  | digit :: digits =>
      if negb (is_digit digit) then Err InvalidInteger else
      let? value := ok_or (v ← checked_i64 (value * 10); checked_i64 (v + Z.of_N (digit - 48))) InvalidInteger in
      number_digits value digits
  end.

(** The optional sign and the digits. *)
Definition number_value (digits : bytes) : result Z RespParseError :=
  match digits with
  | [] => Err InvalidInteger
  | 45 :: [] => Err InvalidInteger
  | 45 :: ds =>
      let? value := number_digits 0 ds in
      ok_or (checked_i64 (- value)) InvalidInteger
  | ds => number_digits 0 ds
  end.

Definition parse_number_line (input : bytes) (marker : N)
    : result (option (Z * N)) RespParseError :=
  match input with
  | [] => Ok None
  | m :: rest =>
      if negb (m =? marker) then Err InvalidInteger else
      match find_crlf rest with
      | None => Ok None
      | Some relative_end =>
          let line_end := N.of_nat relative_end + 1 in
          let? value := number_value (take relative_end rest) in
          Ok (Some (value, line_end + 2))
      end
  end.

Definition parse_bulk (input : bytes) : result (option (bytes * N)) RespParseError :=
  match input with
  | [] => Ok None
  | m :: _ =>
      if negb (m =? 36) then Err ExpectedBulkString else
      let? line := parse_number_line input 36 in
      match line with
      | None => Ok None
      | Some (l, header) =>
          if (l <? 0)%Z then Err InvalidLength else
          let? stop := ok_or (checked_add64 header (Z.to_N l)) InvalidLength in
          let? frame_end := ok_or (checked_add64 stop 2) InvalidLength in
          if len input <? frame_end then Ok None else
          if negb (bool_decide (slice input stop frame_end = [13; 10])) then Err InvalidTerminator
          else Ok (Some (slice input header stop, frame_end))
      end
  end.

(** [for _ in 1..count]: the end of the last argument. *)
Fixpoint skip_bulks (n : nat) (input : bytes) (cursor : N) : result (option N) RespParseError :=
  match n with
  | O => Ok (Some cursor)
  | S n =>
      let? bulk := parse_bulk (drop (N.to_nat cursor) input) in
      match bulk with
      | None => Ok None
      | Some (_, consumed) => skip_bulks n input (cursor + consumed)
      end
  end.

Definition parse_command (input : bytes) : result (option (RespCommand * N)) RespParseError :=
  match input with
  | [] => Ok None
  | m :: _ =>
      if negb (m =? 42) then Err ExpectedArray else
      let? line := parse_number_line input 42 in
      match line with
      | None => Ok None
      | Some (count, cursor) =>
          if (count <=? 0)%Z then Err EmptyCommand else
          let count := Z.to_N count in
          let? bulk := parse_bulk (drop (N.to_nat cursor) input) in
          match bulk with
          | None => Ok None
          | Some (name, consumed) =>
              let args_start := cursor + consumed in
              let? stop := skip_bulks (N.to_nat (count - 1)) input args_start in
              match stop with
              | None => Ok None
              | Some cursor =>
                  Ok (Some (mkRespCommand name (slice input args_start cursor) (count - 1), cursor))
              end
          end
      end
  end.

(** [Iterator::next] of the arguments. *)
Definition RespArgs_next (self : RespArgs) : option bytes * RespArgs :=
  if ra_remaining self =? 0 then (None, self) else
  match parse_bulk (drop (N.to_nat (ra_cursor self)) (ra_bytes self)) with
  | Ok (Some (value, consumed)) =>
      (Some value, mkRespArgs (ra_bytes self) (ra_cursor self + consumed) (ra_remaining self - 1))
  | _ => (None, self)
  end.

(** What a [for] loop over the iterator sees. *)
Fixpoint collect_args (fuel : nat) (self : RespArgs) : list bytes :=
  match fuel with
  | O => []
  | S fuel =>
      match RespArgs_next self with
      | (Some v, self) => v :: collect_args fuel self
      | (None, _) => []
      end
  end.

Definition RespArgs_collect (self : RespArgs) : list bytes :=
  collect_args (N.to_nat (ra_remaining self)) self.

(** ** Writing *)

(** The loop that fills a 20-byte buffer from its end; [room] is the cursor,
    and running below the buffer is a panic. *)
Fixpoint fill_decimal (room : nat) (value : N) (acc : bytes) : option (nat * bytes) :=
  if value =? 0 then Some (room, acc) else
  match room with
  | S room => fill_decimal room (value / 10) (48 + value mod 10 :: acc)
  | O => None
  end.

Definition write_u64_decimal (out : bytes) (value : N) : option bytes :=
  if value =? 0 then Some (out ++ [48]) else
  '(_, digits) ← fill_decimal 20 value [];
  Some (out ++ digits).

(** The digits [encode_i64_decimal] leaves at the front of its buffer. *)
Definition encode_i64_decimal (value : Z) : option bytes :=
  let magnitude := Z.abs_N value in
  '(room, digits) ← (if magnitude =? 0 then Some (19%nat, [48]) else fill_decimal 20 magnitude []);
  if (value <? 0)%Z then match room with S _ => Some (45 :: digits) | O => None end else Some digits.

Definition write_i64_decimal (out : bytes) (value : Z) : option bytes :=
  digits ← encode_i64_decimal value; Some (out ++ digits).

Definition write_simple (out value : bytes) : bytes := out ++ [43] ++ value ++ [13; 10].
Definition write_error (out value : bytes) : bytes := out ++ [45] ++ value ++ [13; 10].
Definition write_integer (out : bytes) (value : Z) : option bytes :=
  out ← write_i64_decimal (out ++ [58]) value; Some (out ++ [13; 10]).
Definition write_bulk (out value : bytes) : option bytes :=
  out ← write_u64_decimal (out ++ [36]) (len value); Some (out ++ [13; 10] ++ value ++ [13; 10]).
Definition write_null_bulk (out : bytes) : bytes := out ++ str "$-1" ++ [13; 10].
Definition write_moved (out : bytes) (slot : N) (target : bytes) : option bytes :=
  out ← write_u64_decimal (out ++ str "-MOVED ") slot;
  Some (out ++ [32] ++ target ++ [13; 10]).
Definition write_array_len (out : bytes) (l : N) : option bytes :=
  out ← write_u64_decimal (out ++ [42]) l; Some (out ++ [13; 10]).
Definition write_bulk_integer (out : bytes) (value : Z) : option bytes :=
  digits ← encode_i64_decimal value;
  out ← write_u64_decimal (out ++ [36]) (len digits);
  Some (out ++ [13; 10] ++ digits ++ [13; 10]).

(** ** Lines *)

Lemma find_crlf_Some bs i :
  find_crlf bs = Some i →
  bs = take i bs ++ 13 :: 10 :: drop (i + 2) bs ∧ (i + 2 ≤ length bs)%nat ∧
  ∀ rest, find_crlf (take i bs ++ 13 :: 10 :: rest) = Some i.
Proof.
  revert i. induction bs as [|a bs IH]; intros i H; [done|]. cbn [find_crlf] in H.
  destruct ((a =? 13) && bool_decide (head bs = Some 10)) eqn:Hc.
  - injection H as <-. bool_to_prop. subst a. destruct bs as [|b bs]; [done|].
    match goal with H : head _ = _ |- _ => injection H as -> end.
    split_and!; [done|simpl; lia|done].
  - destruct (find_crlf bs) as [j|] eqn:Hj; simplify_eq/=.
    destruct (IH j eq_refl) as (Heq & Hlen & Hext). split_and!; [by f_equal|lia|].
    intros rest. cbn [find_crlf]. rewrite Hext.
    replace (head (take j bs ++ 13 :: 10 :: rest)) with (head bs); [by rewrite Hc|].
    rewrite Heq at 1. by destruct (take j bs).
Qed.

Lemma find_crlf_clean hdr rest :
  Forall (λ b, b ≠ 13) hdr → find_crlf (hdr ++ 13 :: 10 :: rest) = Some (length hdr).
Proof.
  intros H. induction H as [|b hdr Hb _ IH]; [done|]. cbn [find_crlf app].
  rewrite (proj2 (N.eqb_neq b 13) Hb). cbn [andb]. by rewrite IH.
Qed.

Lemma number_line_Some input m z n :
  parse_number_line input m = Ok (Some (z, n)) →
  ∃ hdr rest, input = m :: hdr ++ 13 :: 10 :: rest ∧ n = len hdr + 3 ∧
    ∀ rest', parse_number_line (m :: hdr ++ 13 :: 10 :: rest') m = Ok (Some (z, n)).
Proof.
  unfold parse_number_line. destruct input as [|a input]; [done|].
  destruct (N.eqb_spec a m) as [->|]; [|done]. cbn [negb].
  destruct (find_crlf input) as [i|] eqn:Hi; [|done].
  destruct (find_crlf_Some _ _ Hi) as (Heq & Hlen & Hext). intros H.
  exists (take i input), (drop (i + 2) input). split_and!; [by rewrite <- Heq| |].
  - destruct (number_value _); simplify_eq/=. unfold len. rewrite length_take. lia.
  - intros rest'. rewrite N.eqb_refl. cbn [negb]. rewrite Hext.
    by rewrite take_app_length' by (rewrite length_take; lia).
Qed.

(** A line that was understood or refused stays so when more bytes arrive. *)
Lemma number_line_more input m more r :
  parse_number_line input m = r → r ≠ Ok None → parse_number_line (input ++ more) m = r.
Proof.
  unfold parse_number_line. destruct input as [|a input]; [by intros <-|]. cbn [app].
  destruct (negb (a =? m)); [done|]. destruct (find_crlf input) as [i|] eqn:Hi; [|by intros <-].
  destruct (find_crlf_Some _ _ Hi) as (Heq & Hlen & Hext). intros H _.
  replace (find_crlf (input ++ more)) with (Some i); cycle 1.
  { rewrite Heq, <- app_assoc. cbn [app]. symmetry. apply Hext. }
  by rewrite take_app_le by lia.
Qed.

(** ** Bulk strings *)

Lemma slice_at {A} (pre rest : list A) a b :
  slice (pre ++ rest) (len pre + a) (len pre + b) = slice rest a b.
Proof.
  unfold slice, len. f_equal; [lia|].
  replace (N.to_nat (N.of_nat (length pre) + a)) with (length pre + N.to_nat a)%nat by lia.
  by rewrite drop_app_add.
Qed.

Definition bulk_frame (hdr v : bytes) : bytes := 36 :: hdr ++ 13 :: 10 :: v ++ [13; 10].

Lemma len_bulk_frame hdr v : len (bulk_frame hdr v) = len hdr + 5 + len v.
Proof. unfold bulk_frame. rewrite !len_cons, len_app, !len_cons, len_app. unfold len; simpl. lia. Qed.

(** A line that announces [k] items or bytes. *)
Definition line_header (m : N) (hdr : bytes) (k : N) : Prop :=
  ∀ rest, parse_number_line (m :: hdr ++ 13 :: 10 :: rest) m = Ok (Some (Z.of_N k, len hdr + 3)).

Definition bulk_header : bytes → N → Prop := line_header 36.

Lemma parse_bulk_intro hdr v rest :
  bulk_header hdr (len v) → len (bulk_frame hdr v) < U64 →
  parse_bulk (bulk_frame hdr v ++ rest) = Ok (Some (v, len (bulk_frame hdr v))).
Proof.
  intros Hhdr Hfit. rewrite len_bulk_frame in *.
  assert (bulk_frame hdr v ++ rest = 36 :: hdr ++ 13 :: 10 :: (v ++ [13; 10] ++ rest)) as Heq.
  { unfold bulk_frame. simpl. f_equal. rewrite <- app_assoc. simpl. by rewrite <- app_assoc. }
  assert (bulk_frame hdr v ++ rest = (36 :: hdr ++ [13; 10]) ++ v ++ [13; 10] ++ rest) as Heq2.
  { rewrite Heq. simpl. f_equal. by rewrite <- app_assoc. }
  assert (len (36 :: hdr ++ [13; 10]) = len hdr + 3) as Hpre by (rewrite len_cons, len_app; unfold len; simpl; lia).
  unfold parse_bulk. rewrite Heq at 1. cbn iota beta. change (negb (36 =? 36)) with false. cbn iota.
  rewrite Heq at 1. rewrite Hhdr. cbn [res_bind].
  destruct (Z.ltb_spec (Z.of_N (len v)) 0); [lia|]. rewrite N2Z.id.
  rewrite checked_add64_Some by lia. cbn [ok_or res_bind].
  rewrite checked_add64_Some by lia. cbn [ok_or res_bind].
  assert (len (bulk_frame hdr v ++ rest) = len hdr + 5 + len v + len rest) as Hl
    by (rewrite len_app, len_bulk_frame; lia).
  rewrite Hl. destruct (N.ltb_spec (len hdr + 5 + len v + len rest) (len hdr + 3 + len v + 2)); [lia|].
  rewrite Heq2, <- Hpre. set (pre := 36 :: hdr ++ [13; 10]) in *.
  assert (slice (pre ++ v ++ [13; 10] ++ rest) (len pre + len v) (len pre + len v + 2) = [13; 10]) as ->.
  { rewrite app_assoc, <- len_app. by apply slice_app. }
  rewrite bool_decide_eq_true_2 by done. cbn [negb].
  rewrite slice_app by done. do 3 f_equal. lia.
Qed.

Lemma parse_bulk_Some input v n :
  parse_bulk input = Ok (Some (v, n)) →
  ∃ hdr rest, input = bulk_frame hdr v ++ rest ∧ n = len (bulk_frame hdr v) ∧
    bulk_header hdr (len v) ∧ n < U64.
Proof.
  unfold parse_bulk. destruct input as [|m input]; [done|].
  destruct (N.eqb_spec m 36) as [->|]; [cbn [negb]|done].
  destruct (parse_number_line (36 :: input) 36) as [[[l header]|]|] eqn:Hline; try done. cbn [res_bind].
  destruct (number_line_Some _ _ _ _ Hline) as (hdr & rest & Heq & -> & Hhdr).
  destruct (Z.ltb_spec l 0); [done|]. unfold checked_add64.
  destruct (N.ltb_spec (len hdr + 3 + Z.to_N l) U64); [|done]. cbn [ok_or res_bind].
  destruct (N.ltb_spec (len hdr + 3 + Z.to_N l + 2) U64); [|done]. cbn [ok_or res_bind].
  destruct (N.ltb_spec (len (36 :: input)) (len hdr + 3 + Z.to_N l + 2)) as [|Hlen]; [done|].
  case_bool_decide as Hterm; [|done]. cbn [negb]. intros [= <- <-].
  assert (36 :: input = (36 :: hdr ++ [13; 10]) ++ rest) as Heq2.
  { rewrite Heq. simpl. f_equal. by rewrite <- app_assoc. }
  assert (len (36 :: hdr ++ [13; 10]) = len hdr + 3) as Hpre by (rewrite len_cons, len_app; unfold len; simpl; lia).
  set (k := Z.to_N l) in *. rewrite Heq2 in Hterm, Hlen |- *. rewrite len_app, Hpre in Hlen.
  rewrite <- Hpre in Hterm |- *.
  rewrite <- N.add_assoc, slice_at in Hterm.
  pose proof (slice_at (36 :: hdr ++ [13; 10]) rest 0 k) as Hval. rewrite N.add_0_r in Hval. rewrite Hval.
  assert (k + 2 ≤ len rest) as Hk by lia.
  assert (len (slice rest 0 k) = k) as Hv by (unfold slice, len in *; rewrite length_take, length_drop; lia).
  exists hdr, (drop (N.to_nat (k + 2)) rest). rewrite len_bulk_frame, Hv. split_and!; [| |..].
  - rewrite Heq2 in Heq. unfold bulk_frame. simpl. f_equal. rewrite <- !app_assoc. f_equal. simpl. do 2 f_equal.
    rewrite <- app_assoc. change ([13; 10] ++ ?r) with ([13; 10] ++ r). rewrite <- Hterm. unfold slice.
    replace (N.to_nat (k + 2 - k)) with 2%nat by lia. rewrite N.sub_0_r. change (N.to_nat 0) with 0%nat.
    rewrite drop_0. replace (N.to_nat (k + 2)) with (N.to_nat k + 2)%nat by lia.
    rewrite <- drop_drop. by rewrite !take_drop.
  - lia.
  - intros rest'. rewrite Hhdr. do 3 f_equal. lia.
  - lia.
Qed.

Lemma parse_bulk_more input more r :
  parse_bulk input = r → r ≠ Ok None → parse_bulk (input ++ more) = r.
Proof.
  intros H Hr. destruct r as [[[v n]|]|e]; [|done|].
  - destruct (parse_bulk_Some _ _ _ H) as (hdr & rest & -> & -> & Hhdr & Hfit).
    rewrite <- app_assoc. by apply parse_bulk_intro.
  - unfold parse_bulk in *. destruct input as [|m input]; [done|]. cbn [app].
    destruct (negb (m =? 36)); [done|].
    destruct (parse_number_line (m :: input) 36) as [[[l header]|]|] eqn:Hline; [|done|].
    + cbn [res_bind] in H. pose proof (number_line_more _ _ more _ Hline ltac:(done)) as Hl.
      cbn [app] in Hl. rewrite Hl. cbn [res_bind].
      destruct (l <? 0)%Z; [done|]. destruct (checked_add64 header (Z.to_N l)) as [stop|]; [|done].
      cbn [ok_or res_bind] in *. destruct (checked_add64 stop 2) as [fe|] eqn:Hfe; [|done].
      cbn [ok_or res_bind] in *. destruct (N.ltb_spec (len (m :: input)) fe) as [|Hle]; [done|].
      destruct (N.ltb_spec (len (m :: input ++ more)) fe) as [Hlt|_].
      { rewrite app_comm_cons, len_app in Hlt. lia. }
      replace (slice (m :: input ++ more) stop fe) with (slice (m :: input) stop fe).
      { destruct (bool_decide _); done. }
      unfold checked_add64 in Hfe. destruct (stop + 2 <? U64); simplify_eq.
      unfold slice, len in *. rewrite app_comm_cons, drop_app_le by lia.
      rewrite take_app_le; [done|]. rewrite length_drop. lia.
    + pose proof (number_line_more _ _ more _ Hline ltac:(done)) as Hl. cbn [app] in Hl. rewrite Hl. done.
Qed.

(** ** Sequences of bulk strings *)

Definition frame_ok (f : bytes * bytes) : Prop :=
  bulk_header f.1 (len f.2) ∧ len (bulk_frame f.1 f.2) < U64.

Definition frames (fs : list (bytes * bytes)) : bytes := mjoin ((λ f, bulk_frame f.1 f.2) <$> fs).

Lemma frames_cons f fs : frames (f :: fs) = bulk_frame f.1 f.2 ++ frames fs.
Proof. done. Qed.

Lemma drop_step {A} (l : list A) (c : N) a b :
  drop (N.to_nat c) l = a ++ b → drop (N.to_nat (c + len a)) l = b.
Proof.
  intros H. unfold len. rewrite N2Nat.inj_add, Nat2N.id, <- drop_drop, H. apply drop_app_length.
Qed.

Lemma skip_bulks_intro fs input cursor rest :
  Forall frame_ok fs → drop (N.to_nat cursor) input = frames fs ++ rest →
  skip_bulks (length fs) input cursor = Ok (Some (cursor + len (frames fs))).
Proof.
  intros Hok. revert cursor. induction Hok as [|f fs [Hh Hf] _ IH]; intros cursor Hd.
  - simpl. unfold frames, len. simpl. by rewrite N.add_0_r.
  - rewrite frames_cons, <- app_assoc in Hd. cbn [skip_bulks length]. rewrite Hd, parse_bulk_intro by done.
    cbn [res_bind]. apply drop_step in Hd. rewrite IH by done. rewrite frames_cons, len_app. do 2 f_equal. lia.
Qed.

Lemma skip_bulks_Some n input cursor stop :
  skip_bulks n input cursor = Ok (Some stop) →
  ∃ fs rest, length fs = n ∧ Forall frame_ok fs ∧ drop (N.to_nat cursor) input = frames fs ++ rest ∧
    stop = cursor + len (frames fs).
Proof.
  revert cursor. induction n as [|n IH]; intros cursor H; simpl in H.
  - injection H as <-. exists [], (drop (N.to_nat cursor) input). split_and!; try done.
    unfold frames, len. simpl. lia.
  - destruct (parse_bulk _) as [[[v c]|]|] eqn:Hb; try done. simpl in H.
    destruct (parse_bulk_Some _ _ _ Hb) as (hdr & rest & Hd & -> & Hhdr & Hfit).
    destruct (IH _ H) as (fs & rest' & Hn & Hok & Hd' & Hstop).
    rewrite (drop_step _ _ _ _ Hd) in Hd'. subst rest.
    exists ((hdr, v) :: fs), rest'. rewrite frames_cons. cbn [fst snd length]. split_and!; [by rewrite Hn| |..].
    + by constructor.
    + by rewrite Hd, app_assoc.
    + rewrite Hstop, len_app. lia.
Qed.

(** A cursor inside the input stays inside when a bulk string is read. *)
Lemma parse_bulk_cursor input cursor v n :
  cursor ≤ len input → parse_bulk (drop (N.to_nat cursor) input) = Ok (Some (v, n)) →
  cursor + n ≤ len input.
Proof.
  intros Hc H. destruct (parse_bulk_Some _ _ _ H) as (hdr & rest & Hd & -> & _).
  apply (f_equal len) in Hd. rewrite len_app in Hd. unfold len in *. rewrite length_drop in Hd. lia.
Qed.

Lemma skip_bulks_more n input more cursor r :
  cursor ≤ len input → skip_bulks n input cursor = r → r ≠ Ok None →
  skip_bulks n (input ++ more) cursor = r.
Proof.
  revert cursor. induction n as [|n IH]; intros cursor Hc H Hr; simpl in *; [done|].
  rewrite drop_app_le by (unfold len in *; lia).
  destruct (parse_bulk (drop (N.to_nat cursor) input)) as [[[v c]|]|] eqn:Hb; simpl in H.
  - rewrite (parse_bulk_more _ more _ Hb) by done. simpl. apply IH; [by eapply parse_bulk_cursor|done..].
  - by subst r.
  - by rewrite (parse_bulk_more _ more _ Hb).
Qed.

Lemma collect_args_frames fs bs cursor rest :
  Forall frame_ok fs → drop (N.to_nat cursor) bs = frames fs ++ rest →
  collect_args (length fs) (mkRespArgs bs cursor (len fs)) = fs.*2.
Proof.
  intros Hok. revert cursor. induction Hok as [|f fs [Hh Hf] _ IH]; intros cursor Hd; [done|].
  cbn [collect_args length]. unfold RespArgs_next. cbn [ra_remaining ra_cursor ra_bytes].
  rewrite len_cons. destruct (N.eqb_spec (1 + len fs) 0); [lia|].
  rewrite frames_cons, <- app_assoc in Hd. rewrite Hd, parse_bulk_intro by done.
  replace (1 + len fs - 1) with (len fs) by lia. rewrite fmap_cons. f_equal.
  apply IH. by apply drop_step.
Qed.

(** ** Commands *)

Definition command_frame (hdr : bytes) (fs : list (bytes * bytes)) : bytes :=
  42 :: hdr ++ 13 :: 10 :: frames fs.

Lemma command_frame_app hdr fs rest :
  command_frame hdr fs ++ rest = (42 :: hdr ++ [13; 10]) ++ frames fs ++ rest.
Proof. unfold command_frame. simpl. f_equal. rewrite <- !app_assoc. done. Qed.

Lemma parse_command_intro hdr f fs rest :
  line_header 42 hdr (len (f :: fs)) → Forall frame_ok (f :: fs) →
  parse_command (command_frame hdr (f :: fs) ++ rest) =
  Ok (Some (mkRespCommand f.2 (frames fs) (len fs), len (command_frame hdr (f :: fs)))).
Proof.
  intros Hh Hok. pose proof Hok as [[Hf Hfit] Hfs]%Forall_cons.
  assert (len (42 :: hdr ++ [13; 10]) = len hdr + 3) as Hpre by (rewrite len_cons, len_app; unfold len; simpl; lia).
  set (input := command_frame hdr (f :: fs) ++ rest).
  assert (input = 42 :: hdr ++ 13 :: 10 :: frames (f :: fs) ++ rest) as Heq.
  { unfold input, command_frame. simpl. f_equal. by rewrite <- app_assoc. }
  assert (drop (N.to_nat (len hdr + 3)) input = bulk_frame f.1 f.2 ++ frames fs ++ rest) as Hd.
  { unfold input. rewrite command_frame_app, frames_cons, <- Hpre, <- app_assoc.
    unfold len. by rewrite Nat2N.id, drop_app_length. }
  unfold parse_command. rewrite Heq at 1. cbn iota beta. change (negb (42 =? 42)) with false. cbn iota.
  rewrite Heq at 1. rewrite Hh. cbn [res_bind].
  destruct (Z.leb_spec (Z.of_N (len (f :: fs))) 0) as [Hle|_]; [rewrite len_cons in Hle; lia|].
  rewrite N2Z.id, len_cons. replace (1 + len fs - 1) with (len fs) by lia.
  rewrite Hd, parse_bulk_intro by done. cbn [res_bind].
  apply drop_step in Hd. replace (N.to_nat (len fs)) with (length fs) by (unfold len; lia).
  rewrite (skip_bulks_intro fs _ _ rest) by done. cbn [res_bind]. do 2 f_equal. f_equal.
  - f_equal. unfold slice. rewrite Hd. unfold len at 1 2.
    replace (N.to_nat _) with (length (frames fs)) by (unfold len; lia). apply take_app_length.
  - unfold command_frame. rewrite len_cons, len_app, !len_cons, frames_cons, len_app. lia.
Qed.

Lemma parse_command_Some input cmd n :
  parse_command input = Ok (Some (cmd, n)) →
  ∃ hdr f fs rest, input = command_frame hdr (f :: fs) ++ rest ∧
    line_header 42 hdr (len (f :: fs)) ∧ Forall frame_ok (f :: fs) ∧
    cmd = mkRespCommand f.2 (frames fs) (len fs) ∧ n = len (command_frame hdr (f :: fs)).
Proof.
  intros H. pose proof H as H'. unfold parse_command in H. destruct input as [|m input]; [done|].
  destruct (N.eqb_spec m 42) as [->|]; [cbn [negb] in H|done].
  destruct (parse_number_line (42 :: input) 42) as [[[l header]|]|] eqn:Hline; try done. cbn [res_bind] in H.
  destruct (number_line_Some _ _ _ _ Hline) as (hdr & rest & Heq & -> & Hhdr).
  destruct (Z.leb_spec l 0); [done|].
  destruct (parse_bulk _) as [[[v c]|]|] eqn:Hb; try done. cbn [res_bind] in H.
  destruct (parse_bulk_Some _ _ _ Hb) as (h & r & Hd & -> & Hbh & Hfit).
  destruct (skip_bulks _ _ _) as [[stop|]|] eqn:Hs; try done.
  destruct (skip_bulks_Some _ _ _ _ Hs) as (fs & r' & Hn & Hok & Hd' & ->).
  rewrite (drop_step _ _ _ _ Hd) in Hd'. subst r.
  assert (len (42 :: hdr ++ [13; 10]) = len hdr + 3) as Hpre by (rewrite len_cons, len_app; unfold len; simpl; lia).
  assert (42 :: input = command_frame hdr ((h, v) :: fs) ++ r') as Hin.
  { rewrite command_frame_app, frames_cons. rewrite Heq in Hd |- *. cbn [fst snd].
    rewrite <- Hpre in Hd. replace (42 :: hdr ++ 13 :: 10 :: rest) with ((42 :: hdr ++ [13; 10]) ++ rest) in Hd |- *
      by (simpl; f_equal; by rewrite <- app_assoc).
    unfold len in Hd at 1. rewrite Nat2N.id, drop_app_length in Hd. f_equal; by rewrite Hd, app_assoc. }
  assert (len ((h, v) :: fs) = Z.to_N l) as Hl by (rewrite len_cons; unfold len; rewrite Hn; lia).
  assert (line_header 42 hdr (len ((h, v) :: fs))) as Hlh.
  { intros rest'. rewrite Hl, Z2N.id by lia. apply Hhdr. }
  assert (Forall frame_ok ((h, v) :: fs)) as Hall by (by constructor).
  exists hdr, (h, v), fs, r'. rewrite Hin, (parse_command_intro _ _ _ _ Hlh Hall) in H'.
  injection H' as <- <-. by split_and!.
Qed.

Lemma parse_command_more input more r :
  parse_command input = r → r ≠ Ok None → parse_command (input ++ more) = r.
Proof.
  intros H Hr. destruct r as [[[cmd n]|]|e]; [|done|].
  - destruct (parse_command_Some _ _ _ H) as (hdr & f & fs & rest & -> & Hh & Hok & -> & ->).
    rewrite <- app_assoc. by apply parse_command_intro.
  - unfold parse_command in *. destruct input as [|m input]; [done|]. cbn [app].
    destruct (negb (m =? 42)); [done|].
    destruct (parse_number_line (m :: input) 42) as [[[l header]|]|] eqn:Hline; [|done|]; cycle 1.
    { pose proof (number_line_more _ _ more _ Hline ltac:(done)) as Hl. cbn [app] in Hl. by rewrite Hl. }
    pose proof (number_line_more _ _ more _ Hline ltac:(done)) as Hl. cbn [app] in Hl. rewrite Hl.
    cbn [res_bind] in *. destruct (l <=? 0)%Z; [done|].
    assert (header ≤ len (m :: input)) as Hh.
    { destruct (number_line_Some _ _ _ _ Hline) as (hdr & rest & -> & -> & _).
      rewrite len_cons, len_app, !len_cons. lia. }
    rewrite (app_comm_cons input more m), drop_app_le by (unfold len in *; lia).
    destruct (parse_bulk (drop (N.to_nat header) (m :: input))) as [[[v c]|]|] eqn:Hb; [|done|].
    + rewrite (parse_bulk_more _ more _ Hb) by done. cbn [res_bind] in *.
      pose proof (parse_bulk_cursor _ _ _ _ Hh Hb) as Hc.
      destruct (skip_bulks _ (m :: input) _) as [[stop|]|] eqn:Hs; try done.
      by rewrite (skip_bulks_more _ _ more _ _ Hc Hs).
    + by rewrite (parse_bulk_more _ more _ Hb).
Qed.

(** ** Decimal numbers *)

Lemma fill_decimal_spec k room fuel n acc :
  n ≠ 0 → n < 10 ^ N.of_nat k → (k ≤ room)%nat → (N.size_nat n < fuel)%nat →
  ∃ room', fill_decimal room n acc = Some (room', dec_digits fuel n acc) ∧
    (room - k ≤ room')%nat ∧ (length (dec_digits fuel n acc) + room' = length acc + room)%nat.
Proof.
  revert room fuel n acc. induction k as [|k IH]; intros room fuel n acc Hn Hlt Hroom Hfuel.
  { change (10 ^ N.of_nat 0) with 1 in Hlt. lia. }
  destruct room as [|room]; [lia|]. destruct fuel as [|fuel]; [lia|].
  cbn [fill_decimal dec_digits]. destruct (N.eqb_spec n 0); [done|].
  destruct (N.eqb_spec (n / 10) 0) as [H0|Hne].
  - rewrite H0. exists room. split_and!; [by destruct room|lia|simpl; lia].
  - destruct (IH room fuel (n / 10) (48 + n mod 10 :: acc)) as (room' & Hf & Hr & Hl); [done| |lia| |].
    + apply N.Div0.div_lt_upper_bound. rewrite Nat2N.inj_succ, N.pow_succ_r' in Hlt. lia.
    + pose proof (size_nat_div10 n Hne). lia.
    + exists room'. split_and!; [done|lia|simpl in Hl; lia].
Qed.

Lemma length_dec_of_N k n : n < 10 ^ N.of_nat k → (length (dec_of_N n) ≤ S k)%nat.
Proof.
  intros Hn. destruct (decide (n = 0)) as [->|Hne]; [simpl; lia|].
  destruct (fill_decimal_spec k k (S (N.size_nat n)) n [] Hne Hn) as (r & _ & _ & Hl); [lia..|].
  unfold dec_of_N. simpl in *. lia.
Qed.

Lemma write_u64_decimal_spec out v : v < U64 → write_u64_decimal out v = Some (out ++ dec_of_N v).
Proof.
  intros Hv. unfold write_u64_decimal. destruct (N.eqb_spec v 0) as [->|Hne]; [done|].
  destruct (fill_decimal_spec 20 20 (S (N.size_nat v)) v [] Hne) as (r & Hf & _); [|lia..|].
  - eapply N.lt_trans; [exact Hv|]. by vm_compute.
  - by rewrite Hf.
Qed.

Lemma encode_i64_decimal_spec z :
  (- 2 ^ 63 ≤ z < 2 ^ 63)%Z → encode_i64_decimal z = Some (dec_of_Z z).
Proof.
  intros Hz. unfold encode_i64_decimal, dec_of_Z.
  destruct (N.eqb_spec (Z.abs_N z) 0) as [H0|Hne].
  { assert (z = 0%Z) as -> by lia. done. }
  destruct (fill_decimal_spec 19 20 (S (N.size_nat (Z.abs_N z))) (Z.abs_N z) [] Hne) as (r & Hf & Hr & _).
  - apply (N.le_lt_trans _ (2 ^ 63)); [lia|by vm_compute].
  - lia.
  - lia.
  - rewrite Hf. cbn [mbind option_bind]. destruct (Z.ltb_spec z 0).
    + destruct r; [lia|done].
    + unfold dec_of_N. by replace (Z.to_N z) with (Z.abs_N z) by lia.
Qed.

Lemma number_digits_spec ds a :
  Forall (λ b, is_digit b = true) ds → foldl (λ acc b, acc * 10 + (b - 48)) a ds < 2 ^ 63 →
  number_digits (Z.of_N a) ds = Ok (Z.of_N (foldl (λ acc b, acc * 10 + (b - 48)) a ds)).
Proof.
  intros Hd. revert a. induction Hd as [|d ds Hdig Hds IH]; intros a Hlt; [done|].
  cbn [foldl number_digits] in *. rewrite Hdig. cbn [negb].
  assert (∀ l x, x ≤ foldl (λ acc b, acc * 10 + (b - 48)) x l) as Hmono.
  { intros l. induction l as [|c l IHl]; intros x; [done|]. cbn [foldl].
    etransitivity; [|apply IHl]. lia. }
  pose proof (Hmono ds (a * 10 + (d - 48))) as Hle.
  assert (∀ z, (0 ≤ z < 2 ^ 63)%Z → checked_i64 z = Some z) as Hc.
  { intros z Hz. unfold checked_i64. destruct (Z.leb_spec (- 2 ^ 63) z); [|lia].
    destruct (Z.ltb_spec z (2 ^ 63)); [done|lia]. }
  assert (a * 10 + (d - 48) < 2 ^ 63) as Hb by lia. change (2 ^ 63) with 9223372036854775808 in *.
  rewrite Hc by lia. cbn [mbind option_bind]. rewrite Hc by lia. cbn [ok_or res_bind].
  rewrite <- IH by done. f_equal. lia.
Qed.

Lemma dec_header m n : n < 2 ^ 63 → line_header m (dec_of_N n) n.
Proof.
  intros Hn rest. destruct (dec_of_N_spec n) as (Hne & Hdig & Hval & _).
  unfold parse_number_line. rewrite N.eqb_refl. cbn [negb].
  rewrite find_crlf_clean; cycle 1.
  { eapply Forall_impl; [exact Hdig|]. intros b Hb ->. done. }
  rewrite take_app_length.
  assert (number_value (dec_of_N n) = Ok (Z.of_N n)) as ->.
  { pose proof (number_digits_spec (dec_of_N n) 0 Hdig) as Hnd. unfold dec_value in Hval.
    rewrite Hval in Hnd. specialize (Hnd Hn). change (Z.of_N 0) with 0%Z in Hnd.
    destruct (dec_of_N n) as [|b ds]; [done|]. apply Forall_cons in Hdig as [Hb _].
    unfold number_value. destruct (N.eqb_spec b 45) as [->|Hb45]; [done|]. rewrite <- Hnd.
    clear - Hb45. repeat (case_match; try done). }
  cbn [res_bind]. unfold len. do 3 f_equal. lia.
Qed.

(** ** Replies *)

Definition crlf : bytes := [13; 10].
Definition bulk_bytes (v : bytes) : bytes := bulk_frame (dec_of_N (len v)) v.
Definition integer_bytes (z : Z) : bytes := [58] ++ dec_of_Z z ++ crlf.

Lemma write_bulk_spec out v : len v < U64 → write_bulk out v = Some (out ++ bulk_bytes v).
Proof.
  intros Hv. unfold write_bulk. rewrite write_u64_decimal_spec by done. cbn [mbind option_bind]. f_equal.
  unfold bulk_bytes, bulk_frame. by rewrite <- !app_assoc.
Qed.

Lemma write_integer_spec out z :
  (- 2 ^ 63 ≤ z < 2 ^ 63)%Z → write_integer out z = Some (out ++ integer_bytes z).
Proof.
  intros Hz. unfold write_integer, write_i64_decimal. rewrite encode_i64_decimal_spec by done.
  cbn [mbind option_bind]. unfold integer_bytes, crlf. by rewrite <- !app_assoc.
Qed.

Lemma write_array_len_spec out n : n < U64 → write_array_len out n = Some (out ++ [42] ++ dec_of_N n ++ crlf).
Proof.
  intros Hn. unfold write_array_len. rewrite write_u64_decimal_spec by done. cbn [mbind option_bind].
  unfold crlf. by rewrite <- !app_assoc.
Qed.

Lemma length_dec_of_Z z : (- 2 ^ 63 ≤ z < 2 ^ 63)%Z → len (dec_of_Z z) < U64.
Proof.
  intros Hz. assert (∀ n, n ≤ 2 ^ 63 → (length (dec_of_N n) ≤ 20)%nat) as Hl.
  { intros n Hn. apply (length_dec_of_N 19). eapply N.le_lt_trans; [exact Hn|]. by vm_compute. }
  apply (N.le_lt_trans _ 21); [|done]. unfold dec_of_Z, len.
  destruct (Z.ltb_spec z 0); cbn [length].
  - specialize (Hl (Z.abs_N z) ltac:(lia)). lia.
  - specialize (Hl (Z.to_N z) ltac:(lia)). lia.
Qed.

Lemma write_bulk_integer_spec out z :
  (- 2 ^ 63 ≤ z < 2 ^ 63)%Z → write_bulk_integer out z = Some (out ++ bulk_bytes (dec_of_Z z)).
Proof.
  intros Hz. unfold write_bulk_integer. rewrite encode_i64_decimal_spec by done. cbn [mbind option_bind].
  apply write_bulk_spec. by apply length_dec_of_Z.
Qed.

(** ** Commands as clients send them *)

Definition encode_command (args : list bytes) : option bytes :=
  out ← write_array_len [] (len args);
  foldl (λ acc a, out ← acc; write_bulk out a) (Some out) args.

Definition arg_frame (a : bytes) : bytes * bytes := (dec_of_N (len a), a).

Lemma fold_write_bulk args out :
  Forall (λ a, len a < 2 ^ 63) args →
  foldl (λ acc a, out ← acc; write_bulk out a) (Some out) args = Some (out ++ frames (arg_frame <$> args)).
Proof.
  intros Hargs. revert out. induction Hargs as [|a args Ha _ IH]; intros out.
  - cbn [foldl fmap list_fmap]. unfold frames. simpl. by rewrite app_nil_r.
  - cbn [foldl]. cbn [mbind option_bind]. rewrite write_bulk_spec by (eapply N.lt_trans; [exact Ha|done]).
    rewrite IH. by rewrite fmap_cons, frames_cons, app_assoc.
Qed.

Lemma arg_frame_ok a : len a < 2 ^ 63 → frame_ok (arg_frame a).
Proof.
  intros Ha. split; [by apply dec_header|]. rewrite len_bulk_frame. simpl.
  assert (len a < 10 ^ 19) as Ha' by (eapply N.lt_trans; [exact Ha|by vm_compute]).
  pose proof (length_dec_of_N 19 (len a) Ha') as Hl.
  apply (N.le_lt_trans _ (20 + 5 + 2 ^ 63)); [|done].
  unfold len at 1. lia.
Qed.

Lemma encode_command_spec args :
  Forall (λ a, len a < 2 ^ 63) args → len args < 2 ^ 63 →
  encode_command args = Some (command_frame (dec_of_N (len args)) (arg_frame <$> args)).
Proof.
  intros Hargs Hn. unfold encode_command.
  rewrite write_array_len_spec by (eapply N.lt_trans; [exact Hn|done]). cbn [mbind option_bind].
  rewrite fold_write_bulk by done. unfold command_frame, crlf. simpl. by rewrite <- app_assoc.
Qed.

(** [C38] A command written as an array of bulk strings is read back: whatever
    follows it on the connection, the parser takes exactly its bytes and exposes
    its name and, through the iterator, its arguments in order; and on a proper
    prefix of it the parser asks for more instead of failing or answering. *)
Theorem resp_command_roundtrip (name : bytes) (args : list bytes) (rest : bytes) :
  Forall (λ a, len a < 2 ^ 63) (name :: args) → len (name :: args) < 2 ^ 63 →
  ∃ frame cmd, encode_command (name :: args) = Some frame ∧
    parse_command (frame ++ rest) = Ok (Some (cmd, len frame)) ∧
    rc_name cmd = name ∧ rc_argc cmd = len args ∧ RespArgs_collect (RespCommand_args cmd) = args ∧
    ∀ p q, frame = p ++ q → q ≠ [] → parse_command p = Ok None.
Proof.
  intros Hargs Hn. pose proof (encode_command_spec _ Hargs Hn) as Henc.
  assert (Forall frame_ok (arg_frame <$> name :: args)) as Hok.
  { apply Forall_fmap. eapply Forall_impl; [exact Hargs|]. intros a. apply arg_frame_ok. }
  rewrite fmap_cons in Henc, Hok.
  assert (line_header 42 (dec_of_N (len (name :: args))) (len (arg_frame name :: (arg_frame <$> args)))) as Hh.
  { rewrite <- (fmap_cons arg_frame name args). unfold len. rewrite length_fmap. by apply dec_header. }
  pose proof (λ r, parse_command_intro _ _ _ r Hh Hok) as Hparse.
  set (frame := command_frame (dec_of_N (len (name :: args))) (arg_frame name :: (arg_frame <$> args))) in *.
  eexists frame, _. split_and!; [done|apply Hparse|done|..].
  - unfold len. by rewrite <- (length_fmap arg_frame).
  - unfold RespArgs_collect, RespCommand_args. cbn [ra_remaining rc_argc rc_args_bytes].
    apply Forall_cons in Hok as [_ Hok].
    unfold len at 1. rewrite Nat2N.id. rewrite (collect_args_frames _ _ 0 []) by (rewrite ?app_nil_r; done).
    rewrite <- list_fmap_compose. by apply list_fmap_id.
  - intros p q Hpq Hq. destruct (parse_command p) as [[[cmd n]|]|e] eqn:Hp; [exfalso|done|exfalso].
    + pose proof (parse_command_more _ q _ Hp ltac:(done)) as Hm.
      specialize (Hparse []). rewrite app_nil_r, Hpq, Hm in Hparse. injection Hparse as _ Hlen.
      destruct (parse_command_Some _ _ _ Hp) as (hdr & f & fs & r & Heq & _ & _ & _ & Hn').
      apply (f_equal len) in Heq. rewrite len_app in Heq. rewrite len_app in Hlen.
      destruct q; [done|]. rewrite len_cons in Hlen. lia.
    + pose proof (parse_command_more _ q _ Hp ltac:(done)) as Hm.
      specialize (Hparse []). by rewrite app_nil_r, Hpq, Hm in Hparse.
Qed.

Lemma resp_command_roundtrip_witness :
  ∃ frame cmd, encode_command [str "SET"; [107]; [118; 13; 10]] = Some frame ∧
    parse_command (frame ++ [42]) = Ok (Some (cmd, len frame)) ∧
    rc_name cmd = str "SET" ∧ rc_argc cmd = len [[107]; [118; 13; 10]] ∧
    RespArgs_collect (RespCommand_args cmd) = [[107]; [118; 13; 10]] ∧
    ∀ p q, frame = p ++ q → q ≠ [] → parse_command p = Ok None.
Proof.
  apply (resp_command_roundtrip (str "SET") [[107]; [118; 13; 10]] [42]); [by repeat constructor|done].
Defined.

(** [C39] What the parser has decided it never takes back: for every input, an
    error or a command found in the bytes received so far stays the same error or
    the same command when more bytes arrive, a command uses some of the bytes that
    are there and is found in them alone, and the iterator over its arguments
    yields as many as were announced, so that taking them one by one cannot
    fail. *)
Theorem resp_parse_stable (input more : bytes) :
  match parse_command input with
  | Ok None => True
  | Err e => parse_command (input ++ more) = Err e
  | Ok (Some (cmd, n)) =>
      parse_command (input ++ more) = Ok (Some (cmd, n)) ∧ 0 < n ∧ n ≤ len input ∧
      parse_command (take (N.to_nat n) input) = Ok (Some (cmd, n)) ∧
      len (RespArgs_collect (RespCommand_args cmd)) = rc_argc cmd
  end.
Proof.
  destruct (parse_command input) as [[[cmd n]|]|e] eqn:Hp; [|done|by apply parse_command_more].
  split; [by apply parse_command_more|].
  destruct (parse_command_Some _ _ _ Hp) as (hdr & f & fs & rest & -> & Hh & Hok & -> & ->). split_and!.
  - unfold command_frame. rewrite len_cons. lia.
  - rewrite len_app. lia.
  - replace (N.to_nat _) with (length (command_frame hdr (f :: fs))) by (unfold len; lia).
    rewrite take_app_length. rewrite <- (app_nil_r (command_frame _ _)) at 1. by apply parse_command_intro.
  - unfold RespArgs_collect, RespCommand_args. cbn [ra_remaining rc_argc rc_args_bytes].
    apply Forall_cons in Hok as [_ Hok].
    unfold len at 2. rewrite Nat2N.id. rewrite (collect_args_frames _ _ 0 []) by (rewrite ?app_nil_r; done).
    unfold len. by rewrite length_fmap.
Qed.
