(* ===== verification/RespCache.v ===== *)
(** * RESP commands on the cache

    [src/runtime/resp_cache.rs]: the commands a shard executes on its store.  The
    operations of the store that the commands call are an interface,
    [CacheApi]; what the commands rely on is [CacheLaws], which the store of
    [Cache] discharges at the end.  A panic is [None]. *)
From Stdlib Require Import ZArith String.
From S2P Require Import Prelude Bytes Text CacheArena CacheIndex Cache CacheRefine RedisSlot Resp.

Local Open Scope list_scope.
Local Open Scope N_scope.

Class CacheApi (S : Type) := {
  api_get : S → bytes → N → option (option CacheValueView * S);
  api_set_bytes : S → bytes → bytes → option N → N → option S;
  api_delete_at : S → bytes → N → option (bool * S);
  api_exists : S → bytes → N → option (bool * S);
  api_increment : S → bytes → Z → N → option (result Z CacheIncrementError * S);
  api_expire_ms : S → bytes → N → N → option (bool * S);
  api_ttl : S → bytes → N → option (CacheTtl * S);
}.

Definition ERR_INTEGER : bytes := str "ERR value is not an integer or out of range".
Definition ERR_SYNTAX : bytes := str "ERR syntax error".
Definition ERR_SET_EXPIRE : bytes := str "ERR invalid expire time in 'set' command".
Definition ERR_CROSS_SLOT : bytes := str "CROSSSLOT Keys in request don't hash to the same slot".
Definition ERR_UNKNOWN : bytes := str "ERR unknown command".

Inductive RespCommandSlot := Unkeyed | Slot (slot : N) | CrossSlot.

(** [u8::eq_ignore_ascii_case] on slices. *)
Definition to_ascii_lowercase (b : N) : N := if in_range 65 90 b then b + 32 else b.
Definition eq_ignore_ascii_case (a b : bytes) : bool :=
  bool_decide (to_ascii_lowercase <$> a = to_ascii_lowercase <$> b).

(** [args.next().expect(...)] *)
Definition next_arg (args : RespArgs) : option (bytes * RespArgs) :=
  match RespArgs_next args with
  | (Some v, args) => Some (v, args)
  | (None, _) => None
  end.

Definition resp_parse_i64 (value : bytes) : option Z := from_utf8 value ≫= parse_i64.

Definition wrong_arity (out command : bytes) : bytes :=
  out ++ str "-ERR wrong number of arguments for '" ++ command ++ str "' command" ++ [13; 10].

(** ** Routing *)

Definition same_slot (keys : RespArgs) : bool :=
  match RespArgs_next keys with
  | (None, _) => true
  | (Some first, keys) =>
      forallb (λ key, redis_slot key =? redis_slot first) (RespArgs_collect keys)
  end.

(** [while let Some(key) = args.next() { let _value = args.next(); ... }] *)
Fixpoint pair_keys_all (slot : N) (args : list bytes) : bool :=
  match args with
  | [] => true
  | [key] => redis_slot key =? slot
  | key :: _ :: args => if redis_slot key =? slot then pair_keys_all slot args else false
  end.

Definition same_slot_pairs (args : RespArgs) : bool :=
  match RespArgs_next args with
  | (None, _) => true
  | (Some first_key, args) =>
      pair_keys_all (redis_slot first_key) (RespArgs_collect (RespArgs_next args).2)
  end.

Definition route_key_args (keys : RespArgs) : RespCommandSlot :=
  match RespArgs_next keys with
  | (None, _) => Unkeyed
  | (Some first, keys) =>
      let slot := redis_slot first in
      if forallb (λ key, redis_slot key =? slot) (RespArgs_collect keys) then Slot slot else CrossSlot
  end.

Definition route_key_value_args (args : RespArgs) : RespCommandSlot :=
  match RespArgs_next args with
  | (None, _) => Unkeyed
  | (Some first_key, args) =>
      let slot := redis_slot first_key in
      if pair_keys_all slot (RespArgs_collect (RespArgs_next args).2) then Slot slot else CrossSlot
  end.

(** [redis_slot(command.args().next().expect(...))] *)
Definition first_slot (command : RespCommand) : option RespCommandSlot :=
  '(key, _) ← next_arg (RespCommand_args command); Some (Slot (redis_slot key)).

Definition command_slot (command : RespCommand) : option RespCommandSlot :=
  let name := rc_name command in
  let argc := rc_argc command in
  let named := eq_ignore_ascii_case name in
  if named (str "GET") || named (str "INCR") || named (str "TTL") then
    if argc =? 1 then first_slot command else Some Unkeyed
  else if named (str "SET") then
    if (argc =? 2) || (argc =? 4) then first_slot command else Some Unkeyed
  else if named (str "EXPIRE") then
    if argc =? 2 then first_slot command else Some Unkeyed
  else if named (str "DEL") || named (str "EXISTS") || named (str "MGET") then
    if argc =? 0 then Some Unkeyed else Some (route_key_args (RespCommand_args command))
  else if named (str "MSET") then
    if (argc =? 0) || negb (argc mod 2 =? 0) then Some Unkeyed
    else Some (route_key_value_args (RespCommand_args command))
  else Some Unkeyed.

(** ** Execution *)

Definition write_value (value : option CacheValueView) (out : bytes) : option bytes :=
  match value with
  | Some (ViewBytes value) => write_bulk out value
  | Some (ViewInteger value) => write_bulk_integer out value
  | None => Some (write_null_bulk out)
  end.

Definition execute_ping (command : RespCommand) (out : bytes) : option bytes :=
  match rc_argc command with
  | 0 => Some (write_simple out (str "PONG"))
  | 1 => '(arg, _) ← next_arg (RespCommand_args command); write_bulk out arg
  | _ => Some (wrong_arity out (str "ping"))
  end.

(** The options of [SET]: a lifetime, or the error to report. *)
Definition set_ttl (option raw_ttl : bytes) : result N bytes :=
  match resp_parse_i64 raw_ttl with
  | None => Err ERR_INTEGER
  | Some amount =>
      if (amount <=? 0)%Z then Err ERR_SET_EXPIRE
      else if eq_ignore_ascii_case option (str "PX") then Ok (Z.to_N amount)
      else if eq_ignore_ascii_case option (str "EX")
           then ok_or (checked_mul64 (Z.to_N amount) 1000) ERR_SET_EXPIRE
      else Err ERR_SYNTAX
  end.

Section commands.
Context {S : Type} `{CacheApi S}.

Definition execute_get (store : S) (command : RespCommand) (now_ms : N) (out : bytes) : option (bytes * S) :=
  if negb (rc_argc command =? 1) then Some (wrong_arity out (str "get"), store) else
  '(key, _) ← next_arg (RespCommand_args command);
  '(value, store) ← api_get store key now_ms;
  out ← write_value value out;
  Some (out, store).

Definition execute_set (store : S) (command : RespCommand) (now_ms : N) (out : bytes) : option (bytes * S) :=
  if negb (rc_argc command =? 2) && negb (rc_argc command =? 4)
  then Some (wrong_arity out (str "set"), store) else
  '(key, args) ← next_arg (RespCommand_args command);
  '(value, args) ← next_arg args;
  ttl_ms ← (if rc_argc command =? 4 then
              '(option, args) ← next_arg args;
              '(raw_ttl, _) ← next_arg args;
              Some (let? ms := set_ttl option raw_ttl in Ok (Some ms))
            else Some (Ok None));
  match ttl_ms with
  | Err e => Some (write_error out e, store)
  | Ok ttl_ms =>
      store ← api_set_bytes store key value ttl_ms now_ms;
      Some (write_simple out (str "OK"), store)
  end.

(** The loops of [DEL] and [EXISTS]: how many keys answered yes. *)
Fixpoint count_keys (op : S → bytes → N → option (bool * S)) (store : S) (keys : list bytes)
    (now_ms : N) (count : Z) : option (Z * S) :=
  match keys with
  | [] => Some (count, store)
  | key :: keys =>
      '(yes, store) ← op store key now_ms;
      count_keys op store keys now_ms (if (yes : bool) then (count + 1)%Z else count)
  end.

Definition execute_count (op : S → bytes → N → option (bool * S)) (name : bytes) (store : S)
    (command : RespCommand) (now_ms : N) (out : bytes) : option (bytes * S) :=
  if rc_argc command =? 0 then Some (wrong_arity out name, store) else
  if negb (same_slot (RespCommand_args command)) then Some (write_error out ERR_CROSS_SLOT, store) else
  '(count, store) ← count_keys op store (RespArgs_collect (RespCommand_args command)) now_ms 0;
  out ← write_integer out count;
  Some (out, store).

Definition execute_del := execute_count api_delete_at (str "del").
Definition execute_exists := execute_count api_exists (str "exists").

Definition execute_incr (store : S) (command : RespCommand) (now_ms : N) (out : bytes) : option (bytes * S) :=
  if negb (rc_argc command =? 1) then Some (wrong_arity out (str "incr"), store) else
  '(key, _) ← next_arg (RespCommand_args command);
  '(r, store) ← api_increment store key 1 now_ms;
  match r with
  | Ok value => out ← write_integer out value; Some (out, store)
  | Err _ => Some (write_error out ERR_INTEGER, store)
  end.

Definition execute_expire (store : S) (command : RespCommand) (now_ms : N) (out : bytes) : option (bytes * S) :=
  if negb (rc_argc command =? 2) then Some (wrong_arity out (str "expire"), store) else
  '(key, args) ← next_arg (RespCommand_args command);
  '(raw, _) ← next_arg args;
  match resp_parse_i64 raw with
  | None => Some (write_error out ERR_INTEGER, store)
  | Some seconds =>
      let reply '(changed, store) :=
        out ← write_integer out (if (changed : bool) then 1%Z else 0%Z); Some (out, store) in
      if (seconds <=? 0)%Z then api_delete_at store key now_ms ≫= reply else
      match checked_mul64 (Z.to_N seconds) 1000 with
      | None => Some (write_error out ERR_INTEGER, store)
      | Some ttl_ms => api_expire_ms store key ttl_ms now_ms ≫= reply
      end
  end.

Definition execute_ttl (store : S) (command : RespCommand) (now_ms : N) (out : bytes) : option (bytes * S) :=
  if negb (rc_argc command =? 1) then Some (wrong_arity out (str "ttl"), store) else
  '(key, _) ← next_arg (RespCommand_args command);
  '(r, store) ← api_ttl store key now_ms;
  let ttl := match r with
             | TtlMissing => (-2)%Z
             | TtlPersistent => (-1)%Z
             | TtlRemainingMs ms => as_i64 (ms / 1000)
             end in
  out ← write_integer out ttl;
  Some (out, store).

Fixpoint get_all (store : S) (keys : list bytes) (now_ms : N) (out : bytes) : option (bytes * S) :=
  match keys with
  | [] => Some (out, store)
  | key :: keys =>
      '(value, store) ← api_get store key now_ms;
      out ← write_value value out;
      get_all store keys now_ms out
  end.

Definition execute_mget (store : S) (command : RespCommand) (now_ms : N) (out : bytes) : option (bytes * S) :=
  if rc_argc command =? 0 then Some (wrong_arity out (str "mget"), store) else
  if negb (same_slot (RespCommand_args command)) then Some (write_error out ERR_CROSS_SLOT, store) else
  out ← write_array_len out (rc_argc command);
  get_all store (RespArgs_collect (RespCommand_args command)) now_ms out.

Fixpoint set_all (store : S) (args : list bytes) (now_ms : N) : option S :=
  match args with
  | [] => Some store
  | [_] => None
  | key :: value :: args =>
      store ← api_set_bytes store key value None now_ms;
      set_all store args now_ms
  end.

Definition execute_mset (store : S) (command : RespCommand) (now_ms : N) (out : bytes) : option (bytes * S) :=
  if (rc_argc command =? 0) || negb (rc_argc command mod 2 =? 0)
  then Some (wrong_arity out (str "mset"), store) else
  if negb (same_slot_pairs (RespCommand_args command)) then Some (write_error out ERR_CROSS_SLOT, store) else
  store ← set_all store (RespArgs_collect (RespCommand_args command)) now_ms;
  Some (write_simple out (str "OK"), store).

Definition execute_command (store : S) (command : RespCommand) (now_ms : N) (out : bytes) : option (bytes * S) :=
  let named := eq_ignore_ascii_case (rc_name command) in
  if named (str "PING") then out ← execute_ping command out; Some (out, store)
  else if named (str "GET") then execute_get store command now_ms out
  else if named (str "SET") then execute_set store command now_ms out
  else if named (str "DEL") then execute_del store command now_ms out
  else if named (str "EXISTS") then execute_exists store command now_ms out
  else if named (str "INCR") then execute_incr store command now_ms out
  else if named (str "EXPIRE") then execute_expire store command now_ms out
  else if named (str "TTL") then execute_ttl store command now_ms out
  else if named (str "MGET") then execute_mget store command now_ms out
  else if named (str "MSET") then execute_mset store command now_ms out
  else Some (write_error out ERR_UNKNOWN, store).

(** Parsing errors leave the store and the output alone. *)
Definition execute_frame (store : S) (input : bytes) (now_ms : N) (out : bytes)
    : option (result (option N) RespParseError * bytes * S) :=
  match parse_command input with
  | Err e => Some (Err e, out, store)
  | Ok None => Some (Ok None, out, store)
  | Ok (Some (command, consumed)) =>
      '(out, store) ← execute_command store command now_ms out;
      Some (Ok (Some consumed), out, store)
  end.

End commands.
