(* ===== verification/RespRefine.v ===== *)
(** * What a RESP connection observes

    The commands of [RespCache] against a specification on a finite map from
    keys to values with deadlines: replies as data, then as bytes.  The proofs
    use the interface of the store and its laws only; the cache store satisfies
    them by [CacheRefine]. *)
From Stdlib Require Import ZArith String.
From S2P Require Import Prelude Bytes Text CacheArena CacheIndex Cache CacheRefine RedisSlot Resp RespCache.

Local Open Scope list_scope.
Local Open Scope N_scope.

(** ** Replies *)

Inductive reply :=
| ReplySimple (s : bytes)
| ReplyError (e : bytes)
| ReplyInteger (z : Z)
| ReplyValue (v : option bytes)
| ReplyValues (vs : list (option bytes)).

Definition value_reply (v : option bytes) : bytes :=
  match v with Some v => bulk_bytes v | None => str "$-1" ++ crlf end.

Definition reply_bytes (r : reply) : bytes :=
  match r with
  | ReplySimple s => [43] ++ s ++ crlf
  | ReplyError e => [45] ++ e ++ crlf
  | ReplyInteger z => integer_bytes z
  | ReplyValue v => value_reply v
  | ReplyValues vs => [42] ++ dec_of_N (len vs) ++ crlf ++ mjoin (value_reply <$> vs)
  end.

Definition arity_error (name : bytes) : reply :=
  ReplyError (str "ERR wrong number of arguments for '" ++ name ++ str "' command").

Definition value_text (v : CacheValueView) : bytes :=
  match v with ViewBytes v => v | ViewInteger z => dec_of_Z z end.

(** ** The specification *)

Local Abbreviation cache_map := (gmap bytes binding).

Definition live (k : bytes) (now : N) (m : cache_map) : bool := bool_decide (is_Some (reap k now m !! k)).

Definition spec_get (k : bytes) (now : N) (m : cache_map) : option bytes :=
  value_text ∘ bd_value <$> reap k now m !! k.

(** Keys in order, each with its effect on the map. *)
Fixpoint spec_count (drop_key : bool) (ks : list bytes) (now : N) (n : Z) (m : cache_map) : Z * cache_map :=
  match ks with
  | [] => (n, m)
  | k :: ks =>
      spec_count drop_key ks now (if live k now m then n + 1 else n)%Z
        (if drop_key then delete k m else reap k now m)
  end.

Fixpoint spec_mget (ks : list bytes) (now : N) (m : cache_map) : list (option bytes) * cache_map :=
  match ks with
  | [] => ([], m)
  | k :: ks => let '(vs, m') := spec_mget ks now (reap k now m) in (spec_get k now m :: vs, m')
  end.

Fixpoint pairs (l : list bytes) : option (list (bytes * bytes)) :=
  match l with
  | [] => Some []
  | [_] => None
  | k :: v :: l => ps ← pairs l; Some ((k, v) :: ps)
  end.

Definition one_slot (ks : list bytes) : bool :=
  match ks with
  | [] => true
  | k :: ks => forallb (λ k', redis_slot k' =? redis_slot k) ks
  end.

Definition put (k v : bytes) (deadline : option N) (m : cache_map) : cache_map :=
  <[k := mkBinding (ViewBytes v) deadline]> m.

Definition expire_reply (c : bool) : reply := ReplyInteger (if c then 1 else 0)%Z.

Definition spec_ping (args : list bytes) (m : cache_map) : reply * cache_map :=
  match args with
  | [] => (ReplySimple (str "PONG"), m)
  | [a] => (ReplyValue (Some a), m)
  | _ => (arity_error (str "ping"), m)
  end.

Definition spec_get_cmd (now : N) (args : list bytes) (m : cache_map) : reply * cache_map :=
  match args with
  | [k] => (ReplyValue (spec_get k now m), reap k now m)
  | _ => (arity_error (str "get"), m)
  end.

Definition spec_set_cmd (now : N) (args : list bytes) (m : cache_map) : reply * cache_map :=
  match args with
  | [k; v] => (ReplySimple (str "OK"), put k v None m)
  | [k; v; option; ttl] =>
      match set_ttl option ttl with
      | Ok ms => (ReplySimple (str "OK"), put k v (Some (saturating_add64 now ms)) m)
      | Err e => (ReplyError e, m)
      end
  | _ => (arity_error (str "set"), m)
  end.

(** Commands on several keys of one slot. *)
Definition multi_key (name : bytes) (args : list bytes) (m : cache_map) (r : reply * cache_map)
    : reply * cache_map :=
  if bool_decide (args = []) then (arity_error name, m)
  else if one_slot args then r else (ReplyError ERR_CROSS_SLOT, m).

Definition count_reply (nm : Z * cache_map) : reply * cache_map := (ReplyInteger nm.1, nm.2).
Definition values_reply (vm : list (option bytes) * cache_map) : reply * cache_map :=
  (ReplyValues vm.1, vm.2).

Definition spec_incr_cmd (now : N) (args : list bytes) (m : cache_map) : reply * cache_map :=
  match args with
  | [k] => match spec_increment now k 1 (reap k now m) with
           | (RInteger (Ok z), m') => (ReplyInteger z, m')
           | (_, m') => (ReplyError ERR_INTEGER, m')
           end
  | _ => (arity_error (str "incr"), m)
  end.

Definition spec_expire_cmd (now : N) (args : list bytes) (m : cache_map) : reply * cache_map :=
  match args with
  | [k; raw] =>
      match resp_parse_i64 raw with
      | None => (ReplyError ERR_INTEGER, m)
      | Some seconds =>
          if (seconds <=? 0)%Z then (expire_reply (live k now m), delete k m) else
          match checked_mul64 (Z.to_N seconds) 1000 with
          | None => (ReplyError ERR_INTEGER, m)
          | Some ms => (expire_reply (live k now m), (spec_expire now ms k (reap k now m)).2)
          end
      end
  | _ => (arity_error (str "expire"), m)
  end.

(** Seconds left, rounded down. *)
Definition ttl_seconds (t : CacheTtl) : Z :=
  match t with
  | TtlMissing => -2
  | TtlPersistent => -1
  | TtlRemainingMs ms => as_i64 (ms / 1000)
  end.

Definition spec_ttl_cmd (now : N) (args : list bytes) (m : cache_map) : reply * cache_map :=
  match args with
  | [k] => (ReplyInteger (ttl_seconds (spec_ttl now (reap k now m !! k))), reap k now m)
  | _ => (arity_error (str "ttl"), m)
  end.

Definition spec_mset_cmd (args : list bytes) (m : cache_map) : reply * cache_map :=
  match pairs args with
  | None | Some [] => (arity_error (str "mset"), m)
  | Some ps =>
      if one_slot ps.*1
      then (ReplySimple (str "OK"), foldl (λ m p, put p.1 p.2 None m) m ps)
      else (ReplyError ERR_CROSS_SLOT, m)
  end.

Definition spec_command (now : N) (name : bytes) (args : list bytes) (m : cache_map) : reply * cache_map :=
  let named := eq_ignore_ascii_case name in
  if named (str "PING") then spec_ping args m
  else if named (str "GET") then spec_get_cmd now args m
  else if named (str "SET") then spec_set_cmd now args m
  else if named (str "DEL") then multi_key (str "del") args m (count_reply (spec_count true args now 0 m))
  else if named (str "EXISTS") then multi_key (str "exists") args m (count_reply (spec_count false args now 0 m))
  else if named (str "INCR") then spec_incr_cmd now args m
  else if named (str "EXPIRE") then spec_expire_cmd now args m
  else if named (str "TTL") then spec_ttl_cmd now args m
  else if named (str "MGET") then multi_key (str "mget") args m (values_reply (spec_mget args now m))
  else if named (str "MSET") then spec_mset_cmd args m
  else (ReplyError ERR_UNKNOWN, m).

(** ** What the commands need of the store *)

Definition arg_cost (args : list bytes) : N := foldr (λ a c, arena_cost (len a) + c) 0 args.
Definition arg_fits (a : bytes) : Prop := len a ≤ 2 ^ MAX_ARENA_EXP.

(** [cache_rel c n s m]: the store [s] holds the map [m] and has room for [c]
    more bytes of blocks and [n] more operations. *)
Class CacheLaws (S : Type) `{CacheApi S} := {
  cache_rel : N → N → S → cache_map → Prop;
  law_weaken c n c' n' s m : cache_rel c n s m → c' ≤ c → n' ≤ n → cache_rel c' n' s m;
  law_get c n s m k now :
    cache_rel c (1 + n) s m →
    ∃ s', api_get s k now = Some (bd_value <$> reap k now m !! k, s') ∧ cache_rel c n s' (reap k now m);
  law_set c n s m k v ttl now :
    arg_fits k → arg_fits v → cache_rel (arena_cost (len k) + arena_cost (len v) + c) (1 + n) s m →
    ∃ s', api_set_bytes s k v ttl now = Some s' ∧
      cache_rel c n s' (put k v (saturating_add64 now <$> ttl) m);
  law_delete c n s m k now :
    cache_rel c (1 + n) s m →
    ∃ s', api_delete_at s k now = Some (live k now m, s') ∧ cache_rel c n s' (delete k m);
  law_exists c n s m k now :
    cache_rel c (1 + n) s m →
    ∃ s', api_exists s k now = Some (live k now m, s') ∧ cache_rel c n s' (reap k now m);
  law_increment c n s m k d now :
    arg_fits k → cache_rel (arena_cost (len k) + c) (1 + n) s m →
    ∃ r m' s', spec_increment now k d (reap k now m) = (RInteger r, m') ∧
      api_increment s k d now = Some (r, s') ∧ cache_rel c n s' m';
  law_expire c n s m k ttl now :
    cache_rel c (1 + n) s m →
    ∃ s', api_expire_ms s k ttl now = Some (live k now m, s') ∧
      cache_rel c n s' (spec_expire now ttl k (reap k now m)).2;
  law_ttl c n s m k now :
    cache_rel c (1 + n) s m →
    ∃ s', api_ttl s k now = Some (spec_ttl now (reap k now m !! k), s') ∧ cache_rel c n s' (reap k now m);
}.

(** ** Arguments of a command *)

(** The iterator has the arguments [vs] ahead. *)
Definition args_hold (a : RespArgs) (vs : list bytes) : Prop :=
  ∃ fs, Forall frame_ok fs ∧ vs = fs.*2 ∧ ra_remaining a = len fs ∧
        drop (N.to_nat (ra_cursor a)) (ra_bytes a) = frames fs.

Lemma args_next_cons a v vs :
  args_hold a (v :: vs) → ∃ a', RespArgs_next a = (Some v, a') ∧ args_hold a' vs.
Proof.
  intros ([|f fs] & Hok & Heq & Hrem & Hd); [done|]. simpl in Heq. injection Heq as -> ->.
  apply Forall_cons in Hok as [[Hh Hf] Hok]. unfold RespArgs_next. rewrite Hrem, len_cons.
  destruct (N.eqb_spec (1 + len fs) 0); [lia|]. rewrite Hd, frames_cons, parse_bulk_intro by done.
  eexists. split; [done|]. exists fs. cbn [ra_remaining ra_cursor ra_bytes]. split_and!; [done|done|lia|].
  rewrite frames_cons in Hd. by apply drop_step.
Qed.

Lemma args_next_nil a : args_hold a [] → RespArgs_next a = (None, a).
Proof.
  intros ([|f fs] & _ & Heq & Hrem & _); [|done]. unfold RespArgs_next. by rewrite Hrem.
Qed.

Lemma next_arg_cons a v vs :
  args_hold a (v :: vs) → ∃ a', next_arg a = Some (v, a') ∧ args_hold a' vs.
Proof.
  intros Ha. destruct (args_next_cons _ _ _ Ha) as (a' & Hn & Ha'). exists a'. unfold next_arg. by rewrite Hn.
Qed.

Lemma args_collect a vs : args_hold a vs → RespArgs_collect a = vs.
Proof.
  intros (fs & Hok & -> & Hrem & Hd). destruct a as [bs c r]. simpl in *. subst r.
  unfold RespArgs_collect. cbn [ra_remaining]. unfold len at 1. rewrite Nat2N.id.
  apply (collect_args_frames _ _ _ []); [done|]. by rewrite app_nil_r.
Qed.

Definition command_holds (cmd : RespCommand) (vs : list bytes) : Prop :=
  args_hold (RespCommand_args cmd) vs ∧ rc_argc cmd = len vs.

Lemma same_slot_holds a vs : args_hold a vs → same_slot a = one_slot vs.
Proof.
  intros Ha. unfold same_slot. destruct vs as [|v vs]; [by rewrite (args_next_nil _ Ha)|].
  destruct (args_next_cons _ _ _ Ha) as (a' & -> & Ha'). by rewrite (args_collect _ _ Ha').
Qed.

Lemma two_step_ind {A} (P : list A → Prop) :
  P [] → (∀ x, P [x]) → (∀ x y l, P l → P (x :: y :: l)) → ∀ l, P l.
Proof.
  intros H0 H1 H2 l. enough (P l ∧ ∀ x, P (x :: l)) as [? _] by done.
  induction l as [|y l [IH1 IH2]]; [done|]. split; [apply IH2|]. intros x. by apply H2.
Qed.

Lemma pair_keys_all_pairs slot vs ps :
  pairs vs = Some ps → pair_keys_all slot vs = forallb (λ k, redis_slot k =? slot) ps.*1.
Proof.
  revert ps. induction vs as [|k|k v vs IH] using two_step_ind; intros ps Hps; simpl in *; [by simplify_eq|done|].
  destruct (pairs vs) as [ps'|] eqn:Hp; simplify_eq/=. rewrite (IH _ eq_refl).
  by destruct (redis_slot k =? slot).
Qed.

Lemma same_slot_pairs_holds a vs ps :
  args_hold a vs → pairs vs = Some ps → same_slot_pairs a = one_slot ps.*1.
Proof.
  intros Ha Hps. unfold same_slot_pairs. destruct vs as [|k [|v vs]]; simplify_eq/=.
  - by rewrite (args_next_nil _ Ha).
  - destruct (pairs vs) as [ps'|] eqn:Hp; simplify_eq/=.
    destruct (args_next_cons _ _ _ Ha) as (a1 & -> & Ha1).
    destruct (args_next_cons _ _ _ Ha1) as (a2 & -> & Ha2). simpl.
    rewrite (args_collect _ _ Ha2). by apply pair_keys_all_pairs.
Qed.

Lemma pairs_parity vs :
  match pairs vs with Some ps => len vs mod 2 = 0 ∧ (ps = [] ↔ vs = []) | None => len vs mod 2 = 1 end.
Proof.
  induction vs as [|k|k v vs IH] using two_step_ind; [done|done|]. cbn [pairs].
  rewrite !len_cons. replace (1 + (1 + len vs)) with (len vs + 1 * 2) by lia. rewrite N.Div0.mod_add.
  destruct (pairs vs); simpl; [|done]. destruct IH. by split.
Qed.

(** ** Values that can be written *)

Definition in_i64 (z : Z) : Prop := (- 2 ^ 63 ≤ z < 2 ^ 63)%Z.

Definition view_ok (v : CacheValueView) : Prop :=
  match v with ViewInteger z => in_i64 z | ViewBytes v => len v < U64 end.

Definition map_ok (m : cache_map) : Prop := map_Forall (λ _ b, view_ok (bd_value b)) m.

Lemma map_ok_reap k now m : map_ok m → map_ok (reap k now m).
Proof.
  intros Hm. unfold reap. destruct (m !! k) as [b|]; [|done]. destruct (expired now b); [|done].
  by apply map_Forall_delete.
Qed.

Lemma map_ok_put k v d m : map_ok m → arg_fits v → map_ok (put k v d m).
Proof.
  intros Hm Hv. apply map_Forall_insert_2; [|done]. simpl. eapply N.le_lt_trans; [exact Hv|done].
Qed.

Lemma checked_i64_Some z z' : checked_i64 z = Some z' → z' = z ∧ in_i64 z.
Proof. unfold checked_i64. intros H. destruct (_ && _) eqn:Hc; simplify_eq. bool_to_prop. unfold in_i64; lia. Qed.

Lemma as_i64_range v : in_i64 (as_i64 v).
Proof.
  unfold as_i64, wrap_i64, in_i64. pose proof (Z.mod_pos_bound (Z.of_N v + 2 ^ 63) (2 ^ 64) ltac:(done)). lia.
Qed.

Lemma write_value_spec v out :
  (∀ x, v = Some x → view_ok x) → write_value v out = Some (out ++ value_reply (value_text <$> v)).
Proof.
  intros Hv. destruct v as [[z|v]|]; simpl.
  - apply write_bulk_integer_spec. by apply (Hv (ViewInteger z)).
  - apply write_bulk_spec. by apply (Hv (ViewBytes v)).
  - done.
Qed.

Lemma map_ok_get k now m x : map_ok m → bd_value <$> reap k now m !! k = Some x → view_ok x.
Proof.
  intros Hm Hx. destruct (reap k now m !! k) as [b|] eqn:Hb; simplify_eq/=.
  by apply (map_ok_reap k now m Hm k b).
Qed.

(** ** Commands against the interface *)

Ltac argc :=
  repeat match goal with
  | |- context [len ?l =? ?k] =>
      first [ rewrite (proj2 (N.eqb_eq (len l) k)) by (unfold len; simpl; lia)
            | rewrite (proj2 (N.eqb_neq (len l) k)) by (unfold len; simpl; lia) ]
  end; cbn [negb andb orb].

Lemma arg_cost_cons a args : arg_cost (a :: args) = arena_cost (len a) + arg_cost args.
Proof. done. Qed.

Section refinement.
Context {S : Type} `{CacheLaws S}.
Context (now : N) (out : bytes) (c n : N).

(** The command ends with [r.1] written and the map [r.2] in the store. *)
Definition answers (run : option (bytes * S)) (r : reply * cache_map) : Prop :=
  map_ok r.2 ∧ ∃ s', run = Some (out ++ reply_bytes r.1, s') ∧ cache_rel c n s' r.2.

Lemma answers_intro run s' r m :
  map_ok m → run = Some (out ++ reply_bytes r, s') → cache_rel c n s' m → answers run (r, m).
Proof. intros Hm Hrun Hrel. split; [done|]. by exists s'. Qed.

Lemma answers_same run s r m :
  map_ok m → cache_rel c n s m → run = Some (out ++ reply_bytes r, s) → answers run (r, m).
Proof. intros. by eapply answers_intro. Qed.

Lemma wrong_arity_spec name : wrong_arity out name = out ++ reply_bytes (arity_error name).
Proof. unfold wrong_arity, arity_error, reply_bytes, crlf. by rewrite <- !app_assoc. Qed.

(** The state before a command with the arguments [vs]. *)
Definition ready (cmd : RespCommand) (vs : list bytes) (s : S) (m : cache_map) : Prop :=
  command_holds cmd vs ∧ Forall arg_fits vs ∧ len vs < 2 ^ 63 ∧ map_ok m ∧
  cache_rel (arg_cost vs + c) (len vs + 1 + n) s m.

Lemma ready_rel cmd vs s m : ready cmd vs s m → cache_rel c n s m.
Proof. intros (_ & _ & _ & _ & Hrel). eapply law_weaken; [exact Hrel|lia..]. Qed.

Lemma ready_step cmd k vs s m : ready cmd (k :: vs) s m → cache_rel (arena_cost (len k) + c) (1 + n) s m.
Proof.
  intros (_ & _ & _ & _ & Hrel). rewrite arg_cost_cons, len_cons in Hrel.
  eapply law_weaken; [exact Hrel|lia..].
Qed.

Lemma arity_answers cmd vs s m name :
  ready cmd vs s m → answers (Some (wrong_arity out name, s)) (arity_error name, m).
Proof.
  intros Hr. eapply answers_same; [apply Hr|by eapply ready_rel|]. by rewrite wrong_arity_spec.
Qed.

Lemma error_answers cmd vs s m e :
  ready cmd vs s m → answers (Some (write_error out e, s)) (ReplyError e, m).
Proof. intros Hr. eapply answers_same; [apply Hr|by eapply ready_rel|done]. Qed.

Lemma execute_get_ok cmd vs s m :
  ready cmd vs s m → answers (execute_get s cmd now out) (spec_get_cmd now vs m).
Proof.
  intros Hr. pose proof Hr as ([Ha Hargc] & Hfit & Hlen & Hm & Hrel). unfold execute_get. rewrite Hargc.
  destruct vs as [|k [|k2 vs]]; argc; try (by eapply arity_answers).
  destruct (next_arg_cons _ _ _ Ha) as (a' & -> & _). cbn [mbind option_bind].
  destruct (law_get _ n s m k now (ready_step _ _ _ _ _ Hr)) as (s' & -> & Hrel'). cbn [mbind option_bind].
  rewrite write_value_spec by (intros x; by apply map_ok_get). cbn [mbind option_bind].
  eapply answers_intro; [by apply map_ok_reap| |eapply law_weaken; [exact Hrel'|lia..]].
  cbn [reply_bytes]. do 4 f_equal. unfold spec_get. by rewrite option_fmap_compose.
Qed.

Lemma execute_set_ok cmd vs s m :
  ready cmd vs s m → answers (execute_set s cmd now out) (spec_set_cmd now vs m).
Proof.
  intros Hr. pose proof Hr as ([Ha Hargc] & Hfit & Hlen & Hm & Hrel). unfold execute_set. rewrite Hargc.
  destruct vs as [|k [|v [|o [|t [|x vs]]]]]; argc; try (by eapply arity_answers);
    apply Forall_cons in Hfit as [Hk Hfit]; apply Forall_cons in Hfit as [Hv Hfit];
    rewrite !arg_cost_cons, !len_cons in Hrel;
    destruct (next_arg_cons _ _ _ Ha) as (a1 & -> & Ha1); cbn [mbind option_bind];
    destruct (next_arg_cons _ _ _ Ha1) as (a2 & -> & Ha2); cbn [mbind option_bind].
  - eapply law_weaken in Hrel.
    { destruct (law_set c n s m k v None now Hk Hv Hrel) as (s' & -> & Hrel'). cbn [mbind option_bind].
      eapply answers_intro; [by apply map_ok_put|done|done]. }
    + lia.
    + lia.
  - destruct (next_arg_cons _ _ _ Ha2) as (a3 & -> & Ha3). cbn [mbind option_bind].
    destruct (next_arg_cons _ _ _ Ha3) as (a4 & -> & _). cbn [mbind option_bind spec_set_cmd].
    destruct (set_ttl o t) as [ms|e]; cbn [res_bind]; [|by eapply error_answers].
    eapply law_weaken in Hrel.
    { destruct (law_set c n s m k v (Some ms) now Hk Hv Hrel) as (s' & -> & Hrel'). cbn [mbind option_bind].
      eapply answers_intro; [by apply map_ok_put|done|done]. }
    + lia.
    + lia.
Qed.

Lemma spec_increment_ok k m r m' :
  map_ok m → spec_increment now k 1 m = (RInteger r, m') →
  map_ok m' ∧ ∀ z, r = Ok z → in_i64 z.
Proof.
  intros Hm. unfold spec_increment. destruct (m !! k) as [b|] eqn:Hk.
  - destruct (view_integer (bd_value b)) as [z|e]; simpl; [|intros [= <- <-]; by split].
    unfold checked_add_i64. destruct (checked_i64 (z + 1)) as [z'|] eqn:Hz; simpl;
      [|intros [= <- <-]; by split].
    apply checked_i64_Some in Hz as [-> Hz]. intros [= <- <-]. split; [|by intros ? [= <-]].
    by apply map_Forall_insert_2.
  - intros [= <- <-]. split; [|intros ? [= <-]; done]. by apply map_Forall_insert_2.
Qed.

Lemma execute_incr_ok cmd vs s m :
  ready cmd vs s m → answers (execute_incr s cmd now out) (spec_incr_cmd now vs m).
Proof.
  intros Hr. pose proof Hr as ([Ha Hargc] & Hfit & Hlen & Hm & Hrel). unfold execute_incr. rewrite Hargc.
  destruct vs as [|k [|k2 vs]]; argc; try (by eapply arity_answers).
  apply Forall_cons in Hfit as [Hk _].
  destruct (next_arg_cons _ _ _ Ha) as (a' & -> & _). cbn [mbind option_bind spec_incr_cmd].
  destruct (law_increment _ n s m k 1 now Hk (ready_step _ _ _ _ _ Hr)) as (r & m' & s' & Hspec & -> & Hrel').
  cbn [mbind option_bind]. rewrite Hspec. destruct (spec_increment_ok _ _ _ _ (map_ok_reap k now m Hm) Hspec) as [Hm' Hz].
  destruct r as [z|e].
  - rewrite write_integer_spec by (by apply Hz). cbn [mbind option_bind].
    eapply answers_intro; [done|done|]. eapply law_weaken; [exact Hrel'|lia..].
  - eapply answers_intro; [done|done|]. eapply law_weaken; [exact Hrel'|lia..].
Qed.

Lemma expire_reply_answers b run m' :
  map_ok m' → (∃ s', run = Some (b, s') ∧ cache_rel c n s' m') →
  answers (run ≫= λ '(changed, store),
             out ← write_integer out (if (changed : bool) then 1%Z else 0%Z); Some (out, store))
    (expire_reply b, m').
Proof.
  intros Hm (s' & -> & Hrel). cbn [mbind option_bind].
  rewrite write_integer_spec by (by destruct b). cbn [mbind option_bind].
  by eapply answers_intro.
Qed.

Lemma map_ok_expire k ms m : map_ok m → map_ok (spec_expire now ms k m).2.
Proof.
  intros Hm. unfold spec_expire. destruct (m !! k) as [b|] eqn:Hk; [|done].
  destruct (ms =? 0); [by apply map_Forall_delete|].
  apply map_Forall_insert_2; [|done]. by apply (Hm k b).
Qed.

Lemma execute_expire_ok cmd vs s m :
  ready cmd vs s m → answers (execute_expire s cmd now out) (spec_expire_cmd now vs m).
Proof.
  intros Hr. pose proof Hr as ([Ha Hargc] & Hfit & Hlen & Hm & Hrel). unfold execute_expire. rewrite Hargc.
  destruct vs as [|k [|raw [|x vs]]]; argc; try (by eapply arity_answers).
  destruct (next_arg_cons _ _ _ Ha) as (a1 & -> & Ha1). cbn [mbind option_bind].
  destruct (next_arg_cons _ _ _ Ha1) as (a2 & -> & _). cbn [mbind option_bind spec_expire_cmd].
  destruct (resp_parse_i64 raw) as [z|]; [|by eapply error_answers].
  assert (cache_rel c (1 + n) s m) as Hrel1 by (eapply law_weaken; [exact (ready_step _ _ _ _ _ Hr)|lia..]).
  destruct (z <=? 0)%Z.
  - apply expire_reply_answers; [by apply map_Forall_delete|]. by apply law_delete.
  - destruct (checked_mul64 (Z.to_N z) 1000) as [ms|]; [|by eapply error_answers].
    apply expire_reply_answers; [by apply map_ok_expire, map_ok_reap|]. by apply law_expire.
Qed.

Lemma ttl_seconds_range t : in_i64 (ttl_seconds t).
Proof. destruct t; simpl; [done|done|apply as_i64_range]. Qed.

Lemma execute_ttl_ok cmd vs s m :
  ready cmd vs s m → answers (execute_ttl s cmd now out) (spec_ttl_cmd now vs m).
Proof.
  intros Hr. pose proof Hr as ([Ha Hargc] & Hfit & Hlen & Hm & Hrel). unfold execute_ttl. rewrite Hargc.
  destruct vs as [|k [|k2 vs]]; argc; try (by eapply arity_answers).
  destruct (next_arg_cons _ _ _ Ha) as (a' & -> & _). cbn [mbind option_bind].
  destruct (law_ttl _ n s m k now (ready_step _ _ _ _ _ Hr)) as (s' & -> & Hrel'). cbn [mbind option_bind spec_ttl_cmd].
  change (match ?t with TtlMissing => _ | TtlPersistent => _ | TtlRemainingMs _ => _ end) with (ttl_seconds t).
  rewrite write_integer_spec by apply ttl_seconds_range. cbn [mbind option_bind].
  eapply answers_intro; [by apply map_ok_reap|done|]. eapply law_weaken; [exact Hrel'|lia..].
Qed.

(** Commands that ask every key a yes-or-no question. *)
Lemma count_keys_ok (drop_key : bool) (op : S → bytes → N → option (bool * S)) (ks : list bytes) cnt s m :
  (∀ n' (s : S) (m : cache_map) k, cache_rel c (1 + n') s m → ∃ s', op s k now = Some (live k now m, s') ∧
     cache_rel c n' s' (if drop_key then delete k m else reap k now m)) →
  map_ok m → cache_rel c (len ks + n) s m →
  let r := spec_count drop_key ks now cnt m in
  map_ok r.2 ∧ (cnt ≤ r.1 ≤ cnt + Z.of_N (len ks))%Z ∧
  ∃ s', count_keys op s ks now cnt = Some (r.1, s') ∧ cache_rel c n s' r.2.
Proof.
  intros Hop. revert cnt s m. induction ks as [|k ks IH]; intros cnt s m Hm Hrel; cbn [spec_count count_keys].
  - split_and!; [done|simpl; lia..|]. exists s. by split; [|eapply law_weaken; [exact Hrel|lia..]].
  - rewrite len_cons, <- N.add_assoc in Hrel. destruct (Hop _ _ _ k Hrel) as (s1 & -> & Hrel1).
    cbn [mbind option_bind].
    destruct (IH (if live k now m then cnt + 1 else cnt)%Z s1 (if drop_key then delete k m else reap k now m))
      as (Hm' & Hc & Hs); [|done|].
    { destruct drop_key; [by apply map_Forall_delete|by apply map_ok_reap]. }
    split_and!; [done|..|done]; rewrite ?len_cons; destruct (live k now m); lia.
Qed.

Lemma execute_count_ok (drop_key : bool) (op : S → bytes → N → option (bool * S)) name cmd vs s m :
  (∀ n' (s : S) (m : cache_map) k, cache_rel c (1 + n') s m → ∃ s', op s k now = Some (live k now m, s') ∧
     cache_rel c n' s' (if drop_key then delete k m else reap k now m)) →
  ready cmd vs s m →
  answers (execute_count op name s cmd now out)
    (multi_key name vs m (count_reply (spec_count drop_key vs now 0 m))).
Proof.
  intros Hop Hr. pose proof Hr as ([Ha Hargc] & Hfit & Hlen & Hm & Hrel). unfold execute_count, multi_key.
  rewrite Hargc, (same_slot_holds _ _ Ha). case_bool_decide as Hnil; [subst vs; by eapply arity_answers|].
  destruct (N.eqb_spec (len vs) 0) as [Hz0|_]; [by destruct vs|].
  destruct (one_slot vs); cbn [negb]; [|by eapply error_answers].
  rewrite (args_collect _ _ Ha).
  destruct (count_keys_ok drop_key op vs 0 s m Hop Hm) as (Hm' & Hc & s' & -> & Hrel').
  { eapply law_weaken; [exact Hrel|lia..]. }
  cbn [mbind option_bind]. rewrite write_integer_spec by lia. cbn [mbind option_bind].
  by eapply answers_intro.
Qed.

Lemma get_all_ok (ks : list bytes) s m acc :
  map_ok m → cache_rel c (len ks + n) s m →
  let r := spec_mget ks now m in
  map_ok r.2 ∧ len r.1 = len ks ∧
  ∃ s', get_all s ks now acc = Some (acc ++ mjoin (value_reply <$> r.1), s') ∧ cache_rel c n s' r.2.
Proof.
  revert s m acc. induction ks as [|k ks IH]; intros s m acc Hm Hrel; cbn [spec_mget get_all].
  - split_and!; [done|done|]. exists s. simpl. rewrite app_nil_r. by split; [|eapply law_weaken; [exact Hrel|lia..]].
  - rewrite len_cons, <- N.add_assoc in Hrel. destruct (law_get _ _ s m k now Hrel) as (s1 & -> & Hrel1).
    cbn [mbind option_bind]. rewrite write_value_spec by (intros x; by apply map_ok_get). cbn [mbind option_bind].
    destruct (IH s1 (reap k now m) (acc ++ value_reply (value_text <$> (bd_value <$> reap k now m !! k))))
      as (Hm' & Hl & s' & -> & Hrel'); [by apply map_ok_reap|done|].
    destruct (spec_mget ks now (reap k now m)) as [vs m'] eqn:Hspec. cbn [fst snd] in *.
    split_and!; [done|by rewrite !len_cons, Hl|]. exists s'. split; [|done]. rewrite fmap_cons. simpl.
    rewrite <- app_assoc. do 4 f_equal. unfold spec_get. by rewrite option_fmap_compose.
Qed.

Lemma execute_mget_ok cmd vs s m :
  ready cmd vs s m →
  answers (execute_mget s cmd now out) (multi_key (str "mget") vs m (values_reply (spec_mget vs now m))).
Proof.
  intros Hr. pose proof Hr as ([Ha Hargc] & Hfit & Hlen & Hm & Hrel). unfold execute_mget, multi_key.
  rewrite Hargc, (same_slot_holds _ _ Ha). case_bool_decide as Hnil; [subst vs; by eapply arity_answers|].
  destruct (N.eqb_spec (len vs) 0) as [H0'|_]; [by destruct vs|].
  destruct (one_slot vs); cbn [negb]; [|by eapply error_answers].
  rewrite (args_collect _ _ Ha), write_array_len_spec by (eapply N.lt_trans; [exact Hlen|done]).
  cbn [mbind option_bind].
  destruct (get_all_ok vs s m (out ++ [42] ++ dec_of_N (len vs) ++ crlf) Hm) as (Hm' & Hl & s' & -> & Hrel').
  { eapply law_weaken; [exact Hrel|lia..]. }
  eapply answers_intro; [done| |done]. cbn [values_reply fst reply_bytes]. rewrite Hl.
  by rewrite <- !app_assoc.
Qed.

Lemma set_all_ok (vs : list bytes) ps s m :
  pairs vs = Some ps → Forall arg_fits vs → map_ok m → cache_rel (arg_cost vs + c) (len vs + n) s m →
  let m' := foldl (λ m p, put p.1 p.2 None m) m ps in
  map_ok m' ∧ ∃ s', set_all s vs now = Some s' ∧ cache_rel c n s' m'.
Proof.
  revert ps s m. induction vs as [|k|k v vs IH] using two_step_ind; intros ps s m Hps Hfit Hm Hrel;
    cbn [pairs] in Hps; [injection Hps as <-|done|].
  - split; [done|]. by exists s.
  - destruct (pairs vs) as [ps'|] eqn:Hp; [injection Hps as <-|done]. cbn [set_all].
    apply Forall_cons in Hfit as [Hk Hfit]. apply Forall_cons in Hfit as [Hv Hfit].
    rewrite !arg_cost_cons, !len_cons in Hrel.
    destruct (law_set (arg_cost vs + c) (len vs + n) s m k v None now Hk Hv) as (s1 & -> & Hrel1).
    { eapply law_weaken; [exact Hrel|lia..]. }
    cbn [mbind option_bind foldl fst snd]. apply IH; try done. by apply map_ok_put.
Qed.

Lemma execute_mset_ok cmd vs s m :
  ready cmd vs s m → answers (execute_mset s cmd now out) (spec_mset_cmd vs m).
Proof.
  intros Hr. pose proof Hr as ([Ha Hargc] & Hfit & Hlen & Hm & Hrel). unfold execute_mset, spec_mset_cmd.
  rewrite Hargc. pose proof (pairs_parity vs) as Hpar. destruct (pairs vs) as [ps|] eqn:Hps.
  - destruct Hpar as [Hmod Hnil]. rewrite Hmod. cbn [N.eqb negb]. rewrite orb_false_r.
    destruct (N.eqb_spec (len vs) 0) as [Hz|Hz].
    { destruct vs; [|done]. destruct ps; [by eapply arity_answers|by destruct Hnil as [_ Hnil]; specialize (Hnil eq_refl)]. }
    destruct ps as [|p ps]; [destruct Hnil as [Hnil _]; by rewrite Hnil in Hz|].
    rewrite (same_slot_pairs_holds _ _ _ Ha Hps).
    destruct (one_slot (p :: ps).*1); cbn [negb]; [|by eapply error_answers].
    rewrite (args_collect _ _ Ha).
    destruct (set_all_ok vs (p :: ps) s m Hps Hfit Hm) as (Hm' & s' & -> & Hrel').
    { eapply law_weaken; [exact Hrel|lia..]. }
    cbn [mbind option_bind]. by eapply answers_intro.
  - rewrite Hpar. cbn [N.eqb Pos.eqb negb]. rewrite orb_true_r. by eapply arity_answers.
Qed.

Lemma execute_ping_ok cmd vs s m :
  ready cmd vs s m → answers (out ← execute_ping cmd out; Some (out, s)) (spec_ping vs m).
Proof.
  intros Hr. pose proof Hr as ([Ha Hargc] & Hfit & Hlen & Hm & Hrel). unfold execute_ping. rewrite Hargc.
  pose proof (ready_rel _ _ _ _ Hr) as Hrel0.
  destruct vs as [|a [|b vs]]; cbn [spec_ping].
  - by eapply answers_intro.
  - change (len [a]) with 1. cbn iota. destruct (next_arg_cons _ _ _ Ha) as (a' & -> & _). cbn [mbind option_bind].
    apply Forall_cons in Hfit as [Hfa _].
    rewrite write_bulk_spec by (eapply N.le_lt_trans; [exact Hfa|done]). cbn [mbind option_bind].
    by eapply answers_intro.
  - rewrite !len_cons. replace (1 + (1 + len vs)) with (N.pos (N.succ_pos (1 + len vs))) by lia.
    destruct (N.succ_pos (1 + len vs)) as [p|p|] eqn:Hp; [by eapply arity_answers..|].
    exfalso. pose proof (N.succ_pos_spec (1 + len vs)). lia.
Qed.

Lemma execute_command_ok cmd vs s m :
  ready cmd vs s m → answers (execute_command s cmd now out) (spec_command now (rc_name cmd) vs m).
Proof.
  intros Hr. unfold execute_command, spec_command.
  case_match; [by apply execute_ping_ok|]. case_match; [by apply execute_get_ok|].
  case_match; [by apply execute_set_ok|].
  case_match; [apply (execute_count_ok true); [intros; by apply law_delete|done]|].
  case_match; [apply (execute_count_ok false); [intros; by apply law_exists|done]|].
  case_match; [by apply execute_incr_ok|]. case_match; [by apply execute_expire_ok|].
  case_match; [by apply execute_ttl_ok|]. case_match; [by apply execute_mget_ok|].
  case_match; [by apply execute_mset_ok|]. by eapply error_answers.
Qed.

End refinement.

(** ** The cache store satisfies the interface *)

Section store.
Context (hash : bytes → N).

#[local] Instance store_api : CacheApi CacheStore := {
  api_get s k now := CacheStore_get hash s k now;
  api_set_bytes s k v ttl now := CacheStore_set_bytes hash s k v ttl now;
  api_delete_at s k now := CacheStore_delete_at hash s k now;
  api_exists s k now := CacheStore_exists hash s k now;
  api_increment s k d now := CacheStore_increment hash s k d now;
  api_expire_ms s k ttl now := CacheStore_expire_ms hash s k ttl now;
  api_ttl s k now := CacheStore_ttl hash s k now;
}.

Definition store_rel (c n : N) (s : CacheStore) (m : cache_map) : Prop :=
  ∃ M, store_ok hash s [] M ∧ bd_of M = m ∧
    len (ba_bytes (cs_arena s)) + c < U32 ∧ len (cs_slots s) + n ≤ TOMBSTONE_SLOT.

Lemma store_step now op c n s m :
  op_fits op → store_rel (op_cost op + c) (1 + n) s m →
  ∃ out s' m', exec hash now op s = Some (out, s') ∧ spec_step now op m out m' ∧ store_rel c n s' m'.
Proof.
  intros Hfit (M & Hok & <- & Hc & Hn).
  destruct (op_refines hash now op s M Hok Hfit) as (out & s' & M' & Hex & Hok' & Hspec & [Hg1 Hg2]); [lia|lia|].
  exists out, s', (bd_of M'). split_and!; [done|done|]. exists M'. split_and!; [done|done|lia|lia].
Qed.

Lemma live_expire k ttl now m : (spec_expire now ttl k (reap k now m)).1 = RBool (live k now m).
Proof.
  unfold spec_expire, live. destruct (reap k now m !! k); [|done]. by destruct (ttl =? 0).
Qed.

(** A law of the interface, from the step of the operation. *)
Local Ltac law_of step :=
  let out := fresh in let s' := fresh in let m' := fresh in
  let Hex := fresh in let Hspec := fresh in let Hr := fresh in
  destruct step as (out & s' & m' & Hex & Hspec & Hr); simpl in Hex, Hspec |- *;
  match type of Hex with
  | mbind _ ?run = _ => destruct run as [[? ?]|] || destruct run; [|discriminate Hex]
  end; simplify_eq/=; first [by eexists | by eexists _, _, _].

#[local] Instance store_laws : CacheLaws CacheStore.
Proof.
  refine {| cache_rel := store_rel |}.
  - intros c n c' n' s m (M & Hok & Hm & Hc & Hn) Hc' Hn'. exists M. split_and!; [done|done|lia|lia].
  - intros c n s m k now Hr. law_of (store_step now (OGet k) c n s m I Hr).
  - intros c n s m k v ttl now Hk Hv Hr. law_of (store_step now (OSetBytes k v ttl) c n s m (conj Hk Hv) Hr).
  - intros c n s m k now Hr. law_of (store_step now (ODeleteAt k) c n s m I Hr).
  - intros c n s m k now Hr. law_of (store_step now (OExists k) c n s m I Hr).
  - intros c n s m k d now Hk Hr. law_of (store_step now (OIncrement k d) c n s m Hk Hr).
  - intros c n s m k ttl now Hr. pose proof (live_expire k ttl now m) as Hl.
    destruct (spec_expire now ttl k (reap k now m)) as [out m'] eqn:Hspec. simpl in Hl. subst out.
    destruct (store_step now (OExpire k ttl) c n s m I Hr) as (out & s' & m1 & Hex & Hs & Hr').
    simpl in Hex, Hs |- *. rewrite Hspec in Hs.
    destruct (CacheStore_expire_ms hash s k ttl now) as [[r s1]|]; [|done]. simplify_eq/=. by eexists.
  - intros c n s m k now Hr. law_of (store_step now (OTtl k) c n s m I Hr).
Defined.

(** ** Connections *)

(** A client's script: commands, each with the time at which it is executed. *)
Local Abbreviation script := (list (N * (bytes * list bytes))).

(** The shard takes one frame after the other from what has been received. *)
Fixpoint serve (times : list N) (store : CacheStore) (input out : bytes)
    : option (bytes * bytes * CacheStore) :=
  match times with
  | [] => Some (out, input, store)
  | now :: times =>
      '(r, out, store) ← execute_frame store input now out;
      match r with
      | Ok (Some consumed) => serve times store (drop (N.to_nat consumed) input) out
      | _ => None
      end
  end.

Fixpoint encode_script (cmds : script) : option bytes :=
  match cmds with
  | [] => Some []
  | (_, (name, args)) :: cmds =>
      frame ← encode_command (name :: args);
      rest ← encode_script cmds;
      Some (frame ++ rest)
  end.

Fixpoint spec_script (cmds : script) (m : cache_map) : list reply :=
  match cmds with
  | [] => []
  | (now, (name, args)) :: cmds =>
      let '(r, m') := spec_command now name args m in r :: spec_script cmds m'
  end.

Definition script_cost (cmds : script) : N := foldr (λ e c, arg_cost e.2.2 + c) 0 cmds.
Definition script_ops (cmds : script) : N := foldr (λ e c, len e.2.2 + 1 + c) 0 cmds.

Definition command_fits (e : N * (bytes * list bytes)) : Prop :=
  Forall arg_fits (e.2.1 :: e.2.2) ∧ len (e.2.1 :: e.2.2) < 2 ^ 63.

(** The frame of a command, and the command read back. *)
Lemma encode_command_parse name args :
  Forall arg_fits (name :: args) → len (name :: args) < 2 ^ 63 →
  ∃ frame cmd, encode_command (name :: args) = Some frame ∧
    (∀ rest, parse_command (frame ++ rest) = Ok (Some (cmd, len frame))) ∧
    rc_name cmd = name ∧ command_holds cmd args.
Proof.
  intros Hargs Hlen.
  assert (Forall (λ a, len a < 2 ^ 63) (name :: args)) as Hsmall.
  { eapply Forall_impl; [exact Hargs|]. intros a Ha. eapply N.le_lt_trans; [exact Ha|done]. }
  assert (Forall frame_ok (arg_frame name :: (arg_frame <$> args))) as Hok.
  { rewrite <- fmap_cons. apply Forall_fmap. eapply Forall_impl; [exact Hsmall|]. intros a. apply arg_frame_ok. }
  assert (line_header 42 (dec_of_N (len (name :: args))) (len (arg_frame name :: (arg_frame <$> args)))) as Hh.
  { replace (len (arg_frame name :: (arg_frame <$> args))) with (len (name :: args))
      by (unfold len; simpl; by rewrite length_fmap). by apply dec_header. }
  eexists _, _. split; [by rewrite encode_command_spec, fmap_cons by done|].
  split; [intros rest; by apply parse_command_intro|]. split; [done|].
  split; [|cbn [rc_argc]; unfold len; by rewrite length_fmap].
  exists (arg_frame <$> args). split_and!; [by apply Forall_cons in Hok as [_ ?]| |done|done].
  rewrite <- list_fmap_compose. symmetry. by apply list_fmap_id.
Qed.

Lemma serve_script cmds store m rest out :
  Forall command_fits cmds → map_ok m → store_rel (script_cost cmds) (script_ops cmds) store m →
  ∃ input store', encode_script cmds = Some input ∧
    serve cmds.*1 store (input ++ rest) out =
      Some (out ++ mjoin (reply_bytes <$> spec_script cmds m), rest, store').
Proof.
  intros Hfit. revert store m out. induction Hfit as [|[now [name args]] cmds [Hargs Hlen] _ IH]; intros store m out Hm Hrel.
  { exists [], store. simpl. by rewrite app_nil_r. }
  cbn [fst snd] in *. destruct (encode_command_parse name args Hargs Hlen) as (frame & cmd & Henc1 & Hparse & Hname & Hc).
  assert (ready (script_cost cmds) (script_ops cmds) cmd args store m) as Hready.
  { split; [exact Hc|]. split_and!; [by apply Forall_cons in Hargs as [_ ?]|rewrite len_cons in Hlen; lia|done|exact Hrel]. }
  destruct (execute_command_ok now out _ _ _ _ _ _ Hready) as (Hm' & s' & Hex & Hrel'). rewrite Hname in *.
  destruct (IH s' _ (out ++ reply_bytes (spec_command now name args m).1) Hm' Hrel')
    as (input & store' & Henc & Hserve).
  exists (frame ++ input), store'. split.
  - cbn [encode_script]. rewrite Henc1. cbn [mbind option_bind]. by rewrite Henc.
  - rewrite fmap_cons. cbn [serve fst]. unfold execute_frame. rewrite <- app_assoc, Hparse, Hex.
    cbn [mbind option_bind].
    replace (N.to_nat _) with (length frame) by (unfold len; lia).
    rewrite drop_app_length, Hserve. cbn [spec_script]. destruct (spec_command now name args m) as [r m'].
    cbn [fst snd]. rewrite fmap_cons. simpl. by rewrite <- app_assoc.
Qed.

(** [C4] The cache server end to end.  Take commands that a client pipelines on
    its connection, encoded as RESP arrays, within the capacity of a shard: no
    argument longer than 1 GiB, less than 4 GiB of arena blocks for all
    arguments together, each rounded up to a power of two, and at most 2^32 - 2
    commands and arguments; beyond that the arena and the slot table give up
    with a panic.  A shard that starts empty executes them one frame after the
    other without a panic, takes exactly their bytes, and the bytes it writes are the replies of a map from keys to values with
    deadlines to the same commands, in order: GET, SET with its options, DEL,
    EXISTS, INCR, EXPIRE, TTL, MGET, MSET and PING, arity and syntax errors,
    integers out of range, commands across slots and unknown commands included. *)
Theorem resp_serves_map (cmds : script) (rest : bytes) :
  Forall command_fits cmds → script_cost cmds < U32 → script_ops cmds ≤ TOMBSTONE_SLOT →
  ∃ input store, encode_script cmds = Some input ∧
    serve cmds.*1 CacheStore_new (input ++ rest) [] =
      Some (mjoin (reply_bytes <$> spec_script cmds ∅), rest, store).
Proof.
  intros Hfit Hcost Hops. apply (serve_script cmds CacheStore_new ∅ rest []); [done|done|].
  exists ∅. split_and!; [apply new_store_ok|done|done|done].
Qed.

End store.

(** A lifetime, a counter, a command across slots and one that is not known. *)
Definition sample_script : list (N * (bytes * list bytes)) :=
  [ (0, (str "SET", [str "k"; str "41"; str "px"; str "10"])); (1, (str "incr", [str "k"]));
    (2, (str "MGET", [str "{t}a"; str "{t}b"])); (3, (str "MSET", [str "a"; str "1"; str "b"; str "2"]));
    (9, (str "GET", [str "k"])); (10, (str "GET", [str "k"])); (11, (str "FLUSH", [])) ].

Lemma resp_serves_map_witness :
  ∃ input store, encode_script sample_script = Some input ∧
    serve sample_hash sample_script.*1 CacheStore_new (input ++ [42; 49]) [] =
      Some (mjoin (reply_bytes <$> spec_script sample_script ∅), [42; 49], store) ∧
    spec_script sample_script ∅ =
      [ ReplySimple (str "OK"); ReplyInteger 42; ReplyValues [None; None]; ReplyError ERR_CROSS_SLOT;
        ReplyValue (Some (str "42")); ReplyValue None; ReplyError ERR_UNKNOWN ].
Proof.
  destruct (resp_serves_map sample_hash sample_script [42; 49]) as (input & store & Henc & Hserve).
  - repeat (apply Forall_cons; split; [split; [repeat (apply Forall_cons; split; [done|]); apply Forall_nil_2|done]|]).
    apply Forall_nil_2.
  - by vm_compute.
  - by vm_compute.
  - exists input, store. split_and!; [done|done|by vm_compute].
Defined.
