(* ===== verification/CacheRouting.v ===== *)
(** * Placement of slots

    [src/runtime/cache_routing.rs]: which node and shard owns each of the 16384
    slots, and how the control plane changes it in epochs.  A panic is
    [None]. *)
From S2P Require Import Prelude Bytes RedisSlot.

Local Open Scope N_scope.

Record CacheShardOwner := mkOwner { ow_node_id : N; ow_shard : N }.
Record CacheSlotRange := mkSlotRange { sr_start : N; sr_end : N; sr_owner : CacheShardOwner }.

#[global] Instance CacheShardOwner_eq_dec : EqDecision CacheShardOwner.
Proof. solve_decision. Defined.
#[global] Instance CacheShardOwner_countable : Countable CacheShardOwner.
Proof.
  refine (inj_countable' (λ o, (ow_node_id o, ow_shard o)) (λ p, mkOwner p.1 p.2) _). by intros [].
Defined.

Inductive CachePlacementError :=
| InvalidShardCount
| InvalidRange (start stop : N)
| OverlappingRange (first_start first_end second_start second_end : N)
| StaleEpoch (current proposed : N).

Inductive CacheRoute :=
| RouteLocal (slot shard : N)
| RouteRemote (slot node_id shard : N).

Record CacheSlotMap := mkSlotMap { sm_epoch : N; sm_owners : list CacheShardOwner }.

(** [lo..hi] *)
Definition nrange (lo hi : N) : list N := (λ i, lo + N.of_nat i) <$> seq 0 (N.to_nat (hi - lo)).

Definition CacheSlotMap_new_local (node_id shard_count : N) : result CacheSlotMap CachePlacementError :=
  if (shard_count =? 0) || (REDIS_CLUSTER_SLOTS <? shard_count) then Err InvalidShardCount else
  Ok (mkSlotMap 0 ((λ slot, mkOwner node_id (as_u16 (slot * shard_count / REDIS_CLUSTER_SLOTS)))
                     <$> nrange 0 REDIS_CLUSTER_SLOTS)).

Definition CacheSlotMap_owner_for_slot (self : CacheSlotMap) (slot : N) : option CacheShardOwner :=
  sm_owners self !! N.to_nat slot.

Definition CacheSlotMap_owner_for_key (self : CacheSlotMap) (key : bytes) : option CacheShardOwner :=
  sm_owners self !! N.to_nat (redis_slot key).

(** One round of the loop of [slot_ranges]. *)
Definition next_range (owners : list CacheShardOwner)
    (acc : option (list CacheSlotRange * N * CacheShardOwner)) (slot : N)
    : option (list CacheSlotRange * N * CacheShardOwner) :=
  '(ranges, start, owner) ← acc;
  next ← owners !! N.to_nat slot;
  if bool_decide (next = owner) then Some (ranges, start, owner)
  else Some (ranges ++ [mkSlotRange start (slot - 1) owner], slot, next).

Definition CacheSlotMap_slot_ranges (self : CacheSlotMap) : option (list CacheSlotRange) :=
  match sm_owners self with
  | [] => Some []
  | first :: _ =>
      '(ranges, start, owner) ← foldl (next_range (sm_owners self)) (Some ([], 0, first))
                                  (nrange 1 REDIS_CLUSTER_SLOTS);
      Some (ranges ++ [mkSlotRange start (REDIS_CLUSTER_SLOTS - 1) owner])
  end.

Definition CacheSlotMap_route_key (self : CacheSlotMap) (local_node_id : N) (key : bytes) : option CacheRoute :=
  let slot := redis_slot key in
  owner ← sm_owners self !! N.to_nat slot;
  Some (if ow_node_id owner =? local_node_id then RouteLocal slot (ow_shard owner)
        else RouteRemote slot (ow_node_id owner) (ow_shard owner)).

Definition range_valid (a : CacheSlotRange) : bool :=
  negb ((sr_end a <? sr_start a) || (REDIS_CLUSTER_SLOTS <=? sr_end a)).

Definition overlap (first second : CacheSlotRange) : bool :=
  (sr_start first <=? sr_end second) && (sr_start second <=? sr_end first).

(** The validation loops: the first range that is refused. *)
Fixpoint check_ranges (l : list CacheSlotRange) : option CachePlacementError :=
  match l with
  | [] => None
  | a :: l => if range_valid a then check_ranges l else Some (InvalidRange (sr_start a) (sr_end a))
  end.

Fixpoint check_overlaps (l : list CacheSlotRange) : option CachePlacementError :=
  match l with
  | [] => None
  | first :: l =>
      match list_find (λ second, overlap first second = true) l with
      | Some (_, second) =>
          Some (OverlappingRange (sr_start first) (sr_end first) (sr_start second) (sr_end second))
      | None => check_overlaps l
      end
  end.

(** [self.owners[slot as usize] = assignment.owner] *)
Definition assign_slot (owner : CacheShardOwner) (acc : option (list CacheShardOwner)) (slot : N)
    : option (list CacheShardOwner) :=
  owners ← acc;
  if slot <? len owners then Some (<[N.to_nat slot := owner]> owners) else None.

Definition assign_range (acc : option (list CacheShardOwner)) (a : CacheSlotRange)
    : option (list CacheShardOwner) :=
  foldl (assign_slot (sr_owner a)) acc (nrange (sr_start a) (sr_end a + 1)).

Definition CacheSlotMap_apply_epoch (self : CacheSlotMap) (proposed_epoch : N)
    (assignments : list CacheSlotRange) : option (result unit CachePlacementError * CacheSlotMap) :=
  if proposed_epoch <=? sm_epoch self then Some (Err (StaleEpoch (sm_epoch self) proposed_epoch), self) else
  match check_ranges assignments with
  | Some e => Some (Err e, self)
  | None =>
      match check_overlaps assignments with
      | Some e => Some (Err e, self)
      | None =>
          owners ← foldl assign_range (Some (sm_owners self)) assignments;
          Some (Ok tt, mkSlotMap proposed_epoch owners)
      end
  end.

(** ** Placements *)

Definition placement_ok (m : CacheSlotMap) : Prop := len (sm_owners m) = REDIS_CLUSTER_SLOTS.

Definition in_slots (a : CacheSlotRange) (slot : N) : Prop := sr_start a ≤ slot ∧ slot ≤ sr_end a.

Lemma len_nrange lo hi : len (nrange lo hi) = hi - lo.
Proof. unfold nrange, len. rewrite length_fmap, length_seq. lia. Qed.

Lemma elem_of_nrange lo hi i : i ∈ nrange lo hi ↔ lo ≤ i ∧ i < hi.
Proof.
  unfold nrange. rewrite list_elem_of_fmap. split.
  - intros (j & -> & Hj). apply elem_of_seq in Hj. lia.
  - intros [Hlo Hhi]. exists (N.to_nat (i - lo)). split; [lia|]. apply elem_of_seq. lia.
Qed.

#[local] Opaque nrange.

Lemma new_local_ok node n m : CacheSlotMap_new_local node n = Ok m → placement_ok m.
Proof.
  unfold CacheSlotMap_new_local. destruct (_ || _); [discriminate|]. injection 1 as <-.
  unfold placement_ok. cbn [sm_owners]. unfold len. rewrite length_fmap.
  fold (len (nrange 0 REDIS_CLUSTER_SLOTS)). rewrite len_nrange. apply N.sub_0_r.
Qed.

(** ** Assignments *)

Lemma assign_slots_ok owner slots owners :
  (∀ s, s ∈ slots → s < len owners) →
  ∃ owners', foldl (assign_slot owner) (Some owners) slots = Some owners' ∧ len owners' = len owners ∧
    ∀ s, owners' !! N.to_nat s = if decide (s ∈ slots) then Some owner else owners !! N.to_nat s.
Proof.
  revert owners. induction slots as [|s0 slots IH]; intros owners Hs.
  { exists owners. split_and!; [done|done|]. intros s. by rewrite decide_False by (by intros ?%elem_of_nil). }
  cbn [foldl]. cbn [assign_slot mbind option_bind].
  assert (s0 < len owners) as Hs0 by (apply Hs; by left). destruct (N.ltb_spec s0 (len owners)); [|lia].
  destruct (IH (<[N.to_nat s0 := owner]> owners)) as (owners' & Hf & Hl & Hlook).
  { intros s Hin. unfold len. rewrite length_insert. apply Hs. by right. }
  assert (len (<[N.to_nat s0 := owner]> owners) = len owners) as Hli by (unfold len; by rewrite length_insert).
  exists owners'. split_and!; [done|by rewrite Hl|]. intros s. rewrite Hlook.
  destruct (decide (s ∈ slots)) as [Hin|Hout].
  - by rewrite decide_True by (by right).
  - destruct (decide (s = s0)) as [->|Hne].
    + rewrite decide_True by (by left). apply list_lookup_insert_eq. unfold len in *. lia.
    + rewrite decide_False by (by intros [?|?]%elem_of_cons). apply list_lookup_insert_ne. lia.
Qed.

Lemma assign_range_ok owners a :
  sr_end a < len owners →
  ∃ owners', assign_range (Some owners) a = Some owners' ∧ len owners' = len owners ∧
    (∀ s, in_slots a s → owners' !! N.to_nat s = Some (sr_owner a)) ∧
    (∀ s, ¬ in_slots a s → owners' !! N.to_nat s = owners !! N.to_nat s).
Proof.
  intros Hend. destruct (assign_slots_ok (sr_owner a) (nrange (sr_start a) (sr_end a + 1)) owners)
    as (owners' & Hf & Hl & Hlook).
  { intros s [_ Hs]%elem_of_nrange. lia. }
  exists owners'. split_and!; [done|done|..]; intros s Hs; rewrite Hlook.
  - rewrite decide_True; [done|]. apply elem_of_nrange. unfold in_slots in Hs. lia.
  - rewrite decide_False; [done|]. intros Hin%elem_of_nrange. apply Hs. unfold in_slots. lia.
Qed.

Lemma check_ranges_None l : check_ranges l = None → Forall (λ a, range_valid a = true) l.
Proof.
  induction l as [|a l IH]; simpl; [constructor|]. destruct (range_valid a) eqn:Ha; [|done].
  constructor; [done|by apply IH].
Qed.

Lemma check_ranges_Some l e : check_ranges l = Some e → ∃ a, a ∈ l ∧ range_valid a = false.
Proof.
  induction l as [|a l IH]; simpl; [done|]. destruct (range_valid a) eqn:Ha.
  - intros (b & Hb & Hv)%IH. exists b. split; [by right|done].
  - intros _. exists a. split; [by left|done].
Qed.

Lemma check_overlaps_None l :
  check_overlaps l = None → ∀ i j a b, l !! i = Some a → l !! j = Some b → (i < j)%nat → overlap a b = false.
Proof.
  induction l as [|c l IH]; simpl; [done|]. destruct (list_find _ l) as [[? ?]|] eqn:Hf; [done|].
  intros Hc [|i] [|j] a b Ha Hb Hij; simplify_eq/=; try lia.
  - apply list_find_None in Hf. eapply Forall_lookup_1 in Hf; [|exact Hb]. by destruct (overlap a b).
  - eapply IH; [done..|lia].
Qed.

Lemma check_overlaps_Some l e :
  check_overlaps l = Some e →
  ∃ i j a b, l !! i = Some a ∧ l !! j = Some b ∧ (i < j)%nat ∧ overlap a b = true.
Proof.
  induction l as [|c l IH]; simpl; [done|]. destruct (list_find _ l) as [[j d]|] eqn:Hf.
  - apply list_find_Some in Hf as (Hj & Ho & _). intros _. exists 0%nat, (S j), c, d. split_and!; [done|done|lia|done].
  - intros (i & j & a & b & Ha & Hb & Hij & Ho)%IH. exists (S i), (S j), a, b. split_and!; [done|done|lia|done].
Qed.

Lemma overlap_slots a b s : in_slots a s → in_slots b s → overlap a b = true.
Proof. unfold in_slots, overlap. intros. apply andb_true_iff. rewrite !N.leb_le. lia. Qed.

Lemma assign_all_ok l owners :
  Forall (λ a, range_valid a = true) l → check_overlaps l = None → len owners = REDIS_CLUSTER_SLOTS →
  ∃ owners', foldl assign_range (Some owners) l = Some owners' ∧ len owners' = len owners ∧
    (∀ a s, a ∈ l → in_slots a s → owners' !! N.to_nat s = Some (sr_owner a)) ∧
    (∀ s, (∀ a, a ∈ l → ¬ in_slots a s) → owners' !! N.to_nat s = owners !! N.to_nat s).
Proof.
  intros Hv. revert owners. induction Hv as [|a l Ha _ IH]; intros owners Hov Hlen.
  { exists owners. split_and!; [done|done| |done]. by intros ?? ?%elem_of_nil. }
  assert (sr_end a < len owners) as Hend.
  { unfold range_valid in Ha. rewrite Hlen. apply negb_true_iff, orb_false_iff in Ha as [_ Ha].
    by apply N.leb_gt in Ha. }
  pose proof (check_overlaps_None _ Hov) as Hdisj. simpl in Hov.
  destruct (list_find _ l) as [[? ?]|]; [done|].
  destruct (assign_range_ok owners a Hend) as (o1 & Ho1 & Hl1 & Hin1 & Hout1). cbn [foldl]. rewrite Ho1.
  destruct (IH o1 Hov) as (o2 & Ho2 & Hl2 & Hin2 & Hout2); [by rewrite Hl1|].
  exists o2. split_and!; [done|by rewrite Hl2| |].
  - intros b s [->|Hb]%elem_of_cons Hs; [|by apply Hin2]. rewrite Hout2; [by apply Hin1|].
    intros b Hb Hbs. apply list_elem_of_lookup in Hb as [j Hj].
    specialize (Hdisj 0%nat (S j) a b eq_refl Hj ltac:(lia)).
    by rewrite (overlap_slots a b s) in Hdisj.
  - intros s Hs. rewrite Hout2; [apply Hout1, Hs; by left|]. intros b Hb. apply Hs. by right.
Qed.

(** ** Ranges *)

(** Consecutive ranges from slot [from] up to, not including, slot [to]. *)
Fixpoint tiles (from : N) (rs : list CacheSlotRange) (to : N) : Prop :=
  match rs with
  | [] => from = to
  | r :: rs => sr_start r = from ∧ sr_start r ≤ sr_end r ∧ tiles (sr_end r + 1) rs to
  end.

Definition covers (owners : list CacheShardOwner) (rs : list CacheSlotRange) : Prop :=
  ∀ r s, r ∈ rs → in_slots r s → owners !! N.to_nat s = Some (sr_owner r).

(** Neighbours have different owners. *)
Definition coalesced (os : list CacheShardOwner) : Prop :=
  ∀ i a b, os !! i = Some a → os !! S i = Some b → a ≠ b.

Lemma tiles_snoc from rs mid r :
  tiles from rs mid → sr_start r = mid → sr_start r ≤ sr_end r → tiles from (rs ++ [r]) (sr_end r + 1).
Proof.
  revert from. induction rs as [|r0 rs IH]; intros from Ht Hs Hle; simpl in *.
  - subst. by split_and!.
  - destruct Ht as (? & ? & Ht). split_and!; [done|done|by apply IH].
Qed.

Lemma coalesced_snoc os a b : coalesced (os ++ [a]) → a ≠ b → coalesced (os ++ [a; b]).
Proof.
  intros Hc Hab i x y Hx Hy. change (os ++ [a; b]) with (os ++ [a] ++ [b]) in *. rewrite app_assoc in *.
  destruct (decide (S i < length (os ++ [a]))%nat) as [Hlt|Hge].
  - rewrite lookup_app_l in Hx by lia. rewrite lookup_app_l in Hy by lia. by eapply Hc.
  - pose proof (lookup_lt_Some _ _ _ Hy) as Hl. rewrite !length_app in *. simpl in *.
    assert (i = length os) as -> by lia.
    rewrite <- app_assoc in Hx. rewrite lookup_app_r, Nat.sub_diag in Hx by lia. injection Hx as <-.
    rewrite lookup_app_r in Hy by (rewrite length_app; simpl; lia).
    rewrite length_app in Hy. replace (S (length os) - (length os + length [a]))%nat with 0%nat in Hy by (simpl; lia).
    by injection Hy as <-.
Qed.

#[local] Transparent nrange.

Lemma nrange_snoc lo hi : lo ≤ hi → nrange lo (hi + 1) = nrange lo hi ++ [hi].
Proof.
  intros Hle. unfold nrange. replace (N.to_nat (hi + 1 - lo)) with (S (N.to_nat (hi - lo))) by lia.
  rewrite seq_S, fmap_app. f_equal. simpl. f_equal. lia.
Qed.

#[local] Opaque nrange.

(** What the loop of [slot_ranges] knows before slot [k]. *)
Definition ranges_inv (owners : list CacheShardOwner) (k : N)
    (st : list CacheSlotRange * N * CacheShardOwner) : Prop :=
  let '(ranges, start, owner) := st in
  tiles 0 ranges start ∧ covers owners ranges ∧ coalesced ((sr_owner <$> ranges) ++ [owner]) ∧ start < k ∧
  ∀ s, start ≤ s → s < k → owners !! N.to_nat s = Some owner.

Lemma next_range_ok owners k st :
  k < len owners → ranges_inv owners k st →
  ∃ st', next_range owners (Some st) k = Some st' ∧ ranges_inv owners (k + 1) st'.
Proof.
  intros Hk. destruct st as [[ranges start] owner]. intros (Ht & Hc & Hd & Hs & Ho). cbn [next_range mbind option_bind].
  destruct (lookup_lt_is_Some_2 owners (N.to_nat k)) as [next Hn]; [unfold len in Hk; lia|].
  rewrite Hn. cbn [mbind option_bind]. case_bool_decide as Heq; eexists; (split; [done|]).
  - subst next. split_and!; [done|done|done|lia|]. intros s Hlo Hhi.
    destruct (decide (s = k)) as [->|]; [done|]. apply Ho; lia.
  - assert (sr_end (mkSlotRange start (k - 1) owner) + 1 = k) as Hk1 by (simpl; lia). split_and!.
    + pose proof (tiles_snoc 0 ranges start (mkSlotRange start (k - 1) owner) Ht eq_refl) as Hsnoc.
      rewrite Hk1 in Hsnoc. apply Hsnoc. simpl. lia.
    + intros r s [Hr|Hr%list_elem_of_singleton]%elem_of_app Hin; [by apply Hc|]. subst r.
      unfold in_slots in Hin. simpl in *. apply Ho; lia.
    + rewrite fmap_app, <- app_assoc. simpl. apply coalesced_snoc; [done|congruence].
    + lia.
    + intros s Hlo Hhi. by replace s with k by lia.
Qed.

Lemma ranges_loop owners first n :
  owners !! 0%nat = Some first → 1 + n ≤ len owners →
  ∃ st, foldl (next_range owners) (Some ([], 0, first)) (nrange 1 (1 + n)) = Some st ∧
        ranges_inv owners (1 + n) st.
Proof.
  intros Hfirst. induction n as [|n IH] using N.peano_ind; intros Hlen.
  - exists ([], 0, first). split; [done|]. split_and!; [done| | |lia|].
    + by intros r s ?%elem_of_nil.
    + intros i a b Ha Hb. by destruct i.
    + intros s _ Hs. by replace s with 0 by lia.
  - destruct IH as (st & Hf & Hinv); [lia|]. replace (1 + N.succ n) with (1 + n + 1) by lia.
    rewrite nrange_snoc by lia. rewrite foldl_app, Hf. cbn [foldl].
    apply next_range_ok; [lia|done].
Qed.

Lemma slot_ranges_ok m :
  placement_ok m →
  ∃ rs, CacheSlotMap_slot_ranges m = Some rs ∧ tiles 0 rs REDIS_CLUSTER_SLOTS ∧
    covers (sm_owners m) rs ∧ coalesced (sr_owner <$> rs).
Proof.
  intros Hok. unfold placement_ok in Hok. unfold CacheSlotMap_slot_ranges.
  destruct (sm_owners m) as [|first owners] eqn:Ho; [done|]. rewrite <- Ho in *.
  destruct (ranges_loop (sm_owners m) first (REDIS_CLUSTER_SLOTS - 1)) as ([[ranges start] owner] & Hf & Hinv).
  - by rewrite Ho.
  - rewrite Hok. done.
  - replace (1 + (REDIS_CLUSTER_SLOTS - 1)) with REDIS_CLUSTER_SLOTS in * by done. rewrite Hf.
    destruct Hinv as (Ht & Hc & Hd & Hs & Hown). cbn [mbind option_bind]. eexists. split; [done|]. split_and!.
    + replace REDIS_CLUSTER_SLOTS with (sr_end (mkSlotRange start (REDIS_CLUSTER_SLOTS - 1) owner) + 1) at 2 by done.
      apply (tiles_snoc _ _ start); [done|done|simpl; lia].
    + intros r s [Hr|Hr%list_elem_of_singleton]%elem_of_app Hin; [by apply Hc|]. subst r.
      unfold in_slots in Hin. cbn [sr_start sr_end sr_owner] in *. apply Hown; lia.
    + by rewrite fmap_app.
Qed.

(** [C40] Placement changes are all or nothing and what a client is told is what
    routing does.  An epoch is refused exactly for one of the documented reasons,
    and then leaves the map as it was; an accepted one is newer, moves every slot
    of its ranges to the owner of the one range that holds it and no other slot;
    no assignment is out of bounds.  Afterwards the ranges reported to clients
    follow each other from slot 0 to slot 16383 without gap or overlap, with
    different owners side by side, and name for every slot its owner. *)
Theorem placement_epochs (m : CacheSlotMap) (epoch : N) (assignments : list CacheSlotRange) :
  placement_ok m →
  ∃ r m' rs, CacheSlotMap_apply_epoch m epoch assignments = Some (r, m') ∧ placement_ok m' ∧
    match r with
    | Ok _ =>
        sm_epoch m < epoch ∧ sm_epoch m' = epoch ∧
        (∀ a s, a ∈ assignments → in_slots a s → CacheSlotMap_owner_for_slot m' s = Some (sr_owner a)) ∧
        (∀ s, (∀ a, a ∈ assignments → ¬ in_slots a s) →
           CacheSlotMap_owner_for_slot m' s = CacheSlotMap_owner_for_slot m s)
    | Err _ =>
        m' = m ∧ (epoch ≤ sm_epoch m ∨ (∃ a, a ∈ assignments ∧ range_valid a = false) ∨
          ∃ i j a b, assignments !! i = Some a ∧ assignments !! j = Some b ∧ (i < j)%nat ∧ overlap a b = true)
    end ∧
    CacheSlotMap_slot_ranges m' = Some rs ∧ tiles 0 rs REDIS_CLUSTER_SLOTS ∧
    (∀ r s, r ∈ rs → in_slots r s → CacheSlotMap_owner_for_slot m' s = Some (sr_owner r)) ∧
    coalesced (sr_owner <$> rs).
Proof.
  intros Hok. unfold CacheSlotMap_apply_epoch.
  destruct (slot_ranges_ok m Hok) as (rs & Hrs & Ht & Hc & Hd).
  destruct (N.leb_spec epoch (sm_epoch m)).
  { eexists _, m, rs. split; [done|]. by split_and!; try left. }
  destruct (check_ranges assignments) as [e|] eqn:Hv.
  { eexists _, m, rs. split; [done|]. split_and!; try done. right. left. by eapply check_ranges_Some. }
  destruct (check_overlaps assignments) as [e|] eqn:Hov.
  { eexists _, m, rs. split; [done|]. split_and!; try done. right. right. by eapply check_overlaps_Some. }
  destruct (assign_all_ok assignments (sm_owners m) (check_ranges_None _ Hv) Hov Hok)
    as (owners & -> & Hl & Hin & Hout). cbn [mbind option_bind].
  assert (placement_ok (mkSlotMap epoch owners)) as Hok' by (unfold placement_ok; cbn [sm_owners]; by rewrite Hl).
  destruct (slot_ranges_ok _ Hok') as (rs' & Hrs' & Ht' & Hc' & Hd').
  eexists _, _, rs'. split; [done|]. by split_and!.
Qed.

Lemma placement_epochs_witness :
  ∃ r m' rs, CacheSlotMap_apply_epoch (mkSlotMap 4 (replicate (N.to_nat REDIS_CLUSTER_SLOTS) (mkOwner 1 0))) 5
      [mkSlotRange 100 199 (mkOwner 2 7)] = Some (r, m') ∧ r = Ok tt ∧
    CacheSlotMap_owner_for_slot m' 150 = Some (mkOwner 2 7) ∧ CacheSlotMap_slot_ranges m' = Some rs.
Proof.
  assert (in_slots (mkSlotRange 100 199 (mkOwner 2 7)) 150) as Hslot by done.
  assert (¬ 5 ≤ 4) as Hnew by lia.
  assert (range_valid (mkSlotRange 100 199 (mkOwner 2 7)) = true) as Hvalid by done.
  destruct (placement_epochs (mkSlotMap 4 (replicate (N.to_nat REDIS_CLUSTER_SLOTS) (mkOwner 1 0))) 5
    [mkSlotRange 100 199 (mkOwner 2 7)]) as (r & m' & rs & Happ & Hok & Hr & Hrs & _).
  { unfold placement_ok. cbn [sm_owners]. unfold len. by rewrite length_replicate, N2Nat.id. }
  exists r, m', rs. destruct r as [[]|e].
  - destruct Hr as (_ & _ & Hin & _). split; [exact Happ|]. split; [reflexivity|].
    split; [|exact Hrs]. exact (Hin (mkSlotRange 100 199 (mkOwner 2 7)) 150 (list_elem_of_here _ _) Hslot).
  - exfalso. destruct Hr as (_ & [Hr|[(a & Ha%list_elem_of_singleton & Hr)|(i & j & a & b & Hi & Hj & Hij & _)]]).
    + exact (Hnew Hr).
    + subst a. congruence.
    + clear - Hi Hj Hij. destruct i as [|i]; [|discriminate Hi]. destruct j as [|j]; [lia|discriminate Hj].
Defined.
