(* ===== verification/CacheCluster.v ===== *)
(** * Cluster topology commands

    [src/runtime/cache_cluster.rs]: advertised endpoints, node identifiers and
    the CLUSTER commands.  A panic is [None]. *)
From Stdlib Require Import ZArith String.
From S2P Require Import Prelude Bytes Text RedisSlot Resp RespCache CacheRouting.

Local Open Scope list_scope.
Local Open Scope N_scope.

Inductive CacheRoutingMode := Transparent | Redirect.

Record CacheAdvertisedEndpoint := mkEndpoint { ep_host : bytes; ep_port : N; ep_target : bytes }.

Definition write_u16_decimal (out : bytes) (value : N) : option bytes :=
  if value =? 0 then Some (out ++ [48]) else
  '(_, digits) ← fill_decimal 5 value [];
  Some (out ++ digits).

Definition CacheAdvertisedEndpoint_new (host : bytes) (port : N) : option CacheAdvertisedEndpoint :=
  target ← write_u16_decimal (host ++ [58]) port;
  Some (mkEndpoint host port target).

Definition CacheEndpointMap := gmap CacheShardOwner CacheAdvertisedEndpoint.

Definition CacheEndpointMap_new : CacheEndpointMap := ∅.
Definition CacheEndpointMap_insert (self : CacheEndpointMap) (owner : CacheShardOwner)
    (endpoint : CacheAdvertisedEndpoint) : option CacheAdvertisedEndpoint * CacheEndpointMap :=
  (self !! owner, <[owner := endpoint]> self).
Definition CacheEndpointMap_get (self : CacheEndpointMap) (owner : CacheShardOwner)
    : option CacheAdvertisedEndpoint := self !! owner.
Definition CacheEndpointMap_len (self : CacheEndpointMap) : N := N.of_nat (size self).
Definition CacheEndpointMap_is_empty (self : CacheEndpointMap) : bool := bool_decide (size self = 0%nat).

Inductive CacheClusterCommandError := MissingEndpoint (owner : CacheShardOwner).

(** ** Node identifiers *)

Definition hex_nibble (value : N) : N := if value <=? 9 then 48 + value else 97 + (value - 10).

(** [x.rotate_left(k)] on [w] bits. *)
Definition rotate_left (w x k : N) : N := (N.lor (N.shiftl x k) (N.shiftr x (w - k))) mod 2 ^ w.

Definition node_id_raw (owner : CacheShardOwner) : bytes :=
  to_be_bytes 8 (ow_node_id owner) ++ to_be_bytes 2 (ow_shard owner) ++
  to_be_bytes 8 (rotate_left 64 (ow_node_id owner) 23) ++ to_be_bytes 2 (rotate_left 16 (ow_shard owner) 7).

Definition redis_node_id (owner : CacheShardOwner) : bytes :=
  node_id_raw owner ≫= λ b, [hex_nibble (N.shiftr b 4); hex_nibble (N.land b 0x0f)].

(** ** Commands *)

(** The first range, in order, whose owner has no endpoint. *)
Definition missing_endpoint (owners : list CacheShardOwner) (endpoints : CacheEndpointMap)
    : option CacheShardOwner :=
  snd <$> list_find (λ o, CacheEndpointMap_get endpoints o = None) owners.

Definition write_slot_range (endpoints : CacheEndpointMap) (acc : option bytes) (range : CacheSlotRange)
    : option bytes :=
  out ← acc;
  endpoint ← CacheEndpointMap_get endpoints (sr_owner range);
  out ← write_array_len out 3;
  out ← write_integer out (Z.of_N (sr_start range));
  out ← write_integer out (Z.of_N (sr_end range));
  out ← write_array_len out 3;
  out ← write_bulk out (ep_host endpoint);
  out ← write_integer out (Z.of_N (ep_port endpoint));
  write_bulk out (redis_node_id (sr_owner range)).

Definition write_cluster_slots (placement : CacheSlotMap) (endpoints : CacheEndpointMap) (out : bytes)
    : option (result unit CacheClusterCommandError * bytes) :=
  ranges ← CacheSlotMap_slot_ranges placement;
  match missing_endpoint (sr_owner <$> ranges) endpoints with
  | Some owner => Some (Err (MissingEndpoint owner), out)
  | None =>
      out ← write_array_len out (len ranges);
      out ← foldl (write_slot_range endpoints) (Some out) ranges;
      Some (Ok tt, out)
  end.

(** Ranges grouped by owner, in order of first appearance. *)
Fixpoint add_shard_range (shards : list (CacheShardOwner * list (N * N))) (range : CacheSlotRange)
    : list (CacheShardOwner * list (N * N)) :=
  match shards with
  | [] => [(sr_owner range, [(sr_start range, sr_end range)])]
  | (owner, ranges) :: shards =>
      if bool_decide (owner = sr_owner range)
      then (owner, ranges ++ [(sr_start range, sr_end range)]) :: shards
      else (owner, ranges) :: add_shard_range shards range
  end.

Definition write_bound (acc : option bytes) (r : N * N) : option bytes :=
  out ← acc;
  out ← write_integer out (Z.of_N r.1);
  write_integer out (Z.of_N r.2).

Definition write_shard (endpoints : CacheEndpointMap) (acc : option bytes)
    (shard : CacheShardOwner * list (N * N)) : option bytes :=
  out ← acc;
  endpoint ← CacheEndpointMap_get endpoints shard.1;
  out ← write_array_len out 4;
  out ← write_bulk out (str "slots");
  out ← write_array_len out (len shard.2 * 2);
  out ← foldl write_bound (Some out) shard.2;
  out ← write_bulk out (str "nodes");
  out ← write_array_len out 1;
  out ← write_array_len out 14;
  out ← write_bulk out (str "id");
  out ← write_bulk out (redis_node_id shard.1);
  out ← write_bulk out (str "port");
  out ← write_integer out (Z.of_N (ep_port endpoint));
  out ← write_bulk out (str "ip");
  out ← write_bulk out [];
  out ← write_bulk out (str "endpoint");
  out ← write_bulk out (ep_host endpoint);
  out ← write_bulk out (str "role");
  out ← write_bulk out (str "master");
  out ← write_bulk out (str "replication-offset");
  out ← write_integer out 0;
  out ← write_bulk out (str "health");
  write_bulk out (str "online").

Definition write_cluster_shards (placement : CacheSlotMap) (endpoints : CacheEndpointMap) (out : bytes)
    : option (result unit CacheClusterCommandError * bytes) :=
  ranges ← CacheSlotMap_slot_ranges placement;
  let shards := foldl add_shard_range [] ranges in
  match missing_endpoint shards.*1 endpoints with
  | Some owner => Some (Err (MissingEndpoint owner), out)
  | None =>
      out ← write_array_len out (len shards);
      out ← foldl (write_shard endpoints) (Some out) shards;
      Some (Ok tt, out)
  end.

(** [None] inside: the command is not CLUSTER. *)
Definition execute_cluster_command (command : RespCommand) (placement : CacheSlotMap)
    (endpoints : CacheEndpointMap) (out : bytes)
    : option (option (result unit CacheClusterCommandError) * bytes) :=
  if negb (eq_ignore_ascii_case (rc_name command) (str "CLUSTER")) then Some (None, out) else
  let argc := rc_argc command in
  if argc =? 0 then
    Some (Some (Ok tt), write_error out (str "ERR wrong number of arguments for 'cluster' command")) else
  '(subcommand, args) ← next_arg (RespCommand_args command);
  let named := eq_ignore_ascii_case subcommand in
  if named (str "KEYSLOT") then
    if negb (argc =? 2) then
      Some (Some (Ok tt), write_error out (str "ERR wrong number of arguments for 'cluster|keyslot' command"))
    else
      '(key, _) ← next_arg args;
      out ← write_integer out (Z.of_N (redis_slot key));
      Some (Some (Ok tt), out)
  else if named (str "SLOTS") then
    if negb (argc =? 1) then
      Some (Some (Ok tt), write_error out (str "ERR wrong number of arguments for 'cluster|slots' command"))
    else '(r, out) ← write_cluster_slots placement endpoints out; Some (Some r, out)
  else if named (str "SHARDS") then
    if negb (argc =? 1) then
      Some (Some (Ok tt), write_error out (str "ERR wrong number of arguments for 'cluster|shards' command"))
    else '(r, out) ← write_cluster_shards placement endpoints out; Some (Some r, out)
  else Some (Some (Ok tt), write_error out (str "ERR unknown CLUSTER subcommand")).
