(* ===== verification/CacheDispatch.v ===== *)
(** * Dispatch between the shards of a node

    [src/runtime/cache_dispatch.rs].  Shards share bounded queues; a command for
    another shard of the node travels as a copy of its frame with a channel for
    the reply.  The channels are one shared state, [CacheDispatchChannels]: the queue of each
    shard, the reply channels created so far (named by their position), and the
    wake-ups issued.  A panic is [None]. *)
From Stdlib Require Import ZArith String.
From S2P Require Import Prelude Bytes Text Cache RedisSlot Resp RespCache CacheRouting CacheCluster.

Local Open Scope list_scope.
Local Open Scope N_scope.

Inductive CacheDispatchConfigError :=
| DInvalidShardCount
| DInvalidQueueCapacity
| DInvalidLocalShard (shard shard_count : N)
| DWakeAlreadyInstalled (shard : N).

Inductive CacheDispatchError :=
| DParse (e : RespParseError)
| DUnknownSlot (slot : N)
| DUnknownLocalShard (shard : N)
| DQueueFull (shard : N)
| DQueueDisconnected (shard : N)
| DMissingEndpoint (owner : CacheShardOwner).

Inductive CacheReplyError := ReplyEmpty | ReplyDisconnected | ReplyParse (e : RespParseError).

Record CacheRemoteRequest := mkRemoteRequest {
  rr_slot : N; rr_owner : CacheShardOwner; rr_placement_epoch : N; rr_frame : bytes }.

Inductive CacheDispatchOutcome :=
| Executed (consumed : N)
| LocalQueued (consumed shard reply : N)
| Remote (consumed : N) (request : CacheRemoteRequest)
| Redirected (consumed slot : N) (owner : CacheShardOwner).

Record CacheShardRequest := mkShardRequest {
  rq_frame : bytes; rq_now_ms : N; rq_reply : N; rq_reply_wake : option N }.

(** ** Channels *)

(** A bounded queue, and whether its receiver still exists. *)
Record ShardQueue := mkShardQueue { sq_items : list CacheShardRequest; sq_open : bool }.

(** A reply channel of capacity one, with its two ends. *)
Record ReplyCell := mkReplyCell {
  rp_value : option (result bytes RespParseError); rp_sender : bool; rp_receiver : bool }.

Record CacheDispatchChannels := mkChannels {
  nt_capacity : N;
  nt_queues : list ShardQueue;
  nt_wakers : list (option N);
  nt_replies : list ReplyCell;
  nt_woken : list N;
}.

Definition put_queue (net : CacheDispatchChannels) (shard : N) (q : ShardQueue) : CacheDispatchChannels :=
  mkChannels (nt_capacity net) (<[N.to_nat shard := q]> (nt_queues net)) (nt_wakers net) (nt_replies net) (nt_woken net).
Definition put_reply (net : CacheDispatchChannels) (id : N) (c : ReplyCell) : CacheDispatchChannels :=
  mkChannels (nt_capacity net) (nt_queues net) (nt_wakers net) (<[N.to_nat id := c]> (nt_replies net)) (nt_woken net).
Definition add_reply (net : CacheDispatchChannels) : N * CacheDispatchChannels :=
  (len (nt_replies net),
   mkChannels (nt_capacity net) (nt_queues net) (nt_wakers net)
     (nt_replies net ++ [mkReplyCell None true true]) (nt_woken net)).
Definition wake (net : CacheDispatchChannels) (waker : option N) : CacheDispatchChannels :=
  match waker with
  | Some w => mkChannels (nt_capacity net) (nt_queues net) (nt_wakers net) (nt_replies net) (nt_woken net ++ [w])
  | None => net
  end.

Definition CacheDispatchChannels_new (shard_count queue_capacity : N) : result CacheDispatchChannels CacheDispatchConfigError :=
  if shard_count =? 0 then Err DInvalidShardCount else
  if queue_capacity =? 0 then Err DInvalidQueueCapacity else
  Ok (mkChannels queue_capacity (replicate (N.to_nat shard_count) (mkShardQueue [] true))
        (replicate (N.to_nat shard_count) None) [] []).

Definition shard_count (net : CacheDispatchChannels) : N := as_u16 (len (nt_queues net)).

Definition install_waker (net : CacheDispatchChannels) (shard waker : N) : result CacheDispatchChannels CacheDispatchConfigError :=
  match nt_wakers net !! N.to_nat shard with
  | None => Err (DInvalidLocalShard shard (shard_count net))
  | Some (Some _) => Err (DWakeAlreadyInstalled shard)
  | Some None =>
      Ok (mkChannels (nt_capacity net) (nt_queues net) (<[N.to_nat shard := Some waker]> (nt_wakers net))
            (nt_replies net) (nt_woken net))
  end.

Definition waker_for (net : CacheDispatchChannels) (shard : N) : option N := nt_wakers net !! N.to_nat shard ≫= id.

Definition try_send (net : CacheDispatchChannels) (shard : N) (request : CacheShardRequest)
    : result unit CacheDispatchError * CacheDispatchChannels :=
  match nt_queues net !! N.to_nat shard with
  | None => (Err (DUnknownLocalShard shard), net)
  | Some q =>
      if negb (sq_open q) then (Err (DQueueDisconnected shard), net)
      else if nt_capacity net <=? len (sq_items q) then (Err (DQueueFull shard), net)
      else (Ok tt, wake (put_queue net shard (mkShardQueue (sq_items q ++ [request]) true))
                     (waker_for net shard))
  end.

(** [CacheLocalReply::try_recv] *)
Definition try_recv_reply (net : CacheDispatchChannels) (id : N) : option (result (option bytes) CacheReplyError * CacheDispatchChannels) :=
  c ← nt_replies net !! N.to_nat id;
  Some match rp_value c with
       | Some (Ok bytes) => (Ok (Some bytes), put_reply net id (mkReplyCell None (rp_sender c) (rp_receiver c)))
       | Some (Err e) => (Err (ReplyParse e), put_reply net id (mkReplyCell None (rp_sender c) (rp_receiver c)))
       | None => (if rp_sender c then Ok None else Err ReplyDisconnected, net)
       end.

(** [CacheLocalReply::recv], which consumes the receiving end.  The inner [None]
    is a caller still blocked: no reply yet, and a sender that may send one. *)
Definition recv_reply (net : CacheDispatchChannels) (id : N)
    : option (option (result bytes CacheReplyError * CacheDispatchChannels)) :=
  c ← nt_replies net !! N.to_nat id;
  let net := put_reply net id (mkReplyCell None (rp_sender c) false) in
  Some match rp_value c with
       | Some (Ok bytes) => Some (Ok bytes, net)
       | Some (Err e) => Some (Err (ReplyParse e), net)
       | None => if rp_sender c then None else Some (Err ReplyDisconnected, net)
       end.

(** [request.reply.send(result)], after which the request is dropped, and the
    wake-up of the shard that waits for it. *)
Definition send_reply (net : CacheDispatchChannels) (request : CacheShardRequest) (r : result bytes RespParseError) : option CacheDispatchChannels :=
  c ← nt_replies net !! N.to_nat (rq_reply request);
  if rp_receiver c
  then Some (wake (put_reply net (rq_reply request) (mkReplyCell (Some r) false true)) (rq_reply_wake request))
  else Some (put_reply net (rq_reply request) (mkReplyCell (rp_value c) false false)).

(** ** The inbox of a shard *)

Section dispatch.
Context {S : Type} `{CacheApi S}.

Definition process_request (store : S) (request : CacheShardRequest)
    : option (result bytes RespParseError * S) :=
  '(r, out, store) ← execute_frame store (rq_frame request) (rq_now_ms request) [];
  Some (match r with
        | Ok (Some consumed) => if consumed =? len (rq_frame request) then Ok out else Err InvalidLength
        | Ok None => Err InvalidLength
        | Err e => Err e
        end, store).

Definition try_process_one (net : CacheDispatchChannels) (shard : N) (store : S) : option (bool * CacheDispatchChannels * S) :=
  q ← nt_queues net !! N.to_nat shard;
  match sq_items q with
  | [] => Some (false, net, store)
  | request :: items =>
      let net := put_queue net shard (mkShardQueue items (sq_open q)) in
      '(r, store) ← process_request store request;
      net ← send_reply net request r;
      Some (true, net, store)
  end.

(** [while processed < max_commands && self.try_process_one(store)] *)
Fixpoint drain (max_commands : nat) (net : CacheDispatchChannels) (shard : N) (store : S) : option (N * CacheDispatchChannels * S) :=
  match max_commands with
  | O => Some (0, net, store)
  | Datatypes.S more =>
      '(more_work, net, store) ← try_process_one net shard store;
      if (more_work : bool) then
        '(n, net, store) ← drain more net shard store;
        Some (n + 1, net, store)
      else Some (0, net, store)
  end.

(** ** Dispatch *)

Record CacheDispatcher := mkDispatcher {
  cd_local_node_id : N;
  cd_local_shard : N;
  cd_placement : CacheSlotMap;
  cd_routing_mode : CacheRoutingMode;
  cd_endpoints : CacheEndpointMap;
}.

Definition CacheDispatcher_new (local_node_id local_shard : N) (placement : CacheSlotMap) (channels : CacheDispatchChannels)
    : result CacheDispatcher CacheDispatchConfigError :=
  if shard_count channels <=? local_shard
  then Err (DInvalidLocalShard local_shard (shard_count channels))
  else Ok (mkDispatcher local_node_id local_shard placement Transparent CacheEndpointMap_new).

Definition with_endpoints (self : CacheDispatcher) (endpoints : CacheEndpointMap) : CacheDispatcher :=
  mkDispatcher (cd_local_node_id self) (cd_local_shard self) (cd_placement self) (cd_routing_mode self) endpoints.
Definition with_cluster_redirects (self : CacheDispatcher) (endpoints : CacheEndpointMap) : CacheDispatcher :=
  mkDispatcher (cd_local_node_id self) (cd_local_shard self) (cd_placement self) Redirect endpoints.
Definition install_placement (self : CacheDispatcher) (placement : CacheSlotMap) : CacheDispatcher :=
  mkDispatcher (cd_local_node_id self) (cd_local_shard self) placement (cd_routing_mode self) (cd_endpoints self).

(** The result of a call: its value, and the state of channels, output and
    store after it. *)
Definition dispatched : Type :=
  result (option CacheDispatchOutcome) CacheDispatchError * CacheDispatchChannels * bytes * S.

(** The part of [dispatch_frame] behind the choice of the owner. *)
Definition dispatch_to (self : CacheDispatcher) (net : CacheDispatchChannels) (store : S) (input : bytes) (command : RespCommand)
    (consumed slot : N) (owner : CacheShardOwner) (now_ms : N) (out : bytes) : option dispatched :=
  let is_local_owner :=
    (ow_node_id owner =? cd_local_node_id self) && (ow_shard owner =? cd_local_shard self) in
  if negb is_local_owner && match cd_routing_mode self with Redirect => true | Transparent => false end then
    match CacheEndpointMap_get (cd_endpoints self) owner with
    | None => Some (Err (DMissingEndpoint owner), net, out, store)
    | Some endpoint =>
        out ← write_moved out slot (ep_target endpoint);
        Some (Ok (Some (Redirected consumed slot owner)), net, out, store)
    end
  else if negb (ow_node_id owner =? cd_local_node_id self) then
    Some (Ok (Some (Remote consumed
            (mkRemoteRequest slot owner (sm_epoch (cd_placement self)) (take (N.to_nat consumed) input)))),
          net, out, store)
  else if ow_shard owner =? cd_local_shard self then
    '(out, store) ← execute_command store command now_ms out;
    Some (Ok (Some (Executed consumed)), net, out, store)
  else
    let '(reply, net1) := add_reply net in
    let request := mkShardRequest (take (N.to_nat consumed) input) now_ms reply
                     (waker_for net (cd_local_shard self)) in
    match try_send net1 (ow_shard owner) request with
    | (Ok _, net2) => Some (Ok (Some (LocalQueued consumed (ow_shard owner) reply)), net2, out, store)
    | (Err e, _) => Some (Err e, net, out, store)
    end.

Definition dispatch_frame (self : CacheDispatcher) (net : CacheDispatchChannels) (store : S) (input : bytes) (now_ms : N)
    (out : bytes) : option dispatched :=
  match parse_command input with
  | Err e => Some (Err (DParse e), net, out, store)
  | Ok None => Some (Ok None, net, out, store)
  | Ok (Some (command, consumed)) =>
      '(cluster, out) ← execute_cluster_command command (cd_placement self) (cd_endpoints self) out;
      match cluster with
      | Some (Ok _) => Some (Ok (Some (Executed consumed)), net, out, store)
      | Some (Err (MissingEndpoint owner)) => Some (Err (DMissingEndpoint owner), net, out, store)
      | None =>
          slot ← command_slot command;
          match slot with
          | Unkeyed | CrossSlot =>
              '(out, store) ← execute_command store command now_ms out;
              Some (Ok (Some (Executed consumed)), net, out, store)
          | Slot slot =>
              match CacheSlotMap_owner_for_slot (cd_placement self) slot with
              | None => Some (Err (DUnknownSlot slot), net, out, store)
              | Some owner => dispatch_to self net store input command consumed slot owner now_ms out
              end
          end
      end
  end.

End dispatch.
