(* ===== verification/CacheNode.v ===== *)
(** * A node of cache shards is one cache

    Every command runs on the shard that owns its slot, directly or through a
    queue.  The development shows that the shards together answer as one map
    with deadlines: commands are local to their slot, the stores hold disjoint
    parts of the map, and queues keep the order of commands of a shard. *)
From Stdlib Require Import ZArith String.
From S2P Require Import Prelude Bytes Text CacheArena CacheIndex Cache CacheRefine RedisSlot Resp RespCache.
From S2P Require Import RespRefine CacheRouting CacheCluster CacheDispatch.

Local Open Scope list_scope.
Local Open Scope N_scope.

Local Abbreviation cache_map := (gmap bytes binding).

(** ** Commands are local to their slot *)

(** The part of a map whose slots satisfy [P]. *)
Definition part (P : N → bool) (m : cache_map) : cache_map := filter (λ kv, P (redis_slot kv.1) = true) m.

Lemma part_lookup P m k : P (redis_slot k) = true → part P m !! k = m !! k.
Proof.
  intros HP. unfold part. rewrite map_lookup_filter. destruct (m !! k) as [b|]; simpl; [|done].
  by rewrite option_guard_True.
Qed.

Lemma part_insert P m k b : P (redis_slot k) = true → part P (<[k := b]> m) = <[k := b]> (part P m).
Proof. intros HP. unfold part. by rewrite map_filter_insert_True. Qed.

Lemma part_delete P m k : part P (delete k m) = delete k (part P m).
Proof. unfold part. by rewrite map_filter_delete. Qed.

Lemma part_delete_other P m k : P (redis_slot k) = false → part P (delete k m) = part P m.
Proof.
  intros HP. rewrite part_delete. apply delete_id. unfold part. apply map_lookup_filter_None_2.
  right. intros b _. simpl. congruence.
Qed.

Lemma part_insert_other P m k b : P (redis_slot k) = false → part P (<[k := b]> m) = part P m.
Proof.
  intros HP. rewrite <- (part_delete_other P m k HP). unfold part. rewrite map_filter_insert_False; [done|].
  simpl. congruence.
Qed.

Lemma part_reap P m k now : P (redis_slot k) = true → reap k now (part P m) = part P (reap k now m).
Proof.
  intros HP. unfold reap. rewrite part_lookup by done. destruct (m !! k) as [b|]; [|done].
  destruct (expired now b); [|done]. by rewrite part_delete.
Qed.

Lemma part_reap_other P m k now : P (redis_slot k) = false → part P (reap k now m) = part P m.
Proof.
  intros HP. unfold reap. destruct (m !! k) as [b|]; [|done].
  destruct (expired now b); [|done]. by apply part_delete_other.
Qed.

(** A transformation of the map that only looks at and changes keys of one
    slot. *)
Definition local_to {R : Type} (slot : N) (f : cache_map → R * cache_map) : Prop :=
  ∀ (P : N → bool) m, if P slot then f (part P m) = ((f m).1, part P (f m).2) else part P (f m).2 = part P m.

Lemma local_ret {R : Type} (slot : N) (r : R) : local_to slot (λ m, (r, m)).
Proof. intros P m. by destruct (P slot). Qed.

Lemma local_reap {R : Type} k now (g : option binding → R) :
  local_to (redis_slot k) (λ m, (g (reap k now m !! k), reap k now m)).
Proof.
  intros P m. destruct (P (redis_slot k)) eqn:HP; simpl.
  - by rewrite part_reap, part_lookup by done.
  - by apply part_reap_other.
Qed.

Lemma slot_local_put k v d r : local_to (R := reply) (redis_slot k) (λ m, (r, put k v d m)).
Proof.
  intros P m. destruct (P (redis_slot k)) eqn:HP; simpl; unfold put.
  - by rewrite part_insert.
  - by apply part_insert_other.
Qed.

Lemma local_delete {R : Type} k now (g : bool → R) :
  local_to (redis_slot k) (λ m, (g (live k now m), delete k m)).
Proof.
  intros P m. destruct (P (redis_slot k)) eqn:HP; simpl; unfold live.
  - by rewrite part_reap, part_lookup, part_delete by done.
  - by apply part_delete_other.
Qed.

Lemma local_ext {R : Type} (slot : N) (f g : cache_map → R * cache_map) :
  (∀ m, f m = g m) → local_to slot f → local_to slot g.
Proof. intros Heq Hf P m. specialize (Hf P m). by rewrite !Heq in Hf. Qed.

(** One local transformation after another. *)
Lemma slot_local_bind {R R' : Type} (slot : N) (f : cache_map → R * cache_map) (g : R → cache_map → R' * cache_map) :
  local_to slot f → (∀ r, local_to slot (g r)) → local_to slot (λ m, g (f m).1 (f m).2).
Proof.
  intros Hf Hg P m. specialize (Hf P m). specialize (Hg (f m).1 P (f m).2).
  destruct (P slot); [by rewrite Hf|]. by rewrite Hg.
Qed.

Lemma local_map {R R' : Type} (slot : N) (f : cache_map → R * cache_map) (h : R → R') :
  local_to slot f → local_to slot (λ m, (h (f m).1, (f m).2)).
Proof. intros Hf. apply (slot_local_bind slot f (λ r m, (h r, m))); [done|]. intros r. apply local_ret. Qed.

Lemma local_spec_count (slot : N) drop_key ks now n :
  Forall (λ k, redis_slot k = slot) ks → local_to slot (spec_count drop_key ks now n).
Proof.
  intros Hks. revert n. induction Hks as [|k ks Hk _ IH]; intros n; [apply local_ret|]. subst slot.
  destruct drop_key.
  - refine (slot_local_bind _ (λ m, ((if live k now m then n + 1 else n)%Z, delete k m))
      (λ n' m', spec_count true ks now n' m') _ IH).
    apply (local_delete k now (λ b : bool, if b then n + 1 else n)%Z).
  - refine (slot_local_bind _ (λ m, ((if live k now m then n + 1 else n)%Z, reap k now m))
      (λ n' m', spec_count false ks now n' m') _ IH).
    pose (g := λ o : option binding, if bool_decide (is_Some o) then (n + 1)%Z else n). exact (local_reap k now g).
Qed.

Lemma local_spec_mget (slot : N) ks now :
  Forall (λ k, redis_slot k = slot) ks → local_to slot (spec_mget ks now).
Proof.
  intros Hks. induction Hks as [|k ks Hk _ IH]; [apply local_ret|]. subst slot.
  eapply (local_ext _ (λ m, (λ v m', ((v :: (spec_mget ks now m').1), (spec_mget ks now m').2))
    (spec_get k now m) (reap k now m))).
  { intros m. simpl. by destruct (spec_mget ks now (reap k now m)). }
  refine (slot_local_bind _ (λ m, (spec_get k now m, reap k now m))
    (λ v m', ((v :: (spec_mget ks now m').1), (spec_mget ks now m').2)) _ _).
  - apply (local_reap k now (fmap (value_text ∘ bd_value))).
  - intros v. by apply (local_map _ _ (cons v)).
Qed.

Lemma slot_local_puts (slot : N) (ps : list (bytes * bytes)) (r : reply) :
  Forall (λ k, redis_slot k = slot) ps.*1 →
  local_to slot (λ m, (r, foldl (λ m p, put p.1 p.2 None m) m ps)).
Proof.
  induction ps as [|p ps IH]; intros Hps; [apply local_ret|]. apply Forall_cons in Hps as [<- Hps].
  refine (slot_local_bind _ (λ m, (r, put p.1 p.2 None m)) (λ r m, (r, foldl (λ m p, put p.1 p.2 None m) m ps)) _ _);
    [apply slot_local_put|]. intros r' P m. specialize (IH Hps P m). destruct (P _); [|done].
  by injection IH as ->.
Qed.

Lemma one_slot_Forall k ks : one_slot (k :: ks) = true → Forall (λ k', redis_slot k' = redis_slot k) (k :: ks).
Proof.
  simpl. intros H. constructor; [done|]. apply Forall_forall. intros k' Hk'. rewrite forallb_forall in H.
  apply N.eqb_eq, H. by apply list_elem_of_In.
Qed.

(** ** Routing of commands *)

(** The slot of a command, on its list of arguments. *)
Definition keys_slot (ks : list bytes) : RespCommandSlot :=
  match ks with
  | [] => Unkeyed
  | k :: _ => if one_slot ks then Slot (redis_slot k) else CrossSlot
  end.

Definition spec_slot (name : bytes) (args : list bytes) : RespCommandSlot :=
  let named := eq_ignore_ascii_case name in
  if named (str "GET") || named (str "INCR") || named (str "TTL") then
    match args with [k] => Slot (redis_slot k) | _ => Unkeyed end
  else if named (str "SET") then
    match args with [k; _] | [k; _; _; _] => Slot (redis_slot k) | _ => Unkeyed end
  else if named (str "EXPIRE") then
    match args with [k; _] => Slot (redis_slot k) | _ => Unkeyed end
  else if named (str "DEL") || named (str "EXISTS") || named (str "MGET") then keys_slot args
  else if named (str "MSET") then
    match pairs args with Some ps => keys_slot ps.*1 | None => Unkeyed end
  else Unkeyed.

Lemma first_slot_ok cmd k vs :
  command_holds cmd (k :: vs) → first_slot cmd = Some (Slot (redis_slot k)).
Proof. intros [Ha _]. unfold first_slot. by destruct (next_arg_cons _ _ _ Ha) as (a' & -> & _). Qed.

Lemma route_key_args_ok a vs : args_hold a vs → route_key_args a = keys_slot vs.
Proof.
  intros Ha. unfold route_key_args. destruct vs as [|v vs]; [by rewrite (args_next_nil _ Ha)|].
  destruct (args_next_cons _ _ _ Ha) as (a' & -> & Ha'). by rewrite (args_collect _ _ Ha').
Qed.

Lemma route_pairs_ok a vs ps :
  args_hold a vs → pairs vs = Some ps → route_key_value_args a = keys_slot ps.*1.
Proof.
  intros Ha Hps. unfold route_key_value_args. destruct vs as [|k [|v vs]]; simplify_eq/=.
  - by rewrite (args_next_nil _ Ha).
  - destruct (pairs vs) as [ps'|] eqn:Hp; simplify_eq/=.
    destruct (args_next_cons _ _ _ Ha) as (a1 & -> & Ha1).
    destruct (args_next_cons _ _ _ Ha1) as (a2 & -> & Ha2). simpl.
    by rewrite (args_collect _ _ Ha2), (pair_keys_all_pairs _ _ _ Hp).
Qed.

Lemma command_slot_ok cmd vs :
  command_holds cmd vs → command_slot cmd = Some (spec_slot (rc_name cmd) vs).
Proof.
  intros Hc. pose proof Hc as [Ha Hargc]. unfold command_slot, spec_slot. rewrite Hargc.
  case_match; [destruct vs as [|k [|? ?]]; argc; try done; by eapply first_slot_ok|].
  case_match; [destruct vs as [|k [|? [|? [|? [|? ?]]]]]; argc; try done; by eapply first_slot_ok|].
  case_match; [destruct vs as [|k [|? [|? ?]]]; argc; try done; by eapply first_slot_ok|].
  case_match.
  { rewrite (route_key_args_ok _ _ Ha). by destruct vs as [|k vs]; argc. }
  case_match; [|done]. pose proof (pairs_parity vs) as Hpar. destruct (pairs vs) as [ps|] eqn:Hps.
  - destruct Hpar as [Hmod Hnil]. rewrite Hmod. cbn [N.eqb negb]. rewrite orb_false_r.
    destruct (N.eqb_spec (len vs) 0) as [Hz|Hz].
    + destruct vs; [|done]. by injection Hps as <-.
    + by rewrite (route_pairs_ok _ _ _ Ha Hps).
  - rewrite Hpar. cbn [N.eqb Pos.eqb negb]. by rewrite orb_true_r.
Qed.

Lemma name_other name a b :
  eq_ignore_ascii_case name a = true → eq_ignore_ascii_case a b = false → eq_ignore_ascii_case name b = false.
Proof.
  unfold eq_ignore_ascii_case. rewrite bool_decide_eq_true, !bool_decide_eq_false. congruence.
Qed.

(** With the name of the command known, decide the other names. *)
Local Ltac name_known H :=
  rewrite ?H; repeat match goal with
  | |- context [eq_ignore_ascii_case ?n ?b] =>
      rewrite (name_other n _ b H) by (by vm_compute)
  end; cbn [orb].

(** What a command with this route does to a map. *)
Definition routed (slot : RespCommandSlot) (f : cache_map → reply * cache_map) : Prop :=
  match slot with
  | Slot s => local_to s f
  | Unkeyed | CrossSlot => ∃ r, ∀ m, f m = (r, m)
  end.

Lemma routed_keys (name : bytes) (ks : list bytes) (g : cache_map → reply * cache_map) :
  (∀ k, Forall (λ k', redis_slot k' = redis_slot k) ks → local_to (redis_slot k) g) →
  routed (keys_slot ks) (λ m, multi_key name ks m (g m)).
Proof.
  intros Hg. unfold multi_key, keys_slot. destruct ks as [|k ks]; [by eexists|].
  rewrite bool_decide_eq_false_2 by done. destruct (one_slot (k :: ks)) eqn:Ho; [|by eexists].
  apply Hg. by apply one_slot_Forall.
Qed.

Lemma routed_incr now k : routed (Slot (redis_slot k)) (spec_incr_cmd now [k]).
Proof.
  intros P m. simpl. destruct (P (redis_slot k)) eqn:HP.
  - rewrite part_reap by done. unfold spec_increment. rewrite part_lookup by done.
    destruct (reap k now m !! k) as [b|]; [|simpl; by rewrite part_insert].
    destruct (let? z := view_integer (bd_value b) in _) as [z|e]; simpl; [by rewrite part_insert|done].
  - unfold spec_increment. rewrite <- (part_reap_other P m k now HP).
    destruct (reap k now m !! k) as [b|]; [|simpl; by rewrite part_insert_other].
    destruct (let? z := view_integer (bd_value b) in _) as [z|e]; simpl; [by rewrite part_insert_other|done].
Qed.

Lemma local_expire now ms k :
  local_to (redis_slot k) (λ m, (expire_reply (live k now m), (spec_expire now ms k (reap k now m)).2)).
Proof.
  intros P m. unfold live, spec_expire. destruct (P (redis_slot k)) eqn:HP; simpl.
  - rewrite part_reap, part_lookup by done. destruct (reap k now m !! k) as [b|]; [|done].
    destruct (ms =? 0); simpl; [by rewrite part_delete|by rewrite part_insert].
  - rewrite <- (part_reap_other P m k now HP). destruct (reap k now m !! k) as [b|]; [|done].
    destruct (ms =? 0); simpl; [by apply part_delete_other|by apply part_insert_other].
Qed.

Lemma routed_expire now k raw : routed (Slot (redis_slot k)) (spec_expire_cmd now [k; raw]).
Proof.
  unfold routed, spec_expire_cmd. destruct (resp_parse_i64 raw) as [z|]; [|apply local_ret].
  destruct (z <=? 0)%Z; [apply local_delete|].
  destruct (checked_mul64 (Z.to_N z) 1000); [apply local_expire|apply local_ret].
Qed.

Lemma routed_set now args :
  routed (match args with [k; _] | [k; _; _; _] => Slot (redis_slot k) | _ => Unkeyed end) (spec_set_cmd now args).
Proof.
  destruct args as [|k [|v [|o [|t [|? ?]]]]]; try (by eexists); unfold routed, spec_set_cmd; [apply slot_local_put|].
  destruct (set_ttl o t); [apply slot_local_put|apply local_ret].
Qed.

Lemma routed_mset args :
  routed (match pairs args with Some ps => keys_slot ps.*1 | None => Unkeyed end) (spec_mset_cmd args).
Proof.
  unfold spec_mset_cmd. destruct (pairs args) as [[|p ps]|]; [by eexists| |by eexists].
  unfold keys_slot. rewrite fmap_cons. destruct (one_slot (p.1 :: ps.*1)) eqn:Ho; [|by eexists].
  apply slot_local_puts. rewrite fmap_cons. by apply one_slot_Forall.
Qed.

Lemma spec_command_routed now name args : routed (spec_slot name args) (spec_command now name args).
Proof.
  unfold spec_slot, spec_command.
  destruct (eq_ignore_ascii_case name (str "PING")) eqn:H0.
  { name_known H0. destruct args as [|? [|? ?]]; by eexists. }
  destruct (eq_ignore_ascii_case name (str "GET")) eqn:H1.
  { cbn [orb]. destruct args as [|k [|? ?]]; try (by eexists). apply (local_reap k now (λ o, ReplyValue (value_text ∘ bd_value <$> o))). }
  destruct (eq_ignore_ascii_case name (str "SET")) eqn:H2.
  { name_known H2. apply routed_set. }
  destruct (eq_ignore_ascii_case name (str "DEL")) eqn:H3.
  { name_known H3. apply routed_keys. intros k Hk. apply (local_map _ _ ReplyInteger). by apply local_spec_count. }
  destruct (eq_ignore_ascii_case name (str "EXISTS")) eqn:H4.
  { name_known H4. apply routed_keys. intros k Hk. apply (local_map _ _ ReplyInteger). by apply local_spec_count. }
  destruct (eq_ignore_ascii_case name (str "INCR")) eqn:H5.
  { cbn [orb]. destruct args as [|k [|? ?]]; [by eexists|apply routed_incr|by eexists]. }
  destruct (eq_ignore_ascii_case name (str "EXPIRE")) eqn:H6.
  { name_known H6. destruct args as [|k [|raw [|? ?]]]; try (by eexists). apply routed_expire. }
  destruct (eq_ignore_ascii_case name (str "TTL")) eqn:H7.
  { cbn [orb]. destruct args as [|k [|? ?]]; try (by eexists).
    apply (local_reap k now (λ o, ReplyInteger (ttl_seconds (spec_ttl now o)))). }
  destruct (eq_ignore_ascii_case name (str "MGET")) eqn:H8.
  { cbn [orb]. apply routed_keys. intros k Hk. apply (local_map _ _ ReplyValues). by apply local_spec_mget. }
  cbn [orb]. destruct (eq_ignore_ascii_case name (str "MSET")); [apply routed_mset|by eexists].
Qed.

(** A command on the part of the map that its shard holds. *)
Lemma routed_part slot f P m :
  routed slot f → (∀ s, slot = Slot s → P s = true) → f (part P m) = ((f m).1, part P (f m).2).
Proof.
  intros Hf HP. destruct slot as [|s|]; simpl in Hf.
  - destruct Hf as [r Hr]. by rewrite !Hr.
  - specialize (Hf P m). by rewrite (HP s eq_refl) in Hf.
  - destruct Hf as [r Hr]. by rewrite !Hr.
Qed.

Lemma routed_other slot f P m :
  routed slot f → (∀ s, slot = Slot s → P s = false) → part P (f m).2 = part P m.
Proof.
  intros Hf HP. destruct slot as [|s|]; simpl in Hf.
  - destruct Hf as [r Hr]. by rewrite Hr.
  - specialize (Hf P m). by rewrite (HP s eq_refl) in Hf.
  - destruct Hf as [r Hr]. by rewrite Hr.
Qed.

(** ** Sums over queues *)

Definition total {A} (f : A → N) (l : list A) : N := foldr (λ x c, f x + c) 0 l.

Lemma total_app {A} (f : A → N) l1 l2 : total f (l1 ++ l2) = total f l1 + total f l2.
Proof. induction l1 as [|x l1 IH]; simpl; [done|]. rewrite IH. lia. Qed.

Lemma total_insert {A} (f : A → N) l i x y :
  l !! i = Some x → total f (<[i := y]> l) + f x = total f l + f y.
Proof.
  revert i. induction l as [|z l IH]; intros [|i] Hi; simpl in *; simplify_eq; [lia|].
  specialize (IH i Hi). lia.
Qed.

(** ** The node *)

Section node.
Context (hash : bytes → N).
Context (local : N) (placement : CacheSlotMap) (mode : CacheRoutingMode) (endpoints : CacheEndpointMap).
Context (capacity shards : N).

#[local] Instance node_api : CacheApi CacheStore := store_api hash.
#[local] Instance node_laws : CacheLaws CacheStore := store_laws hash.

Record Node := mkNode { nd_net : CacheDispatchChannels; nd_stores : list CacheStore }.

Inductive action :=
| Ingress (shard now : N) (name : bytes) (args : list bytes)
| Serve (shard : N).

Inductive event :=
| EvReply (out : bytes)
| EvQueued (shard reply : N)
| EvRemote
| EvMoved (out : bytes)
| EvRefused (e : CacheDispatchError)
| EvIncomplete
| EvServed (reply : N) (r : option (result bytes RespParseError))
| EvIdle.

Definition dispatcher (shard : N) : CacheDispatcher := mkDispatcher local shard placement mode endpoints.

Definition outcome_event (r : result (option CacheDispatchOutcome) CacheDispatchError) (out : bytes) : event :=
  match r with
  | Ok (Some (Executed _)) => EvReply out
  | Ok (Some (LocalQueued _ s id)) => EvQueued s id
  | Ok (Some (Remote _ _)) => EvRemote
  | Ok (Some (Redirected _ _ _)) => EvMoved out
  | Ok None => EvIncomplete
  | Err e => EvRefused e
  end.

(** A command arrives at a shard, or a shard takes one request from its
    queue. *)
Definition node_step (act : action) (nd : Node) : option (event * Node) :=
  match act with
  | Ingress shard now name args =>
      input ← encode_command (name :: args);
      store ← nd_stores nd !! N.to_nat shard;
      '(r, net, out, store) ← dispatch_frame (dispatcher shard) (nd_net nd) store input now [];
      Some (outcome_event r out, mkNode net (<[N.to_nat shard := store]> (nd_stores nd)))
  | Serve shard =>
      store ← nd_stores nd !! N.to_nat shard;
      q ← nt_queues (nd_net nd) !! N.to_nat shard;
      '(worked, net, store) ← try_process_one (nd_net nd) shard store;
      let ev := match sq_items q with
                | [] => EvIdle
                | request :: _ =>
                    EvServed (rq_reply request) (nt_replies net !! N.to_nat (rq_reply request) ≫= rp_value)
                end in
      Some (if (worked : bool) then ev else EvIdle, mkNode net (<[N.to_nat shard := store]> (nd_stores nd)))
  end.

Fixpoint node_run (acts : list action) (nd : Node) : option (list event) :=
  match acts with
  | [] => Some []
  | act :: acts =>
      '(ev, nd) ← node_step act nd;
      evs ← node_run acts nd;
      Some (ev :: evs)
  end.

(** ** One map and the queues *)

Record pending := mkPending { pd_reply : N; pd_now : N; pd_name : bytes; pd_args : list bytes }.
Record AbsNode := mkAbs { ab_map : cache_map; ab_queues : list (list pending); ab_next : N }.

Definition abs_exec (now : N) (name : bytes) (args : list bytes) (a : AbsNode) : bytes * AbsNode :=
  let '(r, m) := spec_command now name args (ab_map a) in
  (reply_bytes r, mkAbs m (ab_queues a) (ab_next a)).

Definition abs_forward (shard now : N) (name : bytes) (args : list bytes) (a : AbsNode) : event * AbsNode :=
  match ab_queues a !! N.to_nat shard with
  | None => (EvRefused (DUnknownLocalShard shard), a)
  | Some q =>
      if capacity <=? len q then (EvRefused (DQueueFull shard), a)
      else (EvQueued shard (ab_next a),
            mkAbs (ab_map a) (<[N.to_nat shard := q ++ [mkPending (ab_next a) now name args]]> (ab_queues a))
              (ab_next a + 1))
  end.

Definition abs_step (act : action) (a : AbsNode) : event * AbsNode :=
  match act with
  | Ingress shard now name args =>
      let here := let '(out, a') := abs_exec now name args a in (EvReply out, a') in
      match spec_slot name args with
      | Unkeyed | CrossSlot => here
      | Slot s =>
          match CacheSlotMap_owner_for_slot placement s with
          | None => (EvRefused (DUnknownSlot s), a)
          | Some o =>
              if (ow_node_id o =? local) && (ow_shard o =? shard) then here
              else match mode with
                   | Redirect =>
                       match endpoints !! o with
                       | None => (EvRefused (DMissingEndpoint o), a)
                       | Some e => (EvMoved (str "-MOVED " ++ dec_of_N s ++ [32] ++ ep_target e ++ crlf), a)
                       end
                   | Transparent =>
                       if ow_node_id o =? local then abs_forward (ow_shard o) now name args a
                       else (EvRemote, a)
                   end
          end
      end
  | Serve shard =>
      match ab_queues a !! N.to_nat shard with
      | Some (p :: q) =>
          let '(out, a') := abs_exec (pd_now p) (pd_name p) (pd_args p) a in
          (EvServed (pd_reply p) (Some (Ok out)),
           mkAbs (ab_map a') (<[N.to_nat shard := q]> (ab_queues a)) (ab_next a))
      | _ => (EvIdle, a)
      end
  end.

Fixpoint abs_run (acts : list action) (a : AbsNode) : list event :=
  match acts with
  | [] => []
  | act :: acts => let '(ev, a') := abs_step act a in ev :: abs_run acts a'
  end.

(** ** Simulation *)

(** The slots a shard of this node owns. *)
Definition owned (shard s : N) : bool :=
  match CacheSlotMap_owner_for_slot placement s with
  | Some o => (ow_node_id o =? local) && (ow_shard o =? shard)
  | None => false
  end.

Definition cmd_fits (name : bytes) (args : list bytes) : Prop :=
  Forall arg_fits (name :: args) ∧ len (name :: args) < 2 ^ 63 ∧
  eq_ignore_ascii_case name (str "CLUSTER") = false.

Definition pending_cost (p : pending) : N := arg_cost (pd_args p).
Definition pending_ops (p : pending) : N := len (pd_args p) + 1.

(** The room every store still has to offer: for what is queued, and [c], [n]
    for what will come. *)
Definition room (f : pending → N) (c : N) (qs : list (list pending)) : N := total (total f) qs + c.

(** Every store holds the part of the map its shard owns. *)
Definition stores_hold (c n : N) (stores : list CacheStore) (m : cache_map) : Prop :=
  ∀ i store, stores !! i = Some store →
    map_ok (part (owned (N.of_nat i)) m) ∧ cache_rel c n store (part (owned (N.of_nat i)) m).

(** A request in the queue of [shard] and what it stands for. *)
Definition request_holds (shard : N) (net : CacheDispatchChannels) (rq : CacheShardRequest) (p : pending) : Prop :=
  encode_command (pd_name p :: pd_args p) = Some (rq_frame rq) ∧ rq_now_ms rq = pd_now p ∧
  rq_reply rq = pd_reply p ∧ cmd_fits (pd_name p) (pd_args p) ∧
  (∃ s, spec_slot (pd_name p) (pd_args p) = Slot s ∧ owned shard s = true) ∧
  (∃ sender, nt_replies net !! N.to_nat (pd_reply p) = Some (mkReplyCell None sender true)).

Definition queue_holds (net : CacheDispatchChannels) (i : nat) (q : ShardQueue) (ps : list pending) : Prop :=
  sq_open q = true ∧ Forall2 (request_holds (N.of_nat i) net) (sq_items q) ps.

Record node_inv (c n : N) (nd : Node) (a : AbsNode) : Prop := {
  ni_cap : nt_capacity (nd_net nd) = capacity;
  ni_stores : stores_hold (room pending_cost c (ab_queues a)) (room pending_ops n (ab_queues a))
                (nd_stores nd) (ab_map a);
  ni_len_stores : len (nd_stores nd) = shards;
  ni_len_queues : length (nt_queues (nd_net nd)) = length (ab_queues a);
  ni_len : len (ab_queues a) = shards;
  ni_queues : ∀ i q ps, nt_queues (nd_net nd) !! i = Some q → ab_queues a !! i = Some ps →
                queue_holds (nd_net nd) i q ps;
  ni_ids : NoDup (pd_reply <$> mjoin (ab_queues a));
  ni_next : ab_next a = len (nt_replies (nd_net nd));
}.

Lemma stores_hold_weaken c n c' n' stores m :
  stores_hold c n stores m → c' ≤ c → n' ≤ n → stores_hold c' n' stores m.
Proof.
  intros Hs Hc Hn i store Hi. destruct (Hs i store Hi) as [Hm Hrel]. split; [done|].
  by eapply law_weaken.
Qed.

(** A command executed by a shard that owns its slot. *)
Lemma exec_stores c n stores m i store cmd now args out :
  stores_hold (arg_cost args + c) (len args + 1 + n) stores m → stores !! i = Some store →
  command_holds cmd args → cmd_fits (rc_name cmd) args →
  (∀ s, spec_slot (rc_name cmd) args = Slot s → owned (N.of_nat i) s = true) →
  let r := spec_command now (rc_name cmd) args m in
  ∃ store', execute_command store cmd now out = Some (out ++ reply_bytes r.1, store') ∧
    stores_hold c n (<[i := store']> stores) r.2.
Proof.
  intros Hs Hi Hc (Hfit & Hlen & _) Hown r. destruct (Hs i store Hi) as [Hm Hrel].
  pose proof (spec_command_routed now (rc_name cmd) args) as Hrt.
  pose proof (routed_part _ _ (owned (N.of_nat i)) m Hrt Hown) as Hpart.
  destruct (execute_command_ok now out c n cmd args store (part (owned (N.of_nat i)) m)) as (Hm' & store' & Hex & Hrel').
  { split; [done|]. split_and!; [by apply Forall_cons in Hfit as [_ ?]|rewrite len_cons in Hlen; lia|done|done]. }
  rewrite Hpart in Hm', Hex, Hrel'. exists store'. split; [exact Hex|].
  intros j st Hj. destruct (decide (j = i)) as [->|Hne].
  - rewrite list_lookup_insert_eq in Hj by (by eapply lookup_lt_Some). injection Hj as <-. by split.
  - rewrite list_lookup_insert_ne in Hj by done. destruct (Hs j st Hj) as [Hmj Hrelj].
    unfold r. rewrite (routed_other _ _ (owned (N.of_nat j)) m Hrt).
    + split; [done|]. eapply law_weaken; [exact Hrelj|lia..].
    + intros s Hsl. specialize (Hown s Hsl). unfold owned in *.
      destruct (CacheSlotMap_owner_for_slot placement s) as [o|]; [|done].
      apply andb_true_iff in Hown as [_ Hsh%N.eqb_eq]. apply andb_false_iff. right. apply N.eqb_neq. lia.
Qed.

Lemma write_moved_spec out s target :
  s < U64 → write_moved out s target = Some (out ++ str "-MOVED " ++ dec_of_N s ++ [32] ++ target ++ crlf).
Proof.
  intros Hs. unfold write_moved. rewrite write_u64_decimal_spec by done. cbn [mbind option_bind].
  unfold crlf. by rewrite <- !app_assoc.
Qed.

(** ** Queues *)

Lemma mjoin_push {A} (qs : list (list A)) s q x :
  qs !! s = Some q → mjoin (<[s := q ++ [x]]> qs) ≡ₚ x :: mjoin qs.
Proof.
  revert s. induction qs as [|q0 qs IH]; intros [|s] Hs; simplify_eq/=.
  - solve_Permutation.
  - rewrite (IH s Hs). solve_Permutation.
Qed.

Lemma mjoin_pop {A} (qs : list (list A)) s x q :
  qs !! s = Some (x :: q) → mjoin qs ≡ₚ x :: mjoin (<[s := q]> qs).
Proof.
  revert s. induction qs as [|q0 qs IH]; intros [|s] Hs; simplify_eq/=; [done|].
  rewrite (IH s Hs). solve_Permutation.
Qed.

Lemma in_mjoin {A} (qs : list (list A)) s q (x : A) : qs !! s = Some q → x ∈ q → x ∈ mjoin qs.
Proof. intros Hs Hx. apply list_elem_of_join. exists q. split; [done|]. by eapply list_elem_of_lookup_2. Qed.

(** Replies already promised survive changes elsewhere. *)
Lemma request_holds_mono shard net net' rq p :
  (∀ sender, nt_replies net !! N.to_nat (pd_reply p) = Some (mkReplyCell None sender true) →
     nt_replies net' !! N.to_nat (pd_reply p) = Some (mkReplyCell None sender true)) →
  request_holds shard net rq p → request_holds shard net' rq p.
Proof.
  intros Hmono (? & ? & ? & ? & ? & sender & Hcell). split_and!; try done. exists sender. by apply Hmono.
Qed.

Lemma queue_holds_mono net net' i q ps :
  (∀ p sender, p ∈ ps → nt_replies net !! N.to_nat (pd_reply p) = Some (mkReplyCell None sender true) →
     nt_replies net' !! N.to_nat (pd_reply p) = Some (mkReplyCell None sender true)) →
  queue_holds net i q ps → queue_holds net' i q ps.
Proof.
  intros Hmono [Ho Hq]. split; [done|]. clear Ho.
  induction Hq as [|rq p rqs ps Hrq Hrest IH]; constructor.
  - eapply request_holds_mono; [|exact Hrq]. intros sender. apply Hmono. by left.
  - apply IH. intros p' sender Hp'. apply Hmono. by right.
Qed.

Lemma wake_replies net w : nt_replies (wake net w) = nt_replies net.
Proof. by destruct w. Qed.
Lemma wake_queues net w : nt_queues (wake net w) = nt_queues net.
Proof. by destruct w. Qed.
Lemma wake_capacity net w : nt_capacity (wake net w) = nt_capacity net.
Proof. by destruct w. Qed.

Lemma room_push f c qs s q p :
  qs !! s = Some q → room f c (<[s := q ++ [p]]> qs) = f p + room f c qs.
Proof.
  intros Hs. unfold room. pose proof (total_insert (total f) qs s q (q ++ [p]) Hs) as Ht.
  rewrite total_app in Ht. simpl in Ht. lia.
Qed.

Lemma room_pop f c qs s q p :
  qs !! s = Some (p :: q) → room f c qs = f p + room f c (<[s := q]> qs).
Proof.
  intros Hs. unfold room. pose proof (total_insert (total f) qs s (p :: q) q Hs) as Ht. simpl in Ht. lia.
Qed.

Lemma pending_known c n nd a p :
  node_inv c n nd a → p ∈ mjoin (ab_queues a) → pd_reply p < ab_next a.
Proof.
  intros Hinv Hp. apply list_elem_of_join in Hp as (ps & Hin & Hps).
  apply list_elem_of_lookup in Hps as [i Hi].
  destruct (lookup_lt_is_Some_2 (nt_queues (nd_net nd)) i) as [q Hq].
  { rewrite (ni_len_queues _ _ _ _ Hinv). by eapply lookup_lt_Some. }
  destruct (ni_queues _ _ _ _ Hinv i q ps Hq Hi) as [_ Hf].
  apply list_elem_of_lookup in Hin as [j Hj].
  destruct (Forall2_lookup_r _ _ _ _ _ Hf Hj) as (rq & _ & _ & _ & _ & _ & _ & sender & Hcell).
  apply lookup_lt_Some in Hcell. rewrite (ni_next _ _ _ _ Hinv). unfold len. lia.
Qed.

Lemma forward_ok c n nd a shard now name args frame wk s :
  node_inv (arg_cost args + c) (len args + 1 + n) nd a → cmd_fits name args →
  encode_command (name :: args) = Some frame → spec_slot name args = Slot s → owned shard s = true →
  let r := try_send (add_reply (nd_net nd)).2 shard (mkShardRequest frame now (add_reply (nd_net nd)).1 wk) in
  let a' := abs_forward shard now name args a in
  match r.1 with
  | Ok _ => a'.1 = EvQueued shard (add_reply (nd_net nd)).1 ∧ node_inv c n (mkNode r.2 (nd_stores nd)) a'.2
  | Err e => a'.1 = EvRefused e ∧ a'.2 = a
  end.
Proof.
  intros Hinv Hfit Henc Hslot Hown. unfold try_send, abs_forward. cbn [add_reply fst snd nt_queues nt_capacity].
  pose proof (ni_len_queues _ _ _ _ Hinv) as Hlq.
  destruct (nt_queues (nd_net nd) !! N.to_nat shard) as [q|] eqn:Hq; cycle 1.
  { rewrite (proj2 (lookup_ge_None (ab_queues a) _)) by (rewrite <- Hlq; by apply lookup_ge_None). done. }
  destruct (lookup_lt_is_Some_2 (ab_queues a) (N.to_nat shard)) as [ps Hps].
  { rewrite <- Hlq. by eapply lookup_lt_Some. }
  rewrite Hps. destruct (ni_queues _ _ _ _ Hinv _ _ _ Hq Hps) as [Hopen Hf]. rewrite Hopen. cbn [negb].
  rewrite (ni_cap _ _ _ _ Hinv).
  replace (len (sq_items q)) with (len ps) by (unfold len; by rewrite (Forall2_length _ _ _ Hf)).
  destruct (capacity <=? len ps); [done|]. cbn [fst snd]. rewrite (ni_next _ _ _ _ Hinv). split; [done|].
  assert (∀ (p : pending) sender, nt_replies (nd_net nd) !! N.to_nat (pd_reply p) = Some (mkReplyCell None sender true) →
    (nt_replies (nd_net nd) ++ [mkReplyCell None true true]) !! N.to_nat (pd_reply p) = Some (mkReplyCell None sender true)) as Hmono.
  { intros p sender Hp. rewrite lookup_app_l; [done|]. by eapply lookup_lt_Some. }
  split; cbn [nd_net nd_stores ab_map ab_queues ab_next]; rewrite ?wake_capacity, ?wake_replies, ?wake_queues;
    cbn [put_queue nt_capacity nt_queues nt_replies].
  - done.
  - rewrite !(room_push _ _ _ _ _ _ Hps). eapply stores_hold_weaken; [apply (ni_stores _ _ _ _ Hinv)|..];
      unfold room, pending_cost, pending_ops; cbn [pd_args]; lia.
  - apply Hinv.
  - by rewrite !length_insert.
  - unfold len. rewrite length_insert. apply Hinv.
  - intros i q' ps' Hq' Hps'. destruct (decide (i = N.to_nat shard)) as [->|Hne].
    + rewrite list_lookup_insert_eq in Hq' by (by eapply lookup_lt_Some).
      rewrite list_lookup_insert_eq in Hps' by (by eapply lookup_lt_Some). simplify_eq.
      split; [done|]. apply Forall2_app.
      * eapply (queue_holds_mono (nd_net nd) _ _ q ps); [|by split]. intros p sender _. rewrite wake_replies. apply Hmono.
      * constructor; [|constructor]. split_and!; try done.
        -- exists s. split; [done|]. by rewrite N2Nat.id.
        -- exists true. rewrite wake_replies. cbn [pd_reply put_queue nt_replies]. unfold len.
           rewrite Nat2N.id, lookup_app_r, Nat.sub_diag by lia. done.
    + rewrite list_lookup_insert_ne in Hq' by done. rewrite list_lookup_insert_ne in Hps' by done.
      eapply (queue_holds_mono (nd_net nd)); [|by eapply ni_queues]. intros p sender _. rewrite wake_replies. apply Hmono.
  - rewrite (mjoin_push _ _ _ _ Hps), fmap_cons. apply NoDup_cons. split; [|apply Hinv].
    intros (p & Hp & Hin)%list_elem_of_fmap. pose proof (pending_known _ _ _ _ p Hinv Hin) as Hlt.
    rewrite (ni_next _ _ _ _ Hinv) in Hlt. simpl in Hp. lia.
  - rewrite len_app. unfold len; simpl; lia.
Qed.

(** A command arrives at a shard. *)
Definition act_cost (act : action) : N := match act with Ingress _ _ _ args => arg_cost args | Serve _ => 0 end.
Definition act_ops (act : action) : N := match act with Ingress _ _ _ args => len args + 1 | Serve _ => 0 end.
Definition act_ok (act : action) : Prop :=
  match act with
  | Ingress shard _ name args => shard < shards ∧ cmd_fits name args
  | Serve shard => shard < shards
  end.

Definition step_ok (act : action) : Prop :=
  ∀ c n nd a, node_inv (act_cost act + c) (act_ops act + n) nd a → act_ok act →
    ∃ nd', node_step act nd = Some ((abs_step act a).1, nd') ∧ node_inv c n nd' (abs_step act a).2.

Lemma node_inv_weaken c n c' n' nd a : node_inv c n nd a → c' ≤ c → n' ≤ n → node_inv c' n' nd a.
Proof.
  intros Hinv Hc Hn. destruct Hinv. split; try done. eapply stores_hold_weaken; [done|unfold room; lia..].
Qed.

(** Executed where it arrived. *)
Lemma here_ok c n nd a i store cmd now args :
  node_inv (arg_cost args + c) (len args + 1 + n) nd a → nd_stores nd !! i = Some store →
  command_holds cmd args → cmd_fits (rc_name cmd) args →
  (∀ s, spec_slot (rc_name cmd) args = Slot s → owned (N.of_nat i) s = true) →
  let r := abs_exec now (rc_name cmd) args a in
  ∃ store', execute_command store cmd now [] = Some (r.1, store') ∧
    node_inv c n (mkNode (nd_net nd) (<[i := store']> (nd_stores nd))) r.2.
Proof.
  intros Hinv Hi Hc Hfit Hown. unfold abs_exec.
  destruct (exec_stores (room pending_cost c (ab_queues a)) (room pending_ops n (ab_queues a))
    (nd_stores nd) (ab_map a) i store cmd now args []) as (store' & Hex & Hs); try done.
  { eapply stores_hold_weaken; [apply (ni_stores _ _ _ _ Hinv)|unfold room; lia..]. }
  destruct (spec_command now (rc_name cmd) args (ab_map a)) as [r m]. cbn [fst snd] in *.
  exists store'. split; [exact Hex|]. destruct Hinv. split; cbn [nd_net nd_stores ab_map ab_queues ab_next]; try done.
  unfold len. by rewrite length_insert.
Qed.

Context (Hplacement : placement_ok placement).

Lemma node_inv_same_stores c n nd a i store :
  nd_stores nd !! i = Some store → node_inv c n nd a →
  node_inv c n (mkNode (nd_net nd) (<[i := store]> (nd_stores nd))) a.
Proof. intros Hi Hinv. rewrite list_insert_id by done. by destruct nd. Qed.

Lemma dispatch_to_ok c n nd a shard store now name args frame cmd s o :
  node_inv (arg_cost args + c) (len args + 1 + n) nd a → nd_stores nd !! N.to_nat shard = Some store →
  cmd_fits name args → encode_command (name :: args) = Some frame → rc_name cmd = name →
  command_holds cmd args → spec_slot name args = Slot s → CacheSlotMap_owner_for_slot placement s = Some o →
  ∃ r net out store',
    dispatch_to (dispatcher shard) (nd_net nd) store frame cmd (len frame) s o now [] = Some (r, net, out, store') ∧
    outcome_event r out = (abs_step (Ingress shard now name args) a).1 ∧
    node_inv c n (mkNode net (<[N.to_nat shard := store']> (nd_stores nd)))
      (abs_step (Ingress shard now name args) a).2.
Proof.
  intros Hinv Hst Hfit Henc Hname Hc Hslot Hown. cbn [abs_step]. rewrite Hslot, Hown. unfold dispatch_to.
  cbn [cd_local_node_id cd_local_shard cd_routing_mode cd_endpoints dispatcher].
  assert (node_inv c n nd a) as Hinv0 by (eapply node_inv_weaken; [exact Hinv|lia..]).
  pose proof (node_inv_same_stores _ _ _ _ _ _ Hst Hinv0) as Hsame.
  destruct (N.eqb_spec (ow_node_id o) local) as [Hnode|Hnode]; cycle 1.
  { cbn [andb negb]. destruct mode; cbn [andb]; [by eexists _, _, _, _|].
    unfold CacheEndpointMap_get. destruct (endpoints !! o) as [e|]; [|by eexists _, _, _, _].
    assert (s < U64) as Hs.
    { apply lookup_lt_Some in Hown. unfold placement_ok, len in Hplacement. apply (N.lt_trans _ REDIS_CLUSTER_SLOTS); [lia|done]. }
    rewrite write_moved_spec by done. cbn [mbind option_bind]. by eexists _, _, _, _. }
  destruct (N.eqb_spec (ow_shard o) shard) as [Hsh|Hsh]; cbn [andb negb].
  - destruct (here_ok c n nd a (N.to_nat shard) store cmd now args Hinv Hst Hc) as (store' & Hex & Hinv'); [by rewrite Hname| |].
    { rewrite Hname, N2Nat.id. intros s' Hs'. rewrite Hslot in Hs'. injection Hs' as <-.
      unfold owned. rewrite Hown, Hnode, Hsh. by rewrite !N.eqb_refl. }
    rewrite Hname in *. rewrite Hex. cbn [mbind option_bind].
    destruct (abs_exec now name args a) as [out a']. by eexists _, _, _, _.
  - destruct mode; cbn [andb]; cycle 1.
    { unfold CacheEndpointMap_get. destruct (endpoints !! o) as [e|]; [|by eexists _, _, _, _].
      assert (s < U64) as Hs.
      { apply lookup_lt_Some in Hown. unfold placement_ok, len in Hplacement. apply (N.lt_trans _ REDIS_CLUSTER_SLOTS); [lia|done]. }
      rewrite write_moved_spec by done. cbn [mbind option_bind]. by eexists _, _, _, _. }
    replace (take (N.to_nat (len frame)) frame) with frame by (rewrite take_ge; [done|unfold len; lia]).
    pose proof (forward_ok c n nd a (ow_shard o) now name args frame (waker_for (nd_net nd) shard) s Hinv Hfit Henc Hslot) as Hf.
    destruct (add_reply (nd_net nd)) as [reply net1]. cbn [fst snd] in Hf.
    destruct (try_send net1 (ow_shard o) _) as [[u|e] net2]; cbn [fst snd] in Hf.
    + destruct Hf as [Hev Hinv']; [unfold owned; rewrite Hown, Hnode; by rewrite !N.eqb_refl|].
      eexists _, _, _, _. split; [done|]. split; [by rewrite Hev|]. cbn [outcome_event].
      rewrite list_insert_id by done. exact Hinv'.
    + destruct Hf as [Hev Ha]; [unfold owned; rewrite Hown, Hnode; by rewrite !N.eqb_refl|].
      eexists _, _, _, _. split; [done|]. split; [by rewrite Hev|]. by rewrite Ha.
Qed.

Lemma ingress_ok shard now name args : step_ok (Ingress shard now name args).
Proof.
  intros c n nd a Hinv [Hsh Hfit]. pose proof Hfit as (Hargs & Hlen & Hcl). cbn [act_cost act_ops] in Hinv.
  destruct (encode_command_parse name args Hargs Hlen) as (frame & cmd & Henc & Hparse & Hname & Hc).
  destruct (lookup_lt_is_Some_2 (nd_stores nd) (N.to_nat shard)) as [store Hst].
  { pose proof (ni_len_stores _ _ _ _ Hinv). unfold len in *. lia. }
  cbn [node_step]. rewrite Henc, Hst. cbn [mbind option_bind]. unfold dispatch_frame.
  specialize (Hparse []). rewrite app_nil_r in Hparse. rewrite Hparse.
  unfold execute_cluster_command. rewrite Hname, Hcl. cbn [negb mbind option_bind].
  rewrite (command_slot_ok _ _ Hc), Hname. cbn [mbind option_bind].
  assert (∀ x, spec_slot name args = x → (∀ s, x ≠ Slot s) →
    ∃ nd', ('(r, net, out, store) ← ('(out, store) ← execute_command store cmd now [];
             Some (Ok (Some (Executed (len frame))), nd_net nd, out, store));
            Some (outcome_event r out, mkNode net (<[N.to_nat shard := store]> (nd_stores nd)))) =
           Some (EvReply (abs_exec now name args a).1, nd') ∧ node_inv c n nd' (abs_exec now name args a).2) as Hhere.
  { intros x Hx Hns. destruct (here_ok c n nd a (N.to_nat shard) store cmd now args Hinv Hst Hc) as (store' & Hex & Hinv').
    - by rewrite Hname.
    - rewrite Hname, Hx. intros s Hs. by destruct (Hns s).
    - rewrite Hname in *. rewrite Hex. cbn [mbind option_bind outcome_event]. by eexists. }
  destruct (spec_slot name args) as [|s|] eqn:Hslot.
  - destruct (Hhere _ eq_refl) as (nd' & Hst' & Hinv'); [done|]. exists nd'. cbn [abs_step]. rewrite Hslot.
    destruct (abs_exec now name args a). by split.
  - cbn [cd_placement dispatcher]. destruct (CacheSlotMap_owner_for_slot placement s) as [o|] eqn:Hown.
    + destruct (dispatch_to_ok c n nd a shard store now name args frame cmd s o) as (r & net & out & store' & Hd & Hev & Hinv');
        try done. rewrite Hd. cbn [mbind option_bind]. rewrite Hev. by eexists.
    + cbn [abs_step mbind option_bind outcome_event]. rewrite Hslot, Hown. eexists. split; [done|].
      apply node_inv_same_stores; [done|]. eapply node_inv_weaken; [exact Hinv|lia..].
  - destruct (Hhere _ eq_refl) as (nd' & Hst' & Hinv'); [done|]. exists nd'. cbn [abs_step]. rewrite Hslot.
    destruct (abs_exec now name args a). by split.
Qed.

Lemma send_reply_ok net rq sender r :
  nt_replies net !! N.to_nat (rq_reply rq) = Some (mkReplyCell None sender true) →
  ∃ net', send_reply net rq r = Some net' ∧ nt_queues net' = nt_queues net ∧ nt_capacity net' = nt_capacity net ∧
    nt_replies net' = <[N.to_nat (rq_reply rq) := mkReplyCell (Some r) false true]> (nt_replies net).
Proof.
  intros Hcell. unfold send_reply. rewrite Hcell. cbn [mbind option_bind rp_receiver].
  eexists. split; [done|]. by rewrite wake_queues, wake_capacity, wake_replies.
Qed.

Lemma process_request_ok c n nd a i store rq p :
  stores_hold (arg_cost (pd_args p) + c) (len (pd_args p) + 1 + n) (nd_stores nd) (ab_map a) →
  nd_stores nd !! i = Some store → request_holds (N.of_nat i) (nd_net nd) rq p →
  let r := abs_exec (pd_now p) (pd_name p) (pd_args p) a in
  ∃ store', process_request store rq = Some (Ok r.1, store') ∧
    stores_hold c n (<[i := store']> (nd_stores nd)) (ab_map r.2).
Proof.
  intros Hs Hi (Henc & Hnow & _ & Hfit & (s & Hslot & Hown) & _). pose proof Hfit as (Hargs & Hlen & _).
  destruct (encode_command_parse _ _ Hargs Hlen) as (frame & cmd & Henc' & Hparse & Hname & Hc).
  rewrite Henc in Henc'. injection Henc' as <-. specialize (Hparse []). rewrite app_nil_r in Hparse.
  destruct (exec_stores c n (nd_stores nd) (ab_map a) i store cmd (pd_now p) (pd_args p) []) as (store' & Hex & Hs');
    try done; [by rewrite Hname| |].
  { rewrite Hname, Hslot. intros s' Hs'. by injection Hs' as <-. }
  rewrite Hname in *. unfold process_request, execute_frame, abs_exec. rewrite Hparse, Hnow, Hex.
  cbn [mbind option_bind]. rewrite N.eqb_refl.
  destruct (spec_command (pd_now p) (pd_name p) (pd_args p) (ab_map a)) as [r m]. by exists store'.
Qed.

Lemma serve_ok shard : step_ok (Serve shard).
Proof.
  intros c n nd a Hinv Hsh. cbn [act_cost act_ops act_ok] in *. rewrite !N.add_0_l in Hinv.
  destruct (lookup_lt_is_Some_2 (nd_stores nd) (N.to_nat shard)) as [store Hst].
  { pose proof (ni_len_stores _ _ _ _ Hinv). unfold len in *. lia. }
  destruct (lookup_lt_is_Some_2 (ab_queues a) (N.to_nat shard)) as [ps Hps].
  { pose proof (ni_len _ _ _ _ Hinv). unfold len in *. lia. }
  destruct (lookup_lt_is_Some_2 (nt_queues (nd_net nd)) (N.to_nat shard)) as [q Hq].
  { rewrite (ni_len_queues _ _ _ _ Hinv). by eapply lookup_lt_Some. }
  cbn [node_step abs_step]. rewrite Hst, Hq, Hps. cbn [mbind option_bind]. unfold try_process_one. rewrite Hq.
  cbn [mbind option_bind]. destruct (ni_queues _ _ _ _ Hinv _ _ _ Hq Hps) as [Hopen Hf].
  inversion Hf as [Hnil|rq p rqs ps' Hrq Hrest Hitems]; subst ps.
  { eexists. split; [done|]. by apply node_inv_same_stores. }
  set (qs' := <[N.to_nat shard := ps']> (ab_queues a)).
  destruct (process_request_ok (room pending_cost c qs') (room pending_ops n qs') nd a (N.to_nat shard) store rq p)
    as (store' & Hproc & Hs'); [|done|done|].
  { eapply stores_hold_weaken; [apply (ni_stores _ _ _ _ Hinv)|..];
      rewrite (room_pop _ _ _ _ _ _ Hps); unfold pending_cost, pending_ops, qs'; lia. }
  pose proof Hrq as (_ & _ & Hid & _ & _ & sender & Hcell). rewrite Hproc. cbn [mbind option_bind].
  destruct (send_reply_ok (put_queue (nd_net nd) shard (mkShardQueue rqs (sq_open q))) rq sender
    (Ok (abs_exec (pd_now p) (pd_name p) (pd_args p) a).1)) as (net' & Hsend & Hqs & Hcap & Hreplies).
  { by rewrite Hid. }
  rewrite Hsend. cbn [mbind option_bind]. rewrite Hreplies, Hid. cbn [put_queue nt_replies] in *.
  rewrite list_lookup_insert_eq by (by eapply lookup_lt_Some). cbn [mbind option_bind rp_value].
  assert (NoDup (pd_reply p :: (pd_reply <$> mjoin qs'))) as [Hfresh Hnd]%NoDup_cons.
  { pose proof (ni_ids _ _ _ _ Hinv) as Hids. by rewrite (mjoin_pop _ _ _ _ Hps), fmap_cons in Hids. }
  assert (∀ p' sender, pd_reply p' ∈ (pd_reply <$> mjoin qs') →
    nt_replies (nd_net nd) !! N.to_nat (pd_reply p') = Some (mkReplyCell None sender true) →
    nt_replies net' !! N.to_nat (pd_reply p') = Some (mkReplyCell None sender true)) as Hmono.
  { intros p' sd Hp' Hc'. rewrite Hreplies, Hid, list_lookup_insert_ne; [done|]. intros Heq.
    apply Hfresh. apply N2Nat.inj in Heq. by rewrite Heq. }
  destruct (abs_exec (pd_now p) (pd_name p) (pd_args p) a) as [out a'] eqn:Habs. cbn [fst snd] in *.
  eexists. split; [done|]. split; cbn [nd_net nd_stores ab_map ab_queues ab_next]; fold qs'.
  - rewrite Hcap. apply Hinv.
  - exact Hs'.
  - unfold len. rewrite length_insert. apply Hinv.
  - rewrite Hqs. unfold qs'. cbn [put_queue nt_queues]. rewrite !length_insert. apply Hinv.
  - unfold qs', len. rewrite length_insert. apply Hinv.
  - rewrite Hqs. cbn [put_queue nt_queues]. intros i q1 ps1 Hq1 Hps1.
    assert (∀ p', p' ∈ ps1 → pd_reply p' ∈ (pd_reply <$> mjoin qs')) as Hin.
    { intros p' Hp'. apply list_elem_of_fmap. exists p'. split; [done|]. by eapply in_mjoin. }
    apply (queue_holds_mono (nd_net nd)); [intros p' sd Hp'; by apply Hmono, Hin|].
    unfold qs' in Hps1. destruct (decide (i = N.to_nat shard)) as [->|Hne].
    + rewrite list_lookup_insert_eq in Hq1 by (by eapply lookup_lt_Some).
      rewrite list_lookup_insert_eq in Hps1 by (by eapply lookup_lt_Some). simplify_eq. by split.
    + rewrite list_lookup_insert_ne in Hq1 by done. rewrite list_lookup_insert_ne in Hps1 by done.
      by eapply ni_queues.
  - exact Hnd.
  - rewrite Hreplies. unfold len. rewrite length_insert. apply Hinv.
Qed.

Lemma node_run_refines acts c n nd a :
  Forall act_ok acts → node_inv (total act_cost acts + c) (total act_ops acts + n) nd a →
  node_run acts nd = Some (abs_run acts a).
Proof.
  intros Hok. revert nd a. induction Hok as [|act acts Hact _ IH]; intros nd a Hinv; [done|].
  cbn [node_run abs_run total foldr] in *. rewrite <- !N.add_assoc in Hinv.
  assert (step_ok act) as Hstep by (destruct act; [apply ingress_ok|apply serve_ok]).
  destruct (Hstep _ _ _ _ Hinv Hact) as (nd' & -> & Hinv'). cbn [mbind option_bind].
  destruct (abs_step act a) as [ev a']. cbn [fst snd] in *. by rewrite (IH nd' a' Hinv').
Qed.

(** The node as it starts. *)
Definition node_start (net : CacheDispatchChannels) : Node := mkNode net (replicate (N.to_nat shards) CacheStore_new).
Definition abs_start : AbsNode := mkAbs ∅ (replicate (N.to_nat shards) []) 0.

Lemma lookup_mjoin_replicate {A} k : mjoin (replicate k (@nil A)) = [].
Proof. induction k; [done|]. simpl. done. Qed.

Lemma start_inv c n net :
  CacheDispatchChannels_new shards capacity = Ok net → c < U32 → n ≤ TOMBSTONE_SLOT →
  node_inv c n (node_start net) abs_start.
Proof.
  unfold CacheDispatchChannels_new. destruct (shards =? 0); [done|]. destruct (capacity =? 0); [done|].
  intros [= <-] Hc Hn.
  assert (∀ f k, room f k (replicate (N.to_nat shards) []) = k) as Hroom.
  { intros f k. unfold room. induction (N.to_nat shards); [done|]. simpl. done. }
  split; cbn [node_start nd_net nd_stores nt_capacity nt_queues nt_replies abs_start ab_map ab_queues ab_next];
    try done.
  - rewrite !Hroom. intros i store [-> _]%lookup_replicate_1. split; [done|].
    exists ∅. split_and!; [apply new_store_ok|done|done|done].
  - unfold len. rewrite length_replicate. lia.
  - by rewrite !length_replicate.
  - unfold len. rewrite length_replicate. lia.
  - intros i q ps [-> _]%lookup_replicate_1 [-> _]%lookup_replicate_1. by split.
  - rewrite lookup_mjoin_replicate. constructor.
Qed.

End node.

(** [C3] The shards of a node are one cache.  Commands arrive at any shard, in any
    order, and the shards take requests from their bounded queues whenever they
    please: every reply, given at once or later through the reply channel, is the
    reply of one map with deadlines to that command at the moment it is executed;
    commands forwarded to the same shard are executed in the order in which they
    were queued and answered on their own channel; a full queue refuses a command
    without executing it; redirects and remote commands change nothing; and no
    step panics.  This holds for any assignment of slots to shards and for both
    routing modes. *)
Theorem node_is_one_cache hash local placement mode endpoints capacity shards acts net :
  placement_ok placement → CacheDispatchChannels_new shards capacity = Ok net →
  Forall (act_ok shards) acts → total act_cost acts < U32 → total act_ops acts ≤ TOMBSTONE_SLOT →
  node_run hash local placement mode endpoints acts (node_start shards net) =
    Some (abs_run local placement mode endpoints capacity acts (abs_start shards)).
Proof.
  intros Hp Hnet Hok Hc Hn.
  apply (node_run_refines hash local placement mode endpoints capacity shards Hp acts 0 0); [done|].
  rewrite !N.add_0_r. by apply start_inv.
Qed.

(** Two shards; the keys [a] and [b] belong to the second and to the first. *)
Definition sample_placement : CacheSlotMap :=
  match CacheSlotMap_new_local 1 2 with Ok m => m | Err _ => mkSlotMap 0 [] end.

Definition sample_acts : list action :=
  [ Ingress 0 0 (str "SET") [str "a"; str "1"]; Ingress 0 1 (str "INCR") [str "a"];
    Ingress 0 2 (str "GET") [str "a"]; Ingress 0 3 (str "GET") [str "b"]; Serve 1; Serve 1; Serve 1;
    Ingress 1 4 (str "GET") [str "a"] ].

Lemma node_is_one_cache_witness :
  ∃ net, CacheDispatchChannels_new 2 2 = Ok net ∧
    node_run sample_hash 1 sample_placement Transparent ∅ sample_acts (node_start 2 net) =
    Some [ EvQueued 1 0; EvQueued 1 1; EvRefused (DQueueFull 1); EvReply (str "$-1" ++ crlf);
           EvServed 0 (Some (Ok (str "+OK" ++ crlf))); EvServed 1 (Some (Ok (str ":2" ++ crlf))); EvIdle;
           EvReply (str "$1" ++ crlf ++ str "2" ++ crlf) ].
Proof.
  eexists. split; [done|].
  rewrite (node_is_one_cache sample_hash 1 sample_placement Transparent ∅ 2 2 sample_acts _).
  - by vm_compute.
  - by apply (new_local_ok 1 2).
  - done.
  - repeat (apply Forall_cons; split;
      [try (split; [done|split_and!; [repeat (apply Forall_cons; split; [done|]); apply Forall_nil_2|done|done]]); done|]).
    apply Forall_nil_2.
  - by vm_compute.
  - by vm_compute.
Defined.
