(* ===== verification/Tablet.v ===== *)
(** * Range tablets with versioned values

    [src/database/tablet.rs]: key ranges, ownership descriptors and their
    splits, prepared writes, and the in-memory tablet that keeps every committed
    version of a key.  A [BTreeMap] with byte-string keys is a [gmap]; where the
    source walks it, in key order.  The specification of a tablet is the list of
    the batches committed to it: [after] is the map they leave behind. *)
From Stdlib Require Import String.
From S2P Require Import Prelude Bytes Text.

Local Open Scope list_scope.
Local Open Scope N_scope.

(** ** Errors *)

Abbreviation TabletId := N.

Inductive TabletError :=
| InvalidTabletId
| InvalidKeyRange
| InvalidOwnershipEpoch
| SplitKeyOutsideInterior
| WrongTablet (expected presented : TabletId)
| DuplicateChildTablet
| EpochNotAdvanced (current proposed : N)
| StaleEpoch (current presented : N)
| UnknownEpoch (current presented : N)
| SequenceMismatch (committed expected_previous : N)
| SequenceOverflow
| RecoveredSequenceMismatch (expected presented : N)
| SnapshotAhead (committed requested : N)
| InvalidSnapshotHistory
| KeyOutsideTabletRange.

(** [impl Display for TabletError] *)
Definition TabletError_to_string (self : TabletError) : bytes :=
  match self with
  | InvalidTabletId => str "tablet id must be non-zero"
  | InvalidKeyRange => str "tablet key range must have start < end"
  | InvalidOwnershipEpoch => str "tablet ownership epoch must be non-zero"
  | SplitKeyOutsideInterior => str "tablet split key must be strictly inside the source range"
  | WrongTablet expected presented =>
      str "tablet write targets tablet " ++ dec_of_N presented ++ str "; expected " ++ dec_of_N expected
  | DuplicateChildTablet => str "tablet split children must have distinct ids"
  | EpochNotAdvanced current proposed =>
      str "tablet split epoch " ++ dec_of_N proposed ++ str " must be newer than current epoch " ++ dec_of_N current
  | StaleEpoch current presented =>
      str "stale tablet ownership epoch " ++ dec_of_N presented ++ str "; current epoch is " ++ dec_of_N current
  | UnknownEpoch current presented =>
      str "unrecognized future tablet ownership epoch " ++ dec_of_N presented
        ++ str "; current epoch is " ++ dec_of_N current
  | SequenceMismatch committed expected_previous =>
      str "tablet predecessor " ++ dec_of_N expected_previous
        ++ str " does not match committed sequence " ++ dec_of_N committed
  | SequenceOverflow => str "tablet sequence overflow"
  | RecoveredSequenceMismatch expected presented =>
      str "recovered tablet sequence " ++ dec_of_N presented
        ++ str " does not match expected sequence " ++ dec_of_N expected
  | SnapshotAhead committed requested =>
      str "snapshot " ++ dec_of_N requested ++ str " is ahead of committed tablet sequence " ++ dec_of_N committed
  | InvalidSnapshotHistory => str "tablet snapshot contains invalid MVCC version history"
  | KeyOutsideTabletRange => str "tablet mutation key falls outside the owned key range"
  end.

(** ** Identifiers, ranges and descriptors *)

Definition TabletId_new (value : N) : result TabletId TabletError :=
  if value =? 0 then Err InvalidTabletId else Ok value.

Record KeyRange := mkKeyRange { kr_start : bytes; kr_end : option bytes }.

Definition KeyRange_new (start : bytes) (stop : option bytes) : result KeyRange TabletError :=
  match stop with
  | Some end_key => if bytes_leb end_key start then Err InvalidKeyRange else Ok (mkKeyRange start stop)
  | None => Ok (mkKeyRange start stop)
  end.

Definition KeyRange_contains (self : KeyRange) (key : bytes) : bool :=
  bytes_leb (kr_start self) key && match kr_end self with Some stop => bytes_ltb key stop | None => true end.

Definition KeyRange_contains_interior_split (self : KeyRange) (key : bytes) : bool :=
  bytes_ltb (kr_start self) key && match kr_end self with Some stop => bytes_ltb key stop | None => true end.

Definition KeyRange_split_at (self : KeyRange) (split_key : bytes) : result (KeyRange * KeyRange) TabletError :=
  if negb (KeyRange_contains_interior_split self split_key) then Err SplitKeyOutsideInterior else
  let? lhs := KeyRange_new (kr_start self) (Some split_key) in
  let? rhs := KeyRange_new split_key (kr_end self) in
  Ok (lhs, rhs).

Record TabletDescriptor := mkDescriptor { td_id : TabletId; td_range : KeyRange; td_ownership_epoch : N }.

Definition TabletDescriptor_new (id : TabletId) (range : KeyRange) (ownership_epoch : N)
    : result TabletDescriptor TabletError :=
  if ownership_epoch =? 0 then Err InvalidOwnershipEpoch else Ok (mkDescriptor id range ownership_epoch).

Record TabletSplitPlan := mkSplitPlan {
  sp_source : TabletDescriptor; sp_split_key : bytes; sp_left : TabletDescriptor; sp_right : TabletDescriptor }.

Definition TabletDescriptor_plan_split (self : TabletDescriptor) (split_key : bytes) (left_id right_id : TabletId)
    (child_epoch : N) : result TabletSplitPlan TabletError :=
  if left_id =? right_id then Err DuplicateChildTablet else
  if child_epoch <=? td_ownership_epoch self
  then Err (EpochNotAdvanced (td_ownership_epoch self) child_epoch) else
  let? (left_range, right_range) := KeyRange_split_at (td_range self) split_key in
  let? lhs := TabletDescriptor_new left_id left_range child_epoch in
  let? rhs := TabletDescriptor_new right_id right_range child_epoch in
  Ok (mkSplitPlan self split_key lhs rhs).

(** ** Writes *)

Inductive TabletMutation :=
| Put (key value : bytes)
| Delete (key : bytes).

Definition TabletMutation_key (self : TabletMutation) : bytes :=
  match self with Put key _ | Delete key => key end.

Record TabletWrite := mkTabletWrite {
  tw_tablet_id : TabletId;
  tw_ownership_epoch : N;
  tw_sequence : N;
  tw_expected_previous_sequence : N;
  tw_mutations : list TabletMutation;
}.

(** [mutations.iter().any(|m| !range.contains(m.key()))] *)
Definition any_outside (range : KeyRange) (mutations : list TabletMutation) : bool :=
  existsb (λ mutation, negb (KeyRange_contains range (TabletMutation_key mutation))) mutations.

Definition TabletWrite_prepare (descriptor : TabletDescriptor)
    (presented_epoch expected_previous_sequence committed_sequence : N) (mutations : list TabletMutation)
    : result TabletWrite TabletError :=
  if presented_epoch <? td_ownership_epoch descriptor
  then Err (StaleEpoch (td_ownership_epoch descriptor) presented_epoch) else
  if td_ownership_epoch descriptor <? presented_epoch
  then Err (UnknownEpoch (td_ownership_epoch descriptor) presented_epoch) else
  if negb (expected_previous_sequence =? committed_sequence)
  then Err (SequenceMismatch committed_sequence expected_previous_sequence) else
  if any_outside (td_range descriptor) mutations then Err KeyOutsideTabletRange else
  let? sequence := ok_or (checked_add64 expected_previous_sequence 1) SequenceOverflow in
  Ok (mkTabletWrite (td_id descriptor) (td_ownership_epoch descriptor) sequence
        expected_previous_sequence mutations).

(** ** The tablet *)

Record VersionedValue := mkVersion { vv_sequence : N; vv_value : option bytes }.

Abbreviation rows_map := (gmap bytes (list VersionedValue)).

Record TabletSnapshotRow := mkSnapshotRow { sr_key : bytes; sr_versions : list VersionedValue }.
Record TabletSnapshotState := mkSnapshotState {
  ss_current_sequence : N; ss_rows : list TabletSnapshotRow }.

Record MemoryTablet := mkTablet {
  mt_descriptor : TabletDescriptor;
  mt_current_sequence : N;
  mt_rows : rows_map;
}.

Definition MemoryTablet_new (descriptor : TabletDescriptor) : MemoryTablet := mkTablet descriptor 0 ∅.

(** The rows in key order. *)
Definition row_le (a b : bytes * list VersionedValue) : Prop := bytes_leb a.1 b.1 = true.
#[global] Instance row_le_dec : RelDecision row_le.
Proof. intros a b. unfold row_le. apply _. Defined.

Definition MemoryTablet_snapshot_state (self : MemoryTablet) : TabletSnapshotState :=
  mkSnapshotState (mt_current_sequence self)
    ((λ '(key, versions), mkSnapshotRow key versions) <$> merge_sort row_le (map_to_list (mt_rows self))).

(** The check of one row: versions strictly increase within the sequence. *)
Fixpoint history_ok (current previous : N) (versions : list VersionedValue) : bool :=
  match versions with
  | [] => true
  | v :: versions =>
      if (vv_sequence v =? 0) || (current <? vv_sequence v) || (vv_sequence v <=? previous)
      then false else history_ok current (vv_sequence v) versions
  end.

Fixpoint restore_rows (range : KeyRange) (current : N) (snapshot : list TabletSnapshotRow) (rows : rows_map)
    : result rows_map TabletError :=
  match snapshot with
  | [] => Ok rows
  | row :: snapshot =>
      if negb (KeyRange_contains range (sr_key row)) then Err KeyOutsideTabletRange else
      if negb (history_ok current 0 (sr_versions row)) then Err InvalidSnapshotHistory else
      match rows !! sr_key row with
      | Some _ => Err InvalidSnapshotHistory
      | None => restore_rows range current snapshot (<[sr_key row := sr_versions row]> rows)
      end
  end.

Definition MemoryTablet_restore_snapshot (descriptor : TabletDescriptor) (state : TabletSnapshotState)
    : result MemoryTablet TabletError :=
  let? rows := restore_rows (td_range descriptor) (ss_current_sequence state) (ss_rows state) ∅ in
  Ok (mkTablet descriptor (ss_current_sequence state) rows).

Definition MemoryTablet_prepare_write (self : MemoryTablet) (presented_epoch expected_previous_sequence : N)
    (mutations : list TabletMutation) : result TabletWrite TabletError :=
  TabletWrite_prepare (mt_descriptor self) presented_epoch expected_previous_sequence
    (mt_current_sequence self) mutations.

Definition MemoryTablet_validate_write (self : MemoryTablet) (write : TabletWrite) : result unit TabletError :=
  let descriptor := mt_descriptor self in
  if negb (tw_tablet_id write =? td_id descriptor)
  then Err (WrongTablet (td_id descriptor) (tw_tablet_id write)) else
  if tw_ownership_epoch write <? td_ownership_epoch descriptor
  then Err (StaleEpoch (td_ownership_epoch descriptor) (tw_ownership_epoch write)) else
  if td_ownership_epoch descriptor <? tw_ownership_epoch write
  then Err (UnknownEpoch (td_ownership_epoch descriptor) (tw_ownership_epoch write)) else
  if negb (tw_expected_previous_sequence write =? mt_current_sequence self)
  then Err (SequenceMismatch (mt_current_sequence self) (tw_expected_previous_sequence write)) else
  if any_outside (td_range descriptor) (tw_mutations write) then Err KeyOutsideTabletRange else
  let? next_sequence := ok_or (checked_add64 (mt_current_sequence self) 1) SequenceOverflow in
  if negb (tw_sequence write =? next_sequence)
  then Err (SequenceMismatch (mt_current_sequence self) (tw_expected_previous_sequence write)) else
  Ok tt.

(** [rows.entry(key).or_default().push(version)] *)
Definition apply_mutation (sequence : N) (rows : rows_map) (mutation : TabletMutation) : rows_map :=
  match mutation with
  | Put key value => <[key := default [] (rows !! key) ++ [mkVersion sequence (Some value)]]> rows
  | Delete key => <[key := default [] (rows !! key) ++ [mkVersion sequence None]]> rows
  end.

Definition MemoryTablet_apply_mutations (self : MemoryTablet) (sequence : N) (mutations : list TabletMutation)
    : MemoryTablet :=
  mkTablet (mt_descriptor self) sequence (foldl (apply_mutation sequence) (mt_rows self) mutations).

Definition MemoryTablet_publish_validated (self : MemoryTablet) (write : TabletWrite) : N * MemoryTablet :=
  (tw_sequence write, MemoryTablet_apply_mutations self (tw_sequence write) (tw_mutations write)).

Definition MemoryTablet_commit (self : MemoryTablet) (write : TabletWrite) : result N TabletError * MemoryTablet :=
  match MemoryTablet_validate_write self write with
  | Err e => (Err e, self)
  | Ok _ => let '(sequence, self) := MemoryTablet_publish_validated self write in (Ok sequence, self)
  end.

Definition MemoryTablet_replay_committed (self : MemoryTablet) (sequence expected_previous_sequence : N)
    (mutations : list TabletMutation) : result MemoryTablet TabletError :=
  if negb (expected_previous_sequence =? mt_current_sequence self)
  then Err (SequenceMismatch (mt_current_sequence self) expected_previous_sequence) else
  let? expected_sequence := ok_or (checked_add64 (mt_current_sequence self) 1) SequenceOverflow in
  if negb (sequence =? expected_sequence)
  then Err (RecoveredSequenceMismatch expected_sequence sequence) else
  if any_outside (td_range (mt_descriptor self)) mutations then Err KeyOutsideTabletRange else
  Ok (MemoryTablet_apply_mutations self sequence mutations).

(** [versions.iter().rev().find(|version| version.sequence <= snapshot)] *)
Definition find_version (versions : list VersionedValue) (snapshot : N) : option VersionedValue :=
  find (λ version, vv_sequence version <=? snapshot) (rev versions).

Definition MemoryTablet_read_at (self : MemoryTablet) (key : bytes) (snapshot : N)
    : result (option bytes) TabletError :=
  if mt_current_sequence self <? snapshot then Err (SnapshotAhead (mt_current_sequence self) snapshot) else
  if negb (KeyRange_contains (td_range (mt_descriptor self)) key) then Err KeyOutsideTabletRange else
  Ok (versions ← mt_rows self !! key; version ← find_version versions snapshot; vv_value version).

Definition MemoryTablet_read_latest (self : MemoryTablet) (key : bytes) : option bytes :=
  match MemoryTablet_read_at self key (mt_current_sequence self) with Ok v => v | Err _ => None end.

(** ** Splits *)

Lemma KeyRange_split_at_Ok range k lhs rhs :
  KeyRange_split_at range k = Ok (lhs, rhs) →
  lhs = mkKeyRange (kr_start range) (Some k) ∧ rhs = mkKeyRange k (kr_end range) ∧
  bytes_ltb (kr_start range) k = true ∧
  (∀ key stop, kr_end range = Some stop → bytes_ltb key k = true → bytes_ltb key stop = true).
Proof.
  unfold KeyRange_split_at, KeyRange_contains_interior_split, KeyRange_new, bytes_leb.
  destruct (bytes_ltb (kr_start range) k) eqn:Hsk; [|done]. cbn [andb negb res_bind].
  destruct (kr_end range) as [stop|]; [destruct (bytes_ltb k stop) eqn:Hks|];
    cbn [negb res_bind]; try done; intros [= <- <-]; split_and!; try done.
  intros key ? [= <-] Hkey. by eapply bytes_ltb_trans.
Qed.

(** The children of a planned split share the keys of the source between them
    and carry an epoch that fences writes prepared for the source. *)
Lemma plan_split_partitions d k l r e plan :
  TabletDescriptor_plan_split d k l r e = Ok plan →
  (∀ key, KeyRange_contains (td_range d) key =
     xorb (KeyRange_contains (td_range (sp_left plan)) key) (KeyRange_contains (td_range (sp_right plan)) key)) ∧
  td_ownership_epoch (sp_left plan) = e ∧ td_ownership_epoch (sp_right plan) = e ∧ td_ownership_epoch d < e ∧
  td_id (sp_left plan) ≠ td_id (sp_right plan).
Proof.
  unfold TabletDescriptor_plan_split, TabletDescriptor_new. case_if; [done|]. case_if; [done|].
  destruct (KeyRange_split_at (td_range d) k) as [[lhs rhs]|] eqn:Hsplit; [|done]. cbn [res_bind].
  apply KeyRange_split_at_Ok in Hsplit as (-> & -> & Hsk & Hstop).
  destruct (e =? 0); [done|]. cbn [res_bind]. intros [= <-].
  bool_to_prop. cbn [sp_left sp_right td_range td_ownership_epoch td_id]. split_and!; try done.
  intros key. unfold KeyRange_contains; cbn [kr_start kr_end].
  destruct (bytes_ltb key k) eqn:Hkk.
  - assert (bytes_leb k key = false) as -> by (unfold bytes_leb; by rewrite Hkk).
    cbn [andb]. rewrite xorb_false_r. f_equal. destruct (kr_end (td_range d)) as [stop|]; [|done].
    by apply Hstop.
  - assert (bytes_leb k key = true) as Hle by (unfold bytes_leb; by rewrite Hkk).
    rewrite (bytes_ltb_leb _ _ (bytes_ltb_leb_trans _ _ _ Hsk Hle)), Hle. by rewrite andb_false_r, xorb_false_l.
Qed.

(** ** Specification: the committed batches *)

Abbreviation batch := (list TabletMutation).

Definition mutate (m : gmap bytes bytes) (mutation : TabletMutation) : gmap bytes bytes :=
  match mutation with Put key value => <[key := value]> m | Delete key => delete key m end.

Definition after (log : list batch) : gmap bytes bytes := foldl (foldl mutate) ∅ log.

(** The tablet that has committed a log. *)
Definition tablet_after (d : TabletDescriptor) (log : list batch) : MemoryTablet :=
  foldl (λ t b, MemoryTablet_apply_mutations t (mt_current_sequence t + 1) b) (MemoryTablet_new d) log.

Lemma tablet_after_snoc d log b :
  tablet_after d (log ++ [b]) =
    MemoryTablet_apply_mutations (tablet_after d log) (mt_current_sequence (tablet_after d log) + 1) b.
Proof. unfold tablet_after. by rewrite foldl_snoc. Qed.

Lemma tablet_after_shape d log :
  mt_descriptor (tablet_after d log) = d ∧ mt_current_sequence (tablet_after d log) = len log.
Proof.
  induction log as [|b log [IHd IHs]] using rev_ind; [done|].
  rewrite tablet_after_snoc. cbn. rewrite IHd, IHs. split; [done|]. autorewrite with nula. lia.
Qed.

(** ** Reads *)

(** The newest version of a key, if it is a value. *)
Definition latest (rows : rows_map) (key : bytes) : option bytes :=
  versions ← rows !! key; version ← last versions; vv_value version.

(** Every version of every row has a sequence that satisfies [P]. *)
Definition versions_in (P : N → Prop) (rows : rows_map) : Prop :=
  map_Forall (λ _ vs, Forall (λ v, P (vv_sequence v)) vs) rows.

Definition mutation_value (mutation : TabletMutation) : option bytes :=
  match mutation with Put _ value => Some value | Delete _ => None end.

Lemma apply_mutation_alt sequence rows mutation :
  apply_mutation sequence rows mutation =
    <[TabletMutation_key mutation :=
        default [] (rows !! TabletMutation_key mutation) ++ [mkVersion sequence (mutation_value mutation)]]> rows.
Proof. by destruct mutation. Qed.

Lemma versions_in_weaken (P Q : N → Prop) rows : (∀ s, P s → Q s) → versions_in P rows → versions_in Q rows.
Proof. intros HPQ Hrows k vs Hk. eapply Forall_impl; [by eapply Hrows|]. intros v. apply HPQ. Qed.

Lemma versions_in_apply P sequence rows mutation :
  P sequence → versions_in P rows → versions_in P (apply_mutation sequence rows mutation).
Proof.
  intros Hs Hrows. rewrite apply_mutation_alt. apply map_Forall_insert_2; [|done].
  apply Forall_app_2; [|by apply Forall_singleton].
  destruct (rows !! _) eqn:Hk; [by eapply Hrows|by apply Forall_nil_2].
Qed.

Lemma versions_in_batch P sequence rows (b : batch) :
  P sequence → versions_in P rows → versions_in P (foldl (apply_mutation sequence) rows b).
Proof.
  intros Hs. revert rows. induction b as [|m b IH]; intros rows Hrows; [done|]. apply IH. by apply versions_in_apply.
Qed.

Lemma tablet_after_versions d log : versions_in (λ s, 1 ≤ s ≤ len log) (mt_rows (tablet_after d log)).
Proof.
  induction log as [|b log IH] using rev_ind; [done|].
  rewrite tablet_after_snoc, (proj2 (tablet_after_shape d log)). cbn.
  apply versions_in_batch; [|eapply versions_in_weaken; [|done]; cbn beta]; intros; autorewrite with nula; lia.
Qed.

Lemma latest_mutate sequence rows m mutation :
  (∀ k, latest rows k = m !! k) → ∀ k, latest (apply_mutation sequence rows mutation) k = mutate m mutation !! k.
Proof.
  intros Hm k. rewrite apply_mutation_alt. unfold latest.
  destruct (decide (k = TabletMutation_key mutation)) as [->|Hne].
  - rewrite lookup_insert_eq. cbn. rewrite last_snoc. cbn.
    destruct mutation; cbn; [by rewrite lookup_insert_eq|by rewrite lookup_delete_eq].
  - rewrite lookup_insert_ne by done. specialize (Hm k). unfold latest in Hm. rewrite Hm.
    destruct mutation; cbn in *; [by rewrite lookup_insert_ne|by rewrite lookup_delete_ne].
Qed.

Lemma latest_after d log k : latest (mt_rows (tablet_after d log)) k = after log !! k.
Proof.
  revert k. induction log as [|b log IH] using rev_ind; intros k; [done|].
  rewrite tablet_after_snoc. unfold after. rewrite foldl_snoc. fold (after log). cbn.
  generalize (mt_current_sequence (tablet_after d log) + 1) as s. intros s.
  revert IH. generalize (mt_rows (tablet_after d log)) as rows, (after log) as m.
  induction b as [|mu b IHb]; intros rows m Hm; [apply Hm|]. cbn. apply IHb. by apply latest_mutate.
Qed.

Lemma find_version_all versions s :
  Forall (λ v, vv_sequence v ≤ s) versions → find_version versions s = last versions.
Proof.
  unfold find_version. destruct versions as [|v versions _] using rev_ind; [done|].
  rewrite last_snoc, rev_app_distr. intros [_ Hv]%Forall_app. cbn.
  apply Forall_cons in Hv as [Hv%N.leb_le _]. by rewrite Hv.
Qed.

Lemma find_version_skip versions v s : s < vv_sequence v → find_version (versions ++ [v]) s = find_version versions s.
Proof. intros Hv. unfold find_version. rewrite rev_app_distr. cbn. apply N.leb_gt in Hv. by rewrite Hv. Qed.

(** What [read_at] looks up. *)
Definition version_at (rows : rows_map) (key : bytes) (snapshot : N) : option bytes :=
  versions ← rows !! key; version ← find_version versions snapshot; vv_value version.

Lemma version_at_batch sequence rows (b : batch) k s :
  s < sequence → version_at (foldl (apply_mutation sequence) rows b) k s = version_at rows k s.
Proof.
  intros Hs. revert rows. induction b as [|m b IH]; intros rows; [done|]. cbn. rewrite IH.
  rewrite apply_mutation_alt. unfold version_at. destruct (decide (k = TabletMutation_key m)) as [->|Hne].
  - rewrite lookup_insert_eq. cbn. rewrite find_version_skip by done. by destruct (rows !! _).
  - by rewrite lookup_insert_ne.
Qed.

Lemma version_at_after d log k (s : nat) :
  (s ≤ length log)%nat → version_at (mt_rows (tablet_after d log)) k (N.of_nat s) = after (take s log) !! k.
Proof.
  induction log as [|b log IH] using rev_ind; intros Hs.
  { by destruct s. }
  rewrite length_app in Hs. cbn in Hs. destruct (decide (s ≤ length log)%nat) as [Hle|Hgt].
  - rewrite tablet_after_snoc, (proj2 (tablet_after_shape d log)). cbn [MemoryTablet_apply_mutations mt_rows].
    rewrite version_at_batch by (unfold len; lia). rewrite take_app_le by done. by apply IH.
  - rewrite take_ge by (rewrite length_app; cbn; lia). rewrite <-(latest_after d).
    pose proof (tablet_after_versions d (log ++ [b])) as Hv.
    unfold version_at, latest. destruct (mt_rows _ !! k) as [vs|] eqn:Hk; [|done]. cbn.
    rewrite find_version_all; [done|]. eapply Forall_impl; [by eapply Hv|].
    intros v [_ ?]. unfold len in *. rewrite length_app in *. cbn in *. lia.
Qed.

(** A read at a snapshot sees the map left by the batches up to it, whatever
    was committed later. *)
Lemma read_at_after d log k s :
  MemoryTablet_read_at (tablet_after d log) k s =
    if len log <? s then Err (SnapshotAhead (len log) s) else
    if KeyRange_contains (td_range d) k then Ok (after (take (N.to_nat s) log) !! k) else Err KeyOutsideTabletRange.
Proof.
  unfold MemoryTablet_read_at. destruct (tablet_after_shape d log) as [-> ->].
  destruct (N.ltb_spec (len log) s); [done|]. destruct (KeyRange_contains _ _); [|done]. cbn [negb].
  f_equal. rewrite <-(version_at_after d) by (unfold len in *; lia). by rewrite N2Nat.id.
Qed.

(** ** Commits and replay *)

Definition in_range_batch (d : TabletDescriptor) (b : batch) : Prop :=
  Forall (λ m, KeyRange_contains (td_range d) (TabletMutation_key m) = true) b.

Lemma any_outside_false range (b : batch) :
  any_outside range b = false ↔ Forall (λ m, KeyRange_contains range (TabletMutation_key m) = true) b.
Proof.
  unfold any_outside. induction b as [|m b IH]; cbn; [by split|].
  rewrite orb_false_iff, negb_false_iff, Forall_cons, IH. done.
Qed.

Lemma validate_write_Ok d log w :
  MemoryTablet_validate_write (tablet_after d log) w = Ok tt →
  tw_tablet_id w = td_id d ∧ tw_ownership_epoch w = td_ownership_epoch d ∧
  tw_expected_previous_sequence w = len log ∧ tw_sequence w = len log + 1 ∧ len log + 1 < U64 ∧
  in_range_batch d (tw_mutations w).
Proof.
  unfold MemoryTablet_validate_write. destruct (tablet_after_shape d log) as [-> ->].
  case_if; [done|]. case_if; [done|]. case_if; [done|]. case_if; [done|].
  destruct (any_outside _ _) eqn:Hout; [done|]. apply any_outside_false in Hout.
  unfold checked_add64. destruct (N.ltb_spec (len log + 1) U64); [|done]. cbn [ok_or res_bind].
  case_if; [done|]. intros _. bool_to_prop. split_and!; try done. lia.
Qed.

Lemma publish_after d log w :
  tw_sequence w = len log + 1 →
  MemoryTablet_publish_validated (tablet_after d log) w = (len log + 1, tablet_after d (log ++ [tw_mutations w])).
Proof.
  intros Hs. unfold MemoryTablet_publish_validated.
  by rewrite Hs, tablet_after_snoc, (proj2 (tablet_after_shape d log)).
Qed.

Lemma replay_after d log (b : batch) :
  len log + 1 < U64 → in_range_batch d b →
  MemoryTablet_replay_committed (tablet_after d log) (len log + 1) (len log) b = Ok (tablet_after d (log ++ [b])).
Proof.
  intros Hlt Hb%any_outside_false. unfold MemoryTablet_replay_committed.
  rewrite tablet_after_snoc. destruct (tablet_after_shape d log) as [-> ->].
  rewrite N.eqb_refl. cbn [negb]. rewrite checked_add64_Some by done. cbn [ok_or res_bind].
  by rewrite N.eqb_refl, Hb.
Qed.

(** ** Snapshots *)

(** No batch writes a key twice. *)
Definition distinct_keys (b : batch) : Prop := NoDup (TabletMutation_key <$> b).

(** Strictly increasing versions, from above [p] up to [c]. *)
Definition increasing (c p : N) (vs : list VersionedValue) : Prop := history_ok c p vs = true.

Lemma increasing_cons c p v vs :
  increasing c p (v :: vs) ↔ vv_sequence v ≠ 0 ∧ vv_sequence v ≤ c ∧ p < vv_sequence v ∧ increasing c (vv_sequence v) vs.
Proof.
  unfold increasing. cbn. destruct (N.eqb_spec (vv_sequence v) 0), (N.ltb_spec c (vv_sequence v)),
    (N.leb_spec (vv_sequence v) p); cbn; naive_solver lia.
Qed.

Lemma increasing_snoc c c' p vs v :
  increasing c p vs → c < vv_sequence v ≤ c' → p < vv_sequence v → increasing c' p (vs ++ [v]).
Proof.
  revert p. induction vs as [|u vs IH]; intros p; cbn [app]; rewrite !increasing_cons.
  - intros _ ? ?. split_and!; [lia|lia|done|done].
  - intros (? & ? & ? & Hvs) ? ?. split_and!; [done|lia|done|]. apply IH; [done|done|lia].
Qed.

Lemma increasing_weaken c c' p vs : increasing c p vs → c ≤ c' → increasing c' p vs.
Proof.
  revert p. induction vs as [|u vs IH]; intros p; [done|]. rewrite !increasing_cons.
  intros (? & ? & ? & Hvs) ?. split_and!; [done|lia|done|by apply IH].
Qed.

Lemma increasing_batch c rows (b : batch) :
  distinct_keys b → map_Forall (λ _ vs, increasing c 0 vs) rows →
  map_Forall (λ _ vs, increasing (c + 1) 0 vs) (foldl (apply_mutation (c + 1)) rows b).
Proof.
  intros Hb Hrows.
  assert (∀ k vs, rows !! k = Some vs → increasing (c + 1) 0 vs ∧ (k ∈ TabletMutation_key <$> b → increasing c 0 vs))
    as Hinv.
  { intros k vs Hk. specialize (Hrows k vs Hk). cbn in Hrows. split; [|done].
    apply (increasing_weaken c); [exact Hrows|lia]. }
  clear Hrows. revert rows Hb Hinv. unfold distinct_keys. induction b as [|m b IH]; intros rows Hb Hinv.
  { intros k vs Hk. by apply (Hinv k vs). }
  cbn in Hb. apply NoDup_cons in Hb as [Hm Hb]. cbn [foldl]. apply IH; [done|].
  intros k vs. rewrite apply_mutation_alt. destruct (decide (k = TabletMutation_key m)) as [->|Hne].
  - rewrite lookup_insert_eq. intros [= <-]. split; [|done].
    apply (increasing_snoc c); cbn [vv_sequence]; [|lia..].
    destruct (rows !! _) as [vs|] eqn:Hk; [|done]. apply (Hinv _ _ Hk). by left.
  - rewrite lookup_insert_ne by done. intros Hk. destruct (Hinv _ _ Hk) as [H1 H2].
    split; [done|]. intros Hin. apply H2. by right.
Qed.

Lemma tablet_after_increasing d log :
  Forall distinct_keys log → map_Forall (λ _ vs, increasing (len log) 0 vs) (mt_rows (tablet_after d log)).
Proof.
  induction log as [|b log IH] using rev_ind; [done|]. intros [Hlog [Hb _]%Forall_cons]%Forall_app.
  rewrite tablet_after_snoc, (proj2 (tablet_after_shape d log)). cbn.
  replace (len (log ++ [b])) with (len log + 1) by (autorewrite with nula; lia).
  apply increasing_batch; auto.
Qed.

Lemma tablet_after_range d log :
  Forall (in_range_batch d) log →
  map_Forall (λ k _, KeyRange_contains (td_range d) k = true) (mt_rows (tablet_after d log)).
Proof.
  induction log as [|b log IH] using rev_ind; [done|]. intros [Hlog [Hb _]%Forall_cons]%Forall_app.
  rewrite tablet_after_snoc. cbn. generalize (mt_current_sequence (tablet_after d log) + 1) as s.
  specialize (IH Hlog). revert IH. generalize (mt_rows (tablet_after d log)) as rows. clear Hlog.
  induction Hb as [|m b Hm _ IHb]; intros rows Hrows s; [done|]. cbn [foldl]. apply IHb.
  rewrite apply_mutation_alt. by apply map_Forall_insert_2.
Qed.

(** The descriptor is not part of the rows. *)
Lemma tablet_after_rows d d' log : mt_rows (tablet_after d log) = mt_rows (tablet_after d' log).
Proof.
  induction log as [|b log IH] using rev_ind; [done|].
  rewrite !tablet_after_snoc, !(proj2 (tablet_after_shape _ log)). cbn. by rewrite IH.
Qed.

Lemma restore_rows_ok range c (l : list (bytes * list VersionedValue)) acc :
  Forall (λ kv, KeyRange_contains range kv.1 = true ∧ increasing c 0 kv.2) l →
  NoDup l.*1 → (∀ k, k ∈ l.*1 → acc !! k = None) →
  restore_rows range c ((λ '(k, vs), mkSnapshotRow k vs) <$> l) acc = Ok (foldl (λ m kv, <[kv.1 := kv.2]> m) acc l).
Proof.
  revert acc. induction l as [|[k vs] l IH]; intros acc; [done|].
  intros [[Hk Hvs] Hl]%Forall_cons [Hkl Hnd]%NoDup_cons Hacc. cbn in *.
  rewrite Hk, Hvs, (Hacc k) by (by left). cbn. apply IH; [done..|].
  intros j Hj. rewrite lookup_insert_ne by (intros ->; done). apply Hacc. by right.
Qed.

(** A snapshot restores the tablet, under a descriptor of the same range. *)
Lemma restore_snapshot_after d d' log :
  td_range d' = td_range d → Forall distinct_keys log → Forall (in_range_batch d) log →
  MemoryTablet_restore_snapshot d' (MemoryTablet_snapshot_state (tablet_after d log)) = Ok (tablet_after d' log).
Proof.
  intros Hrange Hdist Hin. unfold MemoryTablet_restore_snapshot, MemoryTablet_snapshot_state.
  cbn [ss_current_sequence ss_rows]. rewrite (proj2 (tablet_after_shape d log)).
  set (l := merge_sort row_le _). assert (l ≡ₚ map_to_list (mt_rows (tablet_after d log))) as Hl
    by apply merge_sort_Permutation.
  rewrite restore_rows_ok.
  - cbn [res_bind]. rewrite (foldl_insert_map_to_list _ (mt_rows (tablet_after d log))) by done.
    rewrite (tablet_after_rows d d'). destruct (tablet_after_shape d' log) as [Hd Hs].
    rewrite <-Hs. rewrite <-Hd at 1. by destruct (tablet_after d' log).
  - rewrite Hl. apply Forall_forall. intros [k vs] Hkv%elem_of_map_to_list. rewrite Hrange. split.
    + by apply (tablet_after_range _ _ Hin _ _ Hkv).
    + by apply (tablet_after_increasing _ _ Hdist _ _ Hkv).
  - rewrite Hl. apply NoDup_fst_map_to_list.
  - intros k _. apply lookup_empty.
Qed.
