(* ===== verification/FileSystem.v ===== *)
(** * Files, directories and their failures

    What the database uses of [std::fs] and [std::io].  A file is its contents
    and the contents last made durable; a directory is a map from names to
    files, with the versions it had since it was last made durable.  Every call
    may fail: a list of faults says which calls do and how far a write got
    before.  [power_failure] is what may be left of a disk afterwards. *)
From Stdlib Require Import String.
From S2P Require Import Prelude Bytes Text.

Local Open Scope list_scope.
Local Open Scope N_scope.

(** ** Errors *)

Inductive ErrorKind := NotFound | UnexpectedEof | OtherKind (code : N).
Record IoError := mkIoError { io_kind : ErrorKind; io_message : bytes }.

(** [impl From<io::Error>] *)
Class FromIo (E : Type) := from_io : IoError → E.
#[global] Hint Mode FromIo ! : typeclass_instances.

(** ** Paths: names in the directory of the log *)

(** [Path::file_stem] of a file name: the part before its last dot, or the whole
    name when it has none but perhaps in front. *)
Fixpoint before_last_dot (name : bytes) : option bytes :=
  match name with
  | [] => None
  | b :: name =>
      match before_last_dot name with
      | Some stem => Some (b :: stem)
      | None => if b =? 46 then Some [] else None
      end
  end.
Definition file_stem (name : bytes) : bytes :=
  match before_last_dot name with
  | None | Some [] => name
  | Some stem => stem
  end.
Definition with_extension (name extension : bytes) : bytes := file_stem name ++ [46] ++ extension.

(** ** State *)

Record FileData := mkFile { fd_bytes : bytes; fd_synced : bytes }.

Abbreviation directory := (gmap bytes nat).

Record FS := mkFS {
  fs_files : list FileData;
  fs_dir : directory;
  fs_dir_old : list directory;
}.

Definition empty_fs : FS := mkFS [] ∅ [].

Definition file_at (fs : FS) (inode : nat) : FileData := default (mkFile [] []) (fs_files fs !! inode).
Definition put_file (fs : FS) (inode : nat) (data : FileData) : FS :=
  mkFS (<[inode := data]> (fs_files fs)) (fs_dir fs) (fs_dir_old fs).
Definition put_dir (fs : FS) (dir : directory) : FS :=
  mkFS (fs_files fs) dir (fs_dir fs :: fs_dir_old fs).

(** A fault of a call: its error and, for a write, the bytes written before. *)
Record Fault := mkFault { ft_written : N; ft_error : IoError }.

Record World := mkWorld { w_fs : FS; w_faults : list (option Fault) }.

(** ** Computations

    A method with a state [S] of its own and errors [E].  [None] is a loop that
    has not come to its end. *)
Definition IO (S E A : Type) : Type := S → World → option (result A E * S * World).

Definition io_run {S E A} (m : IO S E A) : S → World → option (result A E * S * World) := m.

#[global] Instance io_ret {S E} : MRet (IO S E) := λ A a s w, Some (Ok a, s, w).
#[global] Instance io_bind {S E} : MBind (IO S E) := λ A B k m s w,
  match m s w with
  | Some (Ok a, s, w) => k a s w
  | Some (Err e, s, w) => Some (Err e, s, w)
  | None => None
  end.

Definition io_fail {S E A} (e : E) : IO S E A := λ s w, Some (Err e, s, w).
Definition io_result {S E A} (r : result A E) : IO S E A := λ s w, Some (r, s, w).
Definition io_get {S E} : IO S E S := λ s w, Some (Ok s, s, w).
Definition io_put {S E} (s : S) : IO S E unit := λ _ w, Some (Ok tt, s, w).
Definition io_diverge {S E A} : IO S E A := λ s w, None.

(** [map_err], [unwrap_or], and a method of a field. *)
Definition io_map_err {S E E' A} (f : E → E') (m : IO S E A) : IO S E' A := λ s w,
  match m s w with
  | Some (Ok a, s, w) => Some (Ok a, s, w)
  | Some (Err e, s, w) => Some (Err (f e), s, w)
  | None => None
  end.
Definition io_unwrap_or {S E A} (a : A) (m : IO S E A) : IO S E A := λ s w,
  match m s w with
  | Some (Err _, s, w) => Some (Ok a, s, w)
  | r => r
  end.
Definition io_field {S T E A} (get : S → T) (put : T → S → S) (m : IO T E A) : IO S E A := λ s w,
  match m (get s) w with
  | Some (r, t, w) => Some (r, put t s, w)
  | None => None
  end.

(** ** Calls *)

Section calls.
Context {S E : Type} `{FromIo E}.

Definition syscall {A} (good : FS → result A IoError * FS) (bad : N → FS → FS) : IO S E A := λ s w,
  match w_faults w with
  | Some fault :: faults =>
      Some (Err (from_io (ft_error fault)), s, mkWorld (bad (ft_written fault) (w_fs w)) faults)
  | _ =>
      let '(r, fs) := good (w_fs w) in
      Some (match r with Ok a => Ok a | Err e => Err (from_io e) end, s, mkWorld fs (tail (w_faults w)))
  end.

(** A call that does nothing when it fails. *)
Definition call {A} (good : FS → result A IoError * FS) : IO S E A := syscall good (λ _ fs, fs).

(** An open file: which one, and the position in it. *)
Record File := mkHandle { fh_inode : nat; fh_pos : N }.

(** [path.exists()], which treats an error as absence. *)
Definition path_exists (name : bytes) : IO S E bool := λ s w,
  Some (Ok (bool_decide (is_Some (fs_dir (w_fs w) !! name))), s, w).

(** [fs::create_dir_all] of the directory, which exists. *)
Definition create_dir_all : IO S E unit := call (λ fs, (Ok tt, fs)).

(** [OpenOptions::new().create(true).truncate(truncate).write(true).open(path)] *)
Definition open_create (truncate : bool) (name : bytes) : IO S E File :=
  call (λ fs,
    match fs_dir fs !! name with
    | Some inode =>
        (Ok (mkHandle inode 0),
         if truncate then put_file fs inode (mkFile [] (fd_synced (file_at fs inode))) else fs)
    | None =>
        (Ok (mkHandle (length (fs_files fs)) 0),
         put_dir (mkFS (fs_files fs ++ [mkFile [] []]) (fs_dir fs) (fs_dir_old fs))
           (<[name := length (fs_files fs)]> (fs_dir fs)))
    end).

(** [File::open] *)
Definition open_existing (name : bytes) : IO S E File :=
  call (λ fs,
    match fs_dir fs !! name with
    | Some inode => (Ok (mkHandle inode 0), fs)
    | None => (Err (mkIoError NotFound (str "No such file or directory (os error 2)")), fs)
    end).

Definition metadata_len (file : File) : IO S E N :=
  call (λ fs, (Ok (len (fd_bytes (file_at fs (fh_inode file)))), fs)).
Definition seek_start (file : File) (pos : N) : IO S E File :=
  call (λ fs, (Ok (mkHandle (fh_inode file) pos), fs)).
Definition seek_end (file : File) : IO S E File :=
  call (λ fs, (Ok (mkHandle (fh_inode file) (len (fd_bytes (file_at fs (fh_inode file))))), fs)).
Definition stream_position (file : File) : IO S E N := call (λ fs, (Ok (fh_pos file), fs)).

(** The bytes of a file after writing [data] at a position. *)
Definition write_at (bs : bytes) (pos : N) (data : bytes) : bytes :=
  take (N.to_nat pos) bs ++ replicate (N.to_nat pos - length bs) 0 ++ data
    ++ drop (N.to_nat pos + length data) bs.
Definition write_file (fs : FS) (file : File) (data : bytes) : FS :=
  let f := file_at fs (fh_inode file) in
  put_file fs (fh_inode file) (mkFile (write_at (fd_bytes f) (fh_pos file) data) (fd_synced f)).

Definition write_all (file : File) (data : bytes) : IO S E File :=
  syscall (λ fs, (Ok (mkHandle (fh_inode file) (fh_pos file + len data)), write_file fs file data))
          (λ written fs, write_file fs file (take (N.to_nat written) data)).

Definition sync_data (file : File) : IO S E unit :=
  call (λ fs, let f := file_at fs (fh_inode file) in
              (Ok tt, put_file fs (fh_inode file) (mkFile (fd_bytes f) (fd_bytes f)))).

Definition set_len (file : File) (size : N) : IO S E unit :=
  call (λ fs, let f := file_at fs (fh_inode file) in
              (Ok tt, put_file fs (fh_inode file)
                        (mkFile (take (N.to_nat size) (fd_bytes f)
                                   ++ replicate (N.to_nat size - length (fd_bytes f)) 0) (fd_synced f)))).

(** The bytes read by a loop of [read] calls into a buffer of [size] bytes, which
    only ends early at the end of the file. *)
Definition read_bytes (file : File) (size : N) : IO S E (bytes * File) :=
  call (λ fs,
    let data := take (N.to_nat size) (drop (N.to_nat (fh_pos file)) (fd_bytes (file_at fs (fh_inode file)))) in
    (Ok (data, mkHandle (fh_inode file) (fh_pos file + len data)), fs)).

Definition read_exact (file : File) (size : N) : IO S E (bytes * File) :=
  '(data, file) ← read_bytes file size;
  if len data <? size
  then io_fail (from_io (mkIoError UnexpectedEof (str "failed to fill whole buffer")))
  else mret (data, file).

Definition rename (source target : bytes) : IO S E unit :=
  call (λ fs,
    match fs_dir fs !! source with
    | Some inode => (Ok tt, put_dir fs (<[target := inode]> (delete source (fs_dir fs))))
    | None => (Err (mkIoError NotFound (str "No such file or directory (os error 2)")), fs)
    end).

(** [File::open(parent)] and [sync_all] on the directory. *)
Definition open_directory : IO S E unit := call (λ fs, (Ok tt, fs)).
Definition sync_all_directory : IO S E unit :=
  call (λ fs, (Ok tt, mkFS (fs_files fs) (fs_dir fs) [])).

End calls.

(** ** Files after a call *)

Lemma file_at_put fs i f : (i < length (fs_files fs))%nat → file_at (put_file fs i f) i = f.
Proof. intros Hi. unfold file_at, put_file. cbn. by rewrite list_lookup_insert_eq. Qed.

Lemma put_put fs i f g : put_file (put_file fs i f) i g = put_file fs i g.
Proof. unfold put_file. cbn. by rewrite list_insert_insert_eq. Qed.

Lemma put_same fs i : (i < length (fs_files fs))%nat → put_file fs i (file_at fs i) = fs.
Proof.
  intros [f Hf]%lookup_lt_is_Some_2. unfold put_file, file_at. rewrite Hf. cbn.
  rewrite list_insert_id by done. by destruct fs.
Qed.

Lemma write_at_end bs data : write_at bs (len bs) data = bs ++ data.
Proof.
  unfold write_at, len. rewrite Nat2N.id, take_ge, Nat.sub_diag, drop_ge by lia. cbn [replicate].
  by rewrite (right_id_L [] (++)).
Qed.

(** ** Power failures *)

(** What may be in a file after a power failure: as much as was durable, and any
    further part of what was appended or cut off since; anything, if it was
    rewritten in place. *)
Inductive may_persist (f : FileData) (c : bytes) : Prop :=
| persist_grown : fd_synced f `prefix_of` c → c `prefix_of` fd_bytes f → may_persist f c
| persist_cut : fd_bytes f `prefix_of` c → c `prefix_of` fd_synced f → may_persist f c
| persist_rewritten : ¬ fd_synced f `prefix_of` fd_bytes f → ¬ fd_bytes f `prefix_of` fd_synced f → may_persist f c.

(** The versions of the directory that may be found: changes reach the disk in
    order, each of them entirely or not at all. *)
Definition dir_versions (fs : FS) : list directory := fs_dir fs :: fs_dir_old fs.

Definition power_failure (fs fs' : FS) : Prop :=
  fs_dir fs' ∈ dir_versions fs ∧ fs_dir_old fs' = [] ∧
  Forall2 (λ f f', ∃ c, may_persist f c ∧ f' = mkFile c c) (fs_files fs) (fs_files fs').

(** ** Rules

    [spec q s fs m Q]: from the state [s] and the disk [fs], whatever faults are
    met, [m] ends with a result, state and disk in [Q].  Under [q] there are no
    faults, so that the error of a call is met under [¬ q] only. *)

Definition no_faults (faults : list (option Fault)) : Prop := Forall (λ f, f = None) faults.

Definition spec {S E A} (q : Prop) (s : S) (fs : FS) (m : IO S E A) (Q : result A E → S → FS → Prop) : Prop :=
  ∀ faults, (q → no_faults faults) →
    ∃ r s' fs' faults', m s (mkWorld fs faults) = Some (r, s', mkWorld fs' faults') ∧
      (q → no_faults faults') ∧ Q r s' fs'.

Section rules.
Context {S E A : Type}.
Implicit Types (q : Prop) (s : S) (fs : FS) (m : IO S E A) (Q : result A E → S → FS → Prop).

Lemma spec_result q s fs r Q : Q r s fs → spec q s fs (io_result r) Q.
Proof. intros HQ faults Hf. by exists r, s, fs, faults. Qed.

Lemma spec_ret q s fs (a : A) Q : Q (Ok a) s fs → spec q s fs (mret a) Q.
Proof. apply (spec_result _ _ _ (Ok a)). Qed.

Lemma spec_fail q s fs (e : E) Q : Q (Err e) s fs → spec q s fs (io_fail e) Q.
Proof. apply (spec_result _ _ _ (Err e)). Qed.

Lemma spec_mono q s fs m (Q Q' : result A E → S → FS → Prop) :
  spec q s fs m Q → (∀ r s' fs', Q r s' fs' → Q' r s' fs') → spec q s fs m Q'.
Proof. intros Hm HQ faults Hf. destruct (Hm faults Hf) as (r & s' & fs' & f' & ? & ? & ?). naive_solver. Qed.

Lemma spec_bind {B} q s fs (m : IO S E B) (k : B → IO S E A) Q :
  spec q s fs m (λ r s' fs', match r with Ok b => spec q s' fs' (k b) Q | Err e => Q (Err e) s' fs' end) →
  spec q s fs (m ≫= k) Q.
Proof.
  intros Hm faults Hf. destruct (Hm faults Hf) as (r & s' & fs' & f' & Heq & Hf' & HQ).
  unfold mbind, io_bind. rewrite Heq. destruct r as [b|e]; [by apply HQ|]. by eexists _, _, _, _.
Qed.

(** A call meets a fault or goes well. *)
Lemma spec_syscall `{FromIo E} q s fs (good : FS → result A IoError * FS) (bad : N → FS → FS) Q :
  (∀ e n, ¬ q → Q (Err (from_io e)) s (bad n fs)) →
  Q match (good fs).1 with Ok a => Ok a | Err e => Err (from_io e) end s (good fs).2 →
  spec q s fs (syscall good bad) Q.
Proof.
  intros Hbad Hgood faults Hf. unfold syscall. cbn [w_faults w_fs]. destruct (good fs) as [r fs'].
  destruct faults as [|[f|] faults]; (eexists _, _, _, _; split; [done|]).
  - by split.
  - assert (¬ q) as Hq by (intros Hq; specialize (Hf Hq); by apply Forall_cons in Hf as [? _]).
    split; [by intros|by apply Hbad].
  - split; [|done]. intros Hq. specialize (Hf Hq). by apply Forall_cons in Hf as [_ ?].
Qed.

Lemma spec_call `{FromIo E} q s fs (good : FS → result A IoError * FS) Q :
  (∀ e, ¬ q → Q (Err (from_io e)) s fs) →
  Q match (good fs).1 with Ok a => Ok a | Err e => Err (from_io e) end s (good fs).2 →
  spec q s fs (call good) Q.
Proof. intros Hbad. apply spec_syscall. auto. Qed.

Lemma spec_map_err {E'} (f : E' → E) q s fs (m : IO S E' A) Q :
  spec q s fs m (λ r, Q match r with Ok a => Ok a | Err e => Err (f e) end) → spec q s fs (io_map_err f m) Q.
Proof.
  intros Hm faults Hf. destruct (Hm faults Hf) as (r & s' & fs' & f' & Heq & Hf' & HQ).
  unfold io_map_err. rewrite Heq. destruct r; by eexists _, _, _, _.
Qed.

Lemma spec_field {T} (get : S → T) (put : T → S → S) q s fs (m : IO T E A) Q :
  spec q (get s) fs m (λ r t fs', Q r (put t s) fs') → spec q s fs (io_field get put m) Q.
Proof.
  intros Hm faults Hf. destruct (Hm faults Hf) as (r & t & fs' & f' & Heq & Hf' & HQ).
  unfold io_field. rewrite Heq. by eexists _, _, _, _.
Qed.
End rules.

Lemma spec_get {S E} q (s : S) fs (Q : result S E → S → FS → Prop) : Q (Ok s) s fs → spec q s fs io_get Q.
Proof. intros HQ faults Hf. by exists (Ok s), s, fs, faults. Qed.

Lemma spec_put {S E} q (s s' : S) fs (Q : result unit E → S → FS → Prop) :
  Q (Ok tt) s' fs → spec q s fs (io_put s') Q.
Proof. intros HQ faults Hf. by exists (Ok tt), s', fs, faults. Qed.

Lemma spec_path_exists {S E A} `{FromIo E} q (s : S) fs name (k : bool → IO S E A) Q :
  spec q s fs (k (bool_decide (is_Some (fs_dir fs !! name)))) Q → spec q s fs (path_exists name ≫= k) Q.
Proof. intros Hk faults Hf. by apply Hk. Qed.

(** The next call of a sequence: first its fault, then its effect. *)
Ltac io_call :=
  apply spec_bind;
  first [ apply spec_call | apply spec_syscall ]; cbn [fst snd from_io].
