(* ===== verification/TabletWal.v ===== *)
(** * The write-ahead log

    [src/database/wal.rs]: the log file with its header and checksummed frames,
    the scan that opens it and cuts off an incomplete last frame, durable
    appends, replay into a tablet and reclamation.  The digest ([blake3]) and
    the JSON codec of records ([serde_json]) are parameters. *)
From Stdlib Require Import String.
From S2P Require Import Prelude Bytes Text Tablet FileSystem.

Local Open Scope list_scope.
Local Open Scope N_scope.

(** ** Errors and records *)

Inductive WalError :=
| WIo (kind : ErrorKind) (message : bytes)
| WInvalidHeader
| WWalHeaderChecksumMismatch
| WInvalidFrameHeader (offset : N) (reason : bytes)
| WUnsupportedFrameVersion (offset version : N)
| WHeaderChecksumMismatch (offset : N)
| WUnsupportedRecordVersion (offset version : N)
| WInvalidRecord (offset : N) (reason : bytes)
| WRecordTooLarge (offset length : N)
| WChecksumMismatch (offset : N)
| WTabletMismatch (expected presented : TabletId)
| WStaleOwnershipEpoch (durable presented : N)
| WSequenceMismatch (committed expected_previous : N)
| WSequenceOverflow
| WReplayRejected (sequence : N) (reason : bytes)
| WCheckpointRequired (base_sequence : N)
| WCheckpointTooOld (checkpoint wal_base : N)
| WCheckpointAheadOfWal (checkpoint wal_tail : N)
| WInvalidReclaimSequence (current requested : N)
| WSerialization (message : bytes)
| WPoisoned.

#[global] Instance WalError_from_io : FromIo WalError := λ e, WIo (io_kind e) (io_message e).

Definition WAL_MAGIC : bytes := str "NUDBWAL3".
Definition WAL_HEADER_PREFIX_BYTES : N := 8 + 8 + 8 + 8.
Definition WAL_HEADER_BYTES : N := WAL_HEADER_PREFIX_BYTES + 32.
Definition WAL_FRAME_MAGIC : bytes := str "NREC".
Definition WAL_FRAME_VERSION : N := 1.
Definition WAL_RECORD_VERSION : N := 1.
Definition WAL_FRAME_PREFIX_BYTES : N := 4 + 2 + 4.
Definition WAL_FRAME_HEADER_BYTES : N := WAL_FRAME_PREFIX_BYTES + 32.
Definition MAX_WAL_RECORD_BYTES : N := 64 * 1024 * 1024.

Record DiskWalRecord := mkDiskRecord {
  dr_version : N;
  dr_tablet_id : N;
  dr_ownership_epoch : N;
  dr_sequence : N;
  dr_expected_previous_sequence : N;
  dr_mutations : list TabletMutation;
}.

Record WalRecord := mkWalRecord {
  wr_tablet_id : TabletId;
  wr_ownership_epoch : N;
  wr_sequence : N;
  wr_expected_previous_sequence : N;
  wr_mutations : list TabletMutation;
}.

Definition WalRecord_from_write (write : TabletWrite) : WalRecord :=
  mkWalRecord (tw_tablet_id write) (tw_ownership_epoch write) (tw_sequence write)
    (tw_expected_previous_sequence write) (tw_mutations write).

Definition WalRecord_from_disk (disk : DiskWalRecord) (offset : N) : result WalRecord WalError :=
  if negb (dr_version disk =? WAL_RECORD_VERSION)
  then Err (WUnsupportedRecordVersion offset (dr_version disk)) else
  let? tablet_id := match TabletId_new (dr_tablet_id disk) with
                    | Ok id => Ok id
                    | Err _ => Err (WInvalidRecord offset (str "tablet id must be non-zero"))
                    end in
  if dr_ownership_epoch disk =? 0
  then Err (WInvalidRecord offset (str "ownership epoch must be non-zero")) else
  Ok (mkWalRecord tablet_id (dr_ownership_epoch disk) (dr_sequence disk)
        (dr_expected_previous_sequence disk) (dr_mutations disk)).

Definition WalRecord_to_disk (self : WalRecord) : DiskWalRecord :=
  mkDiskRecord WAL_RECORD_VERSION (wr_tablet_id self) (wr_ownership_epoch self) (wr_sequence self)
    (wr_expected_previous_sequence self) (wr_mutations self).

(** "sequence {} does not follow predecessor {}" *)
Definition does_not_follow (sequence predecessor : N) : bytes :=
  str "sequence " ++ dec_of_N sequence ++ str " does not follow predecessor " ++ dec_of_N predecessor.

Definition validate_record_chain (record : WalRecord) (expected_tablet : option TabletId)
    (latest_ownership_epoch : option N) (last_sequence offset : N) : result unit WalError :=
  let? _ := match expected_tablet with
            | Some expected =>
                if negb (wr_tablet_id record =? expected)
                then Err (WTabletMismatch expected (wr_tablet_id record)) else Ok tt
            | None => Ok tt
            end in
  let? _ := match latest_ownership_epoch with
            | Some durable_epoch =>
                if wr_ownership_epoch record <? durable_epoch
                then Err (WStaleOwnershipEpoch durable_epoch (wr_ownership_epoch record)) else Ok tt
            | None => Ok tt
            end in
  if negb (wr_expected_previous_sequence record =? last_sequence)
  then Err (WSequenceMismatch last_sequence (wr_expected_previous_sequence record)) else
  let? expected_sequence := ok_or (checked_add64 last_sequence 1) WSequenceOverflow in
  if negb (wr_sequence record =? expected_sequence)
  then Err (WInvalidRecord offset (does_not_follow (wr_sequence record) last_sequence)) else
  Ok tt.

(** ** The log *)

Record FileWal := mkWal {
  fw_path : bytes;
  fw_file : File;
  fw_records : list WalRecord;
  fw_record_end_offsets : list N;
  fw_base_sequence : N;
  fw_tablet_id : option TabletId;
  fw_latest_ownership_epoch : option N;
  fw_poisoned : bool;
}.

Definition set_poisoned (self : FileWal) : FileWal :=
  mkWal (fw_path self) (fw_file self) (fw_records self) (fw_record_end_offsets self) (fw_base_sequence self)
    (fw_tablet_id self) (fw_latest_ownership_epoch self) true.
Definition set_wal_file (self : FileWal) (file : File) : FileWal :=
  mkWal (fw_path self) file (fw_records self) (fw_record_end_offsets self) (fw_base_sequence self)
    (fw_tablet_id self) (fw_latest_ownership_epoch self) (fw_poisoned self).

Definition FileWal_last_sequence (self : FileWal) : N :=
  match last (fw_records self) with Some r => wr_sequence r | None => fw_base_sequence self end.

Definition FileWal_record_end_offset (self : FileWal) (index : N) : option N :=
  fw_record_end_offsets self !! N.to_nat index.

Definition reclaim_temp_path (path : bytes) : bytes := path ++ str ".reclaim.tmp".

Definition sync_parent_directory {S E} `{FromIo E} : IO S E unit :=
  _ ← open_directory; sync_all_directory.

Definition truncate_crash_tail {S} (file : File) (valid_end : N) : IO S WalError File :=
  _ ← set_len file valid_end;
  _ ← sync_data file;
  seek_start file valid_end.

(** The loop over [file.read], which only ends early at the end of the file. *)
Definition read_up_to {S E} `{FromIo E} (file : File) (size : N) : IO S E (bytes * File) := read_bytes file size.

(** The state of the scan in [open]. *)
Record Scan := mkScan {
  sc_file : File;
  sc_records : list WalRecord;
  sc_offsets : list N;
  sc_tablet_id : option TabletId;
  sc_epoch : option N;
  sc_last_sequence : N;
}.

Definition set_scan_file (scan : Scan) (file : File) : Scan :=
  mkScan file (sc_records scan) (sc_offsets scan) (sc_tablet_id scan) (sc_epoch scan) (sc_last_sequence scan).

(** [tablet.replay_committed(...)] with its error as text. *)
Definition replay_record (tablet : MemoryTablet) (record : WalRecord) : result MemoryTablet WalError :=
  match MemoryTablet_replay_committed tablet (wr_sequence record) (wr_expected_previous_sequence record)
          (wr_mutations record) with
  | Ok tablet => Ok tablet
  | Err e => Err (WReplayRejected (wr_sequence record) (TabletError_to_string e))
  end.

Fixpoint replay_all (tablet : MemoryTablet) (records : list WalRecord) : result MemoryTablet WalError :=
  match records with
  | [] => Ok tablet
  | record :: records => let? tablet := replay_record tablet record in replay_all tablet records
  end.

(** The checks of identity and epoch shared by the two ways to recover. *)
Definition check_durable_owner (self : FileWal) (descriptor : TabletDescriptor) : result unit WalError :=
  let? _ := match fw_tablet_id self with
            | Some existing =>
                if negb (existing =? td_id descriptor)
                then Err (WTabletMismatch (td_id descriptor) existing) else Ok tt
            | None => Ok tt
            end in
  match fw_latest_ownership_epoch self with
  | Some durable_epoch =>
      if td_ownership_epoch descriptor <? durable_epoch
      then Err (WStaleOwnershipEpoch durable_epoch (td_ownership_epoch descriptor)) else Ok tt
  | None => Ok tt
  end.

Definition FileWal_recover_memory_tablet (self : FileWal) (descriptor : TabletDescriptor)
    : result MemoryTablet WalError :=
  let? _ := check_durable_owner self descriptor in
  if negb (fw_base_sequence self =? 0) then Err (WCheckpointRequired (fw_base_sequence self)) else
  replay_all (MemoryTablet_new descriptor) (fw_records self).

Definition FileWal_replay_after_checkpoint (self : FileWal) (tablet : MemoryTablet) : result MemoryTablet WalError :=
  if mt_current_sequence tablet <? fw_base_sequence self
  then Err (WCheckpointTooOld (mt_current_sequence tablet) (fw_base_sequence self)) else
  if FileWal_last_sequence self <? mt_current_sequence tablet
  then Err (WCheckpointAheadOfWal (mt_current_sequence tablet) (FileWal_last_sequence self)) else
  let? _ := check_durable_owner self (mt_descriptor tablet) in
  let checkpoint_sequence := mt_current_sequence tablet in
  replay_all tablet (filter (λ record, checkpoint_sequence < wr_sequence record) (fw_records self)).

Section wal.
Context (blake3 : bytes → bytes).
Context (record_to_vec : DiskWalRecord → result bytes bytes).
Context (record_from_slice : bytes → result DiskWalRecord bytes).

Definition encode_wal_header (base_sequence : N) (tablet_id : option TabletId) (ownership_epoch : option N) : bytes :=
  let prefix := WAL_MAGIC ++ to_le_bytes 8 base_sequence ++ to_le_bytes 8 (default 0 tablet_id)
                  ++ to_le_bytes 8 (default 0 ownership_epoch) in
  prefix ++ blake3 prefix.

Definition decode_wal_header (header : bytes) : result (N * option TabletId * option N) WalError :=
  if negb (bool_decide (slice header 0 8 = WAL_MAGIC)) then Err WInvalidHeader else
  let expected := blake3 (slice header 0 WAL_HEADER_PREFIX_BYTES) in
  if negb (bool_decide (slice header WAL_HEADER_PREFIX_BYTES (len header) = expected))
  then Err WWalHeaderChecksumMismatch else
  let base_sequence := from_le_bytes (slice header 8 16) in
  let tablet_raw := from_le_bytes (slice header 16 24) in
  let epoch_raw := from_le_bytes (slice header 24 32) in
  let? tablet_id := if tablet_raw =? 0 then Ok None
                    else match TabletId_new tablet_raw with
                         | Ok id => Ok (Some id)
                         | Err _ => Err WInvalidHeader
                         end in
  let ownership_epoch := if epoch_raw =? 0 then None else Some epoch_raw in
  if (0 <? base_sequence)
       && (match tablet_id with None => true | Some _ => false end
           || match ownership_epoch with None => true | Some _ => false end)
  then Err WInvalidHeader else
  Ok (base_sequence, tablet_id, ownership_epoch).

Definition encode_frame_header (payload_len : N) : bytes :=
  let prefix := WAL_FRAME_MAGIC ++ to_le_bytes 2 WAL_FRAME_VERSION ++ to_le_bytes 4 payload_len in
  prefix ++ blake3 prefix.

Definition decode_frame_header (header : bytes) (offset : N) : result N WalError :=
  if negb (bool_decide (slice header 0 4 = WAL_FRAME_MAGIC))
  then Err (WInvalidFrameHeader offset (str "record magic mismatch")) else
  let version := from_le_bytes (slice header 4 6) in
  if negb (version =? WAL_FRAME_VERSION) then Err (WUnsupportedFrameVersion offset version) else
  let expected_checksum := blake3 (slice header 0 WAL_FRAME_PREFIX_BYTES) in
  if negb (bool_decide (slice header WAL_FRAME_PREFIX_BYTES (len header) = expected_checksum))
  then Err (WHeaderChecksumMismatch offset) else
  let payload_len := from_le_bytes (slice header 6 10) in
  if MAX_WAL_RECORD_BYTES <? payload_len then Err (WRecordTooLarge offset payload_len) else
  Ok payload_len.

(** One round of the scan: [Err] is the scan at its end, [Ok] one record further. *)
Definition scan_record {S} (scan : Scan) : IO S WalError (result Scan Scan) :=
  record_start ← stream_position (sc_file scan);
  '(header, file) ← read_up_to (sc_file scan) WAL_FRAME_HEADER_BYTES;
  if len header =? 0 then mret (Err (set_scan_file scan file)) else
  if negb (len header =? WAL_FRAME_HEADER_BYTES) then
    file ← truncate_crash_tail file record_start; mret (Err (set_scan_file scan file))
  else
  payload_len ← io_result (decode_frame_header header record_start);
  '(payload, file) ← read_up_to file payload_len;
  if negb (len payload =? payload_len) then
    file ← truncate_crash_tail file record_start; mret (Err (set_scan_file scan file))
  else
  '(stored_checksum, file) ← read_up_to file 32;
  if negb (len stored_checksum =? 32) then
    file ← truncate_crash_tail file record_start; mret (Err (set_scan_file scan file))
  else
  if negb (bool_decide (stored_checksum = blake3 payload)) then io_fail (WChecksumMismatch record_start) else
  disk ← io_result match record_from_slice payload with
                   | Ok disk => Ok disk
                   | Err reason => Err (WInvalidRecord record_start reason)
                   end;
  record ← io_result (WalRecord_from_disk disk record_start);
  _ ← io_result (validate_record_chain record (sc_tablet_id scan) (sc_epoch scan) (sc_last_sequence scan)
                   record_start);
  record_end ← stream_position file;
  mret (Ok (mkScan file (sc_records scan ++ [record]) (sc_offsets scan ++ [record_end])
              (Some (wr_tablet_id record)) (Some (wr_ownership_epoch record)) (wr_sequence record))).

Fixpoint scan_records {S} (fuel : nat) (scan : Scan) : IO S WalError Scan :=
  match fuel with
  | O => io_diverge
  | Datatypes.S fuel =>
      r ← scan_record scan;
      match r with Ok scan => scan_records fuel scan | Err scan => mret scan end
  end.

(** A bound on the rounds: each record takes a byte at least. *)
Definition scan_bound {S} (file : File) : IO S WalError nat := λ s w,
  Some (Ok (Datatypes.S (length (fd_bytes (file_at (w_fs w) (fh_inode file))))), s, w).

(** The part of [open] behind the creation of the file. *)
Definition load_wal {S} (path : bytes) (file : File) : IO S WalError FileWal :=
  file ← seek_start file 0;
  '(wal_header, file) ← read_up_to file WAL_HEADER_BYTES;
  if negb (len wal_header =? WAL_HEADER_BYTES) then io_fail WInvalidHeader else
  '(base_sequence, tablet_id, latest_ownership_epoch) ← io_result (decode_wal_header wal_header);
  file ← seek_start file WAL_HEADER_BYTES;
  fuel ← scan_bound file;
  scan ← scan_records fuel (mkScan file [] [] tablet_id latest_ownership_epoch base_sequence);
  file ← seek_end (sc_file scan);
  mret (mkWal path file (sc_records scan) (sc_offsets scan) base_sequence (sc_tablet_id scan) (sc_epoch scan) false).

Definition FileWal_open {S} (path : bytes) : IO S WalError FileWal :=
  _ ← create_dir_all;
  file_existed ← path_exists path;
  file ← open_create false path;
  size ← metadata_len file;
  file ← (if (size =? 0) then
            file ← write_all file (encode_wal_header 0 None None);
            _ ← sync_data file;
            _ ← (if (file_existed : bool) then mret tt else sync_parent_directory);
            mret file
          else mret file);
  load_wal path file.

Definition FileWal_reclaim_through (base_sequence : N) : IO FileWal WalError unit :=
  self ← io_get;
  if fw_poisoned self then io_fail WPoisoned else
  let current := FileWal_last_sequence self in
  if negb (base_sequence =? current) then io_fail (WInvalidReclaimSequence current base_sequence) else
  _ ← io_put (set_poisoned self);
  let temp := reclaim_temp_path (fw_path self) in
  replacement ← open_create true temp;
  let header := encode_wal_header base_sequence (fw_tablet_id self) (fw_latest_ownership_epoch self) in
  replacement ← write_all replacement header;
  _ ← sync_data replacement;
  _ ← rename temp (fw_path self);
  _ ← sync_parent_directory;
  reopened ← FileWal_open (fw_path self);
  io_put reopened.

(** The checks of [append_write] before it touches the file. *)
Definition check_append {S} (self : FileWal) (record : WalRecord) : IO S WalError unit :=
  let last_sequence := FileWal_last_sequence self in
  if negb (wr_expected_previous_sequence record =? last_sequence)
  then io_fail (WSequenceMismatch last_sequence (wr_expected_previous_sequence record)) else
  expected_sequence ← io_result (ok_or (checked_add64 last_sequence 1) WSequenceOverflow);
  if negb (wr_sequence record =? expected_sequence) then
    offset ← stream_position (fw_file self);
    io_fail (WInvalidRecord offset (does_not_follow (wr_sequence record) last_sequence))
  else
  _ ← io_result match fw_tablet_id self with
                | Some existing =>
                    if negb (wr_tablet_id record =? existing)
                    then Err (WTabletMismatch existing (wr_tablet_id record)) else Ok tt
                | None => Ok tt
                end;
  io_result match fw_latest_ownership_epoch self with
            | Some durable_epoch =>
                if wr_ownership_epoch record <? durable_epoch
                then Err (WStaleOwnershipEpoch durable_epoch (wr_ownership_epoch record)) else Ok tt
            | None => Ok tt
            end.

Definition FileWal_append_write (write : TabletWrite) : IO FileWal WalError unit :=
  self ← io_get;
  if fw_poisoned self then io_fail WPoisoned else
  let record := WalRecord_from_write write in
  _ ← check_append self record;
  payload ← io_result match record_to_vec (WalRecord_to_disk record) with
                      | Ok payload => Ok payload
                      | Err message => Err (WSerialization message)
                      end;
  if MAX_WAL_RECORD_BYTES <? len payload then
    offset ← stream_position (fw_file self); io_fail (WRecordTooLarge offset (len payload))
  else
  if U32 <=? len payload then
    offset ← io_unwrap_or 0 (stream_position (fw_file self)); io_fail (WRecordTooLarge offset (len payload))
  else
  let header := encode_frame_header (len payload) in
  file ← seek_end (fw_file self);
  _ ← io_put (set_poisoned (set_wal_file self file));
  file ← write_all file header;
  file ← write_all file payload;
  file ← write_all file (blake3 payload);
  _ ← sync_data file;
  stop ← stream_position file;
  io_put (mkWal (fw_path self) file (fw_records self ++ [record]) (fw_record_end_offsets self ++ [stop])
            (fw_base_sequence self) (Some (wr_tablet_id record)) (Some (wr_ownership_epoch record)) false).

End wal.
