(* ===== verification/TabletLog.v ===== *)
(** * What a log file holds

    The bytes of a log that has been written by the code of [TabletWal], and that
    opening it finds its records: all frames that are complete, with an
    incomplete last frame cut off. *)
From Stdlib Require Import String.
From S2P Require Import Prelude Bytes Text Tablet FileSystem TabletWal.

Local Open Scope list_scope.
Local Open Scope N_scope.

(** ** Fields *)

#[global] Opaque to_le_bytes.

(** A slice that is one of the fields a buffer is made of. *)
Lemma slice_mid {A} (pre mid suf bs : list A) start stop :
  bs = pre ++ mid ++ suf → start = len pre → stop = start + len mid → slice bs start stop = mid.
Proof. intros -> -> ->. by apply slice_app. Qed.

(** The bytes a read finds between the fields before and after them. *)
Lemma read_mid {A} (pre mid suf bs : list A) n pos :
  bs = pre ++ mid ++ suf → pos = len pre → n = len mid → take (N.to_nat n) (drop (N.to_nat pos) bs) = mid.
Proof.
  intros -> -> ->. unfold len. rewrite !Nat2N.id, drop_app_length. apply take_app_length.
Qed.

(** The bytes a read finds when the file ends before the buffer is full. *)
Lemma read_short {A} (pre mid bs : list A) n pos :
  bs = pre ++ mid → pos = len pre → len mid ≤ n → take (N.to_nat n) (drop (N.to_nat pos) bs) = mid.
Proof.
  intros -> -> Hn. unfold len in *. rewrite Nat2N.id, drop_app_length. apply take_ge. lia.
Qed.

(** The place in a frame where a prefix of it ends. *)
Lemma prefix_cases {A} (h p c t u : list A) :
  h ++ p ++ c = t ++ u → u ≠ [] →
  (length t < length h)%nat ∨
  (∃ t1, t = h ++ t1 ∧ (length t1 < length p)%nat) ∨
  (∃ t1, t = h ++ p ++ t1 ∧ (length t1 < length c)%nat).
Proof.
  intros Heq Hu. apply (f_equal length) in Heq as Hl. rewrite !length_app in Hl.
  assert (length u ≠ 0%nat) by (destruct u; done).
  destruct (decide (length t < length h)%nat) as [|Hh]; [by left|right].
  assert (t = take (length t) (h ++ p ++ c)) as Ht by (rewrite Heq; by rewrite take_app_length).
  rewrite take_app_ge in Ht by lia. destruct (decide (length t - length h < length p)%nat) as [Hp|Hp].
  - left. eexists. split; [exact Ht|]. rewrite length_take, length_app. lia.
  - right. rewrite take_app_ge in Ht by lia. eexists. split; [exact Ht|]. rewrite length_take. lia.
Qed.

Section log.
Context (blake3 : bytes → bytes) (Hblake3 : ∀ bs, len (blake3 bs) = 32).
Context (record_to_vec : DiskWalRecord → result bytes bytes).
Context (record_from_slice : bytes → result DiskWalRecord bytes).
Context (Hrecord : ∀ r p, record_to_vec r = Ok p → record_from_slice p = Ok r).
Context (id : TabletId) (Hid : 0 < id < U64) (range : KeyRange).

(** ** Headers *)

Lemma len_encode_wal_header b t e : len (encode_wal_header blake3 b t e) = WAL_HEADER_BYTES.
Proof.
  unfold encode_wal_header. autorewrite with nula. rewrite Hblake3. reflexivity.
Qed.

Lemma decode_encode_wal_header b t e :
  b < U64 → (∀ v, t = Some v → 0 < v < U64) → (∀ v, e = Some v → 0 < v < U64) →
  (0 < b → is_Some t ∧ is_Some e) →
  decode_wal_header blake3 (encode_wal_header blake3 b t e) = Ok (b, t, e).
Proof.
  intros Hb Ht He Hsome. unfold decode_wal_header. rewrite len_encode_wal_header.
  unfold encode_wal_header. set (prefix := WAL_MAGIC ++ _).
  assert (len prefix = 32) as Hlen by (unfold prefix; by autorewrite with nula).
  rewrite (slice_mid [] WAL_MAGIC (drop 8 (prefix ++ blake3 prefix)) _ 0 8) by done.
  rewrite bool_decide_eq_true_2 by done. cbn [negb].
  rewrite (slice_mid [] prefix (blake3 prefix) _ 0 WAL_HEADER_PREFIX_BYTES) by (done || by rewrite Hlen).
  rewrite (slice_mid prefix (blake3 prefix) [] _ WAL_HEADER_PREFIX_BYTES WAL_HEADER_BYTES) by (by rewrite ?(right_id_L [] (++)), ?Hlen, ?Hblake3).
  rewrite bool_decide_eq_true_2 by done. cbn [negb].
  unfold prefix. rewrite <-!(assoc_L (++)).
  rewrite (slice_mid WAL_MAGIC (to_le_bytes 8 b) (to_le_bytes 8 (default 0 t) ++ to_le_bytes 8 (default 0 e) ++ blake3 prefix) _ 8 16)
    by (by rewrite ?len_to_le_bytes).
  rewrite (slice_mid (WAL_MAGIC ++ to_le_bytes 8 b) (to_le_bytes 8 (default 0 t)) (to_le_bytes 8 (default 0 e) ++ blake3 prefix) _ 16 24)
    by (by rewrite <-?(assoc_L (++)), ?len_app, ?len_to_le_bytes).
  rewrite (slice_mid (WAL_MAGIC ++ to_le_bytes 8 b ++ to_le_bytes 8 (default 0 t)) (to_le_bytes 8 (default 0 e)) (blake3 prefix) _ 24 32)
    by (by rewrite <-?(assoc_L (++)), ?len_app, ?len_to_le_bytes).
  assert (default 0 t < U64) by (destruct t; [by apply Ht|done]).
  assert (default 0 e < U64) by (destruct e; [by apply He|done]).
  rewrite !from_to_le_bytes by done.
  assert ((if default 0 t =? 0 then Ok None
           else match TabletId_new (default 0 t) with Ok i => Ok (Some i) | Err _ => Err WInvalidHeader end)
          = (Ok t : result _ WalError)) as ->.
  { destruct t as [v|]; [|done]. destruct (Ht v eq_refl) as [Hv _]. unfold TabletId_new. simpl.
    by rewrite (proj2 (N.eqb_neq v 0)) by lia. }
  cbn [res_bind].
  assert ((if default 0 e =? 0 then None else Some (default 0 e)) = e) as ->.
  { destruct e as [v|]; [|done]. destruct (He v eq_refl) as [Hv _]. simpl.
    by rewrite (proj2 (N.eqb_neq v 0)) by lia. }
  destruct (N.ltb_spec 0 b) as [Hpos|]; [|done]. destruct (Hsome Hpos) as [[? ->] [? ->]]. done.
Qed.

Lemma len_encode_frame_header n : len (encode_frame_header blake3 n) = WAL_FRAME_HEADER_BYTES.
Proof. unfold encode_frame_header. autorewrite with nula. rewrite Hblake3. reflexivity. Qed.

Lemma decode_encode_frame_header n offset :
  n ≤ MAX_WAL_RECORD_BYTES → decode_frame_header blake3 (encode_frame_header blake3 n) offset = Ok n.
Proof.
  intros Hn. unfold decode_frame_header. rewrite len_encode_frame_header.
  unfold encode_frame_header. set (prefix := WAL_FRAME_MAGIC ++ _).
  assert (len prefix = 10) as Hlen by (unfold prefix; by autorewrite with nula).
  rewrite (slice_mid [] WAL_FRAME_MAGIC (drop 4 (prefix ++ blake3 prefix)) _ 0 4) by done.
  rewrite bool_decide_eq_true_2 by done. cbn [negb].
  rewrite (slice_mid [] prefix (blake3 prefix) _ 0 WAL_FRAME_PREFIX_BYTES) by (done || by rewrite Hlen).
  rewrite (slice_mid prefix (blake3 prefix) [] _ WAL_FRAME_PREFIX_BYTES WAL_FRAME_HEADER_BYTES) by (by rewrite ?(right_id_L [] (++)), ?Hlen, ?Hblake3).
  rewrite bool_decide_eq_true_2 by done. cbn [negb].
  unfold prefix. rewrite <-!(assoc_L (++)).
  rewrite (slice_mid WAL_FRAME_MAGIC (to_le_bytes 2 WAL_FRAME_VERSION) (to_le_bytes 4 n ++ blake3 prefix) _ 4 6)
    by (by rewrite ?len_to_le_bytes).
  rewrite (slice_mid (WAL_FRAME_MAGIC ++ to_le_bytes 2 WAL_FRAME_VERSION) (to_le_bytes 4 n) (blake3 prefix) _ 6 10)
    by (by rewrite <-?(assoc_L (++)), ?len_app, ?len_to_le_bytes).
  rewrite !from_to_le_bytes by (unfold MAX_WAL_RECORD_BYTES, WAL_FRAME_VERSION in *; cbn; lia).
  rewrite N.eqb_refl. cbn [negb]. by apply N.ltb_ge in Hn as ->.
Qed.
(** ** Records of a tablet *)

Definition payload (r : WalRecord) : bytes :=
  match record_to_vec (WalRecord_to_disk r) with Ok p => p | Err _ => [] end.

Definition frame (r : WalRecord) : bytes :=
  encode_frame_header blake3 (len (payload r)) ++ payload r ++ blake3 (payload r).

Definition last_epoch (R : list WalRecord) : option N := wr_ownership_epoch <$> last R.
Definition tablet_of (R : list WalRecord) : option TabletId := match R with [] => None | _ => Some id end.

(** [r] may follow the records [R]. *)
Record record_ok (R : list WalRecord) (r : WalRecord) : Prop := {
  ro_id : wr_tablet_id r = id;
  ro_epoch : 0 < wr_ownership_epoch r < U64;
  ro_newer : ∀ e, last_epoch R = Some e → e ≤ wr_ownership_epoch r;
  ro_previous : wr_expected_previous_sequence r = len R;
  ro_sequence : wr_sequence r = len R + 1;
  ro_bound : len R + 1 < U64;
  ro_payload : record_to_vec (WalRecord_to_disk r) = Ok (payload r);
  ro_size : len (payload r) ≤ MAX_WAL_RECORD_BYTES;
  ro_range : Forall (λ m, KeyRange_contains range (TabletMutation_key m) = true) (wr_mutations r);
  ro_keys : distinct_keys (wr_mutations r);
}.

Inductive log_ok : list WalRecord → Prop :=
| log_nil : log_ok []
| log_snoc R r : log_ok R → record_ok R r → log_ok (R ++ [r]).

Lemma log_ok_snoc R r : log_ok (R ++ [r]) → log_ok R ∧ record_ok R r.
Proof. inversion 1 as [|R' r' HR Hr Heq]; [by destruct R|]. by apply app_inj_tail in Heq as [-> ->]. Qed.

Lemma log_ok_app P S : log_ok (P ++ S) → log_ok P.
Proof.
  induction S as [|r S IH] using rev_ind; [by rewrite (right_id_L [] (++))|].
  rewrite (assoc_L (++)). intros [? _]%log_ok_snoc. auto.
Qed.

Lemma log_ok_split P r S : log_ok (P ++ r :: S) → record_ok P r.
Proof. rewrite (cons_middle r P S), (assoc_L (++)). intros [_ ?]%log_ok_app%log_ok_snoc. done. Qed.

Lemma log_ok_len R : log_ok R → len R < U64.
Proof. destruct 1 as [|R r _ Hr]; [done|]. autorewrite with nula. destruct Hr. lia. Qed.

Lemma last_epoch_snoc R r : last_epoch (R ++ [r]) = Some (wr_ownership_epoch r).
Proof. unfold last_epoch. by rewrite last_snoc. Qed.
Lemma tablet_of_snoc R r : tablet_of (R ++ [r]) = Some id.
Proof. by destruct R. Qed.

Lemma last_epoch_bound R e : log_ok R → last_epoch R = Some e → 0 < e < U64.
Proof. destruct 1 as [|R r _ Hr]; [done|]. rewrite last_epoch_snoc. intros [= <-]. apply Hr. Qed.

Lemma validate_chain_ok R r offset :
  record_ok R r → validate_record_chain r (tablet_of R) (last_epoch R) (len R) offset = Ok tt.
Proof.
  intros Hr. unfold validate_record_chain.
  assert (match tablet_of R with
          | Some expected => if negb (wr_tablet_id r =? expected) then Err (WTabletMismatch expected (wr_tablet_id r)) else Ok tt
          | None => Ok tt end = Ok tt) as ->.
  { destruct R; [done|]. cbn. by rewrite (ro_id _ _ Hr), N.eqb_refl. }
  cbn [res_bind]. destruct (last_epoch R) as [e|] eqn:He; cbn [res_bind].
  - pose proof (ro_newer _ _ Hr e He) as Hle. apply N.ltb_ge in Hle. rewrite Hle. cbn [res_bind].
    rewrite (ro_previous _ _ Hr), N.eqb_refl. cbn [negb].
    rewrite checked_add64_Some by apply Hr. cbn. by rewrite (ro_sequence _ _ Hr), N.eqb_refl.
  - rewrite (ro_previous _ _ Hr), N.eqb_refl. cbn [negb].
    rewrite checked_add64_Some by apply Hr. cbn. by rewrite (ro_sequence _ _ Hr), N.eqb_refl.
Qed.

Lemma from_to_disk R r offset : record_ok R r → WalRecord_from_disk (WalRecord_to_disk r) offset = Ok r.
Proof.
  intros Hr. destruct (ro_epoch _ _ Hr) as [He _]. unfold WalRecord_from_disk. cbn.
  unfold TabletId_new. rewrite (ro_id _ _ Hr), !(proj2 (N.eqb_neq _ 0)) by lia. cbn.
  rewrite <-(ro_id _ _ Hr). by destruct r.
Qed.

(** ** The scan *)

(** The state of the scan behind the records [P], [b] of them reclaimed. *)
Definition scan_at (b : nat) (file : File) (offsets : list N) (P : list WalRecord) : Scan :=
  mkScan file (drop b P) offsets (tablet_of P) (last_epoch P) (len P).

(** Reading from a known place of a file. *)
Lemma spec_read {S A} q (s : S) fs (file : File) size (k : bytes * File → IO S WalError A) data Q :
  take (N.to_nat size) (drop (N.to_nat (fh_pos file)) (fd_bytes (file_at fs (fh_inode file)))) = data →
  (∀ e, ¬ q → Q (Err e) s fs) →
  spec q s fs (k (data, mkHandle (fh_inode file) (fh_pos file + len data))) Q →
  spec q s fs (read_up_to file size ≫= k) Q.
Proof.
  intros <- Hbad Hgood. unfold read_up_to, read_bytes. io_call; [auto|]. exact Hgood.
Qed.

Lemma scan_record_frame {S} q (s : S) fs i b offsets pre R r rest :
  fd_bytes (file_at fs i) = pre ++ frame r ++ rest → record_ok R r → (b ≤ length R)%nat →
  spec q s fs (scan_record blake3 record_from_slice (scan_at b (mkHandle i (len pre)) offsets R))
    (λ res s' fs', s' = s ∧ fs' = fs ∧
      match res with
      | Ok v => ∃ offsets', v = Ok (scan_at b (mkHandle i (len (pre ++ frame r))) offsets' (R ++ [r]))
      | Err _ => ¬ q
      end).
Proof.
  intros Hbytes Hr Hb. unfold scan_record. cbn [sc_file scan_at].
  set (H := encode_frame_header blake3 (len (payload r))).
  assert (len H = WAL_FRAME_HEADER_BYTES) as HlenH by apply len_encode_frame_header.
  unfold frame in Hbytes. fold H in Hbytes. rewrite <-!(assoc_L (++)) in Hbytes.
  io_call; [auto|].
  apply (spec_read _ _ _ _ _ _ H); [by apply (read_mid pre H (payload r ++ blake3 (payload r) ++ rest))|auto|].
  cbn [fh_inode fh_pos]. rewrite HlenH. cbn [N.eqb negb WAL_FRAME_HEADER_BYTES WAL_FRAME_PREFIX_BYTES].
  unfold WAL_FRAME_HEADER_BYTES, WAL_FRAME_PREFIX_BYTES in *. cbn [N.add Pos.add Pos.succ N.eqb Pos.eqb negb].
  apply spec_bind, spec_result. unfold H at 1. rewrite decode_encode_frame_header by apply Hr. cbn beta iota.
  apply (spec_read _ _ _ _ _ _ (payload r)).
  { cbn [fh_inode fh_pos]. apply (read_mid (pre ++ H) (payload r) (blake3 (payload r) ++ rest)); [|by autorewrite with nula; rewrite HlenH|done].
    by rewrite <-(assoc_L (++)). }
  { auto. }
  cbn [fh_inode fh_pos]. rewrite N.eqb_refl. cbn [negb].
  apply (spec_read _ _ _ _ _ _ (blake3 (payload r))).
  { cbn [fh_inode fh_pos]. apply (read_mid (pre ++ H ++ payload r) (blake3 (payload r)) rest);
      [by rewrite <-!(assoc_L (++))|autorewrite with nula; rewrite HlenH; lia|by rewrite Hblake3]. }
  { auto. }
  cbn [fh_inode fh_pos]. rewrite Hblake3. cbn [N.eqb Pos.eqb negb].
  rewrite bool_decide_eq_true_2 by done. cbn [negb].
  apply spec_bind, spec_result. rewrite (Hrecord _ _ (ro_payload _ _ Hr)).
  apply spec_bind, spec_result. rewrite (from_to_disk _ _ _ Hr).
  apply spec_bind, spec_result. cbn [sc_tablet_id sc_epoch sc_last_sequence sc_records sc_offsets].
  rewrite (validate_chain_ok _ _ _ Hr).
  io_call; [auto|]. apply spec_ret. split_and!; [done..|]. eexists. f_equal. unfold scan_at. f_equal.
  - f_equal. unfold frame. fold H. autorewrite with nula. rewrite Hblake3, HlenH. lia.
  - by rewrite drop_app_le.
  - by rewrite tablet_of_snoc, (ro_id _ _ Hr).
  - by rewrite last_epoch_snoc.
  - autorewrite with nula. rewrite (ro_sequence _ _ Hr). lia.
Qed.

(** The disk while a tail behind [pre] is cut off the file [i]. *)
Inductive cutting (fs : FS) (i : nat) (pre : bytes) : FS → Prop :=
| cut_not : cutting fs i pre fs
| cut_unsynced : cutting fs i pre (put_file fs i (mkFile pre (fd_synced (file_at fs i))))
| cut_done : cutting fs i pre (put_file fs i (mkFile pre pre)).

Lemma spec_truncate {S} q (s : S) fs i pos pre t (k : File → IO S WalError (result Scan Scan)) Q :
  (i < length (fs_files fs))%nat → fd_bytes (file_at fs i) = pre ++ t →
  (∀ e fs', ¬ q → cutting fs i pre fs' → Q (Err e) s fs') →
  (∀ file, fh_inode file = i → spec q s (put_file fs i (mkFile pre pre)) (k file) Q) →
  spec q s fs (truncate_crash_tail (mkHandle i pos) (len pre) ≫= k) Q.
Proof.
  intros Hi Hbytes Hbad Hgood. apply spec_bind. unfold truncate_crash_tail, set_len, sync_data, seek_start.
  io_call; [intros; apply Hbad; [done|constructor]|].
  cbn [fh_inode]. rewrite Hbytes. unfold len. rewrite Nat2N.id, take_app_length.
  replace (length pre - length (pre ++ t))%nat with 0%nat by (rewrite length_app; lia).
  cbn [replicate]. rewrite (right_id_L [] (++)).
  io_call; [intros; apply Hbad; [done|constructor]|].
  rewrite file_at_put by done. cbn [fd_bytes]. rewrite put_put.
  apply spec_call; [intros; apply Hbad; [done|constructor]|]. cbn. by apply Hgood.
Qed.

(** How a round of the scan ends at an incomplete frame [t] behind [pre]. *)
Definition scan_ends {S} (q : Prop) (s : S) (fs : FS) (i b : nat) (offsets : list N) (pre : bytes) (R : list WalRecord)
    (t : bytes) (res : result (result Scan Scan) WalError) (s' : S) (fs' : FS) : Prop :=
  s' = s ∧
  match res with
  | Ok v => ∃ file, fh_inode file = i ∧ v = Err (scan_at b file offsets R) ∧
      fs' = match t with [] => fs | _ => put_file fs i (mkFile pre pre) end
  | Err _ => ¬ q ∧ cutting fs i pre fs'
  end.

Lemma scan_cut {S} q (s : S) fs i pos b offsets pre R t (old : File) :
  (i < length (fs_files fs))%nat → fd_bytes (file_at fs i) = pre ++ t → t ≠ [] →
  spec q s fs (file ← truncate_crash_tail (mkHandle i pos) (len pre);
               mret (Err (set_scan_file (scan_at b old offsets R) file)))
    (scan_ends q s fs i b offsets pre R t).
Proof.
  intros Hi Hbytes Ht. apply (spec_truncate _ _ _ _ _ _ t); [done..|intros; by split_and!|].
  intros file' Hfile. apply spec_ret. split; [done|]. exists file'. split_and!; [done..|]. by destruct t.
Qed.

(** At the end of the complete frames, with an incomplete one behind. *)
Lemma scan_record_tail {S} q (s : S) fs i b offsets pre R r t u :
  (i < length (fs_files fs))%nat → fd_bytes (file_at fs i) = pre ++ t → frame r = t ++ u → u ≠ [] →
  len (payload r) ≤ MAX_WAL_RECORD_BYTES →
  spec q s fs (scan_record blake3 record_from_slice (scan_at b (mkHandle i (len pre)) offsets R))
    (scan_ends q s fs i b offsets pre R t).
Proof.
  intros Hi Hbytes Hframe Hu Hsize. unfold scan_record. cbn [sc_file scan_at].
  assert (¬ q → s = s ∧ ¬ q ∧ cutting fs i pre fs) as Herr by (intros; split_and!; [done..|constructor]).
  io_call; [auto|].
  set (H := encode_frame_header blake3 (len (payload r))) in *.
  assert (WAL_FRAME_HEADER_BYTES = len H) as -> by (symmetry; apply len_encode_frame_header).
  unfold frame in Hframe. fold H in Hframe.
  destruct (prefix_cases _ _ _ _ _ Hframe Hu) as [Hshort|[(t1 & -> & Hshort)|(t1 & -> & Hshort)]]; clear Hframe.
  { apply (spec_read _ _ _ _ _ _ t); [cbn [fh_inode fh_pos]; apply (read_short pre t); [done..|unfold len; lia]|auto|].
    destruct (N.eqb_spec (len t) 0) as [Ht0|Ht0].
    { apply spec_ret. destruct t; [|done]. split; [done|]. by exists (mkHandle i (len pre + 0)). }
    destruct (N.eqb_spec (len t) (len H)) as [Ht1|Ht1]; [unfold len in *; lia|].
    apply scan_cut; [done..|by intros ->]. }
  all: apply (spec_read _ _ _ _ _ _ H);
    [cbn [fh_inode fh_pos]; eapply (read_mid pre H); [by rewrite Hbytes|done..]|auto|].
  all: cbn [fh_inode fh_pos]; destruct (N.eqb_spec (len H) 0) as [HH|HH];
    [unfold H in HH; by rewrite len_encode_frame_header in HH|]; rewrite N.eqb_refl; cbn [negb].
  all: apply spec_bind, spec_result; unfold H at 1; rewrite decode_encode_frame_header by done; cbn beta iota.
  - apply (spec_read _ _ _ _ _ _ t1).
    { cbn [fh_inode fh_pos]. apply (read_short (pre ++ H) t1); [by rewrite <-(assoc_L (++))|by autorewrite with nula|unfold len; lia]. }
    { auto. }
    destruct (N.eqb_spec (len t1) (len (payload r))); [unfold len in *; lia|].
    apply scan_cut; [done..|]. destruct H; [done|done].
  - apply (spec_read _ _ _ _ _ _ (payload r)).
    { cbn [fh_inode fh_pos]. apply (read_mid (pre ++ H) (payload r) t1); [by rewrite <-(assoc_L (++))|by autorewrite with nula|done]. }
    { auto. }
    rewrite N.eqb_refl. cbn [negb fh_inode fh_pos].
    apply (spec_read _ _ _ _ _ _ t1).
    { cbn [fh_inode fh_pos]. apply (read_short (pre ++ H ++ payload r) t1); [by rewrite <-!(assoc_L (++))| |].
      - autorewrite with nula. lia.
      - specialize (Hblake3 (payload r)). unfold len in *. lia. }
    { auto. }
    destruct (N.eqb_spec (len t1) 32); [specialize (Hblake3 (payload r)); unfold len in *; lia|].
    apply scan_cut; [done..|]. destruct H; [done|done].
Qed.

Lemma scan_record_eof {S} q (s : S) fs i b offsets pre R :
  fd_bytes (file_at fs i) = pre →
  spec q s fs (scan_record blake3 record_from_slice (scan_at b (mkHandle i (len pre)) offsets R))
    (scan_ends q s fs i b offsets pre R []).
Proof.
  intros Hbytes. unfold scan_record. cbn [sc_file scan_at].
  assert (¬ q → s = s ∧ ¬ q ∧ cutting fs i pre fs) as Herr by (intros; split_and!; [done..|constructor]).
  io_call; [auto|]. apply (spec_read _ _ _ _ _ _ []); [|auto|].
  { apply (read_short pre); [by rewrite (right_id_L [] (++))|done|done]. }
  apply spec_ret. split; [done|]. by exists (mkHandle i (len pre + 0)).
Qed.

(** What a crash can leave of a frame, but for all of it. *)
Definition torn (t : bytes) : Prop :=
  t = [] ∨ ∃ r u, frame r = t ++ u ∧ u ≠ [] ∧ len (payload r) ≤ MAX_WAL_RECORD_BYTES.

Definition frames (R : list WalRecord) : bytes := mjoin (frame <$> R).

Lemma wal_frames_cons r R : frames (r :: R) = frame r ++ frames R.
Proof. done. Qed.

(** The disk after the scan: an incomplete frame [t] is gone. *)
Definition cut_to (fs : FS) (i : nat) (t c : bytes) : FS :=
  match t with [] => fs | _ => put_file fs i (mkFile c c) end.

Lemma cutting_cut_to fs i t c : cutting fs i c (cut_to fs i t c).
Proof. destruct t; constructor. Qed.

Lemma scan_records_ok {S} q (s : S) fs i b t T P pre offsets fuel :
  (i < length (fs_files fs))%nat → log_ok (P ++ T) → (b ≤ length P)%nat → torn t → (length T < fuel)%nat →
  fd_bytes (file_at fs i) = pre ++ frames T ++ t →
  spec q s fs (scan_records blake3 record_from_slice fuel (scan_at b (mkHandle i (len pre)) offsets P))
    (λ res s' fs', s' = s ∧
      match res with
      | Ok scan => ∃ file offsets', fh_inode file = i ∧ scan = scan_at b file offsets' (P ++ T) ∧
          fs' = cut_to fs i t (pre ++ frames T)
      | Err _ => ¬ q ∧ cutting fs i (pre ++ frames T) fs'
      end).
Proof.
  intros Hi. revert P pre offsets fuel. induction T as [|r T IH]; intros P pre offsets [|fuel] Hlog Hb Ht Hfuel Hbytes;
    try (cbn in Hfuel; lia).
  - cbn [scan_records]. apply spec_bind. unfold frames in *. cbn in *. rewrite !(right_id_L [] (++)).
    eapply spec_mono.
    + destruct Ht as [->|(r & u & Hr & Hu & Hsize)].
      * rewrite (right_id_L [] (++)) in Hbytes. by apply scan_record_eof.
      * by apply (scan_record_tail _ _ _ _ _ _ _ _ r t u).
    + intros res s' fs' [-> Hres]. destruct res as [v|e]; [|by destruct Hres].
      destruct Hres as (file & Hfile & -> & ->). apply spec_ret. split; [done|]. by exists file, offsets.
  - cbn [scan_records]. apply spec_bind. eapply spec_mono.
    + apply (scan_record_frame _ _ _ _ _ _ pre P r (frames T ++ t)); [|by eapply log_ok_split|done].
      by rewrite Hbytes, wal_frames_cons, <-!(assoc_L (++)).
    + intros res s' fs' (-> & -> & Hres). destruct res as [v|e]; [|].
      * destruct Hres as (offsets' & ->).
        assert (P ++ r :: T = (P ++ [r]) ++ T) as Hsplit by (by rewrite <-(assoc_L (++))).
        assert (pre ++ frames (r :: T) = (pre ++ frame r) ++ frames T) as Hpre
          by (by rewrite wal_frames_cons, (assoc_L (++))).
        rewrite Hsplit in *. rewrite Hpre. apply IH; [done|rewrite length_app; lia|done|cbn in Hfuel; lia|].
        by rewrite Hbytes, (assoc_L (++)), Hpre, <-!(assoc_L (++)).
      * split_and!; [done..|constructor].
Qed.

(** ** Opening a log *)

(** The bytes of a log of the records [R], the first [b] of them reclaimed. *)
Definition wal_bytes (b : nat) (R : list WalRecord) : bytes :=
  encode_wal_header blake3 (N.of_nat b) (tablet_of (take b R)) (last_epoch (take b R)) ++ frames (drop b R).

Definition wal_at (path : bytes) (file : File) (offsets : list N) (b : nat) (R : list WalRecord) : FileWal :=
  mkWal path file (drop b R) offsets (N.of_nat b) (tablet_of R) (last_epoch R) false.

Lemma decode_header_ok b R :
  log_ok R → (b ≤ length R)%nat →
  decode_wal_header blake3 (encode_wal_header blake3 (N.of_nat b) (tablet_of (take b R)) (last_epoch (take b R)))
    = Ok (N.of_nat b, tablet_of (take b R), last_epoch (take b R)).
Proof.
  intros HR Hb. pose proof (log_ok_len _ HR) as Hlen.
  assert (log_ok (take b R)) as Htake by (apply (log_ok_app _ (drop b R)); by rewrite take_drop).
  apply decode_encode_wal_header.
  - unfold len in Hlen. lia.
  - intros v. destruct (take b R); [done|]. cbn. by intros [= <-].
  - intros e. by apply last_epoch_bound.
  - intros Hpos. destruct (take b R) as [|r T _] eqn:HT using rev_ind.
    + apply (f_equal length) in HT. rewrite length_take in HT. cbn in HT. lia.
    + rewrite tablet_of_snoc, last_epoch_snoc. done.
Qed.

Lemma length_frames R : (length R ≤ length (frames R))%nat.
Proof.
  induction R as [|r R IH]; [cbn; lia|]. rewrite wal_frames_cons, length_app. cbn [length].
  assert (len (frame r) ≠ 0).
  { unfold frame. autorewrite with nula. rewrite len_encode_frame_header. unfold WAL_FRAME_HEADER_BYTES. lia. }
  unfold len in *. lia.
Qed.

(** How opening a log ends: with its records, an incomplete frame [t] cut off. *)
Definition opened {S} (q : Prop) (s : S) (fs : FS) (path : bytes) (i b : nat) (R : list WalRecord) (t : bytes)
    (res : result FileWal WalError) (s' : S) (fs' : FS) : Prop :=
  s' = s ∧
  match res with
  | Ok wal => ∃ file offsets, fh_inode file = i ∧ wal = wal_at path file offsets b R ∧
      fs' = cut_to fs i t (wal_bytes b R)
  | Err _ => ¬ q ∧ cutting fs i (wal_bytes b R) fs'
  end.

Lemma load_wal_ok {S} q (s : S) fs path i pos b R t :
  (i < length (fs_files fs))%nat → log_ok R → (b ≤ length R)%nat → torn t →
  fd_bytes (file_at fs i) = wal_bytes b R ++ t →
  spec q s fs (load_wal blake3 record_from_slice path (mkHandle i pos)) (opened q s fs path i b R t).
Proof.
  intros Hi HR Hb Ht Hbytes. unfold load_wal.
  assert (¬ q → s = s ∧ ¬ q ∧ cutting fs i (wal_bytes b R) fs) as Herr by (intros; split_and!; [done..|constructor]).
  set (H := encode_wal_header blake3 (N.of_nat b) (tablet_of (take b R)) (last_epoch (take b R))).
  assert (len H = WAL_HEADER_BYTES) as HlenH by apply len_encode_wal_header.
  assert (wal_bytes b R = H ++ frames (drop b R)) as HW by done.
  io_call; [auto|]. cbn [fh_inode].
  apply (spec_read _ _ _ _ _ _ H); [|auto|].
  { cbn [fh_inode fh_pos]. apply (read_mid [] H (frames (drop b R) ++ t)); [|done..].
    by rewrite Hbytes, HW, <-(assoc_L (++)). }
  rewrite HlenH, N.eqb_refl. cbn [negb]. apply spec_bind, spec_result.
  unfold H at 1. rewrite decode_header_ok by done. cbn beta iota. io_call; [auto|]. cbn [fh_inode].
  apply spec_bind. intros faults Hf. eexists _, _, _, _. split; [reflexivity|]. split; [done|]. cbn beta iota.
  cbn [w_fs fh_inode]. apply spec_bind.
  eapply spec_mono.
  - replace (mkScan _ _ _ _ _ _) with (scan_at b (mkHandle i (len H)) [] (take b R)).
    + apply (scan_records_ok _ _ _ _ _ t (drop b R)); [done|by rewrite take_drop|by rewrite length_take_le|done| |].
      * rewrite Hbytes, HW, !length_app. pose proof (length_frames (drop b R)). lia.
      * by rewrite Hbytes, HW, <-(assoc_L (++)).
    + unfold scan_at. rewrite HlenH, drop_ge by (by rewrite length_take_le).
      unfold len. by rewrite length_take_le.
  - cbn beta. rewrite take_drop, <-HW. intros res s' fs' [-> Hres].
    destruct res as [scan|e]; [|done]. destruct Hres as (file & offsets & Hfile & -> & ->).
    cbn [sc_file scan_at]. io_call; [intros; split_and!; [done..|apply cutting_cut_to]|].
    apply spec_ret. split; [done|]. eexists (mkHandle (fh_inode file) _), offsets.
    split_and!; [exact Hfile|reflexivity|done].
Qed.

Lemma FileWal_open_ok {S} q (s : S) fs path i b R t :
  fs_dir fs !! path = Some i → (i < length (fs_files fs))%nat → log_ok R → (b ≤ length R)%nat → torn t →
  fd_bytes (file_at fs i) = wal_bytes b R ++ t →
  spec q s fs (FileWal_open blake3 record_from_slice path) (opened q s fs path i b R t).
Proof.
  intros Hdir Hi HR Hb Ht Hbytes. unfold FileWal_open.
  assert (¬ q → s = s ∧ ¬ q ∧ cutting fs i (wal_bytes b R) fs) as Herr by (intros; split_and!; [done..|constructor]).
  io_call; [auto|]. apply spec_path_exists. io_call; [auto|]. rewrite Hdir. io_call; [auto|]. cbn [fh_inode].
  destruct (N.eqb_spec (len (fd_bytes (file_at fs i))) 0) as [H0|_].
  { rewrite Hbytes in H0. unfold wal_bytes in H0. autorewrite with nula in H0. rewrite len_encode_wal_header in H0.
    unfold WAL_HEADER_BYTES in H0. lia. }
  apply spec_bind, spec_ret. by apply load_wal_ok.
Qed.

(** A new log: [open] on an empty disk either fails or leaves a durable header
    under a durable name. *)
Lemma FileWal_create_ok {S} q (s : S) path :
  let x := wal_bytes 0 [] in
  spec q s empty_fs (FileWal_open blake3 record_from_slice path)
    (λ res s' fs', s' = s ∧
      match res with
      | Ok wal => fs' = mkFS [mkFile x x] {[path := 0%nat]} [] ∧
          ∃ file offsets, fh_inode file = 0%nat ∧ wal = wal_at path file offsets 0 []
      | Err _ => ¬ q
      end).
Proof.
  intros x. unfold FileWal_open, sync_parent_directory.
  io_call; [done|]. apply spec_path_exists. io_call; [done|]. cbn [empty_fs fs_dir fst snd]. rewrite lookup_empty.
  cbn [fst snd]. rewrite bool_decide_eq_false_2 by (by intros []). io_call; [done|]. cbn [fh_inode].
  change (length (fs_files empty_fs)) with 0%nat. set (fs1 := put_dir _ _).
  change (file_at fs1 0) with (mkFile [] []). cbn [fd_bytes len length N.of_nat N.eqb].
  set (h := encode_wal_header blake3 0 None None).
  assert (wal_bytes 0 [] = h) as Hx by (unfold wal_bytes, frames; cbn; by rewrite (right_id_L [] (++))).
  apply spec_bind. io_call; [done|]. unfold write_file. cbn [fh_inode fh_pos].
  change (file_at fs1 0) with (mkFile [] []). cbn [fd_bytes fd_synced].
  replace (write_at [] 0 h) with h by (symmetry; apply (write_at_end [])).
  io_call; [done|]. cbn [fh_inode]. rewrite file_at_put, put_put by (cbn; lia). cbn [fd_bytes].
  apply spec_bind. io_call; [done|]. apply spec_call; [done|]. apply spec_ret.
  eapply spec_mono.
  - apply (load_wal_ok q s _ path 0 _ 0 [] []); [cbn; lia|constructor|done|by left|].
    change (h = wal_bytes 0 [] ++ []). by rewrite (right_id_L [] (++)).
  - intros res s' fs' [-> Hres]. split; [done|]. destruct res as [wal|e]; [|by destruct Hres].
    destruct Hres as (file & offsets & Hfile & -> & ->). split; [|by exists file, offsets].
    unfold x. rewrite Hx. done.
Qed.

(** ** Appending *)

Lemma frames_app R T : frames (R ++ T) = frames R ++ frames T.
Proof. unfold frames. by rewrite fmap_app, join_app. Qed.

Lemma wal_bytes_snoc b R r : (b ≤ length R)%nat → wal_bytes b (R ++ [r]) = wal_bytes b R ++ frame r.
Proof.
  intros Hb. unfold wal_bytes. rewrite take_app_le, drop_app_le, frames_app, (assoc_L (++)) by done.
  f_equal. unfold frames. cbn [fmap list_fmap mjoin list_join]. by rewrite (right_id_L [] (++)).
Qed.

(** The file [i] with [t] appended to its durable contents [x]. *)
Definition appended (fs : FS) (i : nat) (x t : bytes) : FS := put_file fs i (mkFile (x ++ t) x).

(** One of the writes of an append, [p] being what comes before it. *)
Lemma spec_append_part {S A} q (s : S) fs i x p data (k : File → IO S WalError A) Q :
  (i < length (fs_files fs))%nat →
  (∀ kind message d, ¬ q → d `prefix_of` data → Q (Err (WIo kind message)) s (appended fs i x (p ++ d))) →
  spec q s (appended fs i x (p ++ data)) (k (mkHandle i (len (x ++ p ++ data)))) Q →
  spec q s (appended fs i x p) (write_all (mkHandle i (len (x ++ p))) data ≫= k) Q.
Proof.
  intros Hi Hbad Hgood.
  assert (∀ d, write_file (appended fs i x p) (mkHandle i (len (x ++ p))) d = appended fs i x (p ++ d)) as Hwrite.
  { intros d. unfold write_file, appended. cbn [fh_inode fh_pos]. rewrite file_at_put by done. cbn [fd_bytes fd_synced].
    by rewrite write_at_end, put_put, (assoc_L (++)). }
  unfold write_all. io_call.
  - intros e n Hq. rewrite Hwrite. apply Hbad; [done|]. apply prefix_take.
  - cbn [fh_inode fh_pos]. rewrite Hwrite, <-len_app, <-(assoc_L (++)). exact Hgood.
Qed.

Lemma check_append_ok {S} q (s : S) fs path file offsets b R r Q :
  log_ok R → (b ≤ length R)%nat → wr_tablet_id r = id →
  (∀ e, last_epoch R = Some e → e ≤ wr_ownership_epoch r) →
  wr_expected_previous_sequence r = len R → wr_sequence r = len R + 1 → len R + 1 < U64 →
  Q (Ok tt) s fs → spec q s fs (check_append (wal_at path file offsets b R) r) Q.
Proof.
  intros HR Hb Hrid Hepoch Hprev Hseq Hlt HQ. unfold check_append.
  assert (FileWal_last_sequence (wal_at path file offsets b R) = len R) as ->.
  { unfold FileWal_last_sequence, wal_at. cbn [fw_records fw_base_sequence].
    destruct HR as [|R' r' HR' Hr']; [by assert (b = 0%nat) as -> by (cbn in Hb; lia)|].
    destruct (decide (b ≤ length R')%nat) as [Hle|Hgt].
    - rewrite drop_app_le, last_snoc by done. rewrite (ro_sequence _ _ Hr'). autorewrite with nula. lia.
    - rewrite length_app in Hb. cbn in Hb. rewrite drop_ge by (rewrite length_app; cbn; lia). cbn.
      unfold len. rewrite length_app. cbn. lia. }
  rewrite Hprev, N.eqb_refl. cbn [negb]. rewrite checked_add64_Some by done. apply spec_bind, spec_result. cbn [ok_or].
  rewrite Hseq, N.eqb_refl. cbn [negb]. apply spec_bind, spec_result.
  cbn [fw_tablet_id fw_latest_ownership_epoch wal_at].
  assert (match tablet_of R with
          | Some existing => if negb (wr_tablet_id r =? existing) then Err (WTabletMismatch existing (wr_tablet_id r)) else Ok tt
          | None => Ok tt end = Ok tt) as ->.
  { destruct R; [done|]. cbn. by rewrite Hrid, N.eqb_refl. }
  apply spec_result. destruct (last_epoch R) as [e|]; [|done].
  specialize (Hepoch e eq_refl). apply N.ltb_ge in Hepoch. by rewrite Hepoch.
Qed.

Lemma FileWal_append_ok q fs path file offsets b R w i :
  let r := WalRecord_from_write w in
  let self := wal_at path file offsets b R in
  let x := wal_bytes b R in
  fh_inode file = i → (i < length (fs_files fs))%nat → file_at fs i = mkFile x x →
  log_ok R → (b ≤ length R)%nat → wr_tablet_id r = id → 0 < wr_ownership_epoch r < U64 →
  (∀ e, last_epoch R = Some e → e ≤ wr_ownership_epoch r) →
  wr_expected_previous_sequence r = len R → wr_sequence r = len R + 1 → len R + 1 < U64 →
  Forall (λ m, KeyRange_contains range (TabletMutation_key m) = true) (wr_mutations r) →
  distinct_keys (wr_mutations r) →
  spec q self fs (FileWal_append_write blake3 record_to_vec w)
    (λ res s' fs',
      match res with
      | Ok _ => record_ok R r ∧ fs' = put_file fs i (mkFile (x ++ frame r) (x ++ frame r)) ∧
          ∃ file' offsets', fh_inode file' = i ∧ s' = wal_at path file' offsets' b (R ++ [r])
      | Err e =>
          (s' = self ∧ fs' = fs ∧ (q → ¬ record_ok R r)) ∨
          ((∃ kind message, e = WIo kind message) ∧ ¬ q ∧ record_ok R r ∧ fw_path s' = path ∧ fw_poisoned s' = true ∧
           ∃ t c, t `prefix_of` frame r ∧ (c = x ∨ c = x ++ t) ∧ fs' = put_file fs i (mkFile (x ++ t) c))
      end).
Proof.
  intros r self x Hfile Hi Hat HR Hb Hrid Hepoch Hnewer Hprev Hseq Hlt Hrange Hkeys.
  unfold FileWal_append_write. apply spec_bind, spec_get. fold r. cbn [fw_poisoned self wal_at].
  apply spec_bind, (check_append_ok _ _ _ path file offsets b R r); [done..|].
  apply spec_bind, spec_result.
  destruct (record_to_vec (WalRecord_to_disk r)) as [p|e] eqn:Hp.
  2:{ left. split_and!; [done..|]. intros _ [_ _ _ _ _ _ Hpay _ _ _]. congruence. }
  assert (payload r = p) as Hpay by (unfold payload; by rewrite Hp).
  destruct (N.ltb_spec MAX_WAL_RECORD_BYTES (len p)) as [Hbig|Hsmall].
  { assert (¬ record_ok R r) by (intros [_ _ _ _ _ _ _ Hsize _ _]; rewrite Hpay in Hsize; lia).
    io_call; [by left|]. apply spec_fail. by left. }
  destruct (N.leb_spec U32 (len p)); [unfold MAX_WAL_RECORD_BYTES, U32 in *; lia|].
  assert (record_ok R r) as Hr by (constructor; congruence || done || by rewrite ?Hpay).
  io_call; [intros; left; split_and!; [done..|by intros]|]. change (fw_file self) with file. rewrite Hfile, Hat. cbn [fd_bytes].
  apply spec_bind, spec_put. set (poisoned := set_poisoned _).
  assert (∀ kind message t, t `prefix_of` frame r → ¬ q →
    (poisoned = self ∧ appended fs i x t = fs ∧ (q → ¬ record_ok R r)) ∨
    ((∃ k m, WIo kind message = WIo k m) ∧ ¬ q ∧ record_ok R r ∧ fw_path poisoned = path ∧ fw_poisoned poisoned = true ∧
     ∃ t' c, t' `prefix_of` frame r ∧ (c = x ∨ c = x ++ t') ∧ appended fs i x t = put_file fs i (mkFile (x ++ t') c)))
    as Herr.
  { intros kind message t Ht Hq. right. split_and!; [by eexists _, _|done..|]. exists t, x. auto. }
  assert (fs = appended fs i x []) as Hstart.
  { unfold appended. rewrite (right_id_L [] (++)), <-Hat. symmetry. by apply put_same. }
  rewrite Hstart at 1. rewrite <-Hpay.
  set (F := encode_frame_header blake3 (len (payload r))).
  assert (frame r = F ++ payload r ++ blake3 (payload r)) as Hframe by done.
  replace (len x) with (len (x ++ [])) by (by rewrite (right_id_L [] (++))).
  apply spec_append_part; [done| |].
  { intros k m d Hq Hd. apply Herr; [|done]. rewrite Hframe. by apply prefix_app_r. }
  change ([] ++ F) with F. apply spec_append_part; [done| |].
  { intros k m d Hq Hd. apply Herr; [|done]. rewrite Hframe. by apply prefix_app, prefix_app_r. }
  apply spec_append_part; [done| |].
  { intros k m d Hq Hd. apply Herr; [|done]. rewrite Hframe, <-!(assoc_L (++)). by do 2 apply prefix_app. }
  rewrite <-!(assoc_L (++)), <-Hframe.
  unfold sync_data. io_call; [intros; by apply Herr|]. cbn [fh_inode].
  unfold appended. rewrite file_at_put by done. cbn [fd_bytes]. rewrite put_put.
  io_call.
  { intros e Hq. right. split_and!; [by eexists _, _|done..|]. exists (frame r), (x ++ frame r). auto. }
  apply spec_put. split_and!; [done..|]. eexists (mkHandle i _), _. split; [done|].
  unfold wal_at. cbn [fw_path fw_records fw_base_sequence self]. f_equal.
  - by rewrite drop_app_le.
  - by rewrite tablet_of_snoc, Hrid.
  - by rewrite last_epoch_snoc.
Qed.
End log.
