(* ===== verification/TabletStore.v ===== *)
(** * Checkpoints and the log-backed tablet

    [src/database/checkpoint.rs] and [src/database/store.rs]: the checkpoint file,
    published by renaming a finished temporary file, and the tablet that makes a
    write durable before it shows it.  The JSON codec of checkpoints is a
    parameter like that of records. *)
From Stdlib Require Import String.
From S2P Require Import Prelude Bytes Text Tablet FileSystem TabletWal.

Local Open Scope list_scope.
Local Open Scope N_scope.

(** ** Checkpoints *)

Definition CHECKPOINT_MAGIC : bytes := str "NUDBCKP1".
Definition CHECKPOINT_VERSION : N := 1.
Definition MAX_CHECKPOINT_BYTES : N := 256 * 1024 * 1024.

Record DiskCheckpoint := mkDiskCheckpoint {
  dc_version : N;
  dc_tablet_id : N;
  dc_ownership_epoch : N;
  dc_range_start : bytes;
  dc_range_end : option bytes;
  dc_state : TabletSnapshotState;
}.

Inductive CheckpointError :=
| CIo (kind : ErrorKind) (message : bytes)
| CInvalidHeader
| CUnsupportedVersion (version : N)
| CTooLarge (size : N)
| CChecksumMismatch
| CTrailingBytes
| CDescriptorMismatch
| CStaleDescriptorEpoch (checkpoint presented : N)
| CInvalidState (reason : bytes)
| CSerialization (message : bytes).

#[global] Instance CheckpointError_from_io : FromIo CheckpointError := λ e, CIo (io_kind e) (io_message e).

Definition checkpoint_path_for_wal (wal_path : bytes) : bytes := with_extension wal_path (str "checkpoint").
Definition temp_path (path : bytes) : bytes := path ++ str ".tmp".

(** ** The store *)

Inductive WalBackedError :=
| BTablet (e : TabletError)
| BWal (e : WalError)
| BCheckpoint (e : CheckpointError).

Record WalBackedTablet := mkStore {
  wb_tablet : MemoryTablet;
  wb_wal : FileWal;
  wb_checkpoint_path : bytes;
}.

Definition set_tablet (self : WalBackedTablet) (tablet : MemoryTablet) : WalBackedTablet :=
  mkStore tablet (wb_wal self) (wb_checkpoint_path self).
Definition set_wal (wal : FileWal) (self : WalBackedTablet) : WalBackedTablet :=
  mkStore (wb_tablet self) wal (wb_checkpoint_path self).

Definition WalBackedTablet_prepare_write (self : WalBackedTablet) (presented_epoch expected_previous_sequence : N)
    (mutations : list TabletMutation) : result TabletWrite TabletError :=
  MemoryTablet_prepare_write (wb_tablet self) presented_epoch expected_previous_sequence mutations.

Definition WalBackedTablet_current_sequence (self : WalBackedTablet) : N := mt_current_sequence (wb_tablet self).
Definition WalBackedTablet_read_at (self : WalBackedTablet) (key : bytes) (snapshot : N)
    : result (option bytes) TabletError := MemoryTablet_read_at (wb_tablet self) key snapshot.
Definition WalBackedTablet_read_latest (self : WalBackedTablet) (key : bytes) : option bytes :=
  MemoryTablet_read_latest (wb_tablet self) key.

Section store.
Context (blake3 : bytes → bytes).
Context (record_to_vec : DiskWalRecord → result bytes bytes).
Context (record_from_slice : bytes → result DiskWalRecord bytes).
Context (checkpoint_to_vec : DiskCheckpoint → result bytes bytes).
Context (checkpoint_from_slice : bytes → result DiskCheckpoint bytes).

Definition disk_checkpoint (tablet : MemoryTablet) : DiskCheckpoint :=
  let descriptor := mt_descriptor tablet in
  mkDiskCheckpoint CHECKPOINT_VERSION (td_id descriptor) (td_ownership_epoch descriptor)
    (kr_start (td_range descriptor)) (kr_end (td_range descriptor)) (MemoryTablet_snapshot_state tablet).

Definition write_checkpoint {S} (path : bytes) (tablet : MemoryTablet) : IO S CheckpointError unit :=
  payload ← io_result match checkpoint_to_vec (disk_checkpoint tablet) with
                      | Ok payload => Ok payload
                      | Err message => Err (CSerialization message)
                      end;
  if MAX_CHECKPOINT_BYTES <? len payload then io_fail (CTooLarge (len payload)) else
  let temp := temp_path path in
  _ ← create_dir_all;
  file ← open_create true temp;
  file ← write_all file CHECKPOINT_MAGIC;
  file ← write_all file (to_le_bytes 4 (as_u32 (len payload)));
  file ← write_all file payload;
  file ← write_all file (blake3 payload);
  _ ← sync_data file;
  _ ← rename temp path;
  sync_parent_directory.

(** The checks of [load_checkpoint] on what the file holds. *)
Definition restore_checkpoint (descriptor : TabletDescriptor) (disk : DiskCheckpoint)
    : result MemoryTablet CheckpointError :=
  if negb (dc_version disk =? CHECKPOINT_VERSION) then Err (CUnsupportedVersion (dc_version disk)) else
  if negb (dc_tablet_id disk =? td_id descriptor) then Err CDescriptorMismatch else
  if td_ownership_epoch descriptor <? dc_ownership_epoch disk
  then Err (CStaleDescriptorEpoch (dc_ownership_epoch disk) (td_ownership_epoch descriptor)) else
  if negb (bool_decide (dc_range_start disk = kr_start (td_range descriptor)))
       || negb (bool_decide (dc_range_end disk = kr_end (td_range descriptor)))
  then Err CDescriptorMismatch else
  match MemoryTablet_restore_snapshot descriptor (dc_state disk) with
  | Ok tablet => Ok tablet
  | Err e => Err (CInvalidState (TabletError_to_string e))
  end.

Definition load_checkpoint {S} (path : bytes) (descriptor : TabletDescriptor)
    : IO S CheckpointError (option MemoryTablet) :=
  exists_ ← path_exists path;
  if negb exists_ then mret None else
  file ← open_existing path;
  '(magic, file) ← read_exact file 8;
  if negb (bool_decide (magic = CHECKPOINT_MAGIC)) then io_fail CInvalidHeader else
  '(length, file) ← read_exact file 4;
  let payload_len := from_le_bytes length in
  if MAX_CHECKPOINT_BYTES <? payload_len then io_fail (CTooLarge payload_len) else
  '(payload, file) ← read_exact file payload_len;
  '(checksum, file) ← read_exact file 32;
  if negb (bool_decide (checksum = blake3 payload)) then io_fail CChecksumMismatch else
  '(trailing, file) ← read_bytes file 1;
  if negb (len trailing =? 0) then io_fail CTrailingBytes else
  disk ← io_result match checkpoint_from_slice payload with
                   | Ok disk => Ok disk
                   | Err message => Err (CSerialization message)
                   end;
  tablet ← io_result (restore_checkpoint descriptor disk);
  mret (Some tablet).

(** ** Opening, committing, checkpointing *)

Definition WalBackedTablet_open {S} (descriptor : TabletDescriptor) (wal_path : bytes)
    : IO S WalBackedError WalBackedTablet :=
  let checkpoint_path := checkpoint_path_for_wal wal_path in
  wal ← io_map_err BWal (FileWal_open blake3 record_from_slice wal_path);
  loaded ← io_map_err BCheckpoint (load_checkpoint checkpoint_path descriptor);
  tablet ← match loaded with
           | Some tablet => mret tablet
           | None => io_map_err BWal (io_result (FileWal_recover_memory_tablet wal descriptor))
           end;
  tablet ← io_map_err BWal (io_result (FileWal_replay_after_checkpoint wal tablet));
  mret (mkStore tablet wal checkpoint_path).

Definition WalBackedTablet_commit (write : TabletWrite) : IO WalBackedTablet WalBackedError N :=
  self ← io_get;
  _ ← io_map_err BTablet (io_result (MemoryTablet_validate_write (wb_tablet self) write));
  _ ← io_field wb_wal set_wal (io_map_err BWal (FileWal_append_write blake3 record_to_vec write));
  self ← io_get;
  let '(sequence, tablet) := MemoryTablet_publish_validated (wb_tablet self) write in
  _ ← io_put (set_tablet self tablet);
  mret sequence.

Definition WalBackedTablet_publish_checkpoint : IO WalBackedTablet WalBackedError unit :=
  self ← io_get;
  io_map_err BCheckpoint (write_checkpoint (wb_checkpoint_path self) (wb_tablet self)).

Definition WalBackedTablet_checkpoint : IO WalBackedTablet WalBackedError unit :=
  _ ← WalBackedTablet_publish_checkpoint;
  self ← io_get;
  io_field wb_wal set_wal
    (io_map_err BWal (FileWal_reclaim_through blake3 record_from_slice (mt_current_sequence (wb_tablet self)))).

End store.
