(* ===== verification/TabletDurable.v ===== *)
(** * The log-backed tablet survives faults and power failures

    The disk of a tablet in any state its code can leave it in, faults of any
    call included; that every step of the store keeps it so; and that opening the
    store after a power failure finds every acknowledged write. *)
From Stdlib Require Import String.
From S2P Require Import Prelude Bytes Text Tablet FileSystem TabletWal TabletLog TabletStore.

Local Open Scope list_scope.
Local Open Scope N_scope.

(** ** Names *)

Lemma before_last_dot_app name ext : 46 ∉ ext → before_last_dot (name ++ 46 :: ext) = Some name.
Proof.
  intros Hext. assert (before_last_dot ext = None) as Hnone.
  { induction ext as [|b ext IH]; [done|]. apply not_elem_of_cons in Hext as [Hb Hext].
    cbn. rewrite (IH Hext). by rewrite (proj2 (N.eqb_neq b 46)). }
  induction name as [|b name IH]; cbn [app before_last_dot]; [by rewrite Hnone|by rewrite IH].
Qed.

Lemma file_stem_tmp name : name ≠ [] → file_stem (name ++ str ".tmp") = name.
Proof.
  intros Hne. unfold file_stem. change (str ".tmp") with (46 :: str "tmp").
  rewrite before_last_dot_app; [by destruct name|]. by apply (bool_decide_unpack (46 ∉ str "tmp")).
Qed.

Lemma checkpoint_path_last path : last (checkpoint_path_for_wal path) = Some 116.
Proof. unfold checkpoint_path_for_wal, with_extension. by rewrite last_app. Qed.

Lemma names_distinct path :
  checkpoint_path_for_wal path ≠ path →
  NoDup [path; checkpoint_path_for_wal path; temp_path (checkpoint_path_for_wal path); reclaim_temp_path path].
Proof.
  intros Hpath. set (c := checkpoint_path_for_wal path) in *.
  assert (path ≠ temp_path c) as H1.
  { intros Heq. assert (c = c ++ str ".checkpoint") as Hc.
    { unfold c at 1, checkpoint_path_for_wal, with_extension. rewrite Heq. unfold temp_path.
      rewrite file_stem_tmp; [done|]. unfold c, checkpoint_path_for_wal, with_extension. by destruct (file_stem path). }
    apply (f_equal length) in Hc. rewrite length_app in Hc. cbn in Hc. lia. }
  assert (path ≠ reclaim_temp_path path) as H2.
  { unfold reclaim_temp_path. intros Heq%(f_equal length). rewrite length_app in Heq. cbn in Heq. lia. }
  assert (c ≠ temp_path c) as H3.
  { unfold temp_path. intros Heq%(f_equal length). rewrite length_app in Heq. cbn in Heq. lia. }
  assert (c ≠ reclaim_temp_path path) as H4.
  { intros Heq%(f_equal last). unfold c in Heq. rewrite checkpoint_path_last in Heq.
    unfold reclaim_temp_path in Heq. by rewrite last_app in Heq. }
  assert (temp_path c ≠ reclaim_temp_path path) as H5.
  { unfold temp_path, reclaim_temp_path. intros Heq.
    change (str ".reclaim.tmp") with (str ".reclaim" ++ str ".tmp") in Heq. rewrite (assoc_L (++)) in Heq.
    apply app_inj_2 in Heq as [Heq%(f_equal last) _]; [|done].
    unfold c in Heq. rewrite checkpoint_path_last in Heq. by rewrite last_app in Heq. }
  repeat (apply NoDup_cons; split; [set_solver|]). apply NoDup_nil_2.
Qed.

(** ** Lists *)

Lemma filter_all {A} (P : A → Prop) `{∀ x, Decision (P x)} l : Forall P l → filter P l = l.
Proof. induction 1 as [|x l Hx _ IH]; [done|]. by rewrite filter_cons_True, IH. Qed.

Lemma filter_none {A} (P : A → Prop) `{∀ x, Decision (P x)} l : Forall (λ x, ¬ P x) l → filter P l = [].
Proof. induction 1 as [|x l Hx _ IH]; [done|]. by rewrite filter_cons_False. Qed.

Section durable.
Context (blake3 : bytes → bytes) (Hblake3 : ∀ bs, len (blake3 bs) = 32).
Context (record_to_vec : DiskWalRecord → result bytes bytes).
Context (record_from_slice : bytes → result DiskWalRecord bytes).
Context (Hrecord : ∀ r p, record_to_vec r = Ok p → record_from_slice p = Ok r).
Context (checkpoint_to_vec : DiskCheckpoint → result bytes bytes).
Context (checkpoint_from_slice : bytes → result DiskCheckpoint bytes).
Context (Hcheckpoint : ∀ c p, checkpoint_to_vec c = Ok p → checkpoint_from_slice p = Ok c).
Context (id : TabletId) (Hid : 0 < id < U64) (range : KeyRange).

Local Abbreviation record_ok := (record_ok record_to_vec id range).
Local Abbreviation log_ok := (log_ok record_to_vec id range).
Local Abbreviation frame := (frame blake3 record_to_vec).
Local Abbreviation wal_bytes := (wal_bytes blake3 record_to_vec id).
Local Abbreviation wal_at := (wal_at id).
Local Abbreviation torn := (torn blake3 record_to_vec).

(** A descriptor of this tablet. *)
Definition owner (d : TabletDescriptor) : Prop :=
  td_id d = id ∧ td_range d = range ∧ 0 < td_ownership_epoch d < U64.

Definition batches (R : list WalRecord) : list batch := wr_mutations <$> R.

Lemma log_ok_batches R :
  log_ok R → Forall distinct_keys (batches R) ∧
    Forall (Forall (λ m, KeyRange_contains range (TabletMutation_key m) = true)) (batches R).
Proof.
  induction 1 as [|R r _ [IH1 IH2] Hr]; [by split; apply Forall_nil_2|].
  unfold batches. rewrite fmap_app. split; (apply Forall_app_2; [done|]); (apply Forall_cons; split; [|apply Forall_nil_2]).
  - apply Hr.
  - apply Hr.
Qed.

Lemma len_batches R : len (batches R) = len R.
Proof. unfold len, batches. by rewrite length_fmap. Qed.

(** ** Replay *)

Lemma replay_all_ok d P T :
  owner d → log_ok (P ++ T) →
  replay_all (tablet_after d (batches P)) T = Ok (tablet_after d (batches (P ++ T))).
Proof.
  intros (Hdid & Hdr & _). revert P. induction T as [|r T IH]; intros P HR; [by rewrite (right_id_L [] (++))|].
  cbn [replay_all]. pose proof (log_ok_split _ _ _ _ _ _ HR) as Hr. unfold replay_record.
  rewrite (ro_sequence _ _ _ _ _ Hr), (ro_previous _ _ _ _ _ Hr), <-(len_batches P).
  rewrite replay_after.
  - cbn [res_bind]. replace (batches P ++ [wr_mutations r]) with (batches (P ++ [r]))
      by (unfold batches; by rewrite fmap_app).
    rewrite (cons_middle r P T), (assoc_L (++)) in *. by apply IH.
  - rewrite len_batches. apply Hr.
  - unfold in_range_batch. rewrite Hdr. apply Hr.
Qed.

Lemma log_ok_seq R i r : log_ok R → R !! i = Some r → wr_sequence r = N.of_nat i + 1.
Proof.
  intros HR Hi. rewrite <-(take_drop_middle _ _ _ Hi) in HR. apply log_ok_split in HR.
  rewrite (ro_sequence _ _ _ _ _ HR). unfold len. rewrite length_take_le; [lia|].
  apply lookup_lt_Some in Hi. lia.
Qed.

(** The records behind a checkpoint of [c] batches. *)
Lemma filter_newer R b c :
  log_ok R → (b ≤ c ≤ length R)%nat →
  filter (λ r, N.of_nat c < wr_sequence r) (drop b R) = drop c R.
Proof.
  intros HR [Hbc Hc].
  replace (drop b R) with (take (c - b) (drop b R) ++ drop c R).
  2:{ replace (drop c R) with (drop (c - b) (drop b R)) by (rewrite drop_drop; f_equal; lia). by rewrite take_drop. }
  rewrite filter_app, filter_none, filter_all; [done|..].
  - apply Forall_lookup_2. intros i r Hi. rewrite lookup_drop in Hi. apply (log_ok_seq _ _ _ HR) in Hi. lia.
  - apply Forall_lookup_2. intros i r Hi. apply lookup_take_Some in Hi as [Hi Hlt].
    rewrite lookup_drop in Hi. apply (log_ok_seq _ _ _ HR) in Hi. lia.
Qed.

Lemma check_owner_ok path file offsets b R d :
  owner d →
  check_durable_owner (wal_at path file offsets b R) d =
    match last_epoch R with
    | Some e => if td_ownership_epoch d <? e then Err (WStaleOwnershipEpoch e (td_ownership_epoch d)) else Ok tt
    | None => Ok tt
    end.
Proof.
  intros (Hdid & _). unfold check_durable_owner. cbn [fw_tablet_id fw_latest_ownership_epoch TabletLog.wal_at].
  destruct R; cbn [tablet_of]; [done|]. by rewrite Hdid, N.eqb_refl.
Qed.

Lemma last_sequence_ok path file offsets b R :
  log_ok R → (b ≤ length R)%nat → FileWal_last_sequence (wal_at path file offsets b R) = len R.
Proof.
  intros HR Hb. unfold FileWal_last_sequence, TabletLog.wal_at. cbn [fw_records fw_base_sequence].
  destruct HR as [|R' r' HR' Hr']; [by assert (b = 0%nat) as -> by (cbn in Hb; lia)|].
  destruct (decide (b ≤ length R')%nat) as [Hle|Hgt].
  - rewrite drop_app_le, last_snoc by done. rewrite (ro_sequence _ _ _ _ _ Hr'). autorewrite with nula. lia.
  - rewrite length_app in Hb. cbn in Hb. rewrite drop_ge by (rewrite length_app; cbn; lia). cbn.
    unfold len. rewrite length_app. cbn. lia.
Qed.

(** The tablet recovered from the log alone, or from a checkpoint and the log
    behind it. *)
Definition recovered (d : TabletDescriptor) (R : list WalRecord) (r : result MemoryTablet WalError) : Prop :=
  match r with
  | Ok t => t = tablet_after d (batches R) ∧ ∀ e, last_epoch R = Some e → e ≤ td_ownership_epoch d
  | Err _ => ∃ e, last_epoch R = Some e ∧ td_ownership_epoch d < e
  end.

Lemma replay_checkpoint_ok path file offsets b c R d :
  owner d → log_ok R → (b ≤ c ≤ length R)%nat →
  recovered d R (FileWal_replay_after_checkpoint (wal_at path file offsets b R) (tablet_after d (batches (take c R)))).
Proof.
  intros Hd HR Hc. unfold FileWal_replay_after_checkpoint. cbv zeta. rewrite last_sequence_ok by (done || lia).
  destruct (tablet_after_shape d (batches (take c R))) as [-> ->]. rewrite len_batches.
  assert (len (take c R) = N.of_nat c) as -> by (unfold len; rewrite length_take_le; lia).
  cbn [fw_base_sequence TabletLog.wal_at]. destruct (N.ltb_spec (N.of_nat c) (N.of_nat b)); [lia|].
  destruct (N.ltb_spec (len R) (N.of_nat c)); [unfold len in *; lia|]. rewrite check_owner_ok by done.
  assert (replay_all (tablet_after d (batches (take c R))) (filter (λ r, N.of_nat c < wr_sequence r) (drop b R))
          = Ok (tablet_after d (batches R))) as Hreplay.
  { rewrite filter_newer by done. rewrite replay_all_ok; by rewrite ?take_drop. }
  destruct (last_epoch R) as [e|] eqn:He; cbn [res_bind].
  - destruct (N.ltb_spec (td_ownership_epoch d) e); cbn [res_bind].
    + exists e. done.
    + cbn [fw_records TabletLog.wal_at]. rewrite Hreplay. split; [done|]. rewrite He. by intros ? [= <-].
  - cbn [fw_records TabletLog.wal_at]. rewrite Hreplay. split; [done|]. by rewrite He.
Qed.

Lemma recover_ok path file offsets R d :
  owner d → log_ok R → recovered d R (FileWal_recover_memory_tablet (wal_at path file offsets 0 R) d).
Proof.
  intros Hd HR. unfold FileWal_recover_memory_tablet. rewrite check_owner_ok by done.
  assert (replay_all (MemoryTablet_new d) R = Ok (tablet_after d (batches R))) as Hreplay
    by (by apply (replay_all_ok d [])).
  destruct (last_epoch R) as [e|] eqn:He; cbn [res_bind].
  - destruct (N.ltb_spec (td_ownership_epoch d) e); cbn [res_bind].
    + exists e. done.
    + cbn. rewrite drop_0. rewrite Hreplay. split; [done|]. rewrite He. by intros ? [= <-].
  - cbn. rewrite drop_0. rewrite Hreplay. split; [done|]. by rewrite He.
Qed.

(** ** Checkpoint files *)

(** The bytes of a checkpoint of the first [c] batches, taken at an epoch up to [E]. *)
Definition checkpoint_image (E : N) (R : list WalRecord) (c : nat) (x : bytes) : Prop :=
  ∃ d p, owner d ∧ td_ownership_epoch d ≤ E ∧
    checkpoint_to_vec (disk_checkpoint (tablet_after d (batches (take c R)))) = Ok p ∧ len p ≤ MAX_CHECKPOINT_BYTES ∧
    x = CHECKPOINT_MAGIC ++ to_le_bytes 4 (len p) ++ p ++ blake3 p.

Lemma restore_checkpoint_ok R c d d' :
  owner d → owner d' → log_ok R →
  restore_checkpoint d' (disk_checkpoint (tablet_after d (batches (take c R)))) =
    if td_ownership_epoch d' <? td_ownership_epoch d
    then Err (CStaleDescriptorEpoch (td_ownership_epoch d) (td_ownership_epoch d'))
    else Ok (tablet_after d' (batches (take c R))).
Proof.
  intros (Hdid & Hdr & _) (Hdid' & Hdr' & _) HR. unfold restore_checkpoint, disk_checkpoint.
  destruct (tablet_after_shape d (batches (take c R))) as [-> _]. cbn [dc_version dc_tablet_id dc_ownership_epoch
    dc_range_start dc_range_end dc_state]. rewrite N.eqb_refl, Hdid, Hdid', N.eqb_refl. cbn [negb].
  destruct (_ <? _); [done|]. rewrite Hdr, Hdr', !bool_decide_eq_true_2 by done. cbn [negb orb].
  assert (log_ok (take c R)) as Htake by (apply (log_ok_app _ _ _ _ (drop c R)); by rewrite take_drop).
  apply log_ok_batches in Htake as [H1 H2].
  rewrite restore_snapshot_after; [done|congruence|done|]. unfold in_range_batch. by rewrite Hdr.
Qed.

(** Reading a field of a checkpoint. *)
Lemma spec_read_exact {S A} q (s : S) fs i pos size (k : bytes * File → IO S CheckpointError A) pre data suf Q :
  fd_bytes (file_at fs i) = pre ++ data ++ suf → pos = len pre → size = len data →
  (∀ e, ¬ q → Q (Err e) s fs) →
  spec q s fs (k (data, mkHandle i (len (pre ++ data)))) Q →
  spec q s fs (read_exact (mkHandle i pos) size ≫= k) Q.
Proof.
  intros Hbytes -> -> Hbad Hgood. apply spec_bind. unfold read_exact, read_bytes. io_call; [auto|]. cbn [fh_inode fh_pos].
  rewrite (read_mid pre data suf _ (len data) (len pre)) by done.
  rewrite N.ltb_irrefl. apply spec_ret. by rewrite <-len_app.
Qed.

Lemma load_checkpoint_ok {S} q (s : S) fs path j E R c x d :
  fs_dir fs !! path = Some j → fd_bytes (file_at fs j) = x → checkpoint_image E R c x → owner d → log_ok R →
  spec q s fs (load_checkpoint blake3 checkpoint_from_slice path d)
    (λ res s' fs', s' = s ∧ fs' = fs ∧
      match res with
      | Ok v => v = Some (tablet_after d (batches (take c R)))
      | Err _ => q → td_ownership_epoch d < E
      end).
Proof.
  intros Hdir Hbytes (d' & p & Hd' & HE & Hp & Hlen & ->) Hd HR. unfold load_checkpoint.
  assert (¬ q → s = s ∧ fs = fs ∧ (q → td_ownership_epoch d < E)) as Herr by (intros; by split_and!).
  apply spec_path_exists. rewrite Hdir, bool_decide_eq_true_2 by done. cbn [negb].
  io_call; [auto|]. rewrite Hdir.
  apply (spec_read_exact _ _ _ _ _ _ _ [] CHECKPOINT_MAGIC (to_le_bytes 4 (len p) ++ p ++ blake3 p)); [done..|auto|].
  rewrite bool_decide_eq_true_2 by done. cbn [negb app].
  apply (spec_read_exact _ _ _ _ _ _ _ CHECKPOINT_MAGIC (to_le_bytes 4 (len p)) (p ++ blake3 p));
    [done|done|by rewrite len_to_le_bytes|auto|].
  rewrite from_to_le_bytes by (unfold MAX_CHECKPOINT_BYTES in *; cbn; lia).
  apply N.ltb_ge in Hlen. rewrite Hlen.
  apply (spec_read_exact _ _ _ _ _ _ _ (CHECKPOINT_MAGIC ++ to_le_bytes 4 (len p)) p (blake3 p));
    [by rewrite <-!(assoc_L (++))|done|done|auto|].
  apply (spec_read_exact _ _ _ _ _ _ _ ((CHECKPOINT_MAGIC ++ to_le_bytes 4 (len p)) ++ p) (blake3 p) []);
    [by rewrite (right_id_L [] (++)), <-!(assoc_L (++))|done|by rewrite Hblake3|auto|].
  rewrite bool_decide_eq_true_2 by done. cbn [negb]. io_call; [auto|]. cbn [fh_inode fh_pos].
  rewrite (read_short _ [] _ 1 _ ltac:(rewrite (right_id_L [] (++)); exact Hbytes)); [|by rewrite <-!(assoc_L (++))|done].
  cbn [N.eqb len length N.of_nat negb]. apply spec_bind, spec_result. rewrite (Hcheckpoint _ _ Hp).
  apply spec_bind, spec_result. rewrite restore_checkpoint_ok by done.
  destruct (N.ltb_spec (td_ownership_epoch d) (td_ownership_epoch d')).
  - split_and!; [done..|]. intros _. lia.
  - by apply spec_ret.
Qed.

(** ** The disk *)

Context (path : bytes) (Hpath : checkpoint_path_for_wal path ≠ path).

Local Abbreviation ckp := (checkpoint_path_for_wal path).
Local Abbreviation ctmp := (temp_path (checkpoint_path_for_wal path)).
Local Abbreviation rtmp := (reclaim_temp_path path).

Definition names : list bytes := [path; ckp; ctmp; rtmp].

(** The bytes that a write without an answer may have left in the log. *)
Definition doubtful (D : option WalRecord) : bytes := match D with Some r => frame r | None => [] end.

Definition wal_file (R : list WalRecord) (D : option WalRecord) (b : nat) (f : FileData) : Prop :=
  ∃ t c, t `prefix_of` doubtful D ∧ c `prefix_of` doubtful D ∧ f = mkFile (wal_bytes b R ++ t) (wal_bytes b R ++ c).

Definition checkpoint_file (E : N) (R : list WalRecord) (c : nat) (f : FileData) : Prop :=
  ∃ x, f = mkFile x x ∧ checkpoint_image E R c x.

(** A directory from which the records [R] can be recovered: a log that starts
    where the checkpoint ends, or before. *)
Definition version_ok (E : N) (R : list WalRecord) (D : option WalRecord) (files : list FileData) (d : directory) : Prop :=
  ∃ i b f, d !! path = Some i ∧ files !! i = Some f ∧ (b ≤ length R)%nat ∧ wal_file R D b f ∧
    match d !! ckp with
    | None => b = 0%nat
    | Some j => ∃ g c, files !! j = Some g ∧ checkpoint_file E R c g ∧ (b ≤ c ≤ length R)%nat
    end.

Definition dir_ok (n : nat) (d : directory) : Prop :=
  (∀ a i, a ∈ names → d !! a = Some i → (i < n)%nat) ∧
  (∀ a a' i, a ∈ names → a' ∈ names → d !! a = Some i → d !! a' = Some i → a = a').

(** The log and the checkpoint are in other files, whatever version is found. *)
Definition unused (fs : FS) (i : nat) : Prop :=
  ∀ d, d ∈ dir_versions fs → d !! path ≠ Some i ∧ d !! ckp ≠ Some i.

Record disk_ok (E : N) (R : list WalRecord) (D : option WalRecord) (fs : FS) : Prop := {
  dk_log : log_ok R;
  dk_epoch : ∀ e, last_epoch R = Some e → e ≤ E;
  dk_doubt : ∀ r, D = Some r → record_ok R r ∧ wr_ownership_epoch r ≤ E;
  dk_version : ∀ d, d ∈ dir_versions fs → version_ok E R D (fs_files fs) d;
  dk_dir : ∀ d, d ∈ dir_versions fs → dir_ok (length (fs_files fs)) d;
  dk_temps : ∀ a i, a = ctmp ∨ a = rtmp → fs_dir fs !! a = Some i → unused fs i;
}.

(** The log is the file [i] with the contents [x], all of it durable. *)
Definition wal_synced (fs : FS) (i : nat) (x : bytes) : Prop :=
  (∀ d, d ∈ dir_versions fs → d !! path = Some i) ∧ fs_files fs !! i = Some (mkFile x x).

(** A change of the disk that leaves the log alone. *)
Definition keeps_wal (fs fs' : FS) : Prop := ∀ i x, wal_synced fs i x → wal_synced fs' i x.

Lemma keeps_wal_refl fs : keeps_wal fs fs.
Proof. by intros i x. Qed.
#[local] Hint Resolve keeps_wal_refl : core.

Lemma keeps_wal_trans fs1 fs2 fs3 : keeps_wal fs1 fs2 → keeps_wal fs2 fs3 → keeps_wal fs1 fs3.
Proof. intros H1 H2 i x Hx. auto. Qed.

(** A change that leaves the checkpoint alone. *)
Definition keeps_checkpoint (fs fs' : FS) : Prop :=
  ∀ j g, fs_dir fs !! ckp = Some j → fs_files fs !! j = Some g → fs_dir fs' !! ckp = Some j ∧ fs_files fs' !! j = Some g.

Lemma keeps_checkpoint_refl fs : keeps_checkpoint fs fs.
Proof. by intros j g. Qed.
#[local] Hint Resolve keeps_checkpoint_refl : core.

Lemma keeps_checkpoint_trans fs1 fs2 fs3 :
  keeps_checkpoint fs1 fs2 → keeps_checkpoint fs2 fs3 → keeps_checkpoint fs1 fs3.
Proof. intros H1 H2 j g Hj Hg. destruct (H1 j g Hj Hg). auto. Qed.

Lemma version_ok_files E R D files files' d :
  version_ok E R D files d →
  (∀ a i f, a = path ∨ a = ckp → d !! a = Some i → files !! i = Some f → files' !! i = Some f) →
  version_ok E R D files' d.
Proof.
  intros (i & b & f & Hi & Hf & Hb & Hwal & Hck) Hfiles. exists i, b, f. split_and!; [done|by eauto|done..|].
  destruct (d !! ckp) as [j|] eqn:Hj; [|done]. destruct Hck as (g & c & Hg & ?). exists g, c. split; [by eauto|done].
Qed.

(** Writing to a file that is neither log nor checkpoint. *)
Lemma disk_put E R D fs i f : disk_ok E R D fs → unused fs i → disk_ok E R D (put_file fs i f).
Proof.
  intros [HR HE HD Hv Hd Ht] Hi. split; [done..| | |].
  - intros d Hin. eapply version_ok_files; [by apply Hv|]. intros a j g Ha Hj Hg. cbn [put_file fs_files].
    rewrite list_lookup_insert_ne; [done|]. intros ->. destruct (Hi d Hin) as [H1 H2]. destruct Ha as [-> | ->]; done.
  - intros d Hin. cbn [put_file fs_files]. rewrite length_insert. by apply Hd.
  - exact Ht.
Qed.

Lemma keeps_put fs i f : unused fs i → keeps_wal fs (put_file fs i f).
Proof.
  intros Hi j x [Hj Hx]. split; [exact Hj|]. cbn [put_file fs_files]. rewrite list_lookup_insert_ne; [done|].
  intros ->. destruct (Hi (fs_dir fs)) as [H1 _]; [by left|]. apply H1, Hj. by left.
Qed.

Lemma keeps_checkpoint_put fs i f : unused fs i → keeps_checkpoint fs (put_file fs i f).
Proof.
  intros Hi j g Hj Hg. split; [exact Hj|]. cbn [put_file fs_files]. rewrite list_lookup_insert_ne; [done|].
  intros ->. destruct (Hi (fs_dir fs)) as [_ H2]; [by left|]. done.
Qed.

Lemma version_ok_dir E R D files d d' :
  version_ok E R D files d → d' !! path = d !! path → d' !! ckp = d !! ckp → version_ok E R D files d'.
Proof. intros Hv Hp Hc. unfold version_ok. by rewrite Hp, Hc. Qed.

Lemma dir_ok_mono n n' d : dir_ok n d → (n ≤ n')%nat → dir_ok n' d.
Proof. intros [H1 H2] Hn. split; [|done]. intros a i Ha Hi. specialize (H1 a i Ha Hi). lia. Qed.

Lemma dir_ok_insert n d a : dir_ok n d → dir_ok (S n) (<[a := n]> d).
Proof.
  intros [H1 H2]. split.
  - intros b i Hb [[_ <-]|[_ Hi]]%lookup_insert_Some; [lia|]. specialize (H1 _ _ Hb Hi). lia.
  - intros b b' i Hb Hb' [[<- <-]|[Hne Hi]]%lookup_insert_Some [[<- Hj]|[Hne' Hi']]%lookup_insert_Some; [done| | |by eauto].
    + specialize (H1 _ _ Hb' Hi'). lia.
    + specialize (H1 _ _ Hb Hi). lia.
Qed.

Lemma temp_names a : a = ctmp ∨ a = rtmp → a ∈ names ∧ a ≠ path ∧ a ≠ ckp.
Proof.
  pose proof (names_distinct path Hpath) as Hnd. rewrite !NoDup_cons in Hnd. unfold names.
  intros [-> | ->]; set_solver.
Qed.

Lemma in_names : path ∈ names ∧ ckp ∈ names.
Proof. unfold names. set_solver. Qed.

(** Creating a temporary file. *)
Lemma disk_create E R D fs a :
  disk_ok E R D fs → a = ctmp ∨ a = rtmp →
  let fs' := put_dir (mkFS (fs_files fs ++ [mkFile [] []]) (fs_dir fs) (fs_dir_old fs))
               (<[a := length (fs_files fs)]> (fs_dir fs)) in
  disk_ok E R D fs' ∧ keeps_wal fs fs' ∧ keeps_checkpoint fs fs'.
Proof.
  intros [HR HE HD Hv Hd Ht] Ha fs'. destruct (temp_names a Ha) as (Hin & Hap & Hac).
  set (n := length (fs_files fs)) in *. destruct in_names as [Hinp Hinc].
  assert (∀ d, d ∈ dir_versions fs' → d = <[a := n]> (fs_dir fs) ∨ d ∈ dir_versions fs) as Hver
    by (intros d [->|Hd']%elem_of_cons; auto).
  assert (∀ d, d ∈ dir_versions fs' → ∃ d0, d0 ∈ dir_versions fs ∧ d !! path = d0 !! path ∧ d !! ckp = d0 !! ckp) as Hsame.
  { intros d [->|Hd']%Hver; [|by eauto]. exists (fs_dir fs). rewrite !lookup_insert_ne by done. split; [by left|done]. }
  assert (unused fs' n) as Hnew.
  { intros d (d0 & Hd0 & -> & ->)%Hsame. destruct (Hd d0 Hd0) as [Hlt _].
    split; intros Hn; apply Hlt in Hn; (done || lia). }
  split; [|split].
  - split; [done..| | |].
    + intros d (d0 & Hd0 & Hp & Hc)%Hsame. eapply version_ok_dir; [|done..].
      eapply version_ok_files; [by apply Hv|]. intros. cbn. by apply lookup_app_l_Some.
    + intros d Hd'. cbn [fs' put_dir fs_files]. rewrite length_app. cbn. rewrite Nat.add_1_r.
      apply Hver in Hd' as [->|Hd'].
      * apply dir_ok_insert, Hd. by left.
      * eapply dir_ok_mono; [by apply Hd|]. unfold n. lia.
    + intros a' i Ha' Hi. cbn in Hi. apply lookup_insert_Some in Hi as [[<- <-]|[Hne Hi]]; [done|].
      intros d (d0 & Hd0 & -> & ->)%Hsame. by apply (Ht a' i).
  - intros i x [Hi Hx]. split.
    + intros d (d0 & Hd0 & -> & _)%Hsame. by apply Hi.
    + cbn. by apply lookup_app_l_Some.
  - intros j g Hj Hg. cbn. rewrite lookup_insert_ne by done. split; [done|]. by apply lookup_app_l_Some.
Qed.

(** A temporary file with the contents [x], not yet durable. *)
Definition temp_at (E : N) (R : list WalRecord) (D : option WalRecord) (fs0 : FS) (a : bytes) (i : nat) (x : bytes)
    (fs : FS) : Prop :=
  disk_ok E R D fs ∧ keeps_wal fs0 fs ∧ keeps_checkpoint fs0 fs ∧ fs_dir fs !! a = Some i ∧
  fd_bytes (file_at fs i) = x.

Lemma temp_at_lt E R D fs0 a i x fs : temp_at E R D fs0 a i x fs → a ∈ names → (i < length (fs_files fs))%nat.
Proof. intros (Hok & _ & _ & Hi & _) Ha. apply (dk_dir _ _ _ _ Hok (fs_dir fs)) in Hi; [done|by left|done]. Qed.

Lemma temp_put E R D fs0 a i x f fs :
  a = ctmp ∨ a = rtmp → temp_at E R D fs0 a i x fs → temp_at E R D fs0 a i (fd_bytes f) (put_file fs i f).
Proof.
  intros Ha Htemp. pose proof (temp_at_lt _ _ _ _ _ _ _ _ Htemp (proj1 (temp_names a Ha))) as Hlt.
  destruct Htemp as (Hok & Hkeep & Hkeepc & Hi & _).
  assert (unused fs i) as Hun by (by apply (dk_temps _ _ _ _ Hok a i)).
  split_and!; [by apply disk_put|by eapply keeps_wal_trans, keeps_put| |done|by rewrite file_at_put].
  by eapply keeps_checkpoint_trans, keeps_checkpoint_put.
Qed.

Section temp.
Context {S E' A : Type} `{FromIo E'} (q : Prop) (s : S) (Q : result A E' → S → FS → Prop).
Context (E : N) (R : list WalRecord) (D : option WalRecord) (fs0 : FS) (a : bytes) (Ha : a = ctmp ∨ a = rtmp).
Context (Hbad : ∀ e fs, ¬ q → disk_ok E R D fs → keeps_wal fs0 fs → Q (Err e) s fs).

Lemma spec_temp_open (k : File → IO S E' A) :
  disk_ok E R D fs0 →
  (∀ i fs, temp_at E R D fs0 a i [] fs → spec q s fs (k (mkHandle i 0)) Q) →
  spec q s fs0 (open_create true a ≫= k) Q.
Proof.
  intros Hok Hgood. unfold open_create. io_call; [intros; by apply Hbad|].
  destruct (fs_dir fs0 !! a) as [i|] eqn:Hi; cbn [fst snd]; apply Hgood.
  - apply (temp_put _ _ _ _ a _ (fd_bytes (file_at fs0 i)) (mkFile [] _)); [done|]. by split_and!.
  - destruct (disk_create E R D fs0 a Hok Ha) as (Hok' & Hkeep & Hkeepc). split_and!; [done|done|done| |].
    + cbn. by rewrite lookup_insert_eq.
    + unfold file_at. cbn. by rewrite lookup_app_r, Nat.sub_diag by lia.
Qed.

Lemma spec_temp_write i x data fs (k : File → IO S E' A) :
  temp_at E R D fs0 a i x fs →
  (∀ fs, temp_at E R D fs0 a i (x ++ data) fs → spec q s fs (k (mkHandle i (len (x ++ data)))) Q) →
  spec q s fs (write_all (mkHandle i (len x)) data ≫= k) Q.
Proof.
  intros Htemp Hgood. assert (fd_bytes (file_at fs i) = x) as Hx by apply Htemp.
  unfold write_all, write_file. io_call; cbn [fh_inode fh_pos].
  - intros e n Hq. eapply temp_put in Htemp as (Hok & Hkeep & _); [|done]. by apply Hbad.
  - rewrite Hx, write_at_end, <-len_app. apply Hgood. by apply (temp_put _ _ _ _ a i x (mkFile (x ++ data) _)).
Qed.

Lemma spec_temp_sync i x fs pos (k : unit → IO S E' A) :
  temp_at E R D fs0 a i x fs →
  (∀ fs, temp_at E R D fs0 a i x fs → fs_files fs !! i = Some (mkFile x x) → spec q s fs (k tt) Q) →
  spec q s fs (sync_data (mkHandle i pos) ≫= k) Q.
Proof.
  intros Htemp Hgood. assert (fd_bytes (file_at fs i) = x) as Hx by apply Htemp.
  pose proof (temp_at_lt _ _ _ _ _ _ _ _ Htemp (proj1 (temp_names a Ha))) as Hlt.
  unfold sync_data. io_call; [intros; apply Hbad; [done|apply Htemp..]|].
  cbn [fh_inode]. rewrite Hx. apply Hgood; [by apply (temp_put _ _ _ _ a i x (mkFile x x))|].
  cbn. by rewrite list_lookup_insert_eq.
Qed.
End temp.

(** Renaming a temporary file to the log or the checkpoint. *)
Lemma disk_rename E R D fs a target i :
  disk_ok E R D fs → a = ctmp ∨ a = rtmp → target = path ∨ target = ckp → fs_dir fs !! a = Some i →
  version_ok E R D (fs_files fs) (<[target := i]> (delete a (fs_dir fs))) →
  disk_ok E R D (put_dir fs (<[target := i]> (delete a (fs_dir fs)))).
Proof.
  intros [HR HE HD Hv Hd Ht] Ha Htarget Hi Hnew. set (d' := <[target := i]> (delete a (fs_dir fs))) in *.
  destruct (temp_names a Ha) as (Hin & Hap & Hac). destruct in_names as [Hinp Hinc].
  assert (target ∈ names) as Hint by (by destruct Htarget as [-> | ->]).
  assert (dir_ok (length (fs_files fs)) (fs_dir fs)) as [Hlt Hinj] by (apply Hd; by left).
  assert (∀ b j, d' !! b = Some j → b = target ∧ j = i ∨ b ≠ target ∧ b ≠ a ∧ fs_dir fs !! b = Some j) as Hd'.
  { intros b j [[-> ->]|[Hne [Hne' Hj]%lookup_delete_Some]]%lookup_insert_Some; [by left|]. right. auto. }
  split; [done..| | |].
  - intros d [->|Hd1]%elem_of_cons; [done|by apply Hv].
  - intros d [->|Hd1]%elem_of_cons; [|by apply Hd]. split.
    + intros b j Hb [[-> ->]|(_ & _ & Hj)]%Hd'; [by apply (Hlt a)|by apply (Hlt b)].
    + intros b b' j Hb Hb' [[-> ->]|(Hne & Hna & Hj)]%Hd' [[-> ?]|(Hne' & Hna' & Hj')]%Hd'; [done| | |by eauto].
      * by destruct Hna'; apply (Hinj b' a i).
      * by destruct Hna; apply (Hinj b a j); [..|subst j].
  - intros b j Hb [[-> ->]|(Hne & Hna & Hj)]%Hd'.
    { destruct (temp_names target Hb) as (_ & ? & ?). by destruct Htarget. }
    destruct (temp_names b Hb) as (Hbin & Hbp & Hbc).
    assert (unused fs j) as Hun by (by apply (Ht b)).
    intros d [->|Hd1]%elem_of_cons; [|by apply Hun].
    assert (∀ b', b' = path ∨ b' = ckp → d' !! b' ≠ Some j) as Hj'.
    { intros b' Hb' [[-> ->]|(_ & _ & Hj')]%Hd'.
      - by destruct Hna; apply (Hinj b a i).
      - destruct (Hun (fs_dir fs)) as [H1 H2]; [by left|]. by destruct Hb' as [-> | ->]. }
    split; apply Hj'; auto.
Qed.

Lemma disk_sync E R D fs :
  disk_ok E R D fs →
  disk_ok E R D (mkFS (fs_files fs) (fs_dir fs) []) ∧ keeps_wal fs (mkFS (fs_files fs) (fs_dir fs) []).
Proof.
  intros [HR HE HD Hv Hd Ht].
  assert (∀ d, d ∈ dir_versions (mkFS (fs_files fs) (fs_dir fs) []) → d ∈ dir_versions fs) as Hsub.
  { intros d Hin. apply list_elem_of_singleton in Hin as ->. by left. }
  split; [split; [done..|by auto|by auto|]|].
  - intros a i Ha Hi d Hin. apply (Ht a i); auto.
  - intros i x [Hi Hx]. split; auto.
Qed.

Lemma spec_sync_parent {S E' A} `{FromIo E'} q (s : S) fs (k : unit → IO S E' A) Q :
  (∀ e, ¬ q → Q (Err e) s fs) → spec q s (mkFS (fs_files fs) (fs_dir fs) []) (k tt) Q →
  spec q s fs (sync_parent_directory ≫= k) Q.
Proof.
  intros Hbad Hgood. apply spec_bind. unfold sync_parent_directory, open_directory, sync_all_directory.
  io_call; [auto|]. apply spec_call; [auto|]. exact Hgood.
Qed.

(** ** Publishing a checkpoint *)

(** The checkpoint of the whole log is in place, and durable. *)
Definition checkpointed (E : N) (R : list WalRecord) (fs : FS) : Prop :=
  fs_dir_old fs = [] ∧
  ∃ j g, fs_dir fs !! ckp = Some j ∧ fs_files fs !! j = Some g ∧ checkpoint_file E R (length R) g.

Lemma rename_checkpoint_ok E R D fs0 i x fs :
  temp_at E R D fs0 ctmp i x fs → fs_files fs !! i = Some (mkFile x x) → checkpoint_image E R (length R) x →
  let fs' := put_dir fs (<[ckp := i]> (delete ctmp (fs_dir fs))) in
  disk_ok E R D fs' ∧ keeps_wal fs0 fs'.
Proof.
  intros (Hok & Hkeep & _ & Hi & _) Hf Hx fs'. destruct (temp_names ctmp) as (_ & Hp & Hc); [by left|].
  assert (path ≠ ckp) as Hpc by done.
  assert (∀ d : directory, (<[ckp := i]> (delete ctmp d)) !! path = d !! path) as Hsame.
  { intros d. by rewrite lookup_insert_ne, lookup_delete_ne. }
  split.
  - apply disk_rename; [done|by left|by right|done|].
    destruct (dk_version _ _ _ _ Hok (fs_dir fs)) as (w & b & f & Hw & Hwf & Hb & Hwal & _); [by left|].
    exists w, b, f. rewrite Hsame, lookup_insert_eq. split_and!; [done..|].
    exists (mkFile x x), (length R). split_and!; [done|by exists x|done|lia].
  - eapply keeps_wal_trans; [done|]. intros w y [Hw Hy]. split; [|done].
    intros d [->|Hd]%elem_of_cons; [|by apply Hw]. unfold fs'. cbn [put_dir fs_dir]. rewrite Hsame.
    apply Hw. by left.
Qed.

Lemma write_checkpoint_ok {S} q (s : S) E R D fs d :
  disk_ok E R D fs → owner d → td_ownership_epoch d ≤ E →
  spec q s fs (write_checkpoint blake3 checkpoint_to_vec ckp (tablet_after d (batches R)))
    (λ res s' fs', s' = s ∧ disk_ok E R D fs' ∧ keeps_wal fs fs' ∧
      match res with Ok _ => checkpointed E R fs' | Err _ => True end).
Proof.
  intros Hok Hd HE. unfold write_checkpoint. apply spec_bind, spec_result.
  destruct (checkpoint_to_vec _) as [p|e] eqn:Hp; [|by split_and!].
  destruct (N.ltb_spec MAX_CHECKPOINT_BYTES (len p)) as [|Hlen]; [by apply spec_fail|].
  io_call; [by intros|].
  set (Q := λ (res : result unit CheckpointError) s' fs', _).
  assert (∀ e fs', ¬ q → disk_ok E R D fs' → keeps_wal fs fs' → Q (Err e) s fs') as Hbad by (intros; by split_and!).
  assert (ctmp = ctmp ∨ ctmp = rtmp) as Ha by (by left).
  apply (spec_temp_open q s Q E R D fs ctmp Ha Hbad); [done|]. intros i fs1 Ht.
  apply (spec_temp_write q s Q E R D fs ctmp Ha Hbad i []); [done|]. clear fs1 Ht. intros fs1 Ht. cbn [app].
  apply (spec_temp_write q s Q E R D fs ctmp Ha Hbad i); [done|]. clear fs1 Ht. intros fs1 Ht.
  apply (spec_temp_write q s Q E R D fs ctmp Ha Hbad i); [done|]. clear fs1 Ht. intros fs1 Ht.
  apply (spec_temp_write q s Q E R D fs ctmp Ha Hbad i); [done|]. clear fs1 Ht. intros fs1 Ht.
  apply (spec_temp_sync q s Q E R D fs ctmp Ha Hbad i _ _ _ _ Ht). clear fs1 Ht. intros fs1 Ht Hsync.
  unfold rename. io_call; [intros; apply Hbad; [done|apply Ht..]|].
  assert (fs_dir fs1 !! ctmp = Some i) as Hi by apply Ht. rewrite Hi. cbn [fst snd].
  rewrite as_u32_small, <-!(assoc_L (++)) in Hsync, Ht by (unfold MAX_CHECKPOINT_BYTES, U32 in *; lia).
  assert (checkpoint_image E R (length R) (CHECKPOINT_MAGIC ++ to_le_bytes 4 (len p) ++ p ++ blake3 p)) as Himg.
  { exists d, p. rewrite firstn_all. split; [exact Hd|]. by split_and!. }
  destruct (rename_checkpoint_ok _ _ _ _ _ _ _ Ht Hsync Himg) as [Hok2 Hkeep2].
  set (fs2 := put_dir fs1 _) in *. destruct (disk_sync _ _ _ _ Hok2) as [Hok3 Hkeep3].
  unfold sync_parent_directory, open_directory, sync_all_directory.
  io_call; [intros; by apply Hbad|]. apply spec_call; [intros; by apply Hbad|].
  refine (conj eq_refl (conj Hok3 (conj (keeps_wal_trans _ _ _ Hkeep2 Hkeep3) (conj eq_refl _)))).
  eexists i, _. refine (conj (lookup_insert_eq _ _ _) (conj Hsync _)). by eexists.
Qed.

(** ** Reclaiming the log *)

Lemma wal_bytes_all R : wal_bytes (length R) R = encode_wal_header blake3 (len R) (tablet_of id R) (last_epoch R).
Proof.
  unfold TabletLog.wal_bytes. rewrite firstn_all, drop_all. unfold frames. cbn. by rewrite (right_id_L [] (++)).
Qed.

Lemma cutting_noop fs i x fs' :
  (i < length (fs_files fs))%nat → file_at fs i = mkFile x x → cutting fs i x fs' → fs' = fs.
Proof.
  intros Hi Hx. inversion 1; [done|rewrite Hx; cbn|]; rewrite <-Hx; by apply put_same.
Qed.

Lemma file_at_Some fs i f : fs_files fs !! i = Some f → file_at fs i = f.
Proof. intros Hf. unfold file_at. by rewrite Hf. Qed.

Lemma rename_wal_ok E R D fs0 i fs j g :
  temp_at E R D fs0 rtmp i (wal_bytes (length R) R) fs →
  fs_files fs !! i = Some (mkFile (wal_bytes (length R) R) (wal_bytes (length R) R)) →
  fs_dir fs !! ckp = Some j → fs_files fs !! j = Some g → checkpoint_file E R (length R) g →
  disk_ok E R D (put_dir fs (<[path := i]> (delete rtmp (fs_dir fs)))).
Proof.
  intros (Hok & _ & _ & Hi & _) Hf Hj Hg Hck. destruct (temp_names rtmp) as (_ & Hp & Hc); [by right|].
  apply disk_rename; [done|by right|by left|done|].
  exists i, (length R), (mkFile (wal_bytes (length R) R) (wal_bytes (length R) R)).
  rewrite lookup_insert_eq, lookup_insert_ne, lookup_delete_ne, Hj by done. split_and!; [done|done|lia| |].
  - exists [], []. rewrite (right_id_L [] (++)). split_and!; [apply prefix_nil..|done].
  - exists g, (length R). split_and!; [done|done|lia|lia].
Qed.

Lemma reclaim_ok q E R D fs file offsets b :
  let self := wal_at path file offsets b R in
  disk_ok E R D fs → checkpointed E R fs → (b ≤ length R)%nat →
  spec q self fs (FileWal_reclaim_through blake3 record_from_slice (len R))
    (λ res s' fs', disk_ok E R D fs' ∧ fw_path s' = path ∧
      match res with
      | Ok _ => ∃ file offsets, s' = wal_at path file offsets (length R) R ∧
          wal_synced fs' (fh_inode file) (wal_bytes (length R) R)
      | Err _ => fw_poisoned s' = true
      end).
Proof.
  intros self Hok (Hold & j & g & Hj & Hg & Hck) Hb. unfold FileWal_reclaim_through. apply spec_bind, spec_get.
  change (fw_poisoned self) with false. cbv iota. unfold self at 1 2. rewrite last_sequence_ok by (done || apply Hok).
  rewrite N.eqb_refl. cbn [negb]. apply spec_bind, spec_put. change (fw_path self) with path.
  change (fw_tablet_id self) with (tablet_of id R). change (fw_latest_ownership_epoch self) with (last_epoch R).
  rewrite <-wal_bytes_all. set (Q := λ res s' fs', _). set (x := wal_bytes (length R) R) in *.
  assert (∀ e fs', ¬ q → disk_ok E R D fs' → keeps_wal fs fs' → Q (Err e) (set_poisoned self) fs') as Hbad
    by (intros; by split_and!).
  assert (rtmp = ctmp ∨ rtmp = rtmp) as Ha by (by right).
  apply (spec_temp_open q _ Q E R D fs rtmp Ha Hbad); [done|]. intros i fs1 Ht.
  apply (spec_temp_write q _ Q E R D fs rtmp Ha Hbad i []); [done|]. clear fs1 Ht. intros fs1 Ht. cbn [app] in *.
  apply (spec_temp_sync q _ Q E R D fs rtmp Ha Hbad i _ _ _ _ Ht). clear fs1 Ht. intros fs1 Ht Hsync.
  unfold rename. io_call; [intros; apply Hbad; [done|apply Ht..]|].
  pose proof Ht as (Hok1 & _ & Hckp1 & Hi1 & _). destruct (Hckp1 j g Hj Hg) as [Hj1 Hg1]. rewrite Hi1. cbn [fst snd].
  pose proof (rename_wal_ok _ _ _ _ _ _ _ _ Ht Hsync Hj1 Hg1 Hck) as Hok2.
  set (fs2 := put_dir fs1 _) in *. destruct (disk_sync _ _ _ _ Hok2) as [Hok3 _].
  apply spec_sync_parent; [intros; split_and!; done|]. set (fs3 := mkFS _ _ _) in *.
  assert (fs_dir fs3 !! path = Some i) as Hdir by apply lookup_insert_eq.
  assert (fs_files fs3 !! i = Some (mkFile x x)) as Hfile by exact Hsync.
  pose proof (lookup_lt_Some _ _ _ Hfile) as Hlt. apply file_at_Some in Hfile as Hat.
  apply spec_bind. eapply spec_mono.
  - apply (FileWal_open_ok blake3 Hblake3 record_to_vec record_from_slice Hrecord id Hid range q _ fs3 path i (length R) R []);
      [done|done|apply Hok|done|by left|]. rewrite Hat. by rewrite (right_id_L [] (++)).
  - intros res s' fs' [-> Hres]. destruct res as [wal|e].
    + destruct Hres as (file' & offsets' & Hinode & -> & ->). apply spec_put. split_and!; [done|done|].
      exists file', offsets'. rewrite Hinode. split; [done|]. split; [|done].
      intros d Hd%list_elem_of_singleton. by subst d.
    + destruct Hres as [_ Hcut]. apply cutting_noop in Hcut as ->; [|done|done]. by split_and!.
Qed.

(** ** Changes of the log *)

Lemma wal_bytes_inj R b b' t t' :
  log_ok R → (b ≤ length R)%nat → (b' ≤ length R)%nat → wal_bytes b R ++ t = wal_bytes b' R ++ t' → b = b'.
Proof.
  intros HR Hb Hb' Heq. unfold TabletLog.wal_bytes in Heq. rewrite <-!(assoc_L (++)) in Heq.
  apply app_inj_1 in Heq as [Heq _].
  2:{ apply Nat2N.inj. change (len (encode_wal_header blake3 (N.of_nat b) (tablet_of id (take b R)) (last_epoch (take b R))) =
        len (encode_wal_header blake3 (N.of_nat b') (tablet_of id (take b' R)) (last_epoch (take b' R)))).
      by rewrite !len_encode_wal_header. }
  apply (f_equal (decode_wal_header blake3)) in Heq.
  rewrite !(decode_header_ok blake3 Hblake3 record_to_vec id Hid range) in Heq by done. injection Heq as Hn _ _. lia.
Qed.

Lemma checkpoint_file_mono E E' R R' c f :
  E ≤ E' → R `prefix_of` R' → (c ≤ length R)%nat → checkpoint_file E R c f → checkpoint_file E' R' c f.
Proof.
  intros HE [T ->] Hc (x & -> & d & p & Hd & He & Hp & Hlen & ->). eexists. split; [done|].
  exists d, p. rewrite take_app_le by done. split; [exact Hd|]. split_and!; [lia|done..].
Qed.

(** A change of the log file that turns a log of [R] into one of [R']. *)
Lemma disk_wal E R D R' D' fs i f f' :
  disk_ok E R D fs → (∀ d, d ∈ dir_versions fs → d !! path = Some i) → fs_files fs !! i = Some f →
  R `prefix_of` R' → log_ok R' → (∀ e, last_epoch R' = Some e → e ≤ E) →
  (∀ r, D' = Some r → record_ok R' r ∧ wr_ownership_epoch r ≤ E) →
  (∀ b, (b ≤ length R)%nat → wal_file R D b f → wal_file R' D' b f') →
  disk_ok E R' D' (put_file fs i f').
Proof.
  intros [_ _ _ Hv Hd Ht] Hi Hf Hpre HR' HE' HD' Hwal. pose proof (prefix_length _ _ Hpre) as Hlen.
  pose proof (lookup_lt_Some _ _ _ Hf) as Hlt. destruct in_names as [Hinp Hinc].
  split; [done..| | |].
  - intros d Hin. destruct (Hv d Hin) as (i' & b & f0 & Hi' & Hf0 & Hb & Hw & Hck).
    rewrite (Hi d Hin) in Hi'. injection Hi' as <-. assert (f0 = f) as -> by congruence.
    exists i, b, f'. cbn [put_file fs_files]. rewrite list_lookup_insert_eq by done.
    split_and!; [by apply Hi|done|lia|by apply Hwal|].
    destruct (d !! ckp) as [j|] eqn:Hj; [|done]. destruct Hck as (g & c & Hg & Hck & Hc).
    exists g, c. rewrite list_lookup_insert_ne.
    + split_and!; [done| |lia..]. eapply checkpoint_file_mono; [|done|lia|done]. done.
    + intros ->. destruct (Hd d Hin) as [_ Hinj]. by destruct Hpath; apply (Hinj ckp path j); [..|apply Hi].
  - intros d Hin. cbn [put_file fs_files]. rewrite length_insert. by apply Hd.
  - exact Ht.
Qed.

Lemma disk_ok_mono E E' R D fs : E ≤ E' → disk_ok E R D fs → disk_ok E' R D fs.
Proof.
  intros HE [HR He HD Hv Hd Ht]. split; [done| | | |done|done].
  - intros e Hl. specialize (He e Hl). lia.
  - intros r Hr. destruct (HD r Hr). split; [done|lia].
  - intros d Hin. destruct (Hv d Hin) as (i & b & f & Hi & Hf & Hb & Hw & Hck). exists i, b, f. split_and!; [done..|].
    destruct (d !! ckp); [|done]. destruct Hck as (g & c & Hg & Hck & Hc). exists g, c. split_and!; [done| |lia..].
    eapply checkpoint_file_mono; [done|done|lia|done].
Qed.

Lemma wal_file_None R b x : wal_file R None b (mkFile x x) → x = wal_bytes b R.
Proof.
  intros (t & c & ->%prefix_nil_inv & _ & Heq). apply (f_equal fd_bytes) in Heq. cbn [fd_bytes] in Heq.
  by rewrite (right_id_L [] (++)) in Heq.
Qed.

(** An append that has been interrupted, and one that has not. *)
Lemma disk_append_partial E R fs i b r t c :
  let x := wal_bytes b R in
  disk_ok E R None fs → wal_synced fs i x → record_ok R r → wr_ownership_epoch r ≤ E →
  t `prefix_of` frame r → c = x ∨ c = x ++ t → disk_ok E R (Some r) (put_file fs i (mkFile (x ++ t) c)).
Proof.
  intros x Hok [Hi Hx] Hr He Ht Hc.
  apply (disk_wal E R None R (Some r) fs i (mkFile x x)); [done..|apply Hok|apply Hok|by intros ? [= <-]|].
  intros b' Hb' Hxb%wal_file_None. exists t, (if decide (c = x) then [] else t). cbn [doubtful].
  case_decide as Hcx; (split_and!; [done|by (apply prefix_nil || done)|]).
  - by rewrite Hcx, Hxb, (right_id_L [] (++)).
  - destruct Hc as [->| ->]; [done|]. by rewrite Hxb.
Qed.

Lemma disk_append E R fs i b r :
  let x := wal_bytes b R ++ frame r in
  let fs' := put_file fs i (mkFile x x) in
  disk_ok E R None fs → wal_synced fs i (wal_bytes b R) → (b ≤ length R)%nat → record_ok R r → wr_ownership_epoch r ≤ E →
  disk_ok E (R ++ [r]) None fs' ∧ wal_synced fs' i (wal_bytes b (R ++ [r])).
Proof.
  intros x fs' Hok [Hi Hx] Hb Hr He. split.
  - apply (disk_wal E R None (R ++ [r]) None fs i (mkFile (wal_bytes b R) (wal_bytes b R))); [done..| | | |done|].
    + by apply prefix_app_r.
    + constructor; [apply Hok|done].
    + rewrite last_epoch_snoc. by intros ? [= <-].
    + intros b' Hb' Hxb%wal_file_None. exists [], []. rewrite (right_id_L [] (++)).
      split_and!; [done..|]. unfold x. by rewrite Hxb, <-wal_bytes_snoc.
  - split; [exact Hi|]. unfold fs'. cbn [put_file fs_files]. rewrite list_lookup_insert_eq by (by eapply lookup_lt_Some).
    unfold x. by rewrite wal_bytes_snoc.
Qed.

(** ** Power failures *)

Lemma persist_same x c : may_persist (mkFile x x) c → c = x.
Proof. intros [H1 H2|H1 H2|H1 H2]; cbn in *; [by apply (anti_symm prefix)..|done]. Qed.

Lemma persist_wal p t u w c :
  t `prefix_of` w → u `prefix_of` w → may_persist (mkFile (p ++ t) (p ++ u)) c → ∃ t', t' `prefix_of` w ∧ c = p ++ t'.
Proof.
  assert (∀ a b, b `prefix_of` w → p ++ a `prefix_of` c → c `prefix_of` p ++ b → ∃ t', t' `prefix_of` w ∧ c = p ++ t')
    as Hbetween.
  { intros a b Hb [k ->] Hc. rewrite <-(assoc_L (++)) in *. exists (a ++ k). split; [|done].
    etrans; [|done]. by eapply prefix_app_inv. }
  intros Ht Hu [H1 H2|H1 H2|H1 H2]; cbn in *; [by eauto..|].
  destruct (prefix_weak_total _ _ _ Ht Hu) as [Htu|Hut]; [destruct H2|destruct H1]; by apply prefix_app.
Qed.

Definition all_synced (fs : FS) : Prop := Forall (λ f, f = mkFile (fd_bytes f) (fd_bytes f)) (fs_files fs).

Lemma power_failure_ok E R D fs fs' :
  disk_ok E R D fs → power_failure fs fs' → disk_ok E R D fs' ∧ fs_dir_old fs' = [] ∧ all_synced fs'.
Proof.
  intros [HR HE HD Hv Hd Ht] (Hdir & Hold & Hfiles).
  assert (∀ d, d ∈ dir_versions fs' → d = fs_dir fs') as Hone
    by (intros d Hin; unfold dir_versions in Hin; rewrite Hold in Hin; by apply list_elem_of_singleton in Hin).
  assert (∀ i f, fs_files fs !! i = Some f → ∃ c, may_persist f c ∧ fs_files fs' !! i = Some (mkFile c c)) as Hlookup.
  { intros i f Hi. destruct (Forall2_lookup_l _ _ _ _ _ Hfiles Hi) as (f' & Hf' & c & Hc & ->). by exists c. }
  split_and!; [split; [done..| | |]|done|].
  - intros d ->%Hone. destruct (Hv _ Hdir) as (i & b & f & Hi & Hf & Hb & (t & u & Htd & Hud & ->) & Hck).
    apply Hlookup in Hf as (c & Hc & Hf). apply (persist_wal _ t u (doubtful D)) in Hc as (t' & Ht' & ->); [|done..].
    exists i, b, (mkFile (wal_bytes b R ++ t') (wal_bytes b R ++ t')). split_and!; [done..|by exists t', t'|].
    destruct (fs_dir fs' !! ckp) as [j|]; [|done]. destruct Hck as (g & c & Hg & (x & -> & Himg) & Hle).
    apply Hlookup in Hg as (c' & ->%persist_same & Hg). exists (mkFile x x), c. split_and!; [done|by exists x|lia..].
  - intros d ->%Hone. rewrite <-(Forall2_length _ _ _ Hfiles). by apply Hd.
  - intros a i Ha Hi d ->%Hone. destruct (Hd _ Hdir) as [_ Hinj]. destruct (temp_names a Ha) as (Hin & Hap & Hac).
    destruct in_names as [Hinp Hinc]. split; intros Hi'; [destruct Hap|destruct Hac]; by eapply Hinj.
  - apply Forall_lookup_2. intros i f' Hf'.
    destruct (Forall2_lookup_r _ _ _ _ _ Hfiles Hf') as (f & _ & c & _ & ->). done.
Qed.

(** ** Opening *)

(** The records found in a log with a write in doubt. *)
Definition resolved (R : list WalRecord) (D : option WalRecord) (R' : list WalRecord) : Prop :=
  R' = R ∨ ∃ r, D = Some r ∧ R' = R ++ [r].

(** The log file [i], rewritten; its contents tell how much was reclaimed. *)
Lemma disk_rewrite E R D R' D' fs i b t f' :
  disk_ok E R D fs → (∀ d, d ∈ dir_versions fs → d !! path = Some i) →
  fs_files fs !! i = Some (mkFile (wal_bytes b R ++ t) (wal_bytes b R ++ t)) → (b ≤ length R)%nat →
  R `prefix_of` R' → log_ok R' → (∀ e, last_epoch R' = Some e → e ≤ E) →
  (∀ r, D' = Some r → record_ok R' r ∧ wr_ownership_epoch r ≤ E) →
  wal_file R' D' b f' → disk_ok E R' D' (put_file fs i f').
Proof.
  intros Hok Hver Hf Hb Hpre HR' HE' HD' Hf'. eapply disk_wal; [done..|].
  intros b' Hb' (t1 & c1 & _ & _ & Heq). apply (f_equal fd_bytes) in Heq. cbn [fd_bytes] in Heq.
  apply wal_bytes_inj in Heq as <-; [done|apply Hok|done..].
Qed.

(** What opening a log file [i] makes of the disk: with a fault, or not. *)
Definition opens_as (E : N) (R : list WalRecord) (D : option WalRecord) (fs : FS) (i b : nat) (R' : list WalRecord)
    (t : bytes) : Prop :=
  log_ok R' ∧ (b ≤ length R')%nat ∧ torn t ∧
  (∀ fs', cutting fs i (wal_bytes b R') fs' → disk_ok E R D fs') ∧
  disk_ok E R' None (cut_to fs i t (wal_bytes b R')) ∧ wal_synced (cut_to fs i t (wal_bytes b R')) i (wal_bytes b R').

Lemma opens_torn E R D fs i b t :
  disk_ok E R D fs → (∀ d, d ∈ dir_versions fs → d !! path = Some i) →
  fs_files fs !! i = Some (mkFile (wal_bytes b R ++ t) (wal_bytes b R ++ t)) → (b ≤ length R)%nat →
  t `prefix_of` doubtful D → torn t → opens_as E R D fs i b R t.
Proof.
  intros Hok Hver Hf Hb Ht Htorn. pose proof (lookup_lt_Some _ _ _ Hf) as Hlt.
  pose proof (file_at_Some _ _ _ Hf) as Hat. set (pre := wal_bytes b R) in *.
  assert (∀ D' f', (∀ r, D' = Some r → record_ok R r ∧ wr_ownership_epoch r ≤ E) → wal_file R D' b f' →
    disk_ok E R D' (put_file fs i f')) as Hput.
  { intros D' f' HD' Hf'. eapply disk_rewrite; [done..|apply Hok|apply Hok|done|done]. }
  assert (cut_to fs i t pre = put_file fs i (mkFile pre pre)) as Hcut.
  { destruct t; [|done]. cbn [cut_to]. rewrite (right_id_L [] (++)) in Hat. rewrite <-Hat. symmetry. by apply put_same. }
  assert (wal_file R None b (mkFile pre pre)) as Hclean
    by (exists [], []; by rewrite (right_id_L [] (++))).
  unfold opens_as. fold pre. rewrite Hcut. split_and!; [apply Hok|done|done| |by apply Hput|].
  - intros fs' [| |]; [done| |].
    + rewrite Hat. apply Hput; [apply Hok|]. exists [], t. rewrite (right_id_L [] (++)).
      split_and!; [apply prefix_nil|done|done].
    + apply Hput; [apply Hok|]. exists [], []. rewrite (right_id_L [] (++)). split_and!; [apply prefix_nil..|done].
  - split; [exact Hver|]. cbn [put_file fs_files]. by rewrite list_lookup_insert_eq.
Qed.

Lemma opens_whole E R r fs i b :
  disk_ok E R (Some r) fs → (∀ d, d ∈ dir_versions fs → d !! path = Some i) →
  fs_files fs !! i = Some (mkFile (wal_bytes b R ++ frame r) (wal_bytes b R ++ frame r)) → (b ≤ length R)%nat →
  opens_as E R (Some r) fs i b (R ++ [r]) [].
Proof.
  intros Hok Hver Hf Hb. pose proof (lookup_lt_Some _ _ _ Hf) as Hlt. pose proof (file_at_Some _ _ _ Hf) as Hat.
  destruct (dk_doubt _ _ _ _ Hok r eq_refl) as [Hr He].
  assert (log_ok (R ++ [r])) as HR' by (constructor; [apply Hok|done]).
  assert (disk_ok E (R ++ [r]) None (put_file fs i (file_at fs i))) as Hok'.
  { eapply disk_rewrite; [done..|by apply prefix_app_r|done| |done|].
    - rewrite last_epoch_snoc. by intros ? [= <-].
    - exists [], []. by rewrite Hat, wal_bytes_snoc, (right_id_L [] (++)). }
  rewrite put_same in Hok' by done. rewrite <-(wal_bytes_snoc blake3 record_to_vec id) in Hat, Hf by done.
  unfold opens_as. cbn [cut_to]. split_and!; [done|rewrite length_app; lia|by left| |done|by split].
  intros fs' Hcut. by apply cutting_noop in Hcut as ->.
Qed.

Lemma open_image E R D fs i b f :
  disk_ok E R D fs → fs_dir_old fs = [] → fs_dir fs !! path = Some i → fs_files fs !! i = Some f →
  f = mkFile (fd_bytes f) (fd_bytes f) → (b ≤ length R)%nat → wal_file R D b f →
  ∃ R' t, resolved R D R' ∧ opens_as E R D fs i b R' t ∧ fd_bytes f = wal_bytes b R' ++ t.
Proof.
  intros Hok Hold Hi Hf Hsync Hb (t & u & Ht & Hu & Hfile).
  assert (∀ d, d ∈ dir_versions fs → d !! path = Some i) as Hver.
  { intros d Hin. unfold dir_versions in Hin. rewrite Hold in Hin. by apply list_elem_of_singleton in Hin as ->. }
  assert (f = mkFile (wal_bytes b R ++ t) (wal_bytes b R ++ t)) as -> by (rewrite Hsync, Hfile; done).
  clear Hsync Hfile u Hu. cbn [fd_bytes].
  assert (torn t ∨ ∃ r, D = Some r ∧ t = frame r) as [Htorn|(r & -> & ->)].
  { destruct D as [r|]; cbn [doubtful] in Ht; [|left; left; by apply prefix_nil_inv].
    destruct Ht as [u Hu]. destruct u as [|y u].
    - right. exists r. split; [done|]. by rewrite (right_id_L [] (++)) in Hu.
    - left. right. exists r, (y :: u). split_and!; [done..|]. by destruct (dk_doubt _ _ _ _ Hok r eq_refl) as [[] _]. }
  - exists R, t. split_and!; [by left|by apply opens_torn|done].
  - exists (R ++ [r]), []. split_and!; [right; by exists r|by apply opens_whole|].
    by rewrite wal_bytes_snoc, (right_id_L [] (++)).
Qed.

(** ** The store *)

Definition store_ok (E : N) (R : list WalRecord) (D : option WalRecord) (fs : FS) (s : WalBackedTablet) : Prop :=
  wb_checkpoint_path s = ckp ∧ fw_path (wb_wal s) = path ∧
  ∃ d, owner d ∧ td_ownership_epoch d ≤ E ∧ (∀ e, last_epoch R = Some e → e ≤ td_ownership_epoch d) ∧
    wb_tablet s = tablet_after d (batches R) ∧
    (fw_poisoned (wb_wal s) = false →
     D = None ∧ ∃ file offsets b, wb_wal s = wal_at path file offsets b R ∧ (b ≤ length R)%nat ∧
       wal_synced fs (fh_inode file) (wal_bytes b R)).

(** The tablet that [open] builds from the checkpoint, if any, and the log. *)
Lemma load_and_replay_ok {S} q (s : S) E R fs file offsets b d :
  disk_ok E R None fs → (b ≤ length R)%nat → wal_synced fs (fh_inode file) (wal_bytes b R) → owner d →
  let E' := N.max E (td_ownership_epoch d) in
  spec q s fs
    (loaded ← io_map_err BCheckpoint (load_checkpoint blake3 checkpoint_from_slice ckp d);
     tablet ← match loaded with
              | Some tablet => mret tablet
              | None => io_map_err BWal (io_result (FileWal_recover_memory_tablet (wal_at path file offsets b R) d))
              end;
     tablet ← io_map_err BWal (io_result (FileWal_replay_after_checkpoint (wal_at path file offsets b R) tablet));
     mret (mkStore tablet (wal_at path file offsets b R) ckp))
    (λ res s' fs', s' = s ∧ fs' = fs ∧
      match res with
      | Ok st => disk_ok E' R None fs' ∧ store_ok E' R None fs' st
      | Err _ => q → td_ownership_epoch d < E
      end).
Proof.
  intros Hok Hb Hwal Hd E'. set (Q := λ res s' fs', _).
  pose proof (dk_log _ _ _ _ Hok) as HR.
  assert (∀ r, recovered d R r → match r with Ok _ => True | Err _ => td_ownership_epoch d < E end) as Hstale.
  { intros [t|e]; [done|]. intros (e' & He' & Hlt). apply (dk_epoch _ _ _ _ Hok) in He'. lia. }
  assert (∀ c, (b ≤ c ≤ length R)%nat →
    spec q s fs (tablet ← io_map_err BWal (io_result (FileWal_replay_after_checkpoint (wal_at path file offsets b R)
                                                        (tablet_after d (batches (take c R)))));
                 mret (mkStore tablet (wal_at path file offsets b R) ckp)) Q) as Hfinish.
  { intros c Hc. pose proof (replay_checkpoint_ok path file offsets b c R d Hd HR Hc) as Hrec.
    apply spec_bind, spec_map_err, spec_result. specialize (Hstale _ Hrec).
    destruct (FileWal_replay_after_checkpoint _ _) as [t|e]; [|by split_and!].
    destruct Hrec as [-> Hnewer]. apply spec_ret. refine (conj eq_refl (conj eq_refl (conj _ _))).
    - eapply disk_ok_mono; [|done]. lia.
    - split_and!; [done..|]. exists d. split; [done|]. split_and!; [unfold E'; lia|done|done|].
      intros _. split; [done|]. by exists file, offsets, b. }
  destruct (dk_version _ _ _ _ Hok (fs_dir fs)) as (i & b' & f & Hi & Hf & Hb' & Hw & Hck); [by left|].
  destruct Hwal as [Hver Hx]. rewrite (Hver (fs_dir fs)) in Hi by (by left). injection Hi as <-.
  rewrite Hx in Hf. injection Hf as <-. apply wal_file_None in Hw.
  assert (b = b') as <- by (apply (wal_bytes_inj R b b' [] []); [done..|by rewrite Hw]).
  apply spec_bind, spec_map_err. destruct (fs_dir fs !! ckp) as [j|] eqn:Hj.
  - destruct Hck as (g & c & Hg & (y & -> & Himg) & Hc). eapply spec_mono.
    + eapply (load_checkpoint_ok q s fs ckp j E R c y d); [done| |done..]. by rewrite (file_at_Some _ _ _ Hg).
    + intros res s' fs' (-> & -> & Hres). destruct res as [v|e]; [|by split_and!].
      subst v. apply spec_bind, spec_ret. by apply Hfinish.
  - subst b. unfold load_checkpoint. apply spec_path_exists. rewrite Hj, bool_decide_eq_false_2 by (by intros [? ?]).
    cbn [negb]. apply spec_ret. apply spec_bind, spec_map_err, spec_result.
    pose proof (recover_ok path file offsets R d Hd HR) as Hrec. specialize (Hstale _ Hrec).
    destruct (FileWal_recover_memory_tablet _ _) as [t|e]; [|by split_and!].
    destruct Hrec as [-> _]. specialize (Hfinish (length R)). rewrite firstn_all in Hfinish. apply Hfinish. lia.
Qed.

Lemma open_ok {S} q (s : S) E R D fs d :
  disk_ok E R D fs → fs_dir_old fs = [] → all_synced fs → owner d →
  let E' := N.max E (td_ownership_epoch d) in
  spec q s fs (WalBackedTablet_open blake3 record_from_slice checkpoint_from_slice d path)
    (λ res s' fs', s' = s ∧
      match res with
      | Ok st => ∃ R', resolved R D R' ∧ disk_ok E' R' None fs' ∧ store_ok E' R' None fs' st
      | Err _ => (∃ R' D', resolved R D R' ∧ (D' = None ∨ D' = D ∧ R' = R) ∧ disk_ok E R' D' fs') ∧
          (q → td_ownership_epoch d < E)
      end).
Proof.
  intros Hok Hold Hsync Hd E'. unfold WalBackedTablet_open.
  destruct (dk_version _ _ _ _ Hok (fs_dir fs)) as (i & b & f & Hi & Hf & Hb & Hw & _); [by left|].
  assert (f = mkFile (fd_bytes f) (fd_bytes f)) as Hfs by (by apply (Forall_lookup_1 _ _ _ _ Hsync Hf)).
  destruct (open_image E R D fs i b f) as (R' & t & HR' & (Hlog & Hb' & Htorn & Herr & Hgood & Hwal) & Hbytes); [done..|].
  apply spec_bind, spec_map_err. eapply spec_mono.
  - apply (FileWal_open_ok blake3 Hblake3 record_to_vec record_from_slice Hrecord id Hid range q s fs path i b R' t);
      [done|by eapply lookup_lt_Some|done|done|done|]. by rewrite (file_at_Some _ _ _ Hf).
  - intros res s' fs' [-> Hres]. destruct res as [wal|e].
    + destruct Hres as (file & offsets & <- & -> & ->). eapply spec_mono; [by apply (load_and_replay_ok q s E)|].
      intros res s' fs' (-> & -> & Hres). split; [done|]. destruct res as [st|e].
      * by exists R'.
      * split; [|done]. exists R', None. auto.
    + destruct Hres as [Hq Hcut]. split; [done|]. split; [|done]. exists R, D. split_and!; [by left|by right|by apply Herr].
Qed.

Lemma store_ok_keeps E R D fs fs' s : store_ok E R D fs s → keeps_wal fs fs' → store_ok E R D fs' s.
Proof.
  intros (Hc & Hp & d & Hd & He & Hnew & Ht & Hclean) Hkeep. split_and!; [done..|].
  exists d. refine (conj Hd (conj He (conj Hnew (conj Ht _)))). intros Hpo.
  destruct (Hclean Hpo) as [-> (file & offsets & b & Hw & Hb & Hwal)]. split; [done|].
  exists file, offsets, b. auto.
Qed.

(** A write the store has no reason to refuse. *)
Definition accepts (s : WalBackedTablet) (w : TabletWrite) : Prop :=
  fw_poisoned (wb_wal s) = false ∧ MemoryTablet_validate_write (wb_tablet s) w = Ok tt ∧
  ∃ p, record_to_vec (WalRecord_to_disk (WalRecord_from_write w)) = Ok p ∧ len p ≤ MAX_WAL_RECORD_BYTES.

Lemma validated_record R d w :
  owner d → log_ok R → (∀ e, last_epoch R = Some e → e ≤ td_ownership_epoch d) → distinct_keys (tw_mutations w) →
  MemoryTablet_validate_write (tablet_after d (batches R)) w = Ok tt →
  (∃ p, record_to_vec (WalRecord_to_disk (WalRecord_from_write w)) = Ok p ∧ len p ≤ MAX_WAL_RECORD_BYTES) →
  record_ok R (WalRecord_from_write w).
Proof.
  intros (Hdid & Hdr & He1 & He2) HR Hnew Hkeys Hval (p & Hp & Hlen).
  apply validate_write_Ok in Hval as (Hwid & Hwe & Hprev & Hseq & Hlt & Hin). rewrite len_batches in *.
  assert (payload record_to_vec (WalRecord_from_write w) = p) as Hpay by (unfold payload; by rewrite Hp).
  split; cbn [WalRecord_from_write wr_tablet_id wr_ownership_epoch wr_sequence wr_expected_previous_sequence wr_mutations];
    rewrite ?Hpay, ?Hwe, ?Hwid; try done.
  unfold in_range_batch in Hin. by rewrite Hdr in Hin.
Qed.

Lemma commit_ok q E R D fs s w :
  disk_ok E R D fs → store_ok E R D fs s → distinct_keys (tw_mutations w) →
  let r := WalRecord_from_write w in
  spec q s fs (WalBackedTablet_commit blake3 record_to_vec w)
    (λ res s' fs',
      match res with
      | Ok n => D = None ∧ n = len R + 1 ∧ disk_ok E (R ++ [r]) None fs' ∧ store_ok E (R ++ [r]) None fs' s'
      | Err e =>
          (disk_ok E R D fs' ∧ store_ok E R D fs' s' ∧ (q → ¬ accepts s w)) ∨
          ((∃ kind message, e = BWal (WIo kind message)) ∧ ¬ q ∧ D = None ∧
           disk_ok E R (Some r) fs' ∧ store_ok E R (Some r) fs' s')
      end).
Proof.
  intros Hok Hs Hkeys r. pose proof Hs as (Hc & Hp & d & Hd & He & Hnew & Ht & Hclean).
  unfold WalBackedTablet_commit. apply spec_bind, spec_get. apply spec_bind, spec_map_err, spec_result.
  destruct (MemoryTablet_validate_write (wb_tablet s) w) as [[]|e] eqn:Hval.
  2:{ left. split_and!; [done..|]. intros _ (_ & Hval' & _). congruence. }
  apply spec_bind, spec_field, spec_map_err.
  destruct (fw_poisoned (wb_wal s)) eqn:Hpo.
  { unfold FileWal_append_write. apply spec_bind, spec_get. rewrite Hpo. apply spec_fail. left.
    assert (set_wal (wb_wal s) s = s) as -> by (by destruct s). split_and!; [done..|]. intros _ (Hpo' & _). congruence. }
  destruct (Hclean eq_refl) as [-> (file & offsets & b & Hw & Hb & Hwal)].
  rewrite Ht in Hval. pose proof Hval as (Hwid & Hwe & Hprev & Hseq & Hlt & Hin)%validate_write_Ok.
  rewrite len_batches in *. rewrite Hw. pose proof Hd as (Hdid & Hdr & Hde). unfold in_range_batch in Hin. rewrite Hdr in Hin.
  assert (wr_ownership_epoch r ≤ E) as Hre by (cbn; by rewrite Hwe).
  eapply spec_mono.
  - apply (FileWal_append_ok blake3 record_to_vec id Hid range q fs path file offsets b R w (fh_inode file));
      cbn [WalRecord_from_write wr_tablet_id wr_ownership_epoch wr_sequence wr_expected_previous_sequence wr_mutations];
      rewrite ?Hwe, ?Hwid; try done; [by eapply lookup_lt_Some, Hwal|by apply file_at_Some, Hwal|apply Hok].
  - intros res wal fs' Hres. destruct res as [[]|e].
    + destruct Hres as (Hr & -> & file' & offsets' & Hinode & ->).
      destruct (disk_append E R fs (fh_inode file) b r) as [Hok' Hwal']; [done..|].
      apply spec_bind, spec_get. cbn [set_wal wb_tablet]. rewrite Ht, publish_after by (by rewrite len_batches).
      apply spec_bind, spec_put, spec_ret. rewrite len_batches.
      refine (conj eq_refl (conj eq_refl (conj Hok' _))). split_and!; [done|done|]. exists d.
      refine (conj Hd (conj He (conj _ (conj _ _)))).
      * rewrite last_epoch_snoc. intros ? [= <-]. cbn. rewrite Hwe. lia.
      * cbn. unfold batches. by rewrite fmap_app.
      * intros _. split; [done|]. exists file', offsets', b. rewrite Hinode. split_and!; [done|rewrite length_app; lia|done].
    + destruct Hres as [(-> & -> & Hno)|((k & m & ->) & Hq & Hr & Hpath' & Hpo' & t & c & Ht' & Hc' & ->)].
      * left. assert (set_wal (wal_at path file offsets b R) s = s) as -> by (destruct s; cbn in *; by subst).
        split_and!; [done..|]. intros Hq (_ & _ & Hp'). apply Hno; [done|]. eapply validated_record; [done|apply Hok|done..].
      * right. split; [by eexists _, _|]. split; [done|]. split; [done|].
        split; [by apply disk_append_partial|].
        split_and!; [done|done|]. exists d. refine (conj Hd (conj He (conj Hnew (conj Ht _)))). cbn. congruence.
Qed.

Lemma publish_ok q E R D fs s :
  disk_ok E R D fs → store_ok E R D fs s →
  spec q s fs (WalBackedTablet_publish_checkpoint blake3 checkpoint_to_vec)
    (λ res s' fs', s' = s ∧ disk_ok E R D fs' ∧ store_ok E R D fs' s ∧
      match res with Ok _ => checkpointed E R fs' | Err _ => True end).
Proof.
  intros Hok Hs. pose proof Hs as (Hc & Hp & d & Hd & He & Hnew & Ht & Hclean).
  unfold WalBackedTablet_publish_checkpoint. apply spec_bind, spec_get, spec_map_err. rewrite Hc, Ht.
  eapply spec_mono; [by apply (write_checkpoint_ok q s E R D)|].
  intros res s' fs' (-> & Hok' & Hkeep & Hres). refine (conj eq_refl (conj Hok' (conj _ _))).
  - by eapply store_ok_keeps.
  - by destruct res.
Qed.

Lemma checkpoint_ok q E R D fs s :
  disk_ok E R D fs → store_ok E R D fs s →
  spec q s fs (WalBackedTablet_checkpoint blake3 record_from_slice checkpoint_to_vec)
    (λ res s' fs', disk_ok E R D fs' ∧ store_ok E R D fs' s').
Proof.
  intros Hok Hs. unfold WalBackedTablet_checkpoint. apply spec_bind.
  eapply spec_mono; [by apply (publish_ok q E R D)|].
  intros res s' fs1 (-> & Hok1 & Hs1 & Hres). destruct res as [[]|e]; [|done]. clear fs Hok Hs.
  apply spec_bind, spec_get, spec_field, spec_map_err.
  pose proof Hs1 as (Hc & Hp & d & Hd & He & Hnew & Ht & Hclean).
  destruct (fw_poisoned (wb_wal s)) eqn:Hpo.
  { unfold FileWal_reclaim_through. apply spec_bind, spec_get. rewrite Hpo. apply spec_fail.
    by assert (set_wal (wb_wal s) s = s) as -> by (by destruct s). }
  destruct (Hclean eq_refl) as [-> (file & offsets & b & Hw & Hb & Hwal)]. rewrite Hw, Ht.
  rewrite (proj2 (tablet_after_shape d (batches R))), len_batches.
  eapply spec_mono; [by apply (reclaim_ok q E R None fs1)|].
  intros res wal fs2 (Hok2 & Hpath2 & Hres2). split; [done|]. split_and!; [done|done|].
  exists d. refine (conj Hd (conj He (conj Hnew (conj Ht _)))). cbn [set_wal wb_wal].
  destruct res as [[]|e]; [|congruence]. destruct Hres2 as (file' & offsets' & -> & Hwal2). intros _.
  split; [done|]. exists file', offsets', (length R). by split_and!.
Qed.

(** ** Runs

    A tablet and its disk.  Between power failures the store takes commands, any
    call of which may fail; after a power failure it is opened again. *)

Record System := mkSystem { sy_fs : FS; sy_store : option WalBackedTablet }.

Inductive event :=
| EvCommit (w : TabletWrite) (r : result N WalBackedError)
| EvPublish (r : result unit WalBackedError)
| EvCheckpoint (r : result unit WalBackedError)
| EvRestart (epoch : N) (failed : option WalBackedError).

Inductive sys_step : System → event → System → Prop :=
| step_commit fs s w faults r s' fs' faults' :
    distinct_keys (tw_mutations w) →
    WalBackedTablet_commit blake3 record_to_vec w s (mkWorld fs faults) = Some (r, s', mkWorld fs' faults') →
    sys_step (mkSystem fs (Some s)) (EvCommit w r) (mkSystem fs' (Some s'))
| step_publish fs s faults r s' fs' faults' :
    WalBackedTablet_publish_checkpoint blake3 checkpoint_to_vec s (mkWorld fs faults) =
      Some (r, s', mkWorld fs' faults') →
    sys_step (mkSystem fs (Some s)) (EvPublish r) (mkSystem fs' (Some s'))
| step_checkpoint fs s faults r s' fs' faults' :
    WalBackedTablet_checkpoint blake3 record_from_slice checkpoint_to_vec s (mkWorld fs faults) =
      Some (r, s', mkWorld fs' faults') →
    sys_step (mkSystem fs (Some s)) (EvCheckpoint r) (mkSystem fs' (Some s'))
| step_restart fs st fs1 d faults r fs' faults' :
    owner d → power_failure fs fs1 →
    WalBackedTablet_open blake3 record_from_slice checkpoint_from_slice d path tt (mkWorld fs1 faults) =
      Some (r, tt, mkWorld fs' faults') →
    sys_step (mkSystem fs st)
      (EvRestart (td_ownership_epoch d) (match r with Ok _ => None | Err e => Some e end))
      (mkSystem fs' (match r with Ok s => Some s | Err _ => None end)).

Inductive sys_steps : System → list event → System → Prop :=
| sys_nil sy : sys_steps sy [] sy
| sys_snoc sy evs sy1 ev sy2 : sys_steps sy evs sy1 → sys_step sy1 ev sy2 → sys_steps sy (evs ++ [ev]) sy2.

(** The specification: the batches committed, and one whose commit failed on the
    disk, so that it may or may not be found after the next power failure. *)
Record History := mkHistory { hi_log : list batch; hi_doubt : option batch; hi_epoch : N }.

Inductive history_step : History → event → History → Prop :=
| history_committed l w e :
    history_step (mkHistory l None e) (EvCommit w (Ok (len l + 1))) (mkHistory (l ++ [tw_mutations w]) None e)
| history_refused h w err : history_step h (EvCommit w (Err err)) h
| history_interrupted l w e kind message :
    history_step (mkHistory l None e) (EvCommit w (Err (BWal (WIo kind message))))
      (mkHistory l (Some (tw_mutations w)) e)
| history_publish h r : history_step h (EvPublish r) h
| history_checkpoint h r : history_step h (EvCheckpoint r) h
| history_found l b e epoch failed :
    history_step (mkHistory l (Some b) e) (EvRestart epoch failed) (mkHistory (l ++ [b]) None (N.max e epoch))
| history_lost l d e epoch failed :
    history_step (mkHistory l d e) (EvRestart epoch failed) (mkHistory l None (N.max e epoch))
| history_open_failed l d e epoch err :
    history_step (mkHistory l d e) (EvRestart epoch (Some err)) (mkHistory l d (N.max e epoch)).

Inductive history_steps : History → list event → History → Prop :=
| history_nil h : history_steps h [] h
| history_snoc h evs h1 ev h2 :
    history_steps h evs h1 → history_step h1 ev h2 → history_steps h (evs ++ [ev]) h2.

(** The store holds exactly the batches of a log, at every snapshot. *)
Definition serves (s : WalBackedTablet) (log : list batch) : Prop :=
  WalBackedTablet_current_sequence s = len log ∧
  ∀ key snapshot, WalBackedTablet_read_at s key snapshot =
    if len log <? snapshot then Err (SnapshotAhead (len log) snapshot) else
    if KeyRange_contains range key then Ok (after (take (N.to_nat snapshot) log) !! key) else Err KeyOutsideTabletRange.

Lemma store_serves E R D fs s : store_ok E R D fs s → serves s (batches R).
Proof.
  intros (_ & _ & d & (_ & Hdr & _) & _ & _ & Ht & _).
  unfold serves, WalBackedTablet_current_sequence, WalBackedTablet_read_at. rewrite Ht. split.
  - apply tablet_after_shape.
  - intros key snapshot. rewrite read_at_after, Hdr. done.
Qed.

(** The system and the specification agree. *)
Definition agrees (sy : System) (h : History) : Prop :=
  ∃ R D, hi_log h = batches R ∧ hi_doubt h = wr_mutations <$> D ∧ disk_ok (hi_epoch h) R D (sy_fs sy) ∧
    match sy_store sy with Some s => store_ok (hi_epoch h) R D (sy_fs sy) s | None => True end.

Lemma spec_run {S E' A} (m : IO S E' A) (s : S) fs faults r s' fs' faults' Q :
  spec False s fs m Q → m s (mkWorld fs faults) = Some (r, s', mkWorld fs' faults') → Q r s' fs'.
Proof.
  intros Hm Heq. destruct (Hm faults) as (r1 & s1 & fs1 & f1 & Heq1 & _ & HQ); [done|]. rewrite Heq in Heq1.
  by injection Heq1 as <- <- <- <-.
Qed.

Lemma batches_snoc R r : batches (R ++ [r]) = batches R ++ [wr_mutations r].
Proof. unfold batches. by rewrite fmap_app. Qed.

Lemma step_commit_agrees fs s w faults r s' fs' faults' h :
  distinct_keys (tw_mutations w) →
  WalBackedTablet_commit blake3 record_to_vec w s (mkWorld fs faults) = Some (r, s', mkWorld fs' faults') →
  agrees (mkSystem fs (Some s)) h → ∃ h', history_step h (EvCommit w r) h' ∧ agrees (mkSystem fs' (Some s')) h'.
Proof.
  intros Hkeys Hrun (R & D & Hl & Hd & Hok & Hs). destruct h as [l d e]. cbn in *. subst l d.
  eapply spec_run in Hrun; [|by apply (commit_ok False e R D fs s w)]. destruct r as [n|err].
  - destruct Hrun as (-> & -> & Hok' & Hs'). rewrite <-(len_batches R). eexists. split; [apply history_committed|].
    exists (R ++ [WalRecord_from_write w]), None. cbn. rewrite batches_snoc. by split_and!.
  - destruct Hrun as [(Hok' & Hs' & _)|((k & m & ->) & _ & -> & Hok' & Hs')].
    + eexists. split; [apply history_refused|]. by exists R, D.
    + eexists. split; [apply history_interrupted|]. by exists R, (Some (WalRecord_from_write w)).
Qed.

Lemma resolved_history R D R' e epoch failed :
  resolved R D R' →
  history_step (mkHistory (batches R) (wr_mutations <$> D) e) (EvRestart epoch failed)
    (mkHistory (batches R') None (N.max e epoch)).
Proof.
  intros [->|(r & -> & ->)]; [apply history_lost|]. rewrite batches_snoc. apply history_found.
Qed.

Lemma step_restart_agrees fs st fs1 d faults r fs' faults' h :
  owner d → power_failure fs fs1 →
  WalBackedTablet_open blake3 record_from_slice checkpoint_from_slice d path tt (mkWorld fs1 faults) =
    Some (r, tt, mkWorld fs' faults') →
  agrees (mkSystem fs st) h →
  ∃ h', history_step h (EvRestart (td_ownership_epoch d) (match r with Ok _ => None | Err e => Some e end)) h' ∧
    agrees (mkSystem fs' (match r with Ok s => Some s | Err _ => None end)) h'.
Proof.
  intros Hd Hpf Hrun (R & D & Hl & Hdo & Hok & _). destruct h as [l dd e]. cbn in *. subst l dd.
  destruct (power_failure_ok _ _ _ _ _ Hok Hpf) as (Hok1 & Hold1 & Hsync1).
  eapply spec_run in Hrun; [|by apply (open_ok False tt e R D fs1 d)]. destruct Hrun as [_ Hres].
  assert (∀ R D fs, disk_ok e R D fs → disk_ok (N.max e (td_ownership_epoch d)) R D fs) as Hmono
    by (intros; eapply disk_ok_mono; [|done]; lia).
  destruct r as [s|err].
  - destruct Hres as (R' & HR' & Hok' & Hs'). eexists. split; [by apply resolved_history|]. by exists R', None.
  - destruct Hres as [(R' & D' & HR' & [->|[-> ->]] & Hok') _].
    + eexists. split; [by apply resolved_history|]. exists R', None. split_and!; [done..| |done]. by apply Hmono.
    + eexists. split; [apply history_open_failed|]. exists R, D. split_and!; [done..| |done]. by apply Hmono.
Qed.

Lemma step_agrees sy ev sy' h :
  sys_step sy ev sy' → agrees sy h → ∃ h', history_step h ev h' ∧ agrees sy' h'.
Proof.
  destruct 1 as [fs s w faults r s' fs' faults' Hkeys Hrun|fs s faults r s' fs' faults' Hrun
    |fs s faults r s' fs' faults' Hrun|fs st fs1 d faults r fs' faults' Hd Hpf Hrun]; intros Hagree.
  - by eapply step_commit_agrees.
  - destruct Hagree as (R & D & Hl & Hd & Hok & Hs).
    eapply spec_run in Hrun; [|by apply (publish_ok False (hi_epoch h) R D fs s)]. destruct Hrun as (-> & Hok' & Hs' & _).
    exists h. split; [constructor|]. by exists R, D.
  - destruct Hagree as (R & D & Hl & Hd & Hok & Hs).
    eapply spec_run in Hrun; [|by apply (checkpoint_ok False (hi_epoch h) R D fs s)]. destruct Hrun as (Hok' & Hs').
    exists h. split; [constructor|]. by exists R, D.
  - by eapply step_restart_agrees.
Qed.

Lemma steps_agree sy evs sy' h :
  sys_steps sy evs sy' → agrees sy h → ∃ h', history_steps h evs h' ∧ agrees sy' h'.
Proof.
  intros Hsteps Hagree. induction Hsteps as [sy|sy evs sy1 ev sy2 _ IH Hstep].
  - exists h. split; [constructor|done].
  - destruct (IH Hagree) as (h1 & Hh1 & Hagree1). destruct (step_agrees _ _ _ _ Hstep Hagree1) as (h2 & Hh2 & Hagree2).
    exists h2. split; [by econstructor|done].
Qed.

(** A tablet whose creation on an empty disk has been acknowledged; calls may
    have failed as far as [open] tolerates it. *)
Definition created (d : TabletDescriptor) (sy : System) : Prop :=
  ∃ faults s fs faults',
    WalBackedTablet_open blake3 record_from_slice checkpoint_from_slice d path tt (mkWorld empty_fs faults) =
      Some (Ok s, tt, mkWorld fs faults') ∧ sy = mkSystem fs (Some s).

Lemma disk_ok_new E : let x := wal_bytes 0 [] in disk_ok E [] None (mkFS [mkFile x x] {[path := 0%nat]} []).
Proof.
  intros x. assert (∀ a i, ({[path := 0%nat]} : directory) !! a = Some i → a = path ∧ i = 0%nat) as Hdir
    by (by intros a i [<- <-]%lookup_singleton_Some).
  assert (∀ d, d ∈ dir_versions (mkFS [mkFile x x] {[path := 0%nat]} []) → d = {[path := 0%nat]}) as Hone
    by (intros d Hd; by apply list_elem_of_singleton in Hd).
  split; [constructor|done|done|..].
  - intros d ->%Hone. exists 0%nat, 0%nat, (mkFile x x). rewrite lookup_singleton_eq, lookup_singleton_ne by done.
    split_and!; [done..| |done]. exists [], []. by rewrite (right_id_L [] (++)).
  - intros d ->%Hone. split.
    + intros a i _ [_ ->]%Hdir. cbn. lia.
    + intros a a' i _ _ [-> _]%Hdir [-> _]%Hdir. done.
  - intros a i Ha [-> _]%Hdir. by destruct (temp_names path Ha) as (_ & ? & _).
Qed.

Lemma create_ok q d :
  owner d →
  spec q tt empty_fs (WalBackedTablet_open blake3 record_from_slice checkpoint_from_slice d path)
    (λ res _ fs', match res with
       | Ok st => disk_ok (td_ownership_epoch d) [] None fs' ∧ store_ok (td_ownership_epoch d) [] None fs' st
       | Err _ => ¬ q
       end).
Proof.
  intros Hd. set (E := td_ownership_epoch d). unfold WalBackedTablet_open. apply spec_bind, spec_map_err.
  eapply spec_mono; [by apply (FileWal_create_ok blake3 Hblake3 record_to_vec record_from_slice Hrecord id Hid range)|].
  intros res s' fs' [-> Hres]. destruct res as [wal|e]; [|done]. destruct Hres as (-> & file & offsets & Hfile & ->).
  eapply spec_mono.
  - apply (load_and_replay_ok q tt E [] _ file offsets 0 d); [apply disk_ok_new|done| |done].
    rewrite Hfile. split; [|done]. intros dir Hdir%list_elem_of_singleton. subst dir. apply lookup_singleton_eq.
  - intros res s' fs' (-> & -> & Hres). unfold E in *. rewrite N.max_id in Hres. destruct res as [st|e]; [done|].
    intros Hq%Hres. lia.
Qed.

Lemma created_agrees d sy : owner d → created d sy → agrees sy (mkHistory [] None (td_ownership_epoch d)).
Proof.
  intros Hd (faults & s & fs & faults' & Hrun & ->).
  eapply spec_run in Hrun; [|by apply (create_ok False)]. by exists [], None.
Qed.

(** Creation succeeds on a disk without faults. *)
Lemma creates d :
  owner d → ∃ s w,
    WalBackedTablet_open blake3 record_from_slice checkpoint_from_slice d path tt (mkWorld empty_fs []) = Some (Ok s, tt, w).
Proof.
  intros Hd. destruct (create_ok True d Hd []) as (r & [] & fs & f & Heq & _ & Hres); [by intros; apply Forall_nil_2|].
  destruct r as [s|e]; [|by destruct Hres]. by exists s, (mkWorld fs f).
Qed.

(** The store opens after any power failure, unless by an owner of the past. *)
Lemma recovers sy h fs' d :
  agrees sy h → power_failure (sy_fs sy) fs' → owner d → hi_epoch h ≤ td_ownership_epoch d →
  ∃ s w, WalBackedTablet_open blake3 record_from_slice checkpoint_from_slice d path tt (mkWorld fs' []) = Some (Ok s, tt, w) ∧
    (serves s (hi_log h) ∨ ∃ b, hi_doubt h = Some b ∧ serves s (hi_log h ++ [b])).
Proof.
  intros (R & D & -> & -> & Hok & _) Hpf Hd He.
  destruct (power_failure_ok _ _ _ _ _ Hok Hpf) as (Hok1 & Hold1 & Hsync1).
  destruct (open_ok True tt _ R D fs' d Hok1 Hold1 Hsync1 Hd []) as (r & [] & fs2 & f2 & Heq & _ & _ & Hres);
    [by intros; apply Forall_nil_2|].
  destruct r as [s|err]; [|destruct Hres as [_ Hlt]; specialize (Hlt I); lia].
  exists s, (mkWorld fs2 f2). split; [done|]. destruct Hres as (R' & [->|(r & -> & ->)] & _ & Hs%store_serves).
  - by left.
  - right. exists (wr_mutations r). by rewrite batches_snoc in Hs.
Qed.

(** A write that the store accepts is committed when no call fails. *)
Lemma commits sy h s w :
  agrees sy h → sy_store sy = Some s → accepts s w → distinct_keys (tw_mutations w) →
  ∃ s' w', WalBackedTablet_commit blake3 record_to_vec w s (mkWorld (sy_fs sy) []) = Some (Ok (len (hi_log h) + 1), s', w').
Proof.
  intros (R & D & -> & Hdo & Hok & Hs) Hst Hacc Hkeys. rewrite Hst in Hs.
  destruct (commit_ok True _ R D _ s w Hok Hs Hkeys []) as (r & s' & fs' & f' & Heq & _ & Hres);
    [by intros; apply Forall_nil_2|].
  exists s', (mkWorld fs' f'). rewrite Heq, len_batches. destruct r as [n|e].
  - by destruct Hres as (_ & -> & _).
  - destruct Hres as [(_ & _ & Hno)|(_ & Hq & _)]; [by destruct (Hno I)|by destruct Hq].
Qed.

(** [C2] Committed writes of a log-backed tablet are durable.  A tablet can be
    created on an empty disk without faults.  Once its creation has been acknowledged, let any
    writes be committed, checkpoints published and the log reclaimed, with input
    and output errors at any call and power failures at any moment; the store is
    opened again after a power failure, and only then, and that may fail, too.
    Then the run is one of the specification, which appends a batch to a log when
    its commit is acknowledged and forgets nothing: the store reads, at every
    snapshot, what the batches up to it left behind; after a power failure at the
    end of the run the store opens on a disk without faults, for every descriptor
    that is not outdated, with exactly the acknowledged batches and perhaps one
    more, whose commit had failed on the disk; and a write that passes validation
    is committed if the disk has no fault.  The batches write no key twice.
    [torn_header_unopenable], [unsynced_entry_lost] and [dup_key_unrecoverable]
    show what happens when creation is interrupted, when the store is opened
    again without a power failure, and when a batch writes a key twice. *)
Theorem tablet_crash_safe d sy0 evs sy :
  owner d → created d sy0 → sys_steps sy0 evs sy →
  (∃ s w, WalBackedTablet_open blake3 record_from_slice checkpoint_from_slice d path tt (mkWorld empty_fs []) =
            Some (Ok s, tt, w)) ∧
  ∃ h, history_steps (mkHistory [] None (td_ownership_epoch d)) evs h ∧
    (∀ s, sy_store sy = Some s → serves s (hi_log h)) ∧
    (∀ fs' d', power_failure (sy_fs sy) fs' → owner d' → hi_epoch h ≤ td_ownership_epoch d' →
       ∃ s w, WalBackedTablet_open blake3 record_from_slice checkpoint_from_slice d' path tt (mkWorld fs' []) =
                Some (Ok s, tt, w) ∧
         (serves s (hi_log h) ∨ ∃ b, hi_doubt h = Some b ∧ serves s (hi_log h ++ [b]))) ∧
    (∀ s w, sy_store sy = Some s → accepts s w → distinct_keys (tw_mutations w) →
       ∃ s' w', WalBackedTablet_commit blake3 record_to_vec w s (mkWorld (sy_fs sy) []) =
                  Some (Ok (len (hi_log h) + 1), s', w')).
Proof.
  intros Hd Hnew Hsteps. destruct (steps_agree _ _ _ _ Hsteps (created_agrees d sy0 Hd Hnew)) as (h & Hh & Hagree).
  split; [by apply creates|]. exists h. split_and!; [done| | |].
  - intros s Hs. destruct Hagree as (R & D & -> & _ & _ & Hst). rewrite Hs in Hst. by eapply store_serves.
  - intros fs' d' Hpf Hd' He. by eapply recovers.
  - intros s w Hs Hacc Hkeys. by eapply commits.
Qed.
End durable.
