(* ===== verification/TabletRuns.v ===== *)
(** * Runs of the log-backed tablet

    A codec in place of [serde_json] and a digest in place of [blake3], which
    meet what the theorems on tablets assume of them, and runs on a disk: one in
    which a commit is cut short by a fault and a power failure, one that shows
    what a batch that writes a key twice does to a checkpoint, and one that shows
    what is lost when a store is opened without a restart of the machine. *)
From Stdlib Require Import String.
From S2P Require Import Prelude Bytes Text Tablet FileSystem TabletWal TabletLog TabletStore TabletDurable.

Local Open Scope list_scope.
Local Open Scope N_scope.

(** ** A codec *)

Class Wire (A : Type) := {
  wire_put : A → bytes;
  wire_get : bytes → option (A * bytes);
  wire_get_put a rest : wire_get (wire_put a ++ rest) = Some (a, rest);
}.

#[global, refine] Instance wire_N : Wire N := {|
  wire_put n := [n];
  wire_get bs := match bs with [] => None | n :: rest => Some (n, rest) end;
  wire_get_put := _;
|}.
Proof. done. Defined.

#[global, refine] Instance wire_prod {A B} `{Wire A, Wire B} : Wire (A * B) := {|
  wire_put p := wire_put p.1 ++ wire_put p.2;
  wire_get bs := '(a, bs) ← wire_get bs; '(b, bs) ← wire_get bs; Some ((a, b), bs);
  wire_get_put := _;
|}.
Proof. intros [a b] rest. rewrite <-(assoc_L (++)), wire_get_put. cbn. by rewrite wire_get_put. Defined.

#[global, refine] Instance wire_option {A} `{Wire A} : Wire (option A) := {|
  wire_put o := match o with None => [0] | Some a => 1 :: wire_put a end;
  wire_get bs :=
    match bs with
    | [] => None
    | tag :: bs => if tag =? 0 then Some (None, bs) else '(a, bs) ← wire_get bs; Some (Some a, bs)
    end;
  wire_get_put := _;
|}.
Proof. intros [a|] rest; [|done]. cbn. by rewrite wire_get_put. Defined.

Fixpoint wire_gets {A} `{Wire A} (count : nat) (bs : bytes) : option (list A * bytes) :=
  match count with
  | O => Some ([], bs)
  | S count => '(a, bs) ← wire_get bs; '(l, bs) ← wire_gets count bs; Some (a :: l, bs)
  end.

#[global, refine] Instance wire_list {A} `{Wire A} : Wire (list A) := {|
  wire_put l := len l :: concat (wire_put <$> l);
  wire_get bs := match bs with [] => None | count :: bs => wire_gets (N.to_nat count) bs end;
  wire_get_put := _;
|}.
Proof.
  intros l rest. cbn. unfold len. rewrite Nat2N.id. induction l as [|a l IH]; [done|].
  cbn. rewrite <-(assoc_L (++)), wire_get_put. cbn. by rewrite IH.
Defined.

(** A type with the codec of another. *)
#[refine] Definition wire_as {A B} `{Wire B} (f : A → B) (g : B → A) (Hg : ∀ a, g (f a) = a) : Wire A := {|
  wire_put a := wire_put (f a);
  wire_get bs := '(b, bs) ← wire_get bs; Some (g b, bs);
  wire_get_put := _;
|}.
Proof. intros a rest. cbn. rewrite wire_get_put. cbn. by rewrite Hg. Defined.

#[global, refine] Instance wire_mutation : Wire TabletMutation :=
  wire_as (λ m, match m with Put key value => (key, Some value) | Delete key => (key, None) end)
    (λ '(key, value), match value with Some value => Put key value | None => Delete key end) _.
Proof. by intros []. Defined.

#[global, refine] Instance wire_version : Wire VersionedValue :=
  wire_as (λ v, (vv_sequence v, vv_value v)) (λ '(s, v), mkVersion s v) _.
Proof. by intros []. Defined.

#[global, refine] Instance wire_row : Wire TabletSnapshotRow :=
  wire_as (λ r, (sr_key r, sr_versions r)) (λ '(k, v), mkSnapshotRow k v) _.
Proof. by intros []. Defined.

#[global, refine] Instance wire_snapshot : Wire TabletSnapshotState :=
  wire_as (λ s, (ss_current_sequence s, ss_rows s)) (λ '(c, r), mkSnapshotState c r) _.
Proof. by intros []. Defined.

#[global, refine] Instance wire_record : Wire DiskWalRecord :=
  wire_as (λ r, (dr_version r, dr_tablet_id r, dr_ownership_epoch r, dr_sequence r,
                 dr_expected_previous_sequence r, dr_mutations r))
    (λ '(v, i, e, s, p, m), mkDiskRecord v i e s p m) _.
Proof. by intros []. Defined.

#[global, refine] Instance wire_checkpoint : Wire DiskCheckpoint :=
  wire_as (λ c, (dc_version c, dc_tablet_id c, dc_ownership_epoch c, dc_range_start c, dc_range_end c, dc_state c))
    (λ '(v, i, e, s, p, m), mkDiskCheckpoint v i e s p m) _.
Proof. by intros []. Defined.

(** The codec refuses what it does not put into bytes. *)
Definition to_vec {A} `{Wire A} (a : A) : result bytes bytes :=
  if forallb (λ b, b <? 256) (wire_put a) then Ok (wire_put a) else Err (str "number out of range").
Definition from_slice {A} `{Wire A} (bs : bytes) : result A bytes :=
  match wire_get bs with Some (a, []) => Ok a | _ => Err (str "malformed input") end.

Lemma from_slice_to_vec {A} `{Wire A} (a : A) p : to_vec a = Ok p → from_slice p = Ok a.
Proof.
  unfold to_vec, from_slice. destruct (forallb _ _); [|done]. intros [= <-].
  rewrite <-(right_id_L [] (++) (wire_put a)). by rewrite wire_get_put.
Qed.

(** The sum of the bytes, in 32 of them. *)
Definition digest (bs : bytes) : bytes := replicate 32 (foldr N.add 0 bs mod 256).

Lemma digest_32 bs : len (digest bs) = 32.
Proof. unfold digest, len. by rewrite length_replicate. Qed.

(** ** Disks after a power failure *)

(** All that was written is there, or only what was made durable. *)
Definition settled (fs : FS) : FS :=
  mkFS ((λ f, mkFile (fd_bytes f) (fd_bytes f)) <$> fs_files fs) (fs_dir fs) [].
Definition lost (fs : FS) : FS :=
  mkFS ((λ f, mkFile (fd_synced f) (fd_synced f)) <$> fs_files fs) (default (fs_dir fs) (last (fs_dir_old fs))) [].

Lemma power_failure_settled fs : power_failure fs (settled fs).
Proof.
  split_and!; [left|done|]. cbn. apply Forall2_fmap_r, Forall_Forall2_diag, Forall_true. intros f.
  exists (fd_bytes f). split; [|done]. destruct (decide (fd_synced f `prefix_of` fd_bytes f)); [by constructor|].
  destruct (decide (fd_bytes f `prefix_of` fd_synced f)); [by apply persist_cut|by apply persist_rewritten].
Qed.

Lemma power_failure_lost fs : power_failure fs (lost fs).
Proof.
  split_and!; [|done|].
  - cbn. unfold dir_versions. destruct (last (fs_dir_old fs)) as [d|] eqn:Hlast; cbn; [|left].
    right. by apply last_Some_elem_of.
  - cbn. apply Forall2_fmap_r, Forall_Forall2_diag, Forall_true. intros f.
    exists (fd_synced f). split; [|done]. destruct (decide (fd_synced f `prefix_of` fd_bytes f)); [by constructor|].
    destruct (decide (fd_bytes f `prefix_of` fd_synced f)); [by apply persist_cut|by apply persist_rewritten].
Qed.

(** ** Runs *)

Definition wal_name : bytes := str "t.wal".
Definition all_keys : KeyRange := mkKeyRange [] None.
Definition first_owner : TabletDescriptor := mkDescriptor 1 all_keys 1.

Definition run_open (fs : FS) : option (result WalBackedTablet WalBackedError * unit * World) :=
  WalBackedTablet_open digest from_slice from_slice first_owner wal_name tt (mkWorld fs []).
Definition run_commit (w : TabletWrite) (s : WalBackedTablet) (fs : FS) (faults : list (option Fault)) :=
  WalBackedTablet_commit digest to_vec w s (mkWorld fs faults).
Definition run_checkpoint (s : WalBackedTablet) (fs : FS) :=
  WalBackedTablet_checkpoint digest from_slice to_vec s (mkWorld fs []).

Definition put_write (n : N) (mutations : list TabletMutation) : TabletWrite := mkTabletWrite 1 1 n (n - 1) mutations.
Definition a_1 : TabletMutation := Put (str "a") (str "1").
Definition a_2 : TabletMutation := Put (str "a") (str "2").

Definition disk_full : IoError := mkIoError (OtherKind 28) (str "No space left on device (os error 28)").

(** A run in which a commit meets a full disk while it writes its record, the
    power fails with that record torn, and the store is opened and used again. *)
Definition torn_events : list event :=
  [EvCommit (put_write 1 [a_1]) (Ok 1);
   EvCommit (put_write 2 [a_2]) (Err (BWal (WIo (OtherKind 28) (io_message disk_full))));
   EvRestart 1 None;
   EvCheckpoint (Ok tt);
   EvCommit (put_write 2 [Delete (str "a")]) (Ok 2)].

(** The tablet as it is created. *)
Definition new_system : System :=
  match run_open empty_fs with
  | Some (Ok s, _, w) => mkSystem (w_fs w) (Some s)
  | _ => mkSystem empty_fs None
  end.

Lemma new_system_created : created digest from_slice from_slice wal_name first_owner new_system.
Proof.
  unfold created, new_system, run_open.
  assert (∃ s fs, WalBackedTablet_open digest from_slice from_slice first_owner wal_name tt (mkWorld empty_fs []) =
    Some (Ok s, tt, mkWorld fs [])) as (s & fs & Heq) by (do 2 eexists; vm_compute; reflexivity).
  exists [], s, fs, []. by rewrite Heq.
Qed.

Lemma torn_run : ∃ sy,
  sys_steps digest to_vec from_slice to_vec from_slice 1 all_keys wal_name new_system torn_events sy.
Proof.
  unfold torn_events. eexists.
  eapply (sys_snoc _ _ _ _ _ _ _ _ _ [_; _; _; _]); [eapply (sys_snoc _ _ _ _ _ _ _ _ _ [_; _; _])|].
  - eapply (sys_snoc _ _ _ _ _ _ _ _ _ [_; _]); [eapply (sys_snoc _ _ _ _ _ _ _ _ _ [_])|].
    + eapply (sys_snoc _ _ _ _ _ _ _ _ _ []); [apply sys_nil|]. vm_compute new_system.
      eapply (step_commit _ _ _ _ _ _ _ _ _ _ _ []); [apply NoDup_singleton|vm_compute; reflexivity].
    + eapply (step_commit _ _ _ _ _ _ _ _ _ _ _ [None; None; Some (mkFault 5 disk_full)]);
        [apply NoDup_singleton|vm_compute; reflexivity].
    + eapply (step_restart _ _ _ _ _ _ _ _ _ _ _ first_owner [] (Ok _)); [done|apply power_failure_settled|].
      vm_compute. reflexivity.
  - eapply (step_checkpoint _ _ _ _ _ _ _ _ _ _ []). vm_compute. reflexivity.
  - eapply (step_commit _ _ _ _ _ _ _ _ _ _ _ []); [apply NoDup_singleton|vm_compute; reflexivity].
Qed.

Lemma tablet_crash_safe_witness : ∃ sy h,
  sys_steps digest to_vec from_slice to_vec from_slice 1 all_keys wal_name new_system torn_events sy ∧
  history_steps (mkHistory [] None 1) torn_events h ∧
  (∀ s, sy_store sy = Some s → serves all_keys s (hi_log h)).
Proof.
  destruct torn_run as [sy Hsy]. exists sy.
  destruct (tablet_crash_safe digest digest_32 to_vec from_slice from_slice_to_vec to_vec from_slice
    from_slice_to_vec 1 (conj eq_refl eq_refl) all_keys wal_name ltac:(done) first_owner new_system torn_events sy)
    as (_ & h & Hh & Hserves & _); [done|apply new_system_created|done|]. by exists h.
Defined.

(** ** A log whose creation was interrupted

    The disk is full while the header is written.  What was written of it stays
    in the file; [open] takes a file that is not empty for a log, finds no whole
    header, and changes nothing: it fails now and ever after, also after a power
    failure that keeps the file.  A torn record at the end of a log, in contrast,
    is cut off. *)
Definition torn_header_fs : FS :=
  match WalBackedTablet_open digest from_slice from_slice first_owner wal_name tt
          (mkWorld empty_fs [None; None; None; Some (mkFault 5 disk_full)]) with
  | Some (Err _, _, w) => w_fs w
  | _ => empty_fs
  end.

Lemma torn_header_unopenable :
  torn_header_fs ≠ empty_fs ∧
  run_open torn_header_fs = Some (Err (BWal WInvalidHeader), tt, mkWorld torn_header_fs []) ∧
  run_open (settled torn_header_fs) = Some (Err (BWal WInvalidHeader), tt, mkWorld (settled torn_header_fs) []).
Proof. split_and!; [by vm_compute|vm_compute; reflexivity..]. Qed.

(** ** A batch that writes a key twice

    [commit] takes it and the versions of the key get the same sequence; the
    checkpoint made of them replaces the log, and [restore_snapshot] refuses it:
    the store cannot be opened again. *)
Definition dup_key_run : option (result N WalBackedError * result unit WalBackedError * option WalBackedError) :=
  match run_open empty_fs with
  | Some (Ok s, _, w) =>
      match run_commit (put_write 1 [a_1; a_2]) s (w_fs w) [] with
      | Some (committed, s, w) =>
          match run_checkpoint s (w_fs w) with
          | Some (checkpointed, s, w) =>
              match run_open (w_fs w) with
              | Some (Ok _, _, _) => Some (committed, checkpointed, None)
              | Some (Err e, _, _) => Some (committed, checkpointed, Some e)
              | None => None
              end
          | None => None
          end
      | None => None
      end
  | _ => None
  end.

Lemma dup_key_unrecoverable :
  dup_key_run =
    Some (Ok 1, Ok tt, Some (BCheckpoint (CInvalidState (TabletError_to_string InvalidSnapshotHistory)))).
Proof. vm_compute. reflexivity. Qed.

(** ** A log found without a restart of the machine

    Creating the log fails when its directory is to be made durable.  The store
    is opened again and finds the file, a write is committed and acknowledged,
    and a power failure takes the file with it: [open] makes the directory
    durable only when it creates the file. *)
Definition unsynced_entry_run : option (result N WalBackedError * N) :=
  match WalBackedTablet_open digest from_slice from_slice first_owner wal_name tt
          (mkWorld empty_fs [None; None; None; None; None; Some (mkFault 0 disk_full)]) with
  | Some (Err _, _, w) =>
      match run_open (w_fs w) with
      | Some (Ok s, _, w) =>
          match run_commit (put_write 1 [a_1]) s (w_fs w) [] with
          | Some (committed, _, w) =>
              match run_open (lost (w_fs w)) with
              | Some (Ok s, _, _) => Some (committed, WalBackedTablet_current_sequence s)
              | _ => None
              end
          | None => None
          end
      | _ => None
      end
  | _ => None
  end.

Lemma unsynced_entry_lost : unsynced_entry_run = Some (Ok 1, 0).
Proof. vm_compute. reflexivity. Qed.
