(* ===== verification/Types.v ===== *)
(** * Types, capabilities and effect rows

    [src/types.rs] and [src/type_ir.rs]: the data of the type checker, the
    lattice of reference capabilities, rows of effects, free variables, the
    printed form of types and the structural form (NTIR) whose digest the
    unifier compares.  Strings are their UTF-8 bytes. *)
From Stdlib Require Import String.
From S2P Require Import Prelude Bytes Text.

Local Open Scope list_scope.
Local Open Scope N_scope.

(** ** Capabilities *)

Inductive Capability := LinearIso | Linear | Iso | Trn | Ref | Val | Box | Tag.

#[global] Instance Capability_eq_dec : EqDecision Capability.
Proof. solve_decision. Defined.

Definition Capability_to_string (self : Capability) : bytes :=
  match self with
  | LinearIso => str "lineariso"
  | Linear => str "linear"
  | Iso => str "iso"
  | Trn => str "trn"
  | Ref => str "ref"
  | Val => str "val"
  | Box => str "box"
  | Tag => str "tag"
  end.

Definition Capability_join (self other : Capability) : Capability :=
  match self, other with
  | LinearIso, LinearIso => LinearIso
  | LinearIso, Iso | Iso, LinearIso => Iso
  | LinearIso, Trn | Trn, LinearIso => Trn
  | LinearIso, Ref | Ref, LinearIso => Ref
  | LinearIso, Val | Val, LinearIso => Val
  | LinearIso, Box | Box, LinearIso => Box
  | LinearIso, Tag | Tag, LinearIso => LinearIso
  | Linear, Linear => Linear
  | Linear, Val | Val, Linear => Val
  | Linear, LinearIso | LinearIso, Linear => Val
  | Linear, Iso | Iso, Linear => Val
  | Linear, Trn | Trn, Linear => Val
  | Linear, Ref | Ref, Linear => Box
  | Linear, Box | Box, Linear => Box
  | Linear, Tag | Tag, Linear => Linear
  | Iso, Iso => Iso
  | Iso, Trn | Trn, Iso | Trn, Trn => Trn
  | Iso, Ref | Ref, Iso | Trn, Ref | Ref, Trn | Ref, Ref => Ref
  | Iso, Val | Val, Iso | Trn, Val | Val, Trn | Val, Val => Val
  | Ref, Val | Val, Ref => Box
  | Iso, Box | Box, Iso | Trn, Box | Box, Trn | Ref, Box | Box, Ref | Val, Box | Box, Val | Box, Box => Box
  | Tag, c | c, Tag => c
  end.

Definition Capability_is_subtype_of (self other : Capability) : bool :=
  bool_decide (Capability_join self other = other).

Definition Capability_is_sendable (self : Capability) : bool :=
  match self with LinearIso | Linear | Iso | Val | Tag => true | _ => false end.
Definition Capability_is_remote_sendable (self : Capability) : bool :=
  match self with Linear | Val | Tag => true | _ => false end.
Definition Capability_is_readable (self : Capability) : bool :=
  match self with Tag => false | _ => true end.
Definition Capability_is_writable (self : Capability) : bool :=
  match self with LinearIso | Iso | Trn | Ref => true | _ => false end.
Definition Capability_is_linear (self : Capability) : bool :=
  match self with LinearIso | Linear => true | _ => false end.
Definition Capability_discharge_linear (self : Capability) : Capability :=
  match self with LinearIso => Iso | Linear => Val | other => other end.

(** [join] is the least upper bound of the order [is_subtype_of]; the bottom of that order is
    [Tag], which the comment on the lattice puts on top, and its top is [Box]. *)
Lemma Capability_join_lub (a b c : Capability) :
  Capability_is_subtype_of a (Capability_join a b) = true ∧
  Capability_is_subtype_of b (Capability_join a b) = true ∧
  Capability_is_subtype_of (Capability_join a b) c =
    (Capability_is_subtype_of a c && Capability_is_subtype_of b c)%bool ∧
  Capability_is_subtype_of Tag a = true ∧ Capability_is_subtype_of a Box = true.
Proof. by destruct a, b, c. Qed.

Lemma Capability_is_subtype_of_partial_order :
  (∀ a, Capability_is_subtype_of a a = true) ∧
  (∀ a b c, Capability_is_subtype_of a b = true → Capability_is_subtype_of b c = true →
     Capability_is_subtype_of a c = true) ∧
  (∀ a b, Capability_is_subtype_of a b = true → Capability_is_subtype_of b a = true → a = b).
Proof. repeat split; [by intros []|by intros [] [] []|by intros [] []]. Qed.

(** ** Effects *)

Inductive Effect :=
| EIO | ENet | EString | EFS | ERand | ETime | ESpawn | ESend | EReceive | EMigrate | ESTM | EAsync
| EInference | ECost | EEvent | EArray | EFFI | ETest | EDB | EPython | EEnv | EProcess | ESystem
| ERender | ERequest | ERespond | ERealtime | EClient | EWeb
| EUserDefined (name : bytes).

#[global] Instance Effect_eq_dec : EqDecision Effect.
Proof. solve_decision. Defined.

Definition Effect_to_string (self : Effect) : bytes :=
  match self with
  | EIO => str "IO" | ENet => str "Net" | EString => str "String" | EFS => str "FS" | EArray => str "Array"
  | ERand => str "Rand" | ETime => str "Time" | ESpawn => str "Spawn" | ESend => str "Send"
  | EReceive => str "Receive" | EMigrate => str "Migrate" | ESTM => str "STM" | EAsync => str "Async"
  | EInference => str "Inference" | ECost => str "Cost" | EEvent => str "Event" | EFFI => str "FFI"
  | ETest => str "Test" | EDB => str "DB" | EPython => str "Python" | EEnv => str "Env"
  | EProcess => str "Process" | ESystem => str "System" | ERender => str "Render" | ERequest => str "Request"
  | ERespond => str "Respond" | ERealtime => str "Realtime" | EClient => str "Client" | EWeb => str "Web"
  | EUserDefined s => s
  end.

(** The codes of effects follow their declaration, which is also the derived order. *)
Definition effect_code (e : Effect) : N :=
  match e with
  | EIO => 0 | ENet => 1 | EString => 2 | EFS => 3 | ERand => 4 | ETime => 5 | ESpawn => 6 | ESend => 7
  | EReceive => 8 | EMigrate => 9 | ESTM => 10 | EAsync => 11 | EInference => 12 | ECost => 13
  | EEvent => 14 | EArray => 15 | EFFI => 16 | ETest => 17 | EDB => 18 | EPython => 19 | EEnv => 20
  | EProcess => 21 | ESystem => 22 | ERender => 23 | ERequest => 24 | ERespond => 25 | ERealtime => 26
  | EClient => 27 | EWeb => 28 | EUserDefined _ => 29
  end.

Definition effect_leb (a b : Effect) : bool :=
  match a, b with
  | EUserDefined a, EUserDefined b => bytes_leb a b
  | _, _ => effect_code a <=? effect_code b
  end.

Abbreviation TypeVar := N.
Abbreviation Region := N.

Inductive EffectRow :=
| Closed (effects : list Effect)
| Open (effects : list Effect) (region : Region).

#[global] Instance EffectRow_eq_dec : EqDecision EffectRow.
Proof. solve_decision. Defined.

Definition EffectRow_empty : EffectRow := Closed [].
Definition EffectRow_singleton (e : Effect) : EffectRow := Closed [e].

Definition EffectRow_combine (self other : EffectRow) : EffectRow :=
  match self, other with
  | Closed a, Closed b => Closed (a ++ b)
  | Closed a, Open b r | Open a r, Closed b => Open (a ++ b) r
  | Open a r1, Open b _ => Open (a ++ b) r1
  end.

Definition EffectRow_effects (self : EffectRow) : list Effect :=
  match self with Closed effects | Open effects _ => effects end.

Definition EffectRow_contains (self : EffectRow) (eff : Effect) : bool :=
  bool_decide (eff ∈ EffectRow_effects self).

Definition EffectRow_remove (self : EffectRow) (eff : Effect) : EffectRow :=
  match self with
  | Closed effects => Closed (filter (λ e, e ≠ eff) effects)
  | Open effects r => Open (filter (λ e, e ≠ eff) effects) r
  end.

(** [slice.join(separator)] *)
Fixpoint join_bytes (separator : bytes) (parts : list bytes) : bytes :=
  match parts with
  | [] => []
  | [part] => part
  | part :: parts => part ++ separator ++ join_bytes separator parts
  end.

Definition EffectRow_to_string (self : EffectRow) : bytes :=
  match self with
  | Closed effects => str "{" ++ join_bytes (str ", ") (map Effect_to_string effects) ++ str "}"
  | Open effects _ =>
      str "{" ++ join_bytes (str ", ") (map Effect_to_string effects)
        ++ (if bool_decide (effects = []) then [] else str ", ") ++ str "..}"
  end.

(** ** Types *)

Inductive PrimitiveType := PInt | PFloat | PBool | PString | PNil | PUnit | PNever | PAddress.

#[global] Instance PrimitiveType_eq_dec : EqDecision PrimitiveType.
Proof. solve_decision. Defined.

Local Unset Elimination Schemes.
Inductive Ty :=
| TyVar (v : TypeVar)
| TyPrimitive (p : PrimitiveType)
| TyTuple (ts : list Ty)
| TyRecord (fs : list (bytes * Ty))
| TyVariant (vs : list (bytes * option Ty))
| TyArray (t : Ty)
| TyFunction (param ret : Ty) (effect : EffectRow) (cap : Capability)
| TyActor (state behavior : Ty)
| TyApp (constructor : Ty) (args : list Ty)
| TyReference (cap : Capability) (inner : Ty)
| TyScheme (vars : list TypeVar) (body : Ty)
| TyNominal (name : bytes) (underlying : Ty)
| TySkolem (id : N).
Local Set Elimination Schemes.

(** Induction that reaches into lists of components. *)
Section ty_ind.
Context (P : Ty → Prop).
Definition of_option (o : option Ty) : Prop := match o with Some t => P t | None => True end.
Context (Hvar : ∀ v, P (TyVar v)) (Hprim : ∀ p, P (TyPrimitive p))
  (Htuple : ∀ ts, Forall P ts → P (TyTuple ts))
  (Hrecord : ∀ fs, Forall (λ f, P f.2) fs → P (TyRecord fs))
  (Hvariant : ∀ vs, Forall (λ f, of_option f.2) vs → P (TyVariant vs))
  (Harray : ∀ t, P t → P (TyArray t))
  (Hfunction : ∀ p r e c, P p → P r → P (TyFunction p r e c))
  (Hactor : ∀ s b, P s → P b → P (TyActor s b))
  (Happ : ∀ c args, P c → Forall P args → P (TyApp c args))
  (Hreference : ∀ c t, P t → P (TyReference c t))
  (Hscheme : ∀ vars t, P t → P (TyScheme vars t))
  (Hnominal : ∀ n t, P t → P (TyNominal n t))
  (Hskolem : ∀ i, P (TySkolem i)).

Fixpoint Ty_ind' (t : Ty) : P t :=
  match t with
  | TyVar v => Hvar v
  | TyPrimitive p => Hprim p
  | TyTuple ts =>
      Htuple ts ((fix go l : Forall P l := match l with
                                           | [] => Forall_nil_2 P
                                           | t :: l => Forall_cons_2 P t l (Ty_ind' t) (go l)
                                           end) ts)
  | TyRecord fs =>
      Hrecord fs ((fix go l : Forall (λ f, P f.2) l :=
                     match l with
                     | [] => Forall_nil_2 _
                     | (n, t) :: l => Forall_cons_2 (λ f : bytes * Ty, P f.2) (n, t) l (Ty_ind' t) (go l)
                     end) fs)
  | TyVariant vs =>
      Hvariant vs ((fix go l : Forall (λ f, of_option f.2) l :=
                      match l with
                      | [] => Forall_nil_2 _
                      | (n, o) :: l =>
                          Forall_cons_2 (λ f : bytes * option Ty, of_option f.2) (n, o) l
                            (match o return of_option o with Some t => Ty_ind' t | None => I end) (go l)
                      end) vs)
  | TyArray t => Harray t (Ty_ind' t)
  | TyFunction p r e c => Hfunction p r e c (Ty_ind' p) (Ty_ind' r)
  | TyActor s b => Hactor s b (Ty_ind' s) (Ty_ind' b)
  | TyApp c args =>
      Happ c args (Ty_ind' c) ((fix go l : Forall P l := match l with
                                                        | [] => Forall_nil_2 P
                                                        | t :: l => Forall_cons_2 P t l (Ty_ind' t) (go l)
                                                        end) args)
  | TyReference c t => Hreference c t (Ty_ind' t)
  | TyScheme vars t => Hscheme vars t (Ty_ind' t)
  | TyNominal n t => Hnominal n t (Ty_ind' t)
  | TySkolem i => Hskolem i
  end.
End ty_ind.

(** [#[derive(PartialEq)]] *)
Definition list_eqb {A} (eqb : A → A → bool) : list A → list A → bool :=
  fix go l1 l2 :=
    match l1, l2 with
    | [], [] => true
    | x :: l1, y :: l2 => eqb x y && go l1 l2
    | _, _ => false
    end.
Definition option_eqb {A} (eqb : A → A → bool) (o1 o2 : option A) : bool :=
  match o1, o2 with Some x, Some y => eqb x y | None, None => true | _, _ => false end.

Fixpoint Ty_eqb (a b : Ty) {struct a} : bool :=
  match a, b with
  | TyVar v, TyVar v' => v =? v'
  | TyPrimitive p, TyPrimitive p' => bool_decide (p = p')
  | TyTuple ts, TyTuple ts' => list_eqb Ty_eqb ts ts'
  | TyRecord fs, TyRecord fs' =>
      list_eqb (λ f f', bool_decide (f.1 = f'.1) && (let '(_, t) := f in let '(_, t') := f' in Ty_eqb t t')) fs fs'
  | TyVariant vs, TyVariant vs' =>
      list_eqb (λ f f', bool_decide (f.1 = f'.1)
                        && (let '(_, o) := f in let '(_, o') := f' in option_eqb Ty_eqb o o')) vs vs'
  | TyArray t, TyArray t' => Ty_eqb t t'
  | TyFunction p r e c, TyFunction p' r' e' c' =>
      Ty_eqb p p' && Ty_eqb r r' && bool_decide (e = e') && bool_decide (c = c')
  | TyActor s b, TyActor s' b' => Ty_eqb s s' && Ty_eqb b b'
  | TyApp c args, TyApp c' args' => Ty_eqb c c' && list_eqb Ty_eqb args args'
  | TyReference c t, TyReference c' t' => bool_decide (c = c') && Ty_eqb t t'
  | TyScheme vars t, TyScheme vars' t' => bool_decide (vars = vars') && Ty_eqb t t'
  | TyNominal n t, TyNominal n' t' => bool_decide (n = n') && Ty_eqb t t'
  | TySkolem i, TySkolem i' => i =? i'
  | _, _ => false
  end.

Lemma list_eqb_spec {A} (eqb : A → A → bool) l :
  Forall (λ x, ∀ y, eqb x y = true ↔ x = y) l → ∀ l', list_eqb eqb l l' = true ↔ l = l'.
Proof.
  induction 1 as [|x l Hx _ IH]; intros [|y l']; cbn; try (split; [done|done]).
  rewrite andb_true_iff, Hx, IH. split; [by intros [-> ->]|by intros [= -> ->]].
Qed.

Lemma option_eqb_spec {A} (eqb : A → A → bool) o :
  (∀ x, o = Some x → ∀ y, eqb x y = true ↔ x = y) → ∀ o', option_eqb eqb o o' = true ↔ o = o'.
Proof. intros H [y|]; destruct o as [x|]; cbn; try (split; done). rewrite H by done. split; congruence. Qed.

Lemma Ty_eqb_spec a b : Ty_eqb a b = true ↔ a = b.
Proof.
  revert b. induction a as [v|p|ts IH|fs IH|vs IH|t IH|p r e c IHp IHr|s b IHs IHb|c args IHc IH|c t IH|vars t IH
    |n t IH|i] using Ty_ind';
    intros [v'|p'|ts'|fs'|vs'|t'|p' r' e' c'|s' b'|c' args'|c' t'|vars' t'|n' t'|i']; cbn;
    try (split; [done|done]);
    rewrite ?andb_true_iff, ?bool_decide_eq_true, ?N.eqb_eq, ?list_eqb_spec by
      (try done; eapply Forall_impl; [exact IH|];
       intros [n o] Hf [n' o']; cbn in *; rewrite andb_true_iff, bool_decide_eq_true, ?Hf, ?option_eqb_spec
         by (try done; by intros x ->); split; [by intros [-> ->]|by intros [= -> ->]]);
    rewrite ?IH, ?IHp, ?IHr, ?IHs, ?IHb, ?IHc; try (by intuition congruence).
  - rewrite (list_eqb_spec _ _ IH). intuition congruence.
  - rewrite (list_eqb_spec _ _ IH). intuition congruence.
Qed.

#[global] Instance Ty_eq_dec : EqDecision Ty.
Proof. intros a b. destruct (Ty_eqb a b) eqn:H; [left|right]; rewrite <-Ty_eqb_spec; [done|congruence]. Defined.

Definition RECORD_ROW_TAIL_FIELD : bytes := str "..".
Definition ACTOR_REF_TYPE_NAME : bytes := str "ActorRef".

Definition Type_unit : Ty := TyPrimitive PUnit.
Definition Type_record (fields : list (bytes * Ty)) : Ty := TyRecord fields.
Definition Type_record_open (fields : list (bytes * Ty)) (row : TypeVar) : Ty :=
  TyRecord (fields ++ [(RECORD_ROW_TAIL_FIELD, TyVar row)]).

(** ** Printed form *)

Definition PrimitiveType_to_string (p : PrimitiveType) : bytes :=
  match p with
  | PInt => str "Int" | PFloat => str "Float" | PBool => str "Bool" | PString => str "String"
  | PUnit => str "Unit" | PNil => str "Nil" | PNever => str "Never" | PAddress => str "Address"
  end.

Fixpoint Type_to_string (self : Ty) : bytes :=
  match self with
  | TyVar v => str "'_"
  | TyPrimitive p => PrimitiveType_to_string p
  | TyTuple ts => str "(" ++ join_bytes (str ", ") (map Type_to_string ts) ++ str ")"
  | TyRecord fs =>
      str "{ " ++ join_bytes (str ", ") (map (λ '(n, t), n ++ str ": " ++ Type_to_string t) fs) ++ str " }"
  | TyVariant vs =>
      join_bytes (str " | ")
        (map (λ '(n, o), match o with Some t => n ++ str " " ++ Type_to_string t | None => n end) vs)
  | TyArray t => str "[" ++ Type_to_string t ++ str "]"
  | TyFunction param ret _ _ => Type_to_string param ++ str " -> " ++ Type_to_string ret
  | TyActor state behavior =>
      str "Actor[" ++ Type_to_string state ++ str ", " ++ Type_to_string behavior ++ str "]"
  | TyApp constructor args =>
      Type_to_string constructor
        ++ match args with
           | [] => []
           | _ => str "[" ++ join_bytes (str ", ") (map Type_to_string args) ++ str "]"
           end
  | TyReference cap inner => str "&" ++ Capability_to_string cap ++ str " " ++ Type_to_string inner
  | TyScheme vars body =>
      str "forall " ++ join_bytes (str ", ") (map (λ v, str "'t" ++ dec_of_N v) vars)
        ++ str ". " ++ Type_to_string body
  | TyNominal name _ => name
  | TySkolem id => str "'t" ++ dec_of_N id
  end.

(** ** Actor references *)

Definition Type_actor_ref (protocol : Ty) : Ty := TyApp (TyNominal ACTOR_REF_TYPE_NAME Type_unit) [protocol].

Definition Type_actor_ref_protocol (self : Ty) : option Ty :=
  match self with
  | TyApp (TyNominal name _) [protocol] => if bool_decide (name = ACTOR_REF_TYPE_NAME) then Some protocol else None
  | _ => None
  end.

Fixpoint Type_erase_actor_protocols (self : Ty) : Ty :=
  if match Type_actor_ref_protocol self with Some _ => true | None => false end
  then TyActor Type_unit Type_unit else
  match self with
  | TyVar v => TyVar v
  | TyPrimitive p => TyPrimitive p
  | TyTuple items => TyTuple (map Type_erase_actor_protocols items)
  | TyRecord fields => TyRecord (map (λ '(name, ty), (name, Type_erase_actor_protocols ty)) fields)
  | TyVariant variants =>
      TyVariant (map (λ '(name, payload),
                        (name, match payload with
                               | Some ty => Some (Type_erase_actor_protocols ty)
                               | None => None
                               end)) variants)
  | TyArray inner => TyArray (Type_erase_actor_protocols inner)
  | TyFunction param ret effect cap =>
      TyFunction (Type_erase_actor_protocols param) (Type_erase_actor_protocols ret) effect cap
  | TyActor _ _ => TyActor Type_unit Type_unit
  | TyApp constructor args =>
      TyApp (Type_erase_actor_protocols constructor) (map Type_erase_actor_protocols args)
  | TyReference cap inner => TyReference cap (Type_erase_actor_protocols inner)
  | TyScheme vars body => TyScheme vars (Type_erase_actor_protocols body)
  | TyNominal name underlying => TyNominal name (Type_erase_actor_protocols underlying)
  | TySkolem id => TySkolem id
  end.

(** ** The structural form *)

Local Unset Elimination Schemes.
Inductive NtirNode :=
| NPrimitive (p : PrimitiveType)
| NCapability (cap : Capability) (inner : NtirNode)
| NRecord (fields : list (bytes * NtirNode))
| NTuple (elems : list NtirNode)
| NVariant (tags : list (bytes * NtirNode))
| NCycle (dist : N).
Local Set Elimination Schemes.

(** A stable sort, and [sort_by(|a, b| a.0.cmp(&b.0))]. *)
Fixpoint insert_by {A} (leb : A → A → bool) (x : A) (l : list A) : list A :=
  match l with
  | [] => [x]
  | y :: l' => if leb x y then x :: l else y :: insert_by leb x l'
  end.
Definition sort_by {A} (leb : A → A → bool) (l : list A) : list A := foldr (insert_by leb) [] l.
Definition name_leb {A} (a b : bytes * A) : bool := bytes_leb a.1 b.1.
Definition sort_by_name {A} : list (bytes * A) → list (bytes * A) := sort_by name_leb.

(** [stack.iter().rev().position(|x| x == v)], the top of the stack first. *)
Fixpoint position_of (v : TypeVar) (stack : list TypeVar) : option N :=
  match stack with
  | [] => None
  | x :: stack => if x =? v then Some 0 else option_map N.succ (position_of v stack)
  end.

(** A variable pushed on the stack is popped before its siblings are visited,
    and has no components itself. *)
Fixpoint Type_to_ntir_with_stack (stack : list TypeVar) (self : Ty) : NtirNode :=
  match self with
  | TyVar v => match position_of v stack with Some pos => NCycle pos | None => NPrimitive PUnit end
  | TyPrimitive p => NPrimitive p
  | TyTuple ts => NTuple (map (Type_to_ntir_with_stack stack) ts)
  | TyRecord fs => NRecord (sort_by_name (map (λ '(n, t), (n, Type_to_ntir_with_stack stack t)) fs))
  | TyVariant vs =>
      NVariant (sort_by_name
        (map (λ '(n, t_opt), (n, match t_opt with
                                 | Some t => Type_to_ntir_with_stack stack t
                                 | None => NPrimitive PUnit
                                 end)) vs))
  | TyArray inner => NTuple [Type_to_ntir_with_stack stack inner]
  | TyFunction param ret _ cap =>
      NCapability cap (NTuple [Type_to_ntir_with_stack stack param; Type_to_ntir_with_stack stack ret])
  | TyActor state behavior => NTuple [Type_to_ntir_with_stack stack state; Type_to_ntir_with_stack stack behavior]
  | TyApp constructor args => NTuple (Type_to_ntir_with_stack stack constructor :: map (Type_to_ntir_with_stack stack) args)
  | TyReference cap inner => NCapability cap (Type_to_ntir_with_stack stack inner)
  | TyScheme _ body => Type_to_ntir_with_stack stack body
  | TyNominal _ underlying => Type_to_ntir_with_stack stack underlying
  | TySkolem _ => NPrimitive PUnit
  end.
Definition Type_to_ntir (self : Ty) : NtirNode := Type_to_ntir_with_stack [] self.

Fixpoint leb128 (fuel : nat) (val : N) : bytes :=
  match fuel with
  | O => []
  | S fuel =>
      let byte := N.land val 0x7F in
      let val := N.shiftr val 7 in
      if val =? 0 then [byte] else N.lor byte 0x80 :: leb128 fuel val
  end.
(** Seven bits a round, so the binary size bounds the rounds. *)
Definition write_leb128 (val : N) : bytes := leb128 (S (N.size_nat val)) val.

Definition ntir_primitive (p : PrimitiveType) : N :=
  match p with PUnit => 0x01 | PBool => 0x02 | PInt => 0x03 | PFloat => 0x04 | PString => 0x05 | _ => 0x01 end.
Definition ntir_capability (cap : Capability) : N :=
  match cap with
  | Iso | LinearIso => 0x10
  | Trn => 0x11
  | Ref => 0x12
  | Val | Linear => 0x13
  | Box => 0x14
  | Tag => 0x15
  end.

Fixpoint NtirNode_serialize_into (self : NtirNode) : bytes :=
  match self with
  | NPrimitive p => [ntir_primitive p]
  | NCapability cap inner => ntir_capability cap :: NtirNode_serialize_into inner
  | NRecord fields =>
      0x20 :: write_leb128 (len fields)
        ++ concat (map (λ '(name, ty), write_leb128 (len name) ++ name ++ NtirNode_serialize_into ty) fields)
  | NTuple elems => 0x21 :: write_leb128 (len elems) ++ concat (map NtirNode_serialize_into elems)
  | NVariant tags =>
      0x22 :: write_leb128 (len tags)
        ++ concat (map (λ '(name, ty), write_leb128 (len name) ++ name ++ NtirNode_serialize_into ty) tags)
  | NCycle dist => 0x30 :: write_leb128 dist
  end.

Definition NtirNode_hash (blake3 : bytes → bytes) (self : NtirNode) : bytes :=
  blake3 (str "NTIR" ++ [0x00; 0x01] ++ NtirNode_serialize_into self).

(** ** Free variables *)

(** The accumulator is threaded through; [stack] holds the nominal types being
    expanded and is restored on return. *)
Fixpoint Type_collect_free_vars (self : Ty) (acc : list TypeVar) (stack : list bytes) : list TypeVar :=
  match self with
  | TyVar v => acc ++ [v]
  | TyPrimitive _ | TySkolem _ => acc
  | TyTuple ts => fold_left (λ acc t, Type_collect_free_vars t acc stack) ts acc
  | TyRecord fs => fold_left (λ acc f, let '(_, t) := f in Type_collect_free_vars t acc stack) fs acc
  | TyVariant vs =>
      fold_left (λ acc f, let '(_, o) := f in
                          match o with Some t => Type_collect_free_vars t acc stack | None => acc end) vs acc
  | TyArray t => Type_collect_free_vars t acc stack
  | TyFunction param ret _ _ => Type_collect_free_vars ret (Type_collect_free_vars param acc stack) stack
  | TyActor state behavior => Type_collect_free_vars behavior (Type_collect_free_vars state acc stack) stack
  | TyApp constructor args =>
      fold_left (λ acc t, Type_collect_free_vars t acc stack) args (Type_collect_free_vars constructor acc stack)
  | TyReference _ inner => Type_collect_free_vars inner acc stack
  | TyScheme vars body => filter (λ v, v ∉ vars) (Type_collect_free_vars body acc stack)
  | TyNominal name underlying =>
      if bool_decide (name ∈ stack) then acc else Type_collect_free_vars underlying acc (name :: stack)
  end.

Definition Type_is_ground (self : Ty) : bool := bool_decide (Type_collect_free_vars self [] [] = []).

(** [vars.sort_by_key(|v| v.0); vars.dedup_by_key(|v| v.0)] *)
Fixpoint dedup (l : list N) : list N :=
  match l with
  | [] => []
  | x :: l => match dedup l with
              | [] => [x]
              | y :: l' => if x =? y then y :: l' else x :: y :: l'
              end
  end.
Definition sort_dedup (vars : list N) : list N := dedup (sort_by N.leb vars).

Definition Type_free_vars (self : Ty) : list TypeVar := sort_dedup (Type_collect_free_vars self [] []).

Fixpoint Type_collect_storage_free_vars (self : Ty) (acc : list TypeVar) (stack : list bytes) : list TypeVar :=
  match self with
  | TyVar v => acc ++ [v]
  | TyPrimitive _ | TySkolem _ => acc
  | TyTuple ts => fold_left (λ acc t, Type_collect_storage_free_vars t acc stack) ts acc
  | TyRecord fs => fold_left (λ acc f, let '(_, t) := f in Type_collect_storage_free_vars t acc stack) fs acc
  | TyVariant vs =>
      fold_left (λ acc f, let '(_, o) := f in
                          match o with Some t => Type_collect_storage_free_vars t acc stack | None => acc end) vs acc
  | TyArray t => Type_collect_storage_free_vars t acc stack
  | TyFunction param ret _ _ =>
      Type_collect_storage_free_vars ret (Type_collect_storage_free_vars param acc stack) stack
  | TyActor state behavior =>
      Type_collect_storage_free_vars behavior (Type_collect_storage_free_vars state acc stack) stack
  | TyApp constructor args =>
      fold_left (λ acc t, Type_collect_storage_free_vars t acc stack) args
        (Type_collect_storage_free_vars constructor acc stack)
  | TyReference _ inner => Type_collect_storage_free_vars inner acc stack
  | TyScheme vars body => acc ++ filter (λ v, v ∉ vars) (Type_collect_storage_free_vars body [] stack)
  | TyNominal name underlying =>
      if bool_decide (name ∈ stack) then acc else Type_collect_storage_free_vars underlying acc (name :: stack)
  end.

Fixpoint Type_collect_ref_free_vars (self : Ty) (acc : list TypeVar) : list TypeVar :=
  match self with
  | TyReference _ inner => Type_collect_storage_free_vars inner acc []
  | TyFunction _ _ _ _ => acc
  | TyTuple ts => fold_left (λ acc t, Type_collect_ref_free_vars t acc) ts acc
  | TyRecord fs => fold_left (λ acc f, let '(_, t) := f in Type_collect_ref_free_vars t acc) fs acc
  | TyVariant vs =>
      fold_left (λ acc f, let '(_, o) := f in
                          match o with Some t => Type_collect_ref_free_vars t acc | None => acc end) vs acc
  | TyArray t => Type_collect_storage_free_vars t acc []
  | TyActor state behavior => Type_collect_ref_free_vars behavior (Type_collect_ref_free_vars state acc)
  | TyApp constructor args =>
      fold_left (λ acc t, Type_collect_ref_free_vars t acc) args (Type_collect_ref_free_vars constructor acc)
  | TyScheme _ body => Type_collect_ref_free_vars body acc
  | TyNominal _ underlying => Type_collect_ref_free_vars underlying acc
  | TyVar _ | TyPrimitive _ | TySkolem _ => acc
  end.
Definition Type_ref_free_vars (self : Ty) : list TypeVar := sort_dedup (Type_collect_ref_free_vars self []).

(** ** Sorting *)

Lemma insert_by_map {A B} (leb : A → A → bool) (leb' : B → B → bool) (f : A → B) x l :
  (∀ a b, leb' (f a) (f b) = leb a b) → insert_by leb' (f x) (map f l) = map f (insert_by leb x l).
Proof. intros Hf. induction l as [|y l IH]; [done|]. cbn. rewrite Hf. destruct (leb x y); cbn; congruence. Qed.

Lemma sort_by_cons {A} (leb : A → A → bool) x l : sort_by leb (x :: l) = insert_by leb x (sort_by leb l).
Proof. done. Qed.

Lemma sort_by_map {A B} (leb : A → A → bool) (leb' : B → B → bool) (f : A → B) l :
  (∀ a b, leb' (f a) (f b) = leb a b) → sort_by leb' (map f l) = map f (sort_by leb l).
Proof.
  intros Hf. induction l as [|y l IH]; [done|]. cbn [map]. rewrite !sort_by_cons, IH. by apply insert_by_map.
Qed.

Lemma insert_by_perm {A} (leb : A → A → bool) x l : insert_by leb x l ≡ₚ x :: l.
Proof. induction l as [|y l IH]; [done|]. cbn. destruct (leb x y); [done|]. rewrite IH. apply Permutation_swap. Qed.

Lemma sort_by_perm {A} (leb : A → A → bool) l : sort_by leb l ≡ₚ l.
Proof. induction l as [|y l IH]; [done|]. by rewrite sort_by_cons, insert_by_perm, IH. Qed.

Lemma sort_by_name_map {A B} (f : A → B) (l : list (bytes * A)) :
  sort_by_name (map (λ '(n, t), (n, f t)) l) = map (λ '(n, t), (n, f t)) (sort_by_name l).
Proof. apply sort_by_map. by intros [] []. Qed.
