(* ===== verification/TypeCanonical.v ===== *)
(** * The canonical encoding of types

    [write_canonical_type] of [src/types.rs]: the bytes whose digest identifies a
    signature.  Two types have one encoding exactly when they are equal up to the
    order of record fields and of effects. *)
From Stdlib Require Import String.
From S2P Require Import Prelude Bytes Text Types.

Local Open Scope list_scope.
Local Open Scope N_scope.

(** ** Encoding

    The source appends to a buffer; a function here returns what is appended. *)

Definition write_str (s : bytes) : bytes := to_le_bytes 4 (as_u32 (len s)) ++ s.

Definition canonical_cap_code (cap : Capability) : N :=
  match cap with
  | LinearIso => 0 | Linear => 1 | Iso => 2 | Trn => 3 | Ref => 4 | Val => 5 | Box => 6 | Tag => 7
  end.

Definition write_effect (e : Effect) : bytes :=
  effect_code e :: match e with EUserDefined name => to_le_bytes 4 (as_u32 (len name)) ++ name | _ => [] end.

Definition write_canonical_effect_row (row : EffectRow) : bytes :=
  match row with
  | Closed effects =>
      let sorted := sort_by effect_leb effects in
      0x00 :: to_le_bytes 4 (as_u32 (len sorted)) ++ concat (map write_effect sorted)
  | Open effects region =>
      let sorted := sort_by effect_leb effects in
      0x01 :: to_le_bytes 4 (as_u32 (len sorted)) ++ concat (map write_effect sorted) ++ to_le_bytes 8 region
  end.

Definition primitive_code (p : PrimitiveType) : N :=
  match p with PInt => 0 | PFloat => 1 | PBool => 2 | PString => 3 | PNil => 4 | PUnit => 5 | PNever => 6 | PAddress => 7 end.

(** The fields of a record are encoded before they are sorted by name. *)
Fixpoint write_canonical_type (ty : Ty) : bytes :=
  match ty with
  | TyVar v => 0x00 :: to_le_bytes 8 v
  | TyPrimitive p => [0x01; primitive_code p]
  | TyTuple ts => 0x02 :: to_le_bytes 4 (as_u32 (len ts)) ++ concat (map write_canonical_type ts)
  | TyRecord fields =>
      let sorted := sort_by_name (map (λ '(name, t), (name, write_canonical_type t)) fields) in
      0x03 :: to_le_bytes 4 (as_u32 (len sorted)) ++ concat (map (λ '(name, out), write_str name ++ out) sorted)
  | TyVariant cases =>
      0x04 :: to_le_bytes 4 (as_u32 (len cases))
        ++ concat (map (λ '(name, o), write_str name
                          ++ match o with Some t => 1 :: write_canonical_type t | None => [0] end) cases)
  | TyArray t => 0x05 :: write_canonical_type t
  | TyFunction param ret effect cap =>
      0x06 :: write_canonical_type param ++ write_canonical_type ret ++ write_canonical_effect_row effect
        ++ [canonical_cap_code cap]
  | TyActor state behavior => 0x07 :: write_canonical_type state ++ write_canonical_type behavior
  | TyApp constructor args =>
      0x08 :: write_canonical_type constructor ++ to_le_bytes 4 (as_u32 (len args))
        ++ concat (map write_canonical_type args)
  | TyReference cap inner => 0x09 :: canonical_cap_code cap :: write_canonical_type inner
  | TyScheme vars body =>
      0x0A :: to_le_bytes 4 (as_u32 (len vars)) ++ concat (map (to_le_bytes 8) vars) ++ write_canonical_type body
  | TyNominal name underlying => 0x0B :: write_str name ++ write_canonical_type underlying
  | TySkolem id => 0x0C :: to_le_bytes 8 id
  end.

Definition canonical_type_bytes (ty : Ty) : bytes := write_canonical_type ty.

(** ** The types an encoding stands for *)

Definition canon_row (row : EffectRow) : EffectRow :=
  match row with
  | Closed effects => Closed (sort_by effect_leb effects)
  | Open effects region => Open (sort_by effect_leb effects) region
  end.

Fixpoint canon (ty : Ty) : Ty :=
  match ty with
  | TyVar _ | TyPrimitive _ | TySkolem _ => ty
  | TyTuple ts => TyTuple (map canon ts)
  | TyRecord fields => TyRecord (sort_by_name (map (λ '(name, t), (name, canon t)) fields))
  | TyVariant cases =>
      TyVariant (map (λ '(name, o), (name, match o with Some t => Some (canon t) | None => None end)) cases)
  | TyArray t => TyArray (canon t)
  | TyFunction param ret effect cap => TyFunction (canon param) (canon ret) (canon_row effect) cap
  | TyActor state behavior => TyActor (canon state) (canon behavior)
  | TyApp constructor args => TyApp (canon constructor) (map canon args)
  | TyReference cap inner => TyReference cap (canon inner)
  | TyScheme vars body => TyScheme vars (canon body)
  | TyNominal name underlying => TyNominal name (canon underlying)
  end.

(** Lengths of 32 bits and identifiers of 64. *)
Definition fits32 {A} (l : list A) : Prop := len l < U32.
Definition effect_fits (e : Effect) : Prop := match e with EUserDefined name => fits32 name | _ => True end.
Definition row_fits (row : EffectRow) : Prop :=
  fits32 (EffectRow_effects row) ∧ Forall effect_fits (EffectRow_effects row) ∧
  match row with Open _ region => region < U64 | Closed _ => True end.

Fixpoint fits (ty : Ty) : Prop :=
  match ty with
  | TyVar v => v < U64
  | TySkolem id => id < U64
  | TyPrimitive _ => True
  | TyTuple ts => fits32 ts ∧ foldr (λ t P, fits t ∧ P) True ts
  | TyRecord fields => fits32 fields ∧ foldr (λ '(name, t) P, (fits32 name ∧ fits t) ∧ P) True fields
  | TyVariant cases =>
      fits32 cases ∧
      foldr (λ '(name, o) P, (fits32 name ∧ match o with Some t => fits t | None => True end) ∧ P) True cases
  | TyArray t => fits t
  | TyFunction param ret effect _ => fits param ∧ fits ret ∧ row_fits effect
  | TyActor state behavior => fits state ∧ fits behavior
  | TyApp constructor args => fits constructor ∧ fits32 args ∧ foldr (λ t P, fits t ∧ P) True args
  | TyReference _ inner => fits inner
  | TyScheme vars body => fits32 vars ∧ Forall (λ v, v < U64) vars ∧ fits body
  | TyNominal name underlying => fits32 name ∧ fits underlying
  end.

Lemma foldr_Forall {A} (f : A → Prop → Prop) (P : A → Prop) l :
  (∀ x Q, f x Q ↔ P x ∧ Q) → foldr f True l ↔ Forall P l.
Proof. intros Hf. induction l as [|x l IH]; cbn; [done|]. by rewrite Hf, IH, Forall_cons. Qed.

Definition option_fits (o : option Ty) : Prop := match o with Some t => fits t | None => True end.

Lemma fits_list ts : foldr (λ t P, fits t ∧ P) True ts ↔ Forall fits ts.
Proof. by apply foldr_Forall. Qed.
Lemma fits_fields fs :
  foldr (λ '(name, t) P, (fits32 name ∧ fits t) ∧ P) True fs ↔ Forall (λ f : bytes * Ty, fits32 f.1 ∧ fits f.2) fs.
Proof. apply foldr_Forall. by intros [] Q. Qed.
Lemma fits_cases vs :
  foldr (λ '(name, o) P, (fits32 name ∧ match o with Some t => fits t | None => True end) ∧ P) True vs ↔
  Forall (λ f : bytes * option Ty, fits32 f.1 ∧ option_fits f.2) vs.
Proof. apply foldr_Forall. by intros [] Q. Qed.

(** ** Prefix codes *)

Local Opaque to_le_bytes.

(** [f] is a prefix code for [g] on [P]. *)
Definition codes {A B} (P : A → Prop) (f : A → bytes) (g : A → B) : Prop :=
  ∀ x y r r', P x → P y → f x ++ r = f y ++ r' → g x = g y ∧ r = r'.

Lemma le_inj k v w r r' :
  v < 256 ^ N.of_nat k → w < 256 ^ N.of_nat k → to_le_bytes k v ++ r = to_le_bytes k w ++ r' → v = w ∧ r = r'.
Proof.
  intros Hv Hw [Heq Hr]%app_inj_1; [|by rewrite !length_to_le_bytes]. split; [|done].
  rewrite <-(from_to_le_bytes k v), <-(from_to_le_bytes k w) by done. by rewrite Heq.
Qed.

Lemma len_field_inj {A} (l l' : list A) r r' :
  fits32 l → fits32 l' → to_le_bytes 4 (as_u32 (len l)) ++ r = to_le_bytes 4 (as_u32 (len l')) ++ r' →
  length l = length l' ∧ r = r'.
Proof.
  intros Hl Hl' H. rewrite !as_u32_small in H by done. apply le_inj in H as [H ->]; [|done|done].
  unfold len in H. split; [lia|done].
Qed.

Lemma write_str_codes : codes fits32 write_str (λ s, s).
Proof.
  intros x y r r' Hx Hy H. unfold write_str in H. rewrite <-!(assoc_L (++)) in H.
  apply len_field_inj in H as [Hlen H]; [|done|done]. by apply app_inj_1 in H.
Qed.

Lemma concat_inj {A B} (f : A → bytes) (g : A → B) l l' r r' :
  length l = length l' → (∀ x y r r', x ∈ l → y ∈ l' → f x ++ r = f y ++ r' → g x = g y ∧ r = r') →
  concat (map f l) ++ r = concat (map f l') ++ r' → map g l = map g l' ∧ r = r'.
Proof.
  revert l'. induction l as [|x l IH]; intros [|y l']; try done; cbn; intros Hlen Hf H.
  rewrite <-!(assoc_L (++)) in H. apply Hf in H as [Hg H]; [|left|left].
  apply IH in H as [Hl ->]; [|lia|intros; eapply Hf; [by right|by right|done]]. by rewrite Hg, Hl.
Qed.

Lemma app_cons_inj (x y : N) l l' r r' : (x :: l) ++ r = (y :: l') ++ r' → x = y ∧ l ++ r = l' ++ r'.
Proof. intros H. by injection H. Qed.

Lemma write_effect_codes : codes effect_fits write_effect (λ e, e).
Proof.
  intros x y r r' Hx Hy H. unfold write_effect in H. cbn in H. injection H as Hc H.
  destruct x, y; try discriminate Hc; cbn in H; try done.
  assert (write_str name ++ r = write_str name0 ++ r') as [-> ->]%write_str_codes; [|done..].
  unfold write_str. by rewrite <-!(assoc_L (++)) in *.
Qed.

Lemma sorted_effects_inj l l' r r' :
  fits32 l → fits32 l' → Forall effect_fits l → Forall effect_fits l' →
  to_le_bytes 4 (as_u32 (len (sort_by effect_leb l))) ++ concat (map write_effect (sort_by effect_leb l)) ++ r =
  to_le_bytes 4 (as_u32 (len (sort_by effect_leb l'))) ++ concat (map write_effect (sort_by effect_leb l')) ++ r' →
  sort_by effect_leb l = sort_by effect_leb l' ∧ r = r'.
Proof.
  intros Hl Hl' Hf Hf' H. apply len_field_inj in H as [Hlen H].
  2,3: unfold fits32, len; by rewrite sort_by_perm.
  apply (concat_inj _ (λ e, e)) in H; [|done|].
  - by rewrite !map_id in H.
  - intros x y s s' Hx Hy. rewrite sort_by_perm in Hx, Hy. rewrite Forall_forall in Hf, Hf'.
    apply write_effect_codes; auto.
Qed.

Lemma row_codes : codes row_fits write_canonical_effect_row canon_row.
Proof.
  intros [l|l v] [l'|l' v'] r r' (H1 & H2 & H3) (H1' & H2' & H3') H; cbn [write_canonical_effect_row canon_row] in *;
    apply app_cons_inj in H as [Hc H]; try discriminate Hc; rewrite <-!(assoc_L (++)) in H;
    apply sorted_effects_inj in H as [-> H]; try done.
  by apply le_inj in H as [-> ->].
Qed.

Lemma cap_code_inj c c' : canonical_cap_code c = canonical_cap_code c' → c = c'.
Proof. by destruct c, c'. Qed.

Lemma primitive_code_inj p p' : primitive_code p = primitive_code p' → p = p'.
Proof. by destruct p, p'. Qed.

(** The fields of a record as the encoding sees them. *)
Lemma write_record fields :
  write_canonical_type (TyRecord fields) =
    0x03 :: to_le_bytes 4 (as_u32 (len (sort_by_name fields)))
      ++ concat (map (λ '(name, t), write_str name ++ write_canonical_type t) (sort_by_name fields)).
Proof.
  cbn [write_canonical_type]. rewrite (sort_by_name_map write_canonical_type). unfold len. rewrite length_map.
  do 2 f_equal. rewrite map_map. f_equal. apply map_ext. by intros [].
Qed.

Definition codes_at (x : Ty) : Prop :=
  ∀ y r r', fits x → fits y → write_canonical_type x ++ r = write_canonical_type y ++ r' → canon x = canon y ∧ r = r'.

Lemma types_code ts ts' r r' :
  Forall codes_at ts → length ts = length ts' → Forall fits ts → Forall fits ts' →
  concat (map write_canonical_type ts) ++ r = concat (map write_canonical_type ts') ++ r' →
  map canon ts = map canon ts' ∧ r = r'.
Proof.
  intros IH Hlen Hf Hf'. apply concat_inj; [done|]. intros x y s s' Hx Hy.
  rewrite Forall_forall in IH, Hf, Hf'. apply IH; auto.
Qed.

Lemma fields_code fs fs' r r' :
  Forall (λ f, codes_at f.2) fs → length fs = length fs' →
  Forall (λ f : bytes * Ty, fits32 f.1 ∧ fits f.2) fs → Forall (λ f : bytes * Ty, fits32 f.1 ∧ fits f.2) fs' →
  concat (map (λ '(name, t), write_str name ++ write_canonical_type t) fs) ++ r =
  concat (map (λ '(name, t), write_str name ++ write_canonical_type t) fs') ++ r' →
  map (λ '(name, t), (name, canon t)) fs = map (λ '(name, t), (name, canon t)) fs' ∧ r = r'.
Proof.
  intros IH Hlen Hf Hf'. apply concat_inj; [done|]. intros [n x] [n' y] s s' Hx Hy H.
  rewrite Forall_forall in IH, Hf, Hf'. destruct (Hf _ Hx) as [Hn Hfx], (Hf' _ Hy) as [Hn' Hfy].
  rewrite <-!(assoc_L (++)) in H. apply write_str_codes in H as [-> H]; [|done|done].
  apply (IH _ Hx) in H as [Heq ->]; [|done|done]. cbn in Heq. by rewrite Heq.
Qed.

Lemma cases_code vs vs' r r' :
  Forall (λ f : bytes * option Ty, of_option codes_at f.2) vs → length vs = length vs' →
  Forall (λ f : bytes * option Ty, fits32 f.1 ∧ option_fits f.2) vs →
  Forall (λ f : bytes * option Ty, fits32 f.1 ∧ option_fits f.2) vs' →
  concat (map (λ '(name, o), write_str name ++ match o with Some t => 1 :: write_canonical_type t | None => [0] end) vs) ++ r =
  concat (map (λ '(name, o), write_str name ++ match o with Some t => 1 :: write_canonical_type t | None => [0] end) vs') ++ r' →
  map (λ '(name, o), (name, match o with Some t => Some (canon t) | None => None end)) vs =
  map (λ '(name, o), (name, match o with Some t => Some (canon t) | None => None end)) vs' ∧ r = r'.
Proof.
  intros IH Hlen Hf Hf'. apply concat_inj; [done|]. intros [n x] [n' y] s s' Hx Hy H.
  rewrite Forall_forall in IH, Hf, Hf'. destruct (Hf _ Hx) as [Hn Hfx], (Hf' _ Hy) as [Hn' Hfy].
  rewrite <-!(assoc_L (++)) in H. apply write_str_codes in H as [-> H]; [|done|done].
  destruct x as [x|], y as [y|]; apply app_cons_inj in H as [Hc H]; try discriminate Hc; [|done].
  apply (IH _ Hx) in H as [Heq ->]; [|done|done]. cbn in Heq. by rewrite Heq.
Qed.

Lemma Forall_sorted {A} (P : bytes * A → Prop) l : Forall P l → Forall P (sort_by_name l).
Proof. unfold sort_by_name. by rewrite sort_by_perm. Qed.

Lemma type_codes : codes fits write_canonical_type canon.
Proof.
  intros a. change (codes_at a).
  induction a as [v|p|ts IH|fs IH|vs IH|t IH|a b e c IHa IHb|a b IHa IHb|c args IHc IH|c t IH|vars t IH
    |n t IH|i] using Ty_ind';
    intros [v'|p'|ts'|fs'|vs'|t'|a' b' e' c'|a' b'|c' args'|c' t'|vars' t'|n' t'|i'] r r' Hf Hf' H;
    rewrite ?write_record in H; cbn [write_canonical_type canon] in *;
    apply app_cons_inj in H as [Hc H]; try discriminate Hc; clear Hc; cbn [fits] in Hf, Hf';
    rewrite ?fits_list, ?fits_fields, ?fits_cases in Hf, Hf'; rewrite <-?(assoc_L (++)) in H.
  - by apply le_inj in H as [-> ->].
  - apply (app_cons_inj _ _ [] []) in H as [->%primitive_code_inj H]. done.
  - destruct Hf, Hf'. apply len_field_inj in H as [Hlen H]; [|done|done]. by apply types_code in H as [-> ->].
  - destruct Hf as [Hl Hf], Hf' as [Hl' Hf']. rewrite !(sort_by_name_map canon).
    apply len_field_inj in H as [Hlen H]; [|unfold fits32, len, sort_by_name; by rewrite sort_by_perm..].
    apply fields_code in H as [-> ->]; [done|by apply Forall_sorted|done|by apply Forall_sorted..].
  - destruct Hf, Hf'. apply len_field_inj in H as [Hlen H]; [|done|done]. by apply cases_code in H as [-> ->].
  - by apply IH in H as [-> ->].
  - destruct Hf as (? & ? & ?), Hf' as (? & ? & ?). apply IHa in H as [-> H]; [|done|done].
    apply IHb in H as [-> H]; [|done|done]. apply row_codes in H as [-> H]; [|done|done].
    apply (app_cons_inj _ _ [] []) in H as [->%cap_code_inj H]. done.
  - destruct Hf, Hf'. apply IHa in H as [-> H]; [|done|done]. by apply IHb in H as [-> ->].
  - destruct Hf as (? & ? & ?), Hf' as (? & ? & ?). apply IHc in H as [-> H]; [|done|done].
    apply len_field_inj in H as [Hlen H]; [|done|done]. by apply types_code in H as [-> ->].
  - apply app_cons_inj in H as [->%cap_code_inj H]. by apply IH in H as [-> ->].
  - destruct Hf as (? & Hv & ?), Hf' as (? & Hv' & ?). apply len_field_inj in H as [Hlen H]; [|done|done].
    apply (concat_inj _ (λ v, v)) in H as [Hvars H]; [|done|].
    + rewrite !map_id in Hvars. by apply IH in H as [-> ->]; subst.
    + intros x y s s' Hx Hy. rewrite Forall_forall in Hv, Hv'. apply le_inj; [by apply Hv|by apply Hv'].
  - destruct Hf, Hf'. apply write_str_codes in H as [-> H]; [|done|done]. by apply IH in H as [-> ->].
  - by apply le_inj in H as [-> ->].
Qed.

(** ** Sorting is canonical *)

Lemma insert_by_sorted {A} (leb : A → A → bool) x l :
  (∀ a b, leb a b = false → leb b a = true) → (∀ a b c, leb a b = true → leb b c = true → leb a c = true) →
  StronglySorted leb l → StronglySorted leb (insert_by leb x l).
Proof.
  intros Htot Htrans. induction l as [|y l IH]; cbn; [by repeat constructor|].
  rewrite StronglySorted_cons. intros [Hy Hl]. destruct (leb x y) eqn:Hxy; rewrite !StronglySorted_cons.
  - split; [|done]. constructor; [by rewrite Hxy|]. apply (Forall_impl _ _ _ Hy). intros z Hz%Is_true_eq_true.
    apply Is_true_eq_left. by apply (Htrans x y z).
  - split; [|by apply IH]. rewrite insert_by_perm. constructor; [|done]. apply Is_true_eq_left. by apply Htot.
Qed.

Lemma sort_by_id {A} (leb : A → A → bool) l : StronglySorted leb l → sort_by leb l = l.
Proof.
  induction l as [|x l IH]; [done|]. rewrite StronglySorted_cons. intros [Hx Hl]. rewrite sort_by_cons, IH by done.
  destruct l as [|y l]; [done|]. cbn. apply Forall_cons_1 in Hx as [->%Is_true_eq_true _]. done.
Qed.

Section sort_by_order.
  Context {A : Type} (leb : A → A → bool).
  Hypothesis leb_total : ∀ a b, leb a b = false → leb b a = true.
  Hypothesis leb_trans : ∀ a b c, leb a b = true → leb b c = true → leb a c = true.

Lemma sort_by_sorted l : StronglySorted leb (sort_by leb l).
Proof. induction l as [|x l IH]; [constructor|]. rewrite sort_by_cons. by apply insert_by_sorted. Qed.

Lemma sort_by_idem l : sort_by leb (sort_by leb l) = sort_by leb l.
Proof. apply sort_by_id, sort_by_sorted. Qed.

Lemma sort_by_permutation l l' :
  (∀ a b, a ∈ l → b ∈ l → leb a b = true → leb b a = true → a = b) → l ≡ₚ l' → sort_by leb l = sort_by leb l'.
Proof.
  intros Hanti Hp. apply (StronglySorted_unique_strong leb); [|apply sort_by_sorted..|by rewrite !sort_by_perm].
  intros a b. rewrite !sort_by_perm, <-Hp. intros Ha Hb H1%Is_true_eq_true H2%Is_true_eq_true. by apply Hanti.
Qed.
End sort_by_order.

Lemma bytes_leb_total a b : bytes_leb a b = false → bytes_leb b a = true.
Proof. unfold bytes_leb at 1. intros H%negb_false_iff. by apply bytes_ltb_leb. Qed.

Lemma bytes_leb_trans a b c : bytes_leb a b = true → bytes_leb b c = true → bytes_leb a c = true.
Proof.
  intros Hab Hbc. destruct (bytes_leb a c) eqn:Hac; [done|]. apply negb_false_iff in Hac.
  pose proof (bytes_leb_ltb_trans _ _ _ Hbc Hac) as Hba. unfold bytes_leb in Hab. by rewrite Hba in Hab.
Qed.

Lemma bytes_leb_antisym a b : bytes_leb a b = true → bytes_leb b a = true → a = b.
Proof.
  revert b. induction a as [|x a IH]; intros [|y b]; [done..|]. rewrite !bytes_leb_cons.
  intros [?|[-> H]] [?|[? H']]; try lia. f_equal. by apply IH.
Qed.

(** The derived order of effects: by variant, user-defined effects by name. *)
Definition effect_label (e : Effect) : bytes := match e with EUserDefined name => name | _ => [] end.

Lemma effect_leb_spec a b :
  effect_leb a b = true ↔
  effect_code a < effect_code b ∨ (effect_code a = effect_code b ∧ bytes_leb (effect_label a) (effect_label b) = true).
Proof.
  assert (∀ e, effect_code e ≠ 29 → effect_label e = []) as Hname by (by intros []).
  destruct (decide (effect_code a = 29 ∧ effect_code b = 29)) as [[Ha Hb]|Hn].
  - destruct a; try discriminate Ha. destruct b; try discriminate Hb. cbn. naive_solver lia.
  - assert (effect_leb a b = (effect_code a <=? effect_code b)) as ->.
    { clear Hname. destruct a; try done. destruct b; try done. exfalso. by apply Hn. }
    rewrite N.leb_le. split; [|lia]. intros Hle.
    destruct (decide (effect_code a = effect_code b)) as [He|]; [right|left; lia].
    rewrite !Hname by (intros ?; apply Hn; rewrite <-?He in *; lia). done.
Qed.

Lemma effect_ext a b : effect_code a = effect_code b → effect_label a = effect_label b → a = b.
Proof. destruct a, b; cbn; intros H; try discriminate H; congruence. Qed.

Lemma effect_leb_total a b : effect_leb a b = false → effect_leb b a = true.
Proof.
  rewrite <-not_true_iff_false, !effect_leb_spec. intros Hn.
  destruct (N.lt_trichotomy (effect_code a) (effect_code b)) as [?|[He|?]]; [tauto| |by left].
  right. split; [done|]. apply bytes_leb_total, not_true_iff_false. tauto.
Qed.

Lemma effect_leb_trans a b c : effect_leb a b = true → effect_leb b c = true → effect_leb a c = true.
Proof.
  rewrite !effect_leb_spec. intros [?|[? H]] [?|[? H']]; try (left; lia). right. split; [lia|].
  by eapply bytes_leb_trans.
Qed.

Lemma effect_leb_antisym a b : effect_leb a b = true → effect_leb b a = true → a = b.
Proof.
  rewrite !effect_leb_spec. intros [?|[? H]] [?|[? H']]; try lia. apply effect_ext; [done|].
  by apply bytes_leb_antisym.
Qed.

Lemma sort_effects_permutation l l' : l ≡ₚ l' → sort_by effect_leb l = sort_by effect_leb l'.
Proof.
  apply sort_by_permutation; [apply effect_leb_total|apply effect_leb_trans|]. intros a b _ _.
  apply effect_leb_antisym.
Qed.

Lemma sort_by_name_idem {A} (l : list (bytes * A)) : sort_by_name (sort_by_name l) = sort_by_name l.
Proof.
  apply sort_by_idem; unfold name_leb; [intros a b; apply bytes_leb_total|intros a b c; apply bytes_leb_trans].
Qed.

Lemma sort_by_name_permutation {A} (l l' : list (bytes * A)) :
  NoDup (map fst l) → l ≡ₚ l' → sort_by_name l = sort_by_name l'.
Proof.
  intros Hnd. apply sort_by_permutation; unfold name_leb;
    [intros a b; apply bytes_leb_total|intros a b c; apply bytes_leb_trans|].
  intros [n x] [n' y] Hx Hy H1 H2. pose proof (bytes_leb_antisym _ _ H1 H2) as Hn. cbn in Hn. subst n'. f_equal.
  rewrite !list_elem_of_lookup in Hx, Hy. destruct Hx as [i Hi], Hy as [j Hj].
  assert (i = j) as ->; [|congruence].
  eapply (NoDup_lookup _ _ _ n Hnd); rewrite list_lookup_fmap; [by rewrite Hi|by rewrite Hj].
Qed.

(** ** The theorem *)

Lemma write_canon_row row : write_canonical_effect_row (canon_row row) = write_canonical_effect_row row.
Proof.
  destruct row; cbn [canon_row write_canonical_effect_row];
    by rewrite (sort_by_idem _ effect_leb_total effect_leb_trans).
Qed.

Lemma len_map {A B} (f : A → B) l : len (map f l) = len l.
Proof. unfold len. by rewrite length_map. Qed.

Lemma write_canon t : write_canonical_type (canon t) = write_canonical_type t.
Proof.
  induction t as [v|p|ts IH|fs IH|vs IH|t IH|a b e c IHa IHb|a b IHa IHb|c args IHc IH|c t IH|vars t IH
    |n t IH|i] using Ty_ind'; cbn [canon]; rewrite ?write_record; cbn [write_canonical_type];
    rewrite ?len_map, ?map_map, ?write_canon_row, ?IHa, ?IHb, ?IHc, ?IH; try done.
  - do 3 f_equal. apply map_ext_Forall. done.
  - rewrite sort_by_name_idem, sort_by_name_map, map_map, len_map. do 3 f_equal. apply map_ext_Forall.
    apply Forall_sorted. apply (Forall_impl _ _ _ IH). by intros [n t]; cbn; intros ->.
  - do 3 f_equal. apply map_ext_Forall. apply (Forall_impl _ _ _ IH). by intros [n [t|]]; cbn; [intros ->|].
  - do 4 f_equal. by apply map_ext_Forall.
Qed.

(** [C20] The canonical bytes of a type identify it.  Two types whose lengths fit 32 bits and whose identifiers fit 64
    have the same canonical bytes exactly when they are equal after sorting record fields by name and effects by
    their derived order; in particular the order in which distinct fields or effects are written never matters, and
    no encoding is a proper prefix of another, so encodings may be concatenated. *)
Theorem canonical_type_bytes_identify (t1 t2 : Ty) (Hf1 : fits t1) (Hf2 : fits t2) :
  (canonical_type_bytes t1 = canonical_type_bytes t2 ↔ canon t1 = canon t2) ∧
  (∀ r, canonical_type_bytes t1 ++ r = canonical_type_bytes t2 → r = []) ∧
  (∀ fs fs', NoDup (map fst fs) → fs ≡ₚ fs' →
     canonical_type_bytes (TyRecord fs) = canonical_type_bytes (TyRecord fs')) ∧
  (∀ es es' cap, es ≡ₚ es' →
     canonical_type_bytes (TyFunction t1 t2 (Closed es) cap) = canonical_type_bytes (TyFunction t1 t2 (Closed es') cap)).
Proof.
  unfold canonical_type_bytes. repeat split.
  - intros H. by apply (type_codes t1 t2 [] []); [..|rewrite !app_nil_r].
  - intros H. by rewrite <-(write_canon t1), <-(write_canon t2), H.
  - intros r H. apply (type_codes t1 t2 r []); [done..|by rewrite app_nil_r].
  - intros fs fs' Hnd Hp. by rewrite !write_record, (sort_by_name_permutation _ _ Hnd Hp).
  - intros es es' cap Hp. cbn [write_canonical_type write_canonical_effect_row].
    by rewrite (sort_effects_permutation _ _ Hp).
Qed.

Lemma canonical_type_bytes_identify_witness :
  canonical_type_bytes (TyRecord [(str "b", TyPrimitive PInt); (str "a", TyVar 7)]) =
    canonical_type_bytes (TyRecord [(str "a", TyVar 7); (str "b", TyPrimitive PInt)]) ∧
  canonical_type_bytes (TyTuple [TyVar 1]) ≠ canonical_type_bytes (TyTuple [TyVar 2]).
Proof.
  split.
  - apply canonical_type_bytes_identify; [cbn; repeat split..|]. reflexivity.
  - rewrite (proj1 (canonical_type_bytes_identify (TyTuple [TyVar 1]) (TyTuple [TyVar 2])
      ltac:(cbn; repeat split) ltac:(cbn; repeat split))). discriminate.
Defined.
