(* ===== verification/Unify.v ===== *)
(** * Unification and type schemes

    The first part of [src/typechecker.rs]: substitutions, the unifier [mgu] with
    its treatment of records, actors and variants, contexts, and the
    generalisation and instantiation of type schemes.  [apply_subst], [mgu] and
    [compose_subst] recurse without a bound that is plain from their arguments:
    they take fuel, and no result stands for a call that overflows the stack. *)
From Stdlib Require Import String.
From S2P Require Import Prelude Bytes Text Types.

Local Open Scope list_scope.
Local Open Scope N_scope.

(** ** Errors *)

Record Span := mkSpan { sp_start : N; sp_end : N }.

Inductive NuError :=
| TypeError (msg : bytes) (span : Span) (expected_type found_type : option bytes)
    (similar_names : option (list bytes)).

Definition NuError_type_error (msg : bytes) (span : Span) : NuError := TypeError msg span None None None.

Definition NuError_type_mismatch (expected found : bytes) (span : Span) : NuError :=
  TypeError (str "Type mismatch: expected " ++ expected ++ str ", found " ++ found) span
    (Some expected) (Some found) None.

Definition NuError_field_not_found (field : bytes) (span : Span) (available : option (list bytes)) : NuError :=
  let msg := match available with
             | Some fields =>
                 str "Field '" ++ field ++ str "' not found in record type. Available fields: "
                   ++ join_bytes (str ", ") fields
             | None => str "Field '" ++ field ++ str "' not found in record type"
             end in
  TypeError msg span None None None.

(** ** Computations of the checker

    The state is the counter of type variables. *)
Definition Check (A : Type) : Type := N → option (result A NuError * N).

#[global] Instance check_ret : MRet Check := λ A a c, Some (Ok a, c).
#[global] Instance check_bind : MBind Check := λ A B k m c,
  match m c with
  | Some (Ok a, c) => k a c
  | Some (Err e, c) => Some (Err e, c)
  | None => None
  end.
Definition check_fail {A} (e : NuError) : Check A := λ c, Some (Err e, c).
Definition check_lift {A} (o : option A) : Check A := λ c, match o with Some a => Some (Ok a, c) | None => None end.
Definition check_try {A} (m : Check A) : Check (result A NuError) := λ c,
  match m c with Some (r, c) => Some (Ok r, c) | None => None end.

Definition TypeVar_fresh : Check TypeVar := λ c, Some (Ok c, wrapping_add64 c 1).

(** ** Substitutions *)

Abbreviation Substitution := (list (TypeVar * Ty)).

(** The first mapping for a variable. *)
Fixpoint find_binding (v : TypeVar) (subst : Substitution) : option Ty :=
  match subst with
  | [] => None
  | (var, replacement) :: subst => if var =? v then Some replacement else find_binding v subst
  end.

Fixpoint apply_subst (fuel : nat) (ty : Ty) (subst : Substitution) : option Ty :=
  match fuel with
  | O => None
  | S fuel =>
      match ty with
      | TyVar v =>
          match find_binding v subst with
          | Some replacement => apply_subst fuel replacement subst
          | None => Some (TyVar v)
          end
      | TyPrimitive _ | TySkolem _ => Some ty
      | TyTuple ts => ts ← mapM (λ t, apply_subst fuel t subst) ts; Some (TyTuple ts)
      | TyRecord fs => fs ← mapM (λ '(n, t), t ← apply_subst fuel t subst; Some (n, t)) fs; Some (TyRecord fs)
      | TyVariant vs =>
          vs ← mapM (λ '(name, o), match o with
                                   | Some t => t ← apply_subst fuel t subst; Some (name, Some t)
                                   | None => Some (name, None)
                                   end) vs;
          Some (TyVariant vs)
      | TyArray t => t ← apply_subst fuel t subst; Some (TyArray t)
      | TyFunction param ret effect cap =>
          param ← apply_subst fuel param subst;
          ret ← apply_subst fuel ret subst;
          Some (TyFunction param ret effect cap)
      | TyActor state behavior =>
          state ← apply_subst fuel state subst;
          behavior ← apply_subst fuel behavior subst;
          Some (TyActor state behavior)
      | TyApp constructor args =>
          constructor ← apply_subst fuel constructor subst;
          args ← mapM (λ t, apply_subst fuel t subst) args;
          Some (TyApp constructor args)
      | TyReference cap inner => inner ← apply_subst fuel inner subst; Some (TyReference cap inner)
      | TyScheme vars body =>
          let filtered := filter (λ b, b.1 ∉ vars) subst in
          body ← apply_subst fuel body filtered; Some (TyScheme vars body)
      | TyNominal name underlying =>
          underlying ← apply_subst fuel underlying subst; Some (TyNominal name underlying)
      end
  end.

Fixpoint subst_type_vars_with (ty : Ty) (m : gmap TypeVar Ty) : Ty :=
  match ty with
  | TyVar v => default ty (m !! v)
  | TyPrimitive _ | TySkolem _ => ty
  | TyTuple ts => TyTuple (map (λ t, subst_type_vars_with t m) ts)
  | TyRecord fs => TyRecord (map (λ '(n, t), (n, subst_type_vars_with t m)) fs)
  | TyVariant vs =>
      TyVariant (map (λ '(n, o), (n, match o with Some t => Some (subst_type_vars_with t m) | None => None end)) vs)
  | TyArray t => TyArray (subst_type_vars_with t m)
  | TyFunction param ret effect cap =>
      TyFunction (subst_type_vars_with param m) (subst_type_vars_with ret m) effect cap
  | TyActor state behavior => TyActor (subst_type_vars_with state m) (subst_type_vars_with behavior m)
  | TyApp constructor args =>
      TyApp (subst_type_vars_with constructor m) (map (λ t, subst_type_vars_with t m) args)
  | TyReference cap inner => TyReference cap (subst_type_vars_with inner m)
  | TyScheme vars body => TyScheme vars (subst_type_vars_with body m)
  | TyNominal name underlying => TyNominal name (subst_type_vars_with underlying m)
  end.

(** ** Pieces of the unifier without recursion *)

Definition effect_row_compatible (e1 e2 : EffectRow) : bool :=
  match e1, e2 with
  | Closed a, Closed b => bool_decide (sort_by effect_leb a = sort_by effect_leb b)
  | Open a _, Closed b | Closed b, Open a _ => forallb (λ e, bool_decide (e ∈ a)) b
  | Open a _, Open b _ => forallb (λ e, bool_decide (e ∈ b)) a && forallb (λ e, bool_decide (e ∈ a)) b
  end.

Definition normalize_required_actor_behavior_sig (sig : Ty) : Ty :=
  match sig with
  | TyFunction param ret effect cap =>
      let packed_param := match param with TyTuple items => TyTuple items | other => TyTuple [other] end in
      TyFunction packed_param ret effect cap
  | _ => sig
  end.

Definition strip_first_param (param : Ty) : Ty :=
  match param with
  | TyTuple (_ :: p1 :: p2 :: ps) => TyTuple (p1 :: p2 :: ps)
  | TyTuple [_; p1] => p1
  | _ => Type_unit
  end.

Definition find_field {A} (name : bytes) (fs : list (bytes * A)) : option A :=
  option_map snd (find (λ f, bool_decide (f.1 = name)) fs).

Definition protocol_call_signature (protocol : Ty) (behavior : bytes) (span : Span) : result (Ty * Ty) NuError :=
  match protocol with
  | TyRecord fields =>
      match find_field behavior fields with
      | None => Err (NuError_field_not_found behavior span (Some (map fst fields)))
      | Some (TyFunction param ret _ _) => Ok (param, ret)
      | Some _ =>
          Err (NuError_type_error
                 (str "ActorRef behavior '" ++ behavior ++ str "' must have a function signature") span)
      end
  | _ => Err (NuError_type_error (str "ActorRef protocol must be a record of behavior signatures") span)
  end.

Definition protocol_param_types (param : Ty) : list Ty :=
  match param with TyTuple items => items | other => [other] end.

Fixpoint occurs_in (v : TypeVar) (t : Ty) : bool :=
  match t with
  | TyVar v2 => v2 =? v
  | TyPrimitive _ | TySkolem _ => false
  | TyTuple ts => existsb (occurs_in v) ts
  | TyRecord fs => existsb (λ '(_, t), occurs_in v t) fs
  | TyVariant _ => false
  | TyArray t => occurs_in v t
  | TyFunction param ret _ _ => occurs_in v param || occurs_in v ret
  | TyActor state behavior => occurs_in v state || occurs_in v behavior
  | TyApp constructor args => occurs_in v constructor || existsb (occurs_in v) args
  | TyReference _ inner => occurs_in v inner
  | TyScheme vars body => negb (bool_decide (v ∈ vars)) && occurs_in v body
  | TyNominal _ underlying => occurs_in v underlying
  end.

Definition var_subst (v : TypeVar) (t : Ty) (span : Span) : result Substitution NuError :=
  match t with
  | TySkolem _ => Ok [(v, t)]
  | _ =>
      if match t with TyVar v2 => v2 =? v | _ => false end then Ok [] else
      if occurs_in v t then
        Err (NuError_type_error
          (str "Infinite type: this expression's type references itself. This often happens with self-referential definitions (e.g., a record that contains itself, or `let f = f`). (Type variable "
             ++ Type_to_string (TyVar v) ++ str " occurs in " ++ Type_to_string t ++ str ")") span)
      else Ok [(v, t)]
  end.

(** The fields of a record and its last row tail, for one round of the loop. *)
Definition split_fields (fs : list (bytes * Ty)) : list (bytes * Ty) * option Ty :=
  (filter (λ f, f.1 ≠ RECORD_ROW_TAIL_FIELD) fs,
   option_map snd (last (filter (λ f, f.1 = RECORD_ROW_TAIL_FIELD) fs))).

Fixpoint split_record_loop (fuel : nat) (fields current : list (bytes * Ty))
    : option (list (bytes * Ty) * option Ty) :=
  match fuel with
  | O => None
  | S fuel =>
      let '(rest, next_tail) := split_fields current in
      match next_tail with
      | Some (TyRecord inner) => split_record_loop fuel (fields ++ rest) inner
      | other => Some (fields ++ rest, other)
      end
  end.
Definition split_record (fuel : nat) (fs : list (bytes * Ty)) : option (list (bytes * Ty) * option Ty) :=
  split_record_loop fuel [] fs.

Fixpoint find_recursive_apps_in_type (ty : Ty) (target : TypeVar) : list (list Ty) :=
  match ty with
  | TyApp constructor args =>
      (match constructor with TyVar v => if v =? target then [args] else [] | _ => [] end)
        ++ find_recursive_apps_in_type constructor target
        ++ concat (map (λ a, find_recursive_apps_in_type a target) args)
  | TyTuple ts => concat (map (λ t, find_recursive_apps_in_type t target) ts)
  | TyVariant vs =>
      concat (map (λ '(_, p), match p with Some p => find_recursive_apps_in_type p target | None => [] end) vs)
  | TyFunction param ret _ _ =>
      find_recursive_apps_in_type param target ++ find_recursive_apps_in_type ret target
  | _ => []
  end.
Definition find_recursive_apps (vs : list (bytes * option Ty)) (target : TypeVar) : list (list Ty) :=
  concat (map (λ '(_, payload), match payload with Some p => find_recursive_apps_in_type p target | None => [] end) vs).

(** ** The unifier *)

Section open.
Context (blake3 : bytes → bytes).
Context (fuel : nat) (mgu : Ty → Ty → Span → Check Substitution).
Context (compose_subst : Substitution → Substitution → Check Substitution).

Definition apply (ty : Ty) (subst : Substitution) : Check Ty := check_lift (apply_subst fuel ty subst).

(** [mgu(&apply_subst(t1, &subst), &apply_subst(t2, &subst), span)?] and
    [subst = compose_subst(&s, &subst)], the body of every loop below. *)
Definition unify_next (span : Span) (subst : Substitution) (t1 t2 : Ty) : Check Substitution :=
  t1 ← apply t1 subst;
  t2 ← apply t2 subst;
  s ← mgu t1 t2 span;
  compose_subst s subst.

(** The two types are lists of one length at every call. *)
Fixpoint unify_pairs (span : Span) (subst : Substitution) (types1 types2 : list Ty) : Check Substitution :=
  match types1, types2 with
  | t1 :: types1, t2 :: types2 => subst ← unify_next span subst t1 t2; unify_pairs span subst types1 types2
  | _, _ => mret subst
  end.

Definition unify_many_app (types1 types2 : list Ty) (span : Span) : Check Substitution :=
  if negb (len types1 =? len types2) then
    check_fail (NuError_type_mismatch (str "type list of length " ++ dec_of_N (len types1))
                  (str "type list of length " ++ dec_of_N (len types2)) span)
  else unify_pairs span [] types1 types2.

Definition unify_many (types1 types2 : list Ty) (span : Span) : Check Substitution :=
  if negb (len types1 =? len types2) then
    check_fail (NuError_type_mismatch (str "list of " ++ dec_of_N (len types1) ++ str " types")
                  (str "list of " ++ dec_of_N (len types2) ++ str " types") span)
  else unify_pairs span [] types1 types2.

(** The loops over required behaviors; [normalize] is what each call does to the
    advertised signature. *)
Fixpoint unify_behaviors (normalize : Ty → Ty) (advertised required : list (bytes * Ty)) (span : Span)
    (subst : Substitution) : Check Substitution :=
  match required with
  | [] => mret subst
  | (name, required_sig) :: required =>
      match find_field name advertised with
      | None => check_fail (NuError_field_not_found name span (Some (map fst advertised)))
      | Some advertised_sig =>
          subst ← unify_next span subst (normalize advertised_sig)
                    (normalize_required_actor_behavior_sig required_sig);
          unify_behaviors normalize advertised required span subst
      end
  end.

Definition unify_actor_protocol (advertised required : Ty) (span : Span) : Check Substitution :=
  match advertised with
  | TyRecord advertised_fields =>
      match required with
      | TyRecord required_fields => unify_behaviors (λ t, t) advertised_fields required_fields span []
      | _ => check_fail (TypeError (str "ActorRef protocol must be a record of behavior signatures") span
                           (Some (str "record protocol")) (Some (Type_to_string required)) None)
      end
  | _ => check_fail (TypeError (str "actor does not expose a statically checkable behavior protocol") span
                       (Some (Type_to_string required)) (Some (Type_to_string advertised)) None)
  end.

Definition unify_actor_ref_attenuation (advertised required : Ty) (span : Span) : Check Substitution :=
  match advertised with
  | TyRecord advertised_fields =>
      match required with
      | TyRecord required_fields =>
          unify_behaviors normalize_required_actor_behavior_sig advertised_fields required_fields span []
      | _ => check_fail (NuError_type_error
                           (str "ActorRef required protocol must be a record of behavior signatures") span)
      end
  | _ => check_fail (NuError_type_error
                       (str "ActorRef advertised protocol must be a record of behavior signatures") span)
  end.

(** The loop of [unify_closed_records], over fields sorted by name. *)
Fixpoint unify_fields (span : Span) (subst : Substitution) (fs1 fs2 : list (bytes * Ty)) : Check Substitution :=
  match fs1, fs2 with
  | (n1, t1f) :: fs1, (n2, t2f) :: fs2 =>
      if negb (bool_decide (n1 = n2)) then
        check_fail (NuError_type_mismatch (str "record with field '" ++ n1 ++ str "'")
                      (str "record with field '" ++ n2 ++ str "'") span)
      else
      subst ← unify_next span subst t1f t2f;
      unify_fields span subst fs1 fs2
  | _, _ => mret subst
  end.

Definition unify_closed_records (fs1 fs2 : list (bytes * Ty)) (span : Span) : Check Substitution :=
  if negb (len fs1 =? len fs2) then
    check_fail (NuError_type_mismatch (str "record with " ++ dec_of_N (len fs1) ++ str " fields")
                  (str "record with " ++ dec_of_N (len fs2) ++ str " fields") span)
  else unify_fields span [] (sort_by_name fs1) (sort_by_name fs2).

(** The loop over shared fields in [unify_open_records]. *)
Fixpoint unify_shared (span : Span) (fields1 fields2 : list (bytes * Ty)) (subst : Substitution)
    (shared : list bytes) : Check Substitution :=
  match shared with
  | [] => mret subst
  | name :: shared =>
      t1f ← check_lift (find_field name fields1);
      t2f ← check_lift (find_field name fields2);
      subst ← unify_next span subst t1f t2f;
      unify_shared span fields1 fields2 subst shared
  end.

(** The fields of one side that the other does not have. *)
Definition extras (fs other : list (bytes * Ty)) (subst : Substitution) : Check (list (bytes * Ty)) :=
  check_lift (mapM (λ '(n, t), t ← apply_subst fuel t subst; Some (n, t))
                (filter (λ f, f.1 ∉ map fst other) fs)).

Definition with_fields (fs : list (bytes * Ty)) : bytes :=
  str "record with fields {" ++ join_bytes (str ", ") (map fst fs) ++ str "}".

(** The arm in which one side is open with row [r] and the other, with [closed]
    fields, is not. *)
Definition close_row (span : Span) (subst : Substitution) (r : TypeVar) (missing closed extra : list (bytes * Ty))
    : Check Substitution :=
  match missing with
  | (name, _) :: _ => check_fail (NuError_field_not_found name span (Some (map fst closed)))
  | [] => s ← mgu (TyVar r) (Type_record extra) span; compose_subst s subst
  end.

Definition unify_open_records (fields1 : list (bytes * Ty)) (tail1 : option Ty) (fields2 : list (bytes * Ty))
    (tail2 : option Ty) (span : Span) : Check Substitution :=
  let shared := sort_by bytes_leb (remove_dups (filter (λ n, n ∈ map fst fields2) (map fst fields1))) in
  subst ← unify_shared span fields1 fields2 [] shared;
  extras1 ← extras fields1 fields2 subst;
  extras2 ← extras fields2 fields1 subst;
  match tail1, tail2 with
  | Some (TyVar r1), Some (TyVar r2) =>
      if r1 =? r2 then
        match extras1, extras2 with
        | [], [] => mret subst
        | _, _ =>
            check_fail (TypeError
              (str "Incompatible record types: both sides require additional fields that cannot be reconciled")
              span (Some (with_fields fields1)) (Some (with_fields fields2)) None)
        end
      else
      fresh_row ← TypeVar_fresh;
      s ← mgu (TyVar r1) (Type_record_open extras2 fresh_row) span;
      subst ← compose_subst s subst;
      s ← mgu (TyVar r2) (Type_record_open extras1 fresh_row) span;
      compose_subst s subst
  | Some (TyVar r), None => close_row span subst r extras1 fields2 extras2
  | None, Some (TyVar r) => close_row span subst r extras2 fields1 extras1
  | _, _ =>
      check_fail (TypeError (str "Incompatible record types: the rows cannot be unified") span
                    (Some (with_fields fields1)) (Some (with_fields fields2)) None)
  end.

(** The loop over constructors sorted by name. *)
Fixpoint unify_variants (span : Span) (subst : Substitution) (vs1 vs2 : list (bytes * option Ty))
    : Check Substitution :=
  match vs1, vs2 with
  | (n1, p1) :: vs1, (n2, p2) :: vs2 =>
      if negb (bool_decide (n1 = n2)) then
        check_fail (NuError_type_mismatch (str "constructor '" ++ n1 ++ str "'")
                      (str "constructor '" ++ n2 ++ str "'") span)
      else
      match p1, p2 with
      | None, None => unify_variants span subst vs1 vs2
      | Some a, Some b => subst ← unify_next span subst a b; unify_variants span subst vs1 vs2
      | _, _ =>
          check_fail (NuError_type_mismatch (str "constructor '" ++ n1 ++ str "' with payload")
                        (str "constructor '" ++ n1 ++ str "' without payload") span)
      end
  | _, _ => mret subst
  end.

(** The loop over the recursive uses of a variant type. *)
Fixpoint unify_recursive_apps (span : Span) (subst : Substitution) (inner : list (list Ty)) (args : list Ty)
    : Check Substitution :=
  match inner with
  | [] => mret subst
  | inner_args :: inner =>
      s ← unify_many_app inner_args args span;
      subst ← compose_subst s subst;
      unify_recursive_apps span subst inner args
  end.

(** The two types are ground, neither is nominal, and their structural forms
    have one digest. *)
Definition same_ntir (t1 t2 : Ty) : bool :=
  negb (match t1 with TyNominal _ _ => true | _ => false end)
    && negb (match t2 with TyNominal _ _ => true | _ => false end)
    && Type_is_ground t1 && Type_is_ground t2
    && bool_decide (NtirNode_hash blake3 (Type_to_ntir t1) = NtirNode_hash blake3 (Type_to_ntir t2)).

(** [mgu] behind its shortcuts. *)
Definition mgu_match (t1 t2 : Ty) (span : Span) : Check Substitution :=
  let mismatch := NuError_type_mismatch (Type_to_string t1) (Type_to_string t2) span in
  match t1, t2 with
  | TyVar v, t | t, TyVar v => λ c, Some (var_subst v t span, c)
  | TyFunction p1 r1 e1 c1, TyFunction p2 r2 e2 c2 =>
      if negb (bool_decide (c1 = c2)) then
        check_fail (NuError_type_mismatch (str "function with capability " ++ Capability_to_string c1)
                      (str "function with capability " ++ Capability_to_string c2) span)
      else if negb (effect_row_compatible e1 e2) then
        check_fail (NuError_type_mismatch (str "function with effects " ++ EffectRow_to_string e1)
                      (str "function with effects " ++ EffectRow_to_string e2) span)
      else
      s1 ← mgu p1 p2 span;
      unify_next span s1 r1 r2
  | TyNominal n1 u1, TyNominal n2 u2 =>
      if bool_decide (n1 = n2) then mgu u1 u2 span
      else check_fail (NuError_type_mismatch (str "opaque type " ++ n1) (str "opaque type " ++ n2) span)
  | TyNominal name _, other | other, TyNominal name _ =>
      check_fail (NuError_type_mismatch (str "opaque type " ++ name) (Type_to_string other) span)
  | TyPrimitive a, TyPrimitive b => if bool_decide (a = b) then mret [] else check_fail mismatch
  | TySkolem a, TySkolem b => if a =? b then mret [] else check_fail mismatch
  | TyTuple ts1, TyTuple ts2 =>
      if negb (len ts1 =? len ts2) then
        check_fail (NuError_type_mismatch (str "tuple of " ++ dec_of_N (len ts1) ++ str " elements")
                      (str "tuple of " ++ dec_of_N (len ts2) ++ str " elements") span)
      else unify_many ts1 ts2 span
  | TyRecord fs1, TyRecord fs2 =>
      '(fields1, tail1) ← check_lift (split_record fuel fs1);
      '(fields2, tail2) ← check_lift (split_record fuel fs2);
      match tail1, tail2 with
      | None, None => unify_closed_records fields1 fields2 span
      | _, _ => unify_open_records fields1 tail1 fields2 tail2 span
      end
  | TyArray t1_inner, TyArray t2_inner => mgu t1_inner t2_inner span
  | TyActor s1 b1, TyActor s2 b2 =>
      s_state ← mgu s1 s2 span;
      unify_next span s_state b1 b2
  | TyReference c1 i1, TyReference c2 i2 =>
      if negb (bool_decide (c1 = c2)) then
        check_fail (NuError_type_mismatch (str "reference with capability " ++ Capability_to_string c1)
                      (str "reference with capability " ++ Capability_to_string c2) span)
      else mgu i1 i2 span
  | TyApp c1 a1, TyApp c2 a2 =>
      s1 ← mgu c1 c2 span;
      applied1 ← check_lift (mapM (λ t, apply_subst fuel t s1) a1);
      applied2 ← check_lift (mapM (λ t, apply_subst fuel t s1) a2);
      s2 ← unify_many_app applied1 applied2 span;
      compose_subst s2 s1
  | TyVariant vs, TyApp (TyVar v) args | TyApp (TyVar v) args, TyVariant vs =>
      unify_recursive_apps span [] (find_recursive_apps vs v) args
  | TyVariant vs1, TyVariant vs2 =>
      if negb (len vs1 =? len vs2) then
        check_fail (NuError_type_mismatch (str "variant type with " ++ dec_of_N (len vs1) ++ str " constructors")
                      (str "variant type with " ++ dec_of_N (len vs2) ++ str " constructors") span)
      else unify_variants span [] (sort_by_name vs1) (sort_by_name vs2)
  | _, _ => check_fail mismatch
  end.

Definition is_never (t : Ty) : bool := match t with TyPrimitive PNever => true | _ => false end.

Definition mgu_step (t1 t2 : Ty) (span : Span) : Check Substitution :=
  if is_never t1 || is_never t2 then mret [] else
  match t1, Type_actor_ref_protocol t2 with
  | TyActor _ behavior, Some required => unify_actor_protocol behavior required span
  | _, _ =>
      match Type_actor_ref_protocol t1, t2 with
      | Some required, TyActor _ behavior => unify_actor_protocol behavior required span
      | _, _ =>
          if Ty_eqb t1 t2 then mret [] else
          if same_ntir t1 t2 then mret [] else
          mgu_match t1 t2 span
      end
  end.

(** [s1_substituted.iter().position(|(rv, _)| rv == v)] *)
Fixpoint binding_position (v : TypeVar) (subst : Substitution) : option nat :=
  match subst with
  | [] => None
  | (rv, _) :: subst => if rv =? v then Some 0%nat else option_map S (binding_position v subst)
  end.

(** The loop over [s2]. *)
Fixpoint compose_loop (s2 s1_substituted : Substitution) : Check Substitution :=
  match s2 with
  | [] => mret s1_substituted
  | (v, t) :: s2 =>
      s1_substituted ←
        match binding_position v s1_substituted with
        | None => mret (s1_substituted ++ [(v, t)])
        | Some pos =>
            let existing := match s1_substituted !! pos with Some b => b.2 | None => t end in
            r ← check_try (mgu existing t (mkSpan 0 0));
            match r with
            | Ok s =>
                unified ← apply existing s;
                compose_subst s (delete pos s1_substituted ++ [(v, unified)])
            | Err _ => mret s1_substituted
            end
        end;
      compose_loop s2 s1_substituted
  end.

Definition compose_step (s2 s1 : Substitution) : Check Substitution :=
  s1_substituted ← check_lift (mapM (λ '(v, t), t ← apply_subst fuel t s2; Some (v, t)) s1);
  compose_loop s2 s1_substituted.

End open.

Fixpoint mgu (blake3 : bytes → bytes) (fuel : nat) (t1 t2 : Ty) (span : Span) {struct fuel} : Check Substitution :=
  match fuel with
  | O => λ _, None
  | S fuel => mgu_step blake3 fuel (mgu blake3 fuel) (compose_subst blake3 fuel) t1 t2 span
  end
with compose_subst (blake3 : bytes → bytes) (fuel : nat) (s2 s1 : Substitution) {struct fuel} : Check Substitution :=
  match fuel with
  | O => λ _, None
  | S fuel => compose_step fuel (mgu blake3 fuel) (compose_subst blake3 fuel) s2 s1
  end.

Definition mgu_assignable (blake3 : bytes → bytes) (fuel : nat) (found expected : Ty) (span : Span)
    : Check Substitution :=
  match Type_actor_ref_protocol found, Type_actor_ref_protocol expected with
  | Some advertised, Some required =>
      unify_actor_ref_attenuation fuel (mgu blake3 fuel) (compose_subst blake3 fuel) advertised required span
  | _, _ => mgu blake3 fuel found expected span
  end.
