(* ===== verification/UnifyCorrect.v ===== *)
(** * The unifier is correct

    On types without schemes, row tails, actor references and applied variables
    [mgu] ends with a most general unifier, or with an error when there is none;
    variables under variants, which its occurs check does not look into, are
    allowed when a unifier exists.  What its result makes of the two types is
    [agree]: equality up to the order of fields and constructors, compatible
    effect rows, [Never], and ground types with one structural digest. *)
From Stdlib Require Import String.
From S2P Require Import Prelude Bytes Text Types Unify.

Local Open Scope list_scope.

(** ** Variables, size, parallel substitution *)

Fixpoint tvars (t : Ty) : gset N :=
  match t with
  | TyVar v => {[v]}
  | TyPrimitive _ | TySkolem _ => ∅
  | TyTuple ts => ⋃ map tvars ts
  | TyRecord fs => ⋃ map (λ '(_, t), tvars t) fs
  | TyVariant vs => ⋃ map (λ '(_, o), match o with Some t => tvars t | None => ∅ end) vs
  | TyArray t | TyReference _ t | TyScheme _ t | TyNominal _ t => tvars t
  | TyFunction a b _ _ | TyActor a b => tvars a ∪ tvars b
  | TyApp c args => tvars c ∪ ⋃ map tvars args
  end.

Fixpoint tsize (t : Ty) : nat :=
  match t with
  | TyVar _ | TyPrimitive _ | TySkolem _ => 1
  | TyTuple ts => S (sum_list (map tsize ts))
  | TyRecord fs => S (sum_list (map (λ '(_, t), tsize t) fs))
  | TyVariant vs => S (sum_list (map (λ '(_, o), match o with Some t => tsize t | None => 0 end) vs))
  | TyArray t | TyReference _ t | TyScheme _ t | TyNominal _ t => S (tsize t)
  | TyFunction a b _ _ | TyActor a b => S (tsize a + tsize b)
  | TyApp c args => S (tsize c + sum_list (map tsize args))
  end.

Fixpoint tsubst (θ : N → Ty) (t : Ty) : Ty :=
  match t with
  | TyVar v => θ v
  | TyPrimitive _ | TySkolem _ | TyScheme _ _ => t
  | TyTuple ts => TyTuple (map (tsubst θ) ts)
  | TyRecord fs => TyRecord (map (λ '(n, t), (n, tsubst θ t)) fs)
  | TyVariant vs => TyVariant (map (λ '(n, o), (n, match o with Some t => Some (tsubst θ t) | None => None end)) vs)
  | TyArray t => TyArray (tsubst θ t)
  | TyFunction a b e c => TyFunction (tsubst θ a) (tsubst θ b) e c
  | TyActor a b => TyActor (tsubst θ a) (tsubst θ b)
  | TyApp c args => TyApp (tsubst θ c) (map (tsubst θ) args)
  | TyReference c t => TyReference c (tsubst θ t)
  | TyNominal n t => TyNominal n (tsubst θ t)
  end.

(** The types of the theorems. *)
Definition ground (t : Ty) : bool := bool_decide (tvars t = ∅).
Definition is_actor_ref (c : Ty) : bool :=
  match c with TyNominal n _ => bool_decide (n = ACTOR_REF_TYPE_NAME) | _ => false end.

Fixpoint plain (t : Ty) : bool :=
  match t with
  | TyVar _ | TyPrimitive _ | TySkolem _ => true
  | TyTuple ts => forallb plain ts
  | TyRecord fs => forallb (λ '(n, t), bool_decide (n ≠ RECORD_ROW_TAIL_FIELD) && plain t) fs
  | TyVariant vs => forallb (λ '(_, o), match o with Some t => plain t | None => true end) vs
  | TyArray t | TyReference _ t => plain t
  | TyFunction a b _ _ | TyActor a b => plain a && plain b
  | TyApp c args => ground c && plain c && negb (is_actor_ref c) && forallb plain args
  | TyScheme _ _ => false
  | TyNominal _ t => ground t && plain t
  end.

(** No variable under a variant. *)
Fixpoint guarded (t : Ty) : bool :=
  match t with
  | TyVar _ | TyPrimitive _ | TySkolem _ | TyScheme _ _ => true
  | TyTuple ts => forallb guarded ts
  | TyRecord fs => forallb (λ '(_, t), guarded t) fs
  | TyVariant _ => ground t
  | TyArray t | TyReference _ t | TyNominal _ t => guarded t
  | TyFunction a b _ _ | TyActor a b => guarded a && guarded b
  | TyApp c args => guarded c && forallb guarded args
  end.

(** ** Components *)

Definition children (t : Ty) : list Ty :=
  match t with
  | TyVar _ | TyPrimitive _ | TySkolem _ => []
  | TyTuple ts => ts
  | TyRecord fs => map snd fs
  | TyVariant vs => omap snd vs
  | TyArray t | TyReference _ t | TyScheme _ t | TyNominal _ t => [t]
  | TyFunction a b _ _ | TyActor a b => [a; b]
  | TyApp c args => c :: args
  end.
Definition is_var (t : Ty) : bool := match t with TyVar _ => true | _ => false end.

Lemma tvars_children t : is_var t = false → tvars t = ⋃ map tvars (children t).
Proof.
  destruct t as [v|p|ts|fs|vs|t|a b e c|a b|c args|c t|vars t|n t|i]; cbn; try done; intros _; try set_solver.
  - f_equal. induction fs as [|[n t] fs IH]; cbn; congruence.
  - induction vs as [|[n [t|]] vs IH]; cbn; [done| |]; rewrite IH; set_solver.
Qed.

Lemma tsize_children t : tsize t = S (sum_list (map tsize (children t))).
Proof.
  destruct t as [v|p|ts|fs|vs|t|a b e c|a b|c args|c t|vars t|n t|i]; cbn; try lia; f_equal.
  - induction fs as [|[n t] fs IH]; cbn; congruence.
  - induction vs as [|[n [t|]] vs IH]; cbn; congruence.
Qed.

Lemma sum_list_elem_of (l : list nat) x : x ∈ l → x ≤ sum_list l.
Proof. induction 1; cbn; lia. Qed.

Lemma children_size t c : c ∈ children t → tsize c < tsize t.
Proof.
  intros Hc. rewrite (tsize_children t). apply le_n_S, sum_list_elem_of, list_elem_of_fmap. by exists c.
Qed.

Lemma Ty_children_ind (P : Ty → Prop) : (∀ t, (∀ c, c ∈ children t → P c) → P t) → ∀ t, P t.
Proof.
  intros H. assert (∀ n t, tsize t < n → P t) as Hn.
  { intros n. induction n as [|n IH]; intros t Ht; [lia|]. apply H. intros c Hc%children_size. apply IH. lia. }
  intros t. by apply (Hn (S (tsize t))); lia.
Qed.

Lemma elem_of_union_map {A} (f : A → gset N) l x : x ∈ ⋃ map f l ↔ ∃ a, a ∈ l ∧ x ∈ f a.
Proof.
  rewrite elem_of_union_list. split.
  - intros (X & (a & -> & Ha)%list_elem_of_fmap & Hx). by exists a.
  - intros (a & Ha & Hx). exists (f a). split; [|done]. apply list_elem_of_fmap. by exists a.
Qed.

Lemma elem_of_tvars t x : x ∈ tvars t ↔ t = TyVar x ∨ ∃ c, c ∈ children t ∧ x ∈ tvars c.
Proof.
  destruct (is_var t) eqn:Hv.
  - destruct t; try done. cbn. split; [intros ->%elem_of_singleton; by left|].
    intros [[= ->]|(c & []%not_elem_of_nil & _)]. set_solver.
  - rewrite (tvars_children t Hv), elem_of_union_map. split; [by right|]. intros [->|?]; done.
Qed.

Lemma children_tvars t c : c ∈ children t → tvars c ⊆ tvars t.
Proof. intros Hc x Hx. apply elem_of_tvars. right. by exists c. Qed.

Lemma plain_children t c : plain t = true → c ∈ children t → plain c = true.
Proof.
  destruct t as [v|p|ts|fs|vs|t|a b e cp|a b|k args|cp t|vars t|n t|i]; cbn; try done; intros Hp Hc;
    rewrite ?andb_true_iff in Hp;
    try (by apply elem_of_nil in Hc); try (apply list_elem_of_singleton in Hc as ->; tauto);
    try (apply elem_of_cons in Hc as [->|Hc]; [|apply list_elem_of_singleton in Hc as ->]; tauto).
  - rewrite forallb_forall in Hp. apply Hp. by apply list_elem_of_In.
  - apply list_elem_of_fmap in Hc as ([n t] & -> & Hin%list_elem_of_In). rewrite forallb_forall in Hp.
    by apply Hp, andb_true_iff in Hin as [_ ?].
  - apply list_elem_of_omap in Hc as ([n o] & Hin%list_elem_of_In & Ho). cbn in Ho. subst o.
    rewrite forallb_forall in Hp. by apply Hp in Hin.
  - destruct Hp as [[[_ Hk] _] Hargs]. apply elem_of_cons in Hc as [->|Hc]; [done|].
    rewrite forallb_forall in Hargs. apply Hargs. by apply list_elem_of_In.
Qed.

(** ** Substitution *)

Lemma map_ext_Forall {A B} (f g : A → B) l : Forall (λ x, f x = g x) l → map f l = map g l.
Proof. induction 1; cbn; congruence. Qed.

Lemma Forall_impl_elem {A} (P Q : A → Prop) l : Forall P l → (∀ x, x ∈ l → P x → Q x) → Forall Q l.
Proof. rewrite !Forall_forall. auto. Qed.

Lemma tsubst_ext θ θ' t : (∀ v, v ∈ tvars t → θ v = θ' v) → tsubst θ t = tsubst θ' t.
Proof.
  induction t as [v|p|ts IH|fs IH|vs IH|t IH|a b e c IHa IHb|a b IHa IHb|c args IHc IH|c t IH|vars t IH|n t IH|i]
    using Ty_ind'; cbn; intros Hv; try done; try (f_equal; first [apply IH|apply IHa|apply IHb|apply IHc]; set_solver).
  - apply Hv. set_solver.
  - f_equal. apply map_ext_Forall. eapply Forall_impl_elem; [exact IH|]. intros t Ht IHt. apply IHt.
    intros v Hx. apply Hv, elem_of_union_map. eauto.
  - f_equal. apply map_ext_Forall. eapply Forall_impl_elem; [exact IH|]. intros [n t] Ht IHt. cbn in *. f_equal.
    apply IHt. intros v Hx. apply Hv, elem_of_union_map. by exists (n, t).
  - f_equal. apply map_ext_Forall. eapply Forall_impl_elem; [exact IH|]. intros [n [t|]] Ht IHt; [|done]. cbn in *.
    do 2 f_equal. apply IHt. intros v Hx. apply Hv, elem_of_union_map. by exists (n, Some t).
  - f_equal; [apply IHc; set_solver|]. apply map_ext_Forall. eapply Forall_impl_elem; [exact IH|]. intros t Ht IHt.
    apply IHt. intros v Hx. apply Hv, elem_of_union. right. apply elem_of_union_map. eauto.
Qed.

Lemma tsubst_id t : tsubst TyVar t = t.
Proof.
  induction t as [v|p|ts IH|fs IH|vs IH|t IH|a b e c IHa IHb|a b IHa IHb|c args IHc IH|c t IH|vars t IH|n t IH|i]
    using Ty_ind'; cbn; try congruence; f_equal; try done;
    rewrite <-(map_id ltac:(first [exact ts|exact fs|exact vs|exact args])) at 2; apply map_ext_Forall;
    (eapply Forall_impl; [exact IH|]).
  - done.
  - intros [n t] Ht. cbn in *. congruence.
  - intros [n [t|]] Ht; cbn in *; congruence.
  - done.
Qed.

Lemma tsubst_tsubst θ σ t : tsubst θ (tsubst σ t) = tsubst (λ v, tsubst θ (σ v)) t.
Proof.
  induction t as [v|p|ts IH|fs IH|vs IH|t IH|a b e c IHa IHb|a b IHa IHb|c args IHc IH|c t IH|vars t IH|n t IH|i]
    using Ty_ind'; cbn; try congruence; f_equal; try done; rewrite map_map; apply map_ext_Forall;
    (eapply Forall_impl; [exact IH|]).
  - done.
  - intros [n t] Ht. cbn in *. congruence.
  - intros [n [t|]] Ht; cbn in *; congruence.
  - done.
Qed.

Lemma ground_spec t : ground t = true ↔ tvars t = ∅.
Proof. apply bool_decide_eq_true. Qed.

Lemma tsubst_ground θ t : ground t = true → tsubst θ t = t.
Proof. intros Hg%ground_spec. rewrite <-(tsubst_id t) at 2. apply tsubst_ext. set_solver. Qed.

Lemma children_tsubst θ t :
  is_var t = false → plain t = true → children (tsubst θ t) = map (tsubst θ) (children t).
Proof.
  destruct t as [v|p|ts|fs|vs|t|a b e c|a b|c args|c t|vars t|n t|i]; cbn; try done; intros _ _.
  - induction fs as [|[n t] fs IH]; cbn; congruence.
  - induction vs as [|[n [t|]] vs IH]; cbn; congruence.
Qed.

Lemma elem_of_tvars_tsubst θ t x :
  plain t = true → x ∈ tvars (tsubst θ t) → ∃ v, v ∈ tvars t ∧ x ∈ tvars (θ v).
Proof.
  induction t as [t IH] using Ty_children_ind. intros Hp Hx. destruct (is_var t) eqn:Hv.
  { destruct t; try done. exists v. cbn in *. set_solver. }
  assert (is_var (tsubst θ t) = false) as Hv' by (destruct t; done).
  rewrite (tvars_children _ Hv'), children_tsubst, map_map in Hx by done.
  apply elem_of_union_map in Hx as (c & Hc & Hx).
  destruct (IH c Hc (plain_children _ _ Hp Hc) Hx) as (v & Hvc & Hxv). exists v. split; [|done].
  by eapply children_tvars.
Qed.

Lemma plain_tsubst θ t : plain t = true → (∀ v, v ∈ tvars t → plain (θ v) = true) → plain (tsubst θ t) = true.
Proof.
  induction t as [v|p|ts IH|fs IH|vs IH|t IH|a b e c IHa IHb|a b IHa IHb|c args IHc IH|c t IH|vars t IH|n t IH|i]
    using Ty_ind'; cbn -[bool_decide ground]; intros Hp Hv; try done; rewrite ?andb_true_iff in *.
  - apply Hv. set_solver.
  - rewrite forallb_forall in *. intros x (t & <- & Ht)%in_map_iff. rewrite Forall_forall in IH.
    apply IH; [by apply list_elem_of_In|by apply Hp|]. intros v Hx. apply Hv, elem_of_union_map.
    exists t. by rewrite list_elem_of_In.
  - rewrite forallb_forall in *. intros x ([n t] & <- & Ht)%in_map_iff. rewrite Forall_forall in IH.
    pose proof (Hp _ Ht) as [? ?]%andb_true_iff. apply andb_true_iff. split; [done|].
    apply (IH (n, t)); [by apply list_elem_of_In|done|]. intros v Hx. apply Hv, elem_of_union_map.
    exists (n, t). by rewrite list_elem_of_In.
  - rewrite forallb_forall in *. intros x ([n [t|]] & <- & Ht)%in_map_iff; [|done]. rewrite Forall_forall in IH.
    apply (IH (n, Some t)); [by apply list_elem_of_In|by apply (Hp _ Ht)|]. intros v Hx. apply Hv, elem_of_union_map.
    exists (n, Some t). by rewrite list_elem_of_In.
  - by apply IH.
  - destruct Hp. split; [apply IHa|apply IHb]; set_solver.
  - destruct Hp. split; [apply IHa|apply IHb]; set_solver.
  - destruct Hp as [[[Hg Hc] Hr] Hargs]. rewrite !(tsubst_ground _ _ Hg). split_and!; try done.
    rewrite forallb_forall in *. intros x (t & <- & Ht)%in_map_iff. rewrite Forall_forall in IH.
    apply IH; [by apply list_elem_of_In|by apply Hargs|]. intros v Hx. apply Hv, elem_of_union. right.
    apply elem_of_union_map. exists t. by rewrite list_elem_of_In.
  - by apply IH.
  - destruct Hp as [Hg Hp]. by rewrite !(tsubst_ground _ _ Hg).
Qed.

Lemma ground_guarded t : ground t = true → guarded t = true.
Proof.
  rewrite ground_spec. induction t as [v|p|ts IH|fs IH|vs IH|t IH|a b e c IHa IHb|a b IHa IHb|c args IHc IH|c t IH
    |vars t IH|n t IH|i] using Ty_ind'; cbn; intros Hg; try done; rewrite ?andb_true_iff; try (by apply IH).
  - rewrite Forall_forall in IH. apply forallb_forall. intros t Ht%list_elem_of_In. apply IH; [done|].
    pose proof (elem_of_union_map tvars ts). set_solver.
  - rewrite Forall_forall in IH. apply forallb_forall. intros [n t] Ht%list_elem_of_In. apply (IH (n, t)); [done|].
    pose proof (elem_of_union_map (λ '(_, t), tvars t) fs) as He. cbn.
    apply set_eq. intros x. split; [|set_solver]. intros Hx. rewrite <-Hg. apply He. by exists (n, t).
  - by apply ground_spec.
  - split; [apply IHa|apply IHb]; set_solver.
  - split; [apply IHa|apply IHb]; set_solver.
  - split; [apply IHc; set_solver|]. rewrite Forall_forall in IH. apply forallb_forall. intros t Ht%list_elem_of_In.
    apply IH; [done|]. pose proof (elem_of_union_map tvars args). set_solver.
Qed.

Lemma guarded_tsubst θ t :
  guarded t = true → (∀ v, v ∈ tvars t → guarded (θ v) = true) → guarded (tsubst θ t) = true.
Proof.
  induction t as [v|p|ts IH|fs IH|vs IH|t IH|a b e c IHa IHb|a b IHa IHb|c args IHc IH|c t IH|vars t IH|n t IH|i]
    using Ty_ind'; intros Hp Hv; try done.
  - apply Hv. cbn. set_solver.
  - cbn in *. rewrite forallb_forall in *. intros x (t & <- & Ht)%in_map_iff. rewrite Forall_forall in IH.
    apply IH; [by apply list_elem_of_In|by apply Hp|]. intros v Hx. apply Hv, elem_of_union_map.
    exists t. by rewrite list_elem_of_In.
  - cbn in *. rewrite forallb_forall in *. intros x ([n t] & <- & Ht)%in_map_iff. rewrite Forall_forall in IH.
    apply (IH (n, t)); [by apply list_elem_of_In|by apply (Hp _ Ht)|]. intros v Hx. apply Hv, elem_of_union_map.
    exists (n, t). by rewrite list_elem_of_In.
  - rewrite tsubst_ground; done.
  - by apply IH.
  - cbn in *. rewrite andb_true_iff in *. destruct Hp. split; [apply IHa|apply IHb]; set_solver.
  - cbn in *. rewrite andb_true_iff in *. destruct Hp. split; [apply IHa|apply IHb]; set_solver.
  - cbn in *. rewrite andb_true_iff in *. destruct Hp as [Hc Hargs]. split; [apply IHc; set_solver|].
    rewrite forallb_forall in *. intros x (t & <- & Ht)%in_map_iff. rewrite Forall_forall in IH.
    apply IH; [by apply list_elem_of_In|by apply Hargs|]. intros v Hx. apply Hv, elem_of_union. right.
    apply elem_of_union_map. exists t. by rewrite list_elem_of_In.
  - by apply IH.
  - by apply IH.
Qed.

(** ** What the source computes of variables *)

Lemma fold_left_collect {A} (f : list N → A → list N) (g : A → list N) l acc :
  Forall (λ a, ∀ acc, f acc a = acc ++ g a) l → fold_left f l acc = acc ++ concat (map g l).
Proof.
  intros Hf. revert acc. induction Hf as [|a l Ha _ IH]; intros acc; cbn; [by rewrite (right_id_L [] (++))|].
  by rewrite Ha, IH, (assoc_L (++)).
Qed.

(** The variables of a plain type as [collect_free_vars] lists them. *)
Fixpoint vars_of (t : Ty) : list N :=
  match t with
  | TyVar v => [v]
  | TyPrimitive _ | TySkolem _ => []
  | TyTuple ts => concat (map vars_of ts)
  | TyRecord fs => concat (map (λ '(_, t), vars_of t) fs)
  | TyVariant vs => concat (map (λ '(_, o), match o with Some t => vars_of t | None => [] end) vs)
  | TyArray t | TyReference _ t | TyScheme _ t | TyNominal _ t => vars_of t
  | TyFunction a b _ _ | TyActor a b => vars_of a ++ vars_of b
  | TyApp c args => vars_of c ++ concat (map vars_of args)
  end.

Lemma elem_of_concat_map {A} (g : A → list N) l x : x ∈ concat (map g l) ↔ ∃ a, a ∈ l ∧ x ∈ g a.
Proof.
  induction l as [|a l IH]; cbn; [set_solver|]. rewrite elem_of_app, IH. set_solver.
Qed.

Lemma elem_of_vars_of t x : x ∈ vars_of t ↔ x ∈ tvars t.
Proof.
  induction t as [v|p|ts IH|fs IH|vs IH|t IH|a b e c IHa IHb|a b IHa IHb|c args IHc IH|c t IH|vars t IH|n t IH|i]
    using Ty_ind'; cbn; try done; rewrite ?elem_of_app, ?elem_of_union, ?elem_of_concat_map, ?elem_of_union_map;
    try rewrite Forall_forall in IH; try set_solver.
  - split; intros ([n t] & Hin & Hx); exists (n, t); (split; [done|]); by apply (IH (n, t)).
  - split; intros ([n [t|]] & Hin & Hx); try set_solver; exists (n, Some t); (split; [done|]);
      by apply (IH (n, Some t)).
Qed.

Lemma ground_vars_of t : ground t = true ↔ vars_of t = [].
Proof.
  rewrite ground_spec. split; intros H.
  - destruct (vars_of t) as [|x l] eqn:Hl; [done|]. exfalso. pose proof (elem_of_vars_of t x). rewrite Hl, H in *.
    set_solver.
  - apply set_eq. intros x. rewrite <-elem_of_vars_of, H. set_solver.
Qed.

Lemma collect_free_vars_plain t acc stack :
  plain t = true → Type_collect_free_vars t acc stack = acc ++ vars_of t.
Proof.
  revert acc stack.
  induction t as [v|p|ts IH|fs IH|vs IH|t IH|a b e c IHa IHb|a b IHa IHb|c args IHc IH|c t IH|vars t IH|n t IH|i]
    using Ty_ind'; cbn -[bool_decide ground]; intros acc stack Hp; rewrite ?andb_true_iff in Hp;
    try done; try (by rewrite (right_id_L [] (++))); try (by apply IH).
  - apply fold_left_collect. rewrite forallb_forall in Hp. eapply Forall_impl_elem; [exact IH|].
    intros t Ht%list_elem_of_In IHt acc'. by apply IHt, Hp.
  - erewrite fold_left_collect; [done|]. rewrite forallb_forall in Hp. eapply Forall_impl_elem; [exact IH|].
    intros [n t] Ht%list_elem_of_In IHt acc'. apply Hp, andb_true_iff in Ht as [_ ?]. by apply IHt.
  - erewrite fold_left_collect; [done|]. rewrite forallb_forall in Hp. eapply Forall_impl_elem; [exact IH|].
    intros [n [t|]] Ht%list_elem_of_In IHt acc'; [by apply IHt, (Hp _ Ht)|by rewrite (right_id_L [] (++))].
  - destruct Hp. by rewrite IHa, IHb, (assoc_L (++)).
  - destruct Hp. by rewrite IHa, IHb, (assoc_L (++)).
  - destruct Hp as [[[_ Hc] _] Hp]. rewrite IHc, (assoc_L (++)) by done. apply fold_left_collect.
    rewrite forallb_forall in Hp. eapply Forall_impl_elem; [exact IH|].
    intros t Ht%list_elem_of_In IHt acc'. by apply IHt, Hp.
  - destruct Hp as [Hg Hp]. rewrite IH by done. apply ground_vars_of in Hg. rewrite Hg, (right_id_L [] (++)).
    by destruct (bool_decide _).
Qed.

Lemma is_ground_plain t : plain t = true → Type_is_ground t = ground t.
Proof.
  intros Hp. unfold Type_is_ground. rewrite collect_free_vars_plain by done. cbn.
  destruct (ground t) eqn:Hg; [by apply bool_decide_eq_true, ground_vars_of|].
  apply bool_decide_eq_false. intros ?%ground_vars_of. congruence.
Qed.

Lemma occurs_in_tvars v t : occurs_in v t = true → v ∈ tvars t.
Proof.
  induction t as [w|p|ts IH|fs IH|vs IH|t IH|a b e c IHa IHb|a b IHa IHb|c args IHc IH|c t IH|vars t IH|n t IH|i]
    using Ty_ind'; cbn -[bool_decide]; try done; rewrite ?orb_true_iff, ?andb_true_iff, ?existsb_exists; intros H.
  - apply N.eqb_eq in H. set_solver.
  - destruct H as (t & Ht%list_elem_of_In & Ho). apply elem_of_union_map. rewrite Forall_forall in IH. eauto.
  - destruct H as ([n t] & Ht%list_elem_of_In & Ho). apply elem_of_union_map. rewrite Forall_forall in IH.
    exists (n, t). split; [done|]. by apply (IH (n, t)).
  - set_solver.
  - set_solver.
  - apply elem_of_union. destruct H as [H|(t & Ht%list_elem_of_In & Ho)]; [left; auto|right].
    apply elem_of_union_map. rewrite Forall_forall in IH. eauto.
  - by apply IH, H.
Qed.

Lemma tvars_occurs_in v t : plain t = true → guarded t = true → v ∈ tvars t → occurs_in v t = true.
Proof.
  induction t as [w|p|ts IH|fs IH|vs IH|t IH|a b e c IHa IHb|a b IHa IHb|c args IHc IH|c t IH|vars t IH|n t IH|i]
    using Ty_ind'; intros Hp Hg Hv; cbn -[bool_decide ground] in *;
    rewrite ?orb_true_iff, ?andb_true_iff, ?existsb_exists in *;
    try discriminate Hp; try (by apply elem_of_empty in Hv); try (by apply IH; tauto);
    try (apply elem_of_union in Hv as [Hv|Hv]; [left; apply IHa|right; apply IHb]; tauto).
  - apply N.eqb_eq. set_solver.
  - apply elem_of_union_map in Hv as (t & Ht & Hv). exists t. rewrite Forall_forall in IH.
    rewrite forallb_forall in Hp, Hg. pose proof (proj1 (list_elem_of_In _ _) Ht). auto.
  - apply elem_of_union_map in Hv as ([n t] & Ht & Hv). exists (n, t). rewrite Forall_forall in IH.
    rewrite forallb_forall in Hp, Hg. pose proof (proj1 (list_elem_of_In _ _) Ht) as Hin. split; [done|].
    apply (IH (n, t)); [done| |by apply (Hg _ Hin)|done]. by apply Hp, andb_true_iff in Hin as [_ ?].
  - apply ground_spec in Hg. cbn in Hg. set_solver.
  - destruct Hp as [[[Hk _] _] Hp], Hg as [_ Hg]. apply ground_spec in Hk. right.
    apply elem_of_union in Hv as [Hv|(t & Ht & Hv)%elem_of_union_map]; [set_solver|]. exists t.
    rewrite Forall_forall in IH. rewrite forallb_forall in Hp, Hg.
    pose proof (proj1 (list_elem_of_In _ _) Ht). auto.
Qed.

(** ** Applying substitutions *)

Lemma mapM_map {A B} (f : A → option B) (g : A → B) l : Forall (λ a, f a = Some (g a)) l → mapM f l = Some (map g l).
Proof. induction 1 as [|a l Ha _ IH]; [done|]. cbn. by rewrite Ha, IH. Qed.

Lemma apply_subst_map s (σ : N → Ty) (bound : nat) t fuel :
  plain t = true →
  (∀ v, v ∈ tvars t → ∀ fuel', bound ≤ fuel' →
    match find_binding v s with Some r => apply_subst fuel' r s = Some (σ v) | None => σ v = TyVar v end) →
  tsize t + bound ≤ fuel → apply_subst fuel t s = Some (tsubst σ t).
Proof.
  revert fuel. induction t as [t IH] using Ty_children_ind. intros fuel Hp Hv Hfuel.
  destruct fuel as [|fuel]; [pose proof (tsize_children t); lia|].
  assert (∀ c, c ∈ children t → apply_subst fuel c s = Some (tsubst σ c)) as Hc.
  { intros c Hc. apply IH; [done|by eapply plain_children| |pose proof (children_size t c Hc); lia].
    intros v Hvc. apply Hv. by eapply children_tvars. }
  clear IH. destruct t as [v|p|ts|fs|vs|t|a b e c|a b|c args|c t|vars t|n t|i]; cbn [apply_subst tsubst children] in *; try done;
    try (rewrite !Hc by set_solver; done).
  - assert (bound ≤ fuel) as Hb by (cbn in Hfuel; lia). specialize (Hv v ltac:(cbn; set_solver) fuel Hb).
    by destruct (find_binding v s); [|rewrite Hv].
  - rewrite (mapM_map _ (tsubst σ)); [done|]. rewrite Forall_forall. auto.
  - rewrite (mapM_map _ (λ '(n, t), (n, tsubst σ t))); [done|]. rewrite Forall_forall. intros [n t] Hin.
    rewrite Hc; [done|]. apply list_elem_of_fmap. by exists (n, t).
  - rewrite (mapM_map _ (λ '(n, o), (n, match o with Some t => Some (tsubst σ t) | None => None end))); [done|].
    rewrite Forall_forall. intros [n [t|]] Hin; [|done]. rewrite Hc; [done|]. apply list_elem_of_omap.
    by exists (n, Some t).
  - rewrite Hc by set_solver. cbn. rewrite (mapM_map _ (tsubst σ)); [done|]. rewrite Forall_forall. set_solver.
Qed.

Definition look (s : Substitution) (v : N) : Ty := default (TyVar v) (find_binding v s).
Definition dom_of (s : Substitution) : gset N := list_to_set (map fst s).

Lemma find_binding_None v s : find_binding v s = None ↔ v ∉ dom_of s.
Proof.
  unfold dom_of. induction s as [|[w t] s IH]; cbn; [set_solver|].
  destruct (N.eqb_spec w v) as [->|Hne]; [set_solver|]. rewrite IH. set_solver.
Qed.

Lemma find_binding_Some v s t : find_binding v s = Some t → (v, t) ∈ s.
Proof.
  induction s as [|[w t'] s IH]; cbn; [done|]. destruct (N.eqb_spec w v) as [->|Hne]; [intros [= ->]; left|].
  intros H. right. auto.
Qed.

Lemma find_binding_elem v s t : NoDup (map fst s) → (v, t) ∈ s → find_binding v s = Some t.
Proof.
  induction s as [|[w t'] s IH]; cbn; [set_solver|]. intros [Hw Hnd]%NoDup_cons [[= -> ->]|Hin]%elem_of_cons.
  - by rewrite N.eqb_refl.
  - destruct (N.eqb_spec w v) as [->|Hne]; [|auto]. exfalso. apply Hw, list_elem_of_fmap. by exists (v, t).
Qed.

Lemma look_unbound s v : v ∉ dom_of s → look s v = TyVar v.
Proof. unfold look. by intros ->%find_binding_None. Qed.

(** A substitution over variables [V]: plain, and its types do not mention what it binds. *)
Record good (V : gset N) (s : Substitution) : Prop := {
  good_nodup : NoDup (map fst s);
  good_plain b : b ∈ s → plain b.2 = true;
  good_dom : dom_of s ⊆ V;
  good_range b : b ∈ s → tvars b.2 ⊆ V ∖ dom_of s;
}.

Lemma good_nil V : good V [].
Proof. split; cbn; [constructor|set_solver..]. Qed.

Lemma good_look V s v : good V s → plain (look s v) = true ∧ (v ∈ V → tvars (look s v) ⊆ V ∖ dom_of s).
Proof.
  intros Hg. unfold look. destruct (find_binding v s) as [t|] eqn:Hb; cbn.
  - apply find_binding_Some in Hb. split; [by apply (good_plain _ _ Hg (v, t))|intros _].
    by apply (good_range _ _ Hg (v, t)).
  - apply find_binding_None in Hb. split; [done|]. set_solver.
Qed.

(** ** Computations that end *)

Definition runs {A} (m : nat → Check A) (r : result A NuError) : Prop :=
  ∃ bound, ∀ fuel, bound ≤ fuel → ∀ c, m fuel c = Some (r, c).

Lemma runs_result {A} (r : result A NuError) : runs (λ _ c, Some (r, c)) r.
Proof. by exists 0. Qed.

Lemma runs_ret {A} (a : A) : runs (λ _, mret a) (Ok a).
Proof. by exists 0. Qed.

Lemma runs_fail {A} e : runs (λ _, check_fail (A:=A) e) (Err e).
Proof. by exists 0. Qed.

Lemma runs_bind {A B} (m : nat → Check A) (k : nat → A → Check B) a r :
  runs m (Ok a) → runs (λ fuel, k fuel a) r → runs (λ fuel, m fuel ≫= k fuel) r.
Proof.
  intros [n1 H1] [n2 H2]. exists (n1 + n2). intros fuel Hf c. unfold mbind, check_bind.
  rewrite H1 by lia. by apply H2; lia.
Qed.

Lemma runs_bind_err {A B} (m : nat → Check A) (k : nat → A → Check B) e :
  runs m (Err e) → runs (λ fuel, m fuel ≫= k fuel) (Err e).
Proof. intros [n1 H1]. exists n1. intros fuel Hf c. unfold mbind, check_bind. by rewrite H1 by lia. Qed.

Lemma runs_ext {A} (m m' : nat → Check A) r : (∀ fuel c, m fuel c = m' fuel c) → runs m r → runs m' r.
Proof. intros Hm [n H]. exists n. intros fuel Hf c. rewrite <-Hm. auto. Qed.

Lemma runs_succ {A} (m : nat → Check A) r : runs (λ fuel, m (S fuel)) r → runs m r.
Proof. intros [n H]. exists (S n). intros [|fuel] Hf c; [lia|]. apply H. lia. Qed.

Lemma runs_lift {A} (f : nat → option A) a :
  (∃ bound, ∀ fuel, bound ≤ fuel → f fuel = Some a) → runs (λ fuel, check_lift (f fuel)) (Ok a).
Proof. intros [n H]. exists n. intros fuel Hf c. unfold check_lift. by rewrite H. Qed.

Lemma max_size (s : Substitution) : ∃ n, ∀ v t, find_binding v s = Some t → tsize t ≤ n.
Proof.
  induction s as [|[w t] s [n IH]]; [by exists 0|]. exists (n + tsize t). intros v t'. cbn.
  destruct (w =? v)%N; [intros [= ->]; lia|]. intros ?%IH. lia.
Qed.

Lemma apply_ends V s t : good V s → plain t = true →
  ∃ bound, ∀ fuel, bound ≤ fuel → apply_subst fuel t s = Some (tsubst (look s) t).
Proof.
  intros Hg Hp. destruct (max_size s) as [n Hn]. exists (tsize t + n). intros fuel Hf.
  apply (apply_subst_map _ _ n); [done| |lia]. intros v _ fuel' Hf'. unfold look.
  destruct (find_binding v s) as [r|] eqn:Hr; [|done]. cbn. rewrite <-(tsubst_id r) at 2.
  pose proof (Hn _ _ Hr). pose proof (find_binding_Some _ _ _ Hr) as Hin.
  apply (apply_subst_map _ _ 0); [by apply (good_plain _ _ Hg (v, r))| |lia].
  intros w Hw fuel'' _. rewrite (proj2 (find_binding_None w s)); [done|].
  pose proof (good_range _ _ Hg _ Hin). set_solver.
Qed.

Lemma apply_all_end V s (l : list Ty) : good V s → (∀ t, t ∈ l → plain t = true) →
  ∃ bound, ∀ fuel, bound ≤ fuel → ∀ t, t ∈ l → apply_subst fuel t s = Some (tsubst (look s) t).
Proof.
  intros Hg. induction l as [|t l IH]; intros Hp; [exists 0; set_solver|].
  destruct IH as [n Hn]; [set_solver|]. destruct (apply_ends V s t Hg) as [m Hm]; [apply Hp; set_solver|].
  exists (n + m). intros fuel Hf t' [->|Ht']%elem_of_cons; [apply Hm; lia|apply Hn; [lia|done]].
Qed.

Lemma good_mono V W s : good V s → V ⊆ W → good W s.
Proof.
  intros Hg Hsub. split; [apply Hg|apply Hg| |].
  - pose proof (good_dom _ _ Hg). set_solver.
  - intros b Hb. pose proof (good_range _ _ Hg b Hb). set_solver.
Qed.

(** [s2] after [s1], as [compose_subst] makes it when they bind different variables. *)
Definition composed (s2 s1 : Substitution) : Substitution := map (λ '(v, t), (v, tsubst (look s2) t)) s1 ++ s2.

Lemma map_fst_keys {A B C} (f : B → C) (l : list (A * B)) : map fst (map (λ '(v, t), (v, f t)) l) = map fst l.
Proof. rewrite map_map. apply map_ext. by intros []. Qed.

Lemma dom_of_composed s2 s1 : dom_of (composed s2 s1) = dom_of s1 ∪ dom_of s2.
Proof.
  unfold dom_of, composed. rewrite map_app, list_to_set_app_L, map_fst_keys. done.
Qed.

Lemma look_composed s2 s1 v : look (composed s2 s1) v = tsubst (look s2) (look s1 v).
Proof.
  unfold composed. induction s1 as [|[w t] s1 IH]; [done|]. cbn. unfold look in *. cbn.
  by destruct (w =? v)%N.
Qed.

Lemma tsubst_composed s2 s1 t : tsubst (look (composed s2 s1)) t = tsubst (look s2) (tsubst (look s1) t).
Proof. rewrite tsubst_tsubst. apply tsubst_ext. intros v _. apply look_composed. Qed.

Lemma tsubst_good V s t :
  good V s → plain t = true → tvars t ⊆ V →
  plain (tsubst (look s) t) = true ∧ tvars (tsubst (look s) t) ⊆ V ∖ dom_of s.
Proof.
  intros Hg Hp Ht. split.
  - apply plain_tsubst; [done|]. intros v _. by apply (good_look V).
  - intros x Hx. apply elem_of_tvars_tsubst in Hx as (v & Hv & Hx); [|done].
    apply (proj2 (good_look V s v Hg)); [set_solver|done].
Qed.

Lemma good_idem V s t : good V s → tsubst (look s) (tsubst (look s) t) = tsubst (look s) t.
Proof.
  intros Hg. rewrite tsubst_tsubst. apply tsubst_ext. intros v _. unfold look at 2.
  destruct (find_binding v s) as [u|] eqn:Hb; [|done]. cbn. assert (look s v = u) as -> by (unfold look; by rewrite Hb).
  rewrite <-(tsubst_id u) at 2. apply tsubst_ext. intros w Hw. apply look_unbound.
  pose proof (good_range _ _ Hg _ (find_binding_Some _ _ _ Hb)). set_solver.
Qed.

Lemma good_composed V s2 s1 : good V s1 → good (V ∖ dom_of s1) s2 → good V (composed s2 s1).
Proof.
  intros H1 H2. pose proof (good_dom _ _ H1) as Hd1. pose proof (good_dom _ _ H2) as Hd2.
  assert (∀ b, b ∈ s1 → plain (tsubst (look s2) b.2) = true ∧ tvars (tsubst (look s2) b.2) ⊆ V ∖ dom_of s1 ∖ dom_of s2)
    as Hsub by (intros b Hb; apply tsubst_good; [done|by apply H1|by apply H1]).
  assert (∀ b, b ∈ composed s2 s1 → (∃ b1, b1 ∈ s1 ∧ b.2 = tsubst (look s2) b1.2) ∨ b ∈ s2) as Hb.
  { intros b [([v t] & -> & Hin)%list_elem_of_fmap|Hin]%elem_of_app; [|by right]. left. by exists (v, t). }
  split.
  - unfold composed. rewrite map_app, map_fst_keys. apply NoDup_app. split_and!; [apply H1| |apply H2].
    intros v Hv Hv2. apply (elem_of_list_to_set (C:=gset N)) in Hv2. change (v ∈ dom_of s2) in Hv2.
    assert (v ∈ dom_of s1); [by apply elem_of_list_to_set|set_solver].
  - intros b [(b1 & Hin & ->)|Hin]%Hb; [by apply Hsub|by apply H2].
  - rewrite dom_of_composed. set_solver.
  - intros b [(b1 & Hin & ->)|Hin]%Hb; rewrite dom_of_composed.
    + pose proof (proj2 (Hsub _ Hin)). set_solver.
    + pose proof (good_range _ _ H2 _ Hin). set_solver.
Qed.

Lemma binding_position_None v s : v ∉ dom_of s → binding_position v s = None.
Proof.
  unfold dom_of. induction s as [|[w t] s IH]; cbn; [done|]. intros Hv.
  destruct (N.eqb_spec w v) as [->|Hne]; [set_solver|]. rewrite IH by set_solver. done.
Qed.

Lemma compose_loop_disjoint fuel mgu compose_subst s2 acc c :
  NoDup (map fst s2) → dom_of s2 ## dom_of acc → compose_loop fuel mgu compose_subst s2 acc c = Some (Ok (acc ++ s2), c).
Proof.
  revert acc. induction s2 as [|[v t] s2 IH]; intros acc Hnd Hdis.
  - by rewrite (right_id_L [] (++)).
  - apply NoDup_cons in Hnd as [Hv Hnd]. cbn [compose_loop]. rewrite binding_position_None by (unfold dom_of in *; set_solver).
    unfold mbind, check_bind, mret, check_ret. cbn -[compose_loop]. rewrite IH; [by rewrite <-(assoc_L (++))|done|].
    unfold dom_of in *. rewrite map_app, list_to_set_app_L. cbn in *. set_solver.
Qed.

Lemma Forall_zip_with_iff {A B C} (P : C → Prop) (f : A → B → C) l k :
  length l = length k → Forall P (zip_with f l k) ↔ Forall2 (λ x y, P (f x y)) l k.
Proof.
  revert k. induction l as [|x l IH]; intros [|y k]; try done; cbn; intros Hlen.
  rewrite Forall_cons, Forall2_cons, IH by lia. done.
Qed.

Lemma Forall_concat_zip_with {A B C} (P : C → Prop) (f : A → B → list C) l k :
  length l = length k → Forall P (concat (zip_with f l k)) ↔ Forall2 (λ x y, Forall P (f x y)) l k.
Proof. intros Hlen. by rewrite Forall_concat, Forall_zip_with_iff. Qed.

Lemma Forall2_elems {A B} (l : list A) (k : list B) : length l = length k → Forall2 (λ x y, x ∈ l ∧ y ∈ k) l k.
Proof.
  intros Hlen. apply Forall2_same_length_lookup_2; [done|]. intros i x y Hx Hy. split; by eapply list_elem_of_lookup_2.
Qed.

Lemma Forall2_map_eq {A B C} (f : A → C) (g : B → C) l k : map f l = map g k → Forall2 (λ x y, f x = g y) l k.
Proof. revert k. induction l as [|x l IH]; intros [|y k]; try done; cbn; intros [= ? ?]; constructor; auto. Qed.

Section correct.
Context (blake3 : bytes → bytes).
Local Abbreviation mgu := (mgu blake3).
Local Abbreviation compose_subst := (compose_subst blake3).

Lemma compose_runs V s2 s1 :
  good V s1 → good (V ∖ dom_of s1) s2 → runs (λ fuel, compose_subst fuel s2 s1) (Ok (composed s2 s1)).
Proof.
  intros H1 H2. apply runs_succ. cbn. unfold compose_step.
  eapply (runs_bind (λ fuel, check_lift _) (λ fuel, compose_loop fuel (mgu fuel) (compose_subst fuel) s2)).
  - apply runs_lift. instantiate (1 := map (λ '(v, t), (v, tsubst (look s2) t)) s1).
    destruct (apply_all_end _ s2 (map snd s1) H2) as [n Hn].
    { intros t (b & -> & Hb)%list_elem_of_fmap. by apply H1. }
    exists n. intros fuel Hf. apply mapM_map. rewrite Forall_forall. intros [v t] Hin.
    rewrite (Hn fuel Hf t); [done|]. apply list_elem_of_fmap. by exists (v, t).
  - exists 0. intros fuel _ c. apply compose_loop_disjoint; [apply H2|].
    pose proof (good_dom _ _ H2). unfold dom_of in *. rewrite map_fst_keys. set_solver.
Qed.

(** ** What a unifier makes of two types *)

Local Unset Elimination Schemes.
Inductive agree : Ty → Ty → Prop :=
| agree_refl t : agree t t
| agree_never t1 t2 : is_never t1 || is_never t2 = true → agree t1 t2
| agree_ntir t1 t2 : ground t1 = true → ground t2 = true → same_ntir blake3 t1 t2 = true → agree t1 t2
| agree_tuple ts1 ts2 : Forall2 agree ts1 ts2 → agree (TyTuple ts1) (TyTuple ts2)
| agree_record fs1 fs2 :
    Forall2 (λ f1 f2, f1.1 = f2.1 ∧ agree f1.2 f2.2) (sort_by_name fs1) (sort_by_name fs2) →
    agree (TyRecord fs1) (TyRecord fs2)
| agree_variant vs1 vs2 :
    Forall2 (λ f1 f2, f1.1 = f2.1 ∧ option_Forall2 agree f1.2 f2.2) (sort_by_name vs1) (sort_by_name vs2) →
    agree (TyVariant vs1) (TyVariant vs2)
| agree_array t1 t2 : agree t1 t2 → agree (TyArray t1) (TyArray t2)
| agree_function p1 r1 e1 p2 r2 e2 c :
    agree p1 p2 → agree r1 r2 → effect_row_compatible e1 e2 = true →
    agree (TyFunction p1 r1 e1 c) (TyFunction p2 r2 e2 c)
| agree_actor s1 b1 s2 b2 : agree s1 s2 → agree b1 b2 → agree (TyActor s1 b1) (TyActor s2 b2)
| agree_app c1 args1 c2 args2 : agree c1 c2 → Forall2 agree args1 args2 → agree (TyApp c1 args1) (TyApp c2 args2)
| agree_reference c t1 t2 : agree t1 t2 → agree (TyReference c t1) (TyReference c t2)
| agree_nominal n t1 t2 : agree t1 t2 → agree (TyNominal n t1) (TyNominal n t2).
Local Set Elimination Schemes.

Lemma Forall2_impl_elem {A B} (P Q : A → B → Prop) l k :
  Forall2 P l k → (∀ x y, x ∈ l → y ∈ k → P x y → Q x y) → Forall2 Q l k.
Proof. induction 1 as [|x y l k HP _ IH]; intros H; constructor; [apply H; [left|left|done]|]. apply IH. set_solver. Qed.

Lemma agree_tsubst θ t1 t2 :
  agree t1 t2 → plain t1 = true → plain t2 = true → agree (tsubst θ t1) (tsubst θ t2).
Proof.
  revert t2. induction t1 as [t1 IH] using Ty_children_ind. intros t2 Hag Hp1 Hp2.
  pose proof (plain_children t1) as Hc1. pose proof (plain_children t2) as Hc2.
  destruct Hag as [t|t1 t2 Hn|t1 t2 Hg1 Hg2 Hn|ts1 ts2 Hf|fs1 fs2 Hf|vs1 vs2 Hf|t1 t2 Ha|p1 r1 e1 p2 r2 e2 c Ha Hb He
    |s1 b1 s2 b2 Ha Hb|c1 args1 c2 args2 Ha Hf|c t1 t2 Ha|n t1 t2 Ha]; cbn [tsubst children] in *.
  - apply agree_refl.
  - apply agree_never. apply orb_true_iff in Hn as [H|H]; apply orb_true_iff; [left|right].
    + destruct t1 as [|[]| | | | | | | | | | |]; done.
    + destruct t2 as [|[]| | | | | | | | | | |]; done.
  - rewrite !tsubst_ground by done. by apply agree_ntir.
  - apply agree_tuple, Forall2_fmap. eapply Forall2_impl_elem; [done|]. intros x y Hx Hy Hxy. cbn.
    apply IH; auto.
  - apply agree_record. rewrite !sort_by_name_map. apply Forall2_fmap. eapply Forall2_impl_elem; [done|].
    intros [n1 x] [n2 y] Hx Hy [? Hxy]. cbn in *. split; [done|].
    unfold sort_by_name in *. rewrite sort_by_perm in Hx, Hy.
    apply IH; [|done|apply Hc1; [done|]|apply Hc2; [done|]]; apply list_elem_of_fmap; by eexists (_, _).
  - apply agree_variant. rewrite !(sort_by_name_map (λ o, match o with Some t => Some (tsubst θ t) | None => None end)).
    apply Forall2_fmap. eapply Forall2_impl_elem; [done|].
    intros [n1 x] [n2 y] Hx Hy [? Hxy]. cbn in *. split; [done|]. destruct Hxy as [x y Hxy|]; constructor.
    unfold sort_by_name in *. rewrite sort_by_perm in Hx, Hy.
    apply IH; [|done|apply Hc1; [done|]|apply Hc2; [done|]]; apply list_elem_of_omap; by eexists (_, Some _).
  - apply agree_array, IH; [set_solver|done|by apply Hc1, list_elem_of_singleton|by apply Hc2, list_elem_of_singleton].
  - apply agree_function; [apply IH|apply IH|done]; auto; set_solver.
  - apply agree_actor; apply IH; auto; set_solver.
  - apply agree_app; [apply IH; auto; set_solver|]. apply Forall2_fmap. eapply Forall2_impl_elem; [done|].
    intros x y Hx Hy Hxy. cbn. apply IH; [by right|done|apply Hc1; [done|by right]|apply Hc2; [done|by right]].
  - apply agree_reference, IH; auto; set_solver.
  - apply agree_nominal, IH; [set_solver|done|by apply Hc1, list_elem_of_singleton|by apply Hc2, list_elem_of_singleton].
Qed.

Lemma guarded_children t c : plain t = true → guarded t = true → c ∈ children t → guarded c = true.
Proof.
  destruct t as [v|p|ts|fs|vs|t|a b e cp|a b|k args|cp t|vars t|n t|i]; intros Hpl Hp Hc; try done;
    try (cbn in Hc; apply list_elem_of_singleton in Hc as ->; exact Hp); try (by apply elem_of_nil in Hc).
  - cbn in *. rewrite forallb_forall in Hp. apply Hp. by apply list_elem_of_In.
  - cbn in *. apply list_elem_of_fmap in Hc as ([n t] & -> & Hin%list_elem_of_In). rewrite forallb_forall in Hp.
    by apply (Hp _ Hin).
  - apply ground_guarded, ground_spec. apply ground_spec in Hp. pose proof (children_tvars _ _ Hc). set_solver.
  - cbn in *. rewrite andb_true_iff in Hp. set_solver.
  - cbn in *. rewrite andb_true_iff in Hp. set_solver.
  - cbn in *. rewrite andb_true_iff, forallb_forall in Hp. destruct Hp as [Hk Hargs].
    apply elem_of_cons in Hc as [->|Hc%list_elem_of_In]; auto.
Qed.

(** ** Specification *)

Definition unifies (θ : N → Ty) (t1 t2 : Ty) : Prop := tsubst θ t1 = tsubst θ t2.
(** [θ] factors through [s]. *)
Definition absorbs (θ : N → Ty) (s : Substitution) : Prop := ∀ v, tsubst θ (look s v) = θ v.
Definition guarded_subst (s : Substitution) : Prop := ∀ b, b ∈ s → guarded b.2 = true.

Definition mgu_spec (t1 t2 : Ty) (r : result Substitution NuError) : Prop :=
  match r with
  | Ok s =>
      good (tvars t1 ∪ tvars t2) s ∧ agree (tsubst (look s) t1) (tsubst (look s) t2) ∧
      (∀ θ, unifies θ t1 t2 → absorbs θ s) ∧ (guarded t1 = true → guarded t2 = true → guarded_subst s)
  | Err _ => ∀ θ, ¬ unifies θ t1 t2
  end.

(** No variable under a variant, or a unifier exists. *)
Definition fine (t1 t2 : Ty) : Prop := (guarded t1 = true ∧ guarded t2 = true) ∨ ∃ θ, unifies θ t1 t2.

Lemma absorbs_tsubst θ s t : absorbs θ s → tsubst θ (tsubst (look s) t) = tsubst θ t.
Proof. intros Ha. rewrite tsubst_tsubst. apply tsubst_ext. auto. Qed.

Lemma absorbs_nil θ : absorbs θ [].
Proof. done. Qed.

Lemma guarded_look s t : guarded_subst s → guarded t = true → guarded (tsubst (look s) t) = true.
Proof.
  intros Hs Ht. apply guarded_tsubst; [done|]. intros v _. unfold look.
  destruct (find_binding v s) eqn:Hb; [|done]. apply find_binding_Some in Hb. by apply (Hs _ Hb).
Qed.

Lemma unifies_tsubst θ s t1 t2 : absorbs θ s → unifies θ (tsubst (look s) t1) (tsubst (look s) t2) ↔ unifies θ t1 t2.
Proof. intros Ha. unfold unifies. by rewrite !absorbs_tsubst. Qed.

Lemma absorbs_composed θ s2 s1 : absorbs θ s1 → absorbs θ s2 → absorbs θ (composed s2 s1).
Proof. intros H1 H2 v. rewrite look_composed, absorbs_tsubst by done. apply H1. Qed.

(** ** Lists of equations

    The loops of the unifier, over equations between types; [Bad] is an error
    found on the way. *)
Inductive item := Pair (a b : Ty) | Bad (e : NuError).

Fixpoint unify_items (fuel : nat) (span : Span) (s : Substitution) (items : list item) : Check Substitution :=
  match items with
  | [] => mret s
  | Pair a b :: items =>
      s ← unify_next fuel (mgu fuel) (compose_subst fuel) span s a b; unify_items fuel span s items
  | Bad e :: _ => check_fail e
  end.

Definition holds (P : Ty → Ty → Prop) (i : item) : Prop := match i with Pair a b => P a b | Bad _ => False end.
Definition item_guarded (i : item) : Prop :=
  match i with Pair a b => guarded a = true ∧ guarded b = true | Bad _ => True end.

Definition items_spec (V : gset N) (s : Substitution) (items : list item) (r : result Substitution NuError) : Prop :=
  match r with
  | Ok s' =>
      good V s' ∧ (∀ t, tsubst (look s') (tsubst (look s) t) = tsubst (look s') t) ∧
      Forall (holds (λ a b, agree (tsubst (look s') a) (tsubst (look s') b))) items ∧
      (∀ θ, absorbs θ s → Forall (holds (unifies θ)) items → absorbs θ s') ∧
      (guarded_subst s → Forall item_guarded items → guarded_subst s')
  | Err _ => ∀ θ, absorbs θ s → ¬ Forall (holds (unifies θ)) items
  end.

Definition fine_items (s : Substitution) (items : list item) : Prop :=
  (guarded_subst s ∧ Forall item_guarded items) ∨ ∃ θ, absorbs θ s ∧ Forall (holds (unifies θ)) items.

Section items.
Context (V : gset N) (K : nat) (span : Span).
(** The unifier on smaller problems. *)
Context (IH : ∀ t1 t2, plain t1 = true → plain t2 = true → tvars t1 ∪ tvars t2 ⊆ V →
  (tvars t1 ∪ tvars t2 ⊂ V ∨ tsize t1 + tsize t2 < K) → fine t1 t2 →
  ∃ r, runs (λ fuel, mgu fuel t1 t2 span) r ∧ mgu_spec t1 t2 r).

Definition item_ok (i : item) : Prop :=
  match i with
  | Pair a b => plain a = true ∧ plain b = true ∧ tvars a ⊆ V ∧ tvars b ⊆ V ∧ tsize a + tsize b < K
  | Bad _ => True
  end.

Lemma look_nil t : tsubst (look []) t = t.
Proof. rewrite <-(tsubst_id t) at 2. by apply tsubst_ext. Qed.

Lemma next_run s a b :
  good V s → item_ok (Pair a b) → fine_items s [Pair a b] →
  ∃ r, runs (λ fuel, unify_next fuel (mgu fuel) (compose_subst fuel) span s a b) r ∧ items_spec V s [Pair a b] r.
Proof.
  intros Hg (Hpa & Hpb & Hva & Hvb & Hsize) Hfine.
  destruct (tsubst_good V s a Hg Hpa Hva) as [Hpa' Hva']. destruct (tsubst_good V s b Hg Hpb Hvb) as [Hpb' Hvb'].
  destruct (IH (tsubst (look s) a) (tsubst (look s) b)) as (r & Hrun & Hspec); [done|done|set_solver| | |].
  { destruct s as [|[v t] s]; [right; by rewrite !look_nil|left]. pose proof (good_dom _ _ Hg) as Hd.
    assert (v ∈ dom_of ((v, t) :: s)) by (unfold dom_of; cbn; set_solver). set_solver. }
  { destruct Hfine as [[Hs [[? ?] _]%Forall_cons]|(θ & Hθ & [Hu _]%Forall_cons)].
    - left. split; by apply guarded_look.
    - right. exists θ. by apply unifies_tsubst. }
  assert (∀ r' (k : nat → Substitution → Check Substitution),
    runs (λ fuel, mgu fuel (tsubst (look s) a) (tsubst (look s) b) span ≫= k fuel) r' →
    runs (λ fuel, a ← apply fuel a s; b ← apply fuel b s; t ← mgu fuel a b span; k fuel t) r') as Happly.
  { intros r' k Hk.
    eapply (runs_bind (λ fuel, apply fuel a s)); [by apply runs_lift, (apply_ends V)|].
    eapply (runs_bind (λ fuel, apply fuel b s)); [by apply runs_lift, (apply_ends V)|]. done. }
  destruct r as [s'|e].
  - destruct Hspec as (Hg' & Hag & Hmost & Hguard). exists (Ok (composed s' s)).
    assert (good (V ∖ dom_of s) s') as Hg'' by (eapply good_mono; [done|set_solver]). split.
    + apply (Happly _ (λ fuel s', compose_subst fuel s' s)). eapply runs_bind; [done|]. by apply (compose_runs V).
    + split_and!.
      * by apply good_composed.
      * intros t. rewrite !tsubst_composed. f_equal. by eapply good_idem.
      * constructor; [|done]. cbn. by rewrite !tsubst_composed.
      * intros θ Hθ [Hu _]%Forall_cons. apply absorbs_composed; [done|]. apply Hmost. by apply unifies_tsubst.
      * intros Hs [[Ha Hb] _]%Forall_cons. specialize (Hguard (guarded_look _ _ Hs Ha) (guarded_look _ _ Hs Hb)).
        intros b' [([v t] & -> & Hin)%list_elem_of_fmap|Hin]%elem_of_app; [|by apply Hguard].
        apply guarded_look; [done|]. by apply (Hs _ Hin).
  - exists (Err e). split.
    + apply (Happly _ (λ fuel s', compose_subst fuel s' s)). by apply runs_bind_err.
    + intros θ Hθ [Hu _]%Forall_cons. by eapply Hspec, unifies_tsubst.
Qed.

Lemma items_spec_cons s s1 i items r :
  item_ok i → items_spec V s [i] (Ok s1) → items_spec V s1 items r → items_spec V s (i :: items) r.
Proof.
  intros Hi (Hg1 & Hext1 & [Hag1 _]%Forall_cons & Hmost1 & Hgu1) Hspec2. destruct i as [a b|e]; [|done].
  destruct r as [s2|e].
  - destruct Hspec2 as (Hg2 & Hext2 & Hag2 & Hmost2 & Hgu2). destruct Hi as (Hpa & Hpb & Hva & Hvb & _). split_and!.
    + done.
    + intros t. rewrite <-Hext2, Hext1. apply Hext2.
    + constructor; [|done]. cbn. rewrite <-(Hext2 a), <-(Hext2 b). apply agree_tsubst; [done| |]; by eapply tsubst_good.
    + intros θ Hθ [Hu Hus]%Forall_cons. apply Hmost2; [|done]. apply Hmost1; [done|]. by constructor.
    + intros Hs [Hgi Hgs]%Forall_cons. apply Hgu2; [|done]. apply Hgu1; [done|]. by constructor.
  - intros θ Hθ [Hu Hus]%Forall_cons. apply (Hspec2 θ); [|done]. apply Hmost1; [done|]. by constructor.
Qed.

Lemma fine_items_next s s1 i items :
  items_spec V s [i] (Ok s1) → fine_items s (i :: items) → fine_items s1 items.
Proof.
  intros (_ & _ & _ & Hmost1 & Hgu1) [[Hs [Hgi Hgs]%Forall_cons]|(θ & Hθ & [Hu Hus]%Forall_cons)].
  - left. split; [|done]. apply Hgu1; [done|]. by constructor.
  - right. exists θ. split; [|done]. apply Hmost1; [done|]. by constructor.
Qed.

Lemma fine_items_first s i items : fine_items s (i :: items) → fine_items s [i].
Proof.
  intros [[Hs [Hgi _]%Forall_cons]|(θ & Hθ & [Hu _]%Forall_cons)].
  - left. split; [done|]. by constructor.
  - right. exists θ. split; [done|]. by constructor.
Qed.

Lemma items_run s items :
  good V s → Forall item_ok items → fine_items s items →
  ∃ r, runs (λ fuel, unify_items fuel span s items) r ∧ items_spec V s items r.
Proof.
  revert s. induction items as [|i items IHi]; intros s Hg Hok Hfine.
  { exists (Ok s). split; [apply runs_ret|]. split_and!; try done. intros t. by eapply good_idem. }
  apply Forall_cons in Hok as [Hi Hok]. destruct i as [a b|e].
  2:{ exists (Err e). split; [apply runs_fail|]. intros θ _ [[] _]%Forall_cons. }
  destruct (next_run s a b Hg Hi) as (r & Hrun & Hspec); [by eapply fine_items_first|].
  destruct r as [s1|e].
  2:{ exists (Err e). split; [by apply runs_bind_err|]. intros θ Hθ [Hu _]%Forall_cons. apply (Hspec θ Hθ). by constructor. }
  destruct (IHi s1) as (r & Hrun2 & Hspec2); [apply Hspec|done|by eapply fine_items_next|].
  exists r. split; [by eapply runs_bind|]. by eapply items_spec_cons.
Qed.

(** *** The loops of the source as lists of equations *)

Definition field_item (f1 f2 : bytes * Ty) : item :=
  if bool_decide (f1.1 = f2.1) then Pair f1.2 f2.2
  else Bad (NuError_type_mismatch (str "record with field '" ++ f1.1 ++ str "'")
              (str "record with field '" ++ f2.1 ++ str "'") span).

Definition variant_items (f1 f2 : bytes * option Ty) : list item :=
  if bool_decide (f1.1 = f2.1) then
    match f1.2, f2.2 with
    | None, None => []
    | Some a, Some b => [Pair a b]
    | _, _ => [Bad (NuError_type_mismatch (str "constructor '" ++ f1.1 ++ str "' with payload")
                      (str "constructor '" ++ f1.1 ++ str "' without payload") span)]
    end
  else [Bad (NuError_type_mismatch (str "constructor '" ++ f1.1 ++ str "'")
               (str "constructor '" ++ f2.1 ++ str "'") span)].

Lemma bind_ext {A B} (m : Check A) (k k' : A → Check B) c : (∀ a c, k a c = k' a c) → (m ≫= k) c = (m ≫= k') c.
Proof. intros Hk. unfold mbind, check_bind. by destruct (m c) as [[[a|e] c']|]. Qed.

Lemma unify_pairs_items fuel s ts1 ts2 c :
  unify_pairs fuel (mgu fuel) (compose_subst fuel) span s ts1 ts2 c = unify_items fuel span s (zip_with Pair ts1 ts2) c.
Proof.
  revert s ts2 c. induction ts1 as [|t1 ts1 IHt]; intros s [|t2 ts2] c; try done. cbn. apply bind_ext. auto.
Qed.

Lemma unify_fields_items fuel s fs1 fs2 c :
  unify_fields fuel (mgu fuel) (compose_subst fuel) span s fs1 fs2 c = unify_items fuel span s (zip_with field_item fs1 fs2) c.
Proof.
  revert s fs2 c. induction fs1 as [|[n1 t1] fs1 IHt]; intros s [|[n2 t2] fs2] c; try done. cbn. unfold field_item. cbn.
  destruct (bool_decide (n1 = n2)); [|done]. cbn. apply bind_ext. auto.
Qed.

Lemma unify_variants_items fuel s vs1 vs2 c :
  unify_variants fuel (mgu fuel) (compose_subst fuel) span s vs1 vs2 c =
  unify_items fuel span s (concat (zip_with variant_items vs1 vs2)) c.
Proof.
  revert s vs2 c. induction vs1 as [|[n1 o1] vs1 IHt]; intros s [|[n2 o2] vs2] c; try done. cbn.
  unfold variant_items at 1. cbn. destruct (bool_decide (n1 = n2)); [|done]. destruct o1, o2; cbn; try done.
  apply bind_ext. auto.
Qed.

(** The equations of a problem. *)
Definition reduces (t1 t2 : Ty) (items : list item) : Prop :=
  Forall (λ i, match i with Pair a b => a ∈ children t1 ∧ b ∈ children t2 | Bad _ => True end) items ∧
  (∀ θ, unifies θ t1 t2 → Forall (holds (unifies θ)) items) ∧
  (∀ θ, Forall (holds (λ a b, agree (tsubst θ a) (tsubst θ b))) items → agree (tsubst θ t1) (tsubst θ t2)).

Section problem.
Context (t1 t2 : Ty) (Hp1 : plain t1 = true) (Hp2 : plain t2 = true).
Context (HV : tvars t1 ∪ tvars t2 = V) (HK : tsize t1 + tsize t2 = K) (Hfine : fine t1 t2).

Lemma reduces_ok items : reduces t1 t2 items → Forall item_ok items ∧ fine_items [] items.
Proof.
  intros (Hc & Hu & _). split.
  - eapply Forall_impl; [exact Hc|]. intros [a b|e]; [|done]. intros [Ha Hb].
    pose proof (children_tvars _ _ Ha). pose proof (children_tvars _ _ Hb).
    pose proof (children_size _ _ Ha). pose proof (children_size _ _ Hb).
    split_and!; [by apply (plain_children t1)|by apply (plain_children t2)|set_solver|set_solver|lia].
  - destruct Hfine as [[Hg1 Hg2]|[θ Hθ]].
    + left. split; [intros b []%not_elem_of_nil|]. eapply Forall_impl; [exact Hc|]. intros [a b|e]; [|done].
      intros [Ha Hb]. split; [by apply (guarded_children t1)|by apply (guarded_children t2)].
    + right. exists θ. split; [apply absorbs_nil|]. by apply Hu.
Qed.

Lemma reduces_spec items r : reduces t1 t2 items → items_spec V [] items r → mgu_spec t1 t2 r.
Proof.
  intros Hred Hspec. destruct Hred as (Hc & Hu & Hag). destruct r as [s|e].
  - destruct Hspec as (Hg & _ & Hags & Hmost & Hgu). split_and!; [by rewrite HV|by apply Hag| |].
    + intros θ Hθ. apply Hmost; [apply absorbs_nil|]. by apply Hu.
    + intros Hg1 Hg2. apply Hgu; [intros b []%not_elem_of_nil|]. eapply Forall_impl; [exact Hc|].
      intros [a b|e]; [|done]. intros [Ha Hb]. split; [by apply (guarded_children t1)|by apply (guarded_children t2)].
  - intros θ Hθ. apply (Hspec θ); [apply absorbs_nil|]. by apply Hu.
Qed.

(** A loop over the equations. *)
Lemma reduces_loop items :
  reduces t1 t2 items → ∃ r, runs (λ fuel, unify_items fuel span [] items) r ∧ mgu_spec t1 t2 r.
Proof.
  intros Hred. destruct (reduces_ok _ Hred) as [Hok Hfi].
  destruct (items_run [] items) as (r & Hrun & Hspec); [apply good_nil|done|done|].
  exists r. split; [done|]. by eapply reduces_spec.
Qed.

Lemma mgu_items a b r : item_ok (Pair a b) → mgu_spec a b r → items_spec V [] [Pair a b] r.
Proof.
  intros (Hpa & Hpb & Hva & Hvb & _) Hspec. destruct r as [s|e].
  - destruct Hspec as (Hg & Hag & Hmost & Hgu). split_and!.
    + eapply good_mono; [done|set_solver].
    + intros t. by rewrite look_nil.
    + by constructor.
    + intros θ _ [Hu _]%Forall_cons. by apply Hmost.
    + intros _ [[Ha Hb] _]%Forall_cons. by apply Hgu.
  - intros θ _ [Hu _]%Forall_cons. by apply (Hspec θ).
Qed.

Lemma first_run a b items :
  Forall item_ok (Pair a b :: items) → fine_items [] (Pair a b :: items) →
  ∃ r, runs (λ fuel, mgu fuel a b span) r ∧ items_spec V [] [Pair a b] r.
Proof.
  intros [Hi _]%Forall_cons Hfi. pose proof Hi as (Hpa & Hpb & Hva & Hvb & Hsize).
  destruct (IH a b) as (r & Hrun & Hspec); [done|done|set_solver|by right| |].
  { destruct Hfi as [[_ [? _]%Forall_cons]|(θ & _ & [? _]%Forall_cons)]; [by left|right; by exists θ]. }
  exists r. split; [done|]. by apply mgu_items.
Qed.

(** One equation, and two of which the second is met with the first solved. *)
Lemma reduces_one a b :
  reduces t1 t2 [Pair a b] → ∃ r, runs (λ fuel, mgu fuel a b span) r ∧ mgu_spec t1 t2 r.
Proof.
  intros Hred. destruct (reduces_ok _ Hred) as [Hok Hfi]. destruct (first_run a b []) as (r & Hrun & Hspec); [done|done|].
  exists r. split; [done|]. by eapply reduces_spec.
Qed.

Lemma reduces_two a1 b1 a2 b2 :
  reduces t1 t2 [Pair a1 b1; Pair a2 b2] →
  ∃ r, runs (λ fuel, s ← mgu fuel a1 b1 span; unify_next fuel (mgu fuel) (compose_subst fuel) span s a2 b2) r ∧
    mgu_spec t1 t2 r.
Proof.
  intros Hred. destruct (reduces_ok _ Hred) as [Hok Hfi].
  destruct (first_run _ _ _ Hok Hfi) as (r & Hrun & Hspec). apply Forall_cons in Hok as [Hi1 [Hi2 _]%Forall_cons].
  destruct r as [s|e].
  - destruct (next_run s a2 b2) as (r & Hrun2 & Hspec2); [apply Hspec|done|by eapply fine_items_next|].
    exists r. split; [by eapply runs_bind|]. eapply reduces_spec; [done|]. by eapply items_spec_cons.
  - exists (Err e). split; [by apply runs_bind_err|]. intros θ Hθ. apply (Hspec θ); [apply absorbs_nil|].
    destruct Hred as (_ & Hu & _). apply Hu in Hθ. apply Forall_cons in Hθ as [? _]. by constructor.
Qed.
End problem.

Lemma reduces_tuple ts1 ts2 :
  length ts1 = length ts2 → reduces (TyTuple ts1) (TyTuple ts2) (zip_with Pair ts1 ts2).
Proof.
  intros Hlen. split_and!; [|intros θ Hu|intros θ Hag].
  - apply Forall_zip_with_iff; [done|]. by apply Forall2_elems.
  - injection Hu as Hu. apply Forall_zip_with_iff; [done|]. by apply Forall2_map_eq.
  - apply agree_tuple, Forall2_fmap. by apply Forall_zip_with_iff in Hag.
Qed.

Lemma reduces_app c1 c2 args1 args2 :
  length args1 = length args2 →
  reduces (TyApp c1 args1) (TyApp c2 args2) (Pair c1 c2 :: zip_with Pair args1 args2).
Proof.
  intros Hlen. split_and!; [|intros θ Hu|intros θ [Hc Hag]%Forall_cons].
  - constructor; [split; left|]. apply Forall_zip_with_iff; [done|].
    eapply Forall2_impl; [by apply Forall2_elems|]. intros x y [Hx Hy]. split; by right.
  - injection Hu as Hc Hu. constructor; [done|]. apply Forall_zip_with_iff; [done|]. by apply Forall2_map_eq.
  - apply agree_app; [done|]. apply Forall2_fmap. by apply Forall_zip_with_iff in Hag.
Qed.

Lemma reduces_record fs1 fs2 :
  length fs1 = length fs2 →
  reduces (TyRecord fs1) (TyRecord fs2) (zip_with field_item (sort_by_name fs1) (sort_by_name fs2)).
Proof.
  intros Hlen. assert (length (sort_by_name fs1) = length (sort_by_name fs2)) as Hlen'
    by (unfold sort_by_name; by rewrite !sort_by_perm).
  split_and!; [|intros θ Hu|intros θ Hag].
  - apply Forall_zip_with_iff; [done|]. eapply Forall2_impl; [by apply Forall2_elems|].
    intros [n1 x] [n2 y] [Hx Hy]. unfold field_item. cbn. destruct (bool_decide (n1 = n2)); [|done].
    unfold sort_by_name in *. rewrite sort_by_perm in Hx, Hy. split; apply list_elem_of_fmap; by eexists (_, _).
  - injection Hu as Hu%(f_equal sort_by_name). rewrite !sort_by_name_map in Hu.
    apply Forall_zip_with_iff; [done|]. eapply Forall2_impl; [by apply (Forall2_map_eq _ _ _ _ Hu)|].
    intros [n1 x] [n2 y] [= -> Hxy]. unfold field_item. cbn. by rewrite bool_decide_eq_true_2.
  - apply agree_record. rewrite !sort_by_name_map. apply Forall2_fmap. apply Forall_zip_with_iff in Hag; [|done].
    eapply Forall2_impl; [done|]. intros [n1 x] [n2 y]. unfold field_item. cbn.
    destruct (bool_decide_reflect (n1 = n2)); [|done]. done.
Qed.

Lemma reduces_variant vs1 vs2 :
  length vs1 = length vs2 →
  reduces (TyVariant vs1) (TyVariant vs2) (concat (zip_with variant_items (sort_by_name vs1) (sort_by_name vs2))).
Proof.
  intros Hlen. assert (length (sort_by_name vs1) = length (sort_by_name vs2)) as Hlen'
    by (unfold sort_by_name; by rewrite !sort_by_perm).
  set (f θ := λ o, match o with Some t => Some (tsubst θ t) | None => None end).
  split_and!; [|intros θ Hu|intros θ Hag].
  - apply Forall_concat_zip_with; [done|]. eapply Forall2_impl; [by apply Forall2_elems|].
    intros [n1 x] [n2 y] [Hx Hy]. unfold variant_items. cbn.
    destruct (bool_decide (n1 = n2)); [|by constructor]. destruct x as [x|], y as [y|]; try (by repeat constructor).
    unfold sort_by_name in *. rewrite sort_by_perm in Hx, Hy. constructor; [|done].
    split; apply list_elem_of_omap; by eexists (_, Some _).
  - injection Hu as Hu%(f_equal sort_by_name). rewrite !(sort_by_name_map (f θ)) in Hu.
    apply Forall_concat_zip_with; [done|]. eapply Forall2_impl; [by apply (Forall2_map_eq _ _ _ _ Hu)|].
    intros [n1 x] [n2 y] [= -> Hxy]. unfold variant_items. cbn. rewrite bool_decide_eq_true_2 by done.
    destruct x, y; try done. constructor; [|done]. by injection Hxy.
  - apply agree_variant. rewrite !(sort_by_name_map (f θ)). apply Forall2_fmap.
    apply Forall_concat_zip_with in Hag; [|done].
    eapply Forall2_impl; [done|]. intros [n1 x] [n2 y]. unfold variant_items. cbn.
    destruct (bool_decide_reflect (n1 = n2)); [|by intros [[] _]%Forall_cons]. intros H. split; [done|].
    destruct x, y; cbn; try (by apply Forall_cons in H as [[] _]); constructor. by apply Forall_cons in H as [? _].
Qed.

(** *** Variables *)

Lemma tsubst_size θ v t : plain t = true → v ∈ tvars t → is_var t = false → tsize (θ v) < tsize (tsubst θ t).
Proof.
  induction t as [t IHt] using Ty_children_ind. intros Hp Hv Hvar.
  apply elem_of_tvars in Hv as [->|(c & Hc & Hv)]; [done|].
  assert (tsize (tsubst θ c) < tsize (tsubst θ t)) as Hlt.
  { apply children_size. rewrite children_tsubst by done. apply list_elem_of_fmap. by exists c. }
  destruct (is_var c) eqn:Hc'.
  - destruct c; try done. cbn in *. apply elem_of_singleton in Hv as ->. done.
  - pose proof (IHt c Hc (plain_children _ _ Hp Hc) Hv Hc'). lia.
Qed.

Lemma var_subst_ok v t :
  plain t = true → t ≠ TyVar v → (guarded t = true ∨ ∃ θ, θ v = tsubst θ t) →
  match var_subst v t span with
  | Ok s => s = [(v, t)] ∧ v ∉ tvars t
  | Err _ => ∀ θ, θ v ≠ tsubst θ t
  end.
Proof.
  intros Hp Hne Hfine.
  assert (v ∈ tvars t → ∀ θ, θ v ≠ tsubst θ t) as Hocc.
  { intros Hv θ Heq. destruct (is_var t) eqn:Hvar.
    - destruct t; try done. cbn in Hv. apply elem_of_singleton in Hv as ->. done.
    - pose proof (tsubst_size θ v t Hp Hv Hvar). rewrite Heq in *. lia. }
  assert (∀ e : NuError, match (if occurs_in v t then Err e else Ok [(v, t)]) with
    | Ok s => s = [(v, t)] ∧ v ∉ tvars t | Err _ => ∀ θ, θ v ≠ tsubst θ t end) as Hgo.
  { intros e. destruct (occurs_in v t) eqn:Ho; [by apply Hocc, occurs_in_tvars|]. split; [done|]. intros Hv.
    destruct Hfine as [Hg|[θ Hθ]]; [|by destruct (Hocc Hv θ)]. by rewrite tvars_occurs_in in Ho. }
  unfold var_subst. destruct t; try (lazymatch goal with |- context [TySkolem] => fail | _ => apply Hgo end).
  - destruct (N.eqb_spec v0 v) as [->|]; [done|apply Hgo].
  - cbn. split; [done|set_solver].
Qed.

Lemma var_subst_spec t1 t2 v t :
  (t1 = TyVar v ∧ t2 = t) ∨ (t1 = t ∧ t2 = TyVar v) →
  plain t = true → t ≠ TyVar v → fine t1 t2 → mgu_spec t1 t2 (var_subst v t span).
Proof.
  intros Ht Hp Hne Hfine. pose proof (var_subst_ok v t Hp Hne) as Hok.
  assert (∀ θ, unifies θ t1 t2 ↔ θ v = tsubst θ t) as Hu
    by (unfold unifies; destruct Ht as [[-> ->]|[-> ->]]; cbn; intros θ; split; congruence).
  assert (guarded t1 = true → guarded t2 = true → guarded t = true) as Hg by (by destruct Ht as [[-> ->]|[-> ->]]).
  assert (tvars t1 ∪ tvars t2 = {[v]} ∪ tvars t) as HV' by (destruct Ht as [[-> ->]|[-> ->]]; cbn; set_solver).
  destruct (var_subst v t span) as [s|e].
  2:{ intros θ. rewrite Hu. apply Hok. destruct Hfine as [[? ?]|[θ' ?%Hu]]; [left; auto|right; eauto]. }
  destruct Hok as [-> Hv]; [destruct Hfine as [[? ?]|[θ' ?%Hu]]; [left; auto|right; eauto]|].
  assert (look [(v, t)] v = t) as Hl by (unfold look; cbn; by rewrite N.eqb_refl).
  assert (tsubst (look [(v, t)]) t = t) as Hlt.
  { rewrite <-(tsubst_id t) at 3. apply tsubst_ext. intros w Hw. apply look_unbound. unfold dom_of. cbn. set_solver. }
  split_and!.
  - rewrite HV'. split; cbn; [apply NoDup_singleton|..].
    + by intros b ->%list_elem_of_singleton.
    + unfold dom_of. cbn. set_solver.
    + intros b ->%list_elem_of_singleton. unfold dom_of. cbn. set_solver.
  - destruct Ht as [[-> ->]|[-> ->]]; cbn [tsubst]; rewrite Hl, Hlt; apply agree_refl.
  - intros θ Hθ%Hu w. unfold look. cbn. destruct (N.eqb_spec v w) as [<-|]; [by cbn|done].
  - intros Hg1 Hg2 b ->%list_elem_of_singleton. auto.
Qed.

(** *** The cases of the unifier *)

Section cases.
Context (t1 t2 : Ty) (Hp1 : plain t1 = true) (Hp2 : plain t2 = true).
Context (HV : tvars t1 ∪ tvars t2 = V) (HK : tsize t1 + tsize t2 = K) (Hfine : fine t1 t2).

Definition solved (m : nat → Check Substitution) : Prop := ∃ r, runs m r ∧ mgu_spec t1 t2 r.

Lemma solved_fail e : (∀ θ, ¬ unifies θ t1 t2) → solved (λ _, check_fail e).
Proof. intros H. exists (Err e). split; [apply runs_fail|done]. Qed.

Lemma solved_nil : agree t1 t2 → solved (λ _, mret []).
Proof.
  intros H. exists (Ok []). split; [apply runs_ret|]. split_and!; [apply good_nil|by rewrite !look_nil|done|].
  intros _ _ b []%not_elem_of_nil.
Qed.

Lemma solved_ext m m' : (∀ fuel c, m fuel c = m' fuel c) → solved m → solved m'.
Proof. intros Hm (r & Hr & Hs). exists r. split; [by eapply runs_ext|done]. Qed.

Lemma solved_loop items : reduces t1 t2 items → solved (λ fuel, unify_items fuel span [] items).
Proof. by apply reduces_loop. Qed.
End cases.

Lemma split_record_plain fs fuel :
  plain (TyRecord fs) = true → split_record (S fuel) fs = Some (fs, None).
Proof.
  intros Hp. assert (Forall (λ f, f.1 ≠ RECORD_ROW_TAIL_FIELD) fs) as Hf.
  { rewrite Forall_forall. intros [n t] Hin%list_elem_of_In. cbn in Hp. rewrite forallb_forall in Hp.
    apply Hp, andb_true_iff in Hin as [Hn _]. by apply bool_decide_eq_true in Hn. }
  unfold split_record, split_record_loop, split_fields.
  assert (filter (λ f : bytes * Ty, f.1 ≠ RECORD_ROW_TAIL_FIELD) fs = fs) as ->.
  { induction Hf as [|f fs Hn _ IHf]; [done|]. rewrite filter_cons_True by done. f_equal. apply IHf.
    cbn in *. by apply andb_true_iff in Hp as [_ ?]. }
  assert (filter (λ f : bytes * Ty, f.1 = RECORD_ROW_TAIL_FIELD) fs = []) as ->; [|done].
  induction Hf as [|f fs Hn _ IHf]; [done|]. rewrite filter_cons_False by done. apply IHf.
  cbn in *. by apply andb_true_iff in Hp as [_ ?].
Qed.

Lemma len_eqb {A B} (l : list A) (k : list B) : (len l =? len k)%N = true ↔ length l = length k.
Proof. rewrite N.eqb_eq. unfold len. lia. Qed.

Lemma effect_row_compatible_refl e : effect_row_compatible e e = true.
Proof.
  destruct e as [a|a r]; cbn; [by apply bool_decide_eq_true|].
  assert (forallb (λ e, bool_decide (e ∈ a)) a = true) as ->; [|done].
  apply forallb_forall. intros e He%list_elem_of_In. by apply bool_decide_eq_true.
Qed.

Lemma reduces_single t1 t2 a b :
  a ∈ children t1 → b ∈ children t2 → (∀ θ, unifies θ t1 t2 → unifies θ a b) →
  (∀ θ, agree (tsubst θ a) (tsubst θ b) → agree (tsubst θ t1) (tsubst θ t2)) → reduces t1 t2 [Pair a b].
Proof.
  intros Ha Hb Hu Hag. split_and!; [by constructor| |].
  - intros θ Hθ. constructor; [by apply Hu|done].
  - intros θ [H _]%Forall_cons. by apply Hag.
Qed.

Lemma reduces_double t1 t2 a1 b1 a2 b2 :
  children t1 = [a1; a2] → children t2 = [b1; b2] →
  (∀ θ, unifies θ t1 t2 → unifies θ a1 b1 ∧ unifies θ a2 b2) →
  (∀ θ, agree (tsubst θ a1) (tsubst θ b1) → agree (tsubst θ a2) (tsubst θ b2) → agree (tsubst θ t1) (tsubst θ t2)) →
  reduces t1 t2 [Pair a1 b1; Pair a2 b2].
Proof.
  intros H1 H2 Hu Hag. split_and!.
  - rewrite H1, H2. repeat constructor; set_solver.
  - intros θ Hθ. destruct (Hu θ Hθ). by repeat constructor.
  - intros θ [Ha [Hb _]%Forall_cons]%Forall_cons. by apply Hag.
Qed.

Section arms.
Context (t1 t2 : Ty) (Hp1 : plain t1 = true) (Hp2 : plain t2 = true).
Context (HV : tvars t1 ∪ tvars t2 = V) (HK : tsize t1 + tsize t2 = K) (Hfine : fine t1 t2).

Lemma solved_one a b : reduces t1 t2 [Pair a b] → solved t1 t2 (λ fuel, mgu fuel a b span).
Proof. by apply reduces_one. Qed.

Lemma solved_two a1 b1 a2 b2 : reduces t1 t2 [Pair a1 b1; Pair a2 b2] →
  solved t1 t2 (λ fuel, s ← mgu fuel a1 b1 span; unify_next fuel (mgu fuel) (compose_subst fuel) span s a2 b2).
Proof. by apply reduces_two. Qed.

(** The constructor of an application is ground, so that its unifier is empty. *)
Lemma solved_app c1 c2 args1 args2 :
  t1 = TyApp c1 args1 → t2 = TyApp c2 args2 →
  solved t1 t2 (λ fuel,
    s1 ← mgu fuel c1 c2 span;
    applied1 ← check_lift (mapM (λ t, apply_subst fuel t s1) args1);
    applied2 ← check_lift (mapM (λ t, apply_subst fuel t s1) args2);
    s2 ← unify_many_app fuel (mgu fuel) (compose_subst fuel) applied1 applied2 span;
    compose_subst fuel s2 s1).
Proof.
  intros Ht1 Ht2. subst t1 t2. pose proof Hp1 as Hp1'. pose proof Hp2 as Hp2'. cbn -[ground] in Hp1', Hp2'.
  rewrite !andb_true_iff in Hp1', Hp2'. destruct Hp1' as [[[Hg1 Hc1] _] Ha1], Hp2' as [[[Hg2 Hc2] _] Ha2].
  rewrite forallb_forall in Ha1, Ha2.
  destruct (IH c1 c2) as (r & Hrun & Hspec); [done|done|cbn in HV; set_solver|right; cbn in HK; lia| |].
  { left. by split; apply ground_guarded. }
  destruct r as [s|e].
  2:{ exists (Err e). split; [by apply runs_bind_err|]. intros θ Hu. apply (Hspec θ). by injection Hu. }
  destruct Hspec as (Hgood & Hag & _ & _). apply ground_spec in Hg1, Hg2.
  assert (s = []) as ->.
  { destruct s as [|[v t] s]; [done|]. pose proof (good_dom _ _ Hgood) as Hd.
    assert (v ∈ dom_of ((v, t) :: s)) by (unfold dom_of; cbn; set_solver). set_solver. }
  rewrite !look_nil in Hag.
  assert (∀ args, (∀ t, In t args → plain t = true) →
    runs (λ fuel, check_lift (mapM (λ t, apply_subst fuel t []) args)) (Ok args)) as Happly.
  { intros args Hargs. apply runs_lift. destruct (apply_all_end V [] args (good_nil V)) as [n Hn].
    { intros t Ht%list_elem_of_In. auto. }
    exists n. intros fuel Hf. rewrite (mapM_map _ (λ t, t)); [by rewrite map_id|]. rewrite Forall_forall.
    intros t Ht. rewrite Hn by done. by rewrite look_nil. }
  destruct (decide (length args1 = length args2)) as [Hlen|Hlen].
  - destruct (reduces_ok _ _ Hp1 Hp2 HV HK Hfine _ (reduces_app c1 c2 args1 args2 Hlen)) as [Hok Hfi].
    apply Forall_cons in Hok as [Hi Hok].
    assert (items_spec V [] [Pair c1 c2] (Ok [])) as Hfirst.
    { split_and!; [apply good_nil|intros t; by rewrite look_nil|constructor; [cbn; by rewrite !look_nil|done]|done|done]. }
    destruct (items_run [] (zip_with Pair args1 args2)) as (r & Hrun2 & Hspec2);
      [apply good_nil|done|by eapply fine_items_next|].
    exists r. split; [|eapply reduces_spec; [done..|by apply reduces_app|by eapply items_spec_cons]].
    eapply runs_bind; [exact Hrun|]. eapply (runs_bind (λ fuel, check_lift _)); [by apply Happly|].
    eapply (runs_bind (λ fuel, check_lift _)); [by apply Happly|].
    assert (runs (λ fuel, unify_many_app fuel (mgu fuel) (compose_subst fuel) args1 args2 span) r) as Hmany.
    { eapply runs_ext; [|exact Hrun2]. intros fuel c. unfold unify_many_app.
      rewrite (proj2 (len_eqb args1 args2)) by done. symmetry. apply unify_pairs_items. }
    destruct r as [s2|e]; [|by apply runs_bind_err]. eapply runs_bind; [exact Hmany|].
    apply (compose_runs V s2 []); [apply good_nil|]. eapply good_mono; [apply Hspec2|]. unfold dom_of. cbn. set_solver.
  - exists (Err (NuError_type_mismatch (str "type list of length " ++ dec_of_N (len args1))
                   (str "type list of length " ++ dec_of_N (len args2)) span)). split.
    + eapply runs_bind; [exact Hrun|]. eapply (runs_bind (λ fuel, check_lift _)); [by apply Happly|].
      eapply (runs_bind (λ fuel, check_lift _)); [by apply Happly|]. apply runs_bind_err.
      eapply runs_ext; [|apply runs_fail]. intros fuel c. unfold unify_many_app.
      destruct (len args1 =? len args2)%N eqn:Heq; [by apply len_eqb in Heq|done].
    + intros θ Hu. injection Hu as _ Hu. apply (f_equal length) in Hu. by rewrite !length_map in Hu.
Qed.
End arms.

Section lists.
Local Abbreviation matches t1 t2 := (λ fuel, mgu_match fuel (mgu fuel) (compose_subst fuel) t1 t2 span).

Lemma tuple_solved ts1 ts2 (t1 := TyTuple ts1) (t2 := TyTuple ts2) :
  plain t1 = true → plain t2 = true → tvars t1 ∪ tvars t2 = V → tsize t1 + tsize t2 = K → fine t1 t2 →
  solved t1 t2 (matches t1 t2).
Proof.
  intros Hp1 Hp2 HV HK Hfine. destruct (decide (length ts1 = length ts2)) as [Hlen|Hlen].
  - eapply solved_ext; [|by apply (solved_loop t1 t2 Hp1 Hp2 HV HK Hfine), reduces_tuple].
    intros fuel c. cbn [mgu_match t1 t2]. unfold unify_many. rewrite (proj2 (len_eqb ts1 ts2)) by done.
    symmetry. apply unify_pairs_items.
  - eapply solved_ext; [|apply solved_fail; intros θ Hu; injection Hu as Hu%(f_equal length); by rewrite !length_map in Hu].
    intros fuel c. cbn [mgu_match t1 t2]. destruct (len ts1 =? len ts2)%N eqn:Heq; [by apply len_eqb in Heq|done].
Qed.

Lemma record_solved fs1 fs2 (t1 := TyRecord fs1) (t2 := TyRecord fs2) :
  plain t1 = true → plain t2 = true → tvars t1 ∪ tvars t2 = V → tsize t1 + tsize t2 = K → fine t1 t2 →
  solved t1 t2 (matches t1 t2).
Proof.
  intros Hp1 Hp2 HV HK Hfine.
  assert (∀ r, runs (λ fuel, unify_closed_records fuel (mgu fuel) (compose_subst fuel) fs1 fs2 span) r →
    runs (matches t1 t2) r) as Hsplit.
  { intros r [n Hn]. exists (S n). intros [|fuel] Hf c; [lia|]. cbn [mgu_match t1 t2].
    rewrite !split_record_plain by done. apply Hn. lia. }
  destruct (decide (length fs1 = length fs2)) as [Hlen|Hlen].
  - destruct (solved_loop t1 t2 Hp1 Hp2 HV HK Hfine _ (reduces_record _ _ Hlen)) as (r & Hrun & Hspec).
    exists r. split; [|done]. apply Hsplit. eapply runs_ext; [|exact Hrun]. intros fuel c. unfold unify_closed_records.
    rewrite (proj2 (len_eqb fs1 fs2)) by done. symmetry. apply unify_fields_items.
  - eexists (Err _). split.
    + apply Hsplit. eapply runs_ext; [|apply runs_fail]. intros fuel c. unfold unify_closed_records.
      destruct (len fs1 =? len fs2)%N eqn:Heq; [by apply len_eqb in Heq|done].
    + intros θ Hu. injection Hu as Hu%(f_equal length). by rewrite !length_map in Hu.
Qed.

Lemma variant_solved vs1 vs2 (t1 := TyVariant vs1) (t2 := TyVariant vs2) :
  plain t1 = true → plain t2 = true → tvars t1 ∪ tvars t2 = V → tsize t1 + tsize t2 = K → fine t1 t2 →
  solved t1 t2 (matches t1 t2).
Proof.
  intros Hp1 Hp2 HV HK Hfine. destruct (decide (length vs1 = length vs2)) as [Hlen|Hlen].
  - eapply solved_ext; [|by apply (solved_loop t1 t2 Hp1 Hp2 HV HK Hfine), reduces_variant].
    intros fuel c. cbn [mgu_match t1 t2]. rewrite (proj2 (len_eqb vs1 vs2)) by done.
    symmetry. apply unify_variants_items.
  - eapply solved_ext; [|apply solved_fail; intros θ Hu; injection Hu as Hu%(f_equal length); by rewrite !length_map in Hu].
    intros fuel c. cbn [mgu_match t1 t2]. destruct (len vs1 =? len vs2)%N eqn:Heq; [by apply len_eqb in Heq|done].
Qed.

Lemma function_solved p1 r1 e1 c1 p2 r2 e2 c2 (t1 := TyFunction p1 r1 e1 c1) (t2 := TyFunction p2 r2 e2 c2) :
  plain t1 = true → plain t2 = true → tvars t1 ∪ tvars t2 = V → tsize t1 + tsize t2 = K → fine t1 t2 →
  solved t1 t2 (matches t1 t2).
Proof.
  intros Hp1 Hp2 HV HK Hfine. unfold t1, t2, mgu_match.
  destruct (bool_decide_reflect (c1 = c2)) as [<-|Hc]; [|apply solved_fail; intros θ Hu; by injection Hu].
  destruct (effect_row_compatible e1 e2) eqn:He; cbn [negb].
  - apply (solved_two t1 t2 Hp1 Hp2 HV HK Hfine), reduces_double; [done|done| |].
    + intros θ Hu. by injection Hu.
    + intros θ Ha Hb. by apply agree_function.
  - apply solved_fail. intros θ Hu. injection Hu as _ _ <-. by rewrite effect_row_compatible_refl in He.
Qed.
End lists.

Lemma match_solved t1 t2 :
  plain t1 = true → plain t2 = true → tvars t1 ∪ tvars t2 = V → tsize t1 + tsize t2 = K → fine t1 t2 → t1 ≠ t2 →
  solved t1 t2 (λ fuel, mgu_match fuel (mgu fuel) (compose_subst fuel) t1 t2 span).
Proof.
  intros Hp1 Hp2 HV HK Hfine Hne.
  destruct (is_var t1) eqn:Hv1.
  { destruct t1 as [v| | | | | | | | | | | |]; try done. exists (var_subst v t2 span).
    split; [apply runs_result|]. apply var_subst_spec; [by left|done|congruence|done]. }
  destruct (is_var t2) eqn:Hv2.
  { destruct t2 as [v| | | | | | | | | | | |]; try done. exists (var_subst v t1 span). split.
    - eapply runs_ext; [|apply runs_result]. intros fuel c. by destruct t1 as [| | | | | | | |[]| | | |].
    - apply var_subst_spec; [by right|done|congruence|done]. }
  assert (∀ c args, TyApp c args = t1 ∨ TyApp c args = t2 → is_var c = false) as Hc.
  { intros c args [<-|<-]; cbn -[ground] in Hp1, Hp2; destruct c; try done; cbn in Hp1, Hp2;
      rewrite ?bool_decide_eq_false_2 in Hp1, Hp2 by set_solver; done. }
  destruct t1 as [|p1|ts1|fs1|vs1|a1|p1 r1 e1 c1|s1 b1|k1 args1|c1 i1|vars1 u1|n1 u1|i1],
    t2 as [|p2|ts2|fs2|vs2|a2|p2 r2 e2 c2|s2 b2|k2 args2|c2 i2|vars2 u2|n2 u2|i2]; try done;
    try (apply solved_fail; intros θ Hu; discriminate Hu);
    try (pose proof (Hc k1 args1 ltac:(by left)) as Hk1; destruct k1; try done;
         try (apply solved_fail; intros θ Hu; discriminate Hu); by apply solved_app).
  - unfold mgu_match. rewrite bool_decide_eq_false_2 by congruence. apply solved_fail. intros θ Hu. by injection Hu as ->.
  - by apply tuple_solved.
  - by apply record_solved.
  - by apply variant_solved.
  - pose proof (Hc k2 args2 ltac:(by right)) as Hk2. destruct k2; try done;
      apply solved_fail; intros θ Hu; discriminate Hu.
  - apply (solved_one _ _ Hp1 Hp2 HV HK Hfine), reduces_single; [left|left|intros θ Hu; by injection Hu|].
    intros θ. apply agree_array.
  - by apply function_solved.
  - apply (solved_two _ _ Hp1 Hp2 HV HK Hfine), reduces_double; [done|done|intros θ Hu; by injection Hu|].
    intros θ. apply agree_actor.
  - unfold mgu_match. destruct (bool_decide_reflect (c1 = c2)) as [<-|Hcap].
    + apply (solved_one _ _ Hp1 Hp2 HV HK Hfine), reduces_single; [left|left|intros θ Hu; by injection Hu|].
      intros θ. apply agree_reference.
    + apply solved_fail. intros θ Hu. by injection Hu.
  - unfold mgu_match. destruct (bool_decide_reflect (n1 = n2)) as [<-|Hn].
    + apply (solved_one _ _ Hp1 Hp2 HV HK Hfine), reduces_single; [left|left|intros θ Hu; by injection Hu|].
      intros θ. apply agree_nominal.
    + apply solved_fail. intros θ Hu. by injection Hu.
  - unfold mgu_match. destruct (N.eqb_spec i1 i2) as [->|Hi]; [done|]. apply solved_fail. intros θ Hu. by injection Hu.
Qed.

Lemma actor_ref_plain t : plain t = true → Type_actor_ref_protocol t = None.
Proof.
  destruct t as [| | | | | | | |c args| | | |]; try done. destruct c; try done. destruct args as [|a [|b args]]; try done.
  intros Hp. cbn -[ground is_actor_ref] in Hp. rewrite !andb_true_iff in Hp. destruct Hp as [[_ Hr] _].
  unfold Type_actor_ref_protocol. unfold is_actor_ref in Hr. by destruct (bool_decide (name = ACTOR_REF_TYPE_NAME)).
Qed.

Lemma mgu_solved t1 t2 :
  plain t1 = true → plain t2 = true → tvars t1 ∪ tvars t2 = V → tsize t1 + tsize t2 = K → fine t1 t2 →
  solved t1 t2 (λ fuel, mgu fuel t1 t2 span).
Proof.
  intros Hp1 Hp2 HV HK Hfine.
  assert (solved t1 t2 (λ fuel, mgu_step blake3 fuel (mgu fuel) (compose_subst fuel) t1 t2 span)) as (r & Hrun & Hspec);
    [|exists r; split; [by apply runs_succ|done]].
  unfold mgu_step. destruct (is_never t1 || is_never t2) eqn:Hn; [by apply solved_nil, agree_never|].
  rewrite !actor_ref_plain by done.
  apply (solved_ext _ _ (λ fuel, if Ty_eqb t1 t2 then mret (M:=Check) [] else if same_ntir blake3 t1 t2 then mret (M:=Check) []
    else mgu_match fuel (mgu fuel) (compose_subst fuel) t1 t2 span)); [by destruct t1|].
  destruct (Ty_eqb t1 t2) eqn:Heq; [apply Ty_eqb_spec in Heq as <-; apply solved_nil, agree_refl|].
  destruct (same_ntir blake3 t1 t2) eqn:Hsn.
  - apply solved_nil, agree_ntir; [| |done]; unfold same_ntir in Hsn; rewrite !andb_true_iff, !is_ground_plain in Hsn by done;
      tauto.
  - apply match_solved; try done. intros ->. by rewrite (proj2 (Ty_eqb_spec t2 t2)) in Heq.
Qed.
End items.

Theorem mgu_total span n k t1 t2 :
  plain t1 = true → plain t2 = true → size (tvars t1 ∪ tvars t2) ≤ n → tsize t1 + tsize t2 ≤ k → fine t1 t2 →
  solved t1 t2 (λ fuel, mgu fuel t1 t2 span).
Proof.
  revert k t1 t2. induction n as [n IHn] using lt_wf_ind. intros k.
  induction k as [k IHk] using lt_wf_ind. intros t1 t2 Hp1 Hp2 Hn Hk Hfine.
  apply (mgu_solved (tvars t1 ∪ tvars t2) (tsize t1 + tsize t2)); try done.
  intros u1 u2 Hq1 Hq2 Hsub [Hlt|Hlt] Hfine'.
  - apply (IHn (size (tvars u1 ∪ tvars u2))) with (k := tsize u1 + tsize u2); try done.
    pose proof (subset_size _ _ Hlt). lia.
  - apply (IHk (tsize u1 + tsize u2)); try done; [lia|]. pose proof (subseteq_size _ _ Hsub). lia.
Qed.
End correct.

(** [C6] Unification.  The types are plain: no schemes, row tails, references to
    actors or applied variables, and nominal types and type constructors
    without variables ([mgu_skips_nested_nominal] shows why); variables under
    variants are allowed when there is a unifier ([mgu_cyclic] shows why).  On
    two such types, with enough fuel and for every state of the counter, [mgu]
    ends.  A substitution it returns makes the two types agree: they are equal
    up to the order of fields and variants, up to ground types of one
    structural form, up to effect rows that are compatible, and with [Never]
    agreeing with every type.  Every unifier of the two types factors through
    that substitution; when [mgu] returns an error they have no unifier. *)
Theorem mgu_correct (blake3 : bytes → bytes) (t1 t2 : Ty) (span : Span) :
  plain t1 = true → plain t2 = true → fine t1 t2 →
  ∃ r bound, (∀ fuel, bound ≤ fuel → ∀ counter, mgu blake3 fuel t1 t2 span counter = Some (r, counter)) ∧
    match r with
    | Ok s =>
        (∃ u1 u2 bound', agree blake3 u1 u2 ∧
           ∀ fuel, bound' ≤ fuel → apply_subst fuel t1 s = Some u1 ∧ apply_subst fuel t2 s = Some u2) ∧
        ∀ θ, tsubst θ t1 = tsubst θ t2 → ∀ v, tsubst θ (look s v) = θ v
    | Err _ => ∀ θ, tsubst θ t1 ≠ tsubst θ t2
    end.
Proof.
  intros Hp1 Hp2 Hfine.
  destruct (mgu_total blake3 span _ _ t1 t2 Hp1 Hp2 (le_n _) (le_n _) Hfine) as (r & [bound Hrun] & Hspec).
  exists r, bound. split; [done|]. destruct r as [s|e]; [|done].
  destruct Hspec as (Hg & Hag & Hmost & _). split; [|done].
  destruct (apply_ends _ s t1 Hg Hp1) as [n1 Hn1], (apply_ends _ s t2 Hg Hp2) as [n2 Hn2].
  exists (tsubst (look s) t1), (tsubst (look s) t2), (n1 + n2). split; [done|]. intros fuel Hf.
  split; [apply Hn1|apply Hn2]; lia.
Qed.

(** [('a, 'b)] with [([b], Int)]. *)
Lemma mgu_correct_witness :
  ∃ r bound, (∀ fuel, bound ≤ fuel → ∀ counter,
    mgu (λ bs, bs) fuel (TyTuple [TyVar 1; TyVar 2]) (TyTuple [TyArray (TyVar 2); TyPrimitive PInt]) (mkSpan 0 0) counter =
      Some (r, counter)) ∧
    match r with
    | Ok s => ∀ θ, θ 1%N = TyArray (TyPrimitive PInt) → θ 2%N = TyPrimitive PInt → ∀ v, tsubst θ (look s v) = θ v
    | Err _ => False
    end.
Proof.
  set (t1 := TyTuple [TyVar 1; TyVar 2]). set (t2 := TyTuple [TyArray (TyVar 2); TyPrimitive PInt]).
  destruct (mgu_correct (λ bs, bs) t1 t2 (mkSpan 0 0)) as (r & bound & Hrun & Hr); [done|done|by left|].
  exists r, bound. split; [done|]. destruct r as [s|e].
  - intros θ H1 H2. apply Hr. cbn. by rewrite H1, H2.
  - apply (Hr (λ v, if (v =? 1)%N then TyArray (TyPrimitive PInt) else TyPrimitive PInt)). done.
Defined.

(** ** Where agreement is weaker than equality *)

Lemma mgu_same_ntir blake3 fuel t1 t2 span c :
  Type_actor_ref_protocol t1 = None → Type_actor_ref_protocol t2 = None → same_ntir blake3 t1 t2 = true →
  mgu blake3 (S fuel) t1 t2 span c = Some (Ok [], c).
Proof.
  intros H1 H2 Hs.
  change (mgu_step blake3 fuel (mgu blake3 fuel) (compose_subst blake3 fuel) t1 t2 span c = Some (Ok [], c)).
  unfold mgu_step. rewrite H1, H2, Hs. destruct (is_never t1 || is_never t2), (Ty_eqb t1 t2); by destruct t1.
Qed.

(** Two rigid type parameters unify, although the arm for them wants the same
    parameter: their structural form is that of [Unit]. *)
Lemma mgu_skolems blake3 fuel i j span c : mgu blake3 (S fuel) (TySkolem i) (TySkolem j) span c = Some (Ok [], c).
Proof. apply mgu_same_ntir; [done|done|]. unfold same_ntir. by rewrite bool_decide_eq_true_2. Qed.

(** A type whose variables are below two nominal types of one name counts as
    ground, since [is_ground] does not enter a name twice: arrays of boxes of
    boxes unify without their contents being unified. *)
Lemma mgu_skips_nested_nominal blake3 fuel span c :
  let box t := TyNominal (str "Box") (TyRecord [(str "v", t)]) in
  let t1 := TyArray (box (box (TyVar 1))) in
  let t2 := TyArray (box (box (TyVar 2))) in
  mgu blake3 (S fuel) t1 t2 span c = Some (Ok [], c) ∧ t1 ≠ t2 ∧ Type_is_ground t1.
Proof.
  cbn zeta. split_and!; [|done|by vm_compute]. apply mgu_same_ntir; [done|done|].
  unfold same_ntir. rewrite !andb_true_iff. split_and!; try done. by apply bool_decide_eq_true_2.
Qed.

(** Ground functions unify whatever their effects. *)
Lemma mgu_ignores_effects blake3 fuel e1 e2 cap span c :
  mgu blake3 (S fuel) (TyFunction (TyPrimitive PInt) (TyPrimitive PInt) e1 cap)
    (TyFunction (TyPrimitive PInt) (TyPrimitive PInt) e2 cap) span c = Some (Ok [], c).
Proof. apply mgu_same_ntir; [done|done|]. unfold same_ntir. by rewrite bool_decide_eq_true_2. Qed.

(** An opaque type unifies with its representation below another constructor. *)
Lemma mgu_breaks_opacity blake3 fuel name span c :
  mgu blake3 (S fuel) (TyArray (TyNominal name (TyPrimitive PInt))) (TyArray (TyPrimitive PInt)) span c = Some (Ok [], c).
Proof. apply mgu_same_ntir; [done|done|]. unfold same_ntir. by rewrite bool_decide_eq_true_2. Qed.

(** The occurs check does not look into variants: the unifier returned is
    cyclic, and applying it has no result. *)
Lemma mgu_cyclic blake3 fuel name span c :
  let t := TyVariant [(name, Some (TyVar 1))] in
  mgu blake3 (S fuel) (TyVar 1) t span c = Some (Ok [(1%N, t)], c) ∧ ∀ fuel', apply_subst fuel' (TyVar 1) [(1%N, t)] = None.
Proof.
  split; [done|]. intros fuel'. induction fuel' as [fuel' IH] using lt_wf_ind.
  destruct fuel' as [|[|fuel']]; [done|done|]. cbn. by rewrite (IH fuel') by lia.
Qed.
