(* ===== verification/Schemes.v ===== *)
(** * Contexts and type schemes

    [src/types.rs] and [src/typechecker.rs]: typing contexts, generalisation over
    the variables that are free neither in the context nor under mutable
    storage, and instantiation with fresh variables.  Where the source walks a
    hash map or set, the order of the walk is a parameter. *)
From Stdlib Require Import String.
From S2P Require Import Prelude Bytes Text Types Unify UnifyCorrect.

Local Open Scope list_scope.
Local Open Scope N_scope.

(** ** Contexts *)

Abbreviation Binding := (Ty * Capability * bool)%type.

Record TypeContext := mkTypeContext {
  tc_bindings : gmap bytes Binding;
  tc_hidden : gset bytes;
  tc_entity_events : option (list (bytes * list (bytes * Ty)));
  tc_constraints : gmap TypeVar (list bytes);
}.

Definition TypeContext_new : TypeContext := mkTypeContext ∅ ∅ None ∅.

Definition TypeContext_bind (self : TypeContext) (name : bytes) (ty : Ty) (cap : Capability) (mutable : bool)
    : TypeContext :=
  mkTypeContext (<[name := (ty, cap, mutable)]> (tc_bindings self)) (tc_hidden self) (tc_entity_events self)
    (tc_constraints self).

Definition TypeContext_lookup (self : TypeContext) (name : bytes) : option Binding :=
  if bool_decide (name ∈ tc_hidden self) then None else tc_bindings self !! name.

Definition TypeContext_hide_names (self : TypeContext) (names : list bytes) : TypeContext :=
  mkTypeContext (tc_bindings self) (tc_hidden self ∪ list_to_set names) (tc_entity_events self) (tc_constraints self).

Definition TypeContext_seal_except (self : TypeContext) (names : list bytes) : TypeContext :=
  let to_hide := filter (λ k, k ∉ names) (elements (dom (tc_bindings self))) in
  mkTypeContext (tc_bindings self) (tc_hidden self ∪ list_to_set to_hide) (tc_entity_events self) (tc_constraints self).

Definition TypeContext_extend (self : TypeContext) (name : bytes) (ty : Ty) (cap : Capability) (mutable : bool)
    : TypeContext := TypeContext_bind self name ty cap mutable.

Definition TypeContext_set_entity_events (self : TypeContext) (events : list (bytes * list (bytes * Ty)))
    : TypeContext :=
  mkTypeContext (tc_bindings self) (tc_hidden self) (Some events) (tc_constraints self).

(** [constraints.entry(tv).or_default().push(class_name)] *)
Definition TypeContext_add_constraint (self : TypeContext) (tv : TypeVar) (class_name : bytes) : TypeContext :=
  mkTypeContext (tc_bindings self) (tc_hidden self) (tc_entity_events self)
    (<[tv := default [] (tc_constraints self !! tv) ++ [class_name]]> (tc_constraints self)).

Definition TypeContext_get_constraints (self : TypeContext) (tv : TypeVar) : option (list bytes) :=
  tc_constraints self !! tv.

Definition TypeContext_free_vars (self : TypeContext) : list TypeVar :=
  sort_dedup (concat (map (λ b, Type_free_vars b.2.1.1) (map_to_list (tc_bindings self)))).

(** The loops of [apply_subst_to_ctx], over bindings and over constraints. *)
Fixpoint substitute_bindings (fuel : nat) (subst : Substitution) (it : list (bytes * Binding)) (result : TypeContext)
    : option TypeContext :=
  match it with
  | [] => Some result
  | (name, (ty, cap, mutable)) :: it =>
      ty ← apply_subst fuel ty subst;
      substitute_bindings fuel subst it (TypeContext_bind result name ty cap mutable)
  end.
Fixpoint transfer_constraints (fuel : nat) (subst : Substitution) (it : list (TypeVar * list bytes))
    (result : TypeContext) : option TypeContext :=
  match it with
  | [] => Some result
  | (tv, class_names) :: it =>
      resolved ← apply_subst fuel (TyVar tv) subst;
      let result := match resolved with
                    | TyVar tv2 => foldl (λ r cn, TypeContext_add_constraint r tv2 cn) result class_names
                    | _ => result
                    end in
      transfer_constraints fuel subst it result
  end.

Definition apply_subst_to_ctx (fuel : nat) (ctx : TypeContext) (subst : Substitution)
    (constraint_order : list (TypeVar * list bytes)) : option TypeContext :=
  match subst with
  | [] => Some ctx
  | _ =>
      let result := mkTypeContext ∅ ∅ (tc_entity_events ctx) ∅ in
      result ← substitute_bindings fuel subst (map_to_list (tc_bindings ctx)) result;
      transfer_constraints fuel subst constraint_order result
  end.

(** ** Schemes *)

(** Each variable of a scheme with a fresh one. *)
Fixpoint fresh_for (vars : list TypeVar) : Check Substitution :=
  match vars with
  | [] => mret []
  | v :: vars => w ← TypeVar_fresh; s ← fresh_for vars; mret ((v, TyVar w) :: s)
  end.

Definition instantiate (fuel : nat) (ty : Ty) : Check Ty :=
  match ty with
  | TyScheme vars body => subst ← fresh_for vars; check_lift (apply_subst fuel body subst)
  | _ => mret ty
  end.

(** The map and the list are threaded through. *)
Abbreviation Skolems := (gmap N TypeVar * list TypeVar)%type.

Definition collect_list {A} (collect : A → Skolems → Check Skolems) : list A → Skolems → Check Skolems :=
  fix go l acc :=
    match l with
    | [] => mret acc
    | x :: l => acc ← collect x acc; go l acc
    end.

Fixpoint collect_skolems (ty : Ty) (acc : Skolems) : Check Skolems :=
  match ty with
  | TySkolem id =>
      match acc.1 !! id with
      | Some _ => mret acc
      | None => tv ← TypeVar_fresh; mret (<[id := tv]> acc.1, acc.2 ++ [tv])
      end
  | TyTuple ts => collect_list collect_skolems ts acc
  | TyRecord fs => collect_list (λ f acc, let '(_, t) := f in collect_skolems t acc) fs acc
  | TyVariant vs =>
      collect_list (λ f acc, let '(_, o) := f in match o with Some t => collect_skolems t acc | None => mret acc end)
        vs acc
  | TyArray t | TyReference _ t | TyScheme _ t | TyNominal _ t => collect_skolems t acc
  | TyFunction a b _ _ | TyActor a b => acc ← collect_skolems a acc; collect_skolems b acc
  | TyApp c args =>
      acc ← collect_skolems c acc;
      collect_list collect_skolems args acc
  | TyVar _ | TyPrimitive _ => mret acc
  end.

Definition check_map {A B} (f : A → Check B) : list A → Check (list B) :=
  fix go l :=
    match l with
    | [] => mret []
    | x :: l => y ← f x; ys ← go l; mret (y :: ys)
    end.

Fixpoint replace_skolems_in_type (ty : Ty) (m : gmap N TypeVar) : Check Ty :=
  match ty with
  | TyVar _ | TyPrimitive _ => mret ty
  | TySkolem id => match m !! id with Some v => mret (TyVar v) | None => v ← TypeVar_fresh; mret (TyVar v) end
  | TyTuple ts => ts ← check_map (λ t, replace_skolems_in_type t m) ts; mret (TyTuple ts)
  | TyRecord fs =>
      fs ← check_map (λ f, let '(n, t) := f in t ← replace_skolems_in_type t m; mret (n, t)) fs; mret (TyRecord fs)
  | TyVariant vs =>
      vs ← check_map (λ f, let '(n, o) := f in
                           match o with
                           | Some t => t ← replace_skolems_in_type t m; mret (n, Some t)
                           | None => mret (n, None)
                           end) vs;
      mret (TyVariant vs)
  | TyArray t => t ← replace_skolems_in_type t m; mret (TyArray t)
  | TyFunction param ret effect cap =>
      param ← replace_skolems_in_type param m;
      ret ← replace_skolems_in_type ret m;
      mret (TyFunction param ret effect cap)
  | TyActor state behavior =>
      state ← replace_skolems_in_type state m;
      behavior ← replace_skolems_in_type behavior m;
      mret (TyActor state behavior)
  | TyApp constructor args =>
      constructor ← replace_skolems_in_type constructor m;
      args ← check_map (λ t, replace_skolems_in_type t m) args;
      mret (TyApp constructor args)
  | TyReference cap inner => inner ← replace_skolems_in_type inner m; mret (TyReference cap inner)
  | TyScheme vars body => body ← replace_skolems_in_type body m; mret (TyScheme vars body)
  | TyNominal name underlying => underlying ← replace_skolems_in_type underlying m; mret (TyNominal name underlying)
  end.

Section generalize.
(** The order in which a set of variables is walked. *)
Context (order : gset TypeVar → list TypeVar).

Definition do_generalize_impl (ctx : TypeContext) (ty : Ty) (apply_value_restriction : bool) : Check Ty :=
  '(skolem_to_var, skolem_vars) ← collect_skolems ty (∅, []);
  body ← (if bool_decide (skolem_to_var = ∅) then mret ty else replace_skolems_in_type ty skolem_to_var);
  let ty_fv : gset TypeVar := list_to_set (Type_free_vars body) in
  let ctx_fv : gset TypeVar := list_to_set (TypeContext_free_vars ctx) in
  let ref_fv : gset TypeVar := if apply_value_restriction then list_to_set (Type_ref_free_vars body) else ∅ in
  let gen_vars := filter (λ v, v ∉ ref_fv) (order (ty_fv ∖ ctx_fv)) ++ skolem_vars in
  mret match gen_vars with [] => body | _ => TyScheme gen_vars body end.

Definition do_generalize (ctx : TypeContext) (ty : Ty) : Check Ty := do_generalize_impl ctx ty true.
Definition do_generalize_constructor (ctx : TypeContext) (ty : Ty) : Check Ty := do_generalize_impl ctx ty false.
End generalize.

(** ** Sorted variables *)

Lemma elem_of_dedup l x : x ∈ dedup l ↔ x ∈ l.
Proof.
  induction l as [|y l IH]; [done|]. cbn. rewrite elem_of_cons, <-IH. destruct (dedup l) as [|z l']; [set_solver|].
  destruct (N.eqb_spec y z) as [->|]; set_solver.
Qed.

Lemma elem_of_sort_dedup l x : x ∈ sort_dedup l ↔ x ∈ l.
Proof. unfold sort_dedup. by rewrite elem_of_dedup, sort_by_perm. Qed.

Lemma elem_of_free_vars t v : plain t = true → v ∈ Type_free_vars t ↔ v ∈ tvars t.
Proof.
  intros Hp. unfold Type_free_vars. rewrite elem_of_sort_dedup, collect_free_vars_plain by done. cbn.
  apply elem_of_vars_of.
Qed.

(** ** Free and stored variables *)

(** [v] is free in the type of a binding, which may be a scheme. *)
Definition free_in (t : Ty) (v : TypeVar) : Prop :=
  match t with TyScheme vars body => v ∈ tvars body ∧ v ∉ vars | _ => v ∈ tvars t end.

Definition plain_scheme (t : Ty) : bool := match t with TyScheme _ body => plain body | _ => plain t end.

Definition free_in_context (ctx : TypeContext) (v : TypeVar) : Prop :=
  ∃ x b, tc_bindings ctx !! x = Some b ∧ free_in b.1.1 v.

Definition plain_context (ctx : TypeContext) : Prop :=
  ∀ x b, tc_bindings ctx !! x = Some b → plain_scheme b.1.1 = true.

(** [v] occurs beneath mutable storage, a reference or an array, of a value of
    the type; the cells of a function's parameters and results are made per
    call. *)
Inductive stored (v : TypeVar) : Ty → Prop :=
  | stored_reference cap t : v ∈ tvars t → stored v (TyReference cap t)
  | stored_array t : v ∈ tvars t → stored v (TyArray t)
  | stored_tuple ts t : t ∈ ts → stored v t → stored v (TyTuple ts)
  | stored_record fs n t : (n, t) ∈ fs → stored v t → stored v (TyRecord fs)
  | stored_variant vs n t : (n, Some t) ∈ vs → stored v t → stored v (TyVariant vs)
  | stored_state a b : stored v a → stored v (TyActor a b)
  | stored_behavior a b : stored v b → stored v (TyActor a b)
  | stored_constructor c args : stored v c → stored v (TyApp c args)
  | stored_arg c args t : t ∈ args → stored v t → stored v (TyApp c args)
  | stored_nominal n t : stored v t → stored v (TyNominal n t).

Lemma free_vars_scheme t v : plain_scheme t = true → v ∈ Type_free_vars t ↔ free_in t v.
Proof.
  intros Hp. destruct t; try (by apply elem_of_free_vars). simpl in *.
  unfold Type_free_vars. rewrite elem_of_sort_dedup. cbn.
  rewrite list_elem_of_filter, collect_free_vars_plain by done. cbn. rewrite elem_of_vars_of. tauto.
Qed.

Lemma elem_of_context_free_vars ctx v :
  plain_context ctx → v ∈ TypeContext_free_vars ctx ↔ free_in_context ctx v.
Proof.
  intros Hp. unfold TypeContext_free_vars, free_in_context. rewrite elem_of_sort_dedup, elem_of_concat_map. split.
  - intros ([x b] & Hb%elem_of_map_to_list & Hv). exists x, b. split; [done|].
    by apply free_vars_scheme; [apply (Hp x)|].
  - intros (x & b & Hb & Hv). exists (x, b). split; [by apply elem_of_map_to_list|].
    by apply free_vars_scheme; [apply (Hp x)|].
Qed.

Lemma collect_storage_plain t acc stack :
  plain t = true → Type_collect_storage_free_vars t acc stack = acc ++ vars_of t.
Proof.
  revert acc stack.
  induction t as [v|p|ts IH|fs IH|vs IH|t IH|a b e c IHa IHb|a b IHa IHb|c args IHc IH|c t IH|vars t IH|n t IH|i]
    using Ty_ind'; cbn -[bool_decide ground]; intros acc stack Hp; rewrite ?andb_true_iff in Hp;
    try done; try (by rewrite (right_id_L [] (++))); try (by apply IH).
  - apply fold_left_collect. rewrite forallb_forall in Hp. eapply Forall_impl_elem; [exact IH|].
    intros t Ht%list_elem_of_In IHt acc'. by apply IHt, Hp.
  - erewrite fold_left_collect; [done|]. rewrite forallb_forall in Hp. eapply Forall_impl_elem; [exact IH|].
    intros [n t] Ht%list_elem_of_In IHt acc'. apply Hp, andb_true_iff in Ht as [_ ?]. by apply IHt.
  - erewrite fold_left_collect; [done|]. rewrite forallb_forall in Hp. eapply Forall_impl_elem; [exact IH|].
    intros [n [t|]] Ht%list_elem_of_In IHt acc'; [by apply IHt, (Hp _ Ht)|by rewrite (right_id_L [] (++))].
  - destruct Hp. by rewrite IHa, IHb, (assoc_L (++)).
  - destruct Hp. by rewrite IHa, IHb, (assoc_L (++)).
  - destruct Hp as [[[_ Hc] _] Hp]. rewrite IHc, (assoc_L (++)) by done. apply fold_left_collect.
    rewrite forallb_forall in Hp. eapply Forall_impl_elem; [exact IH|].
    intros t Ht%list_elem_of_In IHt acc'. by apply IHt, Hp.
  - destruct Hp as [Hg Hp]. rewrite IH by done. apply ground_vars_of in Hg. rewrite Hg, (right_id_L [] (++)).
    by destruct (bool_decide _).
Qed.

Lemma elem_of_storage t acc stack v :
  plain t = true → v ∈ Type_collect_storage_free_vars t acc stack ↔ v ∈ acc ∨ v ∈ tvars t.
Proof. intros Hp. by rewrite collect_storage_plain, elem_of_app, elem_of_vars_of. Qed.

Lemma elem_of_fold_collect {A} (f : list TypeVar → A → list TypeVar) (P : A → Prop) l acc (v : TypeVar) :
  (∀ x, x ∈ l → ∀ acc, v ∈ f acc x ↔ v ∈ acc ∨ P x) → v ∈ fold_left f l acc ↔ v ∈ acc ∨ ∃ x, x ∈ l ∧ P x.
Proof.
  revert acc. induction l as [|x l IH]; intros acc Hf; cbn; [set_solver|].
  rewrite IH by set_solver. rewrite Hf by set_solver. set_solver.
Qed.

Lemma elem_of_collect_ref t acc v :
  plain t = true → v ∈ Type_collect_ref_free_vars t acc ↔ v ∈ acc ∨ stored v t.
Proof.
  revert acc.
  induction t as [w|p|ts IH|fs IH|vs IH|t IH|a b e c IHa IHb|a b IHa IHb|c args IHc IH|c t IH|vars t IH|n t IH|i]
    using Ty_ind'; intros acc Hp; cbn -[bool_decide ground] in *; rewrite ?andb_true_iff in Hp;
    try rewrite Forall_forall in IH; try done; try (split; [tauto|]; intros [?|Hs]; [done|inversion Hs]).
  - rewrite forallb_forall in Hp. rewrite (elem_of_fold_collect _ (stored v)).
    2: { intros t Ht acc'. apply IH; [done|]. by apply Hp, list_elem_of_In. }
    split; [|intros [?|Hs]; [tauto|inversion Hs; subst; eauto]]. intros [?|(t & Ht & Hs)]; eauto using stored.
  - rewrite forallb_forall in Hp. rewrite (elem_of_fold_collect _ (λ f, stored v f.2)).
    2: { intros [n t] Ht acc'. apply (IH (n, t) Ht). apply list_elem_of_In, Hp, andb_true_iff in Ht as [_ ?]. done. }
    split; [|intros [?|Hs]; [tauto|inversion Hs; subst; eauto]]. intros [?|([n t] & Ht & Hs)]; eauto using stored.
  - rewrite forallb_forall in Hp. rewrite (elem_of_fold_collect _ (λ f, match f.2 with Some t => stored v t | None => False end)).
    2: { intros [n [t|]] Ht acc'; cbn; [|tauto]. apply (IH (n, Some t) Ht). by apply (Hp (n, Some t)), list_elem_of_In. }
    split; [|intros [?|Hs]; [tauto|inversion Hs; subst; right; eexists (_, Some _); by split]].
    intros [?|([n [t|]] & Ht & Hs)]; [tauto|eauto using stored|done].
  - rewrite elem_of_storage by done. split; [intros [?|?]; eauto using stored|].
    intros [?|Hs]; [tauto|inversion Hs; tauto].
  - destruct Hp. rewrite IHb, IHa by done. split; [intros [[?|?]|?]; eauto using stored|].
    intros [?|Hs]; [tauto|inversion Hs; tauto].
  - destruct Hp as [[[_ Hc] _] Hp]. rewrite forallb_forall in Hp. rewrite (elem_of_fold_collect _ (stored v)).
    2: { intros t Ht acc'. apply IH; [done|]. by apply Hp, list_elem_of_In. }
    rewrite IHc by done. split; [intros [[?|?]|(t & Ht & Hs)]; eauto using stored|].
    intros [?|Hs]; [tauto|inversion Hs; subst; eauto].
  - rewrite elem_of_storage by done. split; [intros [?|?]; eauto using stored|].
    intros [?|Hs]; [tauto|inversion Hs; tauto].
  - destruct Hp as [_ Hp]. rewrite IH by done. split; [intros [?|?]; eauto using stored|].
    intros [?|Hs]; [tauto|inversion Hs; tauto].
Qed.

Lemma elem_of_ref_free_vars t v : plain t = true → v ∈ Type_ref_free_vars t ↔ stored v t.
Proof.
  intros Hp. unfold Type_ref_free_vars. rewrite elem_of_sort_dedup, elem_of_collect_ref by done. set_solver.
Qed.

(** ** Generalisation and instantiation *)

Fixpoint skolem_free (t : Ty) : bool :=
  match t with
  | TySkolem _ => false
  | TyVar _ | TyPrimitive _ => true
  | TyTuple ts => forallb skolem_free ts
  | TyRecord fs => forallb (λ '(_, t), skolem_free t) fs
  | TyVariant vs => forallb (λ '(_, o), match o with Some t => skolem_free t | None => true end) vs
  | TyArray t | TyReference _ t | TyScheme _ t | TyNominal _ t => skolem_free t
  | TyFunction a b _ _ | TyActor a b => skolem_free a && skolem_free b
  | TyApp c args => skolem_free c && forallb skolem_free args
  end.

Lemma collect_list_id {A} (f : A → Skolems → Check Skolems) l acc c :
  Forall (λ x, ∀ acc c, f x acc c = Some (Ok acc, c)) l → collect_list f l acc c = Some (Ok acc, c).
Proof.
  intros Hf. revert acc c. induction Hf as [|x l Hx _ IH]; intros acc c; [done|]. cbn.
  unfold mbind, check_bind. by rewrite Hx.
Qed.

Lemma collect_skolems_free t acc c : skolem_free t = true → collect_skolems t acc c = Some (Ok acc, c).
Proof.
  revert acc c. induction t as [v|p|ts IH|fs IH|vs IH|t IH|a b e cp IHa IHb|a b IHa IHb|k args IHk IH|cp t IH|vars t IH
    |n t IH|i] using Ty_ind'; intros acc c Hs; cbn in *; try done; try (by apply IH).
  - apply collect_list_id. rewrite forallb_forall in Hs. eapply Forall_impl_elem; [exact IH|].
    intros t Ht%list_elem_of_In IHt acc' c'. apply IHt. auto.
  - apply collect_list_id. rewrite forallb_forall in Hs. eapply Forall_impl_elem; [exact IH|].
    intros [n t] Ht%list_elem_of_In IHt acc' c'. apply IHt, (Hs _ Ht).
  - apply collect_list_id. rewrite forallb_forall in Hs. eapply Forall_impl_elem; [exact IH|].
    intros [n [t|]] Ht%list_elem_of_In IHt acc' c'; [|done]. apply IHt, (Hs _ Ht).
  - apply andb_true_iff in Hs as [Ha Hb]. unfold mbind, check_bind. rewrite IHa by done. by apply IHb.
  - apply andb_true_iff in Hs as [Ha Hb]. unfold mbind, check_bind. rewrite IHa by done. by apply IHb.
  - apply andb_true_iff in Hs as [Hk Ha]. unfold mbind, check_bind. rewrite IHk by done.
    apply collect_list_id. rewrite forallb_forall in Ha. eapply Forall_impl_elem; [exact IH|].
    intros t Ht%list_elem_of_In IHt acc' c'. apply IHt. auto.
Qed.

(** The fresh variables from [c] on. *)
Fixpoint fresh_subst (c : N) (vars : list TypeVar) : Substitution :=
  match vars with [] => [] | v :: vars => (v, TyVar c) :: fresh_subst (c + 1) vars end.

Lemma fresh_for_run vars c : c + len vars < U64 → fresh_for vars c = Some (Ok (fresh_subst c vars), c + len vars).
Proof.
  revert c. induction vars as [|v vars IH]; intros c Hc; [by rewrite N.add_0_r|].
  rewrite len_cons in *. cbn. unfold mbind, check_bind, TypeVar_fresh. rewrite wrapping_add64_small by lia.
  rewrite IH by lia. unfold mret, check_ret. do 2 f_equal. lia.
Qed.

Lemma fresh_subst_lookup c vars v :
  match find_binding v (fresh_subst c vars) with
  | Some t => v ∈ vars ∧ ∃ w, t = TyVar w ∧ c ≤ w
  | None => v ∉ vars
  end.
Proof.
  revert c. induction vars as [|u vars IH]; intros c; cbn; [set_solver|].
  destruct (N.eqb_spec u v) as [->|Hne].
  - split; [left|]. exists c. split; [done|lia].
  - specialize (IH (c + 1)). destruct (find_binding v (fresh_subst (c + 1) vars)).
    + destruct IH as (Hv & w & -> & Hw). split; [by right|]. exists w. split; [done|lia].
    + set_solver.
Qed.

Lemma fresh_subst_inj c vars v v' t :
  find_binding v (fresh_subst c vars) = Some t → find_binding v' (fresh_subst c vars) = Some t → v = v'.
Proof.
  revert c. induction vars as [|u vars IH]; intros c; cbn; [done|].
  pose proof (fresh_subst_lookup (c + 1) vars) as Hl.
  destruct (N.eqb_spec u v) as [E1|E1], (N.eqb_spec u v') as [E2|E2]; intros H1 H2; [congruence|..].
  - injection H1 as <-. specialize (Hl v'). rewrite H2 in Hl. destruct Hl as (_ & w & [= <-] & Hw). lia.
  - injection H2 as <-. specialize (Hl v). rewrite H1 in Hl. destruct Hl as (_ & w & [= <-] & Hw). lia.
  - by eapply IH.
Qed.

Section generalize_ok.
Context (order : gset TypeVar → list TypeVar) (Horder : ∀ X, order X ≡ₚ elements X).

(** The variables that a binding shares with its context or, under the value
    restriction, with mutable storage. *)
Definition monomorphic (ctx : TypeContext) (restrict : bool) (t : Ty) (v : TypeVar) : Prop :=
  free_in_context ctx v ∨ (restrict = true ∧ stored v t).

Definition quantified (ctx : TypeContext) (restrict : bool) (t : Ty) : list TypeVar :=
  filter (λ v, v ∉ (if restrict then list_to_set (Type_ref_free_vars t) else ∅ : gset TypeVar))
    (order (list_to_set (Type_free_vars t) ∖ list_to_set (TypeContext_free_vars ctx))).

Definition scheme_of (vars : list TypeVar) (t : Ty) : Ty := match vars with [] => t | _ => TyScheme vars t end.

Lemma elem_of_quantified ctx restrict t v :
  plain_context ctx → plain t = true → v ∈ quantified ctx restrict t ↔ v ∈ tvars t ∧ ¬ monomorphic ctx restrict t v.
Proof.
  intros Hctx Hp. unfold quantified, monomorphic. rewrite list_elem_of_filter, Horder, elem_of_elements, elem_of_difference,
    !elem_of_list_to_set, elem_of_free_vars, elem_of_context_free_vars by done.
  destruct restrict; [rewrite elem_of_list_to_set, elem_of_ref_free_vars by done|]; set_solver.
Qed.

Lemma quantified_len ctx restrict t :
  plain_context ctx → plain t = true → len (quantified ctx restrict t) ≤ N.of_nat (size (tvars t)).
Proof.
  intros Hctx Hp. unfold len. assert (NoDup (quantified ctx restrict t)) as Hnd.
  { apply NoDup_filter. rewrite Horder. apply NoDup_elements. }
  rewrite <-(size_list_to_set (C:=gset N) _ Hnd).
  assert ((list_to_set (quantified ctx restrict t) : gset N) ⊆ tvars t) as ?%subseteq_size; [|lia].
  intros v Hv%elem_of_list_to_set. by apply elem_of_quantified in Hv as [? _].
Qed.

Lemma generalize_run ctx t restrict c :
  skolem_free t = true →
  do_generalize_impl order ctx t restrict c =
    Some (Ok (scheme_of (quantified ctx restrict t) t), c).
Proof.
  intros Hs. unfold do_generalize_impl. unfold mbind at 1, check_bind at 1. rewrite collect_skolems_free by done.
  rewrite bool_decide_eq_true_2 by done. unfold mbind, check_bind, mret, check_ret.
  rewrite (right_id_L [] (++)). unfold quantified. by destruct (filter _ _).
Qed.

Lemma instantiate_run vars t c :
  plain t = true → vars ≠ [] → (∀ v, v ∈ vars → v < c) → c + len vars < U64 →
  ∃ bound, ∀ fuel, (bound ≤ fuel)%nat →
    instantiate fuel (TyScheme vars t) c = Some (Ok (tsubst (look (fresh_subst c vars)) t), c + len vars).
Proof.
  intros Hp Hne Hlt Hc. exists (tsize t + 1)%nat. intros fuel Hf. cbn. unfold mbind, check_bind.
  rewrite fresh_for_run by done. unfold check_lift.
  rewrite (apply_subst_map _ (look (fresh_subst c vars)) 1); [done|done| |lia].
  intros v _ [|fuel'] Hf'; [lia|]. unfold look. pose proof (fresh_subst_lookup c vars v) as Hl.
  destruct (find_binding v (fresh_subst c vars)) as [r|]; [|done]. destruct Hl as (_ & w & -> & Hw). cbn.
  pose proof (fresh_subst_lookup c vars w) as Hl'. destruct (find_binding w (fresh_subst c vars)); [|done].
  destruct Hl' as [?%Hlt _]. lia.
Qed.

(** [C19] A generalised type, instantiated again, is the type itself with new names
    for some of its variables: those free in the type of a binding of the
    context stay, so do those beneath references and arrays when the value
    restriction applies, and the others become distinct variables that occur
    nowhere else.  This holds for every order in which the source walks its
    sets of variables; for types without schemes, row tails, rigid parameters
    and variables in nominal types or in type constructors; for contexts that
    bind such types or schemes over them; and for variables below the counter
    of fresh ones, which does not wrap.  [generalize_skolem_escapes] shows what
    becomes of rigid parameters, [free_vars_scheme_drops] of nested schemes. *)
Theorem generalize_instantiate ctx t restrict c :
  plain_context ctx → plain t = true → skolem_free t = true →
  (∀ v, v ∈ tvars t → v < c) → c + N.of_nat (size (tvars t)) < U64 →
  ∃ g ρ bound, do_generalize_impl order ctx t restrict c = Some (Ok g, c) ∧
    (∀ fuel, (bound ≤ fuel)%nat → ∃ c', instantiate fuel g c = Some (Ok (tsubst ρ t), c')) ∧
    (∀ v, v ∈ tvars t → monomorphic ctx restrict t v → ρ v = TyVar v) ∧
    (∀ v, v ∈ tvars t → ¬ monomorphic ctx restrict t v → ∃ w, ρ v = TyVar w ∧ c ≤ w) ∧
    (∀ v w, v ∈ tvars t → w ∈ tvars t → ρ v = ρ w → v = w).
Proof.
  intros Hctx Hp Hs Hlt Hc. pose proof (generalize_run ctx t restrict c Hs) as Hgen.
  pose proof (λ v, elem_of_quantified ctx restrict t v Hctx Hp) as Hq.
  pose proof (quantified_len ctx restrict t Hctx Hp) as Hlen.
  set (vars := quantified ctx restrict t) in *. set (ρ := look (fresh_subst c vars)).
  assert (∀ v, v ∉ vars → ρ v = TyVar v) as Hout.
  { intros v Hv. unfold ρ, look. pose proof (fresh_subst_lookup c vars v) as Hl.
    destruct (find_binding v (fresh_subst c vars)); [by destruct Hl|done]. }
  assert (∀ v, v ∈ vars → ∃ w, find_binding v (fresh_subst c vars) = Some (TyVar w) ∧ ρ v = TyVar w ∧ c ≤ w) as Hin.
  { intros v Hv. unfold ρ, look. pose proof (fresh_subst_lookup c vars v) as Hl.
    destruct (find_binding v (fresh_subst c vars)) as [r|]; [|done]. destruct Hl as (_ & w & -> & Hw). by exists w. }
  assert (∃ bound, ∀ fuel, (bound ≤ fuel)%nat → ∃ c',
    instantiate fuel (scheme_of vars t) c = Some (Ok (tsubst ρ t), c')) as [bound Hrun].
  { destruct vars as [|v vars'] eqn:Hvars.
    - exists 0%nat. intros fuel _. exists c. unfold ρ. rewrite look_nil. by destruct t.
    - destruct (instantiate_run (v :: vars') t c Hp) as [bound Hrun]; [done|by intros w [? _]%Hq; auto|lia|].
      exists bound. intros fuel Hf. eexists. by apply Hrun. }
  exists (scheme_of vars t), ρ, bound.
  split_and!; [exact Hgen|exact Hrun| | |].
  - intros v Hv Hm. apply Hout. intros [_ ?]%Hq; done.
  - intros v Hv Hm. destruct (Hin v) as (w & _ & Hw); [by apply Hq|]. by exists w.
  - intros v w Hv Hw Heq. destruct (decide (v ∈ vars)) as [Hv'|Hv'], (decide (w ∈ vars)) as [Hw'|Hw'].
    + destruct (Hin v Hv') as (x & Hx & Hx' & _), (Hin w Hw') as (y & Hy & Hy' & _).
      eapply fresh_subst_inj; [exact Hx|]. rewrite Hy. congruence.
    + destruct (Hin v Hv') as (x & _ & Hx & Hle). rewrite Hx, (Hout w Hw') in Heq. injection Heq as ->.
      pose proof (Hlt _ Hw). lia.
    + destruct (Hin w Hw') as (x & _ & Hx & Hle). rewrite Hx, (Hout v Hv') in Heq. injection Heq as <-.
      pose proof (Hlt _ Hv). lia.
    + rewrite (Hout v Hv'), (Hout w Hw') in Heq. by injection Heq.
Qed.
End generalize_ok.

Definition one_binding : TypeContext :=
  TypeContext_bind TypeContext_new (str "x") (TyVar 1) Ref false.

(** A pair of a function from the type of [x] and a reference, in the context
    of [x]: the variables of [x] and of the cell stay, the third is renamed. *)
Lemma generalize_instantiate_witness :
  let t := TyTuple [TyFunction (TyVar 1) (TyVar 3) EffectRow_empty Ref; TyReference Ref (TyVar 2)] in
  ∃ g ρ bound, do_generalize_impl elements one_binding t true 10 = Some (Ok g, 10) ∧
    (∀ fuel, (bound ≤ fuel)%nat → ∃ c', instantiate fuel g 10 = Some (Ok (tsubst ρ t), c')) ∧
    ρ 1 = TyVar 1 ∧ ρ 2 = TyVar 2 ∧ ∃ w, ρ 3 = TyVar w ∧ 10 ≤ w.
Proof.
  set (t := TyTuple [TyFunction (TyVar 1) (TyVar 3) EffectRow_empty Ref; TyReference Ref (TyVar 2)]).
  assert (∀ x b, tc_bindings one_binding !! x = Some b → b = (TyVar 1, Ref, false)) as Hone.
  { intros x b Hb. unfold one_binding, TypeContext_bind in Hb. cbn [tc_bindings TypeContext_new] in Hb.
    by apply lookup_insert_Some in Hb as [[_ <-]|[_ ?%lookup_empty_Some]]. }
  destruct (generalize_instantiate elements (λ _, reflexivity _) one_binding t true 10)
    as (g & ρ & bound & Hg & Hi & Hmono & Hfresh & _); [by intros x b ->%Hone|done|done| |done|].
  { intros v Hv. cbn in Hv. assert (v = 1 ∨ v = 2 ∨ v = 3) by set_solver. lia. }
  exists g, ρ, bound. split_and!; [done|done|..].
  - apply Hmono; [cbn; set_solver|]. left. exists (str "x"), (TyVar 1, Ref, false).
    split; [apply lookup_insert_eq|cbn; set_solver].
  - apply Hmono; [cbn; set_solver|]. right. split; [done|].
    eapply stored_tuple; [right; left|]. apply stored_reference. cbn. set_solver.
  - apply Hfresh; [cbn; set_solver|]. intros [(x & b & ->%Hone & Hv)|[_ Hs]].
    + cbn in Hv. by apply elem_of_singleton in Hv.
    + inversion Hs as [| |? ? Ht Hs'| | | | | | |]; subst. apply elem_of_cons in Ht as [->|Ht%list_elem_of_singleton].
      * inversion Hs'.
      * subst. inversion Hs' as [? ? Hv| | | | | | | | |]; subst. cbn in Hv. by apply elem_of_singleton in Hv.
Defined.

(** ** Where the checker is too generous *)

(** Leaving a scheme drops its variables from everything collected so far: a
    variable that is free to the left of a nested scheme binding the same
    name is not reported. *)
Lemma free_vars_scheme_drops :
  Type_free_vars (TyTuple [TyVar 1; TyScheme [1] (TyVar 1)]) = [] ∧
  Type_free_vars (TyTuple [TyScheme [1] (TyVar 1); TyVar 1]) = [1].
Proof. by vm_compute. Qed.

(** A rigid type parameter, which stands for one unknown type in the whole body of
    its function, becomes a variable of its own when a local binding of that
    type is generalised: each use of the binding may then have another type. *)
Lemma generalize_skolem_escapes i fuel :
  let ctx := TypeContext_bind TypeContext_new (str "x") (TySkolem i) Ref false in
  ∃ g, do_generalize elements ctx (TySkolem i) 1 = Some (Ok g, 2) ∧
    instantiate (S (S fuel)) g 2 = Some (Ok (TyVar 2), 4) ∧ instantiate (S (S fuel)) g 4 = Some (Ok (TyVar 4), 6).
Proof.
  exists (TyScheme [1; 1] (TyVar 1)). split; [|done]. unfold do_generalize, do_generalize_impl.
  unfold mbind, check_bind. cbn [collect_skolems fst snd]. rewrite lookup_empty.
  unfold mbind, check_bind, TypeVar_fresh, mret, check_ret. rewrite bool_decide_eq_false_2 by apply insert_non_empty.
  cbn [replace_skolems_in_type]. rewrite lookup_insert_eq. unfold mret, check_ret.
  assert (TypeContext_free_vars (TypeContext_bind TypeContext_new (str "x") (TySkolem i) Ref false) = []) as ->.
  { unfold TypeContext_free_vars, TypeContext_bind, TypeContext_new. cbn [tc_bindings].
    rewrite insert_empty. by rewrite map_to_list_singleton. }
  done.
Qed.

Lemma substitute_bindings_hidden fuel subst it ctx ctx' :
  substitute_bindings fuel subst it ctx = Some ctx' → tc_hidden ctx' = tc_hidden ctx.
Proof.
  revert ctx. induction it as [|[name [[ty cap] mutable]] it IH]; intros ctx; cbn; [by intros [= ->]|].
  destruct (apply_subst fuel ty subst); [|done]. cbn. by intros ->%IH.
Qed.

Lemma add_constraints_hidden tv names ctx :
  tc_hidden (foldl (λ r cn, TypeContext_add_constraint r tv cn) ctx names) = tc_hidden ctx.
Proof. revert ctx. induction names as [|n names IH]; intros ctx; [done|]. cbn. by rewrite IH. Qed.

Lemma transfer_constraints_hidden fuel subst it ctx ctx' :
  transfer_constraints fuel subst it ctx = Some ctx' → tc_hidden ctx' = tc_hidden ctx.
Proof.
  revert ctx. induction it as [|[tv names] it IH]; intros ctx; cbn [transfer_constraints]; [by intros [= ->]|].
  destruct (apply_subst fuel (TyVar tv) subst) as [r|]; [|done]. cbn. intros ->%IH.
  destruct r; try done. apply add_constraints_hidden.
Qed.

(** Substituting into a context makes names visible again that [hide] or [seal]
    have hidden. *)
Lemma apply_subst_to_ctx_unhides fuel ctx subst order ctx' :
  subst ≠ [] → apply_subst_to_ctx fuel ctx subst order = Some ctx' → tc_hidden ctx' = ∅.
Proof.
  intros Hne. unfold apply_subst_to_ctx. destruct subst as [|b subst]; [done|].
  destruct (substitute_bindings _ _ _ _) as [c|] eqn:Hc; [|done]. cbn.
  intros ->%transfer_constraints_hidden. by apply substitute_bindings_hidden in Hc.
Qed.
