(* ===== verification/FabricStore.v ===== *)
(** * Fabric streams: the store of one stream

    [src/runtime/fabric_stream.rs]: the durable log of a stream with its committed
    boundary, cursors, replication policy, epoch promise, epoch transition,
    replication intents and replica progress.  The model is of one stream, since
    the operations of the source touch only the directory of the stream they
    name.  Files hold values; the JSON they are written in comes from a crate. *)
From Stdlib Require Import String.
From S2P Require Import Prelude Bytes Text.

Local Open Scope list_scope.
Local Open Scope N_scope.

(** ** Data *)

(** [io::ErrorKind]: the kinds the source makes, and those of the system.  The
    texts of errors are left out. *)
Inductive FabricError :=
| NotFound | InvalidInput | InvalidData | AlreadyExists | PermissionDenied | WouldBlock | Unsupported
| NotConnected | UnexpectedEof | Other | SystemError (code : N).

#[global] Instance FabricError_eq_dec : EqDecision FabricError.
Proof. solve_decision. Defined.

Definition SEGMENT_HEADER_LEN : N := 4 + 2 + 8.
Definition RECORD_HEADER_LEN : N := 8 + 4 + 16.
Definition MIN_SEGMENT_BYTES : N := SEGMENT_HEADER_LEN + RECORD_HEADER_LEN + 1.
Definition FABRIC_STREAM_INITIAL_EPOCH : N := 1.

Record FabricStreamConfig := mkFabricStreamConfig { segment_max_bytes : N }.

#[global] Instance FabricStreamConfig_eq_dec : EqDecision FabricStreamConfig.
Proof. solve_decision. Defined.

Definition FabricStreamConfig_validate (self : FabricStreamConfig) : result FabricStreamConfig FabricError :=
  if segment_max_bytes self <? MIN_SEGMENT_BYTES then Err InvalidInput else Ok self.

Record FabricStreamRecord := mkFabricStreamRecord { rec_sequence : N; rec_payload : bytes }.

Record FabricStreamInfo := mkFabricStreamInfo {
  info_segment_max_bytes : N;
  info_segment_count : N;
  info_next_sequence : N;
  info_last_sequence : option N;
  info_committed_sequence : N;
}.

Record FabricStreamReplicationPolicy := mkPolicy {
  pol_partition : N;
  pol_epoch : N;
  pol_leader : N;
  pol_membership_fingerprint : N;
  pol_replication_factor : N;
  pol_replicas : list N;
}.

#[global] Instance FabricStreamReplicationPolicy_eq_dec : EqDecision FabricStreamReplicationPolicy.
Proof. solve_decision. Defined.

Record FabricStreamEpochProposalState := mkProposal {
  prop_hash : bytes;
  prop_from : FabricStreamReplicationPolicy;
  prop_to : FabricStreamReplicationPolicy;
  prop_candidate_tail : N;
}.

#[global] Instance FabricStreamEpochProposalState_eq_dec : EqDecision FabricStreamEpochProposalState.
Proof. solve_decision. Defined.

Record FabricStreamEpochVoteState := mkVote {
  vote_voter : N;
  vote_epoch : N;
  vote_hash : bytes;
  vote_tail : N;
  vote_committed : N;
  vote_accepted : bool;
}.

#[global] Instance FabricStreamEpochVoteState_eq_dec : EqDecision FabricStreamEpochVoteState.
Proof. solve_decision. Defined.

Record FabricStreamEpochTransitionState := mkTransition {
  tr_proposal : FabricStreamEpochProposalState;
  tr_votes : gmap N FabricStreamEpochVoteState;
  tr_finalized : bool;
  tr_quorum_committed : N;
}.

Record FabricStreamEpochPromise := mkPromise { prm_epoch : N; prm_hash : bytes }.

Record FabricStreamPendingIntent := mkIntent {
  int_partition : N;
  int_epoch : N;
  int_leader : N;
  int_membership_fingerprint : N;
  int_replication_factor : N;
  int_replicas : list N;
  int_sequence : N;
}.

#[global] Instance FabricStreamPendingIntent_eq_dec : EqDecision FabricStreamPendingIntent.
Proof. solve_decision. Defined.

(** The directory of a stream: [meta.json], the segments in the order of their
    bases with the payloads of their records, and the other files.  A file that
    the source reads as a default when it is missing holds that default. *)
Record StreamDir := mkStreamDir {
  sd_meta : option FabricStreamConfig;
  sd_segments : list (list bytes);
  sd_commit : N;
  sd_policy : option FabricStreamReplicationPolicy;
  sd_promise : option FabricStreamEpochPromise;
  sd_transition : option FabricStreamEpochTransitionState;
  sd_replication : gmap N FabricStreamPendingIntent;
  sd_progress : gmap N N;
  sd_cursors : gmap bytes N;
}.

Definition set_meta (v : option FabricStreamConfig) (d : StreamDir) : StreamDir :=
  mkStreamDir v (sd_segments d) (sd_commit d) (sd_policy d) (sd_promise d) (sd_transition d) (sd_replication d)
    (sd_progress d) (sd_cursors d).
Definition set_segments (v : list (list bytes)) (d : StreamDir) : StreamDir :=
  mkStreamDir (sd_meta d) v (sd_commit d) (sd_policy d) (sd_promise d) (sd_transition d) (sd_replication d)
    (sd_progress d) (sd_cursors d).
Definition set_commit (v : N) (d : StreamDir) : StreamDir :=
  mkStreamDir (sd_meta d) (sd_segments d) v (sd_policy d) (sd_promise d) (sd_transition d) (sd_replication d)
    (sd_progress d) (sd_cursors d).
Definition set_policy (v : option FabricStreamReplicationPolicy) (d : StreamDir) : StreamDir :=
  mkStreamDir (sd_meta d) (sd_segments d) (sd_commit d) v (sd_promise d) (sd_transition d) (sd_replication d)
    (sd_progress d) (sd_cursors d).
Definition set_promise (v : option FabricStreamEpochPromise) (d : StreamDir) : StreamDir :=
  mkStreamDir (sd_meta d) (sd_segments d) (sd_commit d) (sd_policy d) v (sd_transition d) (sd_replication d)
    (sd_progress d) (sd_cursors d).
Definition set_transition (v : option FabricStreamEpochTransitionState) (d : StreamDir) : StreamDir :=
  mkStreamDir (sd_meta d) (sd_segments d) (sd_commit d) (sd_policy d) (sd_promise d) v (sd_replication d)
    (sd_progress d) (sd_cursors d).
Definition set_replication (v : gmap N FabricStreamPendingIntent) (d : StreamDir) : StreamDir :=
  mkStreamDir (sd_meta d) (sd_segments d) (sd_commit d) (sd_policy d) (sd_promise d) (sd_transition d) v
    (sd_progress d) (sd_cursors d).
Definition set_progress (v : gmap N N) (d : StreamDir) : StreamDir :=
  mkStreamDir (sd_meta d) (sd_segments d) (sd_commit d) (sd_policy d) (sd_promise d) (sd_transition d)
    (sd_replication d) v (sd_cursors d).
Definition set_cursors (v : gmap bytes N) (d : StreamDir) : StreamDir :=
  mkStreamDir (sd_meta d) (sd_segments d) (sd_commit d) (sd_policy d) (sd_promise d) (sd_transition d)
    (sd_replication d) (sd_progress d) v.

Definition new_dir : StreamDir := mkStreamDir None [] 0 None None None ∅ ∅ ∅.

(** The payloads of the log; the record of sequence [s] is the one at [s - 1]. *)
Definition sd_log (d : StreamDir) : list bytes := concat (sd_segments d).

(** ** Computations

    A method with state [S].  [None] is a panic. *)
Definition Op (S A : Type) : Type := S → option (result A FabricError * S).

#[global] Instance op_ret {S} : MRet (Op S) := λ A a s, Some (Ok a, s).
#[global] Instance op_bind {S} : MBind (Op S) := λ A B k m s,
  match m s with
  | Some (Ok a, s) => k a s
  | Some (Err e, s) => Some (Err e, s)
  | None => None
  end.

Definition op_fail {S A} (e : FabricError) : Op S A := λ s, Some (Err e, s).
Definition op_panic {S A} : Op S A := λ s, None.
Definition op_result {S A} (r : result A FabricError) : Op S A := λ s, Some (r, s).
Definition op_get {S} : Op S S := λ s, Some (Ok s, s).
Definition op_gets {S A} (f : S → A) : Op S A := λ s, Some (Ok (f s), s).
Definition op_modify {S} (f : S → S) : Op S unit := λ s, Some (Ok tt, f s).
(** The result of a call that the caller inspects. *)
Definition op_try {S A} (m : Op S A) : Op S (result A FabricError) := λ s,
  match m s with Some (r, s) => Some (Ok r, s) | None => None end.
(** [ok_or_else], [expect] and a check that returns early. *)
Definition op_some {S A} (o : option A) (e : FabricError) : Op S A :=
  match o with Some a => mret a | None => op_fail e end.
Definition op_expect {S A} (o : option A) : Op S A := match o with Some a => mret a | None => op_panic end.
Definition op_guard {S} (bad : bool) (e : FabricError) : Op S unit := if bad then op_fail e else mret tt.
(** A method of a field. *)
Definition op_field {S T A} (get : S → T) (put : T → S → S) (m : Op T A) : Op S A := λ s,
  match m (get s) with Some (r, t) => Some (r, put t s) | None => None end.

(** A loop over a list. *)
Fixpoint op_each {S A} (f : A → Op S unit) (l : list A) : Op S unit :=
  match l with
  | [] => mret tt
  | a :: l => f a;; op_each f l
  end.

(** ** The store

    A call on files can fail: a reading one has no effect then, a writing one
    may have had its effect or not.  Faults are taken from a list. *)
Inductive Fault := NoFault | FaultBefore (code : N) | FaultAfter (code : N).

Record FileFabricStreamStore := mkStore {
  fs_name : bytes;
  fs_stream : StreamDir;
  fs_faults : list Fault;
}.

Abbreviation StoreOp := (Op FileFabricStreamStore).

Definition take_fault : StoreOp Fault := λ s,
  match fs_faults s with
  | [] => Some (Ok NoFault, s)
  | f :: faults => Some (Ok f, mkStore (fs_name s) (fs_stream s) faults)
  end.

Definition put_stream (d : StreamDir) (s : FileFabricStreamStore) : FileFabricStreamStore :=
  mkStore (fs_name s) d (fs_faults s).

(** Reading a file. *)
Definition read_file {A} (f : StreamDir → A) : StoreOp A :=
  fault ← take_fault;
  match fault with
  | NoFault => op_gets (λ s, f (fs_stream s))
  | FaultBefore code | FaultAfter code => op_fail (SystemError code)
  end.

(** [write_json_atomic] and [sync_dir], and the writes to a segment. *)
Definition write_file (f : StreamDir → StreamDir) : StoreOp unit :=
  fault ← take_fault;
  match fault with
  | NoFault => op_modify (λ s, put_stream (f (fs_stream s)) s)
  | FaultBefore code => op_fail (SystemError code)
  | FaultAfter code => op_modify (λ s, put_stream (f (fs_stream s)) s);; op_fail (SystemError code)
  end.

Definition is_name_byte (byte : N) : bool :=
  in_range 48 57 byte || in_range 65 90 byte || in_range 97 122 byte
  || (byte =? 46) || (byte =? 95) || (byte =? 45).

Definition validate_name (name : bytes) : result unit FabricError :=
  if (len name =? 0) || (128 <? len name) then Err InvalidInput else
  if match name with 46 :: _ => true | _ => false end then Err InvalidInput else
  if negb (forallb is_name_byte name) then Err InvalidInput else
  Ok tt.

(** [recover_stream]: the metadata of a stream that exists, and its segments,
    which are whole in the model. *)
Definition recover_stream : StoreOp unit :=
  meta ← read_file sd_meta;
  config ← op_some meta NotFound;
  _ ← op_result (FabricStreamConfig_validate config);
  mret tt.

Definition ensure_state : StoreOp unit :=
  name ← op_gets fs_name;
  op_result (validate_name name);;
  recover_stream.

Definition create_stream (config : FabricStreamConfig) : StoreOp unit :=
  name ← op_gets fs_name;
  op_result (validate_name name);;
  config ← op_result (FabricStreamConfig_validate config);
  meta ← op_gets (λ s, sd_meta (fs_stream s));
  op_guard (bool_decide (is_Some meta)) AlreadyExists;;
  write_file (set_meta (Some config)).

(** ** The log *)

Definition next_sequence (d : StreamDir) : N := len (sd_log d) + 1.
(** [next_sequence.checked_sub(1).filter(|&seq| seq > 0)] *)
Definition last_sequence (d : StreamDir) : option N :=
  match sd_log d with [] => None | log => Some (len log) end.
(** The same with [unwrap_or(0)]. *)
Definition tail_of (d : StreamDir) : N := len (sd_log d).

Definition frame_len (payload : bytes) : N := RECORD_HEADER_LEN + len payload.
Definition segment_bytes (segment : list bytes) : N :=
  SEGMENT_HEADER_LEN + foldr (λ payload n, frame_len payload + n) 0 segment.
(** The length of the current segment, [0] when there is none. *)
Definition current_segment_len (d : StreamDir) : N :=
  match last (sd_segments d) with Some segment => segment_bytes segment | None => 0 end.

Definition add_segment (d : StreamDir) : StreamDir := set_segments (sd_segments d ++ [[]]) d.
Fixpoint append_last (payload : bytes) (segments : list (list bytes)) : list (list bytes) :=
  match segments with
  | [] => [[payload]]
  | [segment] => [segment ++ [payload]]
  | segment :: segments => segment :: append_last payload segments
  end.
Definition add_record (payload : bytes) (d : StreamDir) : StreamDir :=
  set_segments (append_last payload (sd_segments d)) d.

Definition append_exact (sequence : N) (payload : bytes) : StoreOp unit :=
  op_guard (U32 - 1 <? len payload) InvalidInput;;
  d ← op_gets fs_stream;
  op_guard (negb (next_sequence d =? sequence)) InvalidData;;
  config ← op_expect (sd_meta d);
  let segment_len := current_segment_len d in
  (if (segment_len =? 0)
      || ((SEGMENT_HEADER_LEN <? segment_len)
          && (segment_max_bytes config <? saturating_add64 segment_len (frame_len payload)))
   then write_file add_segment else mret tt);;
  write_file (add_record payload);;
  _ ← op_some (checked_add64 sequence 1) Other;
  mret tt.

Definition append (payload : bytes) : StoreOp N :=
  ensure_state;;
  sequence ← op_gets (λ s, next_sequence (fs_stream s));
  append_exact sequence payload;;
  mret sequence.

(** Records from a sequence on, numbered. *)
Fixpoint number_from (sequence : N) (payloads : list bytes) : list FabricStreamRecord :=
  match payloads with
  | [] => []
  | payload :: payloads => mkFabricStreamRecord sequence payload :: number_from (sequence + 1) payloads
  end.
Definition records_from (d : StreamDir) (start_sequence : N) : list FabricStreamRecord :=
  filter (λ r, start_sequence ≤ rec_sequence r) (number_from 1 (sd_log d)).

Definition read_from (start_sequence limit : N) : StoreOp (list FabricStreamRecord) :=
  ensure_state;;
  if limit =? 0 then mret [] else
  read_file (λ d, take (N.to_nat limit) (records_from d start_sequence)).

Definition append_replica (sequence : N) (payload : bytes) : StoreOp bool :=
  ensure_state;;
  next ← op_gets (λ s, next_sequence (fs_stream s));
  if sequence <? next then
    existing ← read_from sequence 1;
    match existing with
    | record :: _ =>
        if (rec_sequence record =? sequence) && bool_decide (rec_payload record = payload) then mret false
        else op_fail InvalidData
    | [] => op_fail InvalidData
    end
  else
    op_guard (next <? sequence) InvalidData;;
    append_exact sequence payload;;
    mret true.

Definition stream_config : StoreOp FabricStreamConfig :=
  ensure_state;;
  meta ← op_gets (λ s, sd_meta (fs_stream s));
  op_expect meta.

(** ** The committed boundary and cursors *)

Definition committed_sequence : StoreOp N := ensure_state;; read_file sd_commit.

Definition stream_info : StoreOp FabricStreamInfo :=
  ensure_state;;
  meta ← op_gets (λ s, sd_meta (fs_stream s));
  config ← op_expect meta;
  count ← read_file (λ d, len (sd_segments d));
  committed ← read_file sd_commit;
  d ← op_gets fs_stream;
  mret (mkFabricStreamInfo (segment_max_bytes config) count (next_sequence d) (last_sequence d) committed).

Definition commit_through (sequence : N) : StoreOp unit :=
  ensure_state;;
  tail ← op_gets (λ s, tail_of (fs_stream s));
  op_guard (tail <? sequence) InvalidInput;;
  commit ← read_file sd_commit;
  op_guard (sequence <? commit) InvalidInput;;
  if sequence =? commit then mret tt else
  write_file (set_commit sequence).

Definition read_committed (start_sequence limit : N) : StoreOp (list FabricStreamRecord) :=
  committed ← committed_sequence;
  if (committed =? 0) || (committed <? start_sequence) || (limit =? 0) then mret [] else
  records ← read_from start_sequence limit;
  mret (filter (λ r, rec_sequence r ≤ committed) records).

Definition cursor (consumer : bytes) : StoreOp N :=
  op_result (validate_name consumer);;
  ensure_state;;
  cursors ← read_file sd_cursors;
  mret (default 0 (cursors !! consumer)).

Definition read_consumer (consumer : bytes) (limit : N) : StoreOp (list FabricStreamRecord) :=
  cursor ← cursor consumer;
  read_from (saturating_add64 cursor 1) limit.

Definition commit_cursor (consumer : bytes) (sequence : N) : StoreOp unit :=
  op_result (validate_name consumer);;
  ensure_state;;
  tail ← op_gets (λ s, tail_of (fs_stream s));
  op_guard (tail <? sequence) InvalidInput;;
  cursors ← read_file sd_cursors;
  op_guard (sequence <? default 0 (cursors !! consumer)) InvalidInput;;
  write_file (set_cursors (<[consumer := sequence]> cursors)).

(** ** Replication policy *)

Definition bad_policy (policy : FabricStreamReplicationPolicy) : bool :=
  (pol_epoch policy =? 0) || (pol_replication_factor policy =? 0)
  || negb (len (pol_replicas policy) =? pol_replication_factor policy)
  || negb (bool_decide (pol_leader policy ∈ pol_replicas policy)).

Definition read_replication_policy : StoreOp (option FabricStreamReplicationPolicy) :=
  policy ← read_file sd_policy;
  match policy with
  | None => mret None
  | Some policy => op_guard (bad_policy policy) InvalidData;; mret (Some policy)
  end.

Definition replication_policy : StoreOp (option FabricStreamReplicationPolicy) :=
  ensure_state;; read_replication_policy.

Definition establish_replication_policy (policy : FabricStreamReplicationPolicy)
    : StoreOp FabricStreamReplicationPolicy :=
  ensure_state;;
  op_guard (bad_policy policy) InvalidInput;;
  existing ← read_replication_policy;
  match existing with
  | Some existing => if bool_decide (existing = policy) then mret existing else op_fail InvalidData
  | None => write_file (set_policy (Some policy));; mret policy
  end.

(** ** Epoch promises and transitions *)

Definition read_epoch_promise : StoreOp (option FabricStreamEpochPromise) :=
  promise ← read_file sd_promise;
  match promise with
  | None => mret None
  | Some promise =>
      op_guard ((prm_epoch promise =? 0) || bool_decide (prm_hash promise = [])) InvalidData;;
      mret (Some promise)
  end.

Definition epoch_promise : StoreOp (option FabricStreamEpochPromise) := ensure_state;; read_epoch_promise.

Definition promise_epoch (epoch : N) (hash : bytes) : StoreOp FabricStreamEpochPromise :=
  ensure_state;;
  op_guard (bool_decide (hash = [])) InvalidInput;;
  policy ← replication_policy;
  policy ← op_some policy NotFound;
  op_guard (epoch <=? pol_epoch policy) InvalidInput;;
  existing ← read_epoch_promise;
  let promise := mkPromise epoch hash in
  let write := write_file (set_promise (Some promise));; mret promise in
  match existing with
  | Some existing =>
      if (prm_epoch existing =? epoch) && bool_decide (prm_hash existing = hash) then mret existing else
      op_guard (epoch <=? prm_epoch existing) AlreadyExists;;
      write
  | None => write
  end.

Definition read_epoch_transition : StoreOp (option FabricStreamEpochTransitionState) :=
  transition ← read_file sd_transition;
  match transition with
  | None => mret None
  | Some transition =>
      op_guard (bool_decide (prop_hash (tr_proposal transition) = [])
                || (pol_epoch (prop_to (tr_proposal transition)) =? 0)) InvalidData;;
      mret (Some transition)
  end.

Definition begin_epoch_transition (proposal : FabricStreamEpochProposalState)
    : StoreOp FabricStreamEpochTransitionState :=
  ensure_state;;
  op_guard (bool_decide (prop_hash proposal = [])
            || (pol_epoch (prop_to proposal) <=? pol_epoch (prop_from proposal))) InvalidInput;;
  current ← replication_policy;
  current ← op_some current NotFound;
  op_guard (negb (bool_decide (current = prop_from proposal))) InvalidData;;
  existing ← read_epoch_transition;
  let state := mkTransition proposal ∅ false 0 in
  let write := write_file (set_transition (Some state));; mret state in
  match existing with
  | Some existing =>
      if bool_decide (tr_proposal existing = proposal) then mret existing else
      let supersedes_abandoned :=
        negb (tr_finalized existing)
        && bool_decide (prop_from (tr_proposal existing) = prop_from proposal)
        && (pol_epoch (prop_to (tr_proposal existing)) <? pol_epoch (prop_to proposal)) in
      let follows_finalized :=
        tr_finalized existing && bool_decide (prop_to (tr_proposal existing) = prop_from proposal) in
      op_guard (negb supersedes_abandoned && negb follows_finalized) AlreadyExists;;
      write
  | None => write
  end.

Definition epoch_transition : StoreOp (option FabricStreamEpochTransitionState) :=
  ensure_state;; read_epoch_transition.

Definition record_epoch_vote (vote : FabricStreamEpochVoteState) : StoreOp FabricStreamEpochTransitionState :=
  ensure_state;;
  transition ← read_epoch_transition;
  transition ← op_some transition NotFound;
  if tr_finalized transition then mret transition else
  let proposal := tr_proposal transition in
  op_guard (negb (vote_epoch vote =? pol_epoch (prop_to proposal))
            || negb (bool_decide (vote_hash vote = prop_hash proposal))
            || negb (bool_decide (vote_voter vote ∈ pol_replicas (prop_from proposal)))) InvalidData;;
  let transition' :=
    mkTransition proposal (<[vote_voter vote := vote]> (tr_votes transition)) (tr_finalized transition)
      (tr_quorum_committed transition) in
  let write := write_file (set_transition (Some transition'));; mret transition' in
  match tr_votes transition !! vote_voter vote with
  | Some existing =>
      if bool_decide (existing = vote) then mret transition else
      op_guard (vote_accepted existing) AlreadyExists;;
      op_guard (negb (vote_epoch existing =? vote_epoch vote)
                || negb (bool_decide (vote_hash existing = vote_hash vote))
                || negb (vote_voter existing =? vote_voter vote)) AlreadyExists;;
      write
  | None => write
  end.

Definition finalize_epoch_transition (quorum_committed : N) : StoreOp FabricStreamEpochTransitionState :=
  ensure_state;;
  transition ← read_epoch_transition;
  transition ← op_some transition NotFound;
  if tr_finalized transition then
    if tr_quorum_committed transition =? quorum_committed then mret transition else op_fail InvalidData
  else
  let transition' := mkTransition (tr_proposal transition) (tr_votes transition) true quorum_committed in
  write_file (set_transition (Some transition'));;
  mret transition'.

Definition install_epoch_policy (from_policy to_policy : FabricStreamReplicationPolicy) (hash : bytes)
    : StoreOp unit :=
  ensure_state;;
  op_guard (pol_epoch to_policy <=? pol_epoch from_policy) InvalidInput;;
  current ← replication_policy;
  current ← op_some current NotFound;
  if bool_decide (current = to_policy) then mret tt else
  op_guard (negb (bool_decide (current = from_policy))) InvalidData;;
  promise ← epoch_promise;
  promise ← op_some promise PermissionDenied;
  op_guard (negb (prm_epoch promise =? pol_epoch to_policy) || negb (bool_decide (prm_hash promise = hash)))
    PermissionDenied;;
  write_file (set_policy (Some to_policy)).

(** ** Replication intents and replica progress *)

Definition reserve_replication_intent (intent : FabricStreamPendingIntent) : StoreOp unit :=
  ensure_state;;
  next ← op_gets (λ s, next_sequence (fs_stream s));
  op_guard (negb (int_sequence intent =? next)) InvalidInput;;
  op_guard ((int_epoch intent =? 0) || (int_replication_factor intent =? 0)
            || negb (len (int_replicas intent) =? int_replication_factor intent)
            || negb (bool_decide (int_leader intent ∈ int_replicas intent))) InvalidInput;;
  pending ← read_file sd_replication;
  match pending !! int_sequence intent with
  | Some existing => if bool_decide (existing = intent) then mret tt else op_fail AlreadyExists
  | None => write_file (set_replication (<[int_sequence intent := intent]> pending))
  end.

(** [BTreeMap::into_iter] and [into_values], in the order of the keys. *)
Definition key_le {A} (a b : N * A) : Prop := a.1 ≤ b.1.
#[global] Instance key_le_dec {A} : RelDecision (@key_le A) := λ a b, decide (a.1 ≤ b.1).
Definition sorted_entries {A} (m : gmap N A) : list (N * A) := merge_sort key_le (map_to_list m).
Definition sorted_values {A} (m : gmap N A) : list A := (sorted_entries m).*2.

Definition pending_replication_intents : StoreOp (list FabricStreamPendingIntent) :=
  ensure_state;; read_file (λ d, sorted_values (sd_replication d)).

Definition remove_replication_intent (sequence : N) : StoreOp bool :=
  ensure_state;;
  pending ← read_file sd_replication;
  let removed := bool_decide (is_Some (pending !! sequence)) in
  (if removed then write_file (set_replication (delete sequence pending)) else mret tt);;
  mret removed.

Definition replica_progress (replica : N) : StoreOp N :=
  ensure_state;;
  progress ← read_file sd_progress;
  mret (default 0 (progress !! replica)).

Definition record_replica_progress (replica sequence : N) : StoreOp unit :=
  ensure_state;;
  op_guard (sequence =? 0) InvalidInput;;
  progress ← read_file sd_progress;
  if sequence <=? default 0 (progress !! replica) then mret tt else
  write_file (set_progress (<[replica := sequence]> progress)).

Definition append_reserved_replica (sequence : N) (payload : bytes) : StoreOp unit :=
  intents ← pending_replication_intents;
  op_guard (negb (existsb (λ intent, int_sequence intent =? sequence) intents)) NotFound;;
  appended ← append_replica sequence payload;
  op_guard (negb appended) AlreadyExists.
