(* ===== verification/FabricSegment.v ===== *)
(** * Fabric streams: segments as bytes

    [src/runtime/fabric_stream.rs]: the frames of records, the files of segments,
    and the recovery of a stream from them.  A crash in the middle of an append
    leaves a segment that recovery cuts back to whole records, so the segments
    of [FabricStore], which are lists of payloads, are what recovery finds; but
    a part of a header makes the stream unreadable. *)
From Stdlib Require Import String.
From S2P Require Import Prelude Bytes Text FabricStore.

Local Open Scope list_scope.
Local Open Scope N_scope.

Definition STREAM_FORMAT_VERSION : N := 1.
Definition SEGMENT_MAGIC : bytes := str "FSTR".

Section segments.
Context (blake3 : bytes → bytes).

Definition record_checksum (sequence : N) (payload : bytes) : bytes := take 16 (blake3 (to_be_bytes 8 sequence ++ payload)).

Definition encode_record (sequence : N) (payload : bytes) : bytes :=
  to_be_bytes 8 sequence ++ to_be_bytes 4 (as_u32 (len payload)) ++ record_checksum sequence payload ++ payload.

(** What [create_segment] writes. *)
Definition segment_header (base : N) : bytes :=
  SEGMENT_MAGIC ++ to_be_bytes 2 STREAM_FORMAT_VERSION ++ to_be_bytes 8 base.

(** The loop of [decode_segment]: the records, and the length to which
    [truncate_segment] cuts the file. *)
Fixpoint decode_records (fuel : nat) (bytes : bytes) (repair_tail : bool) (offset expected_sequence : N)
    (records : list FabricStreamRecord) : result (list FabricStreamRecord * option N) FabricError :=
  match fuel with
  | O => Ok (records, None)
  | S fuel =>
      if len bytes <=? offset then Ok (records, None) else
      if len bytes - offset <? RECORD_HEADER_LEN then
        if repair_tail then Ok (records, Some offset) else Err UnexpectedEof
      else
      let sequence := be64 bytes offset in
      let payload_len := be32 bytes (offset + 8) in
      let checksum := slice bytes (offset + 12) (offset + 28) in
      match checked_add64 (offset + 28) payload_len with
      | None => Err InvalidData
      | Some payload_end =>
          if len bytes <? payload_end then if repair_tail then Ok (records, Some offset) else Err UnexpectedEof else
          if negb (sequence =? expected_sequence) then Err InvalidData else
          let payload := slice bytes (offset + 28) payload_end in
          if negb (bool_decide (record_checksum sequence payload = checksum)) then Err InvalidData else
          match checked_add64 expected_sequence 1 with
          | None => Err InvalidData
          | Some next => decode_records fuel bytes repair_tail payload_end next
                           (records ++ [mkFabricStreamRecord sequence payload])
          end
      end
  end.

(** The records of a segment, and its file afterwards. *)
Definition decode_segment (bytes : bytes) (expected_base : N) (repair_tail : bool)
    : result (list FabricStreamRecord * Bytes.bytes) FabricError :=
  if len bytes <? SEGMENT_HEADER_LEN then Err InvalidData else
  if negb (bool_decide (take 4 bytes = SEGMENT_MAGIC)) then Err InvalidData else
  if negb (from_be_bytes (slice bytes 4 6) =? STREAM_FORMAT_VERSION) then Err InvalidData else
  let base := be64 bytes 6 in
  if negb (base =? expected_base) then Err InvalidData else
  match decode_records (S (length bytes)) bytes repair_tail SEGMENT_HEADER_LEN base [] with
  | Err e => Err e
  | Ok (records, None) => Ok (records, bytes)
  | Ok (records, Some length) => Ok (records, take (N.to_nat length) bytes)
  end.

(** The files in the order of [list_segments], by base. *)
Definition Files : Type := list (N * bytes).

Record StreamState := mkStreamState { next_seq : N; current_segment_base : N; current_segment_bytes : N }.

(** The loop of [recover_stream]. *)
Fixpoint recover_files (state : StreamState) (files : Files) : result (StreamState * Files) FabricError :=
  match files with
  | [] => Ok (state, [])
  | (base, bytes) :: files =>
      if negb (base =? next_seq state) then Err InvalidData else
      match decode_segment bytes base (bool_decide (files = [])) with
      | Err e => Err e
      | Ok (records, bytes) =>
          let expected_sequence :=
            match last records with Some record => saturating_add64 (rec_sequence record) 1 | None => base end in
          match recover_files (mkStreamState expected_sequence base (len bytes)) files with
          | Ok (state, files) => Ok (state, (base, bytes) :: files)
          | Err e => Err e
          end
      end
  end.

Definition recover_segments (files : Files) : result (StreamState * Files) FabricError :=
  recover_files (mkStreamState 1 1 0) files.

(** The loops of [read_from]; the inner one also says whether it returns. *)
Fixpoint push_records (start_sequence limit : N) (records result : list FabricStreamRecord) : list FabricStreamRecord * bool :=
  match records with
  | [] => (result, false)
  | record :: records =>
      if rec_sequence record <? start_sequence then push_records start_sequence limit records result else
      let result := result ++ [record] in
      if len result =? limit then (result, true) else push_records start_sequence limit records result
  end.

Fixpoint read_files (start_sequence limit : N) (files : Files) (result : list FabricStreamRecord)
    : Prelude.result (list FabricStreamRecord) FabricError :=
  match files with
  | [] => Ok result
  | (base, bytes) :: files =>
      match decode_segment bytes base false with
      | Err e => Err e
      | Ok (records, _) =>
          let '(result, full) := push_records start_sequence limit records result in
          if full then Ok result else read_files start_sequence limit files result
      end
  end.

(** [read_from] after the state has been recovered. *)
Definition read_segments (start_sequence limit : N) (files : Files) : result (list FabricStreamRecord) FabricError :=
  if limit =? 0 then Ok [] else read_files start_sequence limit files [].

(** Whether [append_exact] starts a segment. *)
Definition starts_segment (config : FabricStreamConfig) (segment_len : N) (payload : bytes) : bool :=
  (segment_len =? 0)
  || ((SEGMENT_HEADER_LEN <? segment_len) && (segment_max_bytes config <? saturating_add64 segment_len (frame_len payload))).

(** The files after [append_exact] of which [cut] bytes of the frame have been
    written. *)
Definition append_files (config : FabricStreamConfig) (state : StreamState) (payload : bytes) (cut : N) (files : Files) : Files :=
  let frame := take (N.to_nat cut) (encode_record (next_seq state) payload) in
  let new := starts_segment config (current_segment_bytes state) payload in
  let segment_base := if new then next_seq state else current_segment_base state in
  let files := if new then files ++ [(segment_base, segment_header segment_base)] else files in
  map (λ file, if file.1 =? segment_base then (file.1, file.2 ++ frame) else file) files.

(** ** Files and lists *)

Fixpoint frames (sequence : N) (payloads : list bytes) : bytes :=
  match payloads with
  | [] => []
  | payload :: payloads => encode_record sequence payload ++ frames (sequence + 1) payloads
  end.

Definition segment_file (base : N) (segment : list bytes) : bytes := segment_header base ++ frames base segment.

(** The files of segments, the first of which starts at a base. *)
Fixpoint files_of (base : N) (segments : list (list bytes)) : Files :=
  match segments with
  | [] => []
  | segment :: segments => (base, segment_file base segment) :: files_of (base + len segment) segments
  end.

Context (blake3_len : ∀ bs, len (blake3 bs) = 32).

Lemma len_checksum s p : len (record_checksum s p) = 16.
Proof using blake3_len.
  unfold record_checksum. unfold len. rewrite length_take. pose proof (blake3_len (to_be_bytes 8 s ++ p)) as H. unfold len in H. lia.
Qed.

Lemma len_encode s p : len (encode_record s p) = frame_len p.
Proof using blake3_len.
  unfold encode_record, frame_len, RECORD_HEADER_LEN. rewrite !len_app, !len_to_be_bytes, len_checksum. lia.
Qed.

Lemma len_header base : len (segment_header base) = SEGMENT_HEADER_LEN.
Proof. unfold segment_header. rewrite !len_app, !len_to_be_bytes. done. Qed.

(** Sequences, payloads and files fit their fields. *)
Definition payload_fits (p : bytes) : Prop := len p < U32.

(** One whole record ahead is decoded. *)
Lemma decode_one fuel bs repair offset s p rest records :
  at_rest bs offset (encode_record s p ++ rest) → s + 1 < U64 → payload_fits p →
  decode_records (S fuel) bs repair offset s records =
    decode_records fuel bs repair (offset + frame_len p) (s + 1) (records ++ [mkFabricStreamRecord s p]).
Proof using blake3_len.
  intros Hat Hs Hp. pose proof (at_rest_le _ _ _ Hat) as Hle. rewrite len_app, len_encode in Hle.
  unfold frame_len, RECORD_HEADER_LEN in *. unfold encode_record in Hat. rewrite <-!(assoc_L (++)) in Hat.
  assert (as_u32 (len p) = len p) as Hu by (unfold as_u32; by apply N.mod_small).
  rewrite Hu in Hat. pose proof Hat as (pre0 & _ & _ & Hfit). unfold fits in Hfit.
  destruct (at_rest_be64 _ _ _ _ Hat) as [Hseq Hat1]; [lia|].
  destruct (at_rest_be32 _ _ _ _ Hat1) as [Hlen Hat2]; [done|].
  destruct (at_rest_raw _ _ _ _ Hat2) as [Hck Hat3]. destruct (at_rest_raw _ _ _ _ Hat3) as [Hpay _].
  rewrite len_checksum in *. replace (offset + 8 + 4 + 16) with (offset + 28) in * by lia.
  replace (offset + 8 + 4) with (offset + 12) in * by lia.
  cbn [decode_records]. unfold RECORD_HEADER_LEN.
  rewrite (proj2 (N.leb_gt _ _)) by lia. rewrite (proj2 (N.ltb_ge _ _)) by lia.
  rewrite Hseq, Hlen. rewrite checked_add64_Some by lia. rewrite (proj2 (N.ltb_ge _ _)) by lia. rewrite N.eqb_refl. simpl negb. cbv iota zeta.
  rewrite Hpay, Hck. rewrite bool_decide_eq_true_2 by done. simpl negb. cbv iota.
  rewrite checked_add64_Some by lia. f_equal; lia.
Qed.

Lemma len_frames_from s l : len (frames s l) = foldr (λ p n, frame_len p + n) 0 l.
Proof using blake3_len.
  revert s. induction l as [|p l IH]; intros s; [done|]. simpl. by rewrite len_app, len_encode, IH.
Qed.

Lemma segment_frames_app s l l' : frames s (l ++ l') = frames s l ++ frames (s + len l) l'.
Proof.
  revert s. induction l as [|p l IH]; intros s; simpl; [by rewrite N.add_0_r|]. rewrite IH, <-(assoc_L (++)). do 3 f_equal.
  unfold len. simpl. lia.
Qed.

Lemma len_segment_file base l : len (segment_file base l) = segment_bytes l.
Proof using blake3_len. unfold segment_file, segment_bytes. by rewrite len_app, len_header, len_frames_from. Qed.

(** One round for every byte is enough for the loop. *)
Lemma decode_records_enough bs repair fuel : ∀ fuel' offset s records,
  len bs - offset < N.of_nat fuel → (fuel ≤ fuel')%nat →
  decode_records fuel bs repair offset s records = decode_records fuel' bs repair offset s records.
Proof.
  induction fuel as [|fuel IH]; intros [|fuel'] offset s records Hlt Hle; [lia..|]. cbn [decode_records].
  destruct (N.leb_spec (len bs) offset); [done|]. destruct (len bs - offset <? RECORD_HEADER_LEN); [done|].
  destruct (checked_add64 (offset + 28) _) as [stop|] eqn:Hstop; [|done]. destruct (len bs <? stop); [done|].
  do 2 (case_match; [done|]). destruct (checked_add64 s 1); [|done].
  unfold checked_add64 in Hstop. case_match; simplify_eq. apply IH; lia.
Qed.

Lemma decode_frames bs repair rest l : ∀ fuel offset s records,
  at_rest bs offset (frames s l ++ rest) → s + len l < U64 → Forall payload_fits l →
  decode_records (length l + fuel) bs repair offset s records =
    decode_records fuel bs repair (offset + len (frames s l)) (s + len l) (records ++ number_from s l).
Proof using blake3_len.
  induction l as [|p l IH]; intros fuel offset s records Hat Hs Hl; [simpl; by rewrite !N.add_0_r, app_nil_r|].
  apply Forall_cons in Hl as [Hp Hl]. rewrite len_cons in Hs. simpl in Hat. rewrite <-(assoc_L (++)) in Hat.
  change (length (p :: l) + fuel)%nat with (S (length l + fuel)).
  rewrite (decode_one _ _ _ _ _ p (frames (s + 1) l ++ rest)) by (done || lia).
  rewrite IH; [|rewrite <-(len_encode s); by apply at_rest_raw|lia|done].
  cbn [frames number_from]. rewrite len_app, len_encode, len_cons, <-(assoc_L (++)). f_equal; lia.
Qed.

Lemma decode_end fuel bs repair offset s records : at_rest bs offset [] → decode_records fuel bs repair offset s records = Ok (records, None).
Proof.
  intros (pre0 & -> & -> & _). rewrite app_nil_r. destruct fuel; [done|]. cbn [decode_records]. by rewrite N.leb_refl.
Qed.

(** A part of a frame at the end is cut off. *)
Lemma decode_torn fuel bs offset s p k records :
  at_rest bs offset (take (N.to_nat k) (encode_record s p)) → 0 < k < frame_len p → payload_fits p →
  offset + frame_len p < U64 → decode_records (S fuel) bs true offset s records = Ok (records, Some offset).
Proof using blake3_len.
  intros Hat Hk Hp Hb. pose proof (len_encode s p) as He. unfold frame_len, RECORD_HEADER_LEN in *.
  assert (len (take (N.to_nat k) (encode_record s p)) = k) as Hlk by (unfold len in *; rewrite length_take; lia).
  assert (len bs = offset + k) as Hbs by (destruct Hat as (pre0 & -> & -> & _); rewrite len_app; lia).
  cbn [decode_records]. unfold RECORD_HEADER_LEN. rewrite (proj2 (N.leb_gt _ _)) by lia.
  destruct (N.ltb_spec (len bs - offset) (8 + 4 + 16)) as [Hlt|Hge]; [done|].
  assert (as_u32 (len p) = len p) as Hu by (unfold as_u32; by apply N.mod_small).
  assert (be32 bs (offset + 8) = len p) as Hlen.
  { unfold encode_record in Hat. rewrite Hu, (assoc_L (++)), take_app_ge in Hat
      by (rewrite length_app, !length_to_be_bytes; lia).
    rewrite <-(assoc_L (++)) in Hat. apply at_rest_raw in Hat as [_ Hat]. rewrite len_to_be_bytes in Hat.
    by apply at_rest_be32 in Hat as [? _]. }
  rewrite Hlen, checked_add64_Some by lia. by rewrite (proj2 (N.ltb_lt _ _)) by lia.
Qed.

(** The checks of the header pass. *)
Lemma decode_header base rest repair : base < U64 → fits (segment_header base ++ rest) →
  decode_segment (segment_header base ++ rest) base repair =
    match decode_records (S (length (segment_header base ++ rest))) (segment_header base ++ rest) repair SEGMENT_HEADER_LEN base [] with
    | Err e => Err e
    | Ok (records, None) => Ok (records, segment_header base ++ rest)
    | Ok (records, Some n) => Ok (records, take (N.to_nat n) (segment_header base ++ rest))
    end.
Proof.
  intros Hb Hfit. set (bs := segment_header base ++ rest) in *. unfold decode_segment.
  assert (at_rest bs 0 (SEGMENT_MAGIC ++ to_be_bytes 2 STREAM_FORMAT_VERSION ++ to_be_bytes 8 base ++ rest)) as Hat.
  { exists []. split_and!; [|done|done]. unfold bs, segment_header. by rewrite <-!(assoc_L (++)). }
  rewrite (proj2 (N.ltb_ge _ _)) by (unfold bs; rewrite len_app, len_header; lia).
  apply at_rest_raw in Hat as [Hm Hat]. apply at_rest_raw in Hat as [Hv Hat]. apply at_rest_be64 in Hat as [Hbase _]; [|done].
  change (len SEGMENT_MAGIC) with 4 in *. rewrite len_to_be_bytes in Hv, Hbase. change (0 + 4) with 4 in *.
  change (4 + N.of_nat 2) with 6 in *. change (take 4 bs = SEGMENT_MAGIC) in Hm.
  rewrite Hm, Hv, Hbase, !N.eqb_refl, bool_decide_eq_true_2 by done. reflexivity.
Qed.

Lemma frames_fuel s l : (length l ≤ length (frames s l))%nat.
Proof using blake3_len.
  revert s. induction l as [|p l IH]; intros s; simpl; [lia|]. rewrite length_app. specialize (IH (s + 1)).
  pose proof (len_encode s p) as H. unfold len, frame_len, RECORD_HEADER_LEN in H. lia.
Qed.

(** What follows the frames of a segment decides the result. *)
Lemma decode_file base l rest repair : base + len l < U64 → Forall payload_fits l → fits (segment_file base l ++ rest) →
  ∃ fuel, decode_segment (segment_file base l ++ rest) base repair =
    match decode_records (S fuel) (segment_file base l ++ rest) repair (segment_bytes l) (base + len l) (number_from base l) with
    | Err e => Err e
    | Ok (records, None) => Ok (records, segment_file base l ++ rest)
    | Ok (records, Some n) => Ok (records, take (N.to_nat n) (segment_file base l ++ rest))
    end.
Proof using blake3_len.
  intros Hb Hl Hfit. unfold segment_file in *. rewrite <-(assoc_L (++)) in *. rewrite decode_header; [|lia|done].
  set (bs := segment_header base ++ frames base l ++ rest) in *.
  assert (at_rest bs SEGMENT_HEADER_LEN (frames base l ++ rest)) as Hat.
  { exists (segment_header base). by rewrite len_header. }
  exists (length bs - length l)%nat. pose proof (frames_fuel base l) as Hfuel.
  assert (length l ≤ length bs)%nat by (unfold bs; rewrite !length_app; lia).
  replace (S (length bs)) with (length l + S (length bs - length l))%nat by lia.
  rewrite (decode_frames bs repair rest l _ _ _ _ Hat) by (done || lia).
  unfold segment_bytes. by rewrite len_frames_from.
Qed.

Lemma at_rest_file base l rest : fits (segment_file base l ++ rest) → at_rest (segment_file base l ++ rest) (segment_bytes l) rest.
Proof using blake3_len. intros Hfit. exists (segment_file base l). by rewrite len_segment_file. Qed.

Lemma decode_whole base l repair : base + len l < U64 → Forall payload_fits l → segment_bytes l < U64 →
  decode_segment (segment_file base l) base repair = Ok (number_from base l, segment_file base l).
Proof using blake3_len.
  intros Hb Hl Hfit. rewrite <-(len_segment_file base) in Hfit. rewrite <-(app_nil_r (segment_file base l)) in Hfit |- *.
  destruct (decode_file base l [] repair Hb Hl Hfit) as [fuel ->]. by rewrite decode_end by (by apply at_rest_file).
Qed.

(** The records of a segment of which [cut] bytes of one more frame are there. *)
Definition after_cut (l : list bytes) (p : bytes) (cut : N) : list bytes := if cut <? frame_len p then l else l ++ [p].

Lemma segment_file_snoc base l p : segment_file base (l ++ [p]) = segment_file base l ++ encode_record (base + len l) p.
Proof. unfold segment_file. rewrite segment_frames_app, <-!(assoc_L (++)). simpl. by rewrite app_nil_r. Qed.

Lemma segment_bytes_snoc l p : segment_bytes (l ++ [p]) = segment_bytes l + frame_len p.
Proof using blake3_len.
  rewrite <-!(len_segment_file 0), segment_file_snoc, len_app, len_encode. done.
Qed.

Lemma decode_cut base l p cut : base + len l + 1 < U64 → Forall payload_fits (l ++ [p]) → segment_bytes (l ++ [p]) < U64 →
  decode_segment (segment_file base l ++ take (N.to_nat cut) (encode_record (base + len l) p)) base true =
    Ok (number_from base (after_cut l p cut), segment_file base (after_cut l p cut)).
Proof using blake3_len.
  intros Hb Hl Hfit. pose proof Hl as [Hl' [Hp _]%Forall_cons]%Forall_app. rewrite segment_bytes_snoc in Hfit.
  pose proof (len_encode (base + len l) p) as He. unfold after_cut. destruct (N.ltb_spec cut (frame_len p)) as [Hlt|Hge].
  - destruct (N.eq_dec cut 0) as [->|Hne]; [simpl; rewrite app_nil_r; apply decode_whole; (done || lia)|].
    set (rest := take _ _).
    assert (len rest = cut) as Hr by (unfold rest, len in *; rewrite length_take; lia).
    assert (fits (segment_file base l ++ rest)) as Hfit' by (unfold fits; rewrite len_app, len_segment_file; lia).
    destruct (decode_file base l rest true ltac:(lia) Hl' Hfit') as [fuel ->].
    rewrite (decode_torn _ _ _ _ p cut) by (by apply at_rest_file || lia || done).
    rewrite <-(len_segment_file base). unfold len. rewrite Nat2N.id. by rewrite take_app_length.
  - rewrite take_ge by (revert He; unfold len at 1; lia). rewrite <-segment_file_snoc.
    apply decode_whole; [unfold len in *; rewrite length_app; simpl; lia|done|]. by rewrite segment_bytes_snoc.
Qed.

(** ** Recovery *)

Definition last_base (base : N) (segments : list (list bytes)) : N := base + len (concat (removelast segments)).

Lemma last_number s l p : last (number_from s (l ++ [p])) = Some (mkFabricStreamRecord (s + len l) p).
Proof.
  revert s. induction l as [|q l IH]; intros s; [simpl; by rewrite N.add_0_r|]. simpl.
  rewrite last_cons, IH. f_equal. f_equal. rewrite len_cons. lia.
Qed.

(** The sequence after the records of a segment. *)
Lemma next_after base l : base + len l < U64 →
  match last (number_from base l) with Some r => saturating_add64 (rec_sequence r) 1 | None => base end = base + len l.
Proof.
  intros Hb. destruct l as [|p l' _] using rev_ind; [simpl; by rewrite N.add_0_r|].
  rewrite last_number. simpl. unfold len in *. rewrite length_app in *. simpl in *. unfold saturating_add64. lia.
Qed.

Lemma recover_cut segs l p cut : ∀ base st, next_seq st = base → Forall (λ s, s ≠ []) segs →
  Forall (Forall payload_fits) segs → Forall (λ s, segment_bytes s < U64) segs →
  let b := base + len (concat segs) in
  b + len l + 1 < U64 → Forall payload_fits (l ++ [p]) → segment_bytes (l ++ [p]) < U64 →
  recover_files st (files_of base segs ++ [(b, segment_file b l ++ take (N.to_nat cut) (encode_record (b + len l) p))]) =
    Ok (mkStreamState (b + len (after_cut l p cut)) b (segment_bytes (after_cut l p cut)), files_of base (segs ++ [after_cut l p cut])).
Proof using blake3_len.
  induction segs as [|seg segs IH]; intros base st Hst Hne Hfit Hlen b Hb Hl Hbytes.
  - assert (b = base) as Hbb by (unfold b; apply N.add_0_r). clearbody b. subst b.
    cbn [files_of recover_files app concat negb]. rewrite Hst, N.eqb_refl. cbn [negb]. rewrite bool_decide_eq_true_2 by done.
    rewrite decode_cut by (done || lia). rewrite next_after, len_segment_file; [done|].
    unfold after_cut. case_match; [lia|]. unfold len in *. rewrite length_app. simpl. lia.
  - apply Forall_cons in Hne as [Hn Hne]. apply Forall_cons in Hfit as [Hf Hfit]. apply Forall_cons in Hlen as [Hle Hlen].
    assert (b = base + len seg + len (concat segs)) as Hbb by (unfold b; simpl; rewrite len_app; lia).
    clearbody b. subst b.
    cbn [files_of recover_files app]. rewrite Hst, N.eqb_refl. cbn [negb]. rewrite bool_decide_eq_false_2 by (by destruct (files_of _ segs)).
    rewrite decode_whole by (done || lia). rewrite next_after by lia. by rewrite IH by (done || lia).
Qed.

(** The files of a directory, and what recovery knows of it. *)
Definition dir_files (d : StreamDir) : Files := files_of 1 (sd_segments d).
Definition dir_state (d : StreamDir) : StreamState :=
  mkStreamState (next_sequence d) (last_base 1 (sd_segments d)) (current_segment_len d).

Definition segments_ok (d : StreamDir) : Prop :=
  Forall (λ s, s ≠ []) (removelast (sd_segments d)) ∧ Forall (Forall payload_fits) (sd_segments d).

(** The directory after an append of which [cut] bytes of the frame are written. *)
Definition appended (config : FabricStreamConfig) (payload : bytes) (cut : N) (d : StreamDir) : StreamDir :=
  let d := if starts_segment config (current_segment_len d) payload then add_segment d else d in
  if cut <? frame_len payload then d else add_record payload d.

Lemma append_last_snoc p segs l : append_last p (segs ++ [l]) = segs ++ [l ++ [p]].
Proof. induction segs as [|seg segs IH]; [done|]. simpl. rewrite IH. by destruct (segs ++ [l]) eqn:H; [destruct segs|]. Qed.

Lemma files_of_app base segs segs' : files_of base (segs ++ segs') = files_of base segs ++ files_of (base + len (concat segs)) segs'.
Proof.
  revert base. induction segs as [|seg segs IH]; intros base; simpl; [by rewrite N.add_0_r|]. rewrite IH, len_app. do 3 f_equal. lia.
Qed.

(** Bases are below the sequence after the segments before them. *)
Lemma files_below base segs file : Forall (λ s, s ≠ []) segs → file ∈ files_of base segs → file.1 < base + len (concat segs).
Proof.
  intros Hne. revert base. induction Hne as [|seg segs Hn Hne IH]; intros base; simpl; [by intros ?%elem_of_nil|].
  assert (1 ≤ len seg) by (destruct seg; [done|]; rewrite len_cons; lia). rewrite len_app.
  intros [->|H']%elem_of_cons; simpl; [lia|]. apply IH in H'. lia.
Qed.

Lemma write_last base segs content frame : Forall (λ s, s ≠ []) segs →
  let b := base + len (concat segs) in
  map (λ file : N * bytes, if file.1 =? b then (file.1, file.2 ++ frame) else file) (files_of base segs ++ [(b, content)]) =
    files_of base segs ++ [(b, content ++ frame)].
Proof.
  intros Hne b. rewrite map_app. simpl. rewrite N.eqb_refl. f_equal.
  transitivity (map id (files_of base segs)); [|apply map_id]. apply map_ext_in. intros file Hin%list_elem_of_In.
  pose proof (files_below base segs file Hne Hin). unfold id. by rewrite (proj2 (N.eqb_neq _ _)) by (unfold b; lia).
Qed.

Lemma dir_recovers d segs l config payload cut : sd_segments d = segs ++ [l] →
  starts_segment config (segment_bytes l) payload = false → Forall (λ s, s ≠ []) segs →
  Forall (Forall payload_fits) (segs ++ [l]) → payload_fits payload → len (concat (segs ++ [l])) + 2 < U64 →
  Forall (λ s, segment_bytes s + frame_len payload < U64) (segs ++ [l]) →
  recover_segments (append_files config (dir_state d) payload cut (dir_files d)) =
    Ok (mkStreamState (1 + len (concat segs) + len (after_cut l payload cut)) (1 + len (concat segs)) (segment_bytes (after_cut l payload cut)),
        files_of 1 (segs ++ [after_cut l payload cut])).
Proof using blake3_len.
  intros Hd Hnew Hne Hfit Hp Hlen Hbytes. unfold append_files, dir_state, dir_files, current_segment_len, next_sequence, sd_log. simpl.
  rewrite Hd, last_snoc, Hnew. unfold last_base. rewrite removelast_last, files_of_app. simpl.
  rewrite (write_last 1 segs (segment_file (1 + len (concat segs)) l)) by done.
  rewrite concat_app in Hlen. simpl in Hlen. rewrite app_nil_r, len_app in Hlen.
  apply Forall_app in Hfit as [Hfit [Hl _]%Forall_cons]. apply Forall_app in Hbytes as [Hbs [Hbl _]%Forall_cons].
  rewrite concat_app, len_app. simpl. rewrite app_nil_r.
  replace (len (concat segs) + len l + 1) with (1 + len (concat segs) + len l) by lia.
  apply recover_cut; try done; [|lia|by apply Forall_app; split; [|apply Forall_singleton]|by rewrite segment_bytes_snoc].
  apply (Forall_impl _ _ _ Hbs). intros. lia.
Qed.

(** Starting a segment and then writing to it. *)
Lemma append_files_new d config payload cut : starts_segment config (current_segment_len d) payload = true →
  append_files config (dir_state d) payload cut (dir_files d) =
    append_files config (dir_state (add_segment d)) payload cut (dir_files (add_segment d)).
Proof.
  intros Hnew. unfold append_files, dir_state, dir_files, current_segment_len, next_sequence, sd_log in *. simpl.
  rewrite Hnew, last_snoc. change (starts_segment config (segment_bytes []) payload) with false. cbv iota. unfold last_base.
  rewrite removelast_last, files_of_app, concat_app. simpl. rewrite app_nil_r.
  unfold segment_file. simpl. rewrite app_nil_r. by rewrite (N.add_comm 1).
Qed.

Lemma new_segment_full d config payload : starts_segment config (current_segment_len d) payload = true →
  Forall (λ s, s ≠ []) (removelast (sd_segments d)) → Forall (λ s, s ≠ []) (sd_segments d).
Proof.
  unfold current_segment_len. destruct (sd_segments d) as [|l segs _] using rev_ind; [done|].
  rewrite last_snoc, removelast_last. intros Hnew Hne. apply Forall_app. split; [done|]. apply Forall_singleton. by intros ->.
Qed.

Lemma number_from_app s l l' : number_from s (l ++ l') = number_from s l ++ number_from (s + len l) l'.
Proof. revert s. induction l as [|p l IH]; intros s; simpl; [by rewrite N.add_0_r|]. rewrite IH, len_cons. do 3 f_equal. lia. Qed.

Lemma push_records_eq start limit records result : len result < limit →
  let all := result ++ filter (λ r, start ≤ rec_sequence r) records in
  push_records start limit records result = (take (N.to_nat limit) all, limit <=? len all).
Proof.
  revert result. induction records as [|r records IH]; intros result Hlen all; simpl.
  - unfold all. rewrite filter_nil, app_nil_r, take_ge by (unfold len in *; lia). f_equal. symmetry. apply N.leb_gt. done.
  - unfold all. rewrite filter_cons. destruct (N.ltb_spec (rec_sequence r) start).
    + rewrite decide_False by lia. by apply IH.
    + rewrite decide_True by lia. replace (result ++ r :: filter (λ r, start ≤ rec_sequence r) records)
        with ((result ++ [r]) ++ filter (λ r, start ≤ rec_sequence r) records) by (by rewrite <-(assoc_L (++))).
      assert (len (result ++ [r]) = len result + 1) as Hr by (by rewrite len_app).
      destruct (N.eqb_spec (len (result ++ [r])) limit) as [He|]; [|apply IH; lia].
      rewrite take_app_le, take_ge by (unfold len in *; lia). f_equal. symmetry. apply N.leb_le. rewrite len_app. lia.
Qed.

Lemma read_files_eq start limit segs : ∀ base result, len result < limit → base + len (concat segs) < U64 →
  Forall (Forall payload_fits) segs → Forall (λ s, segment_bytes s < U64) segs →
  read_files start limit (files_of base segs) result =
    Ok (take (N.to_nat limit) (result ++ filter (λ r, start ≤ rec_sequence r) (number_from base (concat segs)))).
Proof using blake3_len.
  induction segs as [|seg segs IH]; intros base result Hr Hb Hfit Hlen.
  { simpl. rewrite app_nil_r, take_ge by (unfold len in *; lia). done. }
  apply Forall_cons in Hfit as [Hf Hfit]. apply Forall_cons in Hlen as [Hl Hlen]. simpl in *. rewrite len_app in Hb.
  rewrite decode_whole by (done || lia). rewrite push_records_eq by done.
  rewrite number_from_app, filter_app, (assoc_L (++)).
  generalize (result ++ filter (λ r, start ≤ rec_sequence r) (number_from base seg)) as shown. intros shown.
  destruct (N.leb_spec limit (len shown)).
  - by rewrite take_app_le by (unfold len in *; lia).
  - rewrite take_ge by (unfold len in *; lia). by apply IH; try lia.
Qed.

(** Reading the files of a directory is [read_from] of [FabricStore]. *)
Lemma read_dir start limit d : len (sd_log d) + 1 < U64 → Forall (Forall payload_fits) (sd_segments d) →
  Forall (λ s, segment_bytes s < U64) (sd_segments d) →
  read_segments start limit (dir_files d) = Ok (take (N.to_nat limit) (records_from d start)).
Proof using blake3_len.
  intros Hb Hf Hl. unfold read_segments. destruct (N.eqb_spec limit 0) as [->|]; [done|].
  unfold dir_files. rewrite read_files_eq; [done|unfold len; simpl; lia|unfold sd_log in *; lia|done|done].
Qed.

(** The result of [dir_recovers] in terms of the directory. *)
Lemma dir_after d segs l config payload cut : sd_segments d = segs ++ [l] →
  starts_segment config (segment_bytes l) payload = false →
  sd_segments (appended config payload cut d) = segs ++ [after_cut l payload cut] ∧
  dir_state (appended config payload cut d) = mkStreamState (1 + len (concat segs) + len (after_cut l payload cut))
    (1 + len (concat segs)) (segment_bytes (after_cut l payload cut)).
Proof.
  intros Hd Hnew. assert (sd_segments (appended config payload cut d) = segs ++ [after_cut l payload cut]) as Hs.
  { unfold appended, current_segment_len, after_cut. rewrite Hd, last_snoc, Hnew. case_match; [done|]. simpl. by rewrite Hd, append_last_snoc. }
  split; [done|]. unfold dir_state, next_sequence, current_segment_len, last_base, sd_log.
  rewrite Hs, last_snoc, removelast_last, concat_app, len_app. simpl. rewrite app_nil_r. f_equal. lia.
Qed.
(** An append that does not start a segment. *)
Lemma append_recovers_last d segs l config payload cut : sd_segments d = segs ++ [l] →
  starts_segment config (segment_bytes l) payload = false → segments_ok d → payload_fits payload → len (sd_log d) + 2 < U64 →
  Forall (λ s, segment_bytes s + frame_len payload < U64) (sd_segments d) →
  let d' := appended config payload cut d in
  sd_log d' = (if cut <? frame_len payload then sd_log d else sd_log d ++ [payload]) ∧
  recover_segments (append_files config (dir_state d) payload cut (dir_files d)) = Ok (dir_state d', dir_files d') ∧
  (∀ start limit, read_segments start limit (dir_files d') = Ok (take (N.to_nat limit) (records_from d' start))) ∧ segments_ok d'.
Proof using blake3_len.
  intros Hd Hnew [Hne Hfit] Hp Hlen Hbytes d'. destruct (dir_after d segs l config payload cut Hd Hnew) as [Hs Hst].
  fold d' in Hs, Hst. unfold sd_log in Hlen. rewrite Hd in Hne, Hfit, Hlen, Hbytes. rewrite removelast_last in Hne.
  assert (sd_log d' = (if cut <? frame_len payload then sd_log d else sd_log d ++ [payload])) as Hlog.
  { unfold sd_log. rewrite Hs, Hd. unfold after_cut. case_match; [done|]. rewrite !concat_app. simpl. by rewrite !app_nil_r, (assoc_L (++)). }
  pose proof Hfit as [Hfs [Hfl _]%Forall_cons]%Forall_app. pose proof Hbytes as [Hbs [Hbl _]%Forall_cons]%Forall_app.
  assert (Forall payload_fits (after_cut l payload cut) ∧ segment_bytes (after_cut l payload cut) < U64) as [Hfa Hba].
  { unfold after_cut. case_match; [split; [done|lia]|]. rewrite segment_bytes_snoc.
    split; [by apply Forall_app; split; [|apply Forall_singleton]|lia]. }
  assert (Forall (Forall payload_fits) (sd_segments d')) as Hfd by (rewrite Hs; apply Forall_app; split; [done|by apply Forall_singleton]).
  split_and!; [done| | |].
  - rewrite Hst. unfold dir_files at 2. rewrite Hs. by apply dir_recovers.
  - intros start limit. apply read_dir; [|done|].
    + rewrite Hlog. unfold sd_log. rewrite Hd. case_match; [lia|]. rewrite len_app. unfold len at 2. simpl. lia.
    + rewrite Hs. apply Forall_app. split; [|by apply Forall_singleton]. apply (Forall_impl _ _ _ Hbs). intros. lia.
  - split; [|done]. by rewrite Hs, removelast_last.
Qed.
(** A crash in [create_segment] leaves a part of a header, with which the
    stream cannot be recovered. *)
Lemma torn_header_unrecoverable k segs : (k < 14)%nat → ∀ base st, next_seq st = base →
  Forall (Forall payload_fits) segs → Forall (λ s, segment_bytes s < U64) segs →
  let next := base + len (concat segs) in
  next < U64 → recover_files st (files_of base segs ++ [(next, take k (segment_header next))]) = Err InvalidData.
Proof using blake3_len.
  intros Hk. induction segs as [|seg segs IH]; intros base st Hst Hfit Hlen next Hb.
  - assert (next = base) as Hn by (unfold next; apply N.add_0_r). clearbody next. subst next.
    cbn [files_of recover_files app]. rewrite Hst, N.eqb_refl. cbn [negb]. unfold decode_segment.
    rewrite (proj2 (N.ltb_lt _ _)); [done|]. unfold len, SEGMENT_HEADER_LEN. rewrite length_take. lia.
  - apply Forall_cons in Hfit as [Hf Hfit]. apply Forall_cons in Hlen as [Hle Hlen].
    assert (next = base + len seg + len (concat segs)) as Hn by (unfold next; simpl; rewrite len_app; lia). clearbody next. subst next.
    cbn [files_of recover_files app]. rewrite Hst, N.eqb_refl. cbn [negb]. rewrite bool_decide_eq_false_2 by (by destruct (files_of _ segs)).
    rewrite decode_whole by (done || lia). rewrite next_after by lia. by rewrite IH by (done || lia).
Qed.

End segments.

(** [C8] A crash in the middle of an append: whatever part of the frame of a
    record has been written to the segment, and whether or not the append starts
    a segment (whose header is then complete), recovery finds the log as it was or, when the frame is complete,
    with the record; it cuts the file back to whole records, and reading the
    files gives the records of the log from any sequence on, up to any limit. *)
Theorem fabric_append_recovers blake3 config d payload cut :
  (∀ bs, len (blake3 bs) = 32) → segments_ok d → payload_fits payload → len (sd_log d) + 2 < U64 →
  Forall (λ s, segment_bytes s + frame_len payload < U64) (sd_segments d) →
  let d' := appended config payload cut d in
  sd_log d' = (if cut <? frame_len payload then sd_log d else sd_log d ++ [payload]) ∧
  recover_segments blake3 (append_files blake3 config (dir_state d) payload cut (dir_files blake3 d)) =
    Ok (dir_state d', dir_files blake3 d') ∧
  (∀ start limit, read_segments blake3 start limit (dir_files blake3 d') = Ok (take (N.to_nat limit) (records_from d' start))) ∧
  segments_ok d'.
Proof.
  intros Hblake Hok Hp Hlen Hbytes. destruct (starts_segment config (current_segment_len d) payload) eqn:Hnew.
  - destruct Hok as [Hne Hfit]. pose proof (new_segment_full d config payload Hnew Hne) as Hfull.
    rewrite append_files_new by done.
    assert (appended config payload cut d = appended config payload cut (add_segment d)) as ->.
    { unfold appended. rewrite Hnew. unfold current_segment_len. simpl. by rewrite last_snoc. }
    assert (sd_log (add_segment d) = sd_log d) as Hlog.
    { unfold sd_log. simpl. rewrite concat_app. simpl. by rewrite app_nil_r. }
    rewrite <-Hlog in Hlen |- *. apply (append_recovers_last blake3 Hblake _ (sd_segments d) []); try done; simpl.
    + split; simpl; [by rewrite removelast_last|]. apply Forall_app. split; [done|]. by apply Forall_singleton.
    + apply Forall_app. split; [done|]. apply Forall_singleton. unfold payload_fits, U32, U64 in *.
      unfold segment_bytes, frame_len, SEGMENT_HEADER_LEN, RECORD_HEADER_LEN. simpl. lia.
  - unfold current_segment_len in Hnew. destruct (sd_segments d) as [|l segs _] eqn:Hd using rev_ind; [done|].
    rewrite last_snoc in Hnew. rewrite <-Hd in Hbytes. by apply (append_recovers_last blake3 Hblake d segs l).
Qed.

Lemma fabric_append_recovers_witness :
  let d := add_record (str "a") (add_segment new_dir) in
  let d' := appended (mkFabricStreamConfig 100) (str "bc") 7 d in
  sd_log d' = [str "a"] ∧
  recover_segments (λ _, repeat 0 32) (append_files (λ _, repeat 0 32) (mkFabricStreamConfig 100) (dir_state d) (str "bc") 7
    (dir_files (λ _, repeat 0 32) d)) = Ok (dir_state d', dir_files (λ _, repeat 0 32) d').
Proof.
  destruct (fabric_append_recovers (λ _, repeat 0 32) (mkFabricStreamConfig 100) (add_record (str "a") (add_segment new_dir)) (str "bc") 7)
    as (H1 & H2 & _); [reflexivity| |reflexivity|reflexivity| |].
  - split; [constructor|]. repeat constructor.
  - repeat constructor.
  - split; [exact H1|exact H2].
Defined.
