(* ===== verification/FabricCluster.v ===== *)
(** * Fabric streams: placement and replication

    [src/runtime/fabric_stream_cluster.rs]: the placement of a stream on the
    members of a cluster, appends by the leader of the stream, their replication,
    acknowledgement and commit, recovery and retries.  Messages carry values; the
    JSON they travel in comes from a crate, of which only the length of an
    envelope is used.  The name of the stream, which every message carries, is
    that of the store. *)
From Stdlib Require Import String.
From S2P Require Import Prelude Bytes Text FabricStore.

Local Open Scope list_scope.
Local Open Scope N_scope.

(** ** Membership: what is used of [cluster.rs] *)

Inductive NodeStatus := Joining | Healthy | Suspicious | Failed | Leaving.

#[global] Instance NodeStatus_eq_dec : EqDecision NodeStatus.
Proof. solve_decision. Defined.

Record ClusterState := mkClusterState { cl_members : gmap N NodeStatus; cl_removed : gset N }.

Definition is_removed (cluster : ClusterState) (node : N) : bool := bool_decide (node ∈ cl_removed cluster).
Definition is_up (status : NodeStatus) : bool := match status with Healthy | Joining => true | _ => false end.
(** [get_node] with a status that takes messages. *)
Definition reachable (cluster : ClusterState) (node : N) : bool :=
  match cl_members cluster !! node with Some status => is_up status | None => false end.

(** ** Messages *)

Record FabricStreamPlacement := mkPlacement {
  pl_partition : N;
  pl_leader : N;
  pl_replicas : list N;
  pl_membership_fingerprint : N;
}.

#[global] Instance FabricStreamPlacement_eq_dec : EqDecision FabricStreamPlacement.
Proof. solve_decision. Defined.

Record FabricStreamReplicaAppend := mkAppend {
  app_partition : N;
  app_epoch : N;
  app_leader : N;
  app_membership_fingerprint : N;
  app_replication_factor : N;
  app_stream_config : FabricStreamConfig;
  app_sequence : N;
  app_payload : bytes;
}.

Record FabricStreamReplicaAck := mkAck {
  ack_partition : N;
  ack_epoch : N;
  ack_leader : N;
  ack_membership_fingerprint : N;
  ack_replication_factor : N;
  ack_sequence : N;
  ack_replica : N;
  ack_accepted : bool;
}.

Record FabricStreamCommitUpdate := mkCommitUpdate {
  cu_partition : N;
  cu_epoch : N;
  cu_leader : N;
  cu_membership_fingerprint : N;
  cu_replication_factor : N;
  cu_committed_sequence : N;
}.

Record FabricStreamEpochCommit := mkEpochCommit {
  ec_proposal : FabricStreamEpochProposalState;
  ec_affirmative_voters : list N;
  ec_committed_sequence : N;
}.

Record FabricStreamEpochRepairBatch := mkRepairBatch {
  rb_proposal : FabricStreamEpochProposalState;
  rb_target : N;
  rb_records : list FabricStreamRecord;
}.

Record FabricStreamEpochPullRequest := mkPullRequest {
  pq_proposal : FabricStreamEpochProposalState;
  pq_requester : N;
  pq_source : N;
  pq_start_sequence : N;
  pq_max_records : N;
}.

Record FabricStreamEpochPullResponse := mkPullResponse {
  pr_proposal : FabricStreamEpochProposalState;
  pr_requester : N;
  pr_source : N;
  pr_source_tail : N;
  pr_records : list FabricStreamRecord;
}.

(** The behaviours of [Packet::ActorMessage] to actor 0 that concern streams. *)
Inductive Packet :=
| ReplicaPacket (append : FabricStreamReplicaAppend)
| ReplicaAckPacket (ack : FabricStreamReplicaAck)
| CommitPacket (update : FabricStreamCommitUpdate)
| EpochPreparePacket (proposal : FabricStreamEpochProposalState)
| EpochVotePacket (vote : FabricStreamEpochVoteState)
| EpochCommitPacket (commit : FabricStreamEpochCommit)
| EpochRepairPacket (batch : FabricStreamEpochRepairBatch)
| EpochPullRequestPacket (request : FabricStreamEpochPullRequest)
| EpochPullResponsePacket (response : FabricStreamEpochPullResponse).

(** A packet on its way: the peer it comes from, its destination, and the
    [sender_node] written in it. *)
Record Envelope := mkEnvelope { env_from : N; env_to : N; env_sender : N; env_packet : Packet }.

(** ** The runtime *)

Record PendingReplicaCommit := mkTicket {
  tk_epoch : N;
  tk_leader : N;
  tk_membership_fingerprint : N;
  tk_replicas : gset N;
  tk_acknowledgements : gset N;
  tk_rejections : gset N;
  tk_quorum : N;
}.

(** Times are in milliseconds. *)
Record FabricStreamRetrySchedule := mkSchedule { rs_next_attempt : N; rs_backoff : N }.

Definition FABRIC_STREAM_RETRY_INITIAL : N := 500.
Definition FABRIC_STREAM_RETRY_MAX : N := 30000.
Definition MAX_REPLICA_ENVELOPE_BYTES : N := 8 * 1024 * 1024.

(** The nodes with a connection, and what has been sent. *)
Record Transport := mkTransport { tp_connections : gset N; tp_sent : list Envelope }.

(** The parts of [Runtime] that the streams use: [distributed] with the tickets
    and schedules of this stream by partition, and the clock. *)
Record Runtime := mkRuntime {
  rt_node_id : option N;
  rt_fabric_streams : option FileFabricStreamStore;
  rt_cluster : option ClusterState;
  rt_transport : option Transport;
  rt_pending : gmap N (gmap N PendingReplicaCommit);
  rt_retry_schedules : gmap N FabricStreamRetrySchedule;
  rt_failover_retry : option (N * N);
  rt_now : N;
}.

Definition set_store (v : option FileFabricStreamStore) (rt : Runtime) : Runtime :=
  mkRuntime (rt_node_id rt) v (rt_cluster rt) (rt_transport rt) (rt_pending rt) (rt_retry_schedules rt)
    (rt_failover_retry rt) (rt_now rt).
Definition set_cluster (v : option ClusterState) (rt : Runtime) : Runtime :=
  mkRuntime (rt_node_id rt) (rt_fabric_streams rt) v (rt_transport rt) (rt_pending rt) (rt_retry_schedules rt)
    (rt_failover_retry rt) (rt_now rt).
Definition set_transport (v : option Transport) (rt : Runtime) : Runtime :=
  mkRuntime (rt_node_id rt) (rt_fabric_streams rt) (rt_cluster rt) v (rt_pending rt) (rt_retry_schedules rt)
    (rt_failover_retry rt) (rt_now rt).
Definition set_pending (v : gmap N (gmap N PendingReplicaCommit)) (rt : Runtime) : Runtime :=
  mkRuntime (rt_node_id rt) (rt_fabric_streams rt) (rt_cluster rt) (rt_transport rt) v (rt_retry_schedules rt)
    (rt_failover_retry rt) (rt_now rt).
Definition set_retry_schedules (v : gmap N FabricStreamRetrySchedule) (rt : Runtime) : Runtime :=
  mkRuntime (rt_node_id rt) (rt_fabric_streams rt) (rt_cluster rt) (rt_transport rt) (rt_pending rt) v
    (rt_failover_retry rt) (rt_now rt).
Definition set_failover_retry (v : option (N * N)) (rt : Runtime) : Runtime :=
  mkRuntime (rt_node_id rt) (rt_fabric_streams rt) (rt_cluster rt) (rt_transport rt) (rt_pending rt)
    (rt_retry_schedules rt) v (rt_now rt).

Abbreviation RtOp := (Op Runtime).

Definition fabric_stream_store_mut {A} (m : StoreOp A) : RtOp A := λ rt,
  match rt_fabric_streams rt with
  | None => Some (Err NotConnected, rt)
  | Some store =>
      match m store with
      | Some (r, store) => Some (r, set_store (Some store) rt)
      | None => None
      end
  end.

Definition fabric_stream_append payload := fabric_stream_store_mut (append payload).
Definition fabric_stream_read start limit := fabric_stream_store_mut (read_from start limit).
Definition fabric_stream_info := fabric_stream_store_mut stream_info.
Definition fabric_stream_committed_sequence := fabric_stream_store_mut committed_sequence.
Definition fabric_stream_read_committed start limit := fabric_stream_store_mut (read_committed start limit).
Definition fabric_stream_commit_through sequence := fabric_stream_store_mut (commit_through sequence).
Definition fabric_stream_replication_policy := fabric_stream_store_mut replication_policy.
Definition fabric_stream_establish_replication_policy policy :=
  fabric_stream_store_mut (establish_replication_policy policy).
Definition fabric_stream_epoch_promise := fabric_stream_store_mut epoch_promise.
Definition fabric_stream_promise_epoch epoch hash := fabric_stream_store_mut (promise_epoch epoch hash).
Definition fabric_stream_begin_epoch_transition_state proposal :=
  fabric_stream_store_mut (begin_epoch_transition proposal).
Definition fabric_stream_epoch_transition_state := fabric_stream_store_mut epoch_transition.
Definition fabric_stream_record_epoch_vote vote := fabric_stream_store_mut (record_epoch_vote vote).
Definition fabric_stream_finalize_epoch_transition_state committed :=
  fabric_stream_store_mut (finalize_epoch_transition committed).
Definition fabric_stream_install_epoch_policy from_policy to_policy hash :=
  fabric_stream_store_mut (install_epoch_policy from_policy to_policy hash).
Definition fabric_stream_reserve_replication_intent intent :=
  fabric_stream_store_mut (reserve_replication_intent intent).
Definition fabric_stream_pending_replication_intents := fabric_stream_store_mut pending_replication_intents.
Definition fabric_stream_remove_replication_intent sequence :=
  fabric_stream_store_mut (remove_replication_intent sequence).
Definition fabric_stream_append_reserved_replica sequence payload :=
  fabric_stream_store_mut (append_reserved_replica sequence payload).
Definition fabric_stream_replica_progress replica := fabric_stream_store_mut (replica_progress replica).
Definition fabric_stream_record_replica_progress replica sequence :=
  fabric_stream_store_mut (record_replica_progress replica sequence).
Definition fabric_stream_config := fabric_stream_store_mut stream_config.

Definition fabric_stream_apply_transition_repair_record (sequence : N) (payload : bytes) : RtOp unit :=
  appended ← fabric_stream_store_mut (append_replica sequence payload);
  op_guard (negb appended) AlreadyExists.

(** [self.distributed.node_id.ok_or_else(..)] *)
Definition local_node : RtOp N := node ← op_gets rt_node_id; op_some node NotConnected.

(** [transport.send], when there is a transport. *)
Definition send (sender to : N) (packet : Packet) : RtOp unit := op_modify (λ rt,
  match rt_transport rt, rt_node_id rt with
  | Some tp, Some local =>
      set_transport (Some (mkTransport (tp_connections tp) (tp_sent tp ++ [mkEnvelope local to sender packet]))) rt
  | _, _ => rt
  end).
Definition need_transport : RtOp unit :=
  transport ← op_gets rt_transport; op_guard (negb (bool_decide (is_Some transport))) NotConnected.

Definition head_at (records : list FabricStreamRecord) (sequence : N) : option FabricStreamRecord :=
  match records with
  | record :: _ => if rec_sequence record =? sequence then Some record else None
  | [] => None
  end.

Section cluster.
(** [blake3], and the JSON of an envelope. *)
Context (blake3 : bytes → bytes) (append_json : FabricStreamReplicaAppend → bytes).

(** ** Placement *)

Definition membership_fingerprint (nodes : list N) : N :=
  from_be_bytes (take 8 (blake3 (str "nulang-fabric-stream-membership-v1" ++ concat (map (to_be_bytes 8) nodes)))).

Definition rendezvous_score (stream : bytes) (partition node : N) : N :=
  from_be_bytes (take 16 (blake3 (str "nulang-fabric-stream-placement-v1" ++ to_be_bytes 8 (len stream) ++ stream
    ++ to_be_bytes 2 partition ++ to_be_bytes 8 node))).

(** Sorting by [Reverse((score, Reverse(node)))]. *)
Definition placed_before (stream : bytes) (partition a b : N) : Prop :=
  let score := rendezvous_score stream partition in
  score b < score a ∨ (score a = score b ∧ a ≤ b).
#[global] Instance placed_before_dec stream partition : RelDecision (placed_before stream partition).
Proof. intros a b. apply _. Defined.

Definition candidates_of (local : N) (cluster : option ClusterState) : list N :=
  match cluster with
  | Some cluster =>
      merge_sort N.le
        (filter (λ node, cl_members cluster !! node ≠ Some Leaving ∧ node ∉ cl_removed cluster)
           (elements (dom (cl_members cluster))))
  | None => [local]
  end.

Definition compute_stream_placement (local : N) (cluster : option ClusterState) (stream : bytes)
    (partition replication_factor : N) : option (result FabricStreamPlacement FabricError) :=
  if len stream =? 0 then Some (Err InvalidInput) else
  if replication_factor =? 0 then Some (Err InvalidInput) else
  let candidates := candidates_of local cluster in
  if len candidates <? replication_factor then Some (Err InvalidInput) else
  let fingerprint := membership_fingerprint candidates in
  let replicas := take (N.to_nat replication_factor) (merge_sort (placed_before stream partition) candidates) in
  match replicas with
  | leader :: _ => Some (Ok (mkPlacement partition leader replicas fingerprint))
  | [] => None
  end.

(** The same as a call, with the name of the stream. *)
Definition compute_placement (local : N) (cluster : option ClusterState) (partition replication_factor : N)
    : RtOp FabricStreamPlacement := λ rt,
  let stream := match rt_fabric_streams rt with Some store => fs_name store | None => [] end in
  match compute_stream_placement local cluster stream partition replication_factor with
  | Some r => Some (r, rt)
  | None => None
  end.

Definition fabric_stream_placement (partition replication_factor : N) : RtOp FabricStreamPlacement :=
  local ← local_node;
  cluster ← op_gets rt_cluster;
  compute_placement local cluster partition replication_factor.

(** ** Policies *)

Definition policy_from_placement (placement : FabricStreamPlacement) (epoch : N) : FabricStreamReplicationPolicy :=
  mkPolicy (pl_partition placement) epoch (pl_leader placement) (pl_membership_fingerprint placement)
    (len (pl_replicas placement)) (pl_replicas placement).

Definition fenced (promise : option FabricStreamEpochPromise) (epoch : N) : bool :=
  match promise with Some promise => epoch <? prm_epoch promise | None => false end.

Definition fabric_stream_policy_for_placement (placement : FabricStreamPlacement) (epoch : N)
    : RtOp FabricStreamReplicationPolicy :=
  op_guard (epoch =? 0) InvalidData;;
  let proposed := policy_from_placement placement epoch in
  promise ← fabric_stream_epoch_promise;
  op_guard (fenced promise epoch) PermissionDenied;;
  existing ← fabric_stream_replication_policy;
  match existing with
  | Some existing => if bool_decide (existing = proposed) then mret existing else op_fail InvalidData
  | None =>
      if epoch =? FABRIC_STREAM_INITIAL_EPOCH then
        info ← fabric_stream_info;
        op_guard (bool_decide (is_Some (info_last_sequence info)) || (0 <? info_committed_sequence info)) InvalidData;;
        fabric_stream_establish_replication_policy proposed
      else op_fail InvalidData
  end.

Definition fabric_stream_placement_from_policy (policy : FabricStreamReplicationPolicy) : FabricStreamPlacement :=
  mkPlacement (pol_partition policy) (pol_leader policy) (pol_replicas policy) (pol_membership_fingerprint policy).

Definition fabric_stream_validate_installed_policy (partition replication_factor epoch : N)
    : RtOp (FabricStreamPlacement * FabricStreamReplicationPolicy) :=
  op_guard (epoch =? 0) InvalidData;;
  policy ← fabric_stream_replication_policy;
  policy ← op_some policy NotFound;
  op_guard (negb (pol_epoch policy =? epoch) || negb (pol_partition policy =? partition)
            || negb (pol_replication_factor policy =? replication_factor)) InvalidData;;
  promise ← fabric_stream_epoch_promise;
  op_guard (fenced promise epoch) PermissionDenied;;
  mret (fabric_stream_placement_from_policy policy, policy).

Definition fabric_stream_current_installed_policy_placement (partition replication_factor : N)
    : RtOp (FabricStreamPlacement * FabricStreamReplicationPolicy) :=
  policy ← fabric_stream_replication_policy;
  policy ← op_some policy NotFound;
  fabric_stream_validate_installed_policy partition replication_factor (pol_epoch policy).

Definition fabric_stream_current_or_bootstrap_policy_placement (partition replication_factor : N)
    : RtOp (FabricStreamPlacement * FabricStreamReplicationPolicy) :=
  policy ← fabric_stream_replication_policy;
  match policy with
  | Some policy => fabric_stream_validate_installed_policy partition replication_factor (pol_epoch policy)
  | None =>
      placement ← fabric_stream_placement partition replication_factor;
      policy ← fabric_stream_policy_for_placement placement FABRIC_STREAM_INITIAL_EPOCH;
      mret (placement, policy)
  end.

(** ** Sending *)

Definition append_to_wire (append : FabricStreamReplicaAppend) : result unit FabricError :=
  if MAX_REPLICA_ENVELOPE_BYTES <? len (append_json append) then Err InvalidInput else Ok tt.

Record FabricStreamReplicaDispatchReport := mkDispatchReport {
  dr_intended_remote : N; dr_dispatched : N; dr_unavailable : N
}.

Definition fabric_stream_dispatch_replica_append (placement : FabricStreamPlacement)
    (append : FabricStreamReplicaAppend) : RtOp FabricStreamReplicaDispatchReport :=
  op_guard (negb (pl_partition placement =? app_partition append)
            || negb (pl_leader placement =? app_leader append)
            || negb (pl_membership_fingerprint placement =? app_membership_fingerprint append)
            || negb (len (pl_replicas placement) =? app_replication_factor append)) InvalidInput;;
  '(installed, _) ←
    fabric_stream_validate_installed_policy (app_partition append) (app_replication_factor append) (app_epoch append);
  op_guard (negb (bool_decide (installed = placement))) InvalidData;;
  local ← local_node;
  op_guard (negb (local =? pl_leader placement)) PermissionDenied;;
  op_result (append_to_wire append);;
  cluster ← op_gets rt_cluster;
  cluster ← op_some cluster NotConnected;
  let remote := filter (λ node, node ≠ local) (pl_replicas placement) in
  let targets := filter (λ node, reachable cluster node = true) remote in
  let unavailable := len remote - len targets in
  match targets with
  | [] => mret (mkDispatchReport (len remote) 0 unavailable)
  | _ =>
      need_transport;;
      op_each (λ node, send local node (ReplicaPacket append)) targets;;
      mret (mkDispatchReport (len remote) (len targets) unavailable)
  end.

Definition fabric_stream_dispatch_replica_to (target : N) (append : FabricStreamReplicaAppend) : RtOp bool :=
  '(placement, _) ←
    fabric_stream_validate_installed_policy (app_partition append) (app_replication_factor append) (app_epoch append);
  op_guard (negb (pl_leader placement =? app_leader append)
            || negb (pl_membership_fingerprint placement =? app_membership_fingerprint append)
            || negb (bool_decide (target ∈ pl_replicas placement))) PermissionDenied;;
  local ← local_node;
  op_guard (negb (app_leader append =? local)) PermissionDenied;;
  cluster ← op_gets rt_cluster;
  if match cluster with Some cluster => reachable cluster target | None => false end then
    op_result (append_to_wire append);;
    need_transport;;
    send local target (ReplicaPacket append);;
    mret true
  else mret false.

Definition fabric_stream_dispatch_commit_update_to (target : N) (placement : FabricStreamPlacement)
    (committed_sequence : N) : RtOp bool :=
  if committed_sequence =? 0 then mret false else
  '(installed, policy) ←
    fabric_stream_current_installed_policy_placement (pl_partition placement) (len (pl_replicas placement));
  op_guard (negb (bool_decide (installed = placement))) InvalidData;;
  local ← local_node;
  op_guard (negb (pl_leader placement =? local) || negb (bool_decide (target ∈ pl_replicas placement))
            || (target =? local)) PermissionDenied;;
  cluster ← op_gets rt_cluster;
  if match cluster with Some cluster => reachable cluster target | None => false end then
    need_transport;;
    send local target (CommitPacket (mkCommitUpdate (pl_partition placement) (pol_epoch policy) (pl_leader placement)
      (pl_membership_fingerprint placement) (len (pl_replicas placement)) committed_sequence));;
    mret true
  else mret false.

(** ** Commits *)

Definition ticket_of (pending : gmap N (gmap N PendingReplicaCommit)) (partition sequence : N)
    : option PendingReplicaCommit :=
  entries ← pending !! partition; entries !! sequence.

(** [entries.insert(sequence, ticket)] of [pending.entry(key).or_default()]. *)
Definition put_ticket (partition sequence : N) (ticket : PendingReplicaCommit) (rt : Runtime) : Runtime :=
  set_pending (<[partition := <[sequence := ticket]> (default ∅ (rt_pending rt !! partition))]> (rt_pending rt)) rt.

(** The tickets of a partition after a removal; an empty map goes with its
    schedule. *)
Definition put_entries (partition : N) (entries : gmap N PendingReplicaCommit) (rt : Runtime) : Runtime :=
  if bool_decide (entries = ∅) then
    set_retry_schedules (delete partition (rt_retry_schedules rt)) (set_pending (delete partition (rt_pending rt)) rt)
  else set_pending (<[partition := entries]> (rt_pending rt)) rt.

Definition update_entries (partition : N) (f : gmap N PendingReplicaCommit → gmap N PendingReplicaCommit)
    : RtOp unit := op_modify (λ rt,
  match rt_pending rt !! partition with
  | Some entries => put_entries partition (f entries) rt
  | None => rt
  end).

(** [retry_schedules.entry(key).or_insert(schedule)] *)
Definition or_insert_schedule (partition : N) (schedule : FabricStreamRetrySchedule) : RtOp unit := op_modify (λ rt,
  match rt_retry_schedules rt !! partition with
  | Some _ => rt
  | None => set_retry_schedules (<[partition := schedule]> (rt_retry_schedules rt)) rt
  end).

(** Each round of the loop takes a ticket away. *)
Fixpoint advance_loop (fuel : nat) (partition committed : N) : RtOp N :=
  match fuel with
  | O => mret committed
  | S fuel =>
      let next := saturating_add64 committed 1 in
      pending ← op_gets rt_pending;
      if match ticket_of pending partition next with
         | Some ticket => tk_quorum ticket <=? N.of_nat (size (tk_acknowledgements ticket))
         | None => false
         end
      then
        fabric_stream_commit_through next;;
        _ ← fabric_stream_remove_replication_intent next;
        update_entries partition (delete next);;
        advance_loop fuel partition next
      else mret committed
  end.

Definition fabric_stream_advance_commits (partition : N) : RtOp N :=
  committed ← fabric_stream_committed_sequence;
  pending ← op_gets rt_pending;
  advance_loop (S (size (default ∅ (pending !! partition)))) partition committed.

Definition fabric_stream_retire_old_epoch_pending (partition through_sequence : N) : RtOp unit :=
  intents ← fabric_stream_pending_replication_intents;
  op_each (λ intent,
    if int_sequence intent <=? through_sequence then
      _ ← fabric_stream_remove_replication_intent (int_sequence intent); mret tt
    else mret tt) intents;;
  update_entries partition (filter (λ e, through_sequence < e.1)).

Record FabricStreamReplicationStatus := mkStatus {
  rst_sequence : N; rst_quorum : N; rst_acknowledgements : N; rst_rejections : N; rst_committed : bool
}.

Definition fabric_stream_replication_status (partition sequence : N) : RtOp FabricStreamReplicationStatus :=
  committed ← fabric_stream_committed_sequence;
  if sequence <=? committed then mret (mkStatus sequence 0 0 0 true) else
  pending ← op_gets rt_pending;
  ticket ← op_some (ticket_of pending partition sequence) NotFound;
  mret (mkStatus sequence (tk_quorum ticket) (N.of_nat (size (tk_acknowledgements ticket)))
    (N.of_nat (size (tk_rejections ticket))) false).

(** ** Appends by the leader *)

Definition new_ticket (local epoch : N) (placement : FabricStreamPlacement) (quorum : N) : PendingReplicaCommit :=
  mkTicket epoch (pl_leader placement) (pl_membership_fingerprint placement) (list_to_set (pl_replicas placement))
    {[ local ]} ∅ quorum.

Record FabricStreamReplicatedAppendResult := mkAppendResult {
  ar_sequence : N; ar_status : FabricStreamReplicationStatus; ar_dispatch : FabricStreamReplicaDispatchReport
}.

(** The local node of a call that takes it for granted, as the leader of the
    placement and, when there is a cluster, up. *)
Definition check_local_leader (placement : FabricStreamPlacement) : RtOp N :=
  node ← op_gets rt_node_id;
  local ← op_expect node;
  op_guard (negb (pl_leader placement =? local)) WouldBlock;;
  cluster ← op_gets rt_cluster;
  op_guard (match cluster with Some cluster => negb (reachable cluster local) | None => false end) WouldBlock;;
  mret local.

Definition fabric_stream_replicated_append (partition replication_factor : N) (payload : bytes)
    : RtOp FabricStreamReplicatedAppendResult :=
  op_guard (negb (partition =? 0)) Unsupported;;
  '(placement, policy) ← fabric_stream_current_or_bootstrap_policy_placement partition replication_factor;
  local ← check_local_leader placement;
  config ← fabric_stream_config;
  info ← fabric_stream_info;
  let sequence := info_next_sequence info in
  let epoch := pol_epoch policy in
  fabric_stream_reserve_replication_intent
    (mkIntent partition epoch (pl_leader placement) (pl_membership_fingerprint placement) replication_factor
       (pl_replicas placement) sequence);;
  fabric_stream_append_reserved_replica sequence payload;;
  let append :=
    mkAppend partition epoch (pl_leader placement) (pl_membership_fingerprint placement) replication_factor config
      sequence payload in
  let quorum := replication_factor / 2 + 1 in
  op_modify (put_ticket partition sequence (new_ticket local epoch placement quorum));;
  now ← op_gets rt_now;
  or_insert_schedule partition (mkSchedule (now + FABRIC_STREAM_RETRY_INITIAL) FABRIC_STREAM_RETRY_INITIAL);;
  status ←
    (if quorum =? 1 then
       _ ← fabric_stream_advance_commits partition; mret (mkStatus sequence 1 1 0 true)
     else fabric_stream_replication_status partition sequence);
  dispatch ← fabric_stream_dispatch_replica_append placement append;
  mret (mkAppendResult sequence status dispatch).

Definition fabric_stream_prepare_replica_append (partition replication_factor : N) (payload : bytes)
    : RtOp (FabricStreamPlacement * FabricStreamReplicaAppend) :=
  op_guard (negb (partition =? 0)) Unsupported;;
  '(placement, policy) ← fabric_stream_current_or_bootstrap_policy_placement partition replication_factor;
  local ← check_local_leader placement;
  config ← fabric_stream_config;
  sequence ← fabric_stream_append payload;
  mret (placement, mkAppend partition (pol_epoch policy) local (pl_membership_fingerprint placement)
    replication_factor config sequence payload).

(** ** Recovery and retries *)

Record FabricStreamRecoveryReport := mkRecovery {
  rr_recovered : N; rr_removed_committed : N; rr_removed_orphan_reservations : N
}.

(** The ticket of an intent whose record is in the log. *)
Definition recover_ticket (local : N) (intent : FabricStreamPendingIntent) (report : FabricStreamRecoveryReport)
    : RtOp FabricStreamRecoveryReport :=
  '(placement, policy) ←
    fabric_stream_validate_installed_policy (int_partition intent) (int_replication_factor intent) (int_epoch intent);
  op_guard (negb (pol_epoch policy =? int_epoch intent) || negb (pl_leader placement =? int_leader intent)
            || negb (pl_membership_fingerprint placement =? int_membership_fingerprint intent)
            || negb (bool_decide (pl_replicas placement = int_replicas intent))) InvalidData;;
  op_guard (negb (pl_leader placement =? local)) PermissionDenied;;
  pending ← op_gets rt_pending;
  if bool_decide (is_Some (ticket_of pending (int_partition intent) (int_sequence intent))) then mret report else
  op_modify (put_ticket (int_partition intent) (int_sequence intent)
    (new_ticket local (int_epoch intent) placement (int_replication_factor intent / 2 + 1)));;
  mret (mkRecovery (rr_recovered report + 1) (rr_removed_committed report) (rr_removed_orphan_reservations report)).

Definition recover_intent (local committed next : N) (intent : FabricStreamPendingIntent)
    (report : FabricStreamRecoveryReport) : RtOp FabricStreamRecoveryReport :=
  if int_sequence intent <=? committed then
    _ ← fabric_stream_remove_replication_intent (int_sequence intent);
    mret (mkRecovery (rr_recovered report) (rr_removed_committed report + 1) (rr_removed_orphan_reservations report))
  else
  records ← fabric_stream_read (int_sequence intent) 1;
  match head_at records (int_sequence intent) with
  | None =>
      if int_sequence intent =? next then
        _ ← fabric_stream_remove_replication_intent (int_sequence intent);
        mret (mkRecovery (rr_recovered report) (rr_removed_committed report)
          (rr_removed_orphan_reservations report + 1))
      else op_fail InvalidData
  | Some _ => recover_ticket local intent report
  end.

Fixpoint recover_intents (local committed next : N) (intents : list FabricStreamPendingIntent)
    (report : FabricStreamRecoveryReport) : RtOp FabricStreamRecoveryReport :=
  match intents with
  | [] => mret report
  | intent :: intents =>
      report ← recover_intent local committed next intent report;
      recover_intents local committed next intents report
  end.

Definition fabric_stream_recover_pending_from_cluster : RtOp FabricStreamRecoveryReport :=
  local ← local_node;
  committed ← fabric_stream_committed_sequence;
  info ← fabric_stream_info;
  intents ← fabric_stream_pending_replication_intents;
  report ← recover_intents local committed (info_next_sequence info) intents (mkRecovery 0 0 0);
  _ ← fabric_stream_advance_commits 0;
  pending ← op_gets rt_pending;
  now ← op_gets rt_now;
  (if bool_decide (is_Some (pending !! 0)) then or_insert_schedule 0 (mkSchedule now FABRIC_STREAM_RETRY_INITIAL)
   else mret tt);;
  mret report.

(** [self.distributed.cluster.take()] around a call, which gets the cluster. *)
Definition with_cluster {A} (m : ClusterState → RtOp A) : RtOp (result A FabricError) :=
  cluster ← op_gets rt_cluster;
  cluster ← op_some cluster NotConnected;
  op_modify (set_cluster None);;
  r ← op_try (m cluster);
  op_modify (set_cluster (Some cluster));;
  mret r.

Definition fabric_stream_recover_pending : RtOp FabricStreamRecoveryReport :=
  r ← with_cluster (λ _, fabric_stream_recover_pending_from_cluster);
  op_result r.

Record FabricStreamRetryReport := mkRetryReport {
  ry_pending_sequences : N; ry_intended_remote : N; ry_dispatched : N; ry_unavailable : N
}.

Definition retry_ticket (partition : N) (config : FabricStreamConfig) (sequence : N) (ticket : PendingReplicaCommit)
    (report : FabricStreamRetryReport) : RtOp FabricStreamRetryReport :=
  records ← fabric_stream_read sequence 1;
  record ← op_some (head_at records sequence) InvalidData;
  let replication_factor := N.of_nat (size (tk_replicas ticket)) in
  '(placement, policy) ← fabric_stream_validate_installed_policy partition replication_factor (tk_epoch ticket);
  op_guard (negb (pol_epoch policy =? tk_epoch ticket) || negb (pl_leader placement =? tk_leader ticket)
            || negb (pl_membership_fingerprint placement =? tk_membership_fingerprint ticket)
            || negb (bool_decide (list_to_set (pl_replicas placement) = tk_replicas ticket))) InvalidData;;
  dispatch ← fabric_stream_dispatch_replica_append placement
    (mkAppend partition (tk_epoch ticket) (tk_leader ticket) (tk_membership_fingerprint ticket) replication_factor
       config sequence (rec_payload record));
  mret (mkRetryReport (ry_pending_sequences report) (ry_intended_remote report + dr_intended_remote dispatch)
    (ry_dispatched report + dr_dispatched dispatch) (ry_unavailable report + dr_unavailable dispatch)).

Fixpoint retry_tickets (partition : N) (config : FabricStreamConfig) (tickets : list (N * PendingReplicaCommit))
    (report : FabricStreamRetryReport) : RtOp FabricStreamRetryReport :=
  match tickets with
  | [] => mret report
  | (sequence, ticket) :: tickets =>
      report ← retry_ticket partition config sequence ticket report;
      retry_tickets partition config tickets report
  end.

Definition fabric_stream_retry_pending (partition : N) : RtOp FabricStreamRetryReport :=
  _ ← fabric_stream_recover_pending;
  pending ← op_gets rt_pending;
  let tickets := match pending !! partition with Some entries => sorted_entries entries | None => [] end in
  let report := mkRetryReport (len tickets) 0 0 0 in
  match tickets with
  | [] => mret report
  | _ =>
      config ← fabric_stream_config;
      retry_tickets partition config tickets report
  end.

(** One due schedule; an error of the retry is only logged. *)
Definition tick_retry (partition : N) : RtOp unit :=
  _ ← op_try (fabric_stream_retry_pending partition);
  op_modify (λ rt,
    if bool_decide (is_Some (rt_pending rt !! partition)) then
      match rt_retry_schedules rt !! partition with
      | Some schedule =>
          let backoff := N.min (rs_backoff schedule * 2) FABRIC_STREAM_RETRY_MAX in
          set_retry_schedules (<[partition := mkSchedule (rt_now rt + backoff) backoff]> (rt_retry_schedules rt)) rt
      | None => rt
      end
    else set_retry_schedules (delete partition (rt_retry_schedules rt)) rt).

(** [order] is the order in which the map of schedules is walked. *)
Definition fabric_stream_tick_retries (order : gset N → list N) : RtOp unit :=
  rt ← op_get;
  let now := rt_now rt in
  let keys := dom (rt_pending rt) in
  let schedules :=
    filter (λ e, e.1 ∈ keys)
      (rt_retry_schedules rt ∪ gset_to_gmap (mkSchedule now FABRIC_STREAM_RETRY_INITIAL) keys) in
  op_modify (set_retry_schedules schedules);;
  op_each tick_retry (order (dom (filter (λ e, rs_next_attempt e.2 ≤ now) schedules))).

(** ** Catching up *)

Record FabricStreamCatchUpReport := mkCatchUp {
  cr_replicas_examined : N; cr_records_dispatched : N; cr_unavailable_replicas : N; cr_commit_updates_dispatched : N
}.

(** Records until the first that cannot be sent: how many were, and whether all. *)
Fixpoint catch_up_records (replica : N) (make : FabricStreamRecord → FabricStreamReplicaAppend)
    (records : list FabricStreamRecord) : RtOp (N * bool) :=
  match records with
  | [] => mret (0, true)
  | record :: records =>
      sent ← fabric_stream_dispatch_replica_to replica (make record);
      if sent : bool then
        '(n, all) ← catch_up_records replica make records; mret (n + 1, all)
      else mret (0, false)
  end.

Definition catch_up_replica (partition replication_factor max_records : N) (placement : FabricStreamPlacement)
    (epoch committed : N) (config : FabricStreamConfig) (replica : N) (report : FabricStreamCatchUpReport)
    : RtOp FabricStreamCatchUpReport :=
  progress ← fabric_stream_replica_progress replica;
  let examined := cr_replicas_examined report + 1 in
  if committed <=? progress then
    sent ← fabric_stream_dispatch_commit_update_to replica placement committed;
    mret (if sent : bool then
            mkCatchUp examined (cr_records_dispatched report) (cr_unavailable_replicas report)
              (cr_commit_updates_dispatched report + 1)
          else
            mkCatchUp examined (cr_records_dispatched report) (cr_unavailable_replicas report + 1)
              (cr_commit_updates_dispatched report))
  else
  records ← fabric_stream_read_committed (saturating_add64 progress 1) max_records;
  '(n, all) ← catch_up_records replica (λ record,
    mkAppend partition epoch (pl_leader placement) (pl_membership_fingerprint placement) replication_factor config
      (rec_sequence record) (rec_payload record)) records;
  mret (mkCatchUp examined (cr_records_dispatched report + n)
    (cr_unavailable_replicas report + (if all : bool then 0 else 1)) (cr_commit_updates_dispatched report)).

Fixpoint catch_up_replicas (partition replication_factor max_records : N) (placement : FabricStreamPlacement)
    (epoch committed : N) (config : FabricStreamConfig) (replicas : list N) (report : FabricStreamCatchUpReport)
    : RtOp FabricStreamCatchUpReport :=
  match replicas with
  | [] => mret report
  | replica :: replicas =>
      report ← catch_up_replica partition replication_factor max_records placement epoch committed config replica report;
      catch_up_replicas partition replication_factor max_records placement epoch committed config replicas report
  end.

Definition fabric_stream_catch_up_committed (partition replication_factor max_records : N)
    : RtOp FabricStreamCatchUpReport :=
  op_guard (max_records =? 0) InvalidInput;;
  '(placement, policy) ← fabric_stream_current_installed_policy_placement partition replication_factor;
  local ← local_node;
  op_guard (negb (pl_leader placement =? local)) PermissionDenied;;
  committed ← fabric_stream_committed_sequence;
  if committed =? 0 then mret (mkCatchUp 0 0 0 0) else
  config ← fabric_stream_config;
  catch_up_replicas partition replication_factor max_records placement (pol_epoch policy) committed config
    (filter (λ node, node ≠ local) (pl_replicas placement)) (mkCatchUp 0 0 0 0).

(** ** Acknowledgements *)

Record FabricStreamReplicaAckOutcome := mkAckOutcome {
  ao_placement : FabricStreamPlacement; ao_epoch : N; ao_committed_sequence : N
}.

Definition acknowledge (ack : FabricStreamReplicaAck) (ticket : PendingReplicaCommit) : PendingReplicaCommit :=
  let replica := ack_replica ack in
  let put acknowledgements rejections :=
    mkTicket (tk_epoch ticket) (tk_leader ticket) (tk_membership_fingerprint ticket) (tk_replicas ticket)
      acknowledgements rejections (tk_quorum ticket) in
  if ack_accepted ack then put ({[ replica ]} ∪ tk_acknowledgements ticket) (tk_rejections ticket ∖ {[ replica ]})
  else if bool_decide (replica ∈ tk_acknowledgements ticket) then ticket
  else put (tk_acknowledgements ticket) ({[ replica ]} ∪ tk_rejections ticket).

Definition fabric_stream_record_replica_ack (ack : FabricStreamReplicaAck) : RtOp FabricStreamReplicationStatus :=
  local ← local_node;
  op_guard (negb (ack_leader ack =? local)) PermissionDenied;;
  committed ← fabric_stream_committed_sequence;
  if ack_sequence ack <=? committed then mret (mkStatus (ack_sequence ack) 0 0 0 true) else
  pending ← op_gets rt_pending;
  ticket ← op_some (ticket_of pending (ack_partition ack) (ack_sequence ack)) NotFound;
  op_guard (negb (tk_epoch ticket =? ack_epoch ack) || negb (tk_leader ticket =? ack_leader ack)
            || negb (tk_membership_fingerprint ticket =? ack_membership_fingerprint ack)) InvalidData;;
  op_guard (negb (bool_decide (ack_replica ack ∈ tk_replicas ticket)) || (ack_replica ack =? local)) PermissionDenied;;
  let ticket := acknowledge ack ticket in
  op_modify (put_ticket (ack_partition ack) (ack_sequence ack) ticket);;
  committed ← fabric_stream_advance_commits (ack_partition ack);
  mret (mkStatus (ack_sequence ack) (tk_quorum ticket) (N.of_nat (size (tk_acknowledgements ticket)))
    (N.of_nat (size (tk_rejections ticket))) (ack_sequence ack <=? committed)).

Definition fabric_stream_record_replica_ack_from_cluster (ack : FabricStreamReplicaAck)
    : RtOp FabricStreamReplicaAckOutcome :=
  local ← local_node;
  '(current, policy) ←
    fabric_stream_validate_installed_policy (ack_partition ack) (ack_replication_factor ack) (ack_epoch ack);
  op_guard (negb (pol_epoch policy =? ack_epoch ack)
            || negb (pl_membership_fingerprint current =? ack_membership_fingerprint ack)
            || negb (pl_leader current =? ack_leader ack)
            || negb (bool_decide (ack_replica ack ∈ pl_replicas current))
            || (ack_replica ack =? local)) InvalidData;;
  (if ack_accepted ack then fabric_stream_record_replica_progress (ack_replica ack) (ack_sequence ack) else mret tt);;
  committed ← fabric_stream_committed_sequence;
  if ack_sequence ack <=? committed then mret (mkAckOutcome current (pol_epoch policy) committed) else
  pending ← op_gets rt_pending;
  (if bool_decide (is_Some (ticket_of pending (ack_partition ack) (ack_sequence ack))) then mret tt
   else _ ← fabric_stream_recover_pending_from_cluster; mret tt);;
  _ ← fabric_stream_record_replica_ack ack;
  committed ← fabric_stream_committed_sequence;
  mret (mkAckOutcome current (pol_epoch policy) committed).

(** ** Records and commits from the leader *)

Definition fabric_stream_apply_replica_with_placement (append : FabricStreamReplicaAppend)
    (placement : FabricStreamPlacement) : RtOp bool :=
  op_guard (negb (app_partition append =? 0)) Unsupported;;
  op_guard (negb (pl_membership_fingerprint placement =? app_membership_fingerprint append)) InvalidData;;
  op_guard (negb (pl_leader placement =? app_leader append)) InvalidData;;
  node ← op_gets rt_node_id;
  local ← op_expect node;
  op_guard (negb (bool_decide (local ∈ pl_replicas placement))) PermissionDenied;;
  config ← op_try fabric_stream_config;
  match config with
  | Ok existing => op_guard (negb (bool_decide (existing = app_stream_config append))) InvalidData
  | Err NotFound => fabric_stream_store_mut (create_stream (app_stream_config append))
  | Err e => op_fail e
  end;;
  policy ← fabric_stream_policy_for_placement placement (app_epoch append);
  op_guard (negb (pol_epoch policy =? app_epoch append)) InvalidData;;
  fabric_stream_store_mut (append_replica (app_sequence append) (app_payload append)).

(** [NotFound] of the policy counts as no policy. *)
Definition existing_policy : RtOp (option FabricStreamReplicationPolicy) :=
  policy ← op_try fabric_stream_replication_policy;
  match policy with
  | Ok policy => mret policy
  | Err NotFound => mret None
  | Err e => op_fail e
  end.

Definition fabric_stream_apply_replica_from_cluster (append : FabricStreamReplicaAppend) (cluster : ClusterState)
    : RtOp bool :=
  policy ← existing_policy;
  placement ←
    match policy with
    | Some _ =>
        '(placement, _) ← fabric_stream_validate_installed_policy (app_partition append)
          (app_replication_factor append) (app_epoch append);
        mret placement
    | None =>
        local ← local_node;
        compute_placement local (Some cluster) (app_partition append) (app_replication_factor append)
    end;
  fabric_stream_apply_replica_with_placement append placement.

Definition fabric_stream_apply_replica (append : FabricStreamReplicaAppend) : RtOp bool :=
  policy ← existing_policy;
  placement ←
    match policy with
    | Some _ =>
        '(placement, _) ← fabric_stream_validate_installed_policy (app_partition append)
          (app_replication_factor append) (app_epoch append);
        mret placement
    | None => fabric_stream_placement (app_partition append) (app_replication_factor append)
    end;
  fabric_stream_apply_replica_with_placement append placement.

Definition fabric_stream_apply_commit_update_from_cluster (update : FabricStreamCommitUpdate) : RtOp unit :=
  local ← local_node;
  '(placement, policy) ←
    fabric_stream_validate_installed_policy (cu_partition update) (cu_replication_factor update) (cu_epoch update);
  op_guard (negb (pol_epoch policy =? cu_epoch update) || negb (pl_leader placement =? cu_leader update)
            || negb (pl_membership_fingerprint placement =? cu_membership_fingerprint update)
            || negb (bool_decide (local ∈ pl_replicas placement)) || (local =? pl_leader placement)) PermissionDenied;;
  info ← fabric_stream_info;
  op_guard (default 0 (info_last_sequence info) <? cu_committed_sequence update) WouldBlock;;
  fabric_stream_commit_through (cu_committed_sequence update).

End cluster.
