(* ===== verification/FabricEpoch.v ===== *)
(** * Fabric streams: epoch transitions

    [src/runtime/fabric_stream_epoch.rs]: a new epoch of a stream is proposed by
    its prospective leader, promised by replicas of the old epoch and installed
    when a majority of them has promised it; repair and pull of records, retries
    of a failover.  The handlers of the packets that concern streams are those
    of [src/runtime/distributed.rs]. *)
From Stdlib Require Import String.
From S2P Require Import Prelude Bytes Text FabricStore FabricCluster.

Local Open Scope list_scope.
Local Open Scope N_scope.

Definition FABRIC_STREAM_FAILOVER_RETRY_INITIAL : N := 500.
Definition FABRIC_STREAM_FAILOVER_RETRY_MAX : N := 30000.
Definition FABRIC_STREAM_AUTO_REPAIR_MAX_RECORDS : N := 256.

Record FabricStreamEpochTransitionStatus := mkTransitionStatus {
  ts_from_epoch : N;
  ts_to_epoch : N;
  ts_affirmative_votes : N;
  ts_rejected_votes : N;
  ts_quorum : N;
  ts_finalized : bool;
  ts_committed_sequence : N;
}.

Record FabricStreamAutoFailoverReport := mkFailoverReport {
  fr_streams_examined : N;
  fr_leader_streams : N;
  fr_transitions_started : N;
  fr_skipped_no_old_quorum : N;
  fr_skipped_not_candidate : N;
  fr_skipped_requires_new_replica : N;
  fr_errors : N;
}.

Record FabricStreamEpochRepairReport := mkRepairReport {
  er_replicas_examined : N; er_records_dispatched : N; er_unavailable_replicas : N; er_ahead_replicas : N
}.

Record FabricStreamEpochPullReport := mkPullReport {
  ep_ahead_replicas : N; ep_requests_dispatched : N; ep_unavailable_replicas : N; ep_source_tail : N
}.

Record FabricStreamEpochVoteOutcome := mkVoteOutcome {
  vo_status : FabricStreamEpochTransitionStatus; vo_commit : option FabricStreamEpochCommit
}.

Definition old_quorum (policy : FabricStreamReplicationPolicy) : N := pol_replication_factor policy / 2 + 1.

Definition count_votes (p : FabricStreamEpochVoteState → bool) (state : FabricStreamEpochTransitionState) : N :=
  len (filter (λ vote, p vote = true) (sorted_values (tr_votes state))).

Definition status_from_state (state : FabricStreamEpochTransitionState) : FabricStreamEpochTransitionStatus :=
  let proposal := tr_proposal state in
  mkTransitionStatus (pol_epoch (prop_from proposal)) (pol_epoch (prop_to proposal)) (count_votes vote_accepted state)
    (count_votes (λ vote, negb (vote_accepted vote)) state) (old_quorum (prop_from proposal)) (tr_finalized state)
    (tr_quorum_committed state).

(** The votes for the exact tail of the candidate, in the order of the voters. *)
Definition affirmative (state : FabricStreamEpochTransitionState) : list FabricStreamEpochVoteState :=
  filter (λ vote, vote_accepted vote = true ∧ vote_tail vote = prop_candidate_tail (tr_proposal state))
    (sorted_values (tr_votes state)).

Definition commit_from_state (state : FabricStreamEpochTransitionState) : result FabricStreamEpochCommit FabricError :=
  if negb (tr_finalized state) then Err WouldBlock else
  Ok (mkEpochCommit (tr_proposal state) (map vote_voter (affirmative state)) (tr_quorum_committed state)).

Definition hash_policy (policy : FabricStreamReplicationPolicy) : bytes :=
  to_be_bytes 2 (pol_partition policy) ++ to_be_bytes 8 (pol_epoch policy) ++ to_be_bytes 8 (pol_leader policy)
  ++ to_be_bytes 8 (pol_membership_fingerprint policy) ++ to_be_bytes 8 (pol_replication_factor policy)
  ++ concat (map (to_be_bytes 8) (pol_replicas policy)).

Section epoch.
Context (blake3 : bytes → bytes) (append_json : FabricStreamReplicaAppend → bytes).

Definition epoch_proposal_hash (stream : bytes) (from to : FabricStreamReplicationPolicy) (candidate_tail : N) : bytes :=
  let digest := blake3 (str "nulang-fabric-stream-epoch-transition-v1" ++ to_be_bytes 8 (len stream) ++ stream
    ++ hash_policy from ++ hash_policy to ++ to_be_bytes 8 candidate_tail) in
  concat (map (λ b, [hex_digit (b / 16); hex_digit (b mod 16)]) digest).

Definition stream_name : RtOp bytes := op_gets (λ rt,
  match rt_fabric_streams rt with Some store => fs_name store | None => [] end).

Definition validate_proposal_shape (proposal : FabricStreamEpochProposalState) : RtOp unit :=
  stream ← stream_name;
  let from := prop_from proposal in
  let to := prop_to proposal in
  op_guard ((len stream =? 0) || bool_decide (prop_hash proposal = []) || (pol_epoch to <=? pol_epoch from)
            || negb (pol_partition to =? pol_partition from) || (pol_replication_factor to =? 0)
            || negb (len (pol_replicas to) =? pol_replication_factor to)
            || negb (bool_decide (pol_leader to ∈ pol_replicas to))
            || negb (forallb (λ node, bool_decide (node ∈ pol_replicas from)) (pol_replicas to))) InvalidData;;
  op_guard (negb (bool_decide (epoch_proposal_hash stream from to (prop_candidate_tail proposal) = prop_hash proposal)))
    InvalidData.

(** The policy of the proposal is the placement that the local node computes. *)
Definition check_placement (local : N) (cluster : ClusterState) (to : FabricStreamReplicationPolicy) : RtOp unit :=
  placement ← compute_placement blake3 local (Some cluster) (pol_partition to) (pol_replication_factor to);
  op_guard (negb (bool_decide (policy_from_placement placement (pol_epoch to) = to))) InvalidData.

(** The durable policy is the one that the proposal replaces. *)
Definition check_from_policy (proposal : FabricStreamEpochProposalState) : RtOp unit :=
  current ← fabric_stream_replication_policy;
  current ← op_some current NotFound;
  op_guard (negb (bool_decide (current = prop_from proposal))) InvalidData.

(** ** Votes *)

Definition fabric_stream_evaluate_epoch_prepare (proposal : FabricStreamEpochProposalState) (sender : N)
    (cluster : ClusterState) : RtOp FabricStreamEpochVoteState :=
  validate_proposal_shape proposal;;
  op_guard (negb (pol_leader (prop_to proposal) =? sender)) PermissionDenied;;
  local ← local_node;
  check_from_policy proposal;;
  op_guard (negb (bool_decide (local ∈ pol_replicas (prop_from proposal)))) PermissionDenied;;
  check_placement local cluster (prop_to proposal);;
  info ← fabric_stream_info;
  let local_tail := default 0 (info_last_sequence info) in
  let accepted := local_tail =? prop_candidate_tail proposal in
  (if accepted then
     _ ← fabric_stream_promise_epoch (pol_epoch (prop_to proposal)) (prop_hash proposal); mret tt
   else mret tt);;
  mret (mkVote local (pol_epoch (prop_to proposal)) (prop_hash proposal) local_tail (info_committed_sequence info)
    accepted).

Definition fabric_stream_complete_finalized_epoch_transition (state : FabricStreamEpochTransitionState) : RtOp unit :=
  op_guard (negb (tr_finalized state)) WouldBlock;;
  let proposal := tr_proposal state in
  fabric_stream_install_epoch_policy (prop_from proposal) (prop_to proposal) (prop_hash proposal);;
  committed ← fabric_stream_committed_sequence;
  (if committed <? tr_quorum_committed state then fabric_stream_commit_through (tr_quorum_committed state)
   else mret tt);;
  fabric_stream_retire_old_epoch_pending (pol_partition (prop_from proposal)) (tr_quorum_committed state).

Definition has_quorum (state : FabricStreamEpochTransitionState) : bool :=
  let votes := affirmative state in
  let ids : gset N := list_to_set (map vote_voter votes) in
  (old_quorum (prop_from (tr_proposal state)) <=? len votes)
  && forallb (λ node, bool_decide (node ∈ ids)) (pol_replicas (prop_to (tr_proposal state))).

Definition fabric_stream_record_epoch_vote_from_cluster (vote : FabricStreamEpochVoteState) (sender : N)
    : RtOp FabricStreamEpochVoteOutcome :=
  op_guard (negb (vote_voter vote =? sender)) PermissionDenied;;
  state ← fabric_stream_record_epoch_vote vote;
  if tr_finalized state then
    fabric_stream_complete_finalized_epoch_transition state;;
    commit ← op_result (commit_from_state state);
    mret (mkVoteOutcome (status_from_state state) (Some commit))
  else
  if negb (has_quorum state) then mret (mkVoteOutcome (status_from_state state) None) else
  committed ← fabric_stream_committed_sequence;
  let candidate_tail := prop_candidate_tail (tr_proposal state) in
  op_guard (candidate_tail <? committed) InvalidData;;
  finalized ← fabric_stream_finalize_epoch_transition_state candidate_tail;
  fabric_stream_complete_finalized_epoch_transition finalized;;
  commit ← op_result (commit_from_state finalized);
  mret (mkVoteOutcome (status_from_state finalized) (Some commit)).

Definition valid_certificate (commit : FabricStreamEpochCommit) : bool :=
  let voters := ec_affirmative_voters commit in
  let voter_set : gset N := list_to_set voters in
  let from := prop_from (ec_proposal commit) in
  (N.of_nat (size voter_set) =? len voters) && (old_quorum from <=? N.of_nat (size voter_set))
  && forallb (λ node, bool_decide (node ∈ pol_replicas from)) voters
  && forallb (λ node, bool_decide (node ∈ voter_set)) (pol_replicas (prop_to (ec_proposal commit))).

Definition fabric_stream_apply_epoch_commit_from_cluster (commit : FabricStreamEpochCommit) (sender : N)
    (cluster : ClusterState) : RtOp unit :=
  let proposal := ec_proposal commit in
  validate_proposal_shape proposal;;
  op_guard (negb (pol_leader (prop_to proposal) =? sender)) PermissionDenied;;
  local ← local_node;
  op_guard (negb (bool_decide (local ∈ pol_replicas (prop_to proposal)))) PermissionDenied;;
  op_guard (negb (valid_certificate commit)) InvalidData;;
  check_placement local cluster (prop_to proposal);;
  promise ← fabric_stream_epoch_promise;
  promise ← op_some promise PermissionDenied;
  op_guard (negb (prm_epoch promise =? pol_epoch (prop_to proposal))
            || negb (bool_decide (prm_hash promise = prop_hash proposal))) PermissionDenied;;
  info ← fabric_stream_info;
  let tail := default 0 (info_last_sequence info) in
  op_guard (negb (tail =? ec_committed_sequence commit) || negb (tail =? prop_candidate_tail proposal)) WouldBlock;;
  fabric_stream_install_epoch_policy (prop_from proposal) (prop_to proposal) (prop_hash proposal);;
  committed ← fabric_stream_committed_sequence;
  (if committed <? ec_committed_sequence commit then fabric_stream_commit_through (ec_committed_sequence commit)
   else mret tt);;
  fabric_stream_retire_old_epoch_pending (pol_partition (prop_from proposal)) (ec_committed_sequence commit).

(** ** Sending *)

Definition fabric_stream_dispatch_epoch_prepare (proposal : FabricStreamEpochProposalState) : RtOp unit :=
  local ← local_node;
  stream ← stream_name;
  op_guard (len stream =? 0) InvalidInput;;
  cluster ← op_gets rt_cluster;
  cluster ← op_some cluster NotConnected;
  need_transport;;
  op_each (λ node, send local node (EpochPreparePacket proposal))
    (filter (λ node, node ≠ local ∧ is_removed cluster node = false ∧ reachable cluster node = true)
       (pol_replicas (prop_from proposal))).

Definition fabric_stream_dispatch_epoch_commit (commit : FabricStreamEpochCommit) : RtOp unit :=
  local ← local_node;
  cluster ← op_gets rt_cluster;
  cluster ← op_some cluster NotConnected;
  need_transport;;
  op_each (λ node, send local node (EpochCommitPacket commit))
    (filter (λ node, node ≠ local ∧ reachable cluster node = true) (pol_replicas (prop_to (ec_proposal commit)))).

(** ** Starting and resuming a transition *)

(** The candidate votes, and sends a commit or a prepare. *)
Definition vote_and_dispatch (local : N) (proposal : FabricStreamEpochProposalState)
    : RtOp FabricStreamEpochTransitionStatus :=
  own_vote ← with_cluster (fabric_stream_evaluate_epoch_prepare proposal local);
  own_vote ← op_result own_vote;
  outcome ← fabric_stream_record_epoch_vote_from_cluster own_vote local;
  match vo_commit outcome with
  | Some commit => fabric_stream_dispatch_epoch_commit commit;; mret (vo_status outcome)
  | None => fabric_stream_dispatch_epoch_prepare proposal;; mret (vo_status outcome)
  end.

Definition complete_and_dispatch (state : FabricStreamEpochTransitionState) : RtOp FabricStreamEpochTransitionStatus :=
  fabric_stream_complete_finalized_epoch_transition state;;
  commit ← op_result (commit_from_state state);
  fabric_stream_dispatch_epoch_commit commit;;
  mret (status_from_state state).

Definition fabric_stream_begin_epoch_transition (partition new_replication_factor : N)
    : RtOp FabricStreamEpochTransitionStatus :=
  from_policy ← fabric_stream_replication_policy;
  from_policy ← op_some from_policy NotFound;
  op_guard (negb (pol_partition from_policy =? partition)) InvalidInput;;
  placement ← fabric_stream_placement blake3 partition new_replication_factor;
  local ← local_node;
  op_guard (negb (pl_leader placement =? local)) WouldBlock;;
  op_guard (negb (bool_decide (local ∈ pol_replicas from_policy))) PermissionDenied;;
  op_guard (negb (forallb (λ node, bool_decide (node ∈ pol_replicas from_policy)) (pl_replicas placement))) Unsupported;;
  promise ← fabric_stream_epoch_promise;
  let highest_seen :=
    N.max (match promise with Some promise => prm_epoch promise | None => pol_epoch from_policy end)
      (pol_epoch from_policy) in
  to_epoch ← op_some (checked_add64 highest_seen 1) Other;
  let to_policy := policy_from_placement placement to_epoch in
  info ← fabric_stream_info;
  let candidate_tail := default 0 (info_last_sequence info) in
  stream ← stream_name;
  let proposal :=
    mkProposal (epoch_proposal_hash stream from_policy to_policy candidate_tail) from_policy to_policy candidate_tail in
  state ← fabric_stream_begin_epoch_transition_state proposal;
  if tr_finalized state then complete_and_dispatch state else vote_and_dispatch local proposal.

Definition fabric_stream_resume_epoch_transition : RtOp FabricStreamEpochTransitionStatus :=
  state ← fabric_stream_epoch_transition_state;
  state ← op_some state NotFound;
  if tr_finalized state then complete_and_dispatch state else
  local ← local_node;
  vote_and_dispatch local (tr_proposal state).

(** ** Pulling records from a replica that is ahead *)

(** Votes by tail, the longest first, then by voter. *)
Definition ahead_before (a b : N * N) : Prop := b.2 < a.2 ∨ (a.2 = b.2 ∧ a.1 ≤ b.1).
#[global] Instance ahead_before_dec : RelDecision ahead_before.
Proof. intros a b. apply _. Defined.

Definition fabric_stream_pull_epoch_transition (max_records : N) : RtOp FabricStreamEpochPullReport :=
  op_guard (max_records =? 0) InvalidInput;;
  state ← fabric_stream_epoch_transition_state;
  state ← op_some state NotFound;
  if tr_finalized state then mret (mkPullReport 0 0 0 0) else
  let proposal := tr_proposal state in
  local ← local_node;
  op_guard (negb (pol_leader (prop_to proposal) =? local)) PermissionDenied;;
  info ← fabric_stream_info;
  let local_tail := default 0 (info_last_sequence info) in
  op_guard (negb (local_tail =? prop_candidate_tail proposal)) WouldBlock;;
  let ahead := merge_sort ahead_before (map (λ vote, (vote_voter vote, vote_tail vote))
    (filter (λ vote, vote_accepted vote = false ∧ local_tail < vote_tail vote
                     ∧ vote_voter vote ∈ pol_replicas (prop_to proposal)) (sorted_values (tr_votes state)))) in
  match ahead with
  | [] => mret (mkPullReport 0 0 0 0)
  | (source, source_tail) :: _ =>
      cluster ← op_gets rt_cluster;
      cluster ← op_some cluster NotConnected;
      if is_removed cluster source || negb (reachable cluster source) then mret (mkPullReport (len ahead) 0 1 source_tail)
      else
        need_transport;;
        send local source (EpochPullRequestPacket
          (mkPullRequest proposal local source (saturating_add64 local_tail 1) max_records));;
        mret (mkPullReport (len ahead) 1 0 source_tail)
  end.

(** A promise that forbids traffic for the proposal. *)
Definition promise_conflicts (promise : option FabricStreamEpochPromise) (proposal : FabricStreamEpochProposalState)
    : bool :=
  match promise with
  | Some promise =>
      (pol_epoch (prop_to proposal) <? prm_epoch promise)
      || ((prm_epoch promise =? pol_epoch (prop_to proposal)) && negb (bool_decide (prm_hash promise = prop_hash proposal)))
  | None => false
  end.

Definition fabric_stream_build_epoch_pull_response (request : FabricStreamEpochPullRequest) (sender : N)
    (cluster : ClusterState) : RtOp FabricStreamEpochPullResponse :=
  let proposal := pq_proposal request in
  validate_proposal_shape proposal;;
  local ← local_node;
  op_guard (negb (pq_requester request =? sender) || negb (pq_requester request =? pol_leader (prop_to proposal))
            || negb (pq_source request =? local) || negb (bool_decide (local ∈ pol_replicas (prop_to proposal)))
            || (pq_max_records request =? 0)
            || negb (pq_start_sequence request =? saturating_add64 (prop_candidate_tail proposal) 1)) PermissionDenied;;
  check_from_policy proposal;;
  check_placement local cluster (prop_to proposal);;
  promise ← fabric_stream_epoch_promise;
  op_guard (promise_conflicts promise proposal) PermissionDenied;;
  info ← fabric_stream_info;
  let source_tail := default 0 (info_last_sequence info) in
  op_guard (source_tail <? pq_start_sequence request) InvalidInput;;
  records ← fabric_stream_read (pq_start_sequence request) (pq_max_records request);
  mret (mkPullResponse proposal (pq_requester request) local source_tail records).

(** Records one after the other from a sequence on, each appended. *)
Fixpoint apply_pulled (expected : N) (records : list FabricStreamRecord) : RtOp unit :=
  match records with
  | [] => mret tt
  | record :: records =>
      op_guard (negb (rec_sequence record =? expected)) InvalidData;;
      fabric_stream_apply_transition_repair_record (rec_sequence record) (rec_payload record);;
      apply_pulled (saturating_add64 expected 1) records
  end.

Definition fabric_stream_apply_epoch_pull_response (response : FabricStreamEpochPullResponse) (sender : N)
    (cluster : ClusterState) : RtOp N :=
  let proposal := pr_proposal response in
  validate_proposal_shape proposal;;
  local ← local_node;
  op_guard (negb (pr_requester response =? local) || negb (pr_requester response =? pol_leader (prop_to proposal))
            || negb (pr_source response =? sender) || negb (bool_decide (sender ∈ pol_replicas (prop_to proposal)))
            || (len (pr_records response) =? 0)) PermissionDenied;;
  state ← fabric_stream_epoch_transition_state;
  state ← op_some state NotFound;
  op_guard (tr_finalized state || negb (bool_decide (tr_proposal state = proposal))) InvalidData;;
  check_from_policy proposal;;
  check_placement local cluster (prop_to proposal);;
  info ← fabric_stream_info;
  let local_tail := default 0 (info_last_sequence info) in
  op_guard (negb (local_tail =? prop_candidate_tail proposal)
            || match pr_records response with
               | record :: _ => negb (rec_sequence record =? saturating_add64 local_tail 1)
               | [] => true
               end
            || match last (pr_records response) with
               | Some record => pr_source_tail response <? rec_sequence record
               | None => true
               end) InvalidData;;
  source_vote ← op_some (tr_votes state !! pr_source response) InvalidData;
  op_guard (negb (vote_tail source_vote =? pr_source_tail response)
            || (vote_tail source_vote <=? prop_candidate_tail proposal)) InvalidData;;
  apply_pulled (saturating_add64 local_tail 1) (pr_records response);;
  mret (pol_replication_factor (prop_to proposal)).

(** ** Repairing replicas that are behind *)

Fixpoint take_through (sequence : N) (records : list FabricStreamRecord) : list FabricStreamRecord :=
  match records with
  | record :: records => if rec_sequence record <=? sequence then record :: take_through sequence records else []
  | [] => []
  end.

Fixpoint repair_batches (state : FabricStreamEpochTransitionState) (local max_records : N) (replicas : list N)
    (report : FabricStreamEpochRepairReport) (batches : list FabricStreamEpochRepairBatch)
    : RtOp (FabricStreamEpochRepairReport * list FabricStreamEpochRepairBatch) :=
  match replicas with
  | [] => mret (report, batches)
  | replica :: replicas =>
      let next := repair_batches state local max_records replicas in
      let proposal := tr_proposal state in
      let tail := prop_candidate_tail proposal in
      if replica =? local then next report batches else
      match tr_votes state !! replica with
      | None => next report batches
      | Some vote =>
          if vote_accepted vote then next report batches else
          let examined := er_replicas_examined report + 1 in
          if tail <? vote_tail vote then
            next (mkRepairReport examined (er_records_dispatched report) (er_unavailable_replicas report)
              (er_ahead_replicas report + 1)) batches
          else
          let report := mkRepairReport examined (er_records_dispatched report) (er_unavailable_replicas report)
            (er_ahead_replicas report) in
          if vote_tail vote =? tail then next report batches else
          records ← fabric_stream_read (saturating_add64 (vote_tail vote) 1) max_records;
          let records := take_through tail records in
          op_guard (len records =? 0) InvalidData;;
          next report (batches ++ [mkRepairBatch proposal replica records])
      end
  end.

Definition can_repair (cluster : ClusterState) (batch : FabricStreamEpochRepairBatch) : bool :=
  negb (is_removed cluster (rb_target batch)) && reachable cluster (rb_target batch).

Definition fabric_stream_repair_epoch_transition (max_records : N) : RtOp FabricStreamEpochRepairReport :=
  op_guard (max_records =? 0) InvalidInput;;
  state ← fabric_stream_epoch_transition_state;
  state ← op_some state NotFound;
  if tr_finalized state then mret (mkRepairReport 0 0 0 0) else
  let proposal := tr_proposal state in
  local ← local_node;
  op_guard (negb (pol_leader (prop_to proposal) =? local)) PermissionDenied;;
  info ← fabric_stream_info;
  op_guard (negb (default 0 (info_last_sequence info) =? prop_candidate_tail proposal)) WouldBlock;;
  '(report, batches) ←
    repair_batches state local max_records (pol_replicas (prop_to proposal)) (mkRepairReport 0 0 0 0) [];
  cluster ← op_gets rt_cluster;
  cluster ← op_some cluster NotConnected;
  need_transport;;
  let dispatches := filter (λ batch, can_repair cluster batch = true) batches in
  op_each (λ batch, send local (rb_target batch) (EpochRepairPacket batch)) dispatches;;
  mret (mkRepairReport (er_replicas_examined report)
    (foldr (λ batch n, len (rb_records batch) + n) 0 dispatches) (len batches - len dispatches)
    (er_ahead_replicas report)).

Fixpoint consecutive (expected : N) (records : list FabricStreamRecord) : bool :=
  match records with
  | [] => true
  | record :: records => (rec_sequence record =? expected) && consecutive (saturating_add64 expected 1) records
  end.

Fixpoint apply_repaired (local_tail expected : N) (records : list FabricStreamRecord) : RtOp unit :=
  match records with
  | [] => mret tt
  | record :: records =>
      if rec_sequence record <=? local_tail then
        existing ← fabric_stream_read (rec_sequence record) 1;
        match head_at existing (rec_sequence record) with
        | Some existing =>
            if bool_decide (rec_payload existing = rec_payload record) then apply_repaired local_tail expected records
            else op_fail InvalidData
        | None => op_fail InvalidData
        end
      else
        op_guard (negb (rec_sequence record =? expected)) InvalidData;;
        fabric_stream_apply_transition_repair_record (rec_sequence record) (rec_payload record);;
        apply_repaired local_tail (saturating_add64 expected 1) records
  end.

Definition fabric_stream_apply_epoch_repair_from_cluster (batch : FabricStreamEpochRepairBatch) (sender : N)
    (cluster : ClusterState) : RtOp FabricStreamEpochVoteState :=
  let proposal := rb_proposal batch in
  validate_proposal_shape proposal;;
  local ← local_node;
  op_guard (negb (sender =? pol_leader (prop_to proposal)) || negb (rb_target batch =? local)
            || negb (bool_decide (local ∈ pol_replicas (prop_to proposal)))) PermissionDenied;;
  check_from_policy proposal;;
  check_placement local cluster (prop_to proposal);;
  promise ← fabric_stream_epoch_promise;
  op_guard (promise_conflicts promise proposal) PermissionDenied;;
  info ← fabric_stream_info;
  let local_tail := default 0 (info_last_sequence info) in
  op_guard match last (rb_records batch) with
           | Some record => prop_candidate_tail proposal <? rec_sequence record
           | None => true
           end InvalidData;;
  op_guard match rb_records batch with
           | record :: _ => negb (consecutive (rec_sequence record) (rb_records batch))
           | [] => false
           end InvalidData;;
  apply_repaired local_tail (saturating_add64 local_tail 1) (rb_records batch);;
  fabric_stream_evaluate_epoch_prepare proposal sender cluster.

(** ** Automatic failover *)

Definition has_rejection (state : FabricStreamEpochTransitionState) (p : N → bool) : bool :=
  existsb (λ vote, negb (vote_accepted vote)
    && bool_decide (vote_voter vote ∈ pol_replicas (prop_to (tr_proposal state))) && p (vote_tail vote))
    (sorted_values (tr_votes state)).

Definition fabric_stream_drive_auto_failover_once : RtOp FabricStreamEpochTransitionStatus :=
  state ← fabric_stream_epoch_transition_state;
  state ← op_some state NotFound;
  if tr_finalized state then fabric_stream_resume_epoch_transition else
  let proposal := tr_proposal state in
  let tail := prop_candidate_tail proposal in
  local ← local_node;
  op_guard (negb (pol_leader (prop_to proposal) =? local)) PermissionDenied;;
  info ← fabric_stream_info;
  if negb (default 0 (info_last_sequence info) =? tail) then
    fabric_stream_begin_epoch_transition (pol_partition (prop_to proposal)) (pol_replication_factor (prop_to proposal))
  else
  pulled ←
    (if has_rejection state (λ t, tail <? t) then
       report ← fabric_stream_pull_epoch_transition FABRIC_STREAM_AUTO_REPAIR_MAX_RECORDS;
       mret (0 <? ep_requests_dispatched report)
     else mret false);
  if pulled : bool then mret (status_from_state state) else
  repaired ←
    (if has_rejection state (λ t, t <? tail) then
       report ← fabric_stream_repair_epoch_transition FABRIC_STREAM_AUTO_REPAIR_MAX_RECORDS;
       mret (0 <? er_records_dispatched report)
     else mret false);
  if repaired : bool then mret (status_from_state state) else
  fabric_stream_resume_epoch_transition.

(** [fabric_stream_names], which here knows at most the one stream. *)
Definition fabric_stream_exists : RtOp bool :=
  fabric_stream_store_mut (read_file (λ d, bool_decide (is_Some (sd_meta d)))).

Definition fabric_stream_tick_auto_failover : RtOp unit :=
  node ← op_gets rt_node_id;
  match node with
  | None => mret tt
  | Some local =>
      found ← op_try fabric_stream_exists;
      match found with
      | Err _ => mret tt
      | Ok found =>
          (if found : bool then
             state ← op_try fabric_stream_epoch_transition_state;
             match state with
             | Ok (Some state) =>
                 op_modify (λ rt,
                   if tr_finalized state || negb (pol_leader (prop_to (tr_proposal state)) =? local)
                   then set_failover_retry None rt
                   else set_failover_retry
                     (Some (default (rt_now rt, FABRIC_STREAM_FAILOVER_RETRY_INITIAL) (rt_failover_retry rt))) rt)
             | _ => mret tt
             end
           else mret tt);;
          rt ← op_get;
          match rt_failover_retry rt with
          | Some (next_attempt, _) =>
              if next_attempt <=? rt_now rt then
                r ← op_try fabric_stream_drive_auto_failover_once;
                op_modify (λ rt,
                  if match r with Ok status => ts_finalized status | Err _ => false end
                  then set_failover_retry None rt
                  else match rt_failover_retry rt with
                       | Some (_, backoff) =>
                           let backoff := N.min (backoff * 2) FABRIC_STREAM_FAILOVER_RETRY_MAX in
                           set_failover_retry (Some (rt_now rt + backoff, backoff)) rt
                       | None => rt
                       end)
              else mret tt
          | None => mret tt
          end
      end
  end.

(** The body of the loop over streams, after the policy has been read. *)
Definition failover_stream (local : N) (cluster : ClusterState) (policy : FabricStreamReplicationPolicy)
    : RtOp FabricStreamAutoFailoverReport :=
  let surviving := filter (λ node, is_removed cluster node = false) (pol_replicas policy) in
  if len surviving <? pol_replication_factor policy / 2 + 1 then mret (mkFailoverReport 1 1 0 1 0 0 0) else
  placement ← op_try (fabric_stream_placement blake3 (pol_partition policy) (len surviving));
  match placement with
  | Err _ => mret (mkFailoverReport 1 1 0 0 0 0 1)
  | Ok placement =>
      if negb (bool_decide (list_to_set (C:=gset N) (pl_replicas placement) = list_to_set surviving)) then
        mret (mkFailoverReport 1 1 0 0 0 1 0)
      else if negb (pl_leader placement =? local) then mret (mkFailoverReport 1 1 0 0 1 0 0) else
      r ← op_try (fabric_stream_begin_epoch_transition (pol_partition policy) (len surviving));
      match r with
      | Ok status =>
          (if ts_finalized status then mret tt else
           op_modify (λ rt, set_failover_retry
             (Some (rt_now rt + FABRIC_STREAM_FAILOVER_RETRY_INITIAL, FABRIC_STREAM_FAILOVER_RETRY_INITIAL)) rt));;
          mret (mkFailoverReport 1 1 1 0 0 0 0)
      | Err _ => mret (mkFailoverReport 1 1 0 0 0 0 1)
      end
  end.

Definition fabric_stream_failover_confirmed_removed (removed : N) : RtOp FabricStreamAutoFailoverReport :=
  local ← local_node;
  cluster ← op_gets rt_cluster;
  cluster ← op_some cluster NotConnected;
  found ← op_try fabric_stream_exists;
  match found with
  | Err NotConnected => mret (mkFailoverReport 0 0 0 0 0 0 0)
  | Err e => op_fail e
  | Ok false => mret (mkFailoverReport 0 0 0 0 0 0 0)
  | Ok true =>
      policy ← op_try fabric_stream_replication_policy;
      match policy with
      | Err _ => mret (mkFailoverReport 1 0 0 0 0 0 1)
      | Ok None => mret (mkFailoverReport 1 0 0 0 0 0 0)
      | Ok (Some policy) =>
          if negb (pol_leader policy =? removed) then mret (mkFailoverReport 1 0 0 0 0 0 0) else
          failover_stream local cluster policy
      end
  end.

(** ** Packets

    The checks of [from_wire_bytes], and the handlers. *)

Definition bad_append (append : FabricStreamReplicaAppend) : bool :=
  (app_epoch append =? 0) || (app_replication_factor append =? 0) || (app_sequence append =? 0).
Definition bad_ack (ack : FabricStreamReplicaAck) : bool :=
  (ack_epoch ack =? 0) || (ack_replication_factor ack =? 0) || (ack_sequence ack =? 0).
Definition bad_update (update : FabricStreamCommitUpdate) : bool :=
  (cu_epoch update =? 0) || (cu_replication_factor update =? 0) || (cu_committed_sequence update =? 0).

(** An address for a reply: that of the member, or of the connection. *)
Definition has_address (cluster : ClusterState) (node : N) : RtOp bool := op_gets (λ rt,
  bool_decide (is_Some (cl_members cluster !! node))
  || match rt_transport rt with Some tp => bool_decide (node ∈ tp_connections tp) | None => false end).

Definition reply (cluster : ClusterState) (to : N) (packet : Packet) : RtOp unit :=
  known ← has_address cluster to;
  op_guard (negb known) NotConnected;;
  local ← local_node;
  send local to packet.

Definition handle_replica (from : N) (append : FabricStreamReplicaAppend) (cluster : ClusterState) : RtOp unit :=
  op_guard (MAX_REPLICA_ENVELOPE_BYTES <? len (append_json append)) InvalidData;;
  op_guard (bad_append append) InvalidData;;
  op_guard (negb (app_leader append =? from)) PermissionDenied;;
  applied ← op_try (fabric_stream_apply_replica_from_cluster blake3 append cluster);
  node ← op_gets rt_node_id;
  match node with
  | None => mret tt
  | Some local =>
      let ack := mkAck (app_partition append) (app_epoch append) (app_leader append) (app_membership_fingerprint append)
        (app_replication_factor append) (app_sequence append) local (match applied with Ok _ => true | Err _ => false end) in
      known ← has_address cluster (app_leader append);
      if known : bool then send local (app_leader append) (ReplicaAckPacket ack) else mret tt
  end.

(** Tells the boundary to the replicas that have acknowledged it. *)
Definition send_commit_updates (cluster : ClusterState) (outcome : FabricStreamReplicaAckOutcome) : RtOp unit :=
  let placement := ao_placement outcome in
  op_each (λ replica,
    progress ← fabric_stream_replica_progress replica;
    if (progress <? ao_committed_sequence outcome) || negb (reachable cluster replica) then mret tt else
    send (pl_leader placement) replica (CommitPacket (mkCommitUpdate (pl_partition placement) (ao_epoch outcome)
      (pl_leader placement) (pl_membership_fingerprint placement) (len (pl_replicas placement))
      (ao_committed_sequence outcome))))
    (filter (λ node, node ≠ pl_leader placement) (pl_replicas placement)).

Definition handle_replica_ack (from : N) (ack : FabricStreamReplicaAck) (cluster : ClusterState) : RtOp unit :=
  op_guard (bad_ack ack) InvalidData;;
  op_guard (negb (ack_replica ack =? from)) PermissionDenied;;
  outcome ← fabric_stream_record_replica_ack_from_cluster ack;
  if ack_accepted ack && (0 <? ao_committed_sequence outcome) then send_commit_updates cluster outcome else mret tt.

Definition handle_commit (from : N) (update : FabricStreamCommitUpdate) : RtOp unit :=
  op_guard (bad_update update) InvalidData;;
  op_guard (negb (cu_leader update =? from)) PermissionDenied;;
  fabric_stream_apply_commit_update_from_cluster update.

Definition handle_epoch_prepare (from : N) (proposal : FabricStreamEpochProposalState) (cluster : ClusterState)
    : RtOp unit :=
  vote ← fabric_stream_evaluate_epoch_prepare proposal from cluster;
  reply cluster (pol_leader (prop_to proposal)) (EpochVotePacket vote).

Definition handle_epoch_vote (from : N) (vote : FabricStreamEpochVoteState) (cluster : ClusterState) : RtOp unit :=
  outcome ← fabric_stream_record_epoch_vote_from_cluster vote from;
  match vo_commit outcome with
  | None => mret tt
  | Some commit =>
      local ← local_node;
      op_each (λ node, send local node (EpochCommitPacket commit))
        (filter (λ node, node ≠ local ∧ reachable cluster node = true) (pol_replicas (prop_to (ec_proposal commit))))
  end.

Definition handle_epoch_repair (from : N) (batch : FabricStreamEpochRepairBatch) (cluster : ClusterState) : RtOp unit :=
  vote ← fabric_stream_apply_epoch_repair_from_cluster batch from cluster;
  reply cluster (pol_leader (prop_to (rb_proposal batch))) (EpochVotePacket vote).

Definition handle_epoch_pull_request (from : N) (request : FabricStreamEpochPullRequest) (cluster : ClusterState)
    : RtOp unit :=
  response ← fabric_stream_build_epoch_pull_response request from cluster;
  reply cluster (pr_requester response) (EpochPullResponsePacket response).

Definition handle_packet (from sender : N) (packet : Packet) (cluster : ClusterState) : RtOp unit :=
  op_guard (negb (sender =? from)) PermissionDenied;;
  match packet with
  | ReplicaPacket append => handle_replica from append cluster
  | ReplicaAckPacket ack => handle_replica_ack from ack cluster
  | CommitPacket update => handle_commit from update
  | EpochPreparePacket proposal => handle_epoch_prepare from proposal cluster
  | EpochVotePacket vote => handle_epoch_vote from vote cluster
  | EpochCommitPacket commit => fabric_stream_apply_epoch_commit_from_cluster commit from cluster
  | EpochRepairPacket batch => handle_epoch_repair from batch cluster
  | EpochPullRequestPacket request => handle_epoch_pull_request from request cluster
  | EpochPullResponsePacket response => _ ← fabric_stream_apply_epoch_pull_response response from cluster; mret tt
  end.

End epoch.
