(* ===== verification/FabricSystem.v ===== *)
(** * Fabric streams: a cluster of nodes

    Every node runs the operations of [FabricCluster] and [FabricEpoch] on its
    own store, with its own view of the membership, and takes packets that any
    node has sent, in any order and any number of times, or never.  Calls on
    files fail as the list of faults says.  A restart loses what is not in
    files. *)
From Stdlib Require Import String.
From S2P Require Import Prelude Bytes Text FabricStore FabricCluster FabricEpoch.

Local Open Scope list_scope.
Local Open Scope N_scope.

Inductive Event :=
| Deliver (envelope : Envelope)
| CreateStream (config : FabricStreamConfig)
| ReplicatedAppend (partition replication_factor : N) (payload : bytes)
| PrepareAppend (partition replication_factor : N) (payload : bytes)
| RecoverPending
| RetryPending (partition : N)
| TickRetries
| CatchUp (partition replication_factor max_records : N)
| BeginTransition (partition replication_factor : N)
| ResumeTransition
| PullTransition (max_records : N)
| RepairTransition (max_records : N)
| TickFailover
| ConfirmedRemoved (removed : N)
| CommitCursor (consumer : bytes) (sequence : N)
| ReadCommitted (start limit : N)
| Restart.

(** What happens on a node: the event, and what the environment brings. *)
Record Step := mkStep {
  sp_node : N;
  sp_cluster : ClusterState;
  sp_now : N;
  sp_faults : list Fault;
  sp_event : Event;
}.

(** The nodes, and what readers have been given. *)
Record System := mkSystem { sy_nodes : N → Runtime; sy_reads : list FabricStreamRecord }.

Definition sent_by (rt : Runtime) : list Envelope := match rt_transport rt with Some tp => tp_sent tp | None => [] end.

Definition was_sent (sy : System) (e : Envelope) : Prop := ∃ i, e ∈ sent_by (sy_nodes sy i).

Definition put_node (i : N) (rt : Runtime) (nodes : N → Runtime) : N → Runtime :=
  λ j, if j =? i then rt else nodes j.

(** The environment of a step: faults, membership and clock. *)
Definition prepare_node (s : Step) (rt : Runtime) : Runtime :=
  mkRuntime (rt_node_id rt)
    (match rt_fabric_streams rt with
     | Some store => Some (mkStore (fs_name store) (fs_stream store) (sp_faults s))
     | None => None
     end)
    (Some (sp_cluster s)) (rt_transport rt) (rt_pending rt) (rt_retry_schedules rt) (rt_failover_retry rt) (sp_now s).

Definition restarted (rt : Runtime) : Runtime :=
  mkRuntime (rt_node_id rt) (rt_fabric_streams rt) (rt_cluster rt) (rt_transport rt) ∅ ∅ None (rt_now rt).

(** Forgets a result. *)
Definition done {A} (m : RtOp A) : RtOp (list FabricStreamRecord) := _ ← m; mret [].

Section system.
Context (blake3 : bytes → bytes) (append_json : FabricStreamReplicaAppend → bytes) (order : gset N → list N).

Definition run_event (cluster : ClusterState) (event : Event) : RtOp (list FabricStreamRecord) :=
  match event with
  | Deliver e => done (handle_packet blake3 append_json (env_from e) (env_sender e) (env_packet e) cluster)
  | CreateStream config => done (fabric_stream_store_mut (create_stream config))
  | ReplicatedAppend partition rf payload => done (fabric_stream_replicated_append blake3 append_json partition rf payload)
  | PrepareAppend partition rf payload => done (fabric_stream_prepare_replica_append blake3 partition rf payload)
  | RecoverPending => done fabric_stream_recover_pending
  | RetryPending partition => done (fabric_stream_retry_pending append_json partition)
  | TickRetries => done (fabric_stream_tick_retries append_json order)
  | CatchUp partition rf max => done (fabric_stream_catch_up_committed append_json partition rf max)
  | BeginTransition partition rf => done (fabric_stream_begin_epoch_transition blake3 partition rf)
  | ResumeTransition => done (fabric_stream_resume_epoch_transition blake3)
  | PullTransition max => done (fabric_stream_pull_epoch_transition max)
  | RepairTransition max => done (fabric_stream_repair_epoch_transition max)
  | TickFailover => done (fabric_stream_tick_auto_failover blake3)
  | ConfirmedRemoved removed => done (fabric_stream_failover_confirmed_removed blake3 removed)
  | CommitCursor consumer sequence => done (fabric_stream_store_mut (commit_cursor consumer sequence))
  | ReadCommitted start limit => fabric_stream_read_committed start limit
  | Restart => done (op_modify restarted)
  end.

(** A step; a packet must have been sent to the node. *)
Inductive fabric_step (sy : System) (s : Step) : System → Prop :=
| FabricStep r rt :
    match sp_event s with
    | Deliver e => was_sent sy e ∧ env_to e = sp_node s
    | _ => True
    end →
    run_event (sp_cluster s) (sp_event s) (prepare_node s (sy_nodes sy (sp_node s))) = Some (r, rt) →
    fabric_step sy s (mkSystem (put_node (sp_node s) rt (sy_nodes sy))
      (sy_reads sy ++ match r with Ok records => records | Err _ => [] end)).

Context (name : bytes).

Definition new_node (i : N) : Runtime :=
  mkRuntime (Some i) (Some (mkStore name new_dir [])) None (Some (mkTransport ∅ [])) ∅ ∅ None 0.
Definition start_fabric : System := mkSystem new_node [].

(** Executes a step; packets are given by sender and number. *)
Definition exec_step (sy : System) (s : Step) : option System :=
  match run_event (sp_cluster s) (sp_event s) (prepare_node s (sy_nodes sy (sp_node s))) with
  | Some (r, rt) =>
      Some (mkSystem (put_node (sp_node s) rt (sy_nodes sy))
        (sy_reads sy ++ match r with Ok records => records | Err _ => [] end))
  | None => None
  end.
End system.
