(* ===== verification/FabricProtocol.v ===== *)
(** * Fabric streams: the protocol

    What a node of a stream may do, step by step, on the part of its state that
    matters for safety: the log, the committed boundary, the policy, the promise,
    the transition, the tickets, and what it has sent.  The operations of
    [FabricCluster] and [FabricEpoch] are sequences of such steps. *)
From S2P Require Import Prelude Bytes Text FabricStore FabricCluster FabricEpoch.

Local Open Scope list_scope.
Local Open Scope N_scope.

Abbreviation Policy := FabricStreamReplicationPolicy.
Abbreviation Proposal := FabricStreamEpochProposalState.
Abbreviation Transition := FabricStreamEpochTransitionState.
Abbreviation Tickets := (gmap N (gmap N PendingReplicaCommit)).

(** ** Prefixes of logs *)

Definition pre {A} (s : N) (l : list A) : list A := take (N.to_nat s) l.
(** The record of a sequence. *)
Definition log_at {A} (l : list A) (s : N) : option A := if s =? 0 then None else l !! N.to_nat (s - 1).

Lemma pre_prefix {A} s (l l' : list A) : l `prefix_of` l' → s ≤ len l → pre s l' = pre s l.
Proof. intros [k ->] Hs. unfold pre, len in *. rewrite take_app_le; [done|lia]. Qed.

Lemma pre_pre {A} s s' (l : list A) : s ≤ s' → pre s (pre s' l) = pre s l.
Proof. intros Hs. unfold pre. rewrite take_take. f_equal. lia. Qed.

Lemma pre_le {A} s s' (l l' : list A) : s ≤ s' → pre s' l = pre s' l' → pre s l = pre s l'.
Proof. intros Hs Heq. by rewrite <-(pre_pre s s' l), <-(pre_pre s s' l'), Heq. Qed.

Lemma pre_all {A} s (l : list A) : len l ≤ s → pre s l = l.
Proof. intros Hs. unfold pre, len in *. apply take_ge. lia. Qed.

Lemma pre_prefix_of {A} s (l : list A) : pre s l `prefix_of` l.
Proof. exists (drop (N.to_nat s) l). unfold pre. by rewrite take_drop. Qed.

Lemma len_pre {A} s (l : list A) : s ≤ len l → len (pre s l) = s.
Proof. intros Hs. unfold pre, len in *. rewrite length_take. lia. Qed.

Lemma prefix_len {A} (l l' : list A) : l `prefix_of` l' → len l ≤ len l'.
Proof. intros [k ->]. rewrite len_app. lia. Qed.

Lemma log_at_pre {A} s c (l : list A) : s ≤ c → log_at (pre c l) s = log_at l s.
Proof.
  intros Hs. unfold log_at, pre. destruct (N.eqb_spec s 0); [done|]. rewrite lookup_take_lt; [done|lia].
Qed.

Lemma log_at_prefix {A} s (l l' : list A) v : l `prefix_of` l' → log_at l s = Some v → log_at l' s = Some v.
Proof. intros Hp. unfold log_at. destruct (s =? 0); [done|]. intros H. by eapply prefix_lookup_Some. Qed.

Lemma log_at_len {A} s (l : list A) v : log_at l s = Some v → 1 ≤ s ≤ len l.
Proof.
  unfold log_at. destruct (N.eqb_spec s 0); [done|]. intros H%lookup_lt_Some. unfold len. lia.
Qed.

(** A record that agrees with the next one of a longer log extends a prefix of it. *)
Lemma prefix_snoc {A} (l l' : list A) v : l `prefix_of` l' → log_at l' (len l + 1) = Some v → l ++ [v] `prefix_of` l'.
Proof.
  intros [k ->] H. unfold log_at, len in H. destruct (N.eqb_spec (N.of_nat (length l) + 1) 0); [lia|].
  rewrite lookup_app_r in H by lia. replace (_ - _)%nat with 0%nat in H by lia.
  destruct k as [|w k]; [done|]. injection H as ->. exists k. by rewrite <-(assoc_L (++)).
Qed.

(** ** Nodes *)

Record Nd := mkNd {
  nd_log : list bytes;
  nd_commit : N;
  nd_policy : option Policy;
  nd_promise : option FabricStreamEpochPromise;
  nd_transition : option Transition;
  nd_pending : Tickets;
  nd_sent : list Envelope;
}.

Definition with_log v n := mkNd v (nd_commit n) (nd_policy n) (nd_promise n) (nd_transition n) (nd_pending n) (nd_sent n).
Definition with_commit v n := mkNd (nd_log n) v (nd_policy n) (nd_promise n) (nd_transition n) (nd_pending n) (nd_sent n).
Definition with_policy v n := mkNd (nd_log n) (nd_commit n) v (nd_promise n) (nd_transition n) (nd_pending n) (nd_sent n).
Definition with_promise v n := mkNd (nd_log n) (nd_commit n) (nd_policy n) v (nd_transition n) (nd_pending n) (nd_sent n).
Definition with_transition v n := mkNd (nd_log n) (nd_commit n) (nd_policy n) (nd_promise n) v (nd_pending n) (nd_sent n).
Definition with_pending v n := mkNd (nd_log n) (nd_commit n) (nd_policy n) (nd_promise n) (nd_transition n) v (nd_sent n).
Definition with_sent v n := mkNd (nd_log n) (nd_commit n) (nd_policy n) (nd_promise n) (nd_transition n) (nd_pending n) v.

Definition good_policy (π : Policy) : Prop :=
  NoDup (pol_replicas π) ∧ len (pol_replicas π) = pol_replication_factor π ∧ pol_leader π ∈ pol_replicas π.

(** What every voter has checked of a proposal. *)
Definition shape (P : Proposal) : Prop :=
  pol_epoch (prop_from P) < pol_epoch (prop_to P) ∧ good_policy (prop_to P) ∧
  ∀ r, r ∈ pol_replicas (prop_to P) → r ∈ pol_replicas (prop_from P).

(** Majorities of the old and of the new policy of a proposal have a node in common. *)
Definition quorums_meet (P : Proposal) : Prop :=
  pol_replication_factor (prop_from P) < old_quorum (prop_from P) + old_quorum (prop_to P).

Definition unfenced (n : Nd) (π : Policy) : Prop :=
  ∀ pr, nd_promise n = Some pr → prm_epoch pr ≤ pol_epoch π.

Definition promised (n : Nd) (P : Proposal) : Prop :=
  nd_promise n = Some (mkPromise (pol_epoch (prop_to P)) (prop_hash P)).

(** The traffic of a policy names it by epoch and leader. *)
Definition names (π : Policy) (epoch leader : N) : Prop := pol_epoch π = epoch ∧ pol_leader π = leader.

Definition ticket_at (t : Tickets) (partition sequence : N) : option PendingReplicaCommit := ticket_of t partition sequence.

(** The same ticket, with no more acknowledgements. *)
Definition weaker (t' t : PendingReplicaCommit) : Prop :=
  tk_epoch t' = tk_epoch t ∧ tk_leader t' = tk_leader t ∧ tk_replicas t' = tk_replicas t ∧ tk_quorum t' = tk_quorum t ∧
  tk_acknowledgements t' ⊆ tk_acknowledgements t.

Definition in_log (log : list bytes) (r : FabricStreamRecord) : Prop := log_at log (rec_sequence r) = Some (rec_payload r).

(** What a node must know of itself when it sends a packet. *)
Definition may_send (i : N) (n : Nd) (e : Envelope) : Prop :=
  env_from e = i ∧
  match env_packet e with
  | ReplicaPacket a =>
      ∃ π, nd_policy n = Some π ∧ names π (app_epoch a) (app_leader a) ∧ pol_leader π = i ∧
        log_at (nd_log n) (app_sequence a) = Some (app_payload a)
  | ReplicaAckPacket k =>
      ack_accepted k = true → ack_replica k = i ∧
        ∃ π, nd_policy n = Some π ∧ names π (ack_epoch k) (ack_leader k) ∧ unfenced n π ∧
          ack_sequence k ≤ len (nd_log n)
  | CommitPacket u =>
      ∃ π, nd_policy n = Some π ∧ names π (cu_epoch u) (cu_leader u) ∧ cu_committed_sequence u ≤ nd_commit n
  | EpochPreparePacket P => ∃ T, nd_transition n = Some T ∧ tr_proposal T = P
  | EpochVotePacket v =>
      vote_accepted v = true → vote_voter v = i ∧
        ∃ P, promised n P ∧ vote_epoch v = pol_epoch (prop_to P) ∧ vote_hash v = prop_hash P
  | EpochCommitPacket c =>
      ∃ T, nd_transition n = Some T ∧ tr_finalized T = true ∧ tr_proposal T = ec_proposal c ∧
        nd_policy n = Some (prop_to (ec_proposal c))
  | EpochRepairPacket b =>
      ∃ T, nd_transition n = Some T ∧ tr_proposal T = rb_proposal b ∧
        len (nd_log n) = prop_candidate_tail (rb_proposal b) ∧ Forall (in_log (nd_log n)) (rb_records b)
  | EpochPullResponsePacket r =>
      nd_policy n = Some (prop_from (pr_proposal r)) ∧ Forall (in_log (nd_log n)) (pr_records r)
  | EpochPullRequestPacket _ => True
  end.

(** A packet that has come to a node, with the peer it comes from. *)
Definition received (net : Envelope → Prop) (i from : N) (p : Packet) : Prop :=
  ∃ e, net e ∧ env_to e = i ∧ env_from e = from ∧ env_sender e = from ∧ env_packet e = p.

Section protocol.
(** The policy of the first epoch. *)
Context (p0 : Policy).

Inductive pstep (i : N) (net : Envelope → Prop) (n : Nd) : Nd → Prop :=
| PEstablish :
    nd_policy n = None → pol_epoch p0 = 1 → good_policy p0 → pstep i net n (with_policy (Some p0) n)
| PLeaderAppend π v :
    nd_policy n = Some π → pol_leader π = i → pstep i net n (with_log (nd_log n ++ [v]) n)
| PFollow a π :
    received net i (app_leader a) (ReplicaPacket a) → nd_policy n = Some π → names π (app_epoch a) (app_leader a) →
    app_sequence a = len (nd_log n) + 1 → pstep i net n (with_log (nd_log n ++ [app_payload a]) n)
| PRepair from b r :
    received net i from (EpochRepairPacket b) → nd_policy n = Some (prop_from (rb_proposal b)) → r ∈ rb_records b →
    rec_sequence r = len (nd_log n) + 1 → pstep i net n (with_log (nd_log n ++ [rec_payload r]) n)
| PPull from p r :
    received net i from (EpochPullResponsePacket p) → nd_policy n = Some (prop_from (pr_proposal p)) →
    r ∈ pr_records p → rec_sequence r = len (nd_log n) + 1 →
    pstep i net n (with_log (nd_log n ++ [rec_payload r]) n)
| PPromise P :
    (∃ from, received net i from (EpochPreparePacket P)) ∨
      (∃ from b, received net i from (EpochRepairPacket b) ∧ rb_proposal b = P) ∨
      (∃ T, nd_transition n = Some T ∧ tr_proposal T = P) →
    nd_policy n = Some (prop_from P) → shape P → i ∈ pol_replicas (prop_from P) →
    len (nd_log n) = prop_candidate_tail P →
    (∀ pr, nd_promise n = Some pr → prm_epoch pr < pol_epoch (prop_to P)) →
    pstep i net n (with_promise (Some (mkPromise (pol_epoch (prop_to P)) (prop_hash P))) n)
| PVote T v :
    nd_transition n = Some T → tr_finalized T = false → vote_hash v = prop_hash (tr_proposal T) →
    vote_voter v ∈ pol_replicas (prop_from (tr_proposal T)) →
    (received net i (vote_voter v) (EpochVotePacket v) ∨
       (vote_voter v = i ∧ (vote_accepted v = true → promised n (tr_proposal T)))) →
    pstep i net n (with_transition (Some (mkTransition (tr_proposal T) (<[vote_voter v := v]> (tr_votes T)) false
      (tr_quorum_committed T))) n)
| PFinalize T :
    nd_transition n = Some T → has_quorum T = true →
    pstep i net n (with_transition (Some (mkTransition (tr_proposal T) (tr_votes T) true
      (prop_candidate_tail (tr_proposal T)))) n)
| PInstallOwn T :
    nd_transition n = Some T → tr_finalized T = true → nd_policy n = Some (prop_from (tr_proposal T)) →
    promised n (tr_proposal T) → pstep i net n (with_policy (Some (prop_to (tr_proposal T))) n)
| PInstall c :
    received net i (pol_leader (prop_to (ec_proposal c))) (EpochCommitPacket c) →
    nd_policy n = Some (prop_from (ec_proposal c)) → promised n (ec_proposal c) →
    len (nd_log n) = prop_candidate_tail (ec_proposal c) →
    pstep i net n (with_policy (Some (prop_to (ec_proposal c))) n)
| PCommitTicket partition s t :
    ticket_at (nd_pending n) partition s = Some t → tk_quorum t ≤ N.of_nat (size (tk_acknowledgements t)) →
    pstep i net n (with_commit s n)
| PCommitUpdate u π :
    received net i (cu_leader u) (CommitPacket u) → nd_policy n = Some π → names π (cu_epoch u) (cu_leader u) →
    cu_committed_sequence u ≤ len (nd_log n) → pstep i net n (with_commit (cu_committed_sequence u) n)
| PCommitOwn T :
    nd_transition n = Some T → tr_finalized T = true → pstep i net n (with_commit (tr_quorum_committed T) n)
| PCommitEpoch c :
    received net i (pol_leader (prop_to (ec_proposal c))) (EpochCommitPacket c) → promised n (ec_proposal c) →
    ec_committed_sequence c = prop_candidate_tail (ec_proposal c) →
    pstep i net n (with_commit (ec_committed_sequence c) n)
| PTicket π partition s t :
    nd_policy n = Some π → pol_leader π = i → unfenced n π → s ≤ len (nd_log n) →
    tk_epoch t = pol_epoch π → tk_leader t = i → tk_replicas t = list_to_set (pol_replicas π) →
    tk_quorum t = old_quorum π → tk_acknowledgements t = {[ i ]} →
    pstep i net n (with_pending (<[partition := <[s := t]> (default ∅ (nd_pending n !! partition))]> (nd_pending n)) n)
| PAckTicket partition s t a t' :
    ticket_at (nd_pending n) partition s = Some t → received net i (ack_replica a) (ReplicaAckPacket a) →
    ack_accepted a = true → ack_sequence a = s → tk_epoch t = ack_epoch a → tk_leader t = ack_leader a →
    ack_replica a ∈ tk_replicas t →
    tk_epoch t' = tk_epoch t → tk_leader t' = tk_leader t → tk_replicas t' = tk_replicas t → tk_quorum t' = tk_quorum t →
    tk_acknowledgements t' = {[ ack_replica a ]} ∪ tk_acknowledgements t →
    pstep i net n (with_pending (<[partition := <[s := t']> (default ∅ (nd_pending n !! partition))]> (nd_pending n)) n)
| PTicketsWeaker pending :
    (∀ partition s t', ticket_at pending partition s = Some t' →
       ∃ t, ticket_at (nd_pending n) partition s = Some t ∧ weaker t' t) →
    pstep i net n (with_pending pending n)
| PSend e :
    may_send i n e → pstep i net n (with_sent (nd_sent n ++ [e]) n).

(** The start of a transition. *)
Inductive bstep (i : N) (n : Nd) (P : Proposal) : Nd → Prop :=
| PBegin :
    nd_policy n = Some (prop_from P) → prop_candidate_tail P = len (nd_log n) → pol_leader (prop_to P) = i →
    bstep i n P (with_transition (Some (mkTransition P ∅ false 0)) n).
End protocol.
