(* ===== verification/FabricElect.v ===== *)
(** * Fabric streams: elections

    Which policies are installed.  Two proposals from one policy may both be
    finalized; when majorities of old and new policies meet, the one of the
    lower epoch is then installed by a minority only.  So the policies that a
    majority has installed are on one line of descent, and an epoch has one
    policy. *)
From S2P Require Import Prelude Bytes Text FabricStore FabricCluster FabricEpoch FabricProtocol.

Local Open Scope list_scope.
Local Open Scope N_scope.

(** ** Majorities *)

Lemma len_NoDup_le {A} (l k : list A) : NoDup l → (∀ x, x ∈ l → x ∈ k) → len l ≤ len k.
Proof. intros Hl Hk. unfold len. pose proof (NoDup_incl_length (proj1 (NoDup_ListNoDup l) Hl) (l' := k)) as H.
  enough (length l ≤ length k)%nat by lia. apply H. intros x Hx. apply list_elem_of_In. apply Hk. by apply list_elem_of_In.
Qed.

(** Two lists of members that are together longer than the set share one. *)
Lemma overlap {A} `{EqDecision A} (l k m : list A) :
  NoDup l → NoDup k → (∀ x, x ∈ l → x ∈ m) → (∀ x, x ∈ k → x ∈ m) → len m < len l + len k → ∃ x, x ∈ l ∧ x ∈ k.
Proof.
  intros Hl Hk Hlm Hkm Hlen. destruct (decide (Exists (λ x, x ∈ k) l)) as [He|He].
  - by apply Exists_exists in He.
  - exfalso. enough (len (l ++ k) ≤ len m) as H by (rewrite len_app in H; lia). apply len_NoDup_le.
    + apply NoDup_app. split_and!; [done| |done]. intros x Hx Hxk. apply He, Exists_exists. by exists x.
    + intros x [Hx|Hx]%elem_of_app; auto.
Qed.

Lemma quorum_not_empty (π : Policy) : ¬ old_quorum π ≤ len (@nil N).
Proof. unfold old_quorum. rewrite N.add_1_r. apply N.nle_succ_0. Qed.

(** ** What has happened *)

(** The history that the invariant speaks of: votes, installed policies,
    finalized proposals, acknowledged records, and the records that the leader
    of a policy has had. *)
Record Ghost := mkGhost {
  g_voted : N → Proposal → Prop;
  g_installed : N → Policy → Prop;
  g_final : Proposal → Prop;
  g_acked : N → Policy → N → Prop;
  g_records : Policy → list bytes;
}.

Section elections.
Context (p0 : Policy) (Allowed : Proposal → Prop).

Definition majority (g : Ghost) (π : Policy) (W : list N) : Prop :=
  NoDup W ∧ old_quorum π ≤ len W ∧ ∀ w, w ∈ W → w ∈ pol_replicas π ∧ g_installed g w π.

Definition active (g : Ghost) (π : Policy) : Prop := ∃ W, majority g π W.

Definition child (g : Ghost) (π π' : Policy) : Prop := ∃ P, g_final g P ∧ prop_from P = π ∧ prop_to P = π'.

(** The rules that votes, installations and finalizations follow. *)
Record elect_ok (g : Ghost) : Prop := {
  eo_installed : ∀ i π, g_installed g i π →
    good_policy π ∧ ((π = p0 ∧ pol_epoch p0 = 1) ∨ ∃ P, g_final g P ∧ prop_to P = π ∧ g_voted g i P);
  eo_voted : ∀ i P, g_voted g i P →
    Allowed P ∧ shape P ∧ g_installed g i (prop_from P) ∧ i ∈ pol_replicas (prop_from P);
  eo_once : ∀ i P P', g_voted g i P → g_voted g i P' → pol_epoch (prop_to P) = pol_epoch (prop_to P') → P = P';
  eo_cross : ∀ i P π, g_voted g i P → g_installed g i π → pol_epoch (prop_from P) < pol_epoch π →
    pol_epoch (prop_to P) ≤ pol_epoch π;
  eo_final : ∀ P, g_final g P → ∃ Q, NoDup Q ∧ old_quorum (prop_from P) ≤ len Q ∧
    (∀ q, q ∈ Q → g_voted g q P) ∧ ∀ r, r ∈ pol_replicas (prop_to P) → r ∈ Q;
}.

Section elected.
Context (g : Ghost) (Hg : elect_ok g).

Lemma final_parts P : g_final g P →
  Allowed P ∧ shape P ∧ good_policy (prop_from P) ∧ active g (prop_from P) ∧ ∃ q, g_voted g q P.
Proof.
  intros HP. destruct (eo_final g Hg P HP) as (Q & HQ & Hq & Hv & Hto).
  destruct Q as [|q Q]; [by destruct (quorum_not_empty _ Hq)|].
  pose proof (Hv q (list_elem_of_here q Q)) as Hvq. destruct (eo_voted g Hg q P Hvq) as (Ha & Hs & Hi & Hr).
  split_and!; [done|done|by destruct (eo_installed g Hg q _ Hi)| |by exists q].
  exists (q :: Q). split_and!; [done|done|]. intros w Hw. destruct (eo_voted g Hg w P (Hv w Hw)) as (? & ? & ? & ?). done.
Qed.

Lemma active_installed π : active g π → ∃ i, g_installed g i π.
Proof.
  intros (W & HW & Hq & Hi). destruct W as [|w W]; [by destruct (quorum_not_empty _ Hq)|].
  exists w. apply Hi, list_elem_of_here.
Qed.

Lemma installed_origin i π : g_installed g i π →
  (π = p0 ∧ pol_epoch π = 1) ∨ ∃ P, g_final g P ∧ prop_to P = π ∧ active g (prop_from P) ∧
    pol_epoch (prop_from P) < pol_epoch π.
Proof.
  intros Hi. destruct (eo_installed g Hg i π Hi) as [_ [[-> H1]|(P & HP & <- & _)]]; [by left|right].
  destruct (final_parts P HP) as (_ & (He & _) & _ & Ha & _). eauto.
Qed.

Lemma installed_epoch i π : g_installed g i π → 1 ≤ pol_epoch π ∧ (pol_epoch π = 1 → π = p0).
Proof.
  intros Hi. destruct (installed_origin i π Hi) as [[-> H1]|(P & HP & <- & Ha & He)]; [by rewrite H1|].
  destruct (active_installed _ Ha) as [j Hj].
  destruct (installed_origin j _ Hj) as [[_ H1]|(P' & _ & _ & _ & He')]; lia.
Qed.

(** A majority of the old policy has voted: proposals of one epoch coincide. *)
Lemma siblings_eq P P' : g_final g P → g_final g P' → prop_from P = prop_from P' →
  pol_epoch (prop_to P) = pol_epoch (prop_to P') → P = P'.
Proof.
  intros HP HP' Hf He. destruct (final_parts P HP) as (_ & _ & (Hnd & Hlen & _) & _).
  destruct (eo_final g Hg P HP) as (Q & HQ & Hq & Hv & _). destruct (eo_final g Hg P' HP') as (Q' & HQ' & Hq' & Hv' & _).
  destruct (overlap Q Q' (pol_replicas (prop_from P))) as (x & Hx & Hx'); try done.
  - intros x Hx. by destruct (eo_voted g Hg x P (Hv x Hx)) as (? & ? & ? & ?).
  - intros x Hx. rewrite Hf. by destruct (eo_voted g Hg x P' (Hv' x Hx)) as (? & ? & ? & ?).
  - rewrite Hlen. rewrite <-Hf in Hq'. unfold old_quorum in *. pose proof (N.div_mod (pol_replication_factor (prop_from P)) 2).
    pose proof (N.mod_lt (pol_replication_factor (prop_from P)) 2). lia.
  - apply (eo_once g Hg x); auto.
Qed.

Context (allowed_meet : ∀ P, Allowed P → quorums_meet P).

(** Of two finalized proposals from one policy the lower is installed by a minority. *)
Lemma superseded_inactive P P' : g_final g P → g_final g P' → prop_from P = prop_from P' →
  pol_epoch (prop_to P) < pol_epoch (prop_to P') → ¬ active g (prop_to P).
Proof.
  intros HP HP' Hf He (W & HW & Hq & Hi). destruct (final_parts P HP) as (Ha & (Hlt & _ & Hsub) & (_ & Hlen & _) & _).
  destruct (eo_final g Hg P' HP') as (Q & HQ & Hq' & Hv & _).
  destruct (overlap W Q (pol_replicas (prop_from P))) as (x & Hx & Hx'); try done.
  - intros x Hx. by apply Hsub, Hi.
  - intros x Hx. rewrite Hf. by destruct (eo_voted g Hg x P' (Hv x Hx)) as (? & ? & ? & ?).
  - rewrite Hlen. pose proof (allowed_meet P Ha) as Hm. unfold quorums_meet in Hm. rewrite <-Hf in Hq'. lia.
  - pose proof (eo_cross g Hg x P' (prop_to P) (Hv x Hx') (proj2 (Hi x Hx))). rewrite <-Hf in *. lia.
Qed.

Lemma child_epoch π π' : child g π π' → pol_epoch π < pol_epoch π'.
Proof. intros (P & HP & <- & <-). by destruct (final_parts P HP) as (_ & (? & _) & _). Qed.

Lemma child_active π π' : child g π π' → active g π.
Proof. intros (P & HP & <- & <-). by destruct (final_parts P HP) as (_ & _ & _ & ? & _). Qed.

Lemma descends_active π π' : rtc (child g) π π' → active g π' → active g π.
Proof. intros [|? ? ? H _] Ha; [done|by eapply child_active]. Qed.

Lemma descends_epoch π π' : rtc (child g) π π' → pol_epoch π ≤ pol_epoch π'.
Proof. induction 1 as [|? ? ? H%child_epoch]; lia. Qed.

(** A policy with an active descendant leaves no room for a sibling of it to be active. *)
Lemma sibling_of_ancestor P π : g_final g P → rtc (child g) (prop_from P) π → active g π →
  π = prop_from P ∨ rtc (child g) (prop_to P) π ∨
  ∃ P', g_final g P' ∧ prop_from P' = prop_from P ∧ pol_epoch (prop_to P) < pol_epoch (prop_to P') ∧ rtc (child g) (prop_to P') π.
Proof.
  intros HP Hd Ha. inversion Hd as [|? c ? (P2 & HP2 & Hf & <-) Hc]; subst; [by left|right].
  destruct (N.lt_total (pol_epoch (prop_to P)) (pol_epoch (prop_to P2))) as [Hlt|[Heq|Hlt]].
  - right. by exists P2.
  - left. by rewrite (siblings_eq P P2).
  - destruct (superseded_inactive P2 P); try done. by eapply descends_active.
Qed.

Lemma active_line n π π' : pol_epoch π + pol_epoch π' ≤ n → active g π → active g π' → pol_epoch π ≤ pol_epoch π' →
  rtc (child g) π π' ∨ rtc (child g) π' π.
Proof.
  revert π π'. induction (N.lt_wf_0 n) as [n _ IH]; intros π π' Hn Ha Ha' Hle.
  destruct (active_installed π Ha) as [i Hi]. destruct (active_installed π' Ha') as [j Hj].
  destruct (installed_origin j π' Hj) as [[-> H1]|(P & HP & <- & Hf & He)].
  { destruct (installed_epoch i π Hi) as [? Hp]. rewrite Hp by lia. by left. }
  assert (rtc (child g) π (prop_from P) ∨ rtc (child g) (prop_from P) π) as [H|H].
  { destruct (N.le_gt_cases (pol_epoch π) (pol_epoch (prop_from P))) as [H|H].
    - apply (IH (pol_epoch π + pol_epoch (prop_from P))); [lia|lia|done..].
    - destruct (IH (pol_epoch (prop_from P) + pol_epoch π) ltac:(lia) (prop_from P) π); (done || lia || auto). }
  - left. eapply rtc_r; [done|]. by exists P.
  - destruct (sibling_of_ancestor P π HP H Ha) as [->|[Hd|(P' & HP' & Hf' & Hlt & Hd)]].
    + left. apply rtc_once. by exists P.
    + by right.
    + by destruct (superseded_inactive P P').
Qed.

Lemma active_comparable π π' : active g π → active g π' → rtc (child g) π π' ∨ rtc (child g) π' π.
Proof.
  intros Ha Ha'. destruct (N.le_gt_cases (pol_epoch π) (pol_epoch π')).
  - by apply (active_line (pol_epoch π + pol_epoch π')).
  - destruct (active_line (pol_epoch π' + pol_epoch π) π' π); (done || lia || auto).
Qed.

Lemma final_below P P' : g_final g P → g_final g P' → pol_epoch (prop_to P) = pol_epoch (prop_to P') →
  rtc (child g) (prop_from P) (prop_from P') → P = P'.
Proof.
  intros HP HP' He Hd. destruct (final_parts P' HP') as (_ & (Hlt' & _) & _ & Ha' & _).
  destruct (sibling_of_ancestor P _ HP Hd Ha') as [Hf|[H|(P2 & HP2 & Hf2 & Hlt2 & H)]].
  - by apply siblings_eq.
  - apply descends_epoch in H. lia.
  - apply descends_epoch in H. lia.
Qed.

(** An epoch has one finalized proposal, and one policy. *)
Lemma final_unique P P' : g_final g P → g_final g P' → pol_epoch (prop_to P) = pol_epoch (prop_to P') → P = P'.
Proof.
  intros HP HP' He. destruct (final_parts P HP) as (_ & _ & _ & Ha & _). destruct (final_parts P' HP') as (_ & _ & _ & Ha' & _).
  destruct (active_comparable _ _ Ha Ha'); [by apply final_below|symmetry; by apply final_below].
Qed.

Lemma installed_unique i j π π' : g_installed g i π → g_installed g j π' → pol_epoch π = pol_epoch π' → π = π'.
Proof.
  intros Hi Hj He. destruct (installed_epoch i π Hi) as [H1 Hp]. destruct (installed_epoch j π' Hj) as [H1' Hp'].
  destruct (installed_origin i π Hi) as [[-> H]|(P & HP & <- & _)]; [symmetry; apply Hp'; lia|].
  destruct (installed_origin j π' Hj) as [[-> H]|(P' & HP' & <- & _)]; [apply Hp; lia|].
  by rewrite (final_unique P P').
Qed.
End elected.
End elections.
