(* ===== verification/FabricAgree.v ===== *)
(** * Fabric streams: facts agree

    What a history says of records: the facts that a majority of an epoch has
    acknowledged, and that those of all epochs agree. *)
From S2P Require Import Prelude Bytes Text FabricStore FabricCluster FabricEpoch FabricProtocol FabricElect.

Local Open Scope list_scope.
Local Open Scope N_scope.

Section agreement.
Context (p0 : Policy) (Allowed : Proposal → Prop).
Context (allowed_meet : ∀ P, Allowed P → quorums_meet P).

Abbreviation tail := prop_candidate_tail.
Abbreviation elect_ok := (elect_ok p0 Allowed).

(** ** Committed records *)

(** A sequence up to which the records of a policy are committed: a majority has
    acknowledged it, or a finalized proposal ends there. *)
Definition fact (g : Ghost) (π : Policy) (s : N) : Prop :=
  (∃ Q, NoDup Q ∧ old_quorum π ≤ len Q ∧ ∀ q, q ∈ Q → q ∈ pol_replicas π ∧ g_acked g q π s) ∨
  (∃ P, g_final g P ∧ prop_from P = π ∧ tail P = s).

(** Records up to [c] are those of a committed prefix. *)
Definition covered (g : Ghost) (log : list bytes) (c : N) : Prop :=
  c = 0 ∨ ∃ π s, fact g π s ∧ c ≤ s ∧ c ≤ len log ∧ pre c log = pre c (g_records g π).

Definition owned (g : Ghost) (π : Policy) : Prop := (π = p0 ∧ pol_epoch p0 = 1) ∨ g_installed g (pol_leader π) π.

Record ghost_ok (g : Ghost) : Prop := {
  go_elect : elect_ok g;
  go_owned : ∀ i π, g_installed g i π → owned g π;
  go_final : ∀ P, g_final g P → tail P ≤ len (g_records g (prop_from P)) ∧
    (g_installed g (pol_leader (prop_to P)) (prop_to P) →
       tail P ≤ len (g_records g (prop_to P)) ∧
       pre (tail P) (g_records g (prop_to P)) = pre (tail P) (g_records g (prop_from P)));
  go_acked : ∀ i π s, g_acked g i π s → g_installed g i π ∧ s ≤ len (g_records g π) ∧
    ∀ P, g_voted g i P → prop_from P = π → s ≤ tail P;
  go_tails : ∀ i P P', g_voted g i P → g_voted g i P' → prop_from P = prop_from P' →
    pol_epoch (prop_to P) < pol_epoch (prop_to P') → tail P ≤ tail P';
  go_parent : ∀ i P P', g_voted g i P' → g_final g P → prop_to P = prop_from P' → tail P ≤ tail P';
}.

Section committed.
Context (g : Ghost) (Hg : ghost_ok g).
Let He : elect_ok g := go_elect g Hg.

Lemma fact_active π s : fact g π s → active g π ∧ s ≤ len (g_records g π).
Proof.
  intros [(Q & HQ & Hq & Ha)|(P & HP & <- & <-)].
  - split; [exists Q; split_and!; [done|done|]; intros w Hw; destruct (Ha w Hw) as [? Hk]; by destruct (go_acked g Hg w π s Hk)|].
    destruct Q as [|q Q]; [by destruct (quorum_not_empty π)|].
    destruct (Ha q (list_elem_of_here q Q)) as [_ Hk]. by destruct (go_acked g Hg q π s Hk) as (? & ? & ?).
  - destruct (final_parts p0 Allowed g He P HP) as (_ & _ & _ & ? & _). by destruct (go_final g Hg P HP).
Qed.

(** A sequence that no active successor of a policy cuts off. *)
Definition kept (π : Policy) (s : N) : Prop :=
  ∀ P, g_final g P → prop_from P = π → active g (prop_to P) → s ≤ tail P.

Lemma quorums_overlap π (Q Q' : list N) : good_policy π → NoDup Q → NoDup Q' → old_quorum π ≤ len Q → old_quorum π ≤ len Q' →
  (∀ q, q ∈ Q → q ∈ pol_replicas π) → (∀ q, q ∈ Q' → q ∈ pol_replicas π) → ∃ q, q ∈ Q ∧ q ∈ Q'.
Proof.
  intros (Hnd & Hlen & _) HQ HQ' Hq Hq' Hs Hs'. apply (overlap Q Q' (pol_replicas π)); try done.
  rewrite Hlen. unfold old_quorum in *. pose proof (N.div_mod (pol_replication_factor π) 2).
  pose proof (N.mod_lt (pol_replication_factor π) 2). lia.
Qed.

Lemma voters P : g_final g P → ∃ Q, NoDup Q ∧ old_quorum (prop_from P) ≤ len Q ∧
  ∀ q, q ∈ Q → q ∈ pol_replicas (prop_from P) ∧ g_voted g q P.
Proof.
  intros HP. destruct (eo_final p0 Allowed g He P HP) as (Q & HQ & Hq & Hv & _). exists Q. split_and!; [done|done|].
  intros q Hqq. pose proof (Hv q Hqq) as H. by destruct (eo_voted p0 Allowed g He q P H) as (? & ? & ? & ?).
Qed.

Lemma fact_kept π s : fact g π s → kept π s.
Proof.
  intros Hf P HP HPf Ha. destruct (voters P HP) as (Q & HQ & Hq & Hv).
  destruct (final_parts p0 Allowed g He P HP) as (_ & _ & Hgood & _ & _).
  destruct Hf as [(Q' & HQ' & Hq' & Hk)|(P' & HP' & HPf' & <-)].
  - subst π. destruct (quorums_overlap (prop_from P) Q Q') as (x & Hx & Hx'); try done; [naive_solver..|].
    destruct (go_acked g Hg x _ s (proj2 (Hk x Hx'))) as (_ & _ & H). apply H; [|done]. by apply Hv.
  - destruct (voters P' HP') as (Q' & HQ' & Hq' & Hv'). rewrite HPf', <-HPf in *.
    destruct (N.lt_total (pol_epoch (prop_to P)) (pol_epoch (prop_to P'))) as [Hlt|[Heq|Hlt]].
    + by destruct (superseded_inactive p0 Allowed g He allowed_meet P P').
    + by rewrite (siblings_eq p0 Allowed g He P P').
    + destruct (quorums_overlap (prop_from P) Q Q') as (x & Hx & Hx'); try done; [naive_solver..|].
      apply (go_tails g Hg x); [by apply Hv'|by apply Hv|done|done].
Qed.

Lemma final_owner P : g_final g P → active g (prop_to P) → g_installed g (pol_leader (prop_to P)) (prop_to P).
Proof.
  intros HP Ha. destruct (active_installed _ _ Ha) as [j Hj]. destruct (go_owned g Hg j _ Hj) as [Heq|]; [|done].
  exfalso. destruct (final_parts p0 Allowed g He P HP) as (_ & (Hlt & _) & _ & Haf & _).
  destruct (active_installed _ _ Haf) as [k Hk]. destruct (installed_epoch p0 Allowed g He k _ Hk) as [H1 _].
  destruct Heq as [Heq H0]. rewrite Heq in *. lia.
Qed.

Lemma child_kept P s : g_final g P → active g (prop_to P) → kept (prop_from P) s →
  kept (prop_to P) s ∧ pre s (g_records g (prop_to P)) = pre s (g_records g (prop_from P)).
Proof.
  intros HP Ha Hk. pose proof (Hk P HP eq_refl Ha) as Hs. split.
  - intros P' HP' Hf Ha'. destruct (voters P' HP') as (Q & _ & Hq & Hv).
    destruct Q as [|q Q]; [by destruct (quorum_not_empty (prop_from P'))|].
    pose proof (go_parent g Hg q P P' (proj2 (Hv q (list_elem_of_here q Q))) HP ltac:(done)). lia.
  - destruct (go_final g Hg P HP) as [_ H]. destruct (H (final_owner P HP Ha)) as [_ Heq]. by eapply pre_le.
Qed.

(** Along a line of active policies committed records stay. *)
Lemma line_keeps π π' s : rtc (child g) π π' → active g π' → kept π s → pre s (g_records g π') = pre s (g_records g π).
Proof.
  induction 1 as [|? ? ? (P & HP & <- & <-) Hd IH]; intros Ha Hk; [done|].
  pose proof (descends_active p0 Allowed g He _ _ Hd Ha) as Hac.
  destruct (child_kept P s HP Hac Hk) as [Hk' <-]. by apply IH.
Qed.

(** Committed records agree. *)
Lemma facts_agree π s π' s' q v v' : fact g π s → fact g π' s' → q ≤ s → q ≤ s' →
  log_at (g_records g π) q = Some v → log_at (g_records g π') q = Some v' → v = v'.
Proof.
  intros Hf Hf' Hq Hq' Hv Hv'. destruct (fact_active π s Hf) as [Ha _]. destruct (fact_active π' s' Hf') as [Ha' _].
  destruct (active_comparable p0 Allowed g He allowed_meet π π' Ha Ha') as [Hd|Hd].
  - pose proof (line_keeps π π' s Hd Ha' (fact_kept π s Hf)) as Heq.
    rewrite <-(log_at_pre q s) in Hv, Hv' by done. congruence.
  - pose proof (line_keeps π' π s' Hd Ha (fact_kept π' s' Hf')) as Heq.
    rewrite <-(log_at_pre q s') in Hv, Hv' by done. congruence.
Qed.
End committed.

End agreement.
