(* ===== verification/FabricInvariant.v ===== *)
(** * Fabric streams: the steps keep the invariant

    What the state of a node and the packets it has sent say of the history, and
    that every step of [FabricProtocol] extends the history accordingly. *)
From S2P Require Import Prelude Bytes Text FabricStore FabricCluster FabricEpoch FabricProtocol FabricElect FabricAgree.

Local Open Scope list_scope.
Local Open Scope N_scope.

Section invariant.
Context (p0 : Policy) (Allowed : Proposal → Prop).
Context (allowed_meet : ∀ P, Allowed P → quorums_meet P).
Context (allowed_hash : ∀ P P', Allowed P → Allowed P' → prop_hash P = prop_hash P' → P = P').

Abbreviation tail := prop_candidate_tail.
Abbreviation ghost_ok := (ghost_ok p0 Allowed).

(** ** Nodes and packets *)

(** A log that has at least [c] records, the same as another up to there. *)
Definition shares (log records : list bytes) (c : N) : Prop := c ≤ len log ∧ c ≤ len records ∧ pre c log = pre c records.

Record transition_ok (g : Ghost) (i : N) (log : list bytes) (T : Transition) : Prop := {
  to_allowed : Allowed (tr_proposal T);
  to_leader : pol_leader (prop_to (tr_proposal T)) = i;
  to_from : g_installed g i (prop_from (tr_proposal T));
  to_log : shares log (g_records g (prop_from (tr_proposal T))) (tail (tr_proposal T));
  to_votes : ∀ v vote, tr_votes T !! v = Some vote → vote_voter vote = v ∧
    (vote_accepted vote = true → g_voted g v (tr_proposal T));
  to_final : tr_finalized T = true → g_final g (tr_proposal T) ∧ tr_quorum_committed T = tail (tr_proposal T);
}.

Definition ticket_ok (g : Ghost) (i : N) (log : list bytes) (s : N) (t : PendingReplicaCommit) : Prop :=
  ∃ π, g_installed g i π ∧ names π (tk_epoch t) (tk_leader t) ∧ tk_leader t = i ∧
    tk_replicas t = list_to_set (pol_replicas π) ∧ tk_quorum t = old_quorum π ∧ shares log (g_records g π) s ∧
    ∀ a, a ∈ tk_acknowledgements t → a ∈ pol_replicas π ∧ g_acked g a π s.

Record policy_ok (g : Ghost) (i : N) (log : list bytes) (π : Policy) : Prop := {
  po_installed : g_installed g i π;
  po_newest : ∀ π', g_installed g i π' → pol_epoch π' ≤ pol_epoch π;
  po_log : log `prefix_of` g_records g π;
  po_leader : pol_leader π = i → log = g_records g π;
  po_tail : ∀ P, g_final g P → prop_to P = π → tail P ≤ len log;
}.

Record node_ok (g : Ghost) (i : N) (n : Nd) : Prop := {
  no_none : nd_policy n = None → nd_log n = [] ∧ nd_promise n = None ∧ (∀ π, ¬ g_installed g i π) ∧
    (pol_leader p0 = i → g_records g p0 = []);
  no_policy : ∀ π, nd_policy n = Some π → policy_ok g i (nd_log n) π;
  no_promise : ∀ pr, nd_promise n = Some pr → ∃ P, g_voted g i P ∧ pr = mkPromise (pol_epoch (prop_to P)) (prop_hash P);
  no_voted : ∀ P, g_voted g i P → shares (nd_log n) (g_records g (prop_from P)) (tail P) ∧
    ∃ pr, nd_promise n = Some pr ∧ pol_epoch (prop_to P) ≤ prm_epoch pr;
  no_acked : ∀ π s, g_acked g i π s → s ≤ len (nd_log n);
  no_transition : ∀ T, nd_transition n = Some T → transition_ok g i (nd_log n) T;
  no_tickets : ∀ partition s t, ticket_at (nd_pending n) partition s = Some t → ticket_ok g i (nd_log n) s t;
  no_commit : covered g (nd_log n) (nd_commit n);
}.

Definition packet_ok (g : Ghost) (i : N) (p : Packet) : Prop :=
  match p with
  | ReplicaPacket a =>
      ∃ π, g_installed g i π ∧ names π (app_epoch a) (app_leader a) ∧
        log_at (g_records g π) (app_sequence a) = Some (app_payload a)
  | ReplicaAckPacket k =>
      ack_accepted k = true → ack_replica k = i ∧
        ∃ π, names π (ack_epoch k) (ack_leader k) ∧ g_acked g i π (ack_sequence k)
  | CommitPacket u =>
      ∃ π, g_installed g i π ∧ names π (cu_epoch u) (cu_leader u) ∧
        cu_committed_sequence u ≤ len (g_records g π) ∧ covered g (g_records g π) (cu_committed_sequence u)
  | EpochPreparePacket P => Allowed P
  | EpochVotePacket v =>
      vote_accepted v = true → vote_voter v = i ∧ ∃ P, g_voted g i P ∧ vote_hash v = prop_hash P
  | EpochCommitPacket c => g_final g (ec_proposal c) ∧ g_installed g i (prop_to (ec_proposal c))
  | EpochRepairPacket b =>
      Allowed (rb_proposal b) ∧ g_installed g i (prop_from (rb_proposal b)) ∧
        Forall (in_log (g_records g (prop_from (rb_proposal b)))) (rb_records b)
  | EpochPullResponsePacket r =>
      g_installed g i (prop_from (pr_proposal r)) ∧
        Forall (in_log (g_records g (prop_from (pr_proposal r)))) (pr_records r)
  | EpochPullRequestPacket _ => True
  end.

Definition envelope_ok (g : Ghost) (e : Envelope) : Prop := packet_ok g (env_from e) (env_packet e).

(** ** Longer histories *)

(** History grows by what node [i] does. *)
Record extends (i : N) (g g' : Ghost) : Prop := {
  ex_voted : ∀ j P, g_voted g j P → g_voted g' j P;
  ex_installed : ∀ j π, g_installed g j π → g_installed g' j π;
  ex_final : ∀ P, g_final g P → g_final g' P;
  ex_acked : ∀ j π s, g_acked g j π s → g_acked g' j π s;
  ex_records : ∀ j π, g_installed g j π → g_records g π `prefix_of` g_records g' π;
  ex_voted_other : ∀ j P, j ≠ i → g_voted g' j P → g_voted g j P;
  ex_installed_other : ∀ j π, j ≠ i → g_installed g' j π → g_installed g j π;
  ex_acked_other : ∀ j π s, j ≠ i → g_acked g' j π s → g_acked g j π s;
  ex_records_other : ∀ π, pol_leader π ≠ i → g_records g' π = g_records g π;
  ex_final_new : ∀ j P, g_final g' P → g_installed g j (prop_to P) → g_final g P;
}.

Lemma extends_refl i g : extends i g g.
Proof. split; auto. Qed.

Lemma shares_longer log log' records c : log `prefix_of` log' → shares log records c → shares log' records c.
Proof.
  intros Hl (Hc & Hr & Heq). pose proof (prefix_len _ _ Hl). split_and!; [lia|done|]. by rewrite (pre_prefix _ _ _ Hl).
Qed.

Section longer.
Context (i : N) (g g' : Ghost) (Hx : extends i g g') (Hg : ghost_ok g).

Lemma shares_mono j π log c : g_installed g j π → shares log (g_records g π) c → shares log (g_records g' π) c.
Proof using Hx.
  intros Hi (Hc & Hr & Heq). pose proof (ex_records i g g' Hx j π Hi) as Hp. split_and!; [done| |].
  - pose proof (prefix_len _ _ Hp). lia.
  - by rewrite (pre_prefix c _ _ Hp).
Qed.

Lemma in_log_mono j π r : g_installed g j π → in_log (g_records g π) r → in_log (g_records g' π) r.
Proof using Hx. intros Hi. apply log_at_prefix. by eapply ex_records. Qed.

Lemma fact_installed π s : fact g π s → ∃ j, g_installed g j π.
Proof using Hg allowed_meet.
  intros Hf. destruct (fact_active p0 Allowed g Hg π s Hf) as [Ha _]. by apply active_installed in Ha.
Qed.

Lemma fact_mono π s : fact g π s → fact g' π s.
Proof using Hx.
  intros [(Q & HQ & Hq & Ha)|(P & HP & Hf & Ht)]; [left|right].
  - exists Q. split_and!; [done|done|]. intros q Hqq. destruct (Ha q Hqq). split; [done|by eapply ex_acked].
  - exists P. split_and!; [by eapply ex_final|done|done].
Qed.

Lemma covered_mono log log' c : log `prefix_of` log' → covered g log c → covered g' log' c.
Proof using Hx Hg allowed_meet.
  intros Hl [->|(π & s & Hf & Hs & Hc & Heq)]; [by left|right]. exists π, s.
  destruct (fact_installed π s Hf) as [j Hj]. destruct (fact_active p0 Allowed g Hg π s Hf) as [_ Hr].
  split_and!; [by apply fact_mono|done|pose proof (prefix_len _ _ Hl); lia|].
  rewrite (pre_prefix c _ _ Hl), Heq by done. symmetry. eapply pre_prefix; [by eapply ex_records|lia].
Qed.

Lemma transition_mono j log log' T : log `prefix_of` log' → transition_ok g j log T → transition_ok g' j log' T.
Proof using Hx.
  intros Hl [Ha Hld Hi Hlog Hv Hf]. split; [done|done|by eapply ex_installed| | |].
  - apply (shares_mono j); [done|]. destruct Hlog as (Hc & Hr & Heq). pose proof (prefix_len _ _ Hl).
    split_and!; [lia|done|]. by rewrite (pre_prefix _ _ _ Hl).
  - intros v vote H. destruct (Hv v vote H) as [? Hvv]. split; [done|]. intros Hacc. eapply ex_voted; eauto.
  - intros H. destruct (Hf H). split; [by eapply ex_final|done].
Qed.

Lemma ticket_mono j log log' s t : log `prefix_of` log' → ticket_ok g j log s t → ticket_ok g' j log' s t.
Proof using Hx.
  intros Hl (π & Hi & Hn & Hld & Hrep & Hq & Hs & Ha). exists π.
  split_and!; [by eapply ex_installed|done|done|done|done| |].
  - apply (shares_mono j); [done|]. by eapply shares_longer.
  - intros a Haa. destruct (Ha a Haa). split; [done|by eapply ex_acked].
Qed.

Lemma packet_mono j p : packet_ok g j p → packet_ok g' j p.
Proof using Hx Hg allowed_meet.
  destruct p; simpl; auto.
  - intros (π & Hi & Hn & Hl). exists π. split_and!; [by eapply ex_installed|done|].
    by eapply log_at_prefix; [eapply ex_records|].
  - intros H Hacc. destruct (H Hacc) as [? (π & Hn & Ha)]. split; [done|]. exists π. split; [done|by eapply ex_acked].
  - intros (π & Hi & Hn & Hl & Hc). exists π. pose proof (ex_records i g g' Hx j π Hi) as Hp.
    split_and!; [by eapply ex_installed|done|pose proof (prefix_len _ _ Hp); lia|by eapply covered_mono].
  - intros H Hacc. destruct (H Hacc) as [? (P & Hv & Hh)]. split; [done|]. exists P. split; [by eapply ex_voted|done].
  - intros [Hf Hi]. split; [by eapply ex_final|by eapply ex_installed].
  - intros (Ha & Hi & Hr). split_and!; [done|by eapply ex_installed|]. apply (Forall_impl _ _ _ Hr).
    intros r. by eapply in_log_mono.
  - intros (Hi & Hr). split; [by eapply ex_installed|]. apply (Forall_impl _ _ _ Hr). intros r. by eapply in_log_mono.
Qed.

(** What another node knows stays true. *)
Lemma other_node j n : j ≠ i → node_ok g j n → node_ok g' j n.
Proof using Hx Hg allowed_meet.
  intros Hj [Hnone Hpol Hprom Hvot Hack Htr Htk Hcom]. split.
  - intros H. destruct (Hnone H) as (? & ? & Hi & Hl). split_and!; [done|done| |].
    + intros π Hπ. by apply (Hi π), (ex_installed_other i g g' Hx).
    + intros <-. rewrite (ex_records_other i g g' Hx); auto.
  - intros π H. destruct (Hpol π H) as [Hi Hnew Hlog Hlead Htail]. split.
    + by eapply ex_installed.
    + intros π' Hπ'. by apply Hnew, (ex_installed_other i g g' Hx).
    + etrans; [done|by eapply ex_records].
    + intros <-. rewrite (ex_records_other i g g' Hx); auto.
    + intros P HP Hto. apply Htail; [|done]. apply (ex_final_new i g g' Hx j); [done|by rewrite Hto].
  - intros pr H. destruct (Hprom pr H) as (P & Hv & ?). exists P. split; [by eapply ex_voted|done].
  - intros P HP. apply (ex_voted_other i g g' Hx) in HP; [|done]. destruct (Hvot P HP) as [Hs Hpr]. split; [|done].
    eapply shares_mono; [|done]. by eapply (eo_voted p0 Allowed g (go_elect _ _ g Hg)).
  - intros π s Hs. by eapply Hack, ex_acked_other.
  - intros T H. eapply transition_mono; [done|by apply Htr].
  - intros pt s t H. eapply ticket_mono; [done|by eapply Htk].
  - by eapply covered_mono.
Qed.
End longer.

(** ** Steps that the history already allows *)

Section same_history.
Context (g : Ghost) (i : N) (n : Nd) (Hg : ghost_ok g) (Hn : node_ok g i n).

Lemma append_ok π v : nd_policy n = Some π → log_at (g_records g π) (len (nd_log n) + 1) = Some v →
  node_ok g i (with_log (nd_log n ++ [v]) n).
Proof using Hg Hn allowed_meet.
  intros Hp Hv. destruct Hn as [Hnone Hpol Hprom Hvot Hack Htr Htk Hcom].
  assert (nd_log n `prefix_of` nd_log n ++ [v]) as Hl by (by exists [v]).
  pose proof (prefix_len _ _ Hl) as Hlen. split; simpl.
  - by rewrite Hp.
  - intros π' H. destruct (Hpol π' H) as [Hi Hnew Hlog Hlead Htail]. rewrite Hp in H. injection H as <-. split; try done.
    + by apply prefix_snoc.
    + intros Hld. exfalso. rewrite <-(Hlead Hld) in Hv. apply log_at_len in Hv. lia.
    + intros P HP Hto. pose proof (Htail P HP Hto). lia.
  - done.
  - intros P HP. destruct (Hvot P HP). split; [by eapply shares_longer|done].
  - intros π' s H. pose proof (Hack π' s H). lia.
  - intros T H. eapply transition_mono; [apply (extends_refl i)|done|by apply Htr].
  - intros pt s t H. eapply ticket_mono; [apply (extends_refl i)|done|by eapply Htk].
  - eapply covered_mono; [apply (extends_refl i)|done|done|done].
Qed.

Lemma commit_node_ok c : covered g (nd_log n) c → node_ok g i (with_commit c n).
Proof using Hn. intros Hc. by destruct Hn. Qed.

Lemma pending_ok pending : (∀ partition s t, ticket_at pending partition s = Some t → ticket_ok g i (nd_log n) s t) →
  node_ok g i (with_pending pending n).
Proof using Hn. intros Hc. by destruct Hn. Qed.

Lemma set_transition_ok T : transition_ok g i (nd_log n) T → node_ok g i (with_transition (Some T) n).
Proof using Hn. intros HT. destruct Hn. split; try done. simpl. by intros ? [= <-]. Qed.

Lemma set_sent_ok sent : node_ok g i (with_sent sent n).
Proof using Hn. by destruct Hn. Qed.

Lemma insert_ticket_ok partition s t :
  ticket_ok g i (nd_log n) s t →
  node_ok g i (with_pending (<[partition := <[s := t]> (default ∅ (nd_pending n !! partition))]> (nd_pending n)) n).
Proof using Hn.
  intros Ht. apply pending_ok. intros pt s' t'. unfold ticket_at, ticket_of.
  destruct (decide (pt = partition)) as [->|Hne].
  - rewrite lookup_insert_eq. simpl. destruct (decide (s' = s)) as [->|Hne].
    + rewrite lookup_insert_eq. by intros [= <-].
    + rewrite lookup_insert_ne by done. intros H. apply (no_tickets g i n Hn partition).
      unfold ticket_at, ticket_of. destruct (nd_pending n !! partition); [done|]. simpl in H. by rewrite lookup_empty in H.
  - rewrite lookup_insert_ne by done. intros H. by apply (no_tickets g i n Hn pt).
Qed.

(** A promise is a vote for the proposal it names. *)
Lemma promised_voted P : Allowed P → promised n P → g_voted g i P.
Proof using Hg Hn allowed_hash.
  intros HP H. destruct (no_promise g i n Hn _ H) as (P' & Hv & [= He Hh]).
  destruct (eo_voted p0 Allowed g (go_elect _ _ g Hg) i P' Hv) as (Ha & _). by rewrite (allowed_hash P P').
Qed.

Lemma log_shares π : nd_policy n = Some π → shares (nd_log n) (g_records g π) (len (nd_log n)).
Proof using Hn.
  intros H. destruct (no_policy g i n Hn π H) as [_ _ Hl _ _]. pose proof (prefix_len _ _ Hl).
  split_and!; [done|done|]. symmetry. by apply pre_prefix.
Qed.

(** Policies that have the same epoch and leader in traffic are the same. *)
Lemma same_policy π π' j e l : nd_policy n = Some π → names π e l → g_installed g j π' → names π' e l → π' = π.
Proof using Hg Hn allowed_meet.
  intros H [He _] Hj [He' _]. pose proof (po_installed _ _ _ _ (no_policy g i n Hn π H)) as Hi.
  eapply (installed_unique p0 Allowed g (go_elect _ _ g Hg)); [done|done|done|congruence].
Qed.
End same_history.
End invariant.
