(* ===== verification/FabricHistory.v ===== *)
(** * Fabric streams: the steps that make history

    Installations, votes, finalizations, acknowledgements and appends of a
    leader extend the history; with the other steps, every step of a node keeps
    the invariant. *)
From S2P Require Import Prelude Bytes Text FabricStore FabricCluster.
From S2P Require Import FabricEpoch FabricProtocol FabricElect FabricAgree FabricInvariant.

Local Open Scope list_scope.
Local Open Scope N_scope.

Section history.
Context (p0 : Policy) (Allowed : Proposal → Prop).
Context (allowed_meet : ∀ P, Allowed P → quorums_meet P).

Abbreviation tail := prop_candidate_tail.
Abbreviation ghost_ok := (ghost_ok p0 Allowed).
Abbreviation node_ok := (node_ok p0 Allowed).

Definition g_vote (i : N) (P : Proposal) (g : Ghost) : Ghost :=
  mkGhost (λ j P', g_voted g j P' ∨ (j = i ∧ P' = P)) (g_installed g) (g_final g) (g_acked g) (g_records g).
Definition g_finalize (P : Proposal) (g : Ghost) : Ghost :=
  mkGhost (g_voted g) (g_installed g) (λ P', g_final g P' ∨ P' = P) (g_acked g) (g_records g).
Definition g_ack (i : N) (π : Policy) (s : N) (g : Ghost) : Ghost :=
  mkGhost (g_voted g) (g_installed g) (g_final g) (λ j π' s', g_acked g j π' s' ∨ (j = i ∧ π' = π ∧ s' = s)) (g_records g).
Definition g_store (π : Policy) (log : list bytes) (g : Ghost) : Ghost :=
  mkGhost (g_voted g) (g_installed g) (g_final g) (g_acked g) (λ π', if decide (π' = π) then log else g_records g π').
Definition g_install (i : N) (π : Policy) (g : Ghost) : Ghost :=
  mkGhost (g_voted g) (λ j π', g_installed g j π' ∨ (j = i ∧ π' = π)) (g_final g) (g_acked g) (g_records g).

Lemma extends_vote i P g : extends i g (g_vote i P g).
Proof. split; simpl; auto. intros j P' Hj [?|[? ?]]; [done|congruence]. Qed.

Lemma extends_ack i π s g : extends i g (g_ack i π s g).
Proof. split; simpl; auto. intros j π' s' Hj [?|(? & ? & ?)]; [done|congruence]. Qed.

Lemma extends_install i π g : extends i g (g_install i π g).
Proof. split; simpl; auto. intros j π' Hj [?|[? ?]]; [done|congruence]. Qed.

Section making.
Context (g : Ghost) (i : N) (n : Nd) (Hg : ghost_ok g) (Hn : node_ok g i n).
Let He : elect_ok p0 Allowed g := go_elect _ _ g Hg.

(** ** Votes *)

Lemma vote_ok P : Allowed P → shape P → nd_policy n = Some (prop_from P) → i ∈ pol_replicas (prop_from P) →
  len (nd_log n) = tail P → (∀ pr, nd_promise n = Some pr → prm_epoch pr < pol_epoch (prop_to P)) →
  extends i g (g_vote i P g) ∧ ghost_ok (g_vote i P g) ∧
  node_ok (g_vote i P g) i (with_promise (Some (mkPromise (pol_epoch (prop_to P)) (prop_hash P))) n).
Proof.
  intros HP Hs Hp Hi Ht Hlow. destruct (no_policy _ _ _ _ _ Hn _ Hp) as [Hin Hnew Hlog Hlead Htail].
  assert (∀ P', g_voted g i P' → pol_epoch (prop_to P') < pol_epoch (prop_to P) ∧ tail P' ≤ tail P) as Hold.
  { intros P' HP'. destruct (no_voted _ _ _ _ _ Hn P' HP') as [(Hc & _) (pr & Hpr & ?)].
    pose proof (Hlow pr Hpr). lia. }
  pose proof (extends_vote i P g) as Hx.
  split_and!; [done| |].
  - split.
    + destruct He as [H1 H2 H3 H4 H5]. split; simpl.
      * intros j π Hj. destruct (H1 j π Hj) as [? [?|(P' & ? & ? & ?)]]; split; eauto 10.
      * intros j P' [Hj|[-> ->]]; auto.
      * intros j P1 P2 [?|[-> ->]] [?|[? ->]] Heq; subst; [eauto|destruct (Hold P1); (done || lia)|destruct (Hold P2); (done || lia)|done].
      * intros j P1 π [?|[-> ->]] Hπ Hlt; [eauto|]. pose proof (Hnew π Hπ). lia.
      * intros P' HP'. destruct (H5 P' HP') as (Q & ? & ? & Hv & ?). exists Q. split_and!; auto.
    + apply (go_owned _ _ g Hg).
    + apply (go_final _ _ g Hg).
    + simpl. intros j π s Ha. destruct (go_acked _ _ g Hg j π s Ha) as (? & ? & Hk). split_and!; [done|done|].
      intros P' [?|[-> ->]] Hf; [auto|]. pose proof (no_acked _ _ _ _ _ Hn π s Ha). lia.
    + simpl. intros j P1 P2 [?|[-> ->]] [?|[? ->]] Hf Hlt; subst; [by eapply (go_tails _ _ g Hg j)| | |lia].
      * by apply Hold.
      * destruct (Hold P2); (done || lia).
    + simpl. intros j P1 P2 [?|[-> ->]] HP1 Hto; [by eapply (go_parent _ _ g Hg j)|]. rewrite <-Ht. by apply Htail.
  - destruct Hn as [Hnone Hpol Hprom Hvot Hack Htr Htk Hcom]. split; simpl.
    + by rewrite Hp.
    + intros π H. by destruct (Hpol π H).
    + intros pr [= <-]. exists P. auto.
    + intros P' [HP'|[_ ->]].
      * destruct (Hvot P' HP'). split; [done|]. eexists. split; [done|]. simpl. destruct (Hold P' HP'). lia.
      * rewrite <-Ht. split; [by eapply log_shares|]. eexists. split; [done|]. done.
    + done.
    + intros T H. eapply transition_mono; [exact Hx|done|by apply Htr].
    + intros pt s t H. eapply ticket_mono; [exact Hx|done|by eapply Htk].
    + eapply covered_mono; [done|exact Hx|done|done|done].
Qed.
(** ** Acknowledgements *)

Lemma acknowledge_ok π s : nd_policy n = Some π → unfenced n π → s ≤ len (nd_log n) →
  ghost_ok (g_ack i π s g) ∧ node_ok (g_ack i π s g) i n.
Proof.
  intros Hp Hu Hs. pose proof (extends_ack i π s g) as Hx.
  destruct (no_policy _ _ _ _ _ Hn _ Hp) as [Hin Hnew Hlog Hlead Htail]. split.
  - split; [by destruct He|apply (go_owned _ _ g Hg)|apply (go_final _ _ g Hg)| |apply (go_tails _ _ g Hg)|
      apply (go_parent _ _ g Hg)].
    simpl. intros j π' s' [?|(-> & -> & ->)]; [by apply (go_acked _ _ g Hg)|].
    split_and!; [done|pose proof (prefix_len _ _ Hlog); lia|]. intros P HP Hf. exfalso.
    destruct (no_voted _ _ _ _ _ Hn P HP) as [_ (pr & Hpr & Hle)]. pose proof (Hu pr Hpr).
    destruct (eo_voted _ _ g He i P HP) as (_ & (Hlt & _) & _). rewrite Hf in Hlt. lia.
  - destruct Hn as [Hnone Hpol Hprom Hvot Hack Htr Htk Hcom]. split; simpl; try done.
    + intros π' H. by destruct (Hpol π' H).
    + intros π' s' [?|(_ & _ & ->)]; [by eapply Hack|done].
    + intros T H. eapply transition_mono; [exact Hx|done|by apply Htr].
    + intros pt s' t H. eapply ticket_mono; [exact Hx|done|by eapply Htk].
    + eapply covered_mono; [done|exact Hx|done|done|done].
Qed.

(** ** Records of a policy *)

Lemma extends_store π log : pol_leader π = i → (∀ j, g_installed g j π → g_records g π `prefix_of` log) →
  extends i g (g_store π log g).
Proof.
  intros Hl Hp. split; simpl; auto.
  - intros j π' Hj. destruct (decide (π' = π)) as [->|]; [by eapply Hp|done].
  - intros π' Hj. destruct (decide (π' = π)) as [->|]; [done|done].
Qed.

(** Finalized proposals and acknowledgements keep what they say of records. *)
Lemma ghost_store π log : extends i g (g_store π log g) →
  (∀ P, g_final g P → prop_to P = π → g_installed g (pol_leader π) π → g_records g π `prefix_of` log) →
  ghost_ok (g_store π log g).
Proof.
  intros Hx Hto. split; [by destruct He|apply (go_owned _ _ g Hg)| | |apply (go_tails _ _ g Hg)|apply (go_parent _ _ g Hg)].
  - intros P HP. destruct (go_final _ _ g Hg P HP) as [Hf Ht]. destruct (final_parts _ _ g He P HP) as (_ & _ & _ & Ha & _).
    apply active_installed in Ha as [j Hj]. pose proof (ex_records _ _ _ Hx j _ Hj) as Hpf.
    split; [pose proof (prefix_len _ _ Hpf); lia|]. intros Hl. destruct (Ht Hl) as [Hlen Heq].
    pose proof (ex_records _ _ _ Hx _ _ Hl) as Hpt. split; [pose proof (prefix_len _ _ Hpt); lia|].
    by rewrite (pre_prefix _ _ _ Hpt), (pre_prefix _ _ _ Hpf) by done.
  - intros j π' s Ha. destruct (go_acked _ _ g Hg j π' s Ha) as (Hj & Hs & Hv). split_and!; [done| |done].
    pose proof (prefix_len _ _ (ex_records _ _ _ Hx j _ Hj)). lia.
Qed.

Lemma lead_ok π v : nd_policy n = Some π → pol_leader π = i →
  extends i g (g_store π (nd_log n ++ [v]) g) ∧ ghost_ok (g_store π (nd_log n ++ [v]) g) ∧
  node_ok (g_store π (nd_log n ++ [v]) g) i (with_log (nd_log n ++ [v]) n).
Proof.
  intros Hp Hl. destruct (no_policy _ _ _ _ _ Hn _ Hp) as [Hin Hnew Hlog Hlead Htail].
  pose proof (Hlead Hl) as Heq.
  assert (nd_log n `prefix_of` nd_log n ++ [v]) as Hpre by (by exists [v]).
  pose proof (prefix_len _ _ Hpre) as Hlen.
  assert (extends i g (g_store π (nd_log n ++ [v]) g)) as Hx by (apply extends_store; [done|by rewrite <-Heq]).
  split_and!; [done|apply ghost_store; [done|by rewrite <-Heq]|].
  destruct Hn as [Hnone Hpol Hprom Hvot Hack Htr Htk Hcom]. split; simpl.
  - by rewrite Hp.
  - intros π' H. rewrite Hp in H. injection H as <-. split; simpl; try done.
    + by rewrite decide_True.
    + by rewrite decide_True.
    + intros P HP Hto. pose proof (Htail P HP Hto). lia.
  - done.
  - intros P HP. destruct (Hvot P HP). split; [|done]. destruct (eo_voted _ _ g He i P HP) as (_ & _ & Hi & _).
    eapply shares_longer; [done|]. by apply (shares_mono i g _ Hx i).
  - intros π' s H. pose proof (Hack π' s H). lia.
  - intros T H. eapply transition_mono; [exact Hx|done|by apply Htr].
  - intros pt s t H. eapply ticket_mono; [exact Hx|done|by eapply Htk].
  - eapply covered_mono; [done|exact Hx|done|done|done].
Qed.

(** ** Installations *)

Lemma final_not_first P : g_final g P → ¬ (prop_to P = p0 ∧ pol_epoch p0 = 1).
Proof.
  intros HP [Heq H1]. destruct (final_parts _ _ g He P HP) as (_ & (Hlt & _) & _ & Ha & _).
  apply active_installed in Ha as [j Hj]. destruct (installed_epoch _ _ g He j _ Hj). rewrite Heq in Hlt. lia.
Qed.

Lemma install_ok π : good_policy π →
  ((π = p0 ∧ pol_epoch p0 = 1) ∨ ∃ P, g_final g P ∧ prop_to P = π ∧ g_voted g i P) →
  (∀ P, g_voted g i P → pol_epoch (prop_from P) < pol_epoch π → pol_epoch (prop_to P) ≤ pol_epoch π) →
  (∀ π', g_installed g i π' → pol_epoch π' ≤ pol_epoch π) →
  ((π = p0 ∧ pol_epoch p0 = 1) ∨ pol_leader π = i ∨ g_installed g (pol_leader π) π) →
  nd_log n `prefix_of` g_records g π → (pol_leader π = i → nd_log n = g_records g π) →
  (∀ P, g_final g P → prop_to P = π → tail P ≤ len (nd_log n) ∧
     pre (tail P) (g_records g π) = pre (tail P) (g_records g (prop_from P))) →
  extends i g (g_install i π g) ∧ ghost_ok (g_install i π g) ∧ node_ok (g_install i π g) i (with_policy (Some π) n).
Proof.
  intros Hgood Horig Hcross Hnew Hown Hlog Hlead Htail. pose proof (extends_install i π g) as Hx.
  split_and!; [done| |].
  - split.
    + destruct He as [H1 H2 H3 H4 H5]. split; simpl; try done.
      * intros j π' [Hj|[-> ->]]; [|done]. by apply H1.
      * intros j P Hv. destruct (H2 j P Hv) as (? & ? & ? & ?). auto.
      * intros j P π' Hv [Hj|[-> ->]]; [by apply (H4 j)|by apply Hcross].
    + simpl. unfold owned. simpl. intros j π' [Hj|[-> ->]]; [destruct (go_owned _ _ g Hg j π' Hj); auto|].
      destruct Hown as [?|[<-|?]]; auto.
    + simpl. intros P HP. destruct (go_final _ _ g Hg P HP) as [Hf Ht]. split; [done|].
      intros [Hi|[Hi Hto]]; [auto|]. rewrite Hto. destruct (Htail P HP Hto). split; [|done].
      pose proof (prefix_len _ _ Hlog). lia.
    + simpl. intros j π' s Ha. destruct (go_acked _ _ g Hg j π' s Ha) as (? & ? & ?). auto.
    + apply (go_tails _ _ g Hg).
    + apply (go_parent _ _ g Hg).
  - destruct Hn as [Hnone Hpol Hprom Hvot Hack Htr Htk Hcom]. split; simpl; try done.
    + intros π' [= <-]. split; simpl; auto.
      * intros π' [?|[_ ->]]; [auto|done].
      * intros P HP Hto. by destruct (Htail P HP Hto).
    + intros T H. eapply transition_mono; [exact Hx|done|by apply Htr].
    + intros pt s t H. eapply ticket_mono; [exact Hx|done|by eapply Htk].
Qed.

(** ** Finalizations *)

Lemma finalize_ok T : nd_transition n = Some T → (∃ Q, NoDup Q ∧
    old_quorum (prop_from (tr_proposal T)) ≤ len Q ∧ (∀ q, q ∈ Q → g_voted g q (tr_proposal T)) ∧
    ∀ r, r ∈ pol_replicas (prop_to (tr_proposal T)) → r ∈ Q) →
  extends i g (g_finalize (tr_proposal T) g) ∧ ghost_ok (g_finalize (tr_proposal T) g) ∧
  node_ok (g_finalize (tr_proposal T) g) i
    (with_transition (Some (mkTransition (tr_proposal T) (tr_votes T) true (tail (tr_proposal T)))) n).
Proof.
  intros HT HQ. set (P := tr_proposal T) in *. destruct (no_transition _ _ _ _ _ Hn T HT) as [Ha Hl Hi Hlog Hv Hf].
  assert (elect_ok p0 Allowed (g_finalize P g)) as He'.
  { destruct He as [H1 H2 H3 H4 H5]. split; simpl; try done.
    - intros j π Hj. destruct (H1 j π Hj) as [? [?|(P' & ? & ? & ?)]]; split; eauto 10.
    - intros P' [?| ->]; auto. }
  assert (∀ j, g_installed g j (prop_to P) → g_final g P) as Hnew.
  { intros j Hj. destruct (eo_installed _ _ g He j _ Hj) as [_ [Hp0|(P' & HP' & Hto & _)]].
    - exfalso. destruct (final_parts _ _ _ He' P ltac:(by right)) as (_ & (Hlt & _) & _ & (W & HW)%active_installed & _).
      simpl in HW. destruct (installed_epoch _ _ g He _ _ HW). destruct Hp0 as [Hp0 ?]. rewrite Hp0 in Hlt. lia.
    - rewrite <-(final_unique _ _ _ He' allowed_meet P' P); [done|by left|by right|by rewrite Hto]. }
  assert (extends i g (g_finalize P g)) as Hx.
  { split; simpl; auto. intros j P' [?| ->] Hj; eauto. }
  split_and!; [done| |].
  - split; [done|apply (go_owned _ _ g Hg)| |apply (go_acked _ _ g Hg)|apply (go_tails _ _ g Hg)|]; simpl.
    + intros P' [?| ->]; [by apply (go_final _ _ g Hg)|]. split; [by destruct Hlog as (? & ? & ?)|].
      intros Hld. by apply (go_final _ _ g Hg); [eapply Hnew|].
    + intros j P1 P2 Hv2 [?| ->] Hto; [by eapply (go_parent _ _ g Hg j)|]. eapply (go_parent _ _ g Hg j); [done| |done].
      apply (Hnew j). rewrite Hto. by destruct (eo_voted _ _ g He j P2 Hv2) as (_ & _ & ? & _).
  - apply set_transition_ok.
    + destruct Hn as [Hnone Hpol Hprom Hvot Hack Htr Htk Hcom]. split; simpl; try done.
      * intros π' H. destruct (Hpol π' H) as [? ? ? ? Htl]. split; simpl; try done. intros P' [?| ->] Hto; [auto|].
        apply Htl; [|done]. apply (Hnew i). by rewrite Hto.
      * intros T' H. eapply transition_mono; [exact Hx|done|by apply Htr].
      * eapply covered_mono; [done|exact Hx|done|done|done].
    + split; simpl; auto.
Qed.
End making.
End history.
