(* ===== verification/FabricSteps.v ===== *)
(** * Fabric streams: every step keeps the invariant *)
From S2P Require Import Prelude Bytes Text FabricStore FabricCluster FabricEpoch.
From S2P Require Import FabricProtocol FabricElect FabricAgree FabricInvariant FabricHistory.

Local Open Scope list_scope.
Local Open Scope N_scope.

Lemma NoDup_map_filter {A B} (f : A → B) (p : A → Prop) `{∀ x, Decision (p x)} (l : list A) :
  NoDup (map f l) → NoDup (map f (filter p l)).
Proof.
  induction l as [|x l IH]; [done|]. simpl. intros [Hx Hl]%NoDup_cons. rewrite filter_cons. destruct (decide (p x)); [|auto].
  simpl. apply NoDup_cons. split; [|auto]. intros (y & Hy & [_ Hin]%list_elem_of_filter)%list_elem_of_fmap.
  apply Hx. rewrite Hy. by apply (list_elem_of_fmap_2 f).
Qed.

(** The voters of the affirmative votes of a transition. *)
Lemma affirmative_voters (T : Transition) : (∀ v vote, tr_votes T !! v = Some vote → vote_voter vote = v) →
  NoDup (map vote_voter (affirmative T)).
Proof.
  intros Hv. apply NoDup_map_filter. unfold sorted_values, sorted_entries.
  change (map vote_voter) with (fmap (M:=list) vote_voter).
  enough (vote_voter <$> (merge_sort key_le (map_to_list (tr_votes T))).*2 = (merge_sort key_le (map_to_list (tr_votes T))).*1) as ->.
  { rewrite merge_sort_Permutation. apply NoDup_fst_map_to_list. }
  rewrite <-list_fmap_compose. apply list_fmap_ext. intros k [v vote] Hin%list_elem_of_lookup_2. simpl.
  rewrite merge_sort_Permutation in Hin. apply Hv. by apply elem_of_map_to_list.
Qed.

Lemma affirmative_lookup (T : Transition) vote : vote ∈ affirmative T →
  vote_accepted vote = true ∧ ∃ v, tr_votes T !! v = Some vote.
Proof.
  unfold affirmative. intros [[Ha _] Hv]%list_elem_of_filter. split; [done|].
  unfold sorted_values, sorted_entries in Hv. rewrite (merge_sort_Permutation key_le (map_to_list (tr_votes T))) in Hv.
  apply list_elem_of_fmap in Hv as ([v vote'] & -> & Hv). exists v. by apply elem_of_map_to_list.
Qed.

Section steps.
Context (p0 : Policy) (Allowed : Proposal → Prop).
Context (allowed_meet : ∀ P, Allowed P → quorums_meet P).
Context (allowed_hash : ∀ P P', Allowed P → Allowed P' → prop_hash P = prop_hash P' → P = P').

Abbreviation tail := prop_candidate_tail.
Abbreviation ghost_ok := (ghost_ok p0 Allowed).
Abbreviation node_ok := (node_ok p0 Allowed).
Abbreviation envelope_ok := (envelope_ok Allowed).

Lemma extends_trans i g1 g2 g3 : extends i g1 g2 → extends i g2 g3 → extends i g1 g3.
Proof.
  intros H1 H2. split; try by (destruct H1, H2; eauto).
  - intros j π H. etrans; [by eapply (ex_records i g1 g2)|]. eapply (ex_records i g2 g3); [done|]. by eapply (ex_installed i g1 g2).
  - intros π H. by rewrite (ex_records_other i g2 g3), (ex_records_other i g1 g2).
Qed.

Section own.
Context (g : Ghost) (i : N) (n : Nd) (net : Envelope → Prop) (Hg : ghost_ok g) (Hn : node_ok g i n).
Context (Hnet : ∀ e, net e → envelope_ok g e).
Let He : elect_ok p0 Allowed g := go_elect _ _ g Hg.

Lemma received_ok from p : received net i from p → packet_ok Allowed g from p.
Proof using Hnet. intros (e & Hnet_e & _ & <- & _ & <-). by apply Hnet. Qed.

Lemma store_fresh π log : pol_leader π = i → (∀ j, ¬ g_installed g j π) → is_Some (nd_policy n) →
  extends i g (g_store π log g) ∧ ghost_ok (g_store π log g) ∧ node_ok (g_store π log g) i n.
Proof using Hg Hn allowed_meet.
  intros Hl Hnone [π1 Hp1]. assert (extends i g (g_store π log g)) as Hx.
  { apply extends_store; [done|]. intros j Hj. by destruct (Hnone j). }
  split_and!; [done|eapply ghost_store; [done|done|]; intros P _ _ H; by destruct (Hnone (pol_leader π))|].
  destruct Hn as [Hno Hpol Hprom Hvot Hack Htr Htk Hcom]. split; try done.
  - by rewrite Hp1.
  - intros π' H. destruct (Hpol π' H) as [Hin Hnew Hlog Hlead Htail].
    assert (π' ≠ π) as Hne by (intros ->; by destruct (Hnone i)).
    split; try done; simpl; rewrite decide_False; done.
  - intros P HP. destruct (Hvot P HP). split; [|done]. destruct (eo_voted _ _ g He i P HP) as (_ & _ & Hi & _).
    by apply (shares_mono i g _ Hx i).
  - intros T H. eapply transition_mono; [exact Hx|done|by apply Htr].
  - intros pt s t H. eapply ticket_mono; [exact Hx|done|by eapply Htk].
  - eapply covered_mono; [done|exact Hx|done|done|done].
Qed.

Definition step_result (n' : Nd) : Prop :=
  ∃ g', extends i g g' ∧ ghost_ok g' ∧ node_ok g' i n' ∧
    ∀ e, e ∈ nd_sent n' → e ∈ nd_sent n ∨ (env_from e = i ∧ envelope_ok g' e).

Lemma step_same n' : node_ok g i n' → nd_sent n' = nd_sent n → step_result n'.
Proof using Hg. intros H Hs. exists g. split_and!; [apply extends_refl|done|done|]. rewrite Hs. auto. Qed.

Lemma step_makes g' n' : extends i g g' ∧ ghost_ok g' ∧ node_ok g' i n' → nd_sent n' = nd_sent n → step_result n'.
Proof using. intros (? & ? & ?) Hs. exists g'. split_and!; [done|done|done|]. rewrite Hs. auto. Qed.

(** Only one proposal leads to an installed policy. *)
Lemma final_to_unique P P' : g_final g P → g_final g P' → prop_to P' = prop_to P → P' = P.
Proof using Hg allowed_meet. intros HP HP' Hto. eapply final_unique; [done|done|done|done|by rewrite Hto]. Qed.

Lemma installs P : g_final g P → g_voted g i P → nd_policy n = Some (prop_from P) → promised n P →
  pol_leader (prop_to P) = i ∨
    (g_installed g (pol_leader (prop_to P)) (prop_to P) ∧ len (nd_log n) = tail P) →
  step_result (with_policy (Some (prop_to P)) n).
Proof using Hg Hn allowed_meet.
  intros HP Hv Hp Hpr Hcase. destruct (final_parts _ _ g He P HP) as (Ha & (Hlt & Hgood & _) & _).
  destruct (no_policy _ _ _ _ _ Hn _ Hp) as [Hin Hnew Hlog Hlead Htail].
  destruct (no_voted _ _ _ _ _ Hn P Hv) as [(Hs & Hsr & Hpre) _].
  assert (∀ P', g_voted g i P' → pol_epoch (prop_from P') < pol_epoch (prop_to P) →
    pol_epoch (prop_to P') ≤ pol_epoch (prop_to P)) as Hcross.
  { intros P' HP' _. destruct (no_voted _ _ _ _ _ Hn P' HP') as [_ (pr & Hpr' & Hle)].
    unfold promised in Hpr. rewrite Hpr in Hpr'. injection Hpr' as <-. done. }
  assert (∀ π', g_installed g i π' → pol_epoch π' < pol_epoch (prop_to P)) as Hbelow.
  { intros π' Hπ'. pose proof (Hnew π' Hπ'). lia. }
  destruct Hcase as [Hl|[Hown Hlen]].
  - assert (∀ j, ¬ g_installed g j (prop_to P)) as Hfresh.
    { intros j Hj. destruct (go_owned _ _ g Hg j _ Hj) as [H|H].
      - by apply (final_not_first p0 Allowed g Hg P HP).
      - rewrite Hl in H. pose proof (Hbelow _ H). lia. }
    destruct (store_fresh (prop_to P) (nd_log n) Hl Hfresh ltac:(by rewrite Hp)) as (Hx & Hg' & Hn').
    destruct (install_ok p0 Allowed _ i n Hg' Hn' (prop_to P)) as (Hx' & Hg2 & Hn2);
      simpl; rewrite ?decide_True by done; try done.
    + right. by exists P.
    + intros π' Hπ'. pose proof (Hbelow π' Hπ'). lia.
    + by right; left.
    + intros P' HP' Hto. rewrite (final_to_unique P P' HP HP' Hto). split; [done|].
      rewrite decide_False by (intros Heq; rewrite Heq in Hlt; lia). done.
    + apply (step_makes _ _ (conj (extends_trans _ _ _ _ Hx Hx') (conj Hg2 Hn2))). done.
  - assert (pol_leader (prop_to P) ≠ i) as Hnl by (intros Hl; rewrite Hl in Hown; pose proof (Hbelow _ Hown); lia).
    destruct (go_final _ _ g Hg P HP) as [_ Hf]. destruct (Hf Hown) as [Hft Hfe].
    eapply step_makes; [apply (install_ok p0 Allowed g i n Hg Hn (prop_to P))|done]; try done.
    + right. by exists P.
    + intros π' Hπ'. pose proof (Hbelow π' Hπ'). lia.
    + by right; right.
    + rewrite <-(pre_all (tail P) (nd_log n)) by lia. rewrite Hpre, <-Hfe. apply pre_prefix_of.
    + intros P' HP' Hto. by rewrite (final_to_unique P P' HP HP' Hto).
Qed.

Lemma establishes : nd_policy n = None → pol_epoch p0 = 1 → good_policy p0 → step_result (with_policy (Some p0) n).
Proof using Hg Hn allowed_meet.
  intros Hp H1 Hgood. destruct (no_none _ _ _ _ _ Hn Hp) as (Hlog & _ & Hno & Hl).
  eapply step_makes; [apply (install_ok p0 Allowed g i n Hg Hn p0)|done]; auto.
  - intros P HP. by destruct (Hno _ (proj1 (proj2 (proj2 (eo_voted _ _ g He i P HP))))).
  - intros π Hπ. by destruct (Hno π).
  - rewrite Hlog. apply prefix_nil.
  - intros Hi. by rewrite Hl.
  - intros P HP Hto. by destruct (final_not_first p0 Allowed g Hg P HP).
Qed.
Lemma appends π v : nd_policy n = Some π → log_at (g_records g π) (len (nd_log n) + 1) = Some v →
  step_result (with_log (nd_log n ++ [v]) n).
Proof using Hg Hn allowed_meet. intros Hp Hv. apply step_same; [by eapply append_ok|done]. Qed.

Lemma votes T v : nd_transition n = Some T → tr_finalized T = false → vote_hash v = prop_hash (tr_proposal T) →
  (received net i (vote_voter v) (EpochVotePacket v) ∨
     (vote_voter v = i ∧ (vote_accepted v = true → promised n (tr_proposal T)))) →
  step_result (with_transition (Some (mkTransition (tr_proposal T) (<[vote_voter v := v]> (tr_votes T)) false
    (tr_quorum_committed T))) n).
Proof using Hg Hn Hnet allowed_hash.
  intros HT Hf Hh Hv. apply step_same; [|done]. destruct (no_transition _ _ _ _ _ Hn T HT) as [Ha Hl Hi Hlog Hvs Hfin].
  apply set_transition_ok; [done|]. split; simpl; try done.
  intros k vote. destruct (decide (k = vote_voter v)) as [->|Hne]; [|rewrite lookup_insert_ne by done; apply Hvs].
  rewrite lookup_insert_eq. intros [= <-]. split; [done|]. intros Hacc. destruct Hv as [Hr|[-> Hpr]].
  - destruct (received_ok _ _ Hr Hacc) as [_ (P & HP & Hh')].
    destruct (eo_voted _ _ g He _ P HP) as (HaP & _). rewrite (allowed_hash (tr_proposal T) P); [done|done|done|congruence].
  - eapply promised_voted; eauto.
Qed.

Lemma finalizes T : nd_transition n = Some T → has_quorum T = true →
  step_result (with_transition (Some (mkTransition (tr_proposal T) (tr_votes T) true (tail (tr_proposal T)))) n).
Proof using Hg Hn allowed_meet.
  intros HT Hq. eapply step_makes; [eapply finalize_ok; try done|done].
  destruct (no_transition _ _ _ _ _ Hn T HT) as [_ _ _ _ Hvs _]. exists (map vote_voter (affirmative T)).
  unfold has_quorum in Hq. apply andb_true_iff in Hq as [Hq Hall]. rewrite forallb_forall in Hall. split_and!.
  - apply affirmative_voters. intros v vote H. by apply Hvs.
  - apply N.leb_le in Hq. unfold len in *. by rewrite length_map.
  - intros q (vote & -> & Hin)%list_elem_of_fmap. destruct (affirmative_lookup T vote Hin) as [Hacc [v Hv]].
    destruct (Hvs v vote Hv) as [-> H]. auto.
  - intros r Hr%list_elem_of_In%Hall. apply bool_decide_eq_true in Hr. by apply elem_of_list_to_set in Hr.
Qed.

Lemma commit_step c : covered g (nd_log n) c → step_result (with_commit c n).
Proof using Hg Hn. intros Hc. apply step_same; [by apply commit_node_ok|done]. Qed.

Lemma final_covered P : g_final g P → shares (nd_log n) (g_records g (prop_from P)) (tail P) → covered g (nd_log n) (tail P).
Proof using. intros HP (Hl & _ & Hpre). right. exists (prop_from P), (tail P). split_and!; [right; by exists P|done..]. Qed.

Lemma ticket_commits partition s t : ticket_at (nd_pending n) partition s = Some t →
  tk_quorum t ≤ N.of_nat (size (tk_acknowledgements t)) → step_result (with_commit s n).
Proof using Hg Hn.
  intros Ht Hq. apply commit_step. destruct (no_tickets _ _ _ _ _ Hn _ _ _ Ht) as (π & Hi & _ & _ & _ & Hqt & (Hl & _ & Hpre) & Ha).
  right. exists π, s. split_and!; [left|done..]. exists (elements (tk_acknowledgements t)). split_and!.
  - apply NoDup_elements.
  - rewrite <-Hqt. exact Hq.
  - intros q Hqq%elem_of_elements. auto.
Qed.

Lemma update_commits u π : received net i (cu_leader u) (CommitPacket u) → nd_policy n = Some π →
  names π (cu_epoch u) (cu_leader u) → cu_committed_sequence u ≤ len (nd_log n) →
  step_result (with_commit (cu_committed_sequence u) n).
Proof using Hg Hn Hnet allowed_meet.
  intros Hr Hp Hnm Hlen. apply commit_step. destruct (received_ok _ _ Hr) as (π' & Hi & Hnm' & Hc & Hcov).
  rewrite (same_policy p0 Allowed allowed_meet g i n Hg Hn π π' _ _ _ Hp Hnm Hi Hnm') in *.
  destruct (no_policy _ _ _ _ _ Hn π Hp) as [_ _ Hlog _ _].
  destruct Hcov as [->|(π1 & s & Hf & Hs & _ & Hpre)]; [by left|right]. exists π1, s. split_and!; [done|done|done|].
  rewrite <-Hpre. symmetry. by apply pre_prefix.
Qed.

Lemma new_ticket π partition s t : nd_policy n = Some π → pol_leader π = i → unfenced n π → s ≤ len (nd_log n) →
  tk_epoch t = pol_epoch π → tk_leader t = i → tk_replicas t = list_to_set (pol_replicas π) →
  tk_quorum t = old_quorum π → tk_acknowledgements t = {[ i ]} →
  step_result (with_pending (<[partition := <[s := t]> (default ∅ (nd_pending n !! partition))]> (nd_pending n)) n).
Proof using Hg Hn allowed_meet.
  intros Hp Hl Hu Hs He1 Hl1 Hr Hq Ha. destruct (acknowledge_ok p0 Allowed allowed_meet g i n Hg Hn π s Hp Hu Hs) as [Hg' Hn'].
  eapply step_makes; [split_and!; [apply (extends_ack i π s)|done|]|done]. apply insert_ticket_ok; [done|].
  destruct (no_policy _ _ _ _ _ Hn π Hp) as [Hi _ Hlog Hlead _].
  destruct (log_shares p0 Allowed g i n Hn π Hp) as (_ & Hlen & Heq).
  exists π. split_and!; try done.
  - split; congruence.
  - split_and!; [done|simpl; lia|]. by eapply pre_le.
  - intros a. rewrite Ha. intros ->%elem_of_singleton. split.
    + destruct (eo_installed _ _ g He i π Hi) as [(_ & _ & Hin) _]. by rewrite Hl in Hin.
    + by right.
Qed.

Lemma ticket_acknowledged partition s t a t' : ticket_at (nd_pending n) partition s = Some t →
  received net i (ack_replica a) (ReplicaAckPacket a) → ack_accepted a = true → ack_sequence a = s →
  tk_epoch t = ack_epoch a → tk_leader t = ack_leader a → ack_replica a ∈ tk_replicas t →
  tk_epoch t' = tk_epoch t → tk_leader t' = tk_leader t → tk_replicas t' = tk_replicas t → tk_quorum t' = tk_quorum t →
  tk_acknowledgements t' = {[ ack_replica a ]} ∪ tk_acknowledgements t →
  step_result (with_pending (<[partition := <[s := t']> (default ∅ (nd_pending n !! partition))]> (nd_pending n)) n).
Proof using Hg Hn Hnet allowed_meet.
  intros Ht Hr Hacc Hs He1 Hl1 Hin Heq1 Heq2 Heq3 Heq4 Ha. apply step_same; [|done]. apply insert_ticket_ok; [done|].
  destruct (no_tickets _ _ _ _ _ Hn _ _ _ Ht) as (π & Hi & [Hn1 Hn2] & Hti & Hrep & Hq & Hsh & Hk).
  destruct (received_ok _ _ Hr Hacc) as [_ (π' & [Hn1' Hn2'] & Hak)].
  assert (π' = π) as ->.
  { destruct (go_acked _ _ g Hg _ _ _ Hak) as (Hj & _). eapply installed_unique; [done|done|done|done|congruence]. }
  exists π. rewrite Heq1, Heq2, Heq3, Heq4. split_and!; try done.
  intros b. rewrite Ha. intros [->%elem_of_singleton|Hb]%elem_of_union; [|auto]. split; [|by rewrite <-Hs].
  rewrite Hrep in Hin. by apply elem_of_list_to_set in Hin.
Qed.
Lemma in_log_policy π rs : nd_policy n = Some π → Forall (in_log (nd_log n)) rs → Forall (in_log (g_records g π)) rs.
Proof using Hn.
  intros Hp Hrs. apply (Forall_impl _ _ _ Hrs). intros r. apply log_at_prefix.
  by apply (po_log _ _ _ _ (no_policy _ _ _ _ _ Hn π Hp)).
Qed.

(** A packet that is not a positive acknowledgement says what the history has. *)
Lemma send_ok e : may_send i n e → (∀ k, env_packet e = ReplicaAckPacket k → ack_accepted k = false) → envelope_ok g e.
Proof using Hg Hn allowed_meet allowed_hash.
  intros [Hfrom Hs] Hna. unfold envelope_ok. rewrite Hfrom. destruct (env_packet e) as [a|k|u|P|v|c|b|q|r]; simpl in *; auto.
  - destruct Hs as (π & Hp & Hnm & Hl & Hat). destruct (no_policy _ _ _ _ _ Hn π Hp) as [Hi _ Hlog _ _].
    exists π. split_and!; [done|done|]. by eapply log_at_prefix.
  - by rewrite (Hna k eq_refl).
  - destruct Hs as (π & Hp & Hnm & Hc). destruct (no_policy _ _ _ _ _ Hn π Hp) as [Hi _ Hlog _ _].
    exists π. split; [done|]. split; [done|]. pose proof (prefix_len _ _ Hlog).
    destruct (no_commit _ _ _ _ _ Hn) as [H0|(π1 & s & Hf & Hs & Hlen & Hpre)]; [split; [lia|left; lia]|].
    split; [lia|right]. exists π1, s. split_and!; [done|lia|lia|].
    transitivity (pre (cu_committed_sequence u) (nd_log n)); [by apply pre_prefix; [|lia]|by eapply pre_le].
  - destruct Hs as (T & HT & <-). by destruct (no_transition _ _ _ _ _ Hn T HT).
  - intros Hacc. destruct (Hs Hacc) as [? (P & Hpr & _ & Hh)]. split; [done|].
    destruct (no_promise _ _ _ _ _ Hn _ Hpr) as (P' & Hv & [= _ Hh']). exists P'. split; [done|congruence].
  - destruct Hs as (T & HT & Hf & <- & Hp). destruct (no_transition _ _ _ _ _ Hn T HT) as [_ _ _ _ _ Hfin].
    split; [by apply Hfin|]. by apply (po_installed _ _ _ _ (no_policy _ _ _ _ _ Hn _ Hp)).
  - destruct Hs as (T & HT & <- & Hlen & Hrs). destruct (no_transition _ _ _ _ _ Hn T HT) as [Ha _ Hi (_ & _ & Hpre) _ _].
    split_and!; [done|done|]. apply (Forall_impl _ _ _ Hrs). intros r. apply log_at_prefix.
    rewrite <-(pre_all (tail (tr_proposal T)) (nd_log n)) by lia. rewrite Hpre. apply pre_prefix_of.
  - destruct Hs as [Hp Hrs]. split; [by apply (po_installed _ _ _ _ (no_policy _ _ _ _ _ Hn _ Hp))|by apply in_log_policy].
Qed.

Lemma sends e : may_send i n e → step_result (with_sent (nd_sent n ++ [e]) n).
Proof using Hg Hn allowed_meet allowed_hash.
  intros Hs. pose proof (proj1 Hs) as Hfrom.
  assert ((∃ k, env_packet e = ReplicaAckPacket k ∧ ack_accepted k = true) ∨
    (∀ k, env_packet e = ReplicaAckPacket k → ack_accepted k = false)) as [(k & Hk & Hacc)|Hna].
  { destruct (env_packet e) as [|k| | | | | | | ]; try by right. destruct (ack_accepted k) eqn:Ha; [left; by eauto|].
    right. by intros ? [= <-]. }
  - destruct Hs as [_ Hs]. rewrite Hk in Hs. destruct (Hs Hacc) as [Hr (π & Hp & Hnm & Hu & Hle)].
    destruct (acknowledge_ok p0 Allowed allowed_meet g i n Hg Hn π _ Hp Hu Hle) as [Hg' Hn'].
    exists (g_ack i π (ack_sequence k) g). split_and!; [apply extends_ack|done|by apply set_sent_ok|].
    intros e' [?|[= ->]%list_elem_of_singleton]%elem_of_app; [by left|right]. split; [done|].
    unfold envelope_ok. rewrite Hk, Hfrom. intros _. split; [done|]. exists π. split; [done|]. by right.
  - exists g. split_and!; [apply extends_refl|done|by apply set_sent_ok|].
    intros e' [?|[= ->]%list_elem_of_singleton]%elem_of_app; [by left|right]. split; [done|]. by apply send_ok.
Qed.

Lemma promises P : (∃ from, received net i from (EpochPreparePacket P)) ∨
    (∃ from b, received net i from (EpochRepairPacket b) ∧ rb_proposal b = P) ∨
    (∃ T, nd_transition n = Some T ∧ tr_proposal T = P) → Allowed P.
Proof using Hn Hnet.
  intros [[from Hr]|[(from & b & Hr & <-)|(T & HT & <-)]].
  - exact (received_ok _ _ Hr).
  - by destruct (received_ok _ _ Hr).
  - by destruct (no_transition _ _ _ _ _ Hn T HT).
Qed.

Theorem pstep_ok n' : pstep p0 i net n n' → step_result n'.
Proof using Hg Hn Hnet allowed_meet allowed_hash.
  intros [Hp H1 Hgood|π v Hp Hl|a π Hr Hp Hnm Hs|from b r Hr Hp Hin Hs|from p r Hr Hp Hin Hs|P Hev Hp Hsh Hi Ht Hlow
    |T v HT Hf Hh _ Hev|T HT Hq|T HT Hf Hp Hpr|c Hr Hp Hpr Hlen|pt s t Ht Hq|u π Hr Hp Hnm Hlen|T HT Hf|c Hr Hpr Hc
    |π pt s t ? ? ? ? ? ? ? ? ?|pt s t a t' ? ? ? ? ? ? ? ? ? ? ? ?|pending Hw|e Hs].
  - by apply establishes.
  - by eapply step_makes; [eapply lead_ok|].
  - destruct (received_ok _ _ Hr) as (π' & Hi & Hnm' & Hat). apply (appends π); [done|].
    rewrite (same_policy p0 Allowed allowed_meet g i n Hg Hn π π' _ _ _ Hp Hnm Hi Hnm') in Hat. by rewrite <-Hs.
  - destruct (received_ok _ _ Hr) as (_ & _ & Hrs). apply (appends _ _ Hp). rewrite <-Hs. rewrite Forall_forall in Hrs. by apply Hrs.
  - destruct (received_ok _ _ Hr) as (_ & Hrs). apply (appends _ _ Hp). rewrite <-Hs. rewrite Forall_forall in Hrs. by apply Hrs.
  - eapply step_makes; [eapply vote_ok; try done; by apply promises|done].
  - by apply votes.
  - by apply finalizes.
  - destruct (no_transition _ _ _ _ _ Hn T HT) as [Ha Hl _ _ _ Hfin]. destruct (Hfin Hf) as [HP _].
    apply installs; [done|by eapply promised_voted|done|done|by left].
  - destruct (received_ok _ _ Hr) as [HP Hown]. destruct (final_parts _ _ g He _ HP) as (Ha & _).
    apply installs; [done|by eapply promised_voted|done|done|by right].
  - by eapply ticket_commits.
  - by eapply update_commits.
  - destruct (no_transition _ _ _ _ _ Hn T HT) as [Ha Hl _ Hlog _ Hfin]. destruct (Hfin Hf) as [HP ->].
    apply commit_step. by apply final_covered.
  - destruct (received_ok _ _ Hr) as [HP Hown]. destruct (final_parts _ _ g He _ HP) as (Ha & _). rewrite Hc.
    apply commit_step, final_covered; [done|]. by apply (no_voted _ _ _ _ _ Hn), (promised_voted p0 Allowed allowed_hash g i n).
  - by eapply new_ticket.
  - by eapply ticket_acknowledged.
  - apply step_same; [|done]. apply pending_ok; [done|]. intros pt s t' Ht'. destruct (Hw pt s t' Ht') as (t & Ht & H1 & H2 & H3 & H4 & Hsub).
    destruct (no_tickets _ _ _ _ _ Hn _ _ _ Ht) as (π & ? & ? & ? & ? & ? & ? & Hk).
    exists π. rewrite H1, H2, H3, H4. split_and!; try done. intros a Ha. by apply Hk, Hsub.
  - by apply sends.
Qed.

Lemma bstep_ok P n' : bstep i n P n' → Allowed P → step_result n'.
Proof using Hg Hn.
  intros [Hp Ht Hl] HP. apply step_same; [|done]. apply set_transition_ok; [done|]. split; simpl; try done.
  - by apply (po_installed _ _ _ _ (no_policy _ _ _ _ _ Hn _ Hp)).
  - rewrite Ht. by eapply log_shares.
Qed.
End own.
End steps.
