(* ===== verification/FabricLogic.v ===== *)
(** * Fabric streams: a logic for the operations

    [sdoes] says of an operation on the store that it does not panic, what it
    returns and what it may leave in the directory when it fails; [does] says of
    an operation of the runtime that whatever it does is a sequence of steps of
    [FabricProtocol]. *)
From Stdlib Require Import String.
From S2P Require Import Prelude Bytes Text FabricStore FabricCluster FabricEpoch FabricProtocol.

Local Open Scope list_scope.
Local Open Scope N_scope.

(** ** Operations on the store *)

Section store.
Context (name : bytes).

Definition sdoes {A} (d : StreamDir) (m : StoreOp A) (Q : A → StreamDir → Prop) (E : StreamDir → Prop) : Prop :=
  ∀ s, fs_stream s = d → fs_name s = name → ∃ r s', m s = Some (r, s') ∧ fs_name s' = name ∧
    match r with Ok a => Q a (fs_stream s') | Err _ => E (fs_stream s') end.

Lemma sdoes_bind {A B} d (m : StoreOp A) (k : A → StoreOp B) Q1 Q (E : StreamDir → Prop) :
  sdoes d m Q1 E → (∀ a d', Q1 a d' → sdoes d' (k a) Q E) → sdoes d (a ← m; k a) Q E.
Proof.
  intros Hm Hk s Hd Hs. destruct (Hm s Hd Hs) as (r & s' & Heq & Hs' & HQ). unfold mbind, op_bind. rewrite Heq.
  destruct r as [a|e]; [by apply (Hk a (fs_stream s'))|]. by eexists _, _.
Qed.

Lemma sdoes_weaken {A} d (m : StoreOp A) (Q Q' : A → StreamDir → Prop) (E E' : StreamDir → Prop) :
  sdoes d m Q' E' → (∀ a d', Q' a d' → Q a d') → (∀ d', E' d' → E d') → sdoes d m Q E.
Proof.
  intros Hm HQ HE s Hd Hs. destruct (Hm s Hd Hs) as (r & s' & Heq & Hs' & Hr). exists r, s'. split_and!; [done..|].
  destruct r; auto.
Qed.

Lemma sdoes_post {A} d (m : StoreOp A) (Q Q' : A → StreamDir → Prop) (E : StreamDir → Prop) :
  sdoes d m Q' E → (∀ a d', Q' a d' → Q a d') → sdoes d m Q E.
Proof. intros Hm HQ. by eapply sdoes_weaken. Qed.

Lemma sdoes_ret {A} d (a : A) Q E : Q a d → sdoes d (mret a) Q E.
Proof. intros HQ s <- Hs. by eexists _, _. Qed.

Lemma sdoes_fail {A} d e (Q : A → StreamDir → Prop) (E : StreamDir → Prop) : E d → sdoes d (op_fail e) Q E.
Proof. intros HE s <- Hs. by eexists _, _. Qed.

Lemma sdoes_result {A} d (r : result A FabricError) (E : StreamDir → Prop) :
  E d → sdoes d (op_result r) (λ a d', d' = d ∧ r = Ok a) E.
Proof. intros HE s <- Hs. exists r, s. split_and!; [done..|]. by destruct r. Qed.

Lemma sdoes_gets {A} d (f : FileFabricStreamStore → A) (Q : A → StreamDir → Prop) (E : StreamDir → Prop) :
  (∀ s, fs_stream s = d → fs_name s = name → Q (f s) d) → sdoes d (op_gets f) Q E.
Proof. intros HQ s <- Hs. eexists _, _. split_and!; [done..|]. by apply HQ. Qed.

Lemma sdoes_some {A} d (o : option A) e (E : StreamDir → Prop) :
  E d → sdoes d (op_some o e) (λ a d', d' = d ∧ o = Some a) E.
Proof. intros HE. destruct o; [by apply sdoes_ret|by apply sdoes_fail]. Qed.

Lemma sdoes_guard d b e (E : StreamDir → Prop) : E d → sdoes d (op_guard b e) (λ _ d', d' = d ∧ b = false) E.
Proof. intros HE. unfold op_guard. destruct b; [by apply sdoes_fail|by apply sdoes_ret]. Qed.

Lemma sdoes_read {A} d (f : StreamDir → A) (E : StreamDir → Prop) :
  E d → sdoes d (read_file f) (λ a d', d' = d ∧ a = f d) E.
Proof.
  intros HE s <- Hs. unfold read_file, mbind, op_bind, take_fault, op_gets, op_fail.
  destruct (fs_faults s) as [|[] fs]; by eexists _, _.
Qed.

Lemma sdoes_write d (f : StreamDir → StreamDir) (E : StreamDir → Prop) :
  E d → E (f d) → sdoes d (write_file f) (λ _ d', d' = f d) E.
Proof.
  intros HE HE' s <- Hs. unfold write_file, mbind, op_bind, take_fault, op_modify, op_fail, put_stream.
  destruct (fs_faults s) as [|[] fs]; by eexists _, _.
Qed.

Lemma sdoes_gets_dir {A} d (f : StreamDir → A) (E : StreamDir → Prop) :
  sdoes d (op_gets (λ s, f (fs_stream s))) (λ a d', d' = d ∧ a = f d) E.
Proof. apply sdoes_gets. by intros s -> _. Qed.

Lemma sdoes_expect {A} d (o : option A) (E : StreamDir → Prop) : is_Some o →
  sdoes d (op_expect o) (λ a d', d' = d ∧ o = Some a) E.
Proof. intros [a ->]. by apply sdoes_ret. Qed.

Lemma sdoes_recover d (E : StreamDir → Prop) : E d → sdoes d recover_stream (λ _ d', d' = d ∧ is_Some (sd_meta d)) E.
Proof.
  intros HE. unfold recover_stream. eapply sdoes_bind; [by apply sdoes_read|]. intros ? ? [-> ->].
  eapply sdoes_bind; [by apply sdoes_some|]. intros ? ? [-> Hm].
  eapply sdoes_bind; [by apply sdoes_result|]. intros ? ? [-> _]. by apply sdoes_ret.
Qed.

Lemma sdoes_ensure d (E : StreamDir → Prop) : E d → sdoes d ensure_state (λ _ d', d' = d ∧ is_Some (sd_meta d)) E.
Proof.
  intros HE. unfold ensure_state. eapply sdoes_bind; [by apply (sdoes_gets _ _ (λ _ d', d' = d))|]. intros n ? ->.
  eapply sdoes_bind; [by apply sdoes_result|]. intros ? ? [-> _]. by apply sdoes_recover.
Qed.
(** ** What the operations of the store do *)

(** Runs the first call of a sequence. *)
Ltac sstep :=
  match goal with
  | |- sdoes _ (mbind _ ensure_state) _ _ => eapply sdoes_bind; [apply sdoes_ensure; try done|intros ? ? [-> ?]]
  | |- sdoes _ (mbind _ (op_guard _ _)) _ _ => eapply sdoes_bind; [apply sdoes_guard; try done|intros ? ? [-> ?]]
  | |- sdoes _ (mbind _ (op_some _ _)) _ _ => eapply sdoes_bind; [apply sdoes_some; try done|intros ? ? [-> ?]]
  | |- sdoes _ (mbind _ (op_result _)) _ _ => eapply sdoes_bind; [apply sdoes_result; try done|intros ? ? [-> ?]]
  | |- sdoes _ (mbind _ (op_expect _)) _ _ => eapply sdoes_bind; [apply sdoes_expect; try done|intros ? ? [-> ?]]
  | |- sdoes _ (mbind _ (read_file _)) _ _ => eapply sdoes_bind; [apply sdoes_read; try done|intros ? ? [-> ->]]
  | |- sdoes _ (mbind _ (write_file _)) _ _ => eapply sdoes_bind; [apply sdoes_write; try done|intros ? ? ->]
  | |- sdoes _ (mbind _ (op_gets fs_stream)) _ _ => eapply sdoes_bind; [apply (sdoes_gets_dir _ (λ d, d))|intros ? ? [-> ->]]
  | |- sdoes _ (mbind _ (op_gets _)) _ _ => eapply sdoes_bind; [apply sdoes_gets_dir|intros ? ? [-> ->]]
  | |- sdoes _ (mret _) _ _ => apply sdoes_ret
  | |- sdoes _ (op_fail _) _ _ => apply sdoes_fail
  | |- sdoes _ (op_guard _ _) _ _ => eapply sdoes_post; [apply sdoes_guard|intros ? ? [-> ?]]; try done
  end.

Section reading.
Context (d : StreamDir) (E : StreamDir → Prop) (HE : E d).

Lemma sdoes_replication_policy : sdoes d replication_policy (λ a d', d' = d ∧ a = sd_policy d) E.
Proof using HE.
  unfold replication_policy, read_replication_policy. repeat sstep. destruct (sd_policy d) eqn:Hp; [|by sstep]. by repeat sstep.
Qed.

Lemma sdoes_read_policy : sdoes d read_replication_policy (λ a d', d' = d ∧ a = sd_policy d) E.
Proof using HE. unfold read_replication_policy. repeat sstep. destruct (sd_policy d) eqn:Hp; [|by sstep]. by repeat sstep. Qed.

Lemma sdoes_read_promise : sdoes d read_epoch_promise (λ a d', d' = d ∧ a = sd_promise d) E.
Proof using HE. unfold read_epoch_promise. repeat sstep. destruct (sd_promise d) eqn:Hp; [|by sstep]. by repeat sstep. Qed.

Lemma sdoes_epoch_promise : sdoes d epoch_promise (λ a d', d' = d ∧ a = sd_promise d) E.
Proof using HE. unfold epoch_promise. sstep. apply sdoes_read_promise. Qed.

Lemma sdoes_read_transition : sdoes d read_epoch_transition (λ a d', d' = d ∧ a = sd_transition d) E.
Proof using HE. unfold read_epoch_transition. repeat sstep. destruct (sd_transition d) eqn:Hp; [|by sstep]. by repeat sstep. Qed.

Lemma sdoes_epoch_transition : sdoes d epoch_transition (λ a d', d' = d ∧ a = sd_transition d) E.
Proof using HE. unfold epoch_transition. sstep. apply sdoes_read_transition. Qed.

Lemma sdoes_committed_sequence : sdoes d committed_sequence (λ a d', d' = d ∧ a = sd_commit d) E.
Proof using HE. unfold committed_sequence. sstep. by apply sdoes_read. Qed.

Lemma sdoes_stream_config : sdoes d stream_config (λ _ d', d' = d) E.
Proof using HE. unfold stream_config. repeat sstep. eapply sdoes_post; [by apply sdoes_expect|by intros ? ? [-> _]]. Qed.

Lemma sdoes_stream_info : sdoes d stream_info (λ info d', d' = d ∧ info_last_sequence info = last_sequence d ∧
  info_next_sequence info = len (sd_log d) + 1 ∧ info_committed_sequence info = sd_commit d) E.
Proof using HE. unfold stream_info. by repeat sstep. Qed.

(** Records that a read returns are in the log. *)
Lemma number_from_lookup k payloads r : r ∈ number_from k payloads →
  k ≤ rec_sequence r ∧ payloads !! N.to_nat (rec_sequence r - k) = Some (rec_payload r).
Proof using.
  revert k. induction payloads as [|p payloads IH]; intros k; simpl; [by intros ?%elem_of_nil|].
  intros [->|Hr]%elem_of_cons; simpl; [split; [lia|]; by replace (k - k) with 0 by lia|].
  apply IH in Hr as [Hk Hl]. split; [lia|].
  by replace (N.to_nat (rec_sequence r - k)) with (S (N.to_nat (rec_sequence r - (k + 1)))) by lia.
Qed.

Lemma records_from_in start r : r ∈ records_from d start → start ≤ rec_sequence r ∧ in_log (sd_log d) r.
Proof using.
  unfold records_from. intros [Hs Hr]%list_elem_of_filter. split; [done|].
  apply number_from_lookup in Hr as [H1 Hl]. unfold in_log, log_at. destruct (N.eqb_spec (rec_sequence r) 0); [lia|done].
Qed.

Lemma sdoes_read_from start limit : sdoes d (read_from start limit)
  (λ rs d', d' = d ∧ Forall (λ r, start ≤ rec_sequence r ∧ in_log (sd_log d) r) rs) E.
Proof using HE.
  unfold read_from. repeat sstep. destruct (limit =? 0); [by sstep|].
  eapply sdoes_post; [by apply sdoes_read|]. intros ? ? [-> ->]. split; [done|].
  apply Forall_take, Forall_forall. intros r Hr. by apply records_from_in.
Qed.

Lemma sdoes_read_committed start limit : sdoes d (read_committed start limit)
  (λ rs d', d' = d ∧ Forall (λ r, rec_sequence r ≤ sd_commit d ∧ in_log (sd_log d) r) rs) E.
Proof using HE.
  unfold read_committed. eapply sdoes_bind; [apply sdoes_committed_sequence|]. intros ? ? [-> ->].
  destruct (_ || _); [by sstep|]. eapply sdoes_bind; [apply sdoes_read_from|]. intros rs ? [-> Hrs]. sstep. split; [done|].
  apply Forall_forall. intros r [Hc Hr]%list_elem_of_filter. rewrite Forall_forall in Hrs. split; [done|]. by apply Hrs.
Qed.
End reading.

(** The operations that write.  [E] holds of every directory that they may leave. *)
Section writing.
Context (d : StreamDir) (E : StreamDir → Prop) (HE : E d).

Lemma sdoes_create config : (sd_meta d = None → E (set_meta (Some config) d)) →
  sdoes d (create_stream config) (λ _ d', d' = set_meta (Some config) d) E.
Proof using HE.
  intros HE'. unfold create_stream. eapply sdoes_bind; [by apply (sdoes_gets _ _ (λ _ d', d' = d))|]. intros n ? ->.
  sstep. assert (∀ c, FabricStreamConfig_validate config = Ok c → c = config) as Hc.
  { unfold FabricStreamConfig_validate. intros c. by case_match; intros [= <-]. }
  sstep. rewrite (Hc _ H0). repeat sstep.
  apply sdoes_write; [done|]. apply HE'. apply bool_decide_eq_false in H1. by destruct (sd_meta d); [destruct H1|].
Qed.

Lemma sdoes_commit_through s : (s ≤ len (sd_log d) → E (set_commit s d)) →
  sdoes d (commit_through s) (λ _ d', s ≤ len (sd_log d) ∧ ((d' = d ∧ s = sd_commit d) ∨ d' = set_commit s d)) E.
Proof using HE.
  intros HE'. unfold commit_through. repeat sstep. apply N.ltb_ge in H0. unfold tail_of in H0.
  destruct (N.eqb_spec s (sd_commit d)); [sstep; by auto|].
  eapply sdoes_post; [by apply sdoes_write; auto|]. auto.
Qed.

Lemma sdoes_establish π : (sd_policy d = None → bad_policy π = false → E (set_policy (Some π) d)) →
  sdoes d (establish_replication_policy π)
    (λ a d', a = π ∧ ((d' = d ∧ sd_policy d = Some π) ∨
                       (sd_policy d = None ∧ bad_policy π = false ∧ d' = set_policy (Some π) d))) E.
Proof using HE.
  intros HE'. unfold establish_replication_policy. repeat sstep. eapply sdoes_bind; [by apply sdoes_read_policy|].
  intros ? ? [-> ->]. destruct (sd_policy d) as [existing|] eqn:Hp.
  - case_bool_decide; subst; sstep; auto.
  - repeat sstep; auto 10.
Qed.

Lemma sdoes_promise_epoch e h :
  ((∀ pr, sd_promise d = Some pr → prm_epoch pr < e) → E (set_promise (Some (mkPromise e h)) d)) →
  sdoes d (promise_epoch e h)
    (λ _ d', (d' = d ∧ sd_promise d = Some (mkPromise e h)) ∨
             ((∀ pr, sd_promise d = Some pr → prm_epoch pr < e) ∧ d' = set_promise (Some (mkPromise e h)) d)) E.
Proof using HE.
  intros HE'. unfold promise_epoch. repeat sstep. eapply sdoes_bind; [by apply sdoes_replication_policy|]. intros ? ? [-> ->].
  repeat sstep. eapply sdoes_bind; [by apply sdoes_read_promise|]. intros ? ? [-> ->].
  destruct (sd_promise d) as [[e' h']|] eqn:Hp; simpl.
  - case_match eqn:Heq.
    + apply andb_true_iff in Heq as [->%N.eqb_eq ->%bool_decide_eq_true]. sstep. auto.
    + sstep. apply N.leb_gt in H3.
      assert (∀ pr, Some (mkPromise e' h') = Some pr → prm_epoch pr < e) as Hlt by (by intros ? [= <-]).
      repeat sstep; auto.
  - assert (∀ pr, @None FabricStreamEpochPromise = Some pr → prm_epoch pr < e) as Hlt by done. repeat sstep; auto.
Qed.

Lemma sdoes_begin P : (sd_policy d = Some (prop_from P) → E (set_transition (Some (mkTransition P ∅ false 0)) d)) →
  sdoes d (begin_epoch_transition P)
    (λ T d', sd_policy d = Some (prop_from P) ∧ tr_proposal T = P ∧
       ((d' = d ∧ sd_transition d = Some T) ∨
        (T = mkTransition P ∅ false 0 ∧ d' = set_transition (Some T) d))) E.
Proof using HE.
  intros HE'. unfold begin_epoch_transition. repeat sstep. eapply sdoes_bind; [by apply sdoes_replication_policy|]. intros ? ? [-> ->].
  sstep. sstep. apply negb_false_iff, bool_decide_eq_true in H2 as ->. eapply sdoes_bind; [by apply sdoes_read_transition|].
  intros ? ? [-> ->]. destruct (sd_transition d) as [T|] eqn:HT.
  - cbv beta iota zeta. destruct (bool_decide (tr_proposal T = P)) eqn:Heq.
    + apply bool_decide_eq_true in Heq. sstep. auto.
    + repeat sstep; auto 10.
  - repeat sstep; auto 10.
Qed.

(** The transition with one more vote. *)
Definition with_vote (v : FabricStreamEpochVoteState) (T : Transition) : Transition :=
  mkTransition (tr_proposal T) (<[vote_voter v := v]> (tr_votes T)) (tr_finalized T) (tr_quorum_committed T).
Definition vote_fits (v : FabricStreamEpochVoteState) (T : Transition) : Prop :=
  tr_finalized T = false ∧ vote_epoch v = pol_epoch (prop_to (tr_proposal T)) ∧ vote_hash v = prop_hash (tr_proposal T) ∧
  vote_voter v ∈ pol_replicas (prop_from (tr_proposal T)).

Lemma sdoes_record_vote v :
  (∀ T, sd_transition d = Some T → vote_fits v T → E (set_transition (Some (with_vote v T)) d)) →
  sdoes d (record_epoch_vote v)
    (λ T d', (d' = d ∧ sd_transition d = Some T) ∨
       ∃ T0, sd_transition d = Some T0 ∧ vote_fits v T0 ∧ T = with_vote v T0 ∧ d' = set_transition (Some T) d) E.
Proof using HE.
  intros HE'. unfold record_epoch_vote. sstep. eapply sdoes_bind; [by apply sdoes_read_transition|]. intros ? ? [-> ->].
  sstep. rename a0 into T. cbv beta zeta. destruct (tr_finalized T) eqn:Hf; [sstep; auto|]. sstep.
  apply orb_false_iff in H1 as [[H1%negb_false_iff%N.eqb_eq H2%negb_false_iff%bool_decide_eq_true]%orb_false_iff
    H3%negb_false_iff%bool_decide_eq_true].
  assert (vote_fits v T) as Hfit by done.
  assert (mkTransition (tr_proposal T) (<[vote_voter v := v]> (tr_votes T)) false (tr_quorum_committed T) = with_vote v T) as ->
    by (unfold with_vote; by rewrite Hf).
  destruct (tr_votes T !! vote_voter v) as [existing|] eqn:Hv; [|by repeat sstep; eauto 10].
  destruct (bool_decide (existing = v)); [sstep; auto|]. repeat sstep; eauto 10.
Qed.

Lemma sdoes_finalize qc :
  (∀ T, sd_transition d = Some T → tr_finalized T = false →
     E (set_transition (Some (mkTransition (tr_proposal T) (tr_votes T) true qc)) d)) →
  sdoes d (finalize_epoch_transition qc)
    (λ T d', (d' = d ∧ sd_transition d = Some T ∧ tr_finalized T = true) ∨
       ∃ T0, sd_transition d = Some T0 ∧ tr_finalized T0 = false ∧
         T = mkTransition (tr_proposal T0) (tr_votes T0) true qc ∧ d' = set_transition (Some T) d) E.
Proof using HE.
  intros HE'. unfold finalize_epoch_transition. sstep. eapply sdoes_bind; [by apply sdoes_read_transition|]. intros ? ? [-> ->].
  sstep. rename a0 into T. cbv beta zeta. destruct (tr_finalized T) eqn:Hf; [case_match; sstep; auto|]. repeat sstep; eauto 10.
Qed.

Lemma sdoes_install from to h :
  (sd_policy d = Some from → sd_promise d = Some (mkPromise (pol_epoch to) h) → E (set_policy (Some to) d)) →
  sdoes d (install_epoch_policy from to h)
    (λ _ d', (d' = d ∧ sd_policy d = Some to) ∨
       (sd_policy d = Some from ∧ sd_promise d = Some (mkPromise (pol_epoch to) h) ∧ d' = set_policy (Some to) d)) E.
Proof using HE.
  intros HE'. unfold install_epoch_policy. repeat sstep. eapply sdoes_bind; [by apply sdoes_replication_policy|]. intros ? ? [-> ->].
  sstep. case_bool_decide; [subst; sstep; auto|]. sstep. apply negb_false_iff, bool_decide_eq_true in H3 as ->.
  eapply sdoes_bind; [by apply sdoes_epoch_promise|]. intros ? ? [-> ->]. sstep.
  match goal with H : sd_promise d = Some ?p |- _ => rename p into pr, H into Hpp end. eapply sdoes_bind; [by apply sdoes_guard|]. intros ? ? [-> Hb].
  apply orb_false_iff in Hb as [He%negb_false_iff%N.eqb_eq Hh%negb_false_iff%bool_decide_eq_true].
  assert (sd_promise d = Some (mkPromise (pol_epoch to) h)) as Hpr by (destruct pr; simpl in *; by subst).
  eapply sdoes_post; [by apply sdoes_write; auto|]. auto.
Qed.

(** Directories that differ only in metadata, intents, progress and cursors. *)
Definition same_log (d d' : StreamDir) : Prop :=
  sd_log d' = sd_log d ∧ sd_commit d' = sd_commit d ∧ sd_policy d' = sd_policy d ∧ sd_promise d' = sd_promise d ∧
  sd_transition d' = sd_transition d.

Context (HE' : ∀ d', same_log d d' → E d').

Lemma sdoes_reserve intent : sdoes d (reserve_replication_intent intent) (λ _ d', same_log d d') E.
Proof using HE HE'.
  unfold reserve_replication_intent. repeat sstep. case_match; [case_match; by sstep|].
  eapply sdoes_post; [apply sdoes_write; [done|by apply HE']|]. by intros ? ? ->.
Qed.

Lemma sdoes_intents : sdoes d pending_replication_intents (λ intents d', d' = d) E.
Proof using HE.
  unfold pending_replication_intents. repeat sstep. eapply sdoes_post; [by apply sdoes_read|]. by intros ? ? [-> _].
Qed.

Lemma sdoes_remove_intent s : sdoes d (remove_replication_intent s) (λ _ d', same_log d d') E.
Proof using HE HE'.
  unfold remove_replication_intent. repeat sstep. case_bool_decide; simpl.
  - sstep; [by apply HE'|]. by sstep.
  - eapply (sdoes_bind _ _ _ (λ _ d', d' = d)); [by sstep|]. intros ? ? ->. by sstep.
Qed.

Lemma sdoes_progress r : sdoes d (replica_progress r) (λ _ d', d' = d) E.
Proof using HE. unfold replica_progress. by repeat sstep. Qed.

Lemma sdoes_record_progress r s : sdoes d (record_replica_progress r s) (λ _ d', same_log d d') E.
Proof using HE HE'.
  unfold record_replica_progress. repeat sstep. case_match; [by sstep|].
  eapply sdoes_post; [apply sdoes_write; [done|by apply HE']|]. by intros ? ? ->.
Qed.

Lemma sdoes_commit_cursor consumer s : sdoes d (commit_cursor consumer s) (λ _ d', same_log d d') E.
Proof using HE HE'.
  unfold commit_cursor. repeat sstep. eapply sdoes_post; [apply sdoes_write; [done|by apply HE']|]. by intros ? ? ->.
Qed.

(** ** Appending *)

(** A directory that differs from another by a record at the end of the log, at most. *)
Definition longer_log (v : bytes) (d d' : StreamDir) : Prop :=
  sd_log d' = sd_log d ++ [v] ∧ sd_commit d' = sd_commit d ∧ sd_policy d' = sd_policy d ∧ sd_promise d' = sd_promise d ∧
  sd_transition d' = sd_transition d.

Lemma append_last_log v segments : concat (append_last v segments) = concat segments ++ [v].
Proof using.
  induction segments as [|segment segments IH]; [done|]. destruct segments as [|segment' segments].
  - simpl. by rewrite !app_nil_r.
  - simpl in *. by rewrite IH, <-!(assoc_L (++)).
Qed.

Lemma add_segment_log d0 : same_log d0 (add_segment d0).
Proof using. unfold same_log, sd_log. simpl. split_and!; [|done..]. rewrite concat_app. simpl. by rewrite app_nil_r. Qed.

Lemma add_record_log v d0 : longer_log v d0 (add_record v d0).
Proof using. unfold longer_log, sd_log. simpl. split_and!; [|done..]. apply append_last_log. Qed.

Lemma sdoes_append_exact s v : is_Some (sd_meta d) → (∀ d', s = len (sd_log d) + 1 → longer_log v d d' → E d') →
  sdoes d (append_exact s v) (λ _ d', s = len (sd_log d) + 1 ∧ longer_log v d d') E.
Proof using HE HE'.
  intros Hm HL. unfold append_exact. repeat sstep. apply negb_false_iff, N.eqb_eq in H0. unfold next_sequence in H0.
  assert (∀ d', same_log d d' → longer_log v d (add_record v d')) as Hadd.
  { intros d' (Hl & ? & ? & ? & ?). destruct (add_record_log v d') as (Hl' & ? & ? & ? & ?).
    unfold longer_log. rewrite Hl', Hl. split_and!; congruence. }
  eapply (sdoes_bind _ _ _ (λ _ d', same_log d d')).
  - case_match; [|by sstep]. eapply sdoes_post; [apply sdoes_write; [done|]|].
    + apply HE', add_segment_log.
    + intros ? ? ->. apply add_segment_log.
  - intros _ d' Hd'. pose proof (Hadd d' Hd'). sstep; [by apply HE'|by apply HL|]. sstep; [by apply HL|]. by sstep.
Qed.

Lemma sdoes_append_replica s v : (∀ d', s = len (sd_log d) + 1 → longer_log v d d' → E d') →
  sdoes d (append_replica s v)
    (λ b d', (b = false ∧ d' = d ∧ log_at (sd_log d) s = Some v) ∨
       (b = true ∧ s = len (sd_log d) + 1 ∧ longer_log v d d')) E.
Proof using HE HE'.
  intros HL. unfold append_replica. repeat sstep. case_match.
  - eapply sdoes_bind; [by apply sdoes_read_from|]. intros rs ? [-> Hrs]. destruct rs as [|r rs]; [by sstep|].
    case_match eqn:Heq; [|by sstep]. apply andb_true_iff in Heq as [Hs%N.eqb_eq Hv%bool_decide_eq_true]. sstep.
    apply Forall_cons in Hrs as [[_ Hin] _]. left. unfold in_log in Hin. by rewrite Hs, Hv in Hin.
  - sstep. eapply sdoes_bind; [by apply sdoes_append_exact|]. intros ? d' [Hs Hd']. sstep. auto.
Qed.

Lemma sdoes_append_reserved s v : (∀ d', s = len (sd_log d) + 1 → longer_log v d d' → E d') →
  sdoes d (append_reserved_replica s v) (λ _ d', s = len (sd_log d) + 1 ∧ longer_log v d d') E.
Proof using HE HE'.
  intros HL. unfold append_reserved_replica. eapply sdoes_bind; [apply sdoes_intents|]. intros ? ? ->. sstep.
  eapply sdoes_bind; [by apply sdoes_append_replica|]. intros b d' [(-> & -> & _)|(-> & Hs & Hd')]; simpl.
  - by apply sdoes_fail.
  - by apply sdoes_ret.
Qed.

Lemma sdoes_append v : (∀ d', longer_log v d d' → E d') →
  sdoes d (append v) (λ s d', s = len (sd_log d) + 1 ∧ longer_log v d d') E.
Proof using HE HE'.
  intros HL. unfold append. repeat sstep. eapply sdoes_bind; [apply sdoes_append_exact; [done|auto]|]. intros ? d' [Hs Hd']. by sstep.
Qed.
End writing.
End store.

(** ** Operations of the runtime *)

(** What the protocol sees of a directory, with tickets and packets. *)
Definition dir_view (pending : Tickets) (sent : list Envelope) (d : StreamDir) : Nd :=
  mkNd (sd_log d) (sd_commit d) (sd_policy d) (sd_promise d) (sd_transition d) pending sent.

Definition sent_packets (rt : Runtime) : list Envelope :=
  match rt_transport rt with Some tp => tp_sent tp | None => [] end.

Definition view (rt : Runtime) : Nd :=
  dir_view (rt_pending rt) (sent_packets rt)
    match rt_fabric_streams rt with Some store => fs_stream store | None => new_dir end.

Section runtime.
Context (name : bytes) (p0 : Policy) (i : N) (net : Envelope → Prop).

Abbreviation quiet := (rtc (pstep p0 i net)).

(** A runtime with the node, the stream, a transport and a cluster. *)
Definition runs_on (cluster : option ClusterState) (rt : Runtime) : Prop :=
  rt_node_id rt = Some i ∧ rt_cluster rt = cluster ∧ is_Some (rt_transport rt) ∧
  ∃ store, rt_fabric_streams rt = Some store ∧ fs_name store = name.

(** The operation takes no step but those of the protocol, and does not panic. *)
Definition does {A} (cluster : option ClusterState) (n : Nd) (m : RtOp A) (Q : A → Nd → Prop) : Prop :=
  ∀ rt, runs_on cluster rt → view rt = n → ∃ r rt', m rt = Some (r, rt') ∧ runs_on cluster rt' ∧ quiet n (view rt') ∧
    match r with Ok a => Q a (view rt') | Err _ => True end.

(** The same for an operation that may start a transition: the proposal is that
    of the transition it leaves. *)
Definition started (n n' : Nd) : Prop :=
  quiet n n' ∨ ∃ n1 n2 P, quiet n n1 ∧ bstep i n1 P n2 ∧ quiet n2 n'.

Definition begins {A} (cluster : option ClusterState) (n : Nd) (m : RtOp A) (Q : A → Nd → Prop) : Prop :=
  ∀ rt, runs_on cluster rt → view rt = n → ∃ r rt', m rt = Some (r, rt') ∧ runs_on cluster rt' ∧ started n (view rt') ∧
    match r with Ok a => Q a (view rt') | Err _ => True end.

Section rules.
Context (cl : option ClusterState).

Lemma does_bind {A B} n (m : RtOp A) (k : A → RtOp B) Q1 Q :
  does cl n m Q1 → (∀ a n', quiet n n' → Q1 a n' → does cl n' (k a) Q) → does cl n (a ← m; k a) Q.
Proof.
  intros Hm Hk rt Hrt Hv. destruct (Hm rt Hrt Hv) as (r & rt' & Heq & Hrt' & Hq & HQ). unfold mbind, op_bind. rewrite Heq.
  destruct r as [a|e]; [|by eexists _, _]. destruct (Hk a _ Hq HQ rt' Hrt' eq_refl) as (r2 & rt2 & Heq2 & Hrt2 & Hq2 & HQ2).
  exists r2, rt2. split_and!; [done|done|by etrans|done].
Qed.

Lemma does_post {A} n (m : RtOp A) (Q Q' : A → Nd → Prop) :
  does cl n m Q' → (∀ a n', quiet n n' → Q' a n' → Q a n') → does cl n m Q.
Proof.
  intros Hm HQ rt Hrt Hv. destruct (Hm rt Hrt Hv) as (r & rt' & Heq & Hrt' & Hq & Hr). exists r, rt'. split_and!; [done..|].
  destruct r; auto.
Qed.

Lemma does_ret {A} n (a : A) (Q : A → Nd → Prop) : Q a n → does cl n (mret a) Q.
Proof. intros HQ rt Hrt Hv. eexists _, _. split_and!; [done|done|by rewrite Hv|by rewrite Hv]. Qed.

Lemma does_fail {A} n e (Q : A → Nd → Prop) : does cl n (op_fail e) Q.
Proof. intros rt Hrt Hv. eexists _, _. split_and!; [done|done|by rewrite Hv|done]. Qed.

Lemma does_result {A} n (r : result A FabricError) : does cl n (op_result r) (λ a n', n' = n ∧ r = Ok a).
Proof. intros rt Hrt Hv. eexists _, _. split_and!; [done|done|by rewrite Hv|]. by destruct r. Qed.

Lemma does_some {A} n (o : option A) e : does cl n (op_some o e) (λ a n', n' = n ∧ o = Some a).
Proof. destruct o; [by apply does_ret|apply does_fail]. Qed.

Lemma does_guard n b e : does cl n (op_guard b e) (λ _ n', n' = n ∧ b = false).
Proof. unfold op_guard. destruct b; [apply does_fail|by apply does_ret]. Qed.

Lemma does_gets {A} n (f : Runtime → A) (Q : A → Nd → Prop) :
  (∀ rt, runs_on cl rt → view rt = n → Q (f rt) n) → does cl n (op_gets f) Q.
Proof. intros HQ rt Hrt Hv. eexists _, _. split_and!; [done|done|by rewrite Hv|]. rewrite Hv. by apply HQ. Qed.

(** A change of a part that the protocol does not see. *)
Lemma does_modify n (f : Runtime → Runtime) n' :
  (∀ rt, runs_on cl rt → view rt = n → runs_on cl (f rt) ∧ view (f rt) = n') → quiet n n' →
  does cl n (op_modify f) (λ _ n'', n'' = n').
Proof. intros Hf Hq rt Hrt Hv. destruct (Hf rt Hrt Hv) as [Hrt' Hv']. eexists _, _. by rewrite Hv'. Qed.

Lemma does_try {A} n (m : RtOp A) (Q : A → Nd → Prop) : does cl n m Q →
  does cl n (op_try m) (λ r n', match r with Ok a => Q a n' | Err _ => True end).
Proof.
  intros Hm rt Hrt Hv. destruct (Hm rt Hrt Hv) as (r & rt' & Heq & Hrt' & Hq & Hr). unfold op_try. rewrite Heq.
  by eexists _, _.
Qed.

Lemma does_each {A} n (I : Nd → Prop) (f : A → RtOp unit) l : I n →
  (∀ a n', a ∈ l → I n' → does cl n' (f a) (λ _ n'', I n'')) → does cl n (op_each f l) (λ _ n', I n').
Proof.
  intros HI Hf. revert n HI. induction l as [|a l IH]; intros n HI; simpl; [by apply does_ret|].
  eapply does_bind; [apply Hf; [by left|done]|]. intros ? n' _ HI'. apply IH; [|done]. intros b n'' Hb. apply Hf. by right.
Qed.

(** ** Operations that may start a transition *)

Lemma quiet_started n n1 n' : quiet n n1 → started n1 n' → started n n'.
Proof. intros Hq [?|(n2 & n3 & P & H1 & H2 & H3)]; [left; by etrans|right]. exists n2, n3, P. split_and!; [by etrans|done|done]. Qed.

Lemma started_quiet n n1 n' : started n n1 → quiet n1 n' → started n n'.
Proof. intros [?|(n2 & n3 & P & H1 & H2 & H3)] Hq; [left; by etrans|right]. exists n2, n3, P. split_and!; [done|done|by etrans]. Qed.

Lemma begins_does {A} n (m : RtOp A) (Q : A → Nd → Prop) : does cl n m Q → begins cl n m Q.
Proof.
  intros Hm rt Hrt Hv. destruct (Hm rt Hrt Hv) as (r & rt' & Heq & Hrt' & Hq & Hr). exists r, rt'. split_and!; [done|done|by left|done].
Qed.

Lemma begins_bind {A B} n (m : RtOp A) (k : A → RtOp B) Q1 Q :
  does cl n m Q1 → (∀ a n', quiet n n' → Q1 a n' → begins cl n' (k a) Q) → begins cl n (a ← m; k a) Q.
Proof.
  intros Hm Hk rt Hrt Hv. destruct (Hm rt Hrt Hv) as (r & rt' & Heq & Hrt' & Hq & HQ). unfold mbind, op_bind. rewrite Heq.
  destruct r as [a|e]; [|eexists _, _; split_and!; [done|done|by left|done]].
  destruct (Hk a _ Hq HQ rt' Hrt' eq_refl) as (r2 & rt2 & Heq2 & Hrt2 & Hq2 & HQ2).
  exists r2, rt2. split_and!; [done|done|by eapply quiet_started|done].
Qed.

Lemma begins_then {A B} n (m : RtOp A) (k : A → RtOp B) Q1 Q :
  begins cl n m Q1 → (∀ a n', Q1 a n' → does cl n' (k a) Q) → begins cl n (a ← m; k a) Q.
Proof.
  intros Hm Hk rt Hrt Hv. destruct (Hm rt Hrt Hv) as (r & rt' & Heq & Hrt' & Hq & HQ). unfold mbind, op_bind. rewrite Heq.
  destruct r as [a|e]; [|by eexists _, _]. destruct (Hk a _ HQ rt' Hrt' eq_refl) as (r2 & rt2 & Heq2 & Hrt2 & Hq2 & HQ2).
  exists r2, rt2. split_and!; [done|done|by eapply started_quiet|done].
Qed.

Lemma begins_post {A} n (m : RtOp A) (Q Q' : A → Nd → Prop) :
  begins cl n m Q' → (∀ a n', Q' a n' → Q a n') → begins cl n m Q.
Proof.
  intros Hm HQ rt Hrt Hv. destruct (Hm rt Hrt Hv) as (r & rt' & Heq & Hrt' & Hq & Hr). exists r, rt'. split_and!; [done..|].
  destruct r; auto.
Qed.

Lemma begins_try {A} n (m : RtOp A) (Q : A → Nd → Prop) : begins cl n m Q →
  begins cl n (op_try m) (λ r n', match r with Ok a => Q a n' | Err _ => True end).
Proof.
  intros Hm rt Hrt Hv. destruct (Hm rt Hrt Hv) as (r & rt' & Heq & Hrt' & Hq & Hr). unfold op_try. rewrite Heq.
  by eexists _, _.
Qed.

Lemma begins_store {A} n (m : StoreOp A) (Q : A → Nd → Prop) :
  (∀ d, dir_view (nd_pending n) (nd_sent n) d = n →
     sdoes name d m (λ a d', let n' := dir_view (nd_pending n) (nd_sent n) d' in started n n' ∧ Q a n')
       (λ d', started n (dir_view (nd_pending n) (nd_sent n) d'))) →
  begins cl n (fabric_stream_store_mut m) Q.
Proof.
  intros Hm rt (Hi & Hc & Ht & store & Hs & Hn) Hv.
  assert (nd_pending n = rt_pending rt ∧ nd_sent n = sent_packets rt) as [Hp Hse] by (by rewrite <-Hv).
  destruct (Hm (fs_stream store)) with (s := store) as (r & store' & Heq & Hn' & Hr); [|done|done|].
  { rewrite Hp, Hse. by rewrite <-Hv; unfold view; rewrite Hs. }
  unfold fabric_stream_store_mut. rewrite Hs, Heq. rewrite Hp, Hse in Hr. eexists _, _. split_and!; [done| | |].
  - split_and!; [done|done|done|]. by exists store'.
  - unfold view. simpl. destruct r; [by destruct Hr|done].
  - destruct r; [by destruct Hr|done].
Qed.

Lemma does_store {A} n (m : StoreOp A) (Q : A → Nd → Prop) :
  (∀ d, dir_view (nd_pending n) (nd_sent n) d = n →
     sdoes name d m (λ a d', let n' := dir_view (nd_pending n) (nd_sent n) d' in quiet n n' ∧ Q a n')
       (λ d', quiet n (dir_view (nd_pending n) (nd_sent n) d'))) →
  does cl n (fabric_stream_store_mut m) Q.
Proof.
  intros Hm rt (Hi & Hc & Ht & store & Hs & Hn) Hv.
  assert (nd_pending n = rt_pending rt ∧ nd_sent n = sent_packets rt) as [Hp Hse] by (by rewrite <-Hv).
  destruct (Hm (fs_stream store)) with (s := store) as (r & store' & Heq & Hn' & Hr); [|done|done|].
  { rewrite Hp, Hse. by rewrite <-Hv; unfold view; rewrite Hs. }
  unfold fabric_stream_store_mut. rewrite Hs, Heq. rewrite Hp, Hse in Hr. eexists _, _. split_and!; [done| | |].
  - split_and!; [done|done|done|]. by exists store'.
  - unfold view. simpl. destruct r; [by destruct Hr|done].
  - destruct r; [by destruct Hr|done].
Qed.
End rules.
End runtime.

