(* ===== verification/FabricCalls.v ===== *)
(** * Fabric streams: the calls on the store, as steps of the protocol *)
From Stdlib Require Import String.
From S2P Require Import Prelude Bytes Text FabricStore FabricCluster FabricEpoch FabricProtocol FabricLogic.

Local Open Scope list_scope.
Local Open Scope N_scope.

Section calls.
Context (name : bytes) (p0 : Policy) (i : N) (net : Envelope → Prop) (cl : option ClusterState).

Abbreviation quiet := (rtc (pstep p0 i net)).
Abbreviation step := (pstep p0 i net).
Abbreviation does := (does name p0 i net cl).
Abbreviation sdoes := (sdoes name).

(** ** Reading *)

Lemma does_reads {A} n (m : StoreOp A) (R : A → StreamDir → Prop) (Q : A → Nd → Prop) :
  (∀ d (E : StreamDir → Prop), E d → sdoes d m (λ a d', d' = d ∧ R a d) E) →
  (∀ a d, dir_view (nd_pending n) (nd_sent n) d = n → R a d → Q a n) →
  does n (fabric_stream_store_mut m) (λ a n', n' = n ∧ Q a n).
Proof.
  intros Hm HQ. apply does_store. intros d Hd. eapply sdoes_post; [apply Hm; by rewrite Hd|].
  intros a d' [-> HR]. simpl. rewrite Hd. split_and!; [done|done|by eapply HQ].
Qed.

Lemma does_policy n : does n fabric_stream_replication_policy (λ a n', n' = n ∧ a = nd_policy n).
Proof. apply (does_reads n _ (λ a d, a = sd_policy d) (λ a n, a = nd_policy n)); [intros; by apply sdoes_replication_policy|]. by intros a d <- ->. Qed.

Lemma does_promise n : does n fabric_stream_epoch_promise (λ a n', n' = n ∧ a = nd_promise n).
Proof. apply (does_reads n _ (λ a d, a = sd_promise d) (λ a n, a = nd_promise n)); [intros; by apply sdoes_epoch_promise|]. by intros a d <- ->. Qed.

Lemma does_transition n : does n fabric_stream_epoch_transition_state (λ a n', n' = n ∧ a = nd_transition n).
Proof. apply (does_reads n _ (λ a d, a = sd_transition d) (λ a n, a = nd_transition n)); [intros; by apply sdoes_epoch_transition|]. by intros a d <- ->. Qed.

Lemma does_committed n : does n fabric_stream_committed_sequence (λ a n', n' = n ∧ a = nd_commit n).
Proof. apply (does_reads n _ (λ a d, a = sd_commit d) (λ a n, a = nd_commit n)); [intros; by apply sdoes_committed_sequence|]. by intros a d <- ->. Qed.

Lemma does_config n : does n fabric_stream_config (λ _ n', n' = n).
Proof.
  eapply does_post; [eapply (does_reads _ _ (λ _ _, True) (λ _ _, True)); [|done]|by intros ? ? _ [-> _]].
  intros d E HE. eapply sdoes_post; [by apply sdoes_stream_config|]. by intros ? ? ->.
Qed.

(** What [stream_info] tells. *)
Definition info_of (n : Nd) (info : FabricStreamInfo) : Prop :=
  default 0 (info_last_sequence info) = len (nd_log n) ∧ (info_last_sequence info = None → nd_log n = []) ∧
  info_next_sequence info = len (nd_log n) + 1 ∧ info_committed_sequence info = nd_commit n.

Lemma does_info n : does n fabric_stream_info (λ info n', n' = n ∧ info_of n info).
Proof.
  apply (does_reads n _ _ (λ info n, info_of n info) (λ d E HE, sdoes_stream_info name d E HE)). intros info d <- (Hl & Hn & Hc). unfold info_of. simpl.
  rewrite Hl. unfold last_sequence. destruct (sd_log d); done.
Qed.

Lemma does_read n start limit : does n (fabric_stream_read start limit)
  (λ rs n', n' = n ∧ Forall (λ r, start ≤ rec_sequence r ∧ in_log (nd_log n) r) rs).
Proof.
  apply (does_reads n _ _ (λ rs n, Forall (λ r, start ≤ rec_sequence r ∧ in_log (nd_log n) r) rs)
    (λ d E HE, sdoes_read_from name d E HE start limit)). by intros a d <-.
Qed.

Lemma does_read_committed n start limit : does n (fabric_stream_read_committed start limit)
  (λ rs n', n' = n ∧ Forall (λ r, rec_sequence r ≤ nd_commit n ∧ in_log (nd_log n) r) rs).
Proof.
  apply (does_reads n _ _ (λ rs n, Forall (λ r, rec_sequence r ≤ nd_commit n ∧ in_log (nd_log n) r) rs)
    (λ d E HE, sdoes_read_committed name d E HE start limit)). by intros a d <-.
Qed.

Lemma does_intents n : does n fabric_stream_pending_replication_intents (λ _ n', n' = n).
Proof.
  eapply does_post; [eapply (does_reads _ _ (λ _ _, True) (λ _ _, True)); [|done]|by intros ? ? _ [-> _]].
  intros d E HE. eapply sdoes_post; [by apply sdoes_intents|]. by intros ? ? ->.
Qed.

Lemma does_progress n r : does n (fabric_stream_replica_progress r) (λ _ n', n' = n).
Proof.
  eapply does_post; [eapply (does_reads _ _ (λ _ _, True) (λ _ _, True)); [|done]|by intros ? ? _ [-> _]].
  intros d E HE. eapply sdoes_post; [by apply sdoes_progress|]. by intros ? ? ->.
Qed.

(** ** Writing what the protocol does not see *)

Lemma same_log_view n d d' : dir_view (nd_pending n) (nd_sent n) d = n → same_log d d' →
  dir_view (nd_pending n) (nd_sent n) d' = n.
Proof. intros Hd (H1 & H2 & H3 & H4 & H5). rewrite <-Hd at 3. unfold dir_view. congruence. Qed.

Lemma does_unseen {A} n (m : StoreOp A) :
  (∀ d (E : StreamDir → Prop), E d → (∀ d', same_log d d' → E d') → sdoes d m (λ _ d', same_log d d') E) →
  does n (fabric_stream_store_mut m) (λ _ n', n' = n).
Proof.
  intros Hm. apply does_store. intros d Hd. eapply sdoes_post; [apply Hm|].
  - by rewrite Hd.
  - intros d' Hd'. by rewrite (same_log_view n d d').
  - intros a d' Hd'. simpl. by rewrite (same_log_view n d d').
Qed.

Lemma does_reserve n intent : does n (fabric_stream_reserve_replication_intent intent) (λ _ n', n' = n).
Proof. apply does_unseen. intros. by apply sdoes_reserve. Qed.

Lemma does_remove_intent n s : does n (fabric_stream_remove_replication_intent s) (λ _ n', n' = n).
Proof. apply does_unseen. intros. by apply sdoes_remove_intent. Qed.

Lemma does_record_progress n r s : does n (fabric_stream_record_replica_progress r s) (λ _ n', n' = n).
Proof. apply does_unseen. intros. by apply sdoes_record_progress. Qed.

Lemma does_commit_cursor n consumer s : does n (fabric_stream_store_mut (commit_cursor consumer s)) (λ _ n', n' = n).
Proof. apply does_unseen. intros. by apply sdoes_commit_cursor. Qed.

Lemma does_create n config : does n (fabric_stream_store_mut (create_stream config)) (λ _ n', n' = n).
Proof.
  apply does_unseen. intros d E HE HE'. eapply sdoes_post; [apply sdoes_create; [done|]|].
  - intros _. by apply HE'.
  - by intros ? ? ->.
Qed.

(** ** Writing *)

Lemma does_commit n s : (s ≤ len (nd_log n) → quiet n (with_commit s n)) →
  does n (fabric_stream_commit_through s) (λ _ n', s ≤ len (nd_log n) ∧ n' = with_commit s n).
Proof.
  intros Hs. apply does_store. intros d Hd.
  assert (nd_log n = sd_log d ∧ nd_commit n = sd_commit d) as [Hl Hc] by (by rewrite <-Hd).
  assert (dir_view (nd_pending n) (nd_sent n) (set_commit s d) = with_commit s n) as Hv by (rewrite <-Hd; done).
  eapply sdoes_post; [apply sdoes_commit_through; [by rewrite Hd|]|].
  - intros H. rewrite Hv. apply Hs. by rewrite Hl.
  - intros a d' (H & [[-> ->]| ->]); simpl.
    + rewrite Hd, Hl, <-Hc. split_and!; [done|by rewrite Hc|]. by destruct n.
    + rewrite Hv, Hl in *. auto.
Qed.

Lemma does_establish n π : (nd_policy n = None → bad_policy π = false → step n (with_policy (Some π) n)) →
  does n (fabric_stream_establish_replication_policy π) (λ a n', a = π ∧ n' = with_policy (Some π) n).
Proof.
  intros Hs. apply does_store. intros d Hd. assert (nd_policy n = sd_policy d) as Hp by (by rewrite <-Hd).
  assert (dir_view (nd_pending n) (nd_sent n) (set_policy (Some π) d) = with_policy (Some π) n) as Hv by (rewrite <-Hd; done).
  eapply sdoes_post; [apply sdoes_establish; [by rewrite Hd|]|].
  - intros H H'. rewrite Hv. apply rtc_once, Hs; [by rewrite Hp|done].
  - intros a d' (-> & [[-> Hpi]|(H & H' & ->)]); simpl.
    + rewrite Hd. split_and!; [done|done|]. destruct n; simpl in *. by rewrite Hp, Hpi.
    + rewrite Hv. split_and!; [|done|done]. apply rtc_once, Hs; [by rewrite Hp|done].
Qed.

Lemma does_promise_epoch n e h :
  ((∀ pr, nd_promise n = Some pr → prm_epoch pr < e) → step n (with_promise (Some (mkPromise e h)) n)) →
  does n (fabric_stream_promise_epoch e h) (λ _ n', n' = with_promise (Some (mkPromise e h)) n).
Proof.
  intros Hs. apply does_store. intros d Hd. assert (nd_promise n = sd_promise d) as Hp by (by rewrite <-Hd).
  assert (dir_view (nd_pending n) (nd_sent n) (set_promise (Some (mkPromise e h)) d) =
    with_promise (Some (mkPromise e h)) n) as Hv by (rewrite <-Hd; done).
  eapply sdoes_post; [apply sdoes_promise_epoch; [by rewrite Hd|]|].
  - intros H. rewrite Hv. apply rtc_once, Hs. by rewrite Hp.
  - intros a d' [[-> Hpi]|(H & ->)]; simpl.
    + rewrite Hd. split_and!; [done|]. destruct n; simpl in *. by rewrite Hp, Hpi.
    + rewrite Hv. split_and!; [|done]. apply rtc_once, Hs. by rewrite Hp.
Qed.

Lemma does_record_vote n v :
  (∀ T, nd_transition n = Some T → vote_fits v T → step n (with_transition (Some (with_vote v T)) n)) →
  does n (fabric_stream_record_epoch_vote v) (λ T n', n' = with_transition (Some T) n ∧
    ∃ T0, nd_transition n = Some T0 ∧ tr_proposal T = tr_proposal T0).
Proof.
  intros Hs. apply does_store. intros d Hd. assert (nd_transition n = sd_transition d) as Hp by (by rewrite <-Hd).
  assert (∀ T, dir_view (nd_pending n) (nd_sent n) (set_transition T d) = with_transition T n) as Hv by (rewrite <-Hd; done).
  eapply sdoes_post; [apply sdoes_record_vote; [by rewrite Hd|]|].
  - intros T HT Hf. rewrite Hv. apply rtc_once, Hs; [by rewrite Hp|done].
  - intros T d' [[-> HT]|(T0 & HT & Hf & -> & ->)]; simpl.
    + rewrite Hd. split_and!; [done| |exists T; by rewrite Hp]. destruct n; simpl in *. by rewrite Hp, HT.
    + rewrite Hv. split_and!; [|done|exists T0; by rewrite Hp]. apply rtc_once, Hs; [by rewrite Hp|done].
Qed.

Lemma does_finalize n qc :
  (∀ T, nd_transition n = Some T → tr_finalized T = false →
     step n (with_transition (Some (mkTransition (tr_proposal T) (tr_votes T) true qc)) n)) →
  does n (fabric_stream_finalize_epoch_transition_state qc) (λ T n', n' = with_transition (Some T) n ∧
    tr_finalized T = true ∧ ∃ T0, nd_transition n = Some T0 ∧ tr_proposal T = tr_proposal T0).
Proof.
  intros Hs. apply does_store. intros d Hd. assert (nd_transition n = sd_transition d) as Hp by (by rewrite <-Hd).
  assert (∀ T, dir_view (nd_pending n) (nd_sent n) (set_transition T d) = with_transition T n) as Hv by (rewrite <-Hd; done).
  eapply sdoes_post; [apply sdoes_finalize; [by rewrite Hd|]|].
  - intros T HT Hf. rewrite Hv. apply rtc_once, Hs; [by rewrite Hp|done].
  - intros T d' [(-> & HT & Hf)|(T0 & HT & Hf & -> & ->)]; simpl.
    + rewrite Hd. split_and!; [done| |done|exists T; by rewrite Hp]. destruct n; simpl in *. by rewrite Hp, HT.
    + rewrite Hv. split_and!; [|done|done|exists T0; by rewrite Hp]. apply rtc_once, Hs; [by rewrite Hp|done].
Qed.

Lemma does_install n from to h :
  (nd_policy n = Some from → nd_promise n = Some (mkPromise (pol_epoch to) h) → step n (with_policy (Some to) n)) →
  does n (fabric_stream_install_epoch_policy from to h) (λ _ n', n' = with_policy (Some to) n).
Proof.
  intros Hs. apply does_store. intros d Hd.
  assert (nd_policy n = sd_policy d ∧ nd_promise n = sd_promise d) as [Hp Hr] by (by rewrite <-Hd).
  assert (dir_view (nd_pending n) (nd_sent n) (set_policy (Some to) d) = with_policy (Some to) n) as Hv by (rewrite <-Hd; done).
  eapply sdoes_post; [apply sdoes_install; [by rewrite Hd|]|].
  - intros H H'. rewrite Hv. apply rtc_once, Hs; [by rewrite Hp|by rewrite Hr].
  - intros a d' [[-> Hpi]|(H & H' & ->)]; simpl.
    + rewrite Hd. split_and!; [done|]. destruct n; simpl in *. by rewrite Hp, Hpi.
    + rewrite Hv. split_and!; [|done]. apply rtc_once, Hs; [by rewrite Hp|by rewrite Hr].
Qed.

(** ** Appending *)

Lemma longer_log_view n d d' v : dir_view (nd_pending n) (nd_sent n) d = n → longer_log v d d' →
  dir_view (nd_pending n) (nd_sent n) d' = with_log (nd_log n ++ [v]) n.
Proof. intros Hd (H1 & H2 & H3 & H4 & H5). rewrite <-Hd. unfold dir_view, with_log. simpl. congruence. Qed.

Lemma does_append_replica n s v :
  (s = len (nd_log n) + 1 → step n (with_log (nd_log n ++ [v]) n)) →
  does n (fabric_stream_store_mut (append_replica s v)) (λ b n',
    (b = false ∧ n' = n ∧ log_at (nd_log n) s = Some v) ∨
    (b = true ∧ s = len (nd_log n) + 1 ∧ n' = with_log (nd_log n ++ [v]) n)).
Proof.
  intros Hs. apply does_store. intros d Hd. assert (nd_log n = sd_log d) as Hl by (by rewrite <-Hd).
  eapply sdoes_post; [apply sdoes_append_replica; [by rewrite Hd| |]|].
  - intros d' H. by rewrite (same_log_view n d d').
  - intros d' H H'. rewrite (longer_log_view n d d' v) by done. apply rtc_once, Hs. by rewrite Hl.
  - intros b d' [(-> & -> & H)|(-> & H & H')]; simpl.
    + rewrite Hd, Hl. split; [done|auto].
    + rewrite (longer_log_view n d d' v) by done. rewrite <-Hl in H. split; [by apply rtc_once, Hs|auto].
Qed.

Lemma does_append_reserved n s v :
  (s = len (nd_log n) + 1 → step n (with_log (nd_log n ++ [v]) n)) →
  does n (fabric_stream_append_reserved_replica s v) (λ _ n',
    s = len (nd_log n) + 1 ∧ n' = with_log (nd_log n ++ [v]) n).
Proof.
  intros Hs. apply does_store. intros d Hd. assert (nd_log n = sd_log d) as Hl by (by rewrite <-Hd).
  eapply sdoes_post; [apply sdoes_append_reserved; [by rewrite Hd| |]|].
  - intros d' H. by rewrite (same_log_view n d d').
  - intros d' H H'. rewrite (longer_log_view n d d' v) by done. apply rtc_once, Hs. by rewrite Hl.
  - intros b d' [H H']; simpl. rewrite (longer_log_view n d d' v) by done. rewrite <-Hl in H. split; [by apply rtc_once, Hs|auto].
Qed.

Lemma does_append n v :
  step n (with_log (nd_log n ++ [v]) n) →
  does n (fabric_stream_append v) (λ s n', s = len (nd_log n) + 1 ∧ n' = with_log (nd_log n ++ [v]) n).
Proof.
  intros Hs. apply does_store. intros d Hd. assert (nd_log n = sd_log d) as Hl by (by rewrite <-Hd).
  eapply sdoes_post; [apply sdoes_append; [by rewrite Hd| |]|].
  - intros d' H. by rewrite (same_log_view n d d').
  - intros d' H'. rewrite (longer_log_view n d d' v) by done. by apply rtc_once, Hs.
  - intros b d' [H H']; simpl. rewrite (longer_log_view n d d' v) by done. rewrite <-Hl in H. split; [by apply rtc_once, Hs|auto].
Qed.
End calls.
