(* ===== verification/FabricRefine.v ===== *)
(** * Fabric streams: replication runs as steps of the protocol *)
From Stdlib Require Import String.
From S2P Require Import Prelude Bytes Text FabricStore FabricCluster FabricEpoch FabricProtocol FabricLogic FabricCalls.

Local Open Scope list_scope.
Local Open Scope N_scope.

(** ** Placements *)

Section placements.
Context (blake3 : bytes → bytes).

Lemma candidates_NoDup local cluster : NoDup (candidates_of local cluster).
Proof.
  unfold candidates_of. destruct cluster as [cluster|]; [|apply NoDup_singleton].
  rewrite merge_sort_Permutation. apply NoDup_filter, NoDup_elements.
Qed.

Lemma placement_total local cluster stream partition rf :
  ∃ r, compute_stream_placement blake3 local cluster stream partition rf = Some r.
Proof.
  unfold compute_stream_placement. case_match; [by eexists|]. case_match eqn:Hrf; [by eexists|]. cbv zeta.
  case_match eqn:Hlen; [by eexists|]. case_match eqn:Hr; [|by eexists]. exfalso.
  apply (f_equal length) in Hr. rewrite length_take, merge_sort_Permutation in Hr. apply N.eqb_neq in Hrf.
  apply N.ltb_ge in Hlen. unfold len in Hlen. simpl in Hr. lia.
Qed.

Lemma placement_good local cluster stream partition rf placement epoch :
  compute_stream_placement blake3 local cluster stream partition rf = Some (Ok placement) →
  good_policy (policy_from_placement placement epoch) ∧ len (pl_replicas placement) = rf.
Proof.
  unfold compute_stream_placement. case_match; [done|]. case_match; [done|]. cbv zeta. case_match eqn:Hlen; [done|].
  apply N.ltb_ge in Hlen. case_match eqn:Hr; [done|]. intros [= <-]. rewrite <-Hr. unfold good_policy. simpl. split_and!.
  - eapply sublist_NoDup; [|apply sublist_take]. rewrite merge_sort_Permutation. apply candidates_NoDup.
  - done.
  - rewrite Hr. apply list_elem_of_here.
  - unfold len in *. rewrite length_take, merge_sort_Permutation. lia.
Qed.
End placements.

(** Everything but the committed boundary, the tickets and the packets is the same. *)
Definition frame (n n' : Nd) : Prop :=
  nd_log n' = nd_log n ∧ nd_policy n' = nd_policy n ∧ nd_promise n' = nd_promise n ∧ nd_transition n' = nd_transition n.

#[global] Instance frame_preorder : PreOrder frame.
Proof. split; unfold frame; [done|]. intros n n1 n2 (H1 & H2 & H3 & H4) (? & ? & ? & ?). split_and!; congruence. Qed.

Section basics.
Context (name : bytes) (p0 : Policy) (i : N) (net : Envelope → Prop).
Context (blake3 : bytes → bytes) (append_json : FabricStreamReplicaAppend → bytes).

Abbreviation quiet := (rtc (pstep p0 i net)).
Abbreviation step := (pstep p0 i net).
Abbreviation does := (does name p0 i net).

Section local.
Context (cl : option ClusterState).

Lemma does_local n : does cl n local_node (λ a n', n' = n ∧ a = i).
Proof.
  unfold local_node. eapply does_bind; [apply (does_gets _ _ _ _ _ _ _ (λ a n', n' = n ∧ a = Some i)); by intros rt (H & _) _|].
  intros a n' _ [-> ->]. by apply does_ret.
Qed.

Lemma does_cluster n : does cl n (op_gets rt_cluster) (λ a n', n' = n ∧ a = cl).
Proof. apply does_gets. by intros rt (_ & H & _) _. Qed.

Lemma does_node_id n : does cl n (op_gets rt_node_id) (λ a n', n' = n ∧ a = Some i).
Proof. apply does_gets. by intros rt (H & _) _. Qed.

Lemma does_pending n : does cl n (op_gets rt_pending) (λ a n', n' = n ∧ a = nd_pending n).
Proof. apply does_gets. by intros rt _ <-. Qed.

Lemma does_gets_any {A} n (f : Runtime → A) : does cl n (op_gets f) (λ _ n', n' = n).
Proof. by apply does_gets. Qed.

Lemma does_name n : does cl n stream_name (λ a n', n' = n ∧ a = name).
Proof. apply does_gets. intros rt (_ & _ & _ & store & Hs & Hn) _. by rewrite Hs. Qed.

Lemma does_need_transport n : does cl n need_transport (λ _ n', n' = n).
Proof.
  unfold need_transport. eapply does_bind; [apply does_gets_any|]. intros a n' _ ->.
  eapply does_post; [apply does_guard|]. by intros ? ? _ [-> _].
Qed.

Lemma does_expect {A} n (o : option A) : is_Some o → does cl n (op_expect o) (λ a n', n' = n ∧ o = Some a).
Proof. intros [a ->]. by apply does_ret. Qed.

(** A change that the protocol does not see. *)
Lemma does_hidden n (f : Runtime → Runtime) :
  (∀ rt, rt_node_id (f rt) = rt_node_id rt ∧ rt_fabric_streams (f rt) = rt_fabric_streams rt ∧
     rt_cluster (f rt) = rt_cluster rt ∧ rt_transport (f rt) = rt_transport rt ∧ rt_pending (f rt) = rt_pending rt) →
  does cl n (op_modify f) (λ _ n', n' = n).
Proof.
  intros Hf. apply does_modify; [|done]. intros rt Hrt Hv. destruct (Hf rt) as (H1 & H2 & H3 & H4 & H5).
  unfold runs_on, view, sent_packets in *. by rewrite H1, H2, H3, H4, H5.
Qed.

Lemma does_compute n local cluster partition rf :
  does cl n (compute_placement blake3 local cluster partition rf) (λ pl n', n' = n ∧
    compute_stream_placement blake3 local cluster name partition rf = Some (Ok pl)).
Proof.
  intros rt Hrt Hv. unfold compute_placement. pose proof Hrt as (_ & _ & _ & store & Hs & Hn). rewrite Hs, Hn.
  destruct (placement_total blake3 local cluster name partition rf) as [r Hr]. rewrite Hr. eexists _, _.
  split_and!; [done|done|by rewrite Hv|]. by destruct r.
Qed.

Lemma does_placement n partition rf :
  does cl n (fabric_stream_placement blake3 partition rf) (λ pl n', n' = n ∧
    compute_stream_placement blake3 i cl name partition rf = Some (Ok pl)).
Proof.
  unfold fabric_stream_placement. eapply does_bind; [apply does_local|]. intros ? ? _ [-> ->].
  eapply does_bind; [apply does_cluster|]. intros ? ? _ [-> ->]. apply does_compute.
Qed.

(** ** Sending *)

Lemma may_send_sent n sent e : may_send i n e → may_send i (with_sent sent n) e.
Proof. done. Qed.

Lemma does_send n sender to packet : may_send i n (mkEnvelope i to sender packet) →
  does cl n (send sender to packet) (λ _ n', n' = with_sent (nd_sent n ++ [mkEnvelope i to sender packet]) n).
Proof.
  intros Hs. apply does_modify; [|by apply rtc_once, PSend].
  intros rt (Hi & Hc & [tp Ht] & store & Hst & Hn) Hv. rewrite Ht, Hi. split.
  - split_and!; [done|done|by eexists|]. by exists store.
  - rewrite <-Hv. unfold view, sent_packets. simpl. by rewrite Ht.
Qed.

Lemma does_send_all {A} n (f : A → RtOp unit) sender (to : A → N) (packet : A → Packet) l :
  (∀ a, a ∈ l → f a = send sender (to a) (packet a)) →
  (∀ a, a ∈ l → may_send i n (mkEnvelope i (to a) sender (packet a))) →
  does cl n (op_each f l) (λ _ n', ∃ sent, n' = with_sent sent n).
Proof.
  intros Hf Hs. apply does_each; [by exists (nd_sent n); destruct n|].
  intros a n' Ha [sent ->]. rewrite Hf by done. eapply does_post; [by apply does_send, may_send_sent, Hs|].
  intros ? ? _ ->. by eexists.
Qed.

Lemma sent_frame n sent : frame n (with_sent sent n).
Proof. done. Qed.
End local.

End basics.

(** Reads the facts off the checks that have passed. *)
Ltac checks :=
  repeat match goal with
  | H : _ || _ = false |- _ => apply orb_false_iff in H as [? ?]
  | H : _ && _ = true |- _ => apply andb_true_iff in H as [? ?]
  | H : negb _ = false |- _ => apply negb_false_iff in H
  | H : bool_decide _ = true |- _ => apply bool_decide_eq_true in H
  | H : bool_decide _ = false |- _ => apply bool_decide_eq_false in H
  | H : (_ =? _) = true |- _ => apply N.eqb_eq in H
  | H : (_ =? _) = false |- _ => apply N.eqb_neq in H
  | H : (_ <=? _) = true |- _ => apply N.leb_le in H
  | H : (_ <=? _) = false |- _ => apply N.leb_gt in H
  | H : (_ <? _) = true |- _ => apply N.ltb_lt in H
  | H : (_ <? _) = false |- _ => apply N.ltb_ge in H
  end.

(** The first call of a sequence is done before the rest. *)
Ltac dbind := first [eapply does_bind | eapply begins_bind].
Ltac dret := try apply begins_does.

(** Runs the first call of a sequence. *)
Ltac dstep :=
  let m := lazymatch goal with
    | |- FabricLogic.does _ _ _ _ _ _ ?m _ => m
    | |- FabricLogic.begins _ _ _ _ _ _ ?m _ => m
    end in
    lazymatch m with
    | mbind _ (op_guard _ _) => dbind; [apply does_guard|intros ? ? _ [-> ?]; checks]
    | mbind _ (op_some _ _) => dbind; [apply does_some|intros ? ? _ [-> ?]]
    | mbind _ (op_result _) => dbind; [apply does_result|intros ? ? _ [-> ?]]
    | mbind _ local_node => dbind; [apply does_local|intros ? ? _ [-> ->]]
    | mbind _ stream_name => dbind; [apply does_name|intros ? ? _ [-> ->]]
    | mbind _ (op_gets rt_cluster) => dbind; [apply does_cluster|intros ? ? _ [-> ->]]
    | mbind _ (op_gets rt_node_id) => dbind; [apply does_node_id|intros ? ? _ [-> ->]]
    | mbind _ (op_gets rt_pending) => dbind; [apply does_pending|intros ? ? _ [-> ->]]
    | mbind _ (op_gets _) => dbind; [apply does_gets_any|intros ? ? _ ->]
    | mbind _ need_transport => dbind; [apply does_need_transport|intros ? ? _ ->]
    | mbind _ (compute_placement _ _ _ _ _) => dbind; [apply does_compute|intros ? ? _ [-> ?]]
    | mbind _ (fabric_stream_placement _ _ _) => dbind; [apply does_placement|intros ? ? _ [-> ?]]
    | mbind _ fabric_stream_replication_policy => dbind; [apply does_policy|intros ? ? _ [-> ->]]
    | mbind _ fabric_stream_epoch_promise => dbind; [apply does_promise|intros ? ? _ [-> ->]]
    | mbind _ fabric_stream_epoch_transition_state => dbind; [apply does_transition|intros ? ? _ [-> ->]]
    | mbind _ fabric_stream_committed_sequence => dbind; [apply does_committed|intros ? ? _ [-> ->]]
    | mbind _ fabric_stream_config => dbind; [apply does_config|intros ? ? _ ->]
    | mbind _ fabric_stream_info => dbind; [apply does_info|intros ? ? _ [-> ?]]
    | mbind _ (fabric_stream_read _ _) => dbind; [apply does_read|intros ? ? _ [-> ?]]
    | mbind _ (fabric_stream_read_committed _ _) => dbind; [apply does_read_committed|intros ? ? _ [-> ?]]
    | mbind _ fabric_stream_pending_replication_intents => dbind; [apply does_intents|intros ? ? _ ->]
    | mbind _ (fabric_stream_replica_progress _) => dbind; [apply does_progress|intros ? ? _ ->]
    | mbind _ (fabric_stream_reserve_replication_intent _) => dbind; [apply does_reserve|intros ? ? _ ->]
    | mbind _ (fabric_stream_remove_replication_intent _) => dbind; [apply does_remove_intent|intros ? ? _ ->]
    | mbind _ (fabric_stream_record_replica_progress _ _) => dbind; [apply does_record_progress|intros ? ? _ ->]
    | mret _ => dret; apply does_ret
    | op_fail _ => dret; apply does_fail
    end.

Section refine.
Context (name : bytes) (p0 : Policy) (i : N) (net : Envelope → Prop).
Context (blake3 : bytes → bytes) (append_json : FabricStreamReplicaAppend → bytes).

Abbreviation quiet := (rtc (pstep p0 i net)).
Abbreviation step := (pstep p0 i net).
Abbreviation does := (does name p0 i net).

(** ** Policies *)

Section policies.
Context (cl : option ClusterState).

Lemma fenced_unfenced n π : fenced (nd_promise n) (pol_epoch π) = false → unfenced n π.
Proof. unfold fenced, unfenced. intros H pr Hpr. rewrite Hpr in H. by apply N.ltb_ge. Qed.

Lemma does_validate n partition rf epoch :
  does cl n (fabric_stream_validate_installed_policy partition rf epoch) (λ a n', n' = n ∧
    ∃ π, nd_policy n = Some π ∧ a = (fabric_stream_placement_from_policy π, π) ∧ pol_epoch π = epoch ∧
      pol_replication_factor π = rf ∧ unfenced n π).
Proof.
  unfold fabric_stream_validate_installed_policy. repeat dstep. split; [done|]. eexists. split_and!; try done.
  apply fenced_unfenced. congruence.
Qed.

Lemma does_current n partition rf :
  does cl n (fabric_stream_current_installed_policy_placement partition rf) (λ a n', n' = n ∧
    ∃ π, nd_policy n = Some π ∧ a = (fabric_stream_placement_from_policy π, π) ∧
      pol_replication_factor π = rf ∧ unfenced n π).
Proof.
  unfold fabric_stream_current_installed_policy_placement. repeat dstep. eapply does_post; [apply does_validate|].
  intros ? ? _ (-> & π & ? & ? & ? & ? & ?). eauto 10.
Qed.

(** A node that has no policy gets that of the first epoch. *)
Lemma does_policy_for n placement epoch :
  (nd_policy n = None → epoch = 1 → policy_from_placement placement 1 = p0 ∧ good_policy p0) →
  does cl n (fabric_stream_policy_for_placement placement epoch) (λ π n', n' = with_policy (Some π) n ∧
    π = policy_from_placement placement epoch ∧ unfenced n π).
Proof.
  intros Hboot. unfold fabric_stream_policy_for_placement. cbv zeta. repeat dstep. destruct (nd_policy n) as [π|] eqn:Hp.
  - case_match eqn:Heq; [|dstep]. checks. subst. dstep. split_and!; [by destruct n; simpl in *; subst|done|].
    by apply fenced_unfenced.
  - case_match eqn:Heq; [|dstep]. checks. unfold FABRIC_STREAM_INITIAL_EPOCH in Heq. subst. repeat dstep.
    destruct (Hboot eq_refl eq_refl) as [Hp0 Hgood]. rewrite Hp0 in *. assert (pol_epoch p0 = 1) as Hone by (by rewrite <-Hp0).
    eapply does_post; [apply does_establish|].
    + intros _ Hb. by apply PEstablish.
    + intros ? ? _ [-> ->]. split_and!; [done|done|]. apply fenced_unfenced. by rewrite Hone.
Qed.

(** Whatever placement the node computes when it has no policy is that of the first epoch. *)
Definition boots (n : Nd) (cluster : option ClusterState) (partition rf : N) : Prop :=
  nd_policy n = None → ∀ placement, compute_stream_placement blake3 i cluster name partition rf = Some (Ok placement) →
    policy_from_placement placement 1 = p0.

Lemma does_current_or_bootstrap n partition rf : boots n cl partition rf →
  does cl n (fabric_stream_current_or_bootstrap_policy_placement blake3 partition rf) (λ a n',
    ∃ π, a = (fabric_stream_placement_from_policy π, π) ∧ n' = with_policy (Some π) n ∧
      pol_replication_factor π = rf ∧ unfenced n π).
Proof.
  intros Hboot. unfold fabric_stream_current_or_bootstrap_policy_placement. dstep. destruct (nd_policy n) as [π|] eqn:Hp.
  - eapply does_post; [apply does_validate|]. intros ? ? _ (-> & π' & Hp' & -> & ? & ? & ?). rewrite Hp in Hp'.
    injection Hp' as <-. exists π. split_and!; [done| |done|done]. by destruct n; simpl in *; subst.
  - dstep. rename a into placement. destruct (placement_good _ _ _ _ _ _ _ 1 H) as [Hgood Hrf].
    eapply does_bind; [apply does_policy_for|].
    + intros _ _. pose proof (Hboot Hp placement H) as Heq. split; [done|]. by rewrite <-Heq.
    + intros ? ? _ (-> & -> & Hu). dstep. eexists. split_and!; [|done|done|done]. by destruct placement.
Qed.
End policies.

(** ** Sending records and boundaries *)

Section sending.
Context (cl : option ClusterState).

Lemma does_dispatch_append n placement append : log_at (nd_log n) (app_sequence append) = Some (app_payload append) →
  does cl n (fabric_stream_dispatch_replica_append append_json placement append) (λ _ n', ∃ sent, n' = with_sent sent n).
Proof.
  intros Hlog. unfold fabric_stream_dispatch_replica_append. cbv zeta. dstep.
  eapply does_bind; [apply does_validate|]. intros ? ? _ (-> & π & Hp & -> & He & Hrf & Hu). simpl.
  repeat dstep. assert (pol_leader π = pl_leader placement) as Hld
    by (by match goal with H : _ = placement |- _ => rewrite <-H end).
  case_match eqn:Ht; [dstep; by exists (nd_sent n); destruct n|]. rewrite <-Ht. dstep.
  eapply does_bind; [eapply (does_send_all _ _ _ _ _ _ _ i (λ node, node) (λ _, ReplicaPacket append)); [done|]|].
  - intros node _. split; [done|]. simpl. exists π. split_and!; [done|split; congruence|congruence|done].
  - intros ? ? _ [sent ->]. dstep. by eexists.
Qed.

Lemma does_dispatch_to n target append : log_at (nd_log n) (app_sequence append) = Some (app_payload append) →
  does cl n (fabric_stream_dispatch_replica_to append_json target append) (λ _ n', ∃ sent, n' = with_sent sent n).
Proof.
  intros Hlog. unfold fabric_stream_dispatch_replica_to.
  eapply does_bind; [apply does_validate|]. intros ? ? _ (-> & π & Hp & -> & He & Hrf & Hu). simpl.
  repeat dstep. case_match; [|dstep; by exists (nd_sent n); destruct n]. repeat dstep.
  eapply does_bind; [apply does_send|].
  - split; [done|]. simpl. exists π. split_and!; [done|by split|congruence|done].
  - intros ? ? _ ->. dstep. by eexists.
Qed.

Lemma does_dispatch_commit n target placement c : c ≤ nd_commit n →
  does cl n (fabric_stream_dispatch_commit_update_to target placement c) (λ _ n', ∃ sent, n' = with_sent sent n).
Proof.
  intros Hc. unfold fabric_stream_dispatch_commit_update_to. case_match; [dstep; by exists (nd_sent n); destruct n|].
  eapply does_bind; [apply does_current|]. intros ? ? _ (-> & π & Hp & -> & Hrf & Hu). simpl.
  repeat dstep. assert (pol_leader π = pl_leader placement) as Hld
    by (by match goal with H : _ = placement |- _ => rewrite <-H end).
  case_match; [|dstep; by exists (nd_sent n); destruct n]. repeat dstep.
  eapply does_bind; [apply does_send|].
  - split; [done|]. simpl. exists π. by split_and!.
  - intros ? ? _ ->. dstep. by eexists.
Qed.
End sending.

(** ** Tickets *)

Section tickets.
Context (cl : option ClusterState).

Lemma weaker_refl t : weaker t t.
Proof. by split_and!. Qed.

Definition entries_after (partition : N) (f : gmap N PendingReplicaCommit → gmap N PendingReplicaCommit) (t : Tickets) : Tickets :=
  match t !! partition with
  | Some entries => if bool_decide (f entries = ∅) then delete partition t else <[partition := f entries]> t
  | None => t
  end.

(** Tickets may go at any time. *)
Lemma does_update_entries n partition f : (∀ m s t, f m !! s = Some t → m !! s = Some t) →
  does cl n (update_entries partition f) (λ _ n', frame n n').
Proof.
  intros Hf. eapply does_post; [apply (does_modify _ _ _ _ _ _ _ (with_pending (entries_after partition f (nd_pending n)) n))|].
  - intros rt Hrt <-. unfold entries_after. simpl. unfold put_entries.
    destruct (rt_pending rt !! partition) as [entries|]; [|by destruct rt]. case_bool_decide; done.
  - apply rtc_once, PTicketsWeaker. intros pt s t'. unfold ticket_at, ticket_of, entries_after.
    destruct (nd_pending n !! partition) as [entries|] eqn:Hp; [|by eauto using weaker_refl].
    intros H. exists t'. split; [|apply weaker_refl]. destruct (decide (pt = partition)) as [->|Hne].
    + rewrite Hp. simpl. case_bool_decide; [by rewrite lookup_delete_eq in H|]. rewrite lookup_insert_eq in H. by apply Hf.
    + case_bool_decide; [by rewrite lookup_delete_ne in H|by rewrite lookup_insert_ne in H].
  - by intros ? ? _ ->.
Qed.

Lemma does_put_ticket n partition s t :
  step n (with_pending (<[partition := <[s := t]> (default ∅ (nd_pending n !! partition))]> (nd_pending n)) n) →
  does cl n (op_modify (put_ticket partition s t)) (λ _ n',
    n' = with_pending (<[partition := <[s := t]> (default ∅ (nd_pending n !! partition))]> (nd_pending n)) n).
Proof. intros Hs. apply does_modify; [|by apply rtc_once]. by intros rt Hrt <-. Qed.

Lemma does_schedule n partition schedule : does cl n (or_insert_schedule partition schedule) (λ _ n', n' = n).
Proof. apply does_hidden. intros rt. by destruct (rt_retry_schedules rt !! partition). Qed.

Lemma store_mut_pending {A} (m : StoreOp A) rt r rt' :
  fabric_stream_store_mut m rt = Some (r, rt') → rt_pending rt' = rt_pending rt.
Proof. unfold fabric_stream_store_mut. intros. repeat case_match; by simplify_eq. Qed.

(** One round more than there are tickets is enough for the loop. *)
Lemma advance_loop_enough partition fuel : ∀ fuel' c rt,
  (size (default ∅ (rt_pending rt !! partition)) < fuel ≤ fuel')%nat →
  advance_loop fuel partition c rt = advance_loop fuel' partition c rt.
Proof.
  induction fuel as [|fuel IH]; intros [|fuel'] c rt [Hlt Hle]; [lia..|]. cbn [advance_loop]. unfold mbind, op_bind, op_gets, mret, op_ret.
  destruct (ticket_of (rt_pending rt) partition (saturating_add64 c 1)) as [t|] eqn:Ht; [|done].
  destruct (tk_quorum t <=? _); [|done].
  destruct (fabric_stream_commit_through _ rt) as [[[[]|e] rt1]|] eqn:H1; [|done..]. apply store_mut_pending in H1.
  destruct (fabric_stream_remove_replication_intent _ rt1) as [[[x|e] rt2]|] eqn:H2; [|done..]. apply store_mut_pending in H2.
  unfold update_entries, op_modify. rewrite H2, H1. unfold ticket_of in Ht. destruct (rt_pending rt !! partition) as [entries|] eqn:He; [|done].
  simpl in *. apply IH. split; [|lia]. unfold put_entries. case_bool_decide; simpl.
  - rewrite lookup_delete_eq. simpl. rewrite map_size_empty. assert (size entries ≠ 0%nat); [|lia].
    intros ->%map_size_empty_iff. done.
  - rewrite lookup_insert_eq. simpl. rewrite map_size_delete_Some by done. assert (size entries ≠ 0%nat); [|lia].
    intros ->%map_size_empty_iff. done.
Qed.

Lemma does_advance_loop fuel partition : ∀ n c, does cl n (advance_loop fuel partition c) (λ _ n', frame n n').
Proof.
  induction fuel as [|fuel IH]; intros n c; simpl; [by dstep|]. dstep.
  destruct (ticket_of (nd_pending n) partition (saturating_add64 c 1)) as [t|] eqn:Ht; [|by dstep].
  case_match eqn:Hq; [|by dstep]. checks. eapply does_bind; [apply does_commit|].
  - intros _. by eapply rtc_once, PCommitTicket.
  - intros ? ? _ [_ ->]. dstep. eapply does_bind; [apply does_update_entries|].
    + intros m s t'. by rewrite lookup_delete_Some; intros [_ ?].
    + intros ? n' _ Hfr. eapply does_post; [apply IH|]. intros ? ? _ Hfr'. etrans; [|exact Hfr']. by etrans; [|exact Hfr].
Qed.

Lemma does_advance n partition : does cl n (fabric_stream_advance_commits partition) (λ _ n', frame n n').
Proof. unfold fabric_stream_advance_commits. repeat dstep. apply does_advance_loop. Qed.

Lemma does_retire n partition s : does cl n (fabric_stream_retire_old_epoch_pending partition s) (λ _ n', frame n n').
Proof.
  unfold fabric_stream_retire_old_epoch_pending. dstep. eapply does_bind; [apply (does_each _ _ _ _ _ _ (λ n', n' = n)); [done|]|].
  - intros intent n' _ ->. case_match; by repeat dstep.
  - intros ? ? _ ->. apply does_update_entries. intros m q t. by rewrite map_lookup_filter_Some; intros [? _].
Qed.

Lemma does_status n partition s : does cl n (fabric_stream_replication_status partition s) (λ _ n', n' = n).
Proof. unfold fabric_stream_replication_status. dstep. case_match; by repeat dstep. Qed.

(** ** Appending by the leader *)

Lemma does_check_leader n placement :
  does cl n (check_local_leader placement) (λ a n', n' = n ∧ a = i ∧ pl_leader placement = i).
Proof.
  unfold check_local_leader. dstep. eapply does_bind; [by apply does_expect|]. intros ? ? _ [-> [= <-]]. repeat dstep.
  split_and!; [done|done|]. done.
Qed.

Lemma new_ticket_step n π partition s q : nd_policy n = Some π → pol_leader π = i → unfenced n π → s ≤ len (nd_log n) →
  q = old_quorum π →
  step n (with_pending (<[partition := <[s := new_ticket i (pol_epoch π) (fabric_stream_placement_from_policy π) q]>
    (default ∅ (nd_pending n !! partition))]> (nd_pending n)) n).
Proof. intros Hp Hl Hu Hs ->. by eapply PTicket. Qed.

Lemma does_replicated_append n partition rf v : boots n cl partition rf →
  does cl n (fabric_stream_replicated_append blake3 append_json partition rf v) (λ _ n', True).
Proof.
  intros Hboot. unfold fabric_stream_replicated_append. cbv zeta. dstep.
  eapply does_bind; [by apply does_current_or_bootstrap|]. intros ? ? _ (π & -> & -> & Hrf & Hu). simpl.
  eapply does_bind; [apply does_check_leader|]. intros ? ? _ (-> & -> & Hl). simpl in Hl.
  repeat dstep. destruct H0 as (_ & _ & Hnext & _). simpl in Hnext. rewrite Hnext.
  eapply does_bind; [apply does_append_reserved|].
  { intros _. by eapply PLeaderAppend. }
  intros ? ? _ [_ ->]. simpl. eapply does_bind; [apply does_put_ticket|].
  { apply new_ticket_step; try done; simpl; [unfold len; rewrite length_app; simpl; lia|]. unfold old_quorum. by rewrite Hrf. }
  intros ? ? _ ->. dstep. eapply does_bind; [apply does_schedule|]. intros ? ? _ ->.
  eapply (does_bind _ _ _ _ _ _ _ _ (λ _ n', frame (with_log (nd_log n ++ [v]) (with_policy (Some π) n)) n')).
  - case_match.
    + eapply does_bind; [apply does_advance|]. intros ? n' _ Hfr. dstep. exact Hfr.
    + eapply does_post; [apply does_status|]. by intros ? ? _ ->.
  - intros ? n' _ (Hlog & Hfp & _ & _). eapply does_bind; [apply does_dispatch_append|]; [|intros; by dstep].
    simpl. rewrite Hlog. simpl. unfold log_at. destruct (N.eqb_spec (len (nd_log n) + 1) 0); [lia|].
    unfold len. rewrite lookup_app_r by lia. by replace (_ - _)%nat with 0%nat by lia.
Qed.

Lemma does_prepare_append n partition rf v : boots n cl partition rf →
  does cl n (fabric_stream_prepare_replica_append blake3 partition rf v) (λ _ n', True).
Proof.
  intros Hboot. unfold fabric_stream_prepare_replica_append. cbv zeta. dstep.
  eapply does_bind; [by apply does_current_or_bootstrap|]. intros ? ? _ (π & -> & -> & Hrf & Hu). simpl.
  eapply does_bind; [apply does_check_leader|]. intros ? ? _ (-> & -> & Hl). simpl in Hl.
  repeat dstep. eapply does_bind; [apply does_append|].
  { by eapply PLeaderAppend. }
  intros ? ? _ _. by dstep.
Qed.
End tickets.
End refine.
