(* ===== verification/FabricReplicate.v ===== *)
(** * Fabric streams: recovery, acknowledgements and replicas as steps of the protocol *)
From Stdlib Require Import String.
From S2P Require Import Prelude Bytes Text FabricStore FabricCluster.
From S2P Require Import FabricEpoch FabricProtocol FabricLogic FabricCalls FabricRefine.

Local Open Scope list_scope.
Local Open Scope N_scope.

(** Only packets have been sent. *)
Definition sends_only (n n' : Nd) : Prop := ∃ sent, n' = with_sent sent n.

#[global] Instance sends_only_preorder : PreOrder sends_only.
Proof. split; [intros n; exists (nd_sent n); by destruct n|]. intros n n1 n2 [s1 ->] [s2 ->]. by exists s2. Qed.

Lemma sends_only_frame n n' : sends_only n n' → frame n n'.
Proof. by intros [sent ->]. Qed.

(** The first record of a read, when it has the sequence asked for. *)
Lemma head_at_in (log : list bytes) start rs s r :
  Forall (λ r, start ≤ rec_sequence r ∧ in_log log r) rs → head_at rs s = Some r → log_at log s = Some (rec_payload r).
Proof.
  destruct rs as [|r' rs]; [done|]. intros [[_ Hin] _]%Forall_cons. unfold head_at. case_match eqn:Heq; [|done].
  apply N.eqb_eq in Heq. intros [= <-]. unfold in_log in Hin. by rewrite Heq in Hin.
Qed.

Section replicate.
Context (name : bytes) (p0 : Policy) (i : N) (net : Envelope → Prop).
Context (blake3 : bytes → bytes) (append_json : FabricStreamReplicaAppend → bytes).

Abbreviation quiet := (rtc (pstep p0 i net)).
Abbreviation step := (pstep p0 i net).
Abbreviation does := (does name p0 i net).

(** A call that only reads, whose result the caller inspects. *)
Lemma does_try_reads {A} cl n (m : StoreOp A) (R : A → StreamDir → Prop) :
  (∀ d (E : StreamDir → Prop), E d → sdoes name d m (λ a d', d' = d ∧ R a d) E) →
  does cl n (op_try (fabric_stream_store_mut m)) (λ r n', n' = n ∧
    match r with Ok a => ∃ d, dir_view (nd_pending n) (nd_sent n) d = n ∧ R a d | Err _ => True end).
Proof.
  intros Hm rt Hrt Hv. pose proof Hrt as (Hi & Hc & Ht & store & Hs & Hn).
  destruct (Hm (fs_stream store) (λ d', d' = fs_stream store) eq_refl store eq_refl Hn) as (r & store' & Heq & Hn' & Hr).
  assert (fs_stream store' = fs_stream store) as Hd by (destruct r; [by destruct Hr|done]).
  assert (view (set_store (Some store') rt) = n) as Hv'.
  { rewrite <-Hv. unfold view. simpl. by rewrite Hs, Hd. }
  unfold op_try, fabric_stream_store_mut. rewrite Hs, Heq. eexists _, _. split_and!; [done| | |].
  - split_and!; [done|done|done|]. by exists store'.
  - by rewrite Hv'.
  - split; [done|]. destruct r; [|done]. destruct Hr as [_ HR]. exists (fs_stream store). split; [|done].
    rewrite <-Hv. unfold view. by rewrite Hs.
Qed.

Section cluster.
Context (cl : option ClusterState).

(** ** Recovery of tickets *)

Lemma does_recover_ticket n intent report : int_sequence intent ≤ len (nd_log n) →
  does cl n (recover_ticket i intent report) (λ _ n', frame n n').
Proof.
  intros Hs. unfold recover_ticket. eapply does_bind; [apply does_validate|].
  intros ? ? _ (-> & π & Hp & -> & He & Hrf & Hu). simpl. repeat dstep. case_match; [by dstep|].
  eapply does_bind; [apply does_put_ticket|].
  { rewrite <-He. apply new_ticket_step; try done. unfold old_quorum. by rewrite Hrf. }
  intros ? ? _ ->. by dstep.
Qed.

Lemma does_recover_intent n committed next intent report :
  does cl n (recover_intent i committed next intent report) (λ _ n', frame n n').
Proof.
  unfold recover_intent. case_match; [by repeat dstep|]. dstep. case_match eqn:Hh.
  - apply does_recover_ticket. eapply head_at_in in Hh; [|done]. apply log_at_len in Hh. lia.
  - case_match; by repeat dstep.
Qed.

Lemma does_recover_intents intents committed next : ∀ n report,
  does cl n (recover_intents i committed next intents report) (λ _ n', frame n n').
Proof.
  induction intents as [|intent intents IH]; intros n report; simpl; [by dstep|].
  eapply does_bind; [apply does_recover_intent|]. intros ? n' _ Hfr. eapply does_post; [apply IH|].
  intros ? ? _ Hfr'. by transitivity n'.
Qed.

Lemma does_recover_from_cluster n : does cl n fabric_stream_recover_pending_from_cluster (λ _ n', frame n n').
Proof.
  unfold fabric_stream_recover_pending_from_cluster. repeat dstep. eapply does_bind; [apply does_recover_intents|].
  intros ? n1 _ H1. eapply does_bind; [apply does_advance|]. intros ? n2 _ H2. repeat dstep.
  eapply (does_bind _ _ _ _ _ _ _ _ (λ _ n', n' = n2)).
  - case_match; [apply does_schedule|by dstep].
  - intros ? ? _ ->. dstep. by transitivity n1.
Qed.
End cluster.

Lemma does_with_cluster {A} cl n (m : ClusterState → RtOp A) (Q : A → Nd → Prop) :
  (∀ c, cl = Some c → does None n (m c) Q) →
  does cl n (with_cluster m) (λ r n', match r with Ok a => Q a n' | Err _ => True end).
Proof.
  intros Hm rt Hrt Hv. pose proof Hrt as (Hi & Hc & Ht & Hs). unfold with_cluster, mbind, op_bind, op_gets. rewrite Hc.
  destruct cl as [c|]; simpl; [|eexists _, _; split_and!; [done|done|by rewrite Hv|done]].
  destruct (Hm c eq_refl (set_cluster None rt)) as (r & rt' & Heq & (Hi' & Hc' & Ht' & Hs') & Hq & Hr); [by split_and!|done|].
  unfold op_modify, op_try. rewrite Heq. eexists _, _. split_and!; [done|by split_and!|done|done].
Qed.

Section retries.
Context (cl : option ClusterState).

Lemma does_recover_pending n : does cl n fabric_stream_recover_pending (λ _ n', frame n n').
Proof.
  unfold fabric_stream_recover_pending. eapply does_bind.
  - apply (does_with_cluster _ _ _ (λ _ n', frame n n')). intros c _. apply does_recover_from_cluster.
  - intros r n' _ Hr. eapply does_post; [apply does_result|]. intros ? ? _ [-> ->]. done.
Qed.

Lemma does_retry_ticket n partition config s t report :
  does cl n (retry_ticket append_json partition config s t report) (λ _ n', sends_only n n').
Proof.
  unfold retry_ticket. cbv zeta. repeat dstep. eapply does_bind; [apply does_validate|].
  intros ? ? _ (-> & π & Hp & -> & He & Hrf & Hu). simpl. repeat dstep.
  eapply does_bind; [apply does_dispatch_append|].
  - simpl. by eapply head_at_in.
  - intros ? ? _ Hs. by dstep.
Qed.

Lemma does_retry_tickets partition config tickets : ∀ n report,
  does cl n (retry_tickets append_json partition config tickets report) (λ _ n', sends_only n n').
Proof.
  induction tickets as [|[s t] tickets IH]; intros n report; simpl; [by dstep|].
  eapply does_bind; [apply does_retry_ticket|]. intros ? n' _ H. eapply does_post; [apply IH|]. intros ? ? _ H'. by transitivity n'.
Qed.

Lemma does_retry_pending n partition : does cl n (fabric_stream_retry_pending append_json partition) (λ _ n', True).
Proof.
  unfold fabric_stream_retry_pending. eapply does_bind; [apply does_recover_pending|]. intros ? n' _ _. dstep.
  case_match; [by dstep|]. dstep. eapply does_post; [apply does_retry_tickets|done].
Qed.

Lemma does_tick_retries n order : does cl n (fabric_stream_tick_retries append_json order) (λ _ n', True).
Proof.
  unfold fabric_stream_tick_retries. eapply (does_bind _ _ _ _ _ _ _ _ (λ _ n', n' = n)).
  { intros rt Hrt Hv. eexists _, _. by rewrite Hv. }
  intros rt ? _ ->. eapply does_bind; [by apply does_hidden|]. intros ? ? _ ->.
  apply does_each; [done|]. intros partition n' _ _. unfold tick_retry.
  eapply does_bind; [apply does_try, does_retry_pending|]. intros ? n2 _ _.
  eapply does_post; [apply does_hidden|done]. intros rt'. case_match; [|done]. by case_match.
Qed.

(** ** Catching up *)

Lemma does_catch_up_records replica make records : ∀ n,
  Forall (λ r, log_at (nd_log n) (app_sequence (make r)) = Some (app_payload (make r))) records →
  does cl n (catch_up_records append_json replica make records) (λ _ n', sends_only n n').
Proof.
  induction records as [|r records IH]; intros n Hrs; simpl; [by dstep|]. apply Forall_cons in Hrs as [Hr Hrs].
  eapply does_bind; [by apply does_dispatch_to|]. intros [] n' _ [sent ->]; [|dstep; by eexists].
  eapply does_bind; [by apply IH|]. intros [] n2 _ H2. dstep. transitivity (with_sent sent n); [by exists sent|done].
Qed.

Lemma does_catch_up_replica n partition rf max placement epoch c config replica report : c ≤ nd_commit n →
  does cl n (catch_up_replica append_json partition rf max placement epoch c config replica report)
    (λ _ n', sends_only n n').
Proof.
  intros Hc. unfold catch_up_replica. cbv zeta. dstep. case_match.
  - eapply does_bind; [by apply does_dispatch_commit|]. intros ? n' _ H'. by dstep.
  - dstep. eapply does_bind; [apply does_catch_up_records|].
    + apply (Forall_impl _ _ _ H0). intros r [_ Hin]. done.
    + intros [] n' _ H'. by dstep.
Qed.

Lemma does_catch_up_replicas partition rf max placement epoch c config replicas : ∀ n report, c ≤ nd_commit n →
  does cl n (catch_up_replicas append_json partition rf max placement epoch c config replicas report)
    (λ _ n', sends_only n n').
Proof.
  induction replicas as [|replica replicas IH]; intros n report Hc; simpl; [by dstep|].
  eapply does_bind; [by apply does_catch_up_replica|]. intros ? n' _ [sent ->]. eapply does_post; [by apply IH|].
  intros ? ? _ H'. transitivity (with_sent sent n); [by exists sent|done].
Qed.

Lemma does_catch_up n partition rf max :
  does cl n (fabric_stream_catch_up_committed append_json partition rf max) (λ _ n', sends_only n n').
Proof.
  unfold fabric_stream_catch_up_committed. dstep. eapply does_bind; [apply does_current|].
  intros ? ? _ (-> & π & Hp & -> & Hrf & Hu). simpl. repeat dstep. case_match; [by dstep|]. dstep.
  by apply does_catch_up_replicas.
Qed.
End retries.

Section packets.
Context (cl : option ClusterState).

(** ** Acknowledgements *)

Lemma acknowledge_step n ack t : received net i (ack_replica ack) (ReplicaAckPacket ack) →
  ticket_at (nd_pending n) (ack_partition ack) (ack_sequence ack) = Some t →
  tk_epoch t = ack_epoch ack → tk_leader t = ack_leader ack → ack_replica ack ∈ tk_replicas t →
  step n (with_pending (<[ack_partition ack := <[ack_sequence ack := acknowledge ack t]>
    (default ∅ (nd_pending n !! ack_partition ack))]> (nd_pending n)) n).
Proof.
  intros Hr Ht He Hl Hin. unfold acknowledge. destruct (ack_accepted ack) eqn:Ha.
  - by eapply (PAckTicket _ _ _ _ _ _ t ack).
  - apply PTicketsWeaker. intros pt s t'. unfold ticket_at, ticket_of in *.
    destruct (decide (pt = ack_partition ack)) as [->|Hne]; [|rewrite lookup_insert_ne by done; eauto using weaker_refl].
    rewrite lookup_insert_eq. simpl. destruct (decide (s = ack_sequence ack)) as [->|Hne].
    + rewrite lookup_insert_eq. intros [= <-]. exists t. split; [done|]. case_bool_decide; [apply weaker_refl|by split_and!].
    + rewrite lookup_insert_ne by done. intros H. exists t'. split; [|apply weaker_refl].
      destruct (nd_pending n !! ack_partition ack); [done|]. simpl in H. by rewrite lookup_empty in H.
Qed.

Lemma does_record_ack n ack : received net i (ack_replica ack) (ReplicaAckPacket ack) →
  does cl n (fabric_stream_record_replica_ack ack) (λ _ n', frame n n').
Proof.
  intros Hr. unfold fabric_stream_record_replica_ack. cbv zeta. repeat dstep. case_match; [by dstep|]. repeat dstep.
  eapply does_bind; [apply does_put_ticket; by apply acknowledge_step|]. intros ? ? _ ->.
  eapply does_bind; [apply does_advance|]. intros ? n' _ Hfr. by dstep.
Qed.

Lemma does_record_ack_from_cluster n ack : received net i (ack_replica ack) (ReplicaAckPacket ack) →
  does cl n (fabric_stream_record_replica_ack_from_cluster ack) (λ o n', ∃ π, nd_policy n' = Some π ∧
    ao_placement o = fabric_stream_placement_from_policy π ∧ ao_epoch o = pol_epoch π ∧ ao_committed_sequence o = nd_commit n').
Proof.
  intros Hr. unfold fabric_stream_record_replica_ack_from_cluster. dstep. eapply does_bind; [apply does_validate|].
  intros ? ? _ (-> & π & Hp & -> & He & Hrf & Hu). simpl. dstep.
  eapply (does_bind _ _ _ _ _ _ _ _ (λ _ n', n' = n)).
  { case_match; [apply does_record_progress|by dstep]. }
  intros ? ? _ ->. dstep. case_match; [dstep; by exists π|]. dstep.
  eapply (does_bind _ _ _ _ _ _ _ _ (λ _ n', frame n n')).
  { case_match; [by dstep|]. eapply does_bind; [apply does_recover_from_cluster|]. intros ? ? _ ?. by dstep. }
  intros ? n1 _ (_ & Hp1 & _). eapply does_bind; [by apply does_record_ack|]. intros ? n2 _ (_ & Hp2 & _). dstep. dstep. exists π.
  split_and!; try done. congruence.
Qed.

Lemma does_send_commit_updates n cluster o π : nd_policy n = Some π →
  ao_placement o = fabric_stream_placement_from_policy π → ao_epoch o = pol_epoch π → ao_committed_sequence o = nd_commit n →
  does cl n (send_commit_updates cluster o) (λ _ n', sends_only n n').
Proof.
  intros Hp Hpl He Hc. unfold send_commit_updates. apply does_each; [done|]. intros replica n' _ [sent ->]. dstep.
  case_match; [dstep; by eexists|]. eapply does_post; [apply does_send|].
  - split; [done|]. simpl. exists π. rewrite Hpl, He, Hc. by split_and!.
  - intros ? ? _ ->. by eexists.
Qed.

Lemma does_handle_ack n cluster ack from : received net i from (ReplicaAckPacket ack) →
  does cl n (handle_replica_ack from ack cluster) (λ _ n', True).
Proof.
  intros Hr. unfold handle_replica_ack. repeat dstep.
  eapply does_bind; [apply does_record_ack_from_cluster; congruence|]. intros o n' _ (π & Hp & Hpl & He & Hc).
  case_match; [|by dstep]. eapply does_post; [by eapply does_send_commit_updates|done].
Qed.

(** ** Records and boundaries from the leader *)

Definition applied (a : FabricStreamReplicaAppend) (n : Nd) : Prop :=
  ∃ π, nd_policy n = Some π ∧ names π (app_epoch a) (app_leader a) ∧ unfenced n π ∧ app_sequence a ≤ len (nd_log n).

Lemma does_apply_with_placement n a placement : received net i (app_leader a) (ReplicaPacket a) →
  (nd_policy n = None → app_epoch a = 1 → policy_from_placement placement 1 = p0 ∧ good_policy p0) →
  does cl n (fabric_stream_apply_replica_with_placement a placement) (λ _ n', applied a n').
Proof.
  intros Hr Hboot. unfold fabric_stream_apply_replica_with_placement. repeat dstep.
  eapply does_bind; [by apply does_expect|]. intros ? ? _ [-> _]. dstep.
  eapply does_bind.
  { apply (does_try_reads _ _ _ (λ _ _, True)). intros d E HE. eapply sdoes_post; [by apply sdoes_stream_config|]. by intros ? ? ->. }
  intros config ? _ [-> _]. eapply (does_bind _ _ _ _ _ _ _ _ (λ _ n', n' = n)).
  { destruct config as [?|[]]; try by dstep.
    - eapply does_post; [apply does_guard|by intros ? ? _ [-> _]].
    - apply does_create. }
  intros ? ? _ ->. eapply does_bind; [by apply does_policy_for|]. intros π ? _ (-> & Hπ & Hu). dstep.
  assert (names π (app_epoch a) (app_leader a)) as Hnm by (rewrite Hπ; split; simpl; congruence).
  eapply does_post; [apply does_append_replica|].
  - intros Hs. by eapply PFollow.
  - intros b n' _ [(-> & -> & Hat)|(-> & Hs & ->)]; exists π; split_and!; try done.
    + by apply log_at_len in Hat as [_ ?].
    + simpl in *. unfold len in *. rewrite length_app. simpl. lia.
Qed.

Lemma does_existing_policy n : does cl n existing_policy (λ a n', n' = n ∧ ∀ π, a = Some π → nd_policy n = Some π).
Proof.
  unfold existing_policy. eapply does_bind; [by apply does_try_reads; intros; apply sdoes_replication_policy|].
  intros r ? _ [-> Hr]. destruct r as [a|[]]; repeat dstep; try done. destruct Hr as (d & Hd & ->).
  split; [done|]. intros π Hπ. by rewrite <-Hd.
Qed.

Lemma does_apply_replica n a cluster : received net i (app_leader a) (ReplicaPacket a) →
  boots name p0 i blake3 n (Some cluster) (app_partition a) (app_replication_factor a) →
  does cl n (fabric_stream_apply_replica_from_cluster blake3 a cluster) (λ _ n', applied a n').
Proof.
  intros Hr Hboot. unfold fabric_stream_apply_replica_from_cluster.
  eapply does_bind; [apply does_existing_policy|]. intros o ? _ [-> Ho].
  eapply (does_bind _ _ _ _ _ _ _ _ (λ placement n', n' = n ∧
    (nd_policy n = None → policy_from_placement placement 1 = p0 ∧ good_policy p0))).
  - destruct o as [π|].
    + eapply does_bind; [apply does_validate|]. intros ? ? _ (-> & π' & Hp & -> & _). dstep. split; [done|]. by rewrite Hp.
    + dstep. eapply does_post; [apply does_compute|]. intros placement ? _ [-> Hpl]. split; [done|]. intros Hp.
      pose proof (Hboot Hp placement Hpl) as Heq. split; [done|]. rewrite <-Heq. by eapply placement_good.
  - intros placement ? _ [-> Hpl]. apply does_apply_with_placement; auto.
Qed.

Lemma does_address n cluster node : does cl n (has_address cluster node) (λ _ n', n' = n).
Proof. apply does_gets_any. Qed.

Lemma does_handle_replica n from a cluster : received net i from (ReplicaPacket a) →
  boots name p0 i blake3 n (Some cluster) (app_partition a) (app_replication_factor a) →
  does cl n (handle_replica blake3 append_json from a cluster) (λ _ n', True).
Proof.
  intros Hr Hboot. unfold handle_replica. repeat dstep. eapply does_bind; [apply does_try, does_apply_replica; [congruence|done]|].
  intros r n' _ Happ. dstep. eapply does_bind; [apply does_address|]. intros [] ? _ ->; [|by dstep].
  eapply does_post; [apply does_send|done]. split; [done|]. simpl. intros Hacc. destruct r; [|done]. split; [done|].
  destruct Happ as (π & ? & ? & ? & ?). by exists π.
Qed.

Lemma does_handle_commit n from u : received net i from (CommitPacket u) → does cl n (handle_commit from u) (λ _ n', True).
Proof.
  intros Hr. unfold handle_commit, fabric_stream_apply_commit_update_from_cluster. repeat dstep.
  eapply does_bind; [apply does_validate|]. intros ? ? _ (-> & π & Hp & -> & He & Hrf & Hu). simpl. repeat dstep.
  eapply does_post; [apply does_commit|done]. intros Hs. eapply rtc_once, (PCommitUpdate _ _ _ _ u π); [congruence|done|by split|done].
Qed.
End packets.
End replicate.
