(* ===== verification/FabricTransit.v ===== *)
(** * Fabric streams: epoch transitions run as steps of the protocol *)
From Stdlib Require Import String.
From S2P Require Import Prelude Bytes Text FabricStore FabricCluster FabricEpoch.
From S2P Require Import FabricProtocol FabricLogic FabricCalls FabricRefine FabricReplicate.

Local Open Scope list_scope.
Local Open Scope N_scope.

Section transit.
Context (name : bytes) (p0 : Policy) (i : N) (net : Envelope → Prop).
Context (blake3 : bytes → bytes).

Abbreviation quiet := (rtc (pstep p0 i net)).
Abbreviation step := (pstep p0 i net).
Abbreviation does := (does name p0 i net).
Abbreviation begins := (begins name p0 i net).
Abbreviation tail := prop_candidate_tail.

Section votes.
Context (cl : option ClusterState).

(** ** Checks of proposals *)

Definition checked_shape (P : Proposal) : Prop :=
  pol_epoch (prop_from P) < pol_epoch (prop_to P) ∧ ∀ r, r ∈ pol_replicas (prop_to P) → r ∈ pol_replicas (prop_from P).

Lemma does_validate_shape n P : does cl n (validate_proposal_shape blake3 P) (λ _ n', n' = n ∧ checked_shape P).
Proof.
  unfold validate_proposal_shape. cbv zeta. repeat dstep. eapply does_post; [apply does_guard|]. intros ? ? _ [-> _].
  split; [done|]. split; [done|]. intros r Hr. match goal with H : forallb _ _ = true |- _ => rewrite forallb_forall in H;
    by apply list_elem_of_In, H, bool_decide_eq_true in Hr end.
Qed.

Lemma does_check_placement n cluster to : does cl n (check_placement blake3 i cluster to) (λ _ n', n' = n ∧ good_policy to).
Proof.
  unfold check_placement. dstep. eapply does_post; [apply does_guard|]. intros ? ? _ [-> Hb]. checks. split; [done|].
  rewrite <-Hb. by eapply placement_good.
Qed.

Lemma does_check_from n P : does cl n (check_from_policy P) (λ _ n', n' = n ∧ nd_policy n = Some (prop_from P)).
Proof. unfold check_from_policy. repeat dstep. eapply does_post; [apply does_guard|]. intros ? ? _ [-> Hb]. checks. by subst. Qed.

(** ** Promises and votes *)

(** A proposal that a packet or the own transition brings. *)
Definition proposed (n : Nd) (P : Proposal) : Prop :=
  (∃ from, received net i from (EpochPreparePacket P)) ∨
  (∃ from b, received net i from (EpochRepairPacket b) ∧ rb_proposal b = P) ∨
  (∃ T, nd_transition n = Some T ∧ tr_proposal T = P).

Definition votes_for (P : Proposal) (v : FabricStreamEpochVoteState) (n : Nd) : Prop :=
  vote_voter v = i ∧ vote_epoch v = pol_epoch (prop_to P) ∧ vote_hash v = prop_hash P ∧
  (vote_accepted v = true → promised n P).

Lemma does_evaluate n P sender cluster : proposed n P →
  does cl n (fabric_stream_evaluate_epoch_prepare blake3 P sender cluster)
    (λ v n', votes_for P v n' ∧ nd_transition n' = nd_transition n).
Proof.
  intros HP. unfold fabric_stream_evaluate_epoch_prepare. cbv zeta.
  eapply does_bind; [apply does_validate_shape|]. intros ? ? _ [-> [He Hsub]]. repeat dstep.
  eapply does_bind; [apply does_check_from|]. intros ? ? _ [-> Hp]. dstep.
  eapply does_bind; [apply does_check_placement|]. intros ? ? _ [-> Hgood]. dstep.
  destruct H1 as (Hlen & _). rewrite Hlen.
  destruct (N.eqb_spec (len (nd_log n)) (tail P)) as [Ht|Ht].
  - eapply (does_bind _ _ _ _ _ _ _ _ (λ _ n', n' = with_promise (Some (mkPromise (pol_epoch (prop_to P)) (prop_hash P))) n)).
    + eapply does_bind; [apply does_promise_epoch|].
      * intros Hlow. by apply PPromise.
      * intros ? ? _ ->. by dstep.
    + intros ? ? _ ->. by dstep.
  - eapply (does_bind _ _ _ _ _ _ _ _ (λ _ n', n' = n)); [by dstep|]. intros ? ? _ ->. by dstep.
Qed.

(** ** Finalization *)

Lemma does_complete n T : nd_transition n = Some T →
  does cl n (fabric_stream_complete_finalized_epoch_transition T) (λ _ n', tr_finalized T = true ∧
    nd_policy n' = Some (prop_to (tr_proposal T)) ∧ nd_transition n' = Some T).
Proof.
  intros HT. unfold fabric_stream_complete_finalized_epoch_transition. cbv zeta. dstep.
  eapply does_bind; [apply does_install|].
  { intros Hp Hpr. by apply PInstallOwn. }
  intros ? ? _ ->. dstep. eapply (does_bind _ _ _ _ _ _ _ _ (λ _ n', frame (with_policy (Some (prop_to (tr_proposal T))) n) n')).
  - case_match; [|by dstep]. eapply does_post; [apply does_commit|].
    + intros _. by eapply rtc_once, PCommitOwn.
    + by intros ? ? _ [_ ->].
  - intros ? n' _ (_ & Hp & _ & Ht). eapply does_post; [apply does_retire|]. intros ? n2 _ (_ & Hp2 & _ & Ht2).
    rewrite Hp2, Ht2, Hp, Ht. done.
Qed.

(** What is known after a vote has been counted. *)
Definition counted (P : Proposal) (commit : option FabricStreamEpochCommit) (n : Nd) : Prop :=
  ∃ T, nd_transition n = Some T ∧ tr_proposal T = P ∧
    ∀ c, commit = Some c → ec_proposal c = P ∧ tr_finalized T = true ∧ nd_policy n = Some (prop_to P).

Lemma commit_of_state T c : commit_from_state T = Ok c → ec_proposal c = tr_proposal T.
Proof. unfold commit_from_state. case_match; [done|]. by intros [= <-]. Qed.

Lemma does_record_vote_from_cluster n v sender :
  (∀ T0, nd_transition n = Some T0 → vote_voter v = sender → vote_hash v = prop_hash (tr_proposal T0) →
     received net i (vote_voter v) (EpochVotePacket v) ∨
     (vote_voter v = i ∧ (vote_accepted v = true → promised n (tr_proposal T0)))) →
  does cl n (fabric_stream_record_epoch_vote_from_cluster v sender) (λ o n',
    ∃ T0, nd_transition n = Some T0 ∧ counted (tr_proposal T0) (vo_commit o) n').
Proof.
  intros Hev. unfold fabric_stream_record_epoch_vote_from_cluster. cbv zeta. dstep.
  eapply does_bind; [apply does_record_vote|].
  { intros T HT (Hf & _ & Hh & Hin). unfold with_vote. rewrite Hf. apply PVote; auto. }
  intros T ? _ (-> & T0 & HT0 & HTP). case_match eqn:Hf.
  { eapply does_bind; [by apply does_complete|]. intros ? n' _ (_ & Hp & Ht). repeat dstep. exists T0. split; [done|]. exists T. split_and!; [done|done|].
    intros c [= <-]. match goal with H : commit_from_state _ = _ |- _ => apply commit_of_state in H end.
    rewrite <-HTP. by split_and!. }
  case_match eqn:Hq; [dstep; exists T0; split; [done|by exists T]|]. apply negb_false_iff in Hq. repeat dstep.
  eapply does_bind; [apply does_finalize|].
  { intros T2 HT2 _. simpl in HT2. injection HT2 as <-. by apply PFinalize. }
  intros T2 ? _ (-> & Hf2 & T3 & HT3 & HTP2). simpl in HT3. injection HT3 as <-.
  eapply does_bind; [by apply does_complete|]. intros ? n' _ (_ & Hp & Ht). repeat dstep. exists T0. split; [done|]. exists T2. split_and!; [done|congruence|].
  intros c [= <-]. match goal with H : commit_from_state _ = _ |- _ => apply commit_of_state in H end.
  rewrite <-HTP, <-HTP2. by split_and!.
Qed.

(** ** Sending *)

Lemma does_dispatch_prepare n P T : nd_transition n = Some T → tr_proposal T = P →
  does cl n (fabric_stream_dispatch_epoch_prepare P) (λ _ n', sends_only n n').
Proof.
  intros HT HP. unfold fabric_stream_dispatch_epoch_prepare. repeat dstep.
  eapply (does_send_all _ _ _ _ _ _ _ i (λ node, node) (λ _, EpochPreparePacket P)); [done|].
  intros node _. split; [done|]. simpl. by exists T.
Qed.

Lemma may_send_commit n c to P : counted P (Some c) n → may_send i n (mkEnvelope i to i (EpochCommitPacket c)).
Proof.
  intros (T & HT & HP & Hc). destruct (Hc c eq_refl) as (HcP & Hf & Hp). split; [done|]. simpl. exists T. rewrite HcP. by split_and!.
Qed.

Lemma does_dispatch_commit_certificate n c P : counted P (Some c) n →
  does cl n (fabric_stream_dispatch_epoch_commit c) (λ _ n', sends_only n n').
Proof.
  intros Hc. unfold fabric_stream_dispatch_epoch_commit. repeat dstep.
  eapply (does_send_all _ _ _ _ _ _ _ i (λ node, node) (λ _, EpochCommitPacket c)); [done|].
  intros node _. by eapply may_send_commit.
Qed.
End votes.

Section candidates.
Context (cl : option ClusterState).

Lemma does_vote_and_dispatch n P T : nd_transition n = Some T → tr_proposal T = P →
  does cl n (vote_and_dispatch blake3 i P) (λ _ n', True).
Proof.
  intros HT HP. unfold vote_and_dispatch. eapply does_bind.
  { apply (does_with_cluster _ _ _ _ _ _ _ (λ v n', votes_for P v n' ∧ nd_transition n' = nd_transition n)).
    intros c _. apply does_evaluate. right. right. by exists T. }
  intros r n' _ Hr. dstep. subst r. destruct Hr as [(Hi & He & Hh & Hacc) Ht].
  eapply does_bind; [apply does_record_vote_from_cluster|].
  - intros T0 HT0 _ _. right. split; [done|]. rewrite Ht, HT in HT0. injection HT0 as <-. by rewrite HP.
  - intros o n2 _ (T0 & HT0 & Hc). rewrite Ht, HT in HT0. injection HT0 as <-. destruct (vo_commit o) as [c|] eqn:Ho.
    + eapply does_bind; [by eapply does_dispatch_commit_certificate|]. intros ? ? _ _. by dstep.
    + destruct Hc as (T2 & HT2 & HP2 & _). eapply does_bind; [eapply does_dispatch_prepare; [done|congruence]|]. intros ? ? _ _. by dstep.
Qed.

Lemma does_complete_and_dispatch n T : nd_transition n = Some T →
  does cl n (complete_and_dispatch T) (λ _ n', True).
Proof.
  intros HT. unfold complete_and_dispatch. eapply does_bind; [by apply does_complete|]. intros ? n' _ (Hf & Hp & Ht). dstep.
  match goal with H : commit_from_state _ = _ |- _ => apply commit_of_state in H end.
  eapply does_bind; [eapply (does_dispatch_commit_certificate _ _ _ (tr_proposal T)); exists T; split_and!; [done|done|]|].
  - by intros c [= <-].
  - intros ? ? _ _. by dstep.
Qed.

Lemma does_resume n : does cl n (fabric_stream_resume_epoch_transition blake3) (λ _ n', True).
Proof.
  unfold fabric_stream_resume_epoch_transition. repeat dstep. case_match; [by apply does_complete_and_dispatch|].
  dstep. by eapply does_vote_and_dispatch.
Qed.

Lemma begins_state n P : tail P = len (nd_log n) → pol_leader (prop_to P) = i →
  begins cl n (fabric_stream_begin_epoch_transition_state P) (λ T n', nd_transition n' = Some T ∧ tr_proposal T = P).
Proof.
  intros Ht Hl. apply begins_store. intros d Hd.
  assert (nd_policy n = sd_policy d ∧ nd_transition n = sd_transition d) as [Hp Htr] by (by rewrite <-Hd).
  assert (∀ T, dir_view (nd_pending n) (nd_sent n) (set_transition T d) = with_transition T n) as Hv by (rewrite <-Hd; done).
  assert (sd_policy d = Some (prop_from P) →
    started p0 i net n (with_transition (Some (mkTransition P ∅ false 0)) n)) as Hst.
  { intros H. right. eexists n, _, P. split_and!; [done| |done]. apply PBegin; [by rewrite Hp|done|done]. }
  eapply sdoes_post; [apply sdoes_begin; [by rewrite Hd; left|]|].
  - intros H. rewrite Hv. by apply Hst.
  - intros T d' (H & HTP & [[-> HT]|[-> ->]]); simpl.
    + rewrite Hd. split_and!; [by left|done|done].
    + rewrite Hv. split_and!; [by apply Hst|done|done].
Qed.

Lemma begins_transition n partition rf : begins cl n (fabric_stream_begin_epoch_transition blake3 partition rf) (λ _ n', True).
Proof.
  unfold fabric_stream_begin_epoch_transition. cbv zeta. repeat dstep.
  match goal with H : info_of _ _ |- _ => destruct H as (Hlen & _) end.
  eapply begins_then; [apply begins_state; simpl; [exact Hlen|done]|]. intros T n' [HT HP].
  destruct (tr_finalized T); [by apply does_complete_and_dispatch|by eapply does_vote_and_dispatch].
Qed.

(** ** Pulling and repairing *)

Lemma does_pull n max : does cl n (fabric_stream_pull_epoch_transition max) (λ _ n', sends_only n n').
Proof.
  unfold fabric_stream_pull_epoch_transition. cbv zeta. repeat dstep. case_match; [by dstep|]. repeat dstep.
  case_match; [by dstep|]. case_match. repeat dstep. case_match; [by dstep|]. dstep.
  eapply does_bind; [by apply does_send|]. intros ? ? _ ->. dstep. by eexists.
Qed.

Lemma does_build_pull n request sender cluster :
  does cl n (fabric_stream_build_epoch_pull_response blake3 request sender cluster) (λ r n', n' = n ∧
    nd_policy n = Some (prop_from (pr_proposal r)) ∧ Forall (in_log (nd_log n)) (pr_records r)).
Proof.
  unfold fabric_stream_build_epoch_pull_response. cbv zeta. eapply does_bind; [apply does_validate_shape|]. intros ? ? _ [-> _].
  repeat dstep. eapply does_bind; [apply does_check_from|]. intros ? ? _ [-> Hp].
  eapply does_bind; [apply does_check_placement|]. intros ? ? _ [-> Hgood]. repeat dstep. split_and!; [done|done|]. simpl.
  match goal with H : Forall _ _ |- _ => apply (Forall_impl _ _ _ H) end. by intros r [_ ?].
Qed.

(** A record of a packet is appended. *)
Lemma does_repair_record n r : (rec_sequence r = len (nd_log n) + 1 → step n (with_log (nd_log n ++ [rec_payload r]) n)) →
  does cl n (fabric_stream_apply_transition_repair_record (rec_sequence r) (rec_payload r)) (λ _ n',
    nd_policy n' = nd_policy n ∧ nd_transition n' = nd_transition n).
Proof.
  intros Hs. unfold fabric_stream_apply_transition_repair_record. eapply does_bind; [by apply does_append_replica|].
  intros b n' _ Hb. eapply does_post; [apply does_guard|]. intros ? ? _ [-> _]. by destruct Hb as [(_ & -> & _)|(_ & _ & ->)].
Qed.

Lemma does_apply_pulled response from : received net i from (EpochPullResponsePacket response) →
  ∀ records n expected, nd_policy n = Some (prop_from (pr_proposal response)) → (∀ r, r ∈ records → r ∈ pr_records response) →
  does cl n (apply_pulled expected records) (λ _ n', True).
Proof.
  intros Hr. induction records as [|r records IH]; intros n expected Hp Hin; simpl; [by dstep|]. dstep.
  eapply does_bind; [apply does_repair_record|].
  - intros Hs. eapply PPull; [done|done|apply Hin; by left|done].
  - intros ? n' _ [Hp' _]. apply IH; [by rewrite Hp'|]. intros r' Hr'. apply Hin. by right.
Qed.

Lemma does_apply_pull n response sender cluster from : received net i from (EpochPullResponsePacket response) →
  does cl n (fabric_stream_apply_epoch_pull_response blake3 response sender cluster) (λ _ n', True).
Proof.
  intros Hr. unfold fabric_stream_apply_epoch_pull_response. cbv zeta. eapply does_bind; [apply does_validate_shape|].
  intros ? ? _ [-> _]. repeat dstep. eapply does_bind; [apply does_check_from|]. intros ? ? _ [-> Hp].
  eapply does_bind; [apply does_check_placement|]. intros ? ? _ [-> Hgood]. repeat dstep.
  eapply does_bind; [by eapply does_apply_pulled|]. intros ? ? _ _. by dstep.
Qed.

Lemma take_through_in s (log : list bytes) rs : Forall (in_log log) rs → Forall (in_log log) (take_through s rs).
Proof.
  induction 1 as [|r rs Hr Hrs IH]; simpl; [constructor|]. case_match; [by constructor|constructor].
Qed.

Lemma does_repair_batches T max replicas : ∀ n report batches,
  Forall (λ b, rb_proposal b = tr_proposal T ∧ Forall (in_log (nd_log n)) (rb_records b)) batches →
  does cl n (repair_batches T i max replicas report batches) (λ a n', n' = n ∧
    Forall (λ b, rb_proposal b = tr_proposal T ∧ Forall (in_log (nd_log n)) (rb_records b)) a.2).
Proof.
  induction replicas as [|replica replicas IH]; intros n report batches Hb; simpl; [by dstep|].
  case_match; [by apply IH|]. case_match; [|by apply IH]. case_match; [by apply IH|]. case_match; [by apply IH|].
  case_match; [by apply IH|]. repeat dstep. apply IH. apply Forall_app. split; [done|]. apply Forall_singleton. simpl.
  split; [done|]. apply take_through_in. match goal with H : Forall _ ?rs |- Forall _ ?rs => apply (Forall_impl _ _ _ H) end.
  by intros r [_ ?].
Qed.

Lemma does_repair n max : does cl n (fabric_stream_repair_epoch_transition max) (λ _ n', sends_only n n').
Proof.
  unfold fabric_stream_repair_epoch_transition. cbv zeta. dstep. dstep. dstep. rename a0 into T. case_match; [by dstep|]. repeat dstep.
  eapply does_bind; [by apply does_repair_batches|]. intros [report batches] ? _ [-> Hb]. simpl in Hb. repeat dstep.
  eapply does_bind; [eapply (does_send_all _ _ _ _ _ _ _ i rb_target EpochRepairPacket); [done|]|].
  - intros b [_ Hin]%list_elem_of_filter. rewrite Forall_forall in Hb. destruct (Hb b Hin) as [HP Hrs].
    match goal with H : info_of _ _ |- _ => destruct H as (Hlen & _) end.
    split; [done|]. simpl. exists T. rewrite HP. split_and!; [done|done|congruence|done].
  - intros ? ? _ Hs. by dstep.
Qed.

Lemma does_apply_repaired b from local_tail : received net i from (EpochRepairPacket b) →
  ∀ records n expected, nd_policy n = Some (prop_from (rb_proposal b)) → (∀ r, r ∈ records → r ∈ rb_records b) →
  does cl n (apply_repaired local_tail expected records) (λ _ n', True).
Proof.
  intros Hr. induction records as [|r records IH]; intros n expected Hp Hin; simpl; [by dstep|].
  assert (∀ r', r' ∈ records → r' ∈ rb_records b) as Hin' by (intros r' Hr'; apply Hin; by right).
  case_match.
  - dstep. case_match; [|by dstep]. case_match; [by apply IH|by dstep].
  - dstep. eapply does_bind; [apply does_repair_record|].
    + intros Hs. eapply PRepair; [done|done|apply Hin; by left|done].
    + intros ? n' _ [Hp' _]. apply IH; [by rewrite Hp'|done].
Qed.

Lemma does_apply_repair n b sender cluster from : received net i from (EpochRepairPacket b) →
  does cl n (fabric_stream_apply_epoch_repair_from_cluster blake3 b sender cluster) (λ v n', votes_for (rb_proposal b) v n').
Proof.
  intros Hr. unfold fabric_stream_apply_epoch_repair_from_cluster. cbv zeta. eapply does_bind; [apply does_validate_shape|].
  intros ? ? _ [-> _]. repeat dstep. eapply does_bind; [apply does_check_from|]. intros ? ? _ [-> Hp].
  eapply does_bind; [apply does_check_placement|]. intros ? ? _ [-> Hgood]. repeat dstep.
  eapply does_bind; [by eapply does_apply_repaired|]. intros ? n' _ _. eapply does_post; [apply does_evaluate|].
  - right. left. by exists from, b.
  - by intros v n2 _ [? _].
Qed.

Lemma does_apply_epoch_commit n c sender cluster : received net i sender (EpochCommitPacket c) →
  does cl n (fabric_stream_apply_epoch_commit_from_cluster blake3 c sender cluster) (λ _ n', True).
Proof.
  intros Hr. unfold fabric_stream_apply_epoch_commit_from_cluster. cbv zeta. eapply does_bind; [apply does_validate_shape|].
  intros ? ? _ [-> _]. repeat dstep. eapply does_bind; [apply does_check_placement|]. intros ? ? _ [-> _]. repeat dstep.
  match goal with H : info_of _ _ |- _ => destruct H as (Hlen & _) end. rewrite Hlen in *.
  match goal with H : nd_promise n = Some ?p |- _ => rename p into pr, H into Hpr end.
  assert (promised n (ec_proposal c)) as Hprom by (unfold promised; rewrite Hpr; destruct pr; simpl in *; congruence).
  assert (received net i (pol_leader (prop_to (ec_proposal c))) (EpochCommitPacket c)) as Hr' by congruence.
  eapply does_bind; [apply does_install|].
  { intros Hp _. by apply PInstall. }
  intros ? ? _ ->. dstep. eapply (does_bind _ _ _ _ _ _ _ _ (λ _ n', True)).
  - case_match; [|by dstep]. eapply does_post; [apply does_commit|done]. intros _. eapply rtc_once, PCommitEpoch; [done|done|congruence].
  - intros ? n' _ _. eapply does_post; [apply does_retire|done].
Qed.

(** ** Failover *)

Lemma begins_drive n : begins cl n (fabric_stream_drive_auto_failover_once blake3) (λ _ n', True).
Proof.
  unfold fabric_stream_drive_auto_failover_once. cbv zeta. dstep. dstep. case_match; [apply begins_does, does_resume|]. repeat dstep.
  case_match; [apply begins_transition|]. apply begins_does. eapply (does_bind _ _ _ _ _ _ _ _ (λ _ n', True)).
  { case_match; [|by dstep]. eapply does_bind; [apply does_pull|]. intros ? ? _ _. by dstep. }
  intros [] n1 _ _; [by dstep|]. eapply (does_bind _ _ _ _ _ _ _ _ (λ _ n', True)).
  { case_match; [|by dstep]. eapply does_bind; [apply does_repair|]. intros ? ? _ _. by dstep. }
  intros [] n2 _ _; [by dstep|]. apply does_resume.
Qed.

Lemma does_exists n : does cl n fabric_stream_exists (λ _ n', n' = n).
Proof.
  eapply does_post; [apply (does_reads _ _ _ _ _ _ _ (λ _ _, True) (λ _ _, True)); [|done]|by intros ? ? _ [-> _]].
  intros d E HE. eapply sdoes_post; [by apply sdoes_read|]. by intros ? ? [-> _].
Qed.

Lemma begins_tick n : begins cl n (fabric_stream_tick_auto_failover blake3) (λ _ n', True).
Proof.
  unfold fabric_stream_tick_auto_failover. dstep. eapply begins_bind; [apply does_try, does_exists|]. intros [found|] n1 _ _; [|by dstep].
  eapply (begins_bind _ _ _ _ _ _ _ _ (λ _ n', True)).
  { destruct found; [|by dstep]. eapply does_bind; [apply does_try, does_transition|]. intros [[T|]|] n2 _ _; try by dstep.
    eapply does_post; [apply does_hidden|done]. intros rt. by case_match. }
  intros ? n2 _ _. eapply (begins_bind _ _ _ _ _ _ _ _ (λ _ n', True)).
  { intros rt Hrt Hv. eexists _, _. by rewrite Hv. }
  intros rt n3 _ _. destruct (rt_failover_retry rt) as [[next ?]|]; [|by dstep]. case_match; [|by dstep].
  eapply begins_then; [apply begins_try, begins_drive|]. intros r n4 _. eapply does_post; [apply does_hidden|done].
  intros rt'. destruct r; repeat case_match; done.
Qed.

Lemma begins_failover_stream n cluster π : begins cl n (failover_stream blake3 i cluster π) (λ _ n', True).
Proof.
  unfold failover_stream. cbv zeta. case_match; [by dstep|]. eapply begins_bind; [apply does_try, does_placement|].
  intros [placement|] n1 _ _; [|by dstep]. case_match; [by dstep|]. case_match; [by dstep|].
  eapply begins_then; [apply begins_try, begins_transition|]. intros [status|] n2 _; [|by dstep].
  eapply (does_bind _ _ _ _ _ _ _ _ (λ _ n', True)); [|intros; by dstep].
  case_match; [by dstep|]. by eapply does_post; [apply does_hidden|].
Qed.

Lemma begins_failover n removed : begins cl n (fabric_stream_failover_confirmed_removed blake3 removed) (λ _ n', True).
Proof.
  unfold fabric_stream_failover_confirmed_removed. repeat dstep. eapply begins_bind; [apply does_try, does_exists|].
  intros [[]|[]] n1 _ _; try by dstep. eapply begins_bind; [apply does_try, does_policy|].
  intros [[π|]|] n2 _ _; try by dstep. case_match; [by dstep|]. apply begins_failover_stream.
Qed.

(** ** Packets *)

Lemma does_reply n cluster to packet : may_send i n (mkEnvelope i to i packet) →
  does cl n (reply cluster to packet) (λ _ n', True).
Proof.
  intros Hs. unfold reply. eapply does_bind; [apply does_address|]. intros ? ? _ ->. repeat dstep.
  by eapply does_post; [apply does_send|].
Qed.

Lemma may_send_vote n P v to : votes_for P v n → may_send i n (mkEnvelope i to i (EpochVotePacket v)).
Proof. intros (Hi & He & Hh & Hacc). split; [done|]. simpl. intros Ha. split; [done|]. exists P. auto. Qed.

Lemma does_handle_vote n from v cluster : received net i from (EpochVotePacket v) →
  does cl n (handle_epoch_vote from v cluster) (λ _ n', True).
Proof.
  intros Hr. unfold handle_epoch_vote. eapply does_bind; [apply does_record_vote_from_cluster|].
  - intros T0 _ Hv _. left. congruence.
  - intros o n' _ (T0 & _ & Hc). destruct (vo_commit o) as [c|] eqn:Ho; [|by dstep]. dstep.
    eapply does_post; [eapply (does_send_all _ _ _ _ _ _ _ i (λ node, node) (λ _, EpochCommitPacket c)); [done|]|done].
    intros node _. by eapply may_send_commit.
Qed.

End candidates.
End transit.
