(* ===== verification/FabricSafety.v ===== *)
(** * Fabric streams: committed records agree

    The events of [FabricSystem] are steps of the protocol, whose invariant
    every reachable system therefore has. *)
From Stdlib Require Import String.
From S2P Require Import Prelude Bytes Text FabricStore FabricCluster FabricEpoch FabricSystem FabricProtocol FabricElect.
From S2P Require Import FabricAgree FabricInvariant FabricHistory FabricSteps FabricLogic FabricCalls FabricRefine FabricReplicate FabricTransit.

Local Open Scope list_scope.
Local Open Scope N_scope.

(** ** Events *)

Section events.
Context (name : bytes) (p0 : Policy) (i : N) (net : Envelope → Prop).
Context (blake3 : bytes → bytes) (append_json : FabricStreamReplicaAppend → bytes) (order : gset N → list N).

Abbreviation does := (does name p0 i net).
Abbreviation begins := (begins name p0 i net).
Abbreviation boots := (boots name p0 i blake3).

(** The partition and the replication factor with which an event may give a
    policy to a node that has none. *)
Definition bootstrap_of (event : Event) : option (N * N) :=
  match event with
  | ReplicatedAppend partition rf _ | PrepareAppend partition rf _ => Some (partition, rf)
  | Deliver e => match env_packet e with ReplicaPacket a => Some (app_partition a, app_replication_factor a) | _ => None end
  | _ => None
  end.

Lemma does_handle_packet cl n e cluster : net e → env_to e = i →
  (∀ a, env_packet e = ReplicaPacket a → boots n (Some cluster) (app_partition a) (app_replication_factor a)) →
  does cl n (handle_packet blake3 append_json (env_from e) (env_sender e) (env_packet e) cluster) (λ _ n', True).
Proof.
  intros He Hto Hboot. unfold handle_packet. dstep.
  assert (∀ p, env_packet e = p → received net i (env_from e) p) as Hr by (intros p Hp; by exists e).
  destruct (env_packet e) as [append|k|u|P|v|c|b|q|r] eqn:Hp; pose proof (Hr _ eq_refl) as Hrp.
  - by apply does_handle_replica; [|apply Hboot].
  - by apply does_handle_ack.
  - by apply does_handle_commit.
  - unfold handle_epoch_prepare. eapply does_bind; [apply does_evaluate; left; by eexists|]. intros vote n' _ [Hv _].
    by eapply does_reply, may_send_vote.
  - by apply does_handle_vote.
  - by apply does_apply_epoch_commit.
  - unfold handle_epoch_repair. eapply does_bind; [by eapply does_apply_repair|]. intros vote n' _ Hv.
    by eapply does_reply, may_send_vote.
  - unfold handle_epoch_pull_request. eapply does_bind; [apply does_build_pull|]. intros r ? _ (-> & Hpol & Hrs).
    apply does_reply. by split.
  - eapply does_bind; [by eapply does_apply_pull|]. intros ? ? _ _. by dstep.
Qed.

Definition reads_committed (records : list FabricStreamRecord) (n : Nd) : Prop :=
  Forall (λ r, rec_sequence r ≤ nd_commit n ∧ in_log (nd_log n) r) records.

Lemma begins_done {A} cl n (m : RtOp A) Q : begins cl n m Q → begins cl n (done m) reads_committed.
Proof. intros Hm. eapply begins_then; [done|]. intros a n' _. apply does_ret. constructor. Qed.

Lemma does_done {A} cl n (m : RtOp A) Q : does cl n m Q → begins cl n (done m) reads_committed.
Proof. intros Hm. by eapply begins_done, begins_does. Qed.

Lemma begins_event n cluster event :
  match event with Deliver e => net e ∧ env_to e = i | _ => True end →
  (∀ partition rf, bootstrap_of event = Some (partition, rf) → boots n (Some cluster) partition rf) →
  begins (Some cluster) n (run_event blake3 append_json order cluster event) reads_committed.
Proof.
  intros Hdel Hboot. destruct event; simpl in *.
  - destruct Hdel as [He Hto]. eapply does_done, does_handle_packet; [done|done|]. intros a Ha. apply Hboot. by rewrite Ha.
  - eapply does_done, does_create.
  - by eapply does_done, does_replicated_append, Hboot.
  - by eapply does_done, does_prepare_append, Hboot.
  - eapply does_done, does_recover_pending.
  - eapply does_done, does_retry_pending.
  - eapply does_done, does_tick_retries.
  - eapply does_done, does_catch_up.
  - eapply begins_done, begins_transition.
  - eapply does_done, does_resume.
  - eapply does_done, does_pull.
  - eapply does_done, does_repair.
  - eapply begins_done, begins_tick.
  - eapply begins_done, begins_failover.
  - eapply does_done, does_commit_cursor.
  - apply begins_does. eapply does_post; [apply does_read_committed|]. by intros rs ? _ [-> Hrs].
  - eapply does_done, (does_modify _ _ _ _ _ _ _ (with_pending ∅ n)).
    + by intros rt Hrt <-.
    + apply rtc_once, PTicketsWeaker. intros pt s t'. unfold ticket_at, ticket_of. by rewrite lookup_empty.
Qed.
End events.

(** ** Systems *)

Definition dir_of (rt : Runtime) : StreamDir :=
  match rt_fabric_streams rt with Some store => fs_stream store | None => new_dir end.

Section runs.
Context (blake3 : bytes → bytes) (append_json : FabricStreamReplicaAppend → bytes) (order : gset N → list N) (name : bytes).
Context (p0 : Policy) (Allowed : Proposal → Prop).

(** A node that gets its first policy in a step computes [p0]. *)
Definition starts_with_p0 (sy : System) (s : Step) : Prop :=
  ∀ partition rf placement, sd_policy (dir_of (sy_nodes sy (sp_node s))) = None →
    bootstrap_of (sp_event s) = Some (partition, rf) →
    compute_stream_placement blake3 (sp_node s) (Some (sp_cluster s)) name partition rf = Some (Ok placement) →
    policy_from_placement placement FABRIC_STREAM_INITIAL_EPOCH = p0.

(** The proposal of a node's transition is allowed. *)
Definition proposes_allowed (sy : System) (i : N) : Prop :=
  ∀ T, sd_transition (dir_of (sy_nodes sy i)) = Some T → Allowed (tr_proposal T).

Inductive fabric_run : System → Prop :=
| RunStart : fabric_run (start_fabric name)
| RunStep sy s sy' :
    fabric_run sy → fabric_step blake3 append_json order sy s sy' → starts_with_p0 sy s →
    proposes_allowed sy' (sp_node s) → fabric_run sy'.

Context (allowed_meet : ∀ P, Allowed P → quorums_meet P).
Context (allowed_hash : ∀ P P', Allowed P → Allowed P' → prop_hash P = prop_hash P' → P = P').

Abbreviation ghost_ok := (ghost_ok p0 Allowed).
Abbreviation node_ok := (node_ok p0 Allowed).
Abbreviation envelope_ok := (envelope_ok Allowed).

Definition read_ok (g : Ghost) (r : FabricStreamRecord) : Prop :=
  ∃ π s, fact g π s ∧ rec_sequence r ≤ s ∧ in_log (g_records g π) r.

Record nodes_ok (g : Ghost) (nodes : N → Nd) (reads : list FabricStreamRecord) (net : Envelope → Prop) : Prop := {
  ns_ghost : ghost_ok g;
  ns_nodes : ∀ i, node_ok g i (nodes i);
  ns_sent : ∀ i e, e ∈ nd_sent (nodes i) → envelope_ok g e;
  ns_reads : Forall (read_ok g) reads;
  ns_net : ∀ e, net e → envelope_ok g e;
}.

Definition put (i : N) (n : Nd) (nodes : N → Nd) : N → Nd := λ j, if j =? i then n else nodes j.

Lemma nodes_same g nodes nodes' reads net : (∀ j, nodes' j = nodes j) → nodes_ok g nodes reads net → nodes_ok g nodes' reads net.
Proof.
  intros Heq [H1 H2 H3 H4 H5]. split; [done| | |done|done].
  - intros j. rewrite Heq. apply H2.
  - intros j e. rewrite Heq. apply H3.
Qed.

Lemma nodes_step g nodes reads net i n' : nodes_ok g nodes reads net → step_result p0 Allowed g i (nodes i) n' →
  ∃ g', nodes_ok g' (put i n' nodes) reads net.
Proof.
  intros [Hg Hn Hs Hr Hnet] (g' & Hx & Hg' & Hn' & Hs'). exists g'.
  assert (∀ e, envelope_ok g e → envelope_ok g' e) as He by (intros e; by eapply packet_mono).
  split; [done| | | |].
  - intros j. unfold put. destruct (N.eqb_spec j i) as [->|Hj]; [done|]. by eapply other_node.
  - intros j e. unfold put. destruct (N.eqb_spec j i) as [->|Hj]; intros Hin; [|by eapply He, Hs].
    destruct (Hs' e Hin) as [H|[_ H]]; [by eapply He, Hs|done].
  - apply (Forall_impl _ _ _ Hr). intros r (π & s & Hf & Hle & Hin). exists π, s.
    split_and!; [by eapply fact_mono|done|]. destruct (fact_installed p0 Allowed allowed_meet g Hg π s Hf) as [j Hj].
    by eapply in_log_mono.
  - auto.
Qed.

Lemma nodes_quiet net i n n' : rtc (pstep p0 i net) n n' → ∀ g nodes reads, nodes_ok g (put i n nodes) reads net →
  ∃ g', nodes_ok g' (put i n' nodes) reads net.
Proof.
  assert (∀ n nodes, put i n nodes i = n) as Hput by (intros; unfold put; by rewrite N.eqb_refl).
  induction 1 as [|n n1 n2 Hs Hq IH]; intros g nodes reads Hok; [by exists g|].
  destruct (nodes_step _ _ _ _ i n1 Hok) as [g' Hok'].
  { eapply pstep_ok; [done|done|apply (ns_ghost _ _ _ _ Hok)| |apply (ns_net _ _ _ _ Hok)|]; rewrite Hput; [|done].
    pose proof (ns_nodes _ _ _ _ Hok i) as H. by rewrite Hput in H. }
  apply (IH g' nodes reads). by apply nodes_same with (put i n1 (put i n nodes)); [intros j; unfold put; destruct (j =? i)|].
Qed.

(** The proposal of a transition stays, unless a transition is started. *)
Lemma quiet_proposal net i n n' : rtc (pstep p0 i net) n n' →
  option_map tr_proposal (nd_transition n') = option_map tr_proposal (nd_transition n).
Proof.
  induction 1 as [|n n1 n2 Hs Hq IH]; [done|]. rewrite IH. destruct Hs; simpl; try done.
  - match goal with H : nd_transition n = Some _ |- _ => by rewrite H end.
  - match goal with H : nd_transition n = Some _ |- _ => by rewrite H end.
Qed.

Lemma nodes_started net i n n' g nodes reads : started p0 i net n n' → nodes_ok g (put i n nodes) reads net →
  (∀ T, nd_transition n' = Some T → Allowed (tr_proposal T)) → ∃ g', nodes_ok g' (put i n' nodes) reads net.
Proof.
  intros [Hq|(n1 & n2 & P & Hq & Hb & Hq')] Hok Hall; [by eapply nodes_quiet|].
  destruct (nodes_quiet _ _ _ _ Hq _ _ _ Hok) as [g1 Hok1].
  assert (put i n1 nodes i = n1) as Hput by (unfold put; by rewrite N.eqb_refl).
  assert (Allowed P) as HP.
  { apply quiet_proposal in Hq'. destruct Hb. simpl in Hq'. destruct (nd_transition n') as [T|] eqn:HT; [|done].
    injection Hq' as <-. by apply Hall. }
  destruct (nodes_step g1 _ reads net i n2 Hok1) as [g2 Hok2].
  { rewrite Hput. eapply bstep_ok; [apply (ns_ghost _ _ _ _ Hok1)| |done|done].
    pose proof (ns_nodes _ _ _ _ Hok1 i) as H. by rewrite Hput in H. }
  eapply nodes_quiet; [done|]. by apply nodes_same with (put i n2 (put i n1 nodes)); [intros j; unfold put; destruct (j =? i)|].
Qed.

(** Records that a node reads are committed. *)
Lemma reads_ok g i n records : node_ok g i n → reads_committed records n → Forall (read_ok g) records.
Proof.
  intros Hn Hrs. apply (Forall_impl _ _ _ Hrs). intros r [Hc Hin]. pose proof (log_at_len _ _ _ Hin) as [H1 _].
  destruct (no_commit _ _ _ _ _ Hn) as [H0|(π & s & Hf & Hs & Hlen & Hpre)]; [lia|]. exists π, s. split_and!; [done|lia|].
  unfold in_log in *. by rewrite <-(log_at_pre _ (nd_commit n)), <-Hpre, log_at_pre.
Qed.

Definition stands (i : N) (rt : Runtime) : Prop :=
  rt_node_id rt = Some i ∧ is_Some (rt_transport rt) ∧ ∃ store, rt_fabric_streams rt = Some store ∧ fs_name store = name.

Definition system_ok (sy : System) : Prop :=
  (∀ i, stands i (sy_nodes sy i)) ∧ ∃ g, nodes_ok g (λ i, view (sy_nodes sy i)) (sy_reads sy) (was_sent sy).

Lemma prepared s rt : stands (sp_node s) rt →
  runs_on name (sp_node s) (Some (sp_cluster s)) (prepare_node s rt) ∧ view (prepare_node s rt) = view rt.
Proof.
  intros (Hi & Ht & store & Hs & Hn). unfold prepare_node, view, runs_on, sent_packets. simpl. rewrite Hs. simpl.
  split; [|done]. split_and!; [done|done|done|]. by eexists.
Qed.

(** What a step does. *)
Lemma step_begins sy s : system_ok sy → starts_with_p0 sy s →
  match sp_event s with Deliver e => was_sent sy e ∧ env_to e = sp_node s | _ => True end →
  let rt := sy_nodes sy (sp_node s) in
  ∃ r rt', run_event blake3 append_json order (sp_cluster s) (sp_event s) (prepare_node s rt) = Some (r, rt') ∧
    stands (sp_node s) rt' ∧ started p0 (sp_node s) (was_sent sy) (view rt) (view rt') ∧
    match r with Ok records => reads_committed records (view rt') | Err _ => True end.
Proof.
  intros [Hst _] Hp0 Hdel rt. destruct (prepared s rt (Hst _)) as [Hrun Hview].
  destruct (begins_event name p0 (sp_node s) (was_sent sy) blake3 append_json order (view rt) (sp_cluster s) (sp_event s)
    Hdel) with (rt := prepare_node s rt) as (r & rt' & Heq & (Hi & _ & Ht & Hs) & Hst' & Hr); [|done|done|].
  - intros partition rf Hb Hnone placement Hpl. by eapply Hp0.
  - exists r, rt'. by split_and!.
Qed.

Lemma start_ok : system_ok (start_fabric name).
Proof.
  split; [intros i; split_and!; [done|by eexists|by eexists]|].
  exists (mkGhost (λ _ _, False) (λ _ _, False) (λ _, False) (λ _ _ _, False) (λ _, [])). split; try done.
  - intros i. split; simpl; try done; [|by left]. intros _. split_and!; try done. by intros _ [].
  - intros i e He. by apply elem_of_nil in He.
  - intros e [i He]. by apply elem_of_nil in He.
Qed.

Lemma step_ok sy s sy' : system_ok sy → fabric_step blake3 append_json order sy s sy' → starts_with_p0 sy s →
  proposes_allowed sy' (sp_node s) → system_ok sy'.
Proof.
  intros Hok Hstep Hp0 Hall. destruct Hstep as [r rt' Hdel Hrun].
  destruct (step_begins sy s Hok Hp0 Hdel) as (r2 & rt2 & Hrun2 & Hst & Hstart & Hr). rewrite Hrun in Hrun2.
  injection Hrun2 as <- <-. destruct Hok as [Hsts [g Hg]]. split.
  - intros j. simpl. unfold put_node. destruct (N.eqb_spec j (sp_node s)) as [->|]; [done|apply Hsts].
  - destruct (nodes_started (was_sent sy) (sp_node s) _ _ g (λ i, view (sy_nodes sy i)) (sy_reads sy) Hstart) as [g' Hg'].
    + apply nodes_same with (λ i, view (sy_nodes sy i)); [|done]. intros j. unfold put. by destruct (N.eqb_spec j (sp_node s)) as [->|].
    + intros T HT. apply Hall. unfold dir_of. simpl. unfold put_node. by rewrite N.eqb_refl.
    + exists g'. destruct Hg' as [H1 H2 H3 H4 H5].
      assert (∀ j, view (put_node (sp_node s) rt' (sy_nodes sy) j) = put (sp_node s) (view rt') (λ i, view (sy_nodes sy i)) j) as Heq
        by (intros j; unfold put, put_node; by destruct (j =? sp_node s)).
      split; cbn [sy_nodes sy_reads]; [done| | | |].
      * intros j. rewrite Heq. apply H2.
      * intros j e. rewrite Heq. apply H3.
      * apply Forall_app. split; [done|]. destruct r as [records|]; [|constructor]. eapply reads_ok; [|done].
        pose proof (H2 (sp_node s)) as H. unfold put in H. by rewrite N.eqb_refl in H.
      * intros e [j He]. simpl in He. apply (H3 j). by rewrite <-Heq.
Qed.

Lemma run_ok sy : fabric_run sy → system_ok sy.
Proof. induction 1; [apply start_ok|by eapply step_ok]. Qed.
End runs.
