(* ===== verification/FabricRuns.v ===== *)
(** * Fabric streams: safety, and runs

    Committed records of a stream agree on all nodes and for all readers, in
    every run in which majorities of consecutive epochs meet.  A run in which
    they do not meet commits two records with one sequence.  Runs are given by
    scripts; two more of them show a failover that cannot go on, and a panic. *)
From Stdlib Require Import String.
From S2P Require Import Prelude Bytes Text FabricStore FabricCluster FabricEpoch FabricSystem FabricProtocol.
From S2P Require Import FabricElect FabricAgree FabricInvariant FabricHistory FabricSteps FabricLogic FabricSafety.

Local Open Scope list_scope.
Local Open Scope N_scope.

(** A record that is committed on a node or has been given to a reader. *)
Definition committed_record (sy : System) (r : FabricStreamRecord) : Prop :=
  r ∈ sy_reads sy ∨
  ∃ i, rec_sequence r ≤ sd_commit (dir_of (sy_nodes sy i)) ∧ in_log (sd_log (dir_of (sy_nodes sy i))) r.

Section safety.
Context (blake3 : bytes → bytes) (append_json : FabricStreamReplicaAppend → bytes) (order : gset N → list N) (name : bytes).
Context (p0 : Policy) (Allowed : Proposal → Prop).
Context (allowed_meet : ∀ P, Allowed P → quorums_meet P).
Context (allowed_hash : ∀ P P', Allowed P → Allowed P' → prop_hash P = prop_hash P' → P = P').

Lemma committed_read_ok sy g r : nodes_ok p0 Allowed g (λ i, view (sy_nodes sy i)) (sy_reads sy) (was_sent sy) →
  committed_record sy r → read_ok g r.
Proof.
  intros [_ Hn _ Hr _] [Hin|(i & Hc & Hin)].
  - rewrite Forall_forall in Hr. by apply Hr.
  - pose proof (reads_ok p0 Allowed g i _ [r] (Hn i)) as H. apply Forall_singleton, H. apply Forall_singleton. by split.
Qed.

Lemma read_ok_agree g r r' : ghost_ok p0 Allowed g → read_ok g r → read_ok g r' → rec_sequence r = rec_sequence r' → r = r'.
Proof.
  intros Hg (π & s & Hf & Hs & Hin) (π' & s' & Hf' & Hs' & Hin') Heq. destruct r as [q v], r' as [q' v']. simpl in *. subst q'.
  f_equal. unfold in_log in *. simpl in *. by eapply (facts_agree p0 Allowed allowed_meet g Hg π s π' s' q).
Qed.
End safety.

(** [C1] Committed records of a Fabric stream agree, for every network, every
    pattern of failing calls on files, restarts, and every view of the
    membership that the nodes may have: in every run in which the nodes that get
    their first policy compute the same one, and in which the proposals that are
    made let a majority of the old and of the new replicas meet and have
    different digests, two records with one sequence that are committed on any
    node, or that were ever given to a reader, are the same.  The committed
    boundary of a node is within its log, and no event makes a node panic. *)
Theorem fabric_committed_records_agree blake3 append_json order name p0 (Allowed : Proposal → Prop) sy :
  (∀ P, Allowed P → quorums_meet P) →
  (∀ P P', Allowed P → Allowed P' → prop_hash P = prop_hash P' → P = P') →
  fabric_run blake3 append_json order name p0 Allowed sy →
  (∀ r r', committed_record sy r → committed_record sy r' → rec_sequence r = rec_sequence r' → r = r') ∧
  (∀ i, sd_commit (dir_of (sy_nodes sy i)) ≤ len (sd_log (dir_of (sy_nodes sy i)))) ∧
  (∀ s, starts_with_p0 blake3 name p0 sy s →
     match sp_event s with Deliver e => was_sent sy e ∧ env_to e = sp_node s | _ => True end →
     ∃ sy', fabric_step blake3 append_json order sy s sy').
Proof.
  intros Hmeet Hhash Hrun. destruct (run_ok _ _ _ _ _ _ Hmeet Hhash sy Hrun) as [Hst [g Hg]]. split_and!.
  - intros r r' Hr Hr'. eapply (read_ok_agree p0 Allowed Hmeet g); [by destruct Hg|by eapply committed_read_ok..].
  - intros i. destruct (no_commit _ _ _ _ _ (ns_nodes _ _ _ _ _ _ Hg i)) as [H|(_ & _ & _ & _ & H & _)]; [|done].
    simpl in H. unfold dir_of. lia.
  - intros s Hp0 Hdel. destruct (step_begins blake3 append_json order name p0 Allowed sy s) as (r & rt & Heq & _); [by split; [|exists g]|done|done|].
    eexists. by eapply FabricStep.
Qed.

(** ** Runs by script *)

Inductive Act :=
| Happens (node : N) (cluster : ClusterState) (event : Event)
| Faulty (node : N) (cluster : ClusterState) (faults : list Fault) (event : Event)
| Takes (from : N) (number : nat) (cluster : ClusterState).

Section scripts.
Context (blake3 : bytes → bytes) (append_json : FabricStreamReplicaAppend → bytes) (order : gset N → list N) (name : bytes).
Context (p0 : Policy) (allowed : list Proposal).

Abbreviation run := (fabric_run blake3 append_json order name p0 (.∈ allowed)).

(** A packet is named by the node that sent it and its number. *)
Definition act_step (sy : System) (act : Act) : option Step :=
  match act with
  | Happens node cluster event =>
      match event with Deliver _ => None | _ => Some (mkStep node cluster 0 [] event) end
  | Faulty node cluster faults event =>
      match event with Deliver _ => None | _ => Some (mkStep node cluster 0 faults event) end
  | Takes from number cluster =>
      match sent_by (sy_nodes sy from) !! number with
      | Some e => Some (mkStep (env_to e) cluster 0 [] (Deliver e))
      | None => None
      end
  end.

Definition starts_check (sy : System) (s : Step) : bool :=
  match sd_policy (dir_of (sy_nodes sy (sp_node s))), bootstrap_of (sp_event s) with
  | None, Some (partition, rf) =>
      match compute_stream_placement blake3 (sp_node s) (Some (sp_cluster s)) name partition rf with
      | Some (Ok placement) => bool_decide (policy_from_placement placement FABRIC_STREAM_INITIAL_EPOCH = p0)
      | _ => true
      end
  | _, _ => true
  end.

Definition proposes_check (sy : System) (i : N) : bool :=
  match sd_transition (dir_of (sy_nodes sy i)) with Some T => bool_decide (tr_proposal T ∈ allowed) | None => true end.

Definition play (sy : System) (act : Act) : option System :=
  match act_step sy act with
  | Some s =>
      if starts_check sy s then
        match exec_step blake3 append_json order sy s with
        | Some sy' => if proposes_check sy' (sp_node s) then Some sy' else None
        | None => None
        end
      else None
  | None => None
  end.

Fixpoint plays (sy : System) (acts : list Act) : option System :=
  match acts with
  | [] => Some sy
  | act :: acts => match play sy act with Some sy => plays sy acts | None => None end
  end.

Lemma act_delivers sy act s : act_step sy act = Some s →
  match sp_event s with Deliver e => was_sent sy e ∧ env_to e = sp_node s | _ => True end.
Proof.
  destruct act as [node cluster event|node cluster faults event|from number cluster]; simpl; [by destruct event; intros [= <-]..|].
  destruct (_ !! number) as [e|] eqn:He; [|done]. intros [= <-]. simpl. split; [|done]. exists from. by eapply list_elem_of_lookup_2.
Qed.

Lemma play_runs sy act sy' : run sy → play sy act = Some sy' → run sy'.
Proof.
  intros Hrun. unfold play. destruct (act_step sy act) as [s|] eqn:Hs; [|done]. destruct (starts_check sy s) eqn:Hst; [|done].
  destruct (exec_step _ _ _ sy s) as [sy2|] eqn:Hex; [|done]. destruct (proposes_check sy2 (sp_node s)) eqn:Hpr; [|done]. intros [= <-].
  eapply RunStep; [exact Hrun| | |].
  - unfold exec_step in Hex. destruct (run_event _ _ _ _ _ _) as [[r rt]|] eqn:Hev; [|done]. injection Hex as <-.
    apply FabricStep; [by eapply act_delivers|done].
  - intros partition rf placement Hnone Hb Hpl. unfold starts_check in Hst. rewrite Hnone, Hb, Hpl in Hst.
    by apply bool_decide_eq_true in Hst.
  - intros T HT. unfold proposes_check in Hpr. rewrite HT in Hpr. by apply bool_decide_eq_true in Hpr.
Qed.

Lemma plays_run acts : ∀ sy sy', run sy → plays sy acts = Some sy' → run sy'.
Proof.
  induction acts as [|act acts IH]; simpl; intros sy sy' Hrun; [by intros [= <-]|].
  destruct (play sy act) as [sy2|] eqn:Hp; [|done]. apply IH. by eapply play_runs.
Qed.

(** The records read in a run that a script gives. *)
Lemma plays_reads acts reads : option_map sy_reads (plays (start_fabric name) acts) = Some reads →
  ∃ sy, run sy ∧ sy_reads sy = reads.
Proof.
  destruct (plays _ acts) as [sy|] eqn:Hp; [|done]. intros [= <-]. exists sy. split; [|done]. eapply plays_run; [apply RunStart|done].
Qed.
End scripts.

(** ** Four runs

    The digest of these runs is the reversal of its input, so digests differ. *)

Definition members (known removed : list N) : ClusterState :=
  mkClusterState (list_to_map (map (λ node, (node, Healthy)) known)) (list_to_set removed).

Definition policy_at (cluster : ClusterState) (rf epoch : N) : Policy :=
  match compute_stream_placement reverse 1 (Some cluster) (str "s") 0 rf with
  | Some (Ok placement) => policy_from_placement placement epoch
  | _ => mkPolicy 0 0 0 0 0 []
  end.

Definition proposal_of (from to : Policy) (tail : N) : Proposal :=
  mkProposal (epoch_proposal_hash reverse (str "s") from to tail) from to tail.

Abbreviation test_run := (fabric_run reverse (λ _, []) elements (str "s")).
Abbreviation record s v := (mkFabricStreamRecord s (str v)).

(** Three nodes; the leader, 3, is removed, 2 takes over with 1 and appends. *)
Definition all3 : ClusterState := members [1; 2; 3] [].
Definition without3 : ClusterState := members [1; 2; 3] [3].
Definition first3 : Policy := policy_at all3 3 1.
Definition failover3 : Proposal := proposal_of first3 (policy_at without3 2 2) 1.

Definition failover_script : list Act :=
  [Happens 3 all3 (CreateStream (mkFabricStreamConfig 100)); Happens 3 all3 (ReplicatedAppend 0 3 (str "a"));
   Takes 3 0 all3; Takes 3 1 all3; Takes 2 0 all3; Happens 3 all3 (ReadCommitted 1 10);
   Happens 2 without3 (ConfirmedRemoved 3); Takes 2 1 without3; Takes 1 1 without3; Takes 2 2 without3;
   Happens 2 without3 (ReplicatedAppend 0 2 (str "b")); Takes 2 3 without3; Takes 1 2 without3;
   Happens 2 without3 (ReadCommitted 1 10)].

Lemma failover_reads : ∃ sy, test_run first3 (.∈ [failover3]) sy ∧ sy_reads sy = [record 1 "a"; record 1 "a"; record 2 "b"].
Proof. apply (plays_reads _ _ _ _ _ _ failover_script). vm_compute. reflexivity. Qed.

Lemma fabric_committed_records_agree_witness :
  ∃ sy, sy_reads sy = [record 1 "a"; record 1 "a"; record 2 "b"] ∧
    (∀ r r', committed_record sy r → committed_record sy r' → rec_sequence r = rec_sequence r' → r = r').
Proof.
  destruct failover_reads as (sy & Hrun & Hreads). exists sy. split; [exact Hreads|].
  apply (fabric_committed_records_agree reverse (λ _, []) elements (str "s") first3 (.∈ [failover3]) sy).
  - intros P ->%list_elem_of_singleton. vm_compute. reflexivity.
  - intros P P' ->%list_elem_of_singleton ->%list_elem_of_singleton _. reflexivity.
  - exact Hrun.
Defined.

(** Node 2 takes over, and a write fails between its transition and its promise.
    Then it gets a record of the old leader, so its proposal is out of date;
    the next one has the same term, and is refused for ever. *)
Definition stuck_script : list Act :=
  [Happens 3 all3 (CreateStream (mkFabricStreamConfig 100)); Happens 3 all3 (ReplicatedAppend 0 3 (str "a"));
   Takes 3 0 all3; Takes 3 1 all3; Happens 3 all3 (ReplicatedAppend 0 3 (str "b"));
   Faulty 2 without3 (repeat NoFault 20 ++ [FaultBefore 5]) (ConfirmedRemoved 3); Takes 3 2 all3].

(** What a node answers to an event, and its transition and promise afterwards. *)
Definition answer (i : N) (cluster : ClusterState) (event : Event) (sy : System)
    : option (option FabricError * option Proposal * option FabricStreamEpochPromise) :=
  match run_event reverse (λ _, []) elements cluster event (prepare_node (mkStep i cluster 0 [] event) (sy_nodes sy i)) with
  | Some (r, rt) =>
      Some (match r with Ok _ => None | Err e => Some e end, option_map tr_proposal (sd_transition (dir_of rt)), sd_promise (dir_of rt))
  | None => None
  end.

Lemma failover_term_stuck :
  option_map (λ sy, (answer 2 without3 (BeginTransition 0 2) sy, answer 2 without3 TickFailover sy))
    (plays reverse (λ _, []) elements (str "s") first3 [failover3] (start_fabric (str "s")) stuck_script) =
  Some (Some (Some AlreadyExists, Some failover3, None), Some (None, Some failover3, None)).
Proof. vm_compute. reflexivity. Qed.

(** A node that has a policy and no identity panics on an append. *)
Definition unnamed (rt : Runtime) : Runtime :=
  mkRuntime None (rt_fabric_streams rt) (rt_cluster rt) (rt_transport rt) (rt_pending rt) (rt_retry_schedules rt)
    (rt_failover_retry rt) (rt_now rt).

Lemma unnamed_append_panics :
  option_map (λ sy, fabric_stream_replicated_append reverse (λ _, []) 0 3 (str "c") (unnamed (sy_nodes sy 3)))
    (plays reverse (λ _, []) elements (str "s") first3 [] (start_fabric (str "s")) (take 2 failover_script)) = Some None.
Proof. vm_compute. reflexivity. Qed.

(** Five nodes.  The leader, 5, moves the stream to 5, 4 and 3, and only 4 hears
    that the transition is final: 5 and 4 commit a record.  Then both are
    removed; 3, which still has the policy of the first epoch, gets the votes
    of 2 and 1 for a later epoch with 3, 2 and 1, and commits another record. *)
Definition all5 : ClusterState := members [1; 2; 3; 4; 5] [].
Definition without45 : ClusterState := members [1; 2; 3; 4; 5] [4; 5].
Definition first5 : Policy := policy_at all5 5 1.
Definition shrink5 : Proposal := proposal_of first5 (policy_at all5 3 2) 1.
Definition failover5 : Proposal := proposal_of first5 (policy_at without45 3 3) 1.

Definition shrink_script : list Act :=
  [Happens 5 all5 (CreateStream (mkFabricStreamConfig 100)); Happens 5 all5 (ReplicatedAppend 0 5 (str "a"));
   Takes 5 0 all5; Takes 5 1 all5; Takes 5 2 all5; Takes 5 3 all5; Takes 4 0 all5; Takes 3 0 all5;
   Happens 5 all5 (BeginTransition 0 3); Takes 5 6 all5; Takes 5 7 all5; Takes 4 1 all5; Takes 3 1 all5; Takes 5 10 all5;
   Happens 5 all5 (ReplicatedAppend 0 3 (str "x")); Takes 5 12 all5; Takes 4 2 all5; Happens 5 all5 (ReadCommitted 1 10);
   Happens 3 without45 (ConfirmedRemoved 5); Takes 3 2 without45; Takes 3 3 without45; Takes 2 1 without45;
   Takes 1 1 without45; Takes 3 4 without45; Happens 3 without45 (ReplicatedAppend 0 3 (str "y"));
   Takes 3 6 without45; Takes 2 2 without45; Happens 3 without45 (ReadCommitted 1 10)].

(** [C9] Without majorities that meet, committed records do not agree: there is a
    run, with one first policy and two proposals of different digests, in which
    readers are given two records of sequence 2.  The first proposal moves a
    stream from five replicas to three, so that a majority of the old replicas
    can leave out a majority of the new ones; a promise for it is superseded by
    one for a later epoch although it has been finalized. *)
Theorem fabric_shrink_diverges :
  ∃ sy, test_run first5 (.∈ [shrink5; failover5]) sy ∧ prop_hash shrink5 ≠ prop_hash failover5 ∧
    record 2 "x" ∈ sy_reads sy ∧ record 2 "y" ∈ sy_reads sy.
Proof.
  destruct (plays_reads reverse (λ _, []) elements (str "s") first5 [shrink5; failover5] shrink_script
    [record 1 "a"; record 2 "x"; record 1 "a"; record 2 "y"]) as (sy & Hrun & Hreads); [vm_compute; reflexivity|].
  exists sy. rewrite Hreads. split_and!; [done|by vm_compute|set_solver|set_solver].
Qed.
